(* ===== verification/_CoqProject ===== *)
-Q . S2P
Prelude.v
Bytes.v
Sha256.v
Utf8.v
BasmHash.v
BasmValues.v
WireReader.v
BasmWire.v
BasmBump.v
Decimal.v
Json.v
Text.v
Unmarshal.v
Cursor.v
Runs.v
Traced.v
GaspTypes.v
GaspWire.v
GaspSync.v
Admission.v
Hosting.v
IdentityQuery.v
EngineTypes.v
AdmissionPlan.v
IdentityOutput.v
EngineModel.v
MerkleProof.v
Submit.v
AdmissionSubmit.v
GaspStorage.v
Lookup.v
IdentityLookup.v
Advertise.v
PeerSync.v
MongoEncoding.v
MongoReceipt.v
MongoDriver.v
MongoModel.v
MongoTransaction.v
MongoRules.v
MongoPlan.v
MongoBlob.v
MongoBlobModel.v
MongoPayload.v
MongoAdmission.v
MongoContent.v
MongoEffects.v
MongoOperation.v
MongoCommit.v
MongoAtomic.v
MongoRetention.v
MongoPayloads.v
MongoStorage.v
MongoOutputs.v
SingleFlight.v
BasmProof.v
BasmRead.v
BasmJson.v
