(* ===== verification/Prelude.v ===== *)
(** * A verification library for go-overlay-services

    The program is an overlay services node: topic managers decide which outputs of
    submitted transactions belong to a topic, lookup services answer questions about
    them, hosts synchronise the history of a topic with each other (GASP), and the
    admissions of a block are committed to a chain of anchors (BASM).  The library models
    the packages src/pkg/core/basm, src/pkg/core/gasp, src/pkg/core/engine and
    src/pkg/topics/identity, and the admissions, payloads and outputs of
    src/pkg/storage/mongodb.

    ** Parts of the program and files of the library

    - basm (pure functions over bytes and a context).  BasmHash: hash.go.  BasmValues:
      values.go, chain.go.  WireReader, BasmWire, BasmBump: wire.go.  BasmJson: json.go and
      the requests of protocol.go.
    - gasp.  GaspTypes: types.go.  GaspWire: wire.go.  GaspSync: gasp.go, one goroutine.
    - engine.  EngineTypes: output.go, storage.go, topic-manager.go, lookup-service.go,
      the interfaces.  Hosting: validation.go.  Admission: admission_storage.go,
      recovery_contract.go and the digests of admission_submit.go.  AdmissionPlan: the
      plans of admission_storage.go and their callback payloads; AdmissionSubmit: the
      submission that commits a plan.  Submit, MerkleProof, Lookup, Advertise, PeerSync:
      engine.go and admission_submit.go.  GaspStorage: gasp-storage.go, the temporary
      graphs of a session.  SingleFlight: the calls that concurrent goroutines share
      (ProcessUTXOToCompletion of gasp.go, submitBeef of gasp-storage.go, RequestNode of
      gasp-remote.go).  BasmProof, BasmRead: basm-read-proof.go, basm-read-service.go,
      basm-read.go and the messages of basm/protocol.go.
    - topics/identity.  IdentityQuery: query.go, the questions and their MongoDB filters.
      IdentityOutput: topic.go, output.go, projection.go and identity.go.  IdentityLookup:
      lookup.go, over the projection of the host.
    - storage/mongodb.  MongoEncoding: encoding.go, the configuration of store.go and the
      identifiers of documents.  MongoDriver: the documents, the database as maps, and the
      driver as a class with its laws.  MongoTransaction: transaction.go.  MongoRules: rules
      for what runs in a transaction and outside of one.  MongoPlan: the checks of a plan in
      admission.go.  MongoPayload: the references to payloads in payload.go.
      MongoAdmission: the body of an admission in admission.go; MongoEffects: what it checks
      and writes.  MongoReceipt, MongoOperation: operation.go.  MongoCommit: what operations
      make durable.  MongoAtomic: the theorems on CommitAdmission and ReconcileAdmission.
      MongoBlob: blob.go, the files of GridFS and the streams into and out of them, and
      GridFS as a class with its laws.  MongoContent: the rest of payload.go, the
      publishing, copying and collecting of payloads.  MongoRetention: the invariant of
      payloads and what each operation does to it.  MongoPayloads: the theorems on them.
      MongoStorage: storage.go, the outputs, edges, transactions, applied transactions and
      cursors of the engine, and the instance of the engine's interface Storage that they
      are.  MongoOutputs: what these methods make durable and what they find.
      MongoModel, MongoBlobModel: a small database and a small bucket on which the
      witnesses run.
    - EngineModel: concrete components, small enough to evaluate, on which the witnesses of
      the engine's theorems run.
    - What Go's library provides and the program relies on: Bytes (encoding/binary,
      encoding/hex, [32]byte hashes), Sha256 (crypto/sha256), Utf8 (unicode/utf8), Cursor
      (slice expressions, varints), Decimal (strconv), Json (encoding/json: the scanner,
      the decoder's tokens and values, string literals), Unmarshal (its decoding into
      structs), Text (strings, unicode and regexp on the strings of a query).

    An engine call goes from Submit to the topic managers, the storage, the broadcaster and
    the lookup services; PeerSync runs GaspSync with a GaspStorage, which submits finished
    graphs to the engine; MerkleProof and Lookup read and update the outputs that Submit
    wrote; BasmRead uses BasmValues, BasmWire, BasmBump and BasmProof on a view of the
    storage.  When the storage commits admissions, Submit builds the plan of AdmissionPlan
    and the storage applies it, as CommitAdmission of MongoOperation does, once its payloads
    were published by MongoContent; the topic manager and the lookup service of identity are
    clients of the engine's interfaces.

    ** How the code is translated

    A function that can fail gives a [result]: a value, an [error] (its sentinel, as
    [errors.Is] finds it) or a run-time panic.  A function that only looks at its context
    is a [Polling]: the context says after how many polls it is cancelled.  A function
    that calls components is a run (Runs): it threads the state of the components, records
    the calls it makes (Traced), and may exhaust its fuel.  The components (storage, topic
    managers, peers, SDK) are type classes over that state, without assumptions on their
    behaviour unless a theorem says so; each theorem with hypotheses is instantiated with
    concrete components.  Integers are [Z] with the wrap-around of their width written
    out; strings are lists of bytes; a Go map is a finite map, ranged over in an arbitrary
    order ([MapRange]); a float64 is its bit pattern.

    ** What is shown

    - basm: the Merkle root computed layer by layer is that of the recursive tree; the text
      of hashes, the binary anchors and the transaction and Merkle-path preflights accept
      exactly their grammars; admitted lists and ranges are accepted exactly when they are
      well-formed; a chain value holds exactly the log of anchors appended to it.  The
      JSON decoders accept on any bytes only what is valid and within the limits, read back
      what json.Marshal writes, and refuse exactly the strings that have no meaning.
    - gasp: messages survive serialisation, in every order of map iteration; the decoders
      are described on arbitrary bytes, with the overflows that evade their checks; a
      session ends, its nodes are appended after their spenders, and outputs are ingested
      and offered exactly when the other side lacks them.
    - engine: a submission, a new proof, a lookup, the synchronisation of advertisements
      and a session with a peer each end, make their calls in the order the phases
      prescribe, and write nothing before their checks succeeded; the temporary graphs are
      well-formed and bounded, and are submitted in topological order; identifiers and
      digests distinguish exactly what they identify; concurrent calls for a key share one
      run of the work and none waits for ever.
    - admission plans: the plan that is committed is a function of the submission, it says
      of every topic what its manager decided, its callbacks are published and its history
      fences ensured before the one commit, and nothing else of the storage is written.
    - identity: an output is admitted exactly when its certificate is verified, and the
      record is what was signed; the index of the lookup service is the fold of the
      notifications it received; a question is compiled to a filter that means what the
      question says, with its text quoted; an answer is never cut short silently.
    - MongoDB: a transaction ends within its budgets, runs its body again only after a
      proven abort, and reports what became durable unless it says that it does not know.
      An admission is committed once, as a whole, under all the predicates of its plan; a
      retry returns the receipt that was saved; what reconciliation reports as aborted can
      no longer be committed; the row of an operation follows its protocol.  A plan is
      accepted exactly if it is well-formed; numbers and receipts survive their storage.
    - payloads: whatever nodes publish, pin, copy, release and collect, and commit in
      between, a payload that is referred to is ready, its bytes are stored, and they have
      the digest and the length of the reference; a copy that reports no error delivered
      exactly such bytes.
    - outputs in MongoDB: an insertion becomes durable as a whole or not at all; what was
      inserted is found as it was, with the bytes of its BEEF; what is found is what the
      rows and the edges say, and a page is ordered and complete up to its limit; every
      other change that reports no error is made and no other is.
    - BASM reads: every request closes the view it opened, and answers only after every
      canonical header that it resolved was resolved again with the same result and the
      view was found current; its answers are what the recorded reads gave, agree with the
      headers, are complete and within the budget; an accepted Merkle proof, and every
      compound path that is served, proves inclusion, or a function finds a collision of
      the double SHA-256 between this very proof and the tree of the block.
    - The lemmas on the counts of messages, on shared histories, on the proofs of ancestors
      and on nodes of another graph, and the examples on pages and on repeated insertions,
      show on concrete inputs what the findings of the manifest describe.

    ** Bounds and fuel

    The recursions that are not structural take fuel, and the theorems show that it is
    enough.  The Merkle root takes as many layers as the logarithm of the number of leaves,
    within the fuel the definition gives itself.  The walks over the consumers of outputs
    and over input histories have as fuel a bound on a rank that decreases along them
    (the storage holds no cycle of spends): [rank] and [fuel] in the statements of Submit,
    MerkleProof, Lookup, PeerSync and GaspStorage.  A graph of a session is fetched within
    a finite set [U] of outpoints, and its size is the fuel.  The pages of a peer end
    because the cursor, a float64, strictly increases; the number of float keys is the
    fuel.  Readers of the wire formats recurse on a count that was checked against the
    bytes that remain.

    ** Not modelled

    - src/pkg/server: HTTP glue and generated code around the engine.
    - Of src/pkg/storage/mongodb: the schema, its indexes and their check at startup, the
      connection, and the seeding of rows that its tests use.
    - The MongoDB server: its documented behaviour is the class of laws of MongoDriver, for
      a single client (nothing else writes between two calls of a run), where every call
      may fail, a commit may be applied although it reports an error, and the error of a
      duplicate key aborts a transaction.
    - The background queue of GASP (ProcessUTXO, runProcessingWorker), the HTTP calls of
      gasp-remote.go, the text of errors, logging and metrics.
    - The SDK: parsers, BEEF, SPV and header services are parameters. *)

From stdpp Require Export base tactics option list numbers gmap.
From coqutil Require Import Byte.

#[global] Set Default Proof Using "Type".

(** The byte type of the standard library, with [byte.of_Z] and
    [byte.unsigned] (the conversions [byte(x)] and [uint64(b)] of Go). *)
Abbreviation byte := Init.Byte.byte.

Open Scope Z_scope.

(** ** Errors

    A Go error is identified by the sentinel that [errors.Is] finds in it; the
    text that [fmt.Errorf] adds around a sentinel is not modelled.  The
    constructors carry the names the packages give their sentinels. *)

Inductive ctx_cause := Canceled | DeadlineExceeded.

(** [AdmissionRejectionCode] of pkg/core/engine/admission_storage.go; [NoRejection] is
    the empty code. *)
Inductive rejection_code :=
  | NoRejection | AdmissionRejectionDigestMismatch | AdmissionRejectionReadConflict
  | AdmissionRejectionSpendConflict | AdmissionRejectionPayloadNotReady
  | AdmissionRejectionUnsupportedProjection | AdmissionRejectionInvalidPlan.

Inductive error :=
  (* pkg/core/basm/errors.go *)
  | ErrInvalidHash | ErrInvalidInput | ErrLimitExceeded | ErrInconsistent | ErrNoncontiguous
  (* pkg/core/gasp/wire.go *)
  | ErrWireEmptyData | ErrWireUnsupportedVer | ErrWireTooShort | ErrWireInvalidVarint
  | ErrWireTrailingBytes
  (* pkg/core/gasp/gasp.go and types.go *)
  | ErrNodeNilInProcessOutgoingNode | ErrTransactionParsingPanic | ErrTransactionHexTooShort
  | ErrTransactionHexTooLong | ErrGraphNoTopicalAdmittance | ErrUTXOQueueFull | ErrVersionMismatch
  (* pkg/core/engine/gasp-storage.go, gasp-remote.go *)
  | ErrGraphFull | ErrParsedBEEFReturnedNilTx | ErrGraphAnchorInvalidTx
  | ErrUnableToFindRootNodeInGraph | ErrRequiredInputNodeNotFoundInTempGraph | ErrMissingGraphID
  | ErrGraphDependencyCycle | ErrNoManagerForTopic | ErrNoTransactionInBEEF | ErrNilNode
  | ErrNotImplemented
  (* pkg/core/engine/engine.go and its neighbours *)
  | ErrUnknownTopic | ErrInvalidBeef | ErrInvalidTransaction | ErrMissingInput | ErrMissingOutput
  | ErrInputSpent | ErrMissingBeef | ErrMissingTransaction | ErrMissingDependencyTx
  | ErrMissingSourceTransaction | ErrInvalidMerkleProof | ErrUnableToFindOutput
  | ErrNoDocumentationFound | ErrNotFound | ErrTxNotInProof
  (* pkg/core/engine/admission_storage.go, admission_submit.go, basm-read.go *)
  | ErrAdmissionPending | ErrAdmissionRejected | ErrAdmissionUnsupported
  | ErrInvalidAdmissionHash | ErrInvalidAdmissionIdentity | ErrInvalidAdmissionMode
  | ErrInvalidAdmissionTopics | ErrInvalidStorageUint64 | ErrInvalidStorageOutputIndex
  | ErrBASMInvalidData | ErrBASMNotFound | ErrBASMNotReady | ErrBASMUnsupported
  (* pkg/topics/identity *)
  | ErrInvalidOutput | ErrCertificateVerification | ErrAdmissionBudget | ErrIdentityTransaction
  | ErrInvalidPolicy | ErrInvalidQuery | ErrInvalidQueryPolicy | ErrQueryBudget
  | ErrInvalidNotification | ErrProjectionContract
  (* pkg/storage/mongodb, and of its driver *)
  | ErrInvalidConfig | ErrConflict | ErrInvalidPayload | ErrPayloadUnavailable | ErrNestedTransaction
  | ErrCommitPending | ErrRetryBudget | ErrInvalidOperation | ErrNoDocuments | ErrDuplicateKey | ErrFileNotFound
  | ErrBlobContext | ErrBlobMetadata | ErrBlobCorrupt | ErrBlobUnavailable
  | ErrRejection (code : rejection_code)
  (* context.Canceled and context.DeadlineExceeded *)
  | ErrContext (c : ctx_cause)
  (* of encoding/json, io and strconv *)
  | ErrJSON | ErrEOF | ErrNoProgress | ErrShortWrite | ErrRange
  (* an error of code that is not part of the program: a storage driver, the SDK *)
  | ErrExternal (code : Z)
  (* blobWriterError: the error of a writer *)
  | ErrBlobWriter (e : error)
  (* errors.Join, and an error that wraps two *)
  | ErrJoin (e1 e2 : error).

#[global] Instance rejection_code_eq_dec : EqDecision rejection_code.
Proof. solve_decision. Defined.

#[global] Instance ctx_cause_eq_dec : EqDecision ctx_cause.
Proof. solve_decision. Defined.

#[global] Instance error_eq_dec : EqDecision error.
Proof. solve_decision. Defined.

(** ** Outcomes

    A call returns a value, returns an error, or stops the goroutine with a
    run-time panic (an index or a slice out of range, a slice that is too large
    to make, a nil dereference). *)

Inductive result (A : Type) :=
  | Ok (a : A)
  | Err (e : error)
  | Panic.
Arguments Ok {A} a.
Arguments Err {A} e.
Arguments Panic {A}.

#[global] Instance result_eq_dec {A} `{EqDecision A} : EqDecision (result A).
Proof. solve_decision. Defined.

#[global] Instance result_ret : MRet result := fun A a => Ok a.
#[global] Instance result_bind : MBind result := fun A B f m =>
  match m with Ok a => f a | Err e => Err e | Panic => Panic end.
#[global] Instance result_fmap : FMap result := fun A B f m =>
  match m with Ok a => Ok (f a) | Err e => Err e | Panic => Panic end.

Definition is_ok {A} (r : result A) : bool :=
  match r with Ok _ => true | _ => false end.

Definition is_panic {A} (r : result A) : bool :=
  match r with Panic => true | _ => false end.

Lemma bind_Ok {A B} (m : result A) (f : A -> result B) b :
  m ≫= f = Ok b <-> exists a, m = Ok a /\ f a = Ok b.
Proof.
  destruct m as [a|e|]; simpl; split; [eauto|..]; try done.
  - by intros (a' & [= <-] & ?).
  - by intros (? & ? & _).
  - by intros (? & ? & _).
Qed.

Lemma bind_assoc {A B C} (m : result A) (f : A -> result B) (g : B -> result C) :
  (m ≫= f) ≫= g = m ≫= (fun a => f a ≫= g).
Proof. by destruct m. Qed.

Lemma fmap_Ok {A B} (m : result A) (f : A -> B) b :
  f <$> m = Ok b <-> exists a, m = Ok a /\ b = f a.
Proof.
  destruct m as [a|e|]; simpl; split.
  - intros [= <-]; eauto.
  - by intros (a' & [= <-] & ->).
  - done.
  - by intros (? & ? & _).
  - done.
  - by intros (? & ? & _).
Qed.

(** [inv_res] follows a successful run backwards: it splits the binds and the
    guards of a hypothesis [_ = Ok _] and discards the branches that do not
    return a value. *)
Ltac inv_res :=
  repeat match goal with
  | H : Ok _ = Ok _ |- _ => injection H as H; subst
  | H : Ok _ = Err _ |- _ => discriminate H
  | H : Ok _ = Panic |- _ => discriminate H
  | H : Err _ = _ |- _ => first [discriminate H | injection H as H; subst]
  | H : Panic = _ |- _ => discriminate H
  | H : mret _ = _ |- _ => unfold mret, result_ret in H
  | H : _ ≫= _ = Ok _ |- _ => apply bind_Ok in H as (? & ? & H)
  | H : _ <$> _ = Ok _ |- _ => apply fmap_Ok in H as (? & ? & ->)
  | H : (if ?b then _ else _) = Ok _ |- _ => destruct b eqn:?; try discriminate H
  | H : (let '(_, _) := ?p in _) = Ok _ |- _ => destruct p eqn:?
  end.

Ltac destruct_all_units :=
  repeat match goal with u : unit |- _ => destruct u end.

(** ** Cancellation

    [context.Context] is the one interaction of the pure packages with the
    outside.  A context answers nil to [Err] until it is cancelled and the same
    error ever after, so a run is determined by how many polls come before the
    cancellation: [left = Some n] answers nil to the next [n] polls, [None]
    is never cancelled.  [absent] marks the nil interface value: polling it is a
    nil dereference. *)

Record Ctx := mkCtx { absent : bool; left : option nat; cause : ctx_cause }.

(** A context that is never cancelled. *)
Definition background : Ctx := mkCtx false None Canceled.

Definition live (c : Ctx) : Prop := left c = None.

Definition Polling (A : Type) : Type := Ctx -> result A * Ctx.

#[global] Instance polling_ret : MRet Polling := fun A a c => (Ok a, c).
#[global] Instance polling_bind : MBind Polling := fun A B f m c =>
  match m c with
  | (Ok a, c') => f a c'
  | (Err e, c') => (Err e, c')
  | (Panic, c') => (Panic, c')
  end.

(** [ctx.Err()], with an early return when it is not nil. *)
Definition poll : Polling unit := fun c =>
  if absent c then (Panic, c)
  else match left c with
  | None => (Ok tt, c)
  | Some O => (Err (ErrContext (cause c)), c)
  | Some (S n) => (Ok tt, mkCtx (absent c) (Some n) (cause c))
  end.

(** A step that does not look at the context. *)
Definition pure {A} (r : result A) : Polling A := fun c => (r, c).

(** [if ctx == nil { return e }]. *)
Definition require_ctx (e : error) : Polling unit := fun c =>
  (if absent c then Err e else Ok tt, c).

(** [m] computes [r] up to cancellation: with a context that is never cancelled
    it returns [r], and with any other it returns [r] or the context's error.
    Cancellation can therefore withhold an answer but never change it. *)
Definition computes {A} (m : Polling A) (r : result A) : Prop :=
  forall c, absent c = false ->
    (live c -> m c = (r, c)) /\
    (fst (m c) = r \/ fst (m c) = Err (ErrContext (cause c))) /\
    cause (snd (m c)) = cause c /\ absent (snd (m c)) = false.

Lemma computes_pure {A} (r : result A) : computes (pure r) r.
Proof. intros c Hc; split_and!; auto. Qed.

Lemma computes_ret {A} (a : A) : computes (mret a) (Ok a).
Proof. intros c Hc; split_and!; auto. Qed.

Lemma computes_poll : computes poll (Ok tt).
Proof.
  intros [ab [[|n]|] ca]; unfold poll, live; simpl; intros ->; split_and!; naive_solver.
Qed.

Lemma computes_require_ctx e : computes (require_ctx e) (Ok tt).
Proof. intros c Hc. unfold require_ctx. rewrite Hc. split_and!; auto. Qed.

Lemma computes_bind {A B} (m : Polling A) (f : A -> Polling B) r (g : A -> result B) :
  computes m r -> (forall a, r = Ok a -> computes (f a) (g a)) ->
  computes (m ≫= f) (r ≫= g).
Proof.
  intros Hm Hf c Hab. destruct (Hm c Hab) as (Hl & Hv & Hc & Ha).
  unfold mbind, polling_bind, result_bind.
  destruct (m c) as [v c'] eqn:E; simpl in *.
  split_and!.
  - intros Hlive. injection (Hl Hlive) as -> ->.
    destruct r as [a|e|]; [apply (Hf a eq_refl c); done | done | done].
  - destruct Hv as [-> | ->]; [|by right].
    destruct r as [a|e|]; simpl; [|by auto|by auto].
    destruct (Hf a eq_refl c' Ha) as (_ & Hv & _). by rewrite Hc in Hv.
  - destruct v as [a|e|]; simpl; [|done..].
    destruct Hv as [<- | ?]; [|done].
    destruct (Hf a eq_refl c' Ha) as (_ & _ & Hc' & _). congruence.
  - destruct v as [a|e|]; simpl; [|done..].
    destruct Hv as [<- | ?]; [|done].
    by destruct (Hf a eq_refl c' Ha) as (_ & _ & _ & ?).
Qed.

Lemma computes_eq {A} (m : Polling A) r r' : computes m r -> r = r' -> computes m r'.
Proof. by intros ? <-. Qed.

(** A step that returns an error ends the run. *)
Lemma computes_err_bind {A B} e (f : A -> Polling B) : computes (pure (Err e) ≫= f) (Err e).
Proof. intros c Hc; split_and!; auto. Qed.

Lemma computes_require_bind {B} e (f : Polling B) (r : result B) :
  computes f r -> computes (require_ctx e ≫= fun _ => f) r.
Proof.
  intros Hf. apply (computes_bind (require_ctx e) (fun _ => f) (Ok tt) (fun _ => r)).
  - apply computes_require_ctx.
  - by intros ? _.
Qed.

(** A step without a result of its own only adds times at which a cancellation
    can show. *)
Lemma computes_seq {B} (m : Polling unit) (f : Polling B) (r : result B) :
  computes m (Ok tt) -> computes f r -> computes (m ≫= fun _ => f) r.
Proof.
  intros Hm Hf. apply (computes_bind m (fun _ => f) (Ok tt) (fun _ => r)); [done|].
  by intros ? _.
Qed.

Lemma computes_poll_bind {B} (f : Polling B) (r : result B) :
  computes f r -> computes (poll ≫= fun _ => f) r.
Proof. apply computes_seq, computes_poll. Qed.

Lemma computes_background {A} (m : Polling A) r : computes m r -> fst (m background) = r.
Proof. intros Hm. by destruct (Hm background eq_refl) as (-> & _). Qed.

(** A run that returns a value, followed backwards. *)
Lemma polling_bind_Ok {A B} (m : Polling A) (f : A -> Polling B) c b c2 :
  (m ≫= f) c = (Ok b, c2) -> exists a c1, m c = (Ok a, c1) /\ f a c1 = (Ok b, c2).
Proof. unfold mbind, polling_bind. destruct (m c) as [[a|e|] c1]; [eauto|done..]. Qed.

Lemma pure_Ok {A} (r : result A) c a c1 : pure r c = (Ok a, c1) -> r = Ok a /\ c1 = c.
Proof. unfold pure. by intros [= -> ->]. Qed.

(** ** What a computation yields *)

(** The value of a result, if there is one, has [P]; it is not a panic. *)
Definition yields {A} (r : result A) (P : A -> Prop) : Prop :=
  match r with Ok a => P a | Err _ => True | Panic => False end.

Lemma yields_bind {A B} (m : result A) (f : A -> result B) P Q :
  yields m P -> (forall a, P a -> yields (f a) Q) -> yields (m ≫= f) Q.
Proof. intros Hm Hf. destruct m as [a|e|]; [by apply Hf|done..]. Qed.

Lemma yields_weaken {A} (m : result A) (P Q : A -> Prop) : yields m P -> (forall a, P a -> Q a) -> yields m Q.
Proof. destruct m; cbn; auto. Qed.

(** As [yields], for a computation under a context that is not nil. *)
Definition polls {A} (m : Polling A) (P : A -> Prop) : Prop :=
  forall c, absent c = false -> absent (snd (m c)) = false /\ yields (fst (m c)) P.

Lemma polls_bind {A B} (m : Polling A) (f : A -> Polling B) P Q :
  polls m P -> (forall a, P a -> polls (f a) Q) -> polls (m ≫= f) Q.
Proof.
  intros Hm Hf c Hc. destruct (Hm c Hc) as [Ha HP]. unfold mbind, polling_bind. destruct (m c) as [[a|e|] c']; cbn in *; [|done..]. by apply Hf.
Qed.

Lemma polls_pure {A} (r : result A) P : yields r P -> polls (pure r) P.
Proof. by intros Hr c Hc. Qed.

Lemma polls_poll : polls poll (fun _ => True).
Proof. intros [ab [[|n]|] ca]; unfold poll; cbn; intros ->; done. Qed.

Create HintDb computes discriminated.
#[export] Hint Resolve computes_pure computes_ret computes_poll computes_poll_bind
  computes_require_ctx computes_err_bind computes_seq : computes.

(** ** Machine integers

    Go's unsigned integers are the integers of [0, 2^w) and its [int] is the
    64-bit signed integer of the supported platforms; conversions wrap. *)

Definition u8 (z : Z) : Z := z mod 2 ^ 8.
Definition u32 (z : Z) : Z := z mod 2 ^ 32.
Definition u64 (z : Z) : Z := z mod 2 ^ 64.
Definition int64 (z : Z) : Z := (z + 2 ^ 63) mod 2 ^ 64 - 2 ^ 63.

Definition MaxUint16 : Z := 2 ^ 16 - 1.
Definition MaxUint32 : Z := 2 ^ 32 - 1.
Definition MaxUint64 : Z := 2 ^ 64 - 1.
Definition MaxInt64 : Z := 2 ^ 63 - 1.

Definition is_u32 (z : Z) : Prop := 0 <= z <= MaxUint32.
Definition is_u64 (z : Z) : Prop := 0 <= z <= MaxUint64.

(** Splits on the integer comparisons of the goal, dropping the branches that the
    hypotheses exclude. *)
Ltac zcases :=
  repeat match goal with
  | |- context [?a <? ?b] => destruct (Z.ltb_spec a b); try (exfalso; lia)
  | |- context [?a <=? ?b] => destruct (Z.leb_spec a b); try (exfalso; lia)
  | |- context [?a =? ?b] => destruct (Z.eqb_spec a b); try (exfalso; lia)
  end.

(** [len] of a slice or a string, as an [int]. *)
Definition len {A} (l : list A) : Z := Z.of_nat (length l).

(** Every slice and string fits the address space. *)
Definition addressable {A} (l : list A) : Prop := len l <= MaxInt64.

Lemma len_nonneg {A} (l : list A) : 0 <= len l.
Proof. unfold len; lia. Qed.

Lemma len_app {A} (l k : list A) : len (l ++ k) = len l + len k.
Proof. unfold len. rewrite length_app. lia. Qed.

Lemma len_cons {A} (x : A) l : len (x :: l) = 1 + len l.
Proof. unfold len. simpl. lia. Qed.

Lemma len_nil {A} : len (@nil A) = 0.
Proof. done. Qed.

Lemma int64_small z : - 2 ^ 63 <= z < 2 ^ 63 -> int64 z = z.
Proof. intros. unfold int64. rewrite Z.mod_small; lia. Qed.

Lemma u32_small z : is_u32 z -> u32 z = z.
Proof. unfold is_u32, MaxUint32, u32. intros. apply Z.mod_small. lia. Qed.

Lemma u32_u64 n : is_u32 n -> is_u64 n.
Proof. unfold is_u32, is_u64, MaxUint32, MaxUint64. lia. Qed.

Lemma u64_small z : is_u64 z -> u64 z = z.
Proof. unfold is_u64, MaxUint64, u64. intros. apply Z.mod_small. lia. Qed.

#[export] Hint Resolve len_nonneg : core.

(** Lengths of the program's fixed-width encodings. *)
Create Rewrite HintDb lengths.

(** ** Lists *)

Lemma take_len_app {A} (l k : list A) n : n = length l -> take n (l ++ k) = l.
Proof. intros ->. apply take_app_length. Qed.

Lemma drop_len_app {A} (l k : list A) n : n = length l -> drop n (l ++ k) = k.
Proof. intros ->. apply drop_app_length. Qed.

(** A list splits uniquely at a given length. *)
Lemma app_len_inj {A} (l1 l2 k1 k2 : list A) :
  length l1 = length l2 -> l1 ++ k1 = l2 ++ k2 -> l1 = l2 /\ k1 = k2.
Proof. intros ? ?. by apply app_inj_1. Qed.

Lemma take_drop_split {A} (l : list A) (n : Z) :
  0 <= n <= len l ->
  l = take (Z.to_nat n) l ++ drop (Z.to_nat n) l /\ len (take (Z.to_nat n) l) = n.
Proof.
  intros H. rewrite take_drop. split; [done|].
  unfold len in *. rewrite length_take. lia.
Qed.

(** ** Maps built by a loop *)

Lemma foldl_insert `{Countable K} {A V} (key : A -> K) (v : A -> V) (l : list A) :
  foldl (fun (m : gmap K V) x => <[key x := v x]> m) ∅ l =
  list_to_map (reverse ((fun x => (key x, v x)) <$> l)).
Proof.
  induction l as [|x l IH] using rev_ind; [done|].
  rewrite foldl_app, fmap_app, reverse_app. simpl. by rewrite IH.
Qed.

(** Inserting the entries of a map in any order gives the map. *)
Lemma foldl_insert_perm `{Countable K} {A V} (key : A -> K) (v : A -> V) (l : list A) (m : gmap K V) :
  (fun x => (key x, v x)) <$> l ≡ₚ map_to_list m ->
  foldl (fun (m : gmap K V) x => <[key x := v x]> m) ∅ l = m.
Proof.
  intros Hl. rewrite foldl_insert, <- (list_to_map_to_list m).
  apply list_to_map_proper; [|by rewrite reverse_Permutation].
  rewrite reverse_Permutation, Hl. apply NoDup_fst_map_to_list.
Qed.

(** A loop over the entries of a map that alters, for each, only its own key. *)
Lemma foldl_partial_alter `{Countable K} {A V} (f : K -> V -> option A -> option A) (l : list (K * V)) (m : gmap K A) k :
  NoDup l.*1 ->
  foldl (fun m kv => partial_alter (f kv.1 kv.2) kv.1 m) m l !! k =
  match (list_to_map l : gmap K V) !! k with Some v => f k v (m !! k) | None => m !! k end.
Proof.
  revert m. induction l as [|[k' v] l IH]; intros m Hnd; simpl; [by rewrite lookup_empty|].
  simpl in Hnd. apply NoDup_cons in Hnd as [Hk Hnd]. rewrite IH by done. destruct (decide (k' = k)) as [->|Hne].
  - rewrite not_elem_of_list_to_map_1 by done. by rewrite lookup_insert_eq, lookup_partial_alter_eq.
  - by rewrite lookup_insert_ne, lookup_partial_alter_ne by done.
Qed.
