(* ===== verification/Bytes.v ===== *)
(** * Bytes, fixed-width integers in memory, 32-byte hashes, hexadecimal

    The parts of Go's [encoding/binary] and [encoding/hex] that the program
    uses, and the [Hash] type that [basm] ([[hashSize]byte]) and the SDK's
    [chainhash] share. *)

From S2P Require Import Prelude.
From coqutil Require Export Byte Word.LittleEndianList.
From stdpp Require Export strings.
Open Scope Z_scope.

#[global] Instance byte_eq_dec : EqDecision byte := Byte.byte_eq_dec.

#[global] Program Instance byte_countable : Countable byte :=
  {| encode b := encode (Byte.to_N b); decode p := n ← decode p; Byte.of_N n |}.
Next Obligation. intros b. cbv beta. rewrite decode_encode. simpl. apply Byte.of_to_N. Qed.

(** A Go string is the sequence of its bytes; [str] writes a literal. *)
Definition str (s : string) : list byte := String.list_byte_of_string s.

(** The number of a byte; [b1 = b2] when the numbers agree. *)
Abbreviation val := byte.unsigned.

Lemma val_range b : 0 <= val b < 256.
Proof. apply (byte.unsigned_range b). Qed.

Lemma val_of_Z z : 0 <= z < 256 -> val (byte.of_Z z) = z.
Proof. intros. rewrite byte.unsigned_of_Z. unfold byte.wrap. apply Z.mod_small. lia. Qed.

Lemma val_inj b1 b2 : val b1 = val b2 -> b1 = b2.
Proof. apply byte.unsigned_inj. Qed.

Lemma of_val b : byte.of_Z (val b) = b.
Proof. apply byte.of_Z_unsigned. Qed.

(** A bounded search over the 256 bytes: decides a property of every byte. *)
Definition all_bytes : list byte := map byte.of_Z (seqZ 0 256).

Lemma all_bytes_complete b : In b all_bytes.
Proof.
  rewrite <- (of_val b). unfold all_bytes. apply in_map.
  apply list_elem_of_In, elem_of_seqZ. pose proof (val_range b); lia.
Qed.

Lemma forall_bytes (P : byte -> bool) :
  forallb P all_bytes = true -> forall b, P b = true.
Proof. intros H b. rewrite forallb_forall in H. apply H, all_bytes_complete. Qed.

(** ** Little-endian integers ([binary.LittleEndian]) *)

(** [binary.LittleEndian.AppendUint32(nil, v)] and the 64-bit variant. *)
Definition put_u32 (v : Z) : list byte := le_split 4 v.
Definition put_u64 (v : Z) : list byte := le_split 8 v.

(** [binary.LittleEndian.Uint16/32/64(b)], which panic on a short slice. *)
Definition get_le (w : nat) (b : list byte) : result Z :=
  if (length b <? w)%nat then Panic else Ok (le_combine (take w b)).
Definition get_u16 := get_le 2.
Definition get_u32 := get_le 4.
Definition get_u64 := get_le 8.

Lemma length_put_u32 v : length (put_u32 v) = 4%nat.
Proof. apply length_le_split. Qed.
Lemma length_put_u64 v : length (put_u64 v) = 8%nat.
Proof. apply length_le_split. Qed.
#[export] Hint Rewrite length_put_u32 length_put_u64 : lengths.

Lemma get_le_split w v rest :
  0 <= v < 2 ^ (8 * Z.of_nat w) -> get_le w (le_split w v ++ rest) = Ok v.
Proof.
  intros Hv. unfold get_le. rewrite length_app, length_le_split.
  destruct (Nat.ltb_spec (w + length rest) w); [lia|].
  rewrite take_len_app by (by rewrite length_le_split).
  rewrite le_combine_split, Z.mod_small; [done|].
  by replace (Z.of_nat w * 8) with (8 * Z.of_nat w) by lia.
Qed.

Lemma get_le_Ok w b v :
  get_le w b = Ok v ->
  (w <= length b)%nat /\ 0 <= v < 2 ^ (8 * Z.of_nat w) /\ take w b = le_split w v.
Proof.
  unfold get_le. destruct (Nat.ltb_spec (length b) w); [done|]. intros [= <-].
  assert (Hl : length (take w b) = w) by (rewrite length_take; lia).
  split_and!; [done| | |].
  - apply le_combine_bound.
  - pose proof (le_combine_bound (take w b)) as [_ Hb]. by rewrite Hl in Hb.
  - rewrite <- Hl at 2. by rewrite split_le_combine.
Qed.

Lemma get_le_take w b : (w <= length b)%nat -> get_le w b = Ok (le_combine (take w b)).
Proof. intros. unfold get_le. destruct (Nat.ltb_spec (length b) w); [lia|done]. Qed.

Lemma get_put_u32 v rest : is_u32 v -> get_u32 (put_u32 v ++ rest) = Ok v.
Proof. intros H. apply (get_le_split 4). unfold is_u32, MaxUint32 in H. lia. Qed.

Lemma get_put_u64 v rest : is_u64 v -> get_u64 (put_u64 v ++ rest) = Ok v.
Proof. intros H. apply (get_le_split 8). unfold is_u64, MaxUint64 in H. lia. Qed.

(** ** Hashes *)

(** A [32]byte array: the length is part of the type. *)
Record Hash := mkHash { hbytes : list byte; hlen : (length hbytes =? 32)%nat = true }.

Lemma Hash_eq h1 h2 : hbytes h1 = hbytes h2 -> h1 = h2.
Proof.
  destruct h1 as [l1 p1], h2 as [l2 p2]; simpl. intros <-. f_equal.
  apply Eqdep_dec.UIP_dec. apply Bool.bool_dec.
Qed.

Lemma hash_length h : length (hbytes h) = 32%nat.
Proof. apply Nat.eqb_eq, hlen. Qed.
#[export] Hint Rewrite hash_length : lengths.

#[global] Instance Hash_eq_dec : EqDecision Hash.
Proof.
  intros h1 h2. destruct (decide (hbytes h1 = hbytes h2)) as [E|E].
  - left. by apply Hash_eq.
  - right. congruence.
Defined.

(** [copy(h[:], l)] into a zero array: the first 32 bytes of [l], padded with
    zeros. *)
Definition pad32 (l : list byte) : list byte := take 32 (l ++ replicate 32 Byte.x00).

Lemma length_pad32 l : length (pad32 l) = 32%nat.
Proof. unfold pad32. rewrite length_take, length_app, length_replicate. lia. Qed.

Lemma pad32_id l : length l = 32%nat -> pad32 l = l.
Proof. intros H. unfold pad32. by rewrite take_len_app. Qed.

(** The length proof is rebuilt by computation, so that closed hashes are
    convertible as soon as their bytes are. *)
Definition array32 (l : list byte) : Hash :=
  match (length (pad32 l) =? 32)%nat as b return (length (pad32 l) =? 32)%nat = b -> Hash with
  | true => fun e => mkHash (pad32 l) e
  | false => fun _ => mkHash (replicate 32 Byte.x00) eq_refl
  end eq_refl.

Lemma hbytes_array32 l : length l = 32%nat -> hbytes (array32 l) = l.
Proof.
  intros H. unfold array32.
  assert (E : (length (pad32 l) =? 32)%nat = true) by (rewrite length_pad32; done).
  generalize (eq_refl (length (pad32 l) =? 32)%nat).
  generalize (length (pad32 l) =? 32)%nat at 2 3 as b.
  intros [] e; simpl.
  - by apply pad32_id.
  - congruence.
Qed.

Lemma array32_hbytes h : array32 (hbytes h) = h.
Proof. apply Hash_eq, hbytes_array32, hash_length. Qed.

(** The zero value [Hash{}]. *)
Definition zero_hash : Hash := mkHash (replicate 32 Byte.x00) eq_refl.

#[global] Program Instance Hash_countable : Countable Hash :=
  {| encode h := encode (hbytes h); decode p := array32 <$> decode p |}.
Next Obligation. intros h. cbv beta. rewrite decode_encode. simpl. by rewrite array32_hbytes. Qed.

#[global] Instance Hash_inhabited : Inhabited Hash := populate zero_hash.

(** ** Hexadecimal ([encoding/hex]) *)

Definition hex_digit (n : Z) : byte := byte.of_Z (if n <? 10 then 48 + n else 87 + n).

(** [hex.EncodeToString]. *)
Definition hex_encode (l : list byte) : list byte :=
  flat_map (fun b => [hex_digit (val b / 16); hex_digit (val b mod 16)]) l.

(** [hex.fromHexChar]: both cases are digits. *)
Definition from_hex_char (b : byte) : option Z :=
  let c := val b in
  if (48 <=? c) && (c <=? 57) then Some (c - 48)
  else if (97 <=? c) && (c <=? 102) then Some (c - 87)
  else if (65 <=? c) && (c <=? 70) then Some (c - 55)
  else None.

(** [hex.DecodeString]: an odd length or a byte that is no digit is an error. *)
Fixpoint hex_decode (s : list byte) : option (list byte) :=
  match s with
  | [] => Some []
  | hi :: lo :: s' =>
      h ← from_hex_char hi; l ← from_hex_char lo; t ← hex_decode s';
      Some (byte.of_Z (16 * h + l) :: t)
  | _ => None
  end.

(** A lowercase digit, the test that [basm.isLowerHex], [engine.isLowerHexHash]
    and [mongodb.validHash] write out. *)
Definition lower_hex (b : byte) : bool :=
  ((48 <=? val b) && (val b <=? 57)) || ((97 <=? val b) && (val b <=? 102)).

Lemma hex_byte_decode b :
  from_hex_char (hex_digit (val b / 16)) = Some (val b / 16) /\
  from_hex_char (hex_digit (val b mod 16)) = Some (val b mod 16) /\
  lower_hex (hex_digit (val b / 16)) = true /\ lower_hex (hex_digit (val b mod 16)) = true.
Proof.
  assert (E : forall b, bool_decide
    (from_hex_char (hex_digit (val b / 16)) = Some (val b / 16) /\
     from_hex_char (hex_digit (val b mod 16)) = Some (val b mod 16) /\
     lower_hex (hex_digit (val b / 16)) = true /\ lower_hex (hex_digit (val b mod 16)) = true)
    = true) by (apply forall_bytes; vm_compute; reflexivity).
  specialize (E b). by apply bool_decide_eq_true in E.
Qed.

Lemma lower_hex_digit b :
  lower_hex b = true ->
  exists n, from_hex_char b = Some n /\ 0 <= n < 16 /\ hex_digit n = b.
Proof.
  intros Hb. unfold lower_hex in Hb. unfold from_hex_char, hex_digit.
  destruct ((48 <=? val b) && (val b <=? 57)) eqn:E1; simpl in Hb.
  - exists (val b - 48). split_and!; [done|lia|lia|].
    destruct (Z.ltb_spec (val b - 48) 10); [|lia].
    replace (48 + (val b - 48)) with (val b) by lia. apply of_val.
  - rewrite Hb. exists (val b - 87). split_and!; [done|lia|lia|].
    destruct (Z.ltb_spec (val b - 87) 10); [lia|].
    replace (87 + (val b - 87)) with (val b) by lia. apply of_val.
Qed.

Lemma hex_decode_encode l : hex_decode (hex_encode l) = Some l.
Proof.
  induction l as [|b l IH]; [done|]. simpl.
  destruct (hex_byte_decode b) as (-> & -> & _ & _). simpl.
  fold (hex_encode l). rewrite IH. simpl.
  rewrite <- (Z.div_mod (val b) 16) by done. by rewrite of_val.
Qed.

(** Induction on a list two elements at a time. *)
Lemma list_ind_two {A} (P : list A -> Prop) :
  P [] -> (forall x, P [x]) -> (forall x y l, P l -> P (x :: y :: l)) -> forall l, P l.
Proof.
  intros H0 H1 H2. fix IH 1. intros [|x [|y l]]; [apply H0|apply H1|apply H2, IH].
Qed.

(** Lowercase text is the canonical text of what it decodes to. *)
Lemma hex_encode_decode s l :
  Forall (fun b => lower_hex b = true) s -> hex_decode s = Some l -> hex_encode l = s.
Proof.
  revert l. induction s as [|hi|hi lo s IH] using list_ind_two; intros l Hs Hd.
  - by injection Hd as <-.
  - done.
  - inversion_clear Hs as [|?? Hhi Hs']. inversion_clear Hs' as [|?? Hlo Hs].
    destruct (lower_hex_digit hi) as (h & Eh & Hh & Dh); [done|].
    destruct (lower_hex_digit lo) as (k & Ek & Hk & Dk); [done|].
    simpl in Hd. rewrite Eh, Ek in Hd. simpl in Hd.
    destruct (hex_decode s) as [t|] eqn:Et; [|done]. injection Hd as <-.
    simpl. fold (hex_encode t). rewrite (IH t), val_of_Z by (done || lia).
    rewrite <- (Z.div_unique (16 * h + k) 16 h k), <- (Z.mod_unique (16 * h + k) 16 h k) by lia.
    by rewrite Dh, Dk.
Qed.

(** Lowercase text of even length always decodes. *)
Lemma hex_decode_lower s n :
  Forall (fun b => lower_hex b = true) s -> length s = (2 * n)%nat ->
  exists l, hex_decode s = Some l /\ length l = n.
Proof.
  revert n. induction s as [|hi|hi lo s IH] using list_ind_two; intros n Hs Hl.
  - exists []. simpl in *. split; [done|lia].
  - simpl in Hl. lia.
  - inversion_clear Hs as [|?? Hhi Hs']. inversion_clear Hs' as [|?? Hlo Hs].
    destruct (lower_hex_digit hi) as (h & Eh & _ & _); [done|].
    destruct (lower_hex_digit lo) as (k & Ek & _ & _); [done|].
    destruct (IH (n - 1)%nat) as (t & Et & Lt); [done|simpl in Hl; lia|].
    exists (byte.of_Z (16 * h + k) :: t). simpl. rewrite Eh, Ek. simpl. rewrite Et.
    simpl in *. split; [done|lia].
Qed.

Lemma length_hex_encode l : length (hex_encode l) = (2 * length l)%nat.
Proof. induction l as [|b l IH]; [done|]. simpl. fold (hex_encode l). rewrite IH. lia. Qed.

Lemma hex_encode_lower l : Forall (fun b => lower_hex b = true) (hex_encode l).
Proof.
  induction l as [|b l IH]; [constructor|]. simpl. fold (hex_encode l).
  destruct (hex_byte_decode b) as (_ & _ & H1 & H2). by repeat constructor.
Qed.

Lemma hex_encode_inj l1 l2 : hex_encode l1 = hex_encode l2 -> l1 = l2.
Proof. intros E. apply (f_equal hex_decode) in E. rewrite !hex_decode_encode in E. congruence. Qed.
