(* ===== verification/Sha256.v ===== *)
(** * SHA-256 ([crypto/sha256])

    The hash of FIPS 180-4, executable, so that the conformance vectors of the
    repository evaluate.  Words are integers of [0, 2^32). *)

From S2P Require Import Prelude Bytes.
Open Scope Z_scope.

Module SHA256.

(** [uint32] conversion, as a mask so that it evaluates fast. *)
Definition low32 (x : Z) : Z := Z.land x 0xffffffff.

Lemma low32_u32 x : low32 x = u32 x.
Proof. unfold low32, u32. change 0xffffffff with (Z.ones 32). by rewrite Z.land_ones. Qed.

Definition add32 (x y : Z) : Z := low32 (x + y).
Definition not32 (x : Z) : Z := Z.lxor x 0xffffffff.
Definition rotr (n x : Z) : Z := Z.lor (Z.shiftr x n) (low32 (Z.shiftl x (32 - n))).

Definition ch (x y z : Z) : Z := Z.lxor (Z.land x y) (Z.land (not32 x) z).
Definition maj (x y z : Z) : Z := Z.lxor (Z.lxor (Z.land x y) (Z.land x z)) (Z.land y z).
Definition big_sigma0 (x : Z) : Z := Z.lxor (Z.lxor (rotr 2 x) (rotr 13 x)) (rotr 22 x).
Definition big_sigma1 (x : Z) : Z := Z.lxor (Z.lxor (rotr 6 x) (rotr 11 x)) (rotr 25 x).
Definition small_sigma0 (x : Z) : Z := Z.lxor (Z.lxor (rotr 7 x) (rotr 18 x)) (Z.shiftr x 3).
Definition small_sigma1 (x : Z) : Z := Z.lxor (Z.lxor (rotr 17 x) (rotr 19 x)) (Z.shiftr x 10).

(** ** The constants

    FIPS 180-4 derives them from the first primes: the first 32 bits of the
    fractional parts of their cube roots and square roots. *)

Definition is_prime (n : Z) : bool :=
  (1 <? n) && forallb (fun d => negb (n mod Z.of_nat d =? 0)) (seq 2 (Z.to_nat (Z.sqrt n) - 1)).

Definition primes : list Z := filter (fun n => is_prime n = true) (map Z.of_nat (seq 0 312)).

(** The greatest [r] below [2 ^ k + acc] with [r ^ 3 <= n], bit by bit. *)
Fixpoint cube_root (k : nat) (n acc : Z) : Z :=
  match k with
  | O => acc
  | S k' => let r := acc + 2 ^ Z.of_nat k' in cube_root k' n (if r * r * r <=? n then r else acc)
  end.

Definition K : list Z := Eval vm_compute in map (fun p => low32 (cube_root 36 (p * 2 ^ 96) 0)) primes.

Definition H0 : list Z := Eval vm_compute in map (fun p => low32 (Z.sqrt (p * 2 ^ 64))) (take 8 primes).

Example sixty_four_constants : length K = 64%nat.
Proof. reflexivity. Qed.

(** One round on the eight working variables. *)
Definition round (st : list Z) (k w : Z) : list Z :=
  match st with
  | [a; b; c; d; e; f; g; h] =>
    let t1 := add32 (add32 (add32 h (big_sigma1 e)) (add32 (ch e f g) k)) w in
    let t2 := add32 (big_sigma0 a) (maj a b c) in
    [add32 t1 t2; a; b; c; add32 d t1; e; f; g]
  | _ => st
  end.

(** The next word of the message schedule from the sixteen before it. *)
Definition next_word (win : list Z) : Z :=
  add32 (add32 (small_sigma1 (nth 14 win 0)) (nth 9 win 0))
        (add32 (small_sigma0 (nth 1 win 0)) (nth 0 win 0)).

Fixpoint rounds (ks win st : list Z) : list Z :=
  match ks with
  | [] => st
  | k :: ks' => rounds ks' (tail win ++ [next_word win]) (round st k (nth 0 win 0))
  end.

Fixpoint zip_add (a b : list Z) : list Z :=
  match a, b with
  | x :: a', y :: b' => add32 x y :: zip_add a' b'
  | _, _ => []
  end.

Definition be32 (l : list byte) : Z := le_combine (reverse l).

Fixpoint be_words (n : nat) (l : list byte) : list Z :=
  match n with
  | O => []
  | S n' => be32 (take 4 l) :: be_words n' (drop 4 l)
  end.

Definition compress (st : list Z) (block : list byte) : list Z :=
  zip_add st (rounds K (be_words 16 block) st).

Fixpoint blocks (fuel : nat) (st : list Z) (l : list byte) : list Z :=
  match fuel with
  | O => st
  | S fuel' => match l with [] => st | _ => blocks fuel' (compress st (take 64 l)) (drop 64 l) end
  end.

(** A one bit, zeros, and the bit length as a 64-bit big-endian integer. *)
Definition pad (l : list byte) : list byte :=
  let zeros := Z.to_nat ((55 - len l) mod 64) in
  l ++ [Byte.x80] ++ replicate zeros Byte.x00 ++ reverse (le_split 8 (8 * len l)).

(** [sha256.Sum256]. *)
Definition Sum256 (l : list byte) : Hash :=
  let p := pad l in
  array32 (flat_map (fun w => reverse (le_split 4 w)) (blocks (length p) H0 p)).

Example sum_abc :
  hex_encode (hbytes (Sum256 (str "abc"))) =
  str "ba7816bf8f01cfea414140de5dae2223b00361a396177a9cb410ff61f20015ad".
Proof. vm_compute. reflexivity. Qed.

(** The padded message is a whole number of 64-byte blocks. *)
Lemma pad_blocks l : len (pad l) mod 64 = 0.
Proof.
  unfold pad. rewrite !len_app, len_cons, len_nil. unfold len.
  rewrite length_replicate, length_reverse, length_le_split.
  pose proof (Z.mod_pos_bound (55 - Z.of_nat (length l)) 64 ltac:(lia)) as Hb.
  rewrite Z2Nat.id by lia.
  pose proof (Z.div_mod (55 - Z.of_nat (length l)) 64 ltac:(lia)) as Hd.
  set (q := (55 - Z.of_nat (length l)) / 64) in *.
  replace (Z.of_nat (length l) + (1 + 0 + ((55 - Z.of_nat (length l)) mod 64 + Z.of_nat 8)))
    with ((1 - q) * 64) by lia.
  apply Z.mod_mul. lia.
Qed.

End SHA256.
