(* ===== verification/Utf8.v ===== *)
(** * UTF-8 validity ([unicode/utf8])

    [utf8.Valid] and [utf8.ValidString]: every encoding is of the shortest form
    and none is of a surrogate or above U+10FFFF. *)

From S2P Require Import Prelude Bytes.
Open Scope Z_scope.

Module Utf8.

Definition between (lo hi : Z) (b : byte) : bool := (lo <=? val b) && (val b <=? hi).

(** A continuation byte. *)
Definition cont (b : byte) : bool := between 0x80 0xBF b.

(** The range of the second byte after the first byte of a three- and of a
    four-byte encoding (the [acceptRanges] of the Go package). *)
Definition second3 (b0 b1 : byte) : bool :=
  if val b0 =? 0xE0 then between 0xA0 0xBF b1
  else if val b0 =? 0xED then between 0x80 0x9F b1
  else cont b1.

Definition second4 (b0 b1 : byte) : bool :=
  if val b0 =? 0xF0 then between 0x90 0xBF b1
  else if val b0 =? 0xF4 then between 0x80 0x8F b1
  else cont b1.

Fixpoint Valid (l : list byte) : bool :=
  match l with
  | [] => true
  | b0 :: l0 =>
    if val b0 <? 0x80 then Valid l0
    else match l0 with
    | [] => false
    | b1 :: l1 =>
      if between 0xC2 0xDF b0 then cont b1 && Valid l1
      else match l1 with
      | [] => false
      | b2 :: l2 =>
        if between 0xE0 0xEF b0 then second3 b0 b1 && cont b2 && Valid l2
        else match l2 with
        | [] => false
        | b3 :: l3 =>
          between 0xF0 0xF4 b0 && second4 b0 b1 && cont b2 && cont b3 && Valid l3
        end
      end
    end
  end.

(** The length of the encoding at the front of [s], 0 if there is none ([DecodeRune]
    then answers [RuneError] of length 1). *)
Definition width (s : list byte) : nat :=
  match s with
  | [] => 0%nat
  | b0 :: l0 =>
    if val b0 <? 0x80 then 1%nat
    else match l0 with
    | [] => 0%nat
    | b1 :: l1 =>
      if between 0xC2 0xDF b0 then (if cont b1 then 2 else 0)%nat
      else match l1 with
      | [] => 0%nat
      | b2 :: l2 =>
        if between 0xE0 0xEF b0 then (if second3 b0 b1 && cont b2 then 3 else 0)%nat
        else match l2 with
        | [] => 0%nat
        | b3 :: _ => if between 0xF0 0xF4 b0 && second4 b0 b1 && cont b2 && cont b3 then 4%nat else 0%nat
        end
      end
    end
  end.

(** [utf8.RuneError] *)
Definition replacement : list byte := [Byte.xef; Byte.xbf; Byte.xbd].

(** [utf8.EncodeRune] *)
Definition EncodeRune (r : Z) : list byte :=
  if (r <? 0) || (0x10FFFF <? r) || ((0xD800 <=? r) && (r <=? 0xDFFF)) then replacement
  else if r <? 0x80 then [byte.of_Z r]
  else if r <? 0x800 then [byte.of_Z (0xC0 + r / 64); byte.of_Z (0x80 + r mod 64)]
  else if r <? 0x10000 then
    [byte.of_Z (0xE0 + r / 4096); byte.of_Z (0x80 + r / 64 mod 64); byte.of_Z (0x80 + r mod 64)]
  else [byte.of_Z (0xF0 + r / 262144); byte.of_Z (0x80 + r / 4096 mod 64); byte.of_Z (0x80 + r / 64 mod 64); byte.of_Z (0x80 + r mod 64)].

(** Valid text is a sequence of encodings. *)
Lemma Valid_width s : Valid s = true -> s <> [] -> (0 < width s <= length s)%nat /\ Valid (drop (width s) s) = true.
Proof.
  destruct s as [|b0 l0]; [done|]. intros Hv _. cbn [Valid width] in *.
  destruct (val b0 <? 0x80); [split; [cbn [length]; lia|done]|].
  destruct l0 as [|b1 l1]; [done|]. destruct (between 0xC2 0xDF b0).
  { apply andb_true_iff in Hv as [-> Hv]. split; [cbn [length]; lia|done]. }
  destruct l1 as [|b2 l2]; [done|]. destruct (between 0xE0 0xEF b0).
  { rewrite !andb_true_iff in Hv. destruct Hv as [[-> ->] Hv]. split; [cbn [length andb]; lia|done]. }
  destruct l2 as [|b3 l3]; [done|]. rewrite !andb_true_iff in Hv. destruct Hv as [[[[-> ->] ->] ->] Hv].
  split; [cbn [length andb]; lia|done].
Qed.

Lemma Valid_app s t : Valid s = true -> Valid (s ++ t) = Valid t.
Proof.
  remember (length s) as n eqn:En. revert s En. induction (lt_wf n) as [n _ IH]. intros s -> Hs.
  destruct s as [|b0 s]; [done|]. cbn [Valid app] in *. destruct (val b0 <? 0x80); [by eapply IH; [|reflexivity|]; [simpl; lia|]|].
  destruct s as [|b1 s]; [done|]. cbn [app]. destruct (between 0xC2 0xDF b0).
  { apply andb_true_iff in Hs as [-> Hs]. eapply IH; [|reflexivity|done]. simpl. lia. }
  destruct s as [|b2 s]; [done|]. cbn [app]. destruct (between 0xE0 0xEF b0).
  { rewrite !andb_true_iff in Hs. destruct Hs as [[-> ->] Hs]. eapply IH; [|reflexivity|done]. simpl. lia. }
  destruct s as [|b3 s]; [done|]. cbn [app]. rewrite !andb_true_iff in Hs. destruct Hs as [[[[-> ->] ->] ->] Hs].
  eapply IH; [|reflexivity|done]. simpl. lia.
Qed.

Lemma Valid_take_width s : (0 < width s)%nat -> Valid (take (width s) s) = true.
Proof.
  destruct s as [|b0 [|b1 [|b2 [|b3 s]]]]; cbn [width]; repeat case_match; intros; try lia; cbn [take Valid];
    repeat match goal with E : _ = true |- context [?x] => rewrite E | E : _ = false |- context [?x] => rewrite E end; done.
Qed.

(** Text of bytes below 0x80 is valid. *)
Lemma Valid_ascii l : Forall (fun b => val b < 0x80) l -> Valid l = true.
Proof.
  induction 1 as [|b l Hb _ IH]; [done|]. simpl.
  destruct (Z.ltb_spec (val b) 0x80); [done|lia].
Qed.

Example valid_euro : Valid [Byte.xe2; Byte.x82; Byte.xac] = true.
Proof. reflexivity. Qed.
Example surrogate_invalid : Valid [Byte.xed; Byte.xa0; Byte.x80] = false.
Proof. reflexivity. Qed.
Example overlong_invalid : Valid [Byte.xc0; Byte.x80] = false.
Proof. reflexivity. Qed.

End Utf8.
