(* ===== verification/BasmHash.v ===== *)
(** * pkg/core/basm/hash.go: hash text, Merkle roots, the TAC step

    A [Hash] is held in internal byte order; its text is the lowercase
    hexadecimal of the reversed bytes.  [Root] is compared with the tree that
    BRC-0136 describes top-down. *)

From S2P Require Import Prelude Bytes Sha256.
Open Scope Z_scope.

Module BasmHash.

(** ** Text *)

Definition isLowerHex (b : byte) : bool := lower_hex b.

(** [ParseHash].  The loop ranges over the runes of the string and tests the
    first byte of each; a rune of several bytes starts with a byte that is no
    digit, so the test is a test of every byte. *)
Definition ParseHash (s : list byte) : result Hash :=
  if negb (len s =? 64) then Err ErrInvalidHash
  else if negb (forallb isLowerHex s) then Err ErrInvalidHash
  else match hex_decode s with
  | None => Err (ErrExternal 0)
  | Some display => Ok (array32 (reverse display))
  end.

(** [Hash.String] *)
Definition String (h : Hash) : list byte := hex_encode (reverse (hbytes h)).

(** [Hash.MarshalText] *)
Definition MarshalText (h : Hash) : result (list byte) := Ok (String h).

(** [Hash.UnmarshalText]: the receiver is a pointer, [None] when it is nil; the
    new value of the receiver is returned. *)
Definition UnmarshalText (h : option Hash) (text : list byte) : result Hash :=
  match h with
  | None => Err ErrInvalidInput
  | Some _ => ParseHash text
  end.

(** ** Merkle roots *)

Definition contextCheckInterval : Z := 1024.

Definition doubleSHA256 (input : list byte) : Hash :=
  SHA256.Sum256 (hbytes (SHA256.Sum256 input)).

Definition hashPair (left right : Hash) : Hash :=
  doubleSHA256 (hbytes left ++ hbytes right).

(** [HashTACStep] *)
Definition HashTACStep (previous blockHash root : Hash) : Hash :=
  doubleSHA256 (hbytes previous ++ hbytes blockHash ++ hbytes root).

Definition validateMerkleLeaves (leaves : list Hash) (maxLeaves : Z) : Polling unit :=
  if maxLeaves =? 0 then pure (Err ErrInvalidInput)
  else if maxLeaves <? len leaves then pure (Err ErrLimitExceeded)
  else require_ctx ErrInvalidInput ≫= fun _ => poll.

(** The loop of [hashMerkleLayer]; [left] is its index, [layer] the entries from
    that index on. *)
Fixpoint hashMerkleLayer (left : Z) (layer : list Hash) : Polling (list Hash) :=
  match layer with
  | [] => mret []
  | l :: rest =>
    (if left mod contextCheckInterval =? 0 then poll else mret tt) ≫= fun _ =>
    match rest with
    | [] => mret [hashPair l l]
    | r :: layer' =>
      hashMerkleLayer (left + 2) layer' ≫= fun next => mret (hashPair l r :: next)
    end
  end.

(** [hashMerkleRoot]; a layer halves, so the number of leaves is fuel enough. *)
Fixpoint hashMerkleRoot (fuel : nat) (layer : list Hash) : Polling Hash :=
  if 1 <? len layer then
    match fuel with
    | O => pure Panic
    | S fuel' =>
      poll ≫= fun _ => hashMerkleLayer 0 layer ≫= fun next => hashMerkleRoot fuel' next
    end
  else match layer with
  | [] => pure Panic
  | h :: _ => mret h
  end.

(** [Root] *)
Definition Root (leaves : list Hash) (maxLeaves : Z) : Polling Hash :=
  validateMerkleLeaves leaves maxLeaves ≫= fun _ =>
  match leaves with
  | [] => mret zero_hash
  | [h] => mret h
  | _ => hashMerkleRoot (length leaves) leaves
  end.

(** ** The reference: a tree of a given height

    A tree of height [k] over at most [2^k] leaves joins the tree over the first
    [2^(k-1)] leaves with the tree over the others, or with itself when there
    are no others. *)

Fixpoint merkle_tree (k : nat) (l : list Hash) : Hash :=
  match k with
  | O => default zero_hash (head l)
  | S k' =>
    let L := merkle_tree k' (take (2 ^ k') l) in
    match drop (2 ^ k') l with
    | [] => hashPair L L
    | r => hashPair L (merkle_tree k' r)
    end
  end.

(** What [Root] promises: bounds first, then the zero hash for no leaves and the
    tree of the least sufficient height otherwise. *)
Definition root_spec (leaves : list Hash) (maxLeaves : Z) : result Hash :=
  if maxLeaves =? 0 then Err ErrInvalidInput
  else if maxLeaves <? len leaves then Err ErrLimitExceeded
  else Ok (if decide (leaves = []) then zero_hash
           else merkle_tree (Nat.log2_up (length leaves)) leaves).

(** One layer, without the polls. *)
Fixpoint pair_up (l : list Hash) : list Hash :=
  match l with
  | [] => []
  | [a] => [hashPair a a]
  | a :: b :: l' => hashPair a b :: pair_up l'
  end.

Lemma hashMerkleLayer_computes left layer :
  computes (hashMerkleLayer left layer) (Ok (pair_up layer)).
Proof.
  revert left. induction layer as [|a|a b l IH] using list_ind_two; intros left.
  - apply computes_ret.
  - cbn [hashMerkleLayer pair_up]. destruct (left mod contextCheckInterval =? 0).
    + apply computes_poll_bind, computes_ret.
    + apply computes_ret.
  - cbn [hashMerkleLayer pair_up].
    apply (computes_bind _ _ (Ok tt) (fun _ => Ok (hashPair a b :: pair_up l))).
    + destruct (left mod contextCheckInterval =? 0); auto with computes.
    + intros _ _.
      apply (computes_bind _ _ (Ok (pair_up l)) (fun next => Ok (hashPair a b :: next)));
        [apply IH|auto with computes].
Qed.

Lemma length_pair_up l : length (pair_up l) = Nat.div2 (S (length l)).
Proof.
  induction l as [|a|a b l IH] using list_ind_two; [done|done|].
  simpl. f_equal. apply IH.
Qed.

Lemma take_pair_up m l : take m (pair_up l) = pair_up (take (2 * m) l).
Proof.
  revert l. induction m as [|m IH]; intros l; [by rewrite !take_0|].
  replace (2 * S m)%nat with (S (S (2 * m))) by lia.
  destruct l as [|a [|b l]]; [done| |].
  - simpl. by rewrite take_nil.
  - cbn [take pair_up]. f_equal. apply IH.
Qed.

Lemma drop_pair_up m l : drop m (pair_up l) = pair_up (drop (2 * m) l).
Proof.
  revert l. induction m as [|m IH]; intros l; [by rewrite !drop_0|].
  replace (2 * S m)%nat with (S (S (2 * m))) by lia.
  destruct l as [|a [|b l]]; [done| |].
  - simpl. by rewrite !drop_nil.
  - cbn [drop pair_up]. apply IH.
Qed.

Lemma pair_up_nil l : pair_up l = [] <-> l = [].
Proof. destruct l as [|a [|b l]]; simpl; naive_solver. Qed.

Lemma merkle_tree_S k l :
  merkle_tree (S k) l =
  hashPair (merkle_tree k (take (2 ^ k) l))
    (match drop (2 ^ k) l with [] => merkle_tree k (take (2 ^ k) l) | r => merkle_tree k r end).
Proof. simpl. by destruct (drop (2 ^ k) l). Qed.

(** Pairing the leaves takes one level off the tree. *)
Lemma merkle_tree_pair_up k l :
  l <> [] -> (length l <= 2 ^ S k)%nat -> merkle_tree (S k) l = merkle_tree k (pair_up l).
Proof.
  revert l. induction k as [|k IH]; intros l Hne Hl.
  - destruct l as [|a [|b [|c l]]]; simpl in *; [done..|lia].
  - assert (Hp : (2 * 2 ^ k = 2 ^ S k)%nat) by (simpl; lia).
    assert (Ht : merkle_tree (S k) (take (2 ^ S k) l) = merkle_tree k (pair_up (take (2 ^ S k) l))).
    { apply IH; [|rewrite length_take; lia].
      intros E. apply (f_equal length) in E. rewrite length_take in E.
      destruct l; [done|]. simpl in E. pose proof (Nat.pow_nonzero 2 k). lia. }
    rewrite (merkle_tree_S (S k)), Ht, (merkle_tree_S k), take_pair_up, drop_pair_up, Hp.
    destruct (drop (2 ^ S k) l) as [|r rs] eqn:Ed; [done|].
    assert (Hr : (length (r :: rs) <= 2 ^ S k)%nat)
      by (rewrite <- Ed, length_drop; simpl in *; lia).
    destruct (pair_up (r :: rs)) eqn:Ep; [by apply (pair_up_nil (r :: rs)) in Ep|].
    by rewrite (IH (r :: rs)), Ep.
Qed.

(** A layer of two or more entries has a next layer of fewer, at least one. *)
Lemma pair_up_shrinks l :
  (2 <= length l)%nat -> (1 <= length (pair_up l) < length l)%nat.
Proof. intros. rewrite length_pair_up. rewrite Nat.div2_div. split; [|].
  - apply Nat.div_le_lower_bound; lia.
  - apply Nat.Div0.div_lt_upper_bound; lia.
Qed.

Lemma pair_up_height l k :
  (2 ^ k < length l <= 2 ^ S k)%nat -> (2 ^ k < 2 * length (pair_up l) /\ length (pair_up l) <= 2 ^ k)%nat.
Proof.
  intros H. rewrite length_pair_up, Nat.div2_div.
  pose proof (Nat.div_mod (S (length l)) 2 ltac:(lia)) as Hd.
  pose proof (Nat.mod_upper_bound (S (length l)) 2 ltac:(lia)). simpl in *. lia.
Qed.

(** The bottom-up loop computes the tree of the height that the number of leaves
    determines; in particular it ends within the fuel. *)
Lemma hashMerkleRoot_computes k fuel l :
  l <> [] -> (length l <= 2 ^ k)%nat -> (2 ^ k < 2 * length l)%nat -> (length l <= fuel)%nat ->
  computes (hashMerkleRoot fuel l) (Ok (merkle_tree k l)).
Proof.
  revert fuel l. induction k as [|k IH]; intros fuel l Hne Hl Hk Hf.
  - destruct l as [|h [|h' l]]; [done| |simpl in Hl; lia].
    destruct fuel; simpl in *; apply computes_ret.
  - assert (Hlen : (2 ^ k < length l)%nat) by (simpl in Hk; lia).
    assert (H2 : (2 <= length l)%nat) by (pose proof (Nat.pow_nonzero 2 k); lia).
    destruct fuel as [|fuel]; [lia|].
    cbn [hashMerkleRoot]. destruct (Z.ltb_spec 1 (len l)) as [_|?]; [|unfold len in *; lia].
    apply computes_poll_bind.
    apply (computes_bind _ _ (Ok (pair_up l)) (fun next => Ok (merkle_tree (S k) l)));
      [apply hashMerkleLayer_computes|].
    intros next [= <-]. rewrite merkle_tree_pair_up by done.
    pose proof (pair_up_shrinks l H2). pose proof (pair_up_height l k ltac:(lia)).
    apply IH; [|lia..]. by rewrite pair_up_nil.
Qed.

Lemma log2_up_height (n : nat) :
  (2 <= n)%nat -> (n <= 2 ^ Nat.log2_up n)%nat /\ (2 ^ Nat.log2_up n < 2 * n)%nat.
Proof.
  intros Hn. pose proof (Nat.log2_up_spec n ltac:(lia)) as [H1 H2].
  pose proof (Nat.log2_up_pos n ltac:(lia)). split; [done|].
  replace (Nat.log2_up n) with (S (Nat.pred (Nat.log2_up n))) by lia. simpl. lia.
Qed.

Lemma Root_computes leaves maxLeaves :
  computes (Root leaves maxLeaves) (root_spec leaves maxLeaves).
Proof.
  unfold Root, root_spec, validateMerkleLeaves.
  destruct (maxLeaves =? 0); [apply computes_err_bind|].
  destruct (maxLeaves <? len leaves); [apply computes_err_bind|].
  apply computes_seq; [auto with computes|].
  destruct leaves as [|h [|h' l]]; [apply computes_ret..|].
  rewrite decide_False by done.
  pose proof (log2_up_height (length (h :: h' :: l)) ltac:(simpl; lia)).
  apply hashMerkleRoot_computes; [done|lia..].
Qed.

(** C30. [Root] computes the BRC-0136 root.  With a context that is never
    cancelled the bottom-up, layer-by-layer code returns exactly what the
    specification gives: an error for a zero or exceeded bound, the zero hash for
    no leaves, and otherwise the root of the top-down tree of the least height
    that holds the leaves; the loop ends within its fuel and never indexes out of
    range.  A cancellation at any poll can only replace this answer by the
    context's error, never by another hash. *)
Theorem Root_refines_tree leaves maxLeaves :
  computes (Root leaves maxLeaves) (root_spec leaves maxLeaves).
Proof. apply Root_computes. Qed.

(** ** Text round trip *)

Lemma forallb_lower s : forallb isLowerHex s = true <-> Forall (fun b => lower_hex b = true) s.
Proof. unfold isLowerHex. by rewrite forallb_forall, List.Forall_forall. Qed.

Lemma length_String h : length (String h) = 64%nat.
Proof. unfold String. by rewrite length_hex_encode, length_reverse, hash_length. Qed.
#[export] Hint Rewrite length_String : lengths.

Lemma ParseHash_String h : ParseHash (String h) = Ok h.
Proof.
  unfold ParseHash, len. rewrite length_String. cbn [negb Z.of_nat].
  replace (Z.of_nat 64 =? 64) with true by done. cbn [negb].
  rewrite (proj2 (forallb_lower _)) by apply hex_encode_lower. cbn [negb].
  unfold String. rewrite hex_decode_encode, reverse_involutive.
  by rewrite array32_hbytes.
Qed.

Lemma ParseHash_Ok s h : ParseHash s = Ok h -> s = String h.
Proof.
  unfold ParseHash. destruct (Z.eqb_spec (len s) 64) as [Hl|]; cbn [negb]; [|done].
  destruct (forallb isLowerHex s) eqn:Hs; cbn [negb]; [|done].
  destruct (hex_decode s) as [d|] eqn:Hd; [|done]. intros [= <-].
  apply forallb_lower in Hs.
  destruct (hex_decode_lower s 32) as (d' & Hd' & Hld); [done|unfold len in Hl; lia|].
  assert (d' = d) as -> by congruence.
  unfold String. rewrite hbytes_array32 by (by rewrite length_reverse).
  rewrite reverse_involutive. symmetry. by apply hex_encode_decode.
Qed.

Lemma ParseHash_total s : is_ok (ParseHash s) = true \/ ParseHash s = Err ErrInvalidHash.
Proof.
  unfold ParseHash. destruct (Z.eqb_spec (len s) 64) as [Hl|]; cbn [negb]; [|by right].
  destruct (forallb isLowerHex s) eqn:Hs; cbn [negb]; [|by right].
  apply forallb_lower in Hs.
  destruct (hex_decode_lower s 32) as (d & -> & _); [done|unfold len in Hl; lia|]. by left.
Qed.

(** The text form of a hash is canonical.  Printing then parsing gives the
    hash back, and every text is either the text of exactly one hash, which is
    what parsing returns, or is refused with ErrInvalidHash. *)
Theorem hash_text_canonical :
  (forall h, ParseHash (String h) = Ok h /\ UnmarshalText (Some zero_hash) (String h) = Ok h) /\
  (forall s, (exists h, s = String h /\ ParseHash s = Ok h) \/
             (ParseHash s = Err ErrInvalidHash /\ forall h, s <> String h)).
Proof.
  split.
  - intros h. split; apply ParseHash_String.
  - intros s. destruct (ParseHash_total s) as [H|H].
    + left. destruct (ParseHash s) as [h|e|] eqn:E; [|done..].
      exists h. split; [by apply ParseHash_Ok|done].
    + right. split; [done|]. intros h ->. by rewrite ParseHash_String in H.
Qed.

(** ** Conformance vectors (testdata/vectors.json) *)

Definition parse (s : string) : Hash :=
  match ParseHash (str s) with Ok h => h | _ => zero_hash end.

Definition v1 := parse "000102030405060708090a0b0c0d0e0f101112131415161718191a1b1c1d1e1f".
Definition v2 := parse "ffeeddccbbaa99887766554433221100deadbeefcafebabe0123456789abcdef".
Definition v3 := parse "112233445566778899aabbccddeeff00123456789abcdef00fedcba987654321".

Example vector_even_two :
  (String <$> fst (Root [v1; v2] 100 background)) =
  Ok (str "668066643818b3695ed31c7cfd09dcc8aaeba2f6eb46e6360b041fb3254ccffc").
Proof. vm_compute. reflexivity. Qed.

Example vector_odd_three :
  (String <$> fst (Root [v1; v2; v3] 100 background)) =
  Ok (str "82853ce87598bf885ef5fb2e288d92581a1addc09bc651ea5e3bc2834867f7a0").
Proof. vm_compute. reflexivity. Qed.

End BasmHash.
