(* ===== verification/BasmValues.v ===== *)
(** * pkg/core/basm/values.go and chain.go: claims, their validation, the TAC chain *)

From S2P Require Import Prelude Bytes Sha256 Utf8 BasmHash.
From stdpp Require Import sorting.
Import BasmHash.
Open Scope Z_scope.

Module BasmValues.

(** 1<<53 - 1 *)
Definition MaxSafeJSONInteger : Z := 2 ^ 53 - 1.

Record Limits := mkLimits {
  MaxAdmitted : Z; MaxRange : Z; MaxJSONBytes : Z; MaxTopicBytes : Z }.

Definition DefaultLimits : Limits := mkLimits 100000 1024 (Z.shiftl 16 20) 256.

(** [Limits.validate] *)
Definition validate (l : Limits) : result unit :=
  if (MaxAdmitted l =? 0) || (MaxRange l =? 0) || (MaxJSONBytes l =? 0) || (MaxTopicBytes l =? 0)
  then Err ErrInvalidInput else Ok tt.

Record TopicBlockAnchor := mkAnchor {
  Topic : list byte;
  BlockHeight : Z;
  BlockHash : Hash;
  BASMRoot : Hash;
  AdmittedCount : Z }.

(** The fields fit their Go types (string, uint32, [32]byte, uint64). *)
Definition anchor_typed (a : TopicBlockAnchor) : Prop :=
  addressable (Topic a) /\ is_u32 (BlockHeight a) /\ is_u64 (AdmittedCount a).

Definition validateTopic (topic : list byte) (maxBytes : Z) : result unit :=
  if (len topic =? 0) || (maxBytes <? len topic) || negb (Utf8.Valid topic)
  then Err ErrInvalidInput else Ok tt.

(** [TopicBlockAnchor.Validate] *)
Definition Validate (a : TopicBlockAnchor) (limits : Limits) : result unit :=
  validate limits ≫= fun _ =>
  validateTopic (Topic a) (MaxTopicBytes limits) ≫= fun _ =>
  if MaxAdmitted limits <? AdmittedCount a then Err ErrLimitExceeded
  else if (AdmittedCount a =? 0) && negb (bool_decide (BASMRoot a = zero_hash))
  then Err ErrInconsistent
  else Ok tt.

Record AdmittedTxRef := mkRef { TxID : Hash; BlockIndex : Z }.

Definition admittedListBounds (admitted : list AdmittedTxRef) (blockTxCount : Z) (limits : Limits) :
    Polling unit :=
  pure (validate limits) ≫= fun _ =>
  require_ctx ErrInvalidInput ≫= fun _ =>
  poll ≫= fun _ =>
  pure (if (blockTxCount =? 0) || (MaxSafeJSONInteger <? blockTxCount) then Err ErrInvalidInput
        else if MaxAdmitted limits <? len admitted then Err ErrLimitExceeded
        else Ok tt).

Definition checkAdmittedEntry (i : Z) (ref : AdmittedTxRef) (previousIndex blockTxCount : Z)
    (seen : gset Hash) : Polling unit :=
  (if i mod 256 =? 0 then poll else mret tt) ≫= fun _ =>
  pure (if blockTxCount <=? BlockIndex ref then Err ErrInconsistent
        else if (0 <? i) && (BlockIndex ref <=? previousIndex) then Err ErrInconsistent
        else if bool_decide (TxID ref ∈ seen) then Err ErrInconsistent
        else Ok tt).

(** The loop of [admittedLeaves] from entry [i] on. *)
Fixpoint admittedLeaves (i : Z) (admitted : list AdmittedTxRef) (previousIndex blockTxCount : Z)
    (seen : gset Hash) : Polling (list Hash) :=
  match admitted with
  | [] => mret []
  | ref :: rest =>
    checkAdmittedEntry i ref previousIndex blockTxCount seen ≫= fun _ =>
    admittedLeaves (i + 1) rest (BlockIndex ref) blockTxCount ({[TxID ref]} ∪ seen) ≫= fun leaves =>
    mret (TxID ref :: leaves)
  end.

Definition ValidateAdmittedList (admitted : list AdmittedTxRef) (blockTxCount : Z)
    (limits : Limits) : Polling Hash :=
  admittedListBounds admitted blockTxCount limits ≫= fun _ =>
  admittedLeaves 0 admitted 0 blockTxCount ∅ ≫= fun leaves =>
  Root leaves (MaxAdmitted limits).

Definition ValidateAnchorList (anchor : TopicBlockAnchor) (admitted : list AdmittedTxRef)
    (blockTxCount : Z) (limits : Limits) : Polling unit :=
  pure (Validate anchor limits) ≫= fun _ =>
  pure (if negb (AdmittedCount anchor =? len admitted) then Err ErrInconsistent else Ok tt) ≫= fun _ =>
  ValidateAdmittedList admitted blockTxCount limits ≫= fun root =>
  pure (if negb (bool_decide (root = BASMRoot anchor)) then Err ErrInconsistent else Ok tt).

(** [ValidateRange].  The count is widened to uint64 before the subtraction. *)
Definition ValidateRange (fromHeight toHeight maxHeights : Z) : result Z :=
  if (maxHeights =? 0) || (toHeight <? fromHeight) then Err ErrInvalidInput
  else
    let count := u64 (u64 (toHeight - fromHeight) + 1) in
    if maxHeights <? count then Err ErrLimitExceeded else Ok (u32 count).

(** ** The TAC chain *)

Record Chain := mkChain {
  c_topic : list byte; genesis : Z; c_limits : Limits; height : Z; tac : Hash; hasTip : bool }.

Definition NewChain (topic : list byte) (genesisHeight : Z) (limits : Limits) : result Chain :=
  validate limits ≫= fun _ =>
  validateTopic topic (MaxTopicBytes limits) ≫= fun _ =>
  Ok (mkChain topic genesisHeight limits 0 zero_hash false).

(** The height that the next anchor must have; [None] when uint32 is exhausted. *)
Definition expectedHeight (c : Chain) : option Z :=
  if hasTip c then (if height c =? MaxUint32 then None else Some (u32 (height c + 1)))
  else Some (genesis c).

(** [Chain.Append] returns the chain together with the error. *)
Definition Append (c : Chain) (anchor : TopicBlockAnchor) : Chain * option error :=
  match Validate anchor (c_limits c) with
  | Err e => (c, Some e)
  | Panic => (c, None)
  | Ok _ =>
    if negb (bool_decide (Topic anchor = c_topic c)) then (c, Some ErrNoncontiguous)
    else match expectedHeight c with
    | None => (c, Some ErrNoncontiguous)
    | Some expected =>
      if negb (BlockHeight anchor =? expected) then (c, Some ErrNoncontiguous)
      else (mkChain (c_topic c) (genesis c) (c_limits c) (BlockHeight anchor)
              (HashTACStep (tac c) (BlockHash anchor) (BASMRoot anchor)) true, None)
    end
  end.

(** [Chain.Tip] *)
Definition Tip (c : Chain) : Z * Hash * bool := (height c, tac c, hasTip c).

(** ** Validation of anchors *)

Definition limits_positive (l : Limits) : Prop :=
  MaxAdmitted l <> 0 /\ MaxRange l <> 0 /\ MaxJSONBytes l <> 0 /\ MaxTopicBytes l <> 0.

Lemma validate_Ok l : validate l = Ok tt <-> limits_positive l.
Proof.
  unfold validate, limits_positive.
  destruct (Z.eqb_spec (MaxAdmitted l) 0), (Z.eqb_spec (MaxRange l) 0),
    (Z.eqb_spec (MaxJSONBytes l) 0), (Z.eqb_spec (MaxTopicBytes l) 0); simpl; split; intros; (done || tauto).
Qed.

Lemma validate_cases l : validate l = Ok tt \/ validate l = Err ErrInvalidInput.
Proof. unfold validate. case_match; auto. Qed.

Lemma validateTopic_Ok t m :
  validateTopic t m = Ok tt <-> 0 < len t <= m /\ Utf8.Valid t = true.
Proof.
  unfold validateTopic. pose proof (len_nonneg t).
  destruct (Z.eqb_spec (len t) 0), (Z.ltb_spec m (len t)), (Utf8.Valid t); simpl;
    split; intros Ht; (done || lia || (destruct Ht; done || lia)).
Qed.

Lemma Validate_Ok a l :
  Validate a l = Ok tt <->
  limits_positive l /\ 0 < len (Topic a) <= MaxTopicBytes l /\ Utf8.Valid (Topic a) = true /\
  AdmittedCount a <= MaxAdmitted l /\ (AdmittedCount a = 0 -> BASMRoot a = zero_hash).
Proof.
  unfold Validate. rewrite <- validate_Ok. split.
  - intros H. inv_res. destruct_all_units.
    match goal with H : validateTopic _ _ = _ |- _ => apply validateTopic_Ok in H as [? ?] end.
    split_and!; [done|lia|lia|done|lia|].
    intros E. destruct (bool_decide_reflect (BASMRoot a = zero_hash)); [done|].
    rewrite E in *. done.
  - intros (-> & Ht & Hu & Hc & H0). simpl.
    rewrite (proj2 (validateTopic_Ok _ _)) by done. simpl.
    destruct (Z.ltb_spec (MaxAdmitted l) (AdmittedCount a)); [lia|].
    destruct (Z.eqb_spec (AdmittedCount a) 0); simpl; [|done].
    rewrite bool_decide_true by auto. done.
Qed.

Lemma Validate_cases a l : Validate a l = Ok tt \/ exists e, Validate a l = Err e.
Proof. unfold Validate, validate, validateTopic. simpl. repeat case_match; simpl; eauto. Qed.

(** ** Admitted lists *)

(** A list of admissions of a block of [n] transactions: every index is one of
    the block, the indices increase, no transaction is listed twice. *)
Definition admitted_ok (n : Z) (l : list AdmittedTxRef) : Prop :=
  Forall (fun r => BlockIndex r < n) l /\
  StronglySorted (fun r r' => BlockIndex r < BlockIndex r') l /\
  NoDup (TxID <$> l).

#[global] Instance admitted_ok_dec n l : Decision (admitted_ok n l).
Proof. unfold admitted_ok. apply _. Defined.

(** What [ValidateAdmittedList] promises. *)
Definition admitted_spec (admitted : list AdmittedTxRef) (blockTxCount : Z) (limits : Limits) :
    result Hash :=
  if decide (limits_positive limits) then
    if (blockTxCount =? 0) || (MaxSafeJSONInteger <? blockTxCount) then Err ErrInvalidInput
    else if MaxAdmitted limits <? len admitted then Err ErrLimitExceeded
    else if decide (admitted_ok blockTxCount admitted)
    then root_spec (TxID <$> admitted) (MaxAdmitted limits)
    else Err ErrInconsistent
  else Err ErrInvalidInput.

(** The loop state: the entries before index [i] have the transactions [seen] and
    end with the index [prev]. *)
Definition loop_ok (i prev n : Z) (seen : gset Hash) (l : list AdmittedTxRef) : Prop :=
  admitted_ok n l /\ Forall (fun r => TxID r ∉ seen) l /\
  (0 < i -> Forall (fun r => prev < BlockIndex r) l).

Lemma loop_ok_cons i prev n seen r l :
  0 <= i ->
  loop_ok i prev n seen (r :: l) <->
  BlockIndex r < n /\ (0 < i -> prev < BlockIndex r) /\ (TxID r ∉ seen) /\
  loop_ok (i + 1) (BlockIndex r) n ({[TxID r]} ∪ seen) l.
Proof.
  intros Hi. unfold loop_ok, admitted_ok.
  rewrite fmap_cons, NoDup_cons, !Forall_cons, StronglySorted_cons, !Forall_forall.
  rewrite list_elem_of_fmap.
  split.
  - intros (((? & ?) & (? & ?) & (Hn & ?)) & (? & Hseen) & Hp). split_and!; try done.
    + intros Hpos. by destruct (Hp Hpos).
    + intros x Hx. rewrite elem_of_union, elem_of_singleton. intros [E|E].
      * apply Hn. eauto.
      * by apply (Hseen x).
  - intros (? & Hp & ? & (? & ? & ?) & Hs & Hl). split_and!; try done.
    + intros x Hx. apply Hl; [lia|done].
    + intros (x & E & Hx). specialize (Hs x Hx). set_solver.
    + set_solver.
    + intros Hpos. split; [by apply Hp|]. intros x Hx.
      specialize (Hp Hpos). specialize (Hl ltac:(lia) x Hx). lia.
Qed.

#[global] Instance loop_ok_dec i prev n seen l : Decision (loop_ok i prev n seen l).
Proof. unfold loop_ok. apply _. Defined.

Lemma checkAdmittedEntry_computes i ref prev n seen :
  computes (checkAdmittedEntry i ref prev n seen)
    (if decide (BlockIndex ref < n /\ (0 < i -> prev < BlockIndex ref) /\ (TxID ref ∉ seen))
     then Ok tt else Err ErrInconsistent).
Proof.
  apply computes_seq; [destruct (_ =? _); auto with computes|].
  eapply computes_eq; [apply computes_pure|].
  destruct (Z.leb_spec n (BlockIndex ref)), (Z.ltb_spec 0 i),
    (Z.leb_spec (BlockIndex ref) prev), (bool_decide_reflect (TxID ref ∈ seen));
    simpl; case_decide; (done || intuition lia).
Qed.

Lemma admittedLeaves_computes i l prev n seen :
  0 <= i ->
  computes (admittedLeaves i l prev n seen)
    (if decide (loop_ok i prev n seen l) then Ok (TxID <$> l) else Err ErrInconsistent).
Proof.
  revert i prev seen. induction l as [|r l IH]; intros i prev seen Hi.
  - rewrite decide_True; [apply computes_ret|].
    unfold loop_ok, admitted_ok. split_and!; constructor.
  - cbn [admittedLeaves]. eapply computes_eq.
    + eapply computes_bind; [apply checkAdmittedEntry_computes|].
      intros ? ?. eapply computes_bind; [apply IH; lia|].
      intros leaves ?. apply computes_ret.
    + pose proof (loop_ok_cons i prev n seen r l Hi) as Hc.
      repeat case_decide; simpl; (done || tauto).
Qed.

Lemma loop_ok_start n l : loop_ok 0 0 n ∅ l <-> admitted_ok n l.
Proof.
  unfold loop_ok. split; [tauto|]. intros ?. split_and!; [done| |lia].
  apply Forall_forall. set_solver.
Qed.

Lemma ValidateAdmittedList_computes admitted blockTxCount limits :
  computes (ValidateAdmittedList admitted blockTxCount limits)
           (admitted_spec admitted blockTxCount limits).
Proof.
  unfold ValidateAdmittedList, admittedListBounds, admitted_spec.
  eapply computes_eq.
  - eapply computes_bind.
    + eapply computes_bind; [apply computes_pure|]. intros ? _.
      apply computes_require_bind, computes_poll_bind, computes_pure.
    + intros ? _. eapply computes_bind; [by apply admittedLeaves_computes|].
      intros leaves _. apply Root_computes.
  - destruct (validate_cases limits) as [E|E]; rewrite E; simpl.
    + apply validate_Ok in E. rewrite (decide_True (P := limits_positive limits)) by done.
      destruct ((blockTxCount =? 0) || (MaxSafeJSONInteger <? blockTxCount)); [done|].
      destruct (MaxAdmitted limits <? len admitted); [done|]. simpl.
      pose proof (loop_ok_start blockTxCount admitted).
      case_decide; case_decide; (done || tauto).
    + rewrite (decide_False (P := limits_positive limits)); [done|]. intros Hl. apply validate_Ok in Hl. congruence.
Qed.

(** C32.  [ValidateAdmittedList] accepts exactly the lists within the bounds whose
    indices lie in the block and increase strictly and whose txids are distinct,
    and returns the root of the listed txids in their order; every other input is
    refused with the error of its category.  A cancellation can only withhold the
    answer.  The incremental checks (a set of txids seen, the previous index)
    thus decide the global property. *)
Theorem ValidateAdmittedList_spec admitted blockTxCount limits :
  computes (ValidateAdmittedList admitted blockTxCount limits)
           (admitted_spec admitted blockTxCount limits).
Proof. apply ValidateAdmittedList_computes. Qed.

(** What an anchor promises of the list of its block. *)
Definition anchors_list (a : TopicBlockAnchor) (n : Z) (limits : Limits) (l : list AdmittedTxRef) : Prop :=
  admitted_ok n l /\ AdmittedCount a = len l /\
  root_spec (TxID <$> l) (MaxAdmitted limits) = Ok (BASMRoot a).

Lemma ValidateAnchorList_Ok a l n limits c c' :
  ValidateAnchorList a l n limits c = (Ok tt, c') -> anchors_list a n limits l.
Proof.
  unfold ValidateAnchorList. intros E.
  apply polling_bind_Ok in E as ([] & c1 & [_ ->]%pure_Ok & E).
  apply polling_bind_Ok in E as ([] & c2 & [Hc ->]%pure_Ok & E).
  apply polling_bind_Ok in E as (root & c3 & Hroot & [Hr _]%pure_Ok).
  destruct (Z.eqb_spec (AdmittedCount a) (len l)) as [Hlen|]; [|done].
  destruct (bool_decide_reflect (root = BASMRoot a)) as [->|]; [|done].
  assert (Hctx : absent c = false).
  { unfold ValidateAdmittedList, admittedListBounds in Hroot.
    apply polling_bind_Ok in Hroot as ([] & c4 & Hroot & _). apply polling_bind_Ok in Hroot as ([] & c5 & [_ ->]%pure_Ok & Hroot).
    apply polling_bind_Ok in Hroot as ([] & c6 & Hroot & _). unfold require_ctx in Hroot. by destruct (absent c). }
  destruct (ValidateAdmittedList_computes l n limits c Hctx) as (_ & [Hspec|Hspec] & _); rewrite Hroot in Hspec; [|done].
  cbn [fst] in Hspec. unfold admitted_spec in Hspec. repeat case_decide; try case_match; try case_match; try done.
Qed.

(** ** Ranges *)

Lemma count_widened from to :
  is_u32 from -> is_u32 to -> from <= to -> u64 (u64 (to - from) + 1) = to - from + 1.
Proof.
  unfold is_u32, MaxUint32, u64. intros. rewrite (Z.mod_small (to - from)) by lia.
  apply Z.mod_small. lia.
Qed.

Lemma ValidateRange_counts from to maxHeights :
  is_u32 from -> is_u32 to -> is_u32 maxHeights ->
  ValidateRange from to maxHeights =
    if decide (maxHeights = 0 \/ to < from) then Err ErrInvalidInput
    else if decide (to - from + 1 <= maxHeights) then Ok (to - from + 1)
    else Err ErrLimitExceeded.
Proof.
  intros Hf Ht Hm. unfold ValidateRange.
  destruct (Z.eqb_spec maxHeights 0), (Z.ltb_spec to from); simpl;
    [rewrite decide_True by tauto; done..|].
  rewrite decide_False, count_widened by (done || lia).
  destruct (Z.ltb_spec maxHeights (to - from + 1));
    [rewrite decide_False by lia; done|rewrite decide_True by lia].
  f_equal. apply u32_small. unfold is_u32, MaxUint32 in *. lia.
Qed.

(** [ValidateRange] on uint32 arguments returns the number of heights of the
    inclusive interval, for every interval up to the limit and without overflow
    (the whole range 0..2^32-1 has 2^32 heights, one more than uint32 holds), and
    refuses inverted intervals and a zero limit as invalid, long ones as exceeding
    the limit. *)
Theorem ValidateRange_spec from to maxHeights :
  is_u32 from -> is_u32 to -> is_u32 maxHeights ->
  ValidateRange from to maxHeights =
    if decide (maxHeights = 0 \/ to < from) then Err ErrInvalidInput
    else if decide (to - from + 1 <= maxHeights) then Ok (to - from + 1)
    else Err ErrLimitExceeded.
Proof. apply ValidateRange_counts. Qed.

Lemma ValidateRange_spec_witness :
  (is_u32 7 /\ is_u32 9 /\ is_u32 1024) /\ ValidateRange 7 9 1024 = Ok 3.
Proof.
  assert (H : is_u32 7 /\ is_u32 9 /\ is_u32 1024) by (unfold is_u32, MaxUint32; lia).
  split; [exact H|]. destruct H as (H7 & H9 & Hm).
  rewrite (ValidateRange_spec 7 9 1024 H7 H9 Hm). reflexivity.
Defined.

(** ** The chain as a state machine *)

(** The chains a caller can hold after appending the anchors [log] (and any number
    of refused ones) to a new chain. *)
Inductive reachable (topic : list byte) (g : Z) (limits : Limits) :
    list TopicBlockAnchor -> Chain -> Prop :=
  | reach_new c :
      NewChain topic g limits = Ok c -> reachable topic g limits [] c
  | reach_append log c a c' :
      reachable topic g limits log c -> Append c a = (c', None) ->
      reachable topic g limits (log ++ [a]) c'
  | reach_refused log c a c' e :
      reachable topic g limits log c -> Append c a = (c', Some e) ->
      reachable topic g limits log c'.

(** The TAC of a list of anchors: the fold of the step from the zero hash. *)
Definition tac_of (log : list TopicBlockAnchor) : Hash :=
  foldl (fun t a => HashTACStep t (BlockHash a) (BASMRoot a)) zero_hash log.

(** The chain that holds exactly [log]. *)
Definition holds (topic : list byte) (g : Z) (limits : Limits) (log : list TopicBlockAnchor)
    (c : Chain) : Prop :=
  c = mkChain topic g limits (if decide (log = []) then 0 else g + len log - 1) (tac_of log)
        (negb (bool_decide (log = []))) /\
  limits_positive limits /\
  BlockHeight <$> log = seqZ g (len log) /\
  Forall (fun a => Topic a = topic /\ Validate a limits = Ok tt) log /\
  len log <= 2 ^ 32 - g.

Lemma Append_spec c a c' o :
  Append c a = (c', o) ->
  match o with
  | Some _ => c' = c
  | None =>
    Validate a (c_limits c) = Ok tt /\ Topic a = c_topic c /\
    expectedHeight c = Some (BlockHeight a) /\
    c' = mkChain (c_topic c) (genesis c) (c_limits c) (BlockHeight a)
           (HashTACStep (tac c) (BlockHash a) (BASMRoot a)) true
  end.
Proof.
  unfold Append. destruct (Validate a (c_limits c)) as [[]|e|] eqn:Ev.
  - destruct (bool_decide_reflect (Topic a = c_topic c)); simpl; [|by intros [= <- <-]].
    destruct (expectedHeight c) as [h|]; [|by intros [= <- <-]].
    destruct (Z.eqb_spec (BlockHeight a) h) as [->|]; simpl; by intros [= <- <-].
  - by intros [= <- <-].
  - exfalso. revert Ev. unfold Validate, validate, validateTopic. simpl.
    repeat case_match; done.
Qed.

(** The height that [Append] asks for next. *)
Lemma expectedHeight_holds topic g limits log c h :
  is_u32 g -> holds topic g limits log c -> expectedHeight c = Some h ->
  h = g + len log /\ len log < 2 ^ 32 - g.
Proof.
  intros Hg (-> & _ & _ & _ & Hlen). unfold expectedHeight; simpl.
  unfold is_u32, MaxUint32 in *. pose proof (len_nonneg log).
  destruct (decide (log = [])) as [->|Hne].
  - intros [= <-]. rewrite len_nil in *. lia.
  - rewrite bool_decide_false by done. simpl.
    assert (1 <= len log) by (destruct log; [done|rewrite len_cons; pose proof (len_nonneg log); lia]).
    destruct (Z.eqb_spec (g + len log - 1) (2 ^ 32 - 1)); [done|]. intros [= <-].
    rewrite u32_small by (unfold is_u32, MaxUint32; lia). lia.
Qed.

Lemma NewChain_holds topic g limits c :
  is_u32 g -> NewChain topic g limits = Ok c -> holds topic g limits [] c.
Proof.
  intros Hg H. unfold NewChain in H. inv_res. destruct_all_units.
  unfold holds, is_u32, MaxUint32 in *. change (len []) with 0.
  split_and!; [done|by apply validate_Ok|done|constructor|lia].
Qed.

Lemma holds_append topic g limits log c a c' :
  is_u32 g -> holds topic g limits log c -> Append c a = (c', None) ->
  holds topic g limits (log ++ [a]) c'.
Proof.
  intros Hg Hh Ha. apply Append_spec in Ha as (Hv & Ht & He & ->).
  destruct (expectedHeight_holds _ _ _ _ _ _ Hg Hh He) as [Hb Hn].
  destruct Hh as (-> & Hl & Hs & Hf & Hlen). simpl in *.
  assert (Hne : log ++ [a] <> []) by (by destruct log).
  unfold holds. rewrite len_app. change (len [a]) with 1. split_and!.
  - rewrite decide_False, bool_decide_false by done.
    unfold tac_of. rewrite foldl_snoc, Hb. f_equal. lia.
  - done.
  - rewrite fmap_app, Hs. simpl. rewrite Hb, seqZ_app by (done || apply len_nonneg). done.
  - apply Forall_app. auto.
  - lia.
Qed.

Lemma reachable_holds topic g limits log c :
  is_u32 g -> reachable topic g limits log c -> holds topic g limits log c.
Proof.
  intros Hg. induction 1 as [c Hn|log c a c' _ IH Ha|log c a c' e _ IH Ha].
  - by apply NewChain_holds.
  - by eapply holds_append.
  - by apply Append_spec in Ha as ->.
Qed.

(** C31. The TAC chain as a state machine.  Whatever anchors a caller tries to
    append, the chain is determined by those it accepted: their heights are
    exactly genesis, genesis+1, ... without gap or repetition, each is valid and of
    the chain's topic, the TAC is the fold of [HashTACStep] over them from the zero
    hash and the height is that of the last; a refused anchor leaves the chain
    unchanged.  The next anchor is accepted exactly when it is valid, of the topic
    and at the next height, and no anchor is accepted once the uint32 heights are
    used up, so the height never wraps. *)
Theorem chain_reachable topic g limits log c :
  is_u32 g -> reachable topic g limits log c ->
  holds topic g limits log c /\
  Tip c = (height c, tac_of log, negb (bool_decide (log = []))) /\
  forall a,
    (snd (Append c a) = None <->
     Validate a limits = Ok tt /\ Topic a = topic /\ BlockHeight a = g + len log /\
     len log < 2 ^ 32 - g) /\
    (snd (Append c a) <> None -> fst (Append c a) = c).
Proof.
  intros Hg Hr. pose proof (reachable_holds _ _ _ _ _ Hg Hr) as Hh.
  split; [done|]. split; [by destruct Hh as (-> & _)|].
  intros a. destruct (Append c a) as [c' o] eqn:Ea. simpl.
  pose proof (Append_spec _ _ _ _ Ea) as Hs. split.
  2: { intros Ho. by destruct o. }
  split.
  - intros ->. destruct Hs as (Hv & Ht & He & _).
    destruct (expectedHeight_holds _ _ _ _ _ _ Hg Hh He). destruct Hh as (-> & _). done.
  - intros (Hv & Ht & Hb & Hn). unfold Append in Ea.
    destruct (expectedHeight c) as [h|] eqn:He.
    + destruct (expectedHeight_holds _ _ _ _ _ _ Hg Hh He) as [Hh' _].
      destruct Hh as (-> & _). simpl in *.
      rewrite Hv, bool_decide_true in Ea by done. simpl in Ea.
      rewrite (proj2 (Z.eqb_eq _ _)) in Ea by lia. by injection Ea.
    + exfalso. destruct Hh as (-> & _). unfold expectedHeight in He. simpl in He.
      destruct (decide (log = [])) as [->|Hne]; [done|].
      rewrite bool_decide_false in He by done. simpl in He.
      destruct (Z.eqb_spec (g + len log - 1) MaxUint32) as [E|]; [|done].
      unfold MaxUint32 in E. lia.
Qed.

Definition sample_limits : Limits := mkLimits 10 10 1000 10.
Definition sample_anchor : TopicBlockAnchor :=
  mkAnchor (str "tm") MaxUint32 v1 zero_hash 0.
Definition sample_chain : Chain :=
  mkChain (str "tm") MaxUint32 sample_limits 0 zero_hash false.

Lemma sample_chain_reachable : reachable (str "tm") MaxUint32 sample_limits [] sample_chain.
Proof. apply reach_new. reflexivity. Defined.

(** A chain whose genesis is the last height: one anchor fills it. *)
Lemma chain_reachable_witness :
  exists c, reachable (str "tm") MaxUint32 sample_limits [sample_anchor] c /\
    holds (str "tm") MaxUint32 sample_limits [sample_anchor] c /\
    snd (Append c sample_anchor) <> None.
Proof.
  exists (fst (Append sample_chain sample_anchor)).
  assert (Hg : is_u32 MaxUint32) by (unfold is_u32, MaxUint32; lia).
  assert (Hr : reachable (str "tm") MaxUint32 sample_limits [sample_anchor]
                 (fst (Append sample_chain sample_anchor))).
  { apply (reach_append _ _ _ [] sample_chain); [exact sample_chain_reachable|reflexivity]. }
  destruct (chain_reachable _ _ _ _ _ Hg Hr) as (Hh & _ & Ha).
  split; [exact Hr|]. split; [exact Hh|]. intros E.
  apply (proj1 (Ha sample_anchor)) in E as (_ & _ & _ & Hn). revert Hn. done.
Defined.

End BasmValues.
