(* ===== verification/WireReader.v ===== *)
(** * pkg/core/basm/wire.go: the bounded reader and CompactSize

    The reader that every binary decoder of the package runs on, the CompactSize
    integers of Bitcoin, and what it means for a decoder to read exactly a set of
    encodings ([reads]): the decoders are compared with grammars, in both
    directions, by the lemmas of this file. *)

From S2P Require Import Prelude Bytes.
Open Scope Z_scope.

Module Wire.

Record boundedWireReader := mkReader { data : list byte; pos : nat }.

(** A decoder: a call that moves the reader. *)
Definition Read (A : Type) : Type := boundedWireReader -> result (A * boundedWireReader).

#[global] Instance read_ret : MRet Read := fun A a r => Ok (a, r).
#[global] Instance read_bind : MBind Read := fun A B f m r =>
  match m r with
  | Ok (a, r') => f a r'
  | Err e => Err e
  | Panic => Panic
  end.

Definition fail {A} (e : error) : Read A := fun _ => Err e.

(** [boundedWireReader.remaining] *)
Definition remaining : Read Z := fun r => Ok (len (data r) - Z.of_nat (pos r), r).

(** [boundedWireReader.byte] *)
Definition read_byte : Read byte :=
  n ← remaining;
  if n <? 1 then fail ErrInvalidInput
  else fun r => match data r !! pos r with
       | None => Panic
       | Some b => Ok (b, mkReader (data r) (pos r + 1))
       end.

(** [boundedWireReader.bytes] *)
Definition read_bytes (length : Z) : Read (list byte) :=
  n ← remaining;
  if n <? length then fail ErrInvalidInput
  else fun r =>
    let w := Z.to_nat length in
    Ok (take w (drop (pos r) (data r)), mkReader (data r) (pos r + w)).

(** [boundedWireReader.compactSize] *)
Definition compactSize : Read Z :=
  prefix ← read_byte;
  let wide (width : nat) (minimum : Z) : Read Z :=
    encoded ← read_bytes (Z.of_nat width);
    value ← (fun r => match get_le width encoded with
                      | Ok v => Ok (v, r) | Err e => Err e | Panic => Panic end);
    if value <? minimum then fail ErrInvalidInput else mret value in
  if val prefix =? 0xfd then wide 2%nat 0xfd
  else if val prefix =? 0xfe then wide 4%nat 0x10000
  else if val prefix =? 0xff then wide 8%nat 0x100000000
  else mret (val prefix).

(** [appendCompactSize] *)
Definition appendCompactSize (dst : list byte) (value : Z) : list byte :=
  let b (k : Z) := byte.of_Z (Z.shiftr value k) in
  if value <? 0xfd then dst ++ [byte.of_Z value]
  else if value <=? MaxUint16 then dst ++ [Byte.xfd; byte.of_Z value; b 8]
  else if value <=? MaxUint32 then dst ++ [Byte.xfe; byte.of_Z value; b 8; b 16; b 24]
  else dst ++ [Byte.xff; byte.of_Z value; b 8; b 16; b 24; b 32; b 40; b 48; b 56].

(** The loops [for i := 0; i < n; i++] of the preflights. *)
Fixpoint repeat_read (n : nat) (m : Read unit) : Read unit :=
  match n with
  | O => mret tt
  | S n' => m ≫= fun _ => repeat_read n' m
  end.

(** ** Decoders and grammars *)

Definition wf (r : boundedWireReader) : Prop := (pos r <= length (data r))%nat.

Definition rest (r : boundedWireReader) : list byte := drop (pos r) (data r).

(** The reader after [bs] has been read. *)
Definition advance (r : boundedWireReader) (bs : list byte) : boundedWireReader :=
  mkReader (data r) (pos r + length bs).

(** [m] reads exactly the encodings of [G]: it returns [a] after moving over [bs]
    when and only when [bs] is a prefix of the input that encodes [a]; otherwise it
    returns an error, and it never panics. *)
Definition reads {A} (m : Read A) (G : A -> list byte -> Prop) : Prop :=
  forall r, wf r ->
    (forall a r', m r = Ok (a, r') <->
       exists bs, bs `prefix_of` rest r /\ G a bs /\ r' = advance r bs) /\
    is_panic (m r) = false.

Lemma len_rest r : wf r -> len (data r) - Z.of_nat (pos r) = len (rest r).
Proof. unfold wf, rest, len. rewrite length_drop. lia. Qed.

Lemma wf_advance r bs : wf r -> bs `prefix_of` rest r -> wf (advance r bs).
Proof.
  intros Hw Hp. apply prefix_length in Hp. unfold wf, advance, rest in *. simpl in *.
  rewrite length_drop in Hp. lia.
Qed.

Lemma rest_advance r bs k : rest r = bs ++ k -> rest (advance r bs) = k.
Proof.
  unfold rest, advance. simpl. intros E.
  rewrite <- drop_drop, E. by rewrite drop_app_length.
Qed.

Lemma advance_nil r : advance r [] = r.
Proof. destruct r. unfold advance. simpl. by rewrite Nat.add_0_r. Qed.

Lemma advance_app r b1 b2 : advance (advance r b1) b2 = advance r (b1 ++ b2).
Proof. unfold advance. simpl. rewrite length_app. f_equal. lia. Qed.

Lemma reads_iff {A} (m : Read A) G G' :
  (forall a bs, G a bs <-> G' a bs) -> reads m G -> reads m G'.
Proof.
  intros HG Hm r Hw. destruct (Hm r Hw) as [H1 H2]. split; [|done].
  intros a r'. rewrite H1. by setoid_rewrite HG.
Qed.

Lemma reads_ext {A} (m m' : Read A) G : (forall r, m r = m' r) -> reads m' G -> reads m G.
Proof. intros E Hm r Hw. rewrite E. by apply Hm. Qed.

Lemma reads_ret {A} (x : A) : reads (mret x) (fun a bs => a = x /\ bs = []).
Proof.
  intros r Hw. split; [|done]. intros a r'. unfold mret, read_ret. split.
  - intros [= <- <-]. exists []. rewrite advance_nil. split_and!; [apply prefix_nil|done..].
  - intros (bs & _ & (-> & ->) & ->). by rewrite advance_nil.
Qed.

Lemma reads_fail {A} e : reads (@fail A e) (fun _ _ => False).
Proof. intros r Hw. split; [|done]. intros a r'. split; [done|]. by intros (? & _ & [] & _). Qed.

Lemma reads_bind {A B} (m : Read A) (f : A -> Read B) G (F : A -> B -> list byte -> Prop) :
  reads m G -> (forall a bs, G a bs -> reads (f a) (F a)) ->
  reads (m ≫= f) (fun b bs => exists a b1 b2, bs = b1 ++ b2 /\ G a b1 /\ F a b b2).
Proof.
  intros Hm Hf r Hw. destruct (Hm r Hw) as [H1 H2].
  unfold mbind, read_bind. destruct (m r) as [[a r1]|e|] eqn:Er.
  - destruct (proj1 (H1 a r1) eq_refl) as (b1 & Hp1 & HG & ->).
    pose proof (wf_advance r b1 Hw Hp1) as Hw1.
    destruct (Hf a b1 HG (advance r b1) Hw1) as [H3 H4]. split; [|done].
    intros b r'. rewrite H3. destruct Hp1 as [k Ek].
    rewrite (rest_advance r b1 k Ek). split.
    + intros (b2 & [k' ->] & HF & ->). exists (b1 ++ b2).
      rewrite advance_app, Ek. split_and!; [exists k'; by rewrite app_assoc|eauto 10|done].
    + intros (bs & [k' Ek'] & (a' & b1' & b2 & -> & HG' & HF) & ->).
      assert (E : Ok (a, advance r b1) = Ok (a', advance r b1')).
      { rewrite (H1 a' (advance r b1')). exists b1'. split_and!; [|done..].
        exists (b2 ++ k'). by rewrite Ek', <- app_assoc. }
      injection E as -> Hl.
      assert (b1 = b1') as <-.
      { rewrite Ek in Ek'. rewrite <- app_assoc in Ek'.
        apply app_len_inj in Ek' as [? _]; [done|].
        unfold advance in Hl. simpl in Hl. lia. }
      exists b2. rewrite advance_app. split_and!; [|done..].
      exists k'. rewrite Ek, <- app_assoc in Ek'. by apply app_inv_head in Ek'.
  - split; [|done].
    intros b r'. split; [done|]. intros (bs & Hp & (a & b1 & b2 & -> & HG & _) & _).
    exfalso. cut (@Err (A * boundedWireReader) e = Ok (a, advance r b1)); [done|].
    apply H1. exists b1. split_and!; [|done..]. by apply prefix_app_l in Hp.
  - done.
Qed.

(** A guard that does not look at the input. *)
Lemma reads_guard {A} (b : bool) (m : Read A) G e :
  reads m G -> reads (if b then fail e else m) (fun a bs => b = false /\ G a bs).
Proof.
  intros Hm. destruct b.
  - eapply reads_iff; [|apply reads_fail]. intros a bs. split; [done|by intros [? _]].
  - eapply reads_iff; [|apply Hm]. intros a bs. split; [auto|by intros [_ ?]].
Qed.

Lemma read_bytes_spec n r :
  0 <= n -> wf r ->
  read_bytes n r =
    if len (rest r) <? n then Err ErrInvalidInput
    else Ok (take (Z.to_nat n) (rest r), advance r (take (Z.to_nat n) (rest r))).
Proof.
  intros Hn Hw. unfold read_bytes, remaining, mbind, read_bind, fail.
  rewrite len_rest by done. destruct (Z.ltb_spec (len (rest r)) n); [done|].
  unfold advance, rest. rewrite length_take, length_drop.
  do 3 f_equal. unfold len, rest in *. rewrite length_drop in *. lia.
Qed.

Lemma reads_bytes n : 0 <= n -> reads (read_bytes n) (fun v bs => v = bs /\ len bs = n).
Proof.
  intros Hn r Hw. rewrite read_bytes_spec by done.
  destruct (Z.ltb_spec (len (rest r)) n) as [Hlt|Hge].
  - split; [|done]. intros a r'. split; [done|].
    intros (bs & Hp & (_ & Hl) & _). apply prefix_length in Hp. unfold len in *. lia.
  - destruct (take_drop_split (rest r) n) as [Et Hl]; [lia|].
    split; [|done]. intros a r'. split.
    + intros [= <- <-]. exists (take (Z.to_nat n) (rest r)). split_and!; [|done..].
      by exists (drop (Z.to_nat n) (rest r)).
    + intros (bs & [k Ek] & (-> & Hb) & ->). rewrite Ek.
      rewrite take_len_app by (unfold len in Hb; lia). done.
Qed.

Lemma reads_byte : reads read_byte (fun b bs => bs = [b]).
Proof.
  intros r Hw. unfold read_byte, remaining, mbind, read_bind, fail.
  rewrite len_rest by done. unfold rest in *.
  destruct (Z.ltb_spec (len (drop (pos r) (data r))) 1) as [Hlt|Hge].
  - split; [|done]. intros a r'. split; [done|].
    intros (bs & Hp & -> & _). apply prefix_length in Hp. unfold len in *. simpl in *. lia.
  - destruct (drop (pos r) (data r)) as [|b k] eqn:Ed; [done|].
    rewrite <- (Nat.add_0_r (pos r)), <- lookup_drop, Ed. simpl.
    split; [|done]. intros a r'. unfold advance. simpl. rewrite Nat.add_0_r. split.
    + intros [= <- <-]. exists [b]. split_and!; [by exists k|done..].
    + intros (bs & Hp & -> & ->). destruct Hp as [k' Ek]. by injection Ek as -> _.
Qed.

(** ** CompactSize *)

(** The encoding written with the little-endian integers of the platform. *)
Lemma appendCompactSize_le dst v :
  appendCompactSize dst v =
  dst ++ (if v <? 0xfd then [byte.of_Z v]
          else if v <=? MaxUint16 then Byte.xfd :: le_split 2 v
          else if v <=? MaxUint32 then Byte.xfe :: le_split 4 v
          else Byte.xff :: le_split 8 v).
Proof.
  unfold appendCompactSize. repeat case_match; cbn [le_split];
    rewrite ?Z.shiftr_shiftr by lia; done.
Qed.

Lemma appendCompactSize_app dst v : appendCompactSize dst v = dst ++ appendCompactSize [] v.
Proof. by rewrite !appendCompactSize_le. Qed.

Definition compact (v : Z) (bs : list byte) : Prop := is_u64 v /\ bs = appendCompactSize [] v.

Lemma reads_wide width minimum :
  0 <= minimum ->
  reads (encoded ← read_bytes (Z.of_nat width);
         value ← (fun r => match get_le width encoded with
                      | Ok v => Ok (v, r) | Err e => Err e | Panic => Panic end);
         if value <? minimum then fail ErrInvalidInput else mret value)
    (fun v bs => minimum <= v < 2 ^ (8 * Z.of_nat width) /\ bs = le_split width v).
Proof.
  intros Hmin. eapply reads_iff; cycle 1.
  - eapply reads_bind; [apply reads_bytes; lia|]. intros e bs (-> & Hl).
    eapply (reads_bind _ _ (fun v k => v = le_combine bs /\ k = [])).
    + intros r Hw. rewrite get_le_take by (unfold len in Hl; lia).
      rewrite take_ge by (unfold len in Hl; lia). by apply reads_ret.
    + intros v k _. apply reads_guard, reads_ret.
  - intros v bs. split.
    + intros (e & b1 & b2 & -> & (-> & Hl) & v' & k1 & k2 & -> & (-> & ->) & Hg & -> & ->).
      rewrite !app_nil_r. pose proof (le_combine_bound b1) as Hb.
      replace (Z.of_nat (length b1)) with (Z.of_nat width) in Hb by (unfold len in Hl; lia).
      split; [lia|]. rewrite split_le_combine'; [done|unfold len in Hl; lia].
    + intros (Hv & ->). exists (le_split width v), (le_split width v), [].
      rewrite app_nil_r. split_and!; [done|done|unfold len; by rewrite length_le_split|].
      exists v, [], []. rewrite le_combine_split, Z.mod_small.
      * split_and!; try done. lia.
      * replace (Z.of_nat width * 8) with (8 * Z.of_nat width) by lia. lia.
Qed.

(** [compactSize] reads exactly the shortest encodings. *)
Lemma reads_compactSize : reads compactSize compact.
Proof.
  unfold compactSize. eapply reads_iff; cycle 1.
  - eapply (reads_bind _ _ _ (fun prefix v bs =>
      if val prefix =? 0xfd then 0xfd <= v < 2 ^ 16 /\ bs = le_split 2 v
      else if val prefix =? 0xfe then 0x10000 <= v < 2 ^ 32 /\ bs = le_split 4 v
      else if val prefix =? 0xff then 0x100000000 <= v < 2 ^ 64 /\ bs = le_split 8 v
      else v = val prefix /\ bs = [])); [apply reads_byte|].
    intros prefix _ _.
    destruct (val prefix =? 0xfd); [by apply (reads_wide 2)|].
    destruct (val prefix =? 0xfe); [by apply (reads_wide 4)|].
    destruct (val prefix =? 0xff); [by apply (reads_wide 8)|]. apply reads_ret.
  - intros v bs. unfold compact, is_u64, MaxUint64.
    rewrite appendCompactSize_le. unfold MaxUint16, MaxUint32. simpl. split.
    + intros (p & b1 & b2 & -> & -> & H). pose proof (val_range p).
      destruct (Z.eqb_spec (val p) 0xfd) as [E|?]; [|destruct (Z.eqb_spec (val p) 0xfe) as [E|?];
        [|destruct (Z.eqb_spec (val p) 0xff) as [E|?]]]; destruct H as [Hv ->].
      1-3: split; [lia|]; zcases; simpl; f_equal; apply val_inj; by rewrite E.
      subst v. split; [lia|]. zcases. by rewrite of_val.
    + intros (Hv & ->).
      zcases.
      * exists (byte.of_Z v), [byte.of_Z v], []. rewrite val_of_Z by lia. by zcases.
      * exists Byte.xfd, [Byte.xfd], (le_split 2 v). change (val Byte.xfd) with 0xfd. zcases. split_and!; (done || lia).
      * exists Byte.xfe, [Byte.xfe], (le_split 4 v). change (val Byte.xfe) with 0xfe. zcases. split_and!; (done || lia).
      * exists Byte.xff, [Byte.xff], (le_split 8 v). change (val Byte.xff) with 0xff. zcases. split_and!; (done || lia).
Qed.

(** ** Guards on what remains *)

(** A guard on the number of bytes left changes nothing when no encoding can
    trigger it. *)
Lemma reads_remaining_guard {A} (g : Z -> bool) e (m : Read A) G :
  reads m G -> (forall a bs n, G a bs -> len bs <= n -> g n = false) ->
  reads (n ← remaining; if g n then fail e else m) G.
Proof.
  intros Hm Hg r Hw. unfold remaining, mbind, read_bind, fail.
  rewrite len_rest by done. destruct (g (len (rest r))) eqn:E.
  - split; [|done]. intros a r'. split; [done|]. intros (bs & Hp & HG & _).
    rewrite (Hg a bs (len (rest r))) in E; [done|done|].
    apply prefix_length in Hp. unfold len. lia.
  - by apply Hm.
Qed.

(** The same with a condition that does not look at the input. *)
Lemma reads_mixed_guard {A} (b : bool) (g : Z -> bool) e (m : Read A) G :
  reads m G -> (forall a bs n, b = false -> G a bs -> len bs <= n -> g n = false) ->
  reads (n ← remaining; if b || g n then fail e else m) (fun a bs => b = false /\ G a bs).
Proof.
  intros Hm Hg. destruct b.
  - eapply reads_iff; [|apply (reads_remaining_guard (fun _ => true) e _ _ (reads_fail e)); done].
    intros a bs. split; [done|by intros [? _]].
  - eapply reads_iff; [|apply (reads_remaining_guard g e m G Hm); eauto].
    intros a bs. split; [auto|by intros [_ ?]].
Qed.

(** [m] followed by the check that nothing is left. *)
Definition read_all {A} (e : error) (m : Read A) : Read A :=
  a ← m; n ← remaining; if negb (n =? 0) then fail e else mret a.

Lemma read_all_Ok {A} e (m : Read A) G d a :
  reads m G ->
  ((exists r, read_all e m (mkReader d 0) = Ok (a, r)) <-> G a d) /\
  is_panic (read_all e m (mkReader d 0)) = false.
Proof.
  intros Hm. assert (Hw : wf (mkReader d 0)) by (unfold wf; simpl; lia).
  destruct (Hm _ Hw) as [H1 H2]. unfold rest in H1. simpl in H1. rewrite drop_0 in H1.
  unfold read_all, mbind, read_bind. split.
  - split.
    + intros [r H]. destruct (m (mkReader d 0)) as [[a' r']|e'|] eqn:Em; [|done..].
      destruct (proj1 (H1 a' r') eq_refl) as (bs & [k Ek] & HG & ->).
      unfold remaining, advance in H. simpl in H.
      destruct (Z.eqb_spec (len d - Z.of_nat (length bs)) 0) as [E|]; [|done].
      simpl in H. injection H as <- _.
      assert (k = []) as ->; [|by rewrite app_nil_r in Ek; subst].
      destruct k; [done|]. exfalso. rewrite Ek, len_app, len_cons in E.
      pose proof (len_nonneg k). unfold len in *. lia.
    + intros HG. assert (Em : m (mkReader d 0) = Ok (a, advance (mkReader d 0) d)).
      { apply H1. by exists d. }
      rewrite Em. unfold remaining, advance. simpl. unfold len.
      rewrite Z.sub_diag. simpl. eauto.
  - destruct (m (mkReader d 0)) as [[a' r']|e'|] eqn:Em; [|done..].
    unfold remaining. simpl. by case_match.
Qed.

(** A decoder that only checks its input. *)
Lemma read_all_check e (m : Read unit) P d :
  reads m (fun _ bs => P bs) ->
  ((read_all e m (mkReader d 0) ≫= fun _ => Ok tt) = Ok tt <-> P d) /\
  is_panic (read_all e m (mkReader d 0) ≫= fun _ => Ok tt) = false.
Proof.
  intros Hm. destruct (read_all_Ok e _ _ d tt Hm) as [Hr Hp].
  destruct (read_all _ _ _) as [[[] r]|e'|] eqn:E; simpl in *; [| |done];
    (split; [|done]); rewrite <- Hr.
  - split; eauto.
  - split; [done|]. by intros [].
Qed.

(** ** Repetition *)

Lemma reads_repeat n (m : Read unit) G :
  reads m G ->
  reads (repeat_read n m)
    (fun _ bs => exists l, length l = n /\ Forall (G tt) l /\ bs = concat l).
Proof.
  intros Hm. induction n as [|n IH].
  - eapply reads_iff; [|apply reads_ret]. intros [] bs. split.
    + intros [_ ->]. exists []. by split_and!.
    + intros (l & Hl & _ & ->). by destruct l.
  - cbn [repeat_read]. eapply reads_iff; [|eapply reads_bind; [apply Hm|intros ? ? _; apply IH]].
    intros [] bs. split.
    + intros ([] & b1 & b2 & -> & HG & l & Hl & HF & ->). exists (b1 :: l).
      split_and!; [simpl; congruence|by constructor|done].
    + intros ([|b1 l] & Hl & HF & ->); [done|]. inversion_clear HF.
      exists tt, b1, (concat l). split_and!; [done|done|]. exists l. simpl in Hl.
      split_and!; [congruence|done|done].
Qed.

Lemma concat_length_ge (k : Z) (l : list (list byte)) :
  0 <= k -> Forall (fun b => k <= len b) l -> k * len l <= len (concat l).
Proof.
  intros Hk. induction 1 as [|b l Hb _ IH]; simpl.
  - unfold len. simpl. lia.
  - rewrite len_app, len_cons. lia.
Qed.

(** A nonempty counted sequence: a CompactSize count, a guard that bounds the
    count by what is left (an item takes [k] bytes at least), the items. *)
Definition read_counted (k : Z) (m : Read unit) : Read unit :=
  count ← compactSize;
  n ← remaining;
  if (count =? 0) || (n / k <? count) then fail ErrInvalidInput
  else repeat_read (Z.to_nat count) m.

Lemma reads_counted k m G :
  0 < k -> reads m G -> (forall bs, G tt bs -> k <= len bs) ->
  reads (read_counted k m)
    (fun _ bs => exists l, l <> [] /\ is_u64 (len l) /\ Forall (G tt) l /\
                 bs = appendCompactSize [] (len l) ++ concat l).
Proof.
  intros Hk Hm HG. unfold read_counted.
  eapply reads_iff; cycle 1.
  - eapply (reads_bind _ _ _ (fun count _ bs => (count =? 0) = false /\
      exists l, length l = Z.to_nat count /\ Forall (G tt) l /\ bs = concat l));
      [apply reads_compactSize|].
    intros count bs [Hu _]. unfold is_u64 in Hu.
    apply (reads_mixed_guard (count =? 0) (fun n => n / k <? count)).
    + apply reads_repeat, Hm.
    + intros [] b n H0 (l & Hl & HF & ->) Hn. apply Z.ltb_ge.
      pose proof (concat_length_ge k l ltac:(lia) (Forall_impl _ _ _ HF HG)) as Hc.
      unfold len in Hc at 1. rewrite Hl, Z2Nat.id in Hc by lia.
      apply Z.div_le_lower_bound; lia.
  - intros [] bs. split.
    + intros (count & b1 & b2 & -> & [Hu ->] & H0 & l & Hl & HF & ->). unfold is_u64 in Hu.
      assert (El : len l = count) by (unfold len; lia).
      exists l. rewrite El. split_and!; try done. intros ->. unfold len in El. simpl in El. lia.
    + intros (l & Hne & Hu & HF & ->).
      exists (len l), (appendCompactSize [] (len l)), (concat l).
      split_and!; [done|done| |].
      * apply Z.eqb_neq. destruct l as [|b0 l0]; [done|rewrite len_cons; pose proof (len_nonneg l0); lia].
      * exists l. split_and!; [unfold len; lia|done|done].
Qed.

End Wire.
