(* ===== verification/BasmWire.v ===== *)
(** * pkg/core/basm/wire.go: the anchor codec and the preflight of raw transactions *)

From S2P Require Import Prelude Bytes Sha256 Utf8 BasmHash BasmValues WireReader.
Import BasmHash BasmValues Wire.
Open Scope Z_scope.

Module BasmWire.

(** ** Anchors *)

(** [EncodeAnchorBinary] *)
Definition EncodeAnchorBinary (anchor : TopicBlockAnchor) (limits : Limits) : result (list byte) :=
  Validate anchor limits ≫= fun _ =>
  let capacity := u64 (len (Topic anchor) + 9 + 4 + 32 * 2 + 9) in
  if MaxInt64 <? capacity then Err ErrLimitExceeded
  else
    let r := appendCompactSize [] (len (Topic anchor)) in
    let r := r ++ Topic anchor in
    let r := r ++ put_u32 (BlockHeight anchor) in
    let r := r ++ hbytes (BlockHash anchor) in
    let r := r ++ hbytes (BASMRoot anchor) in
    Ok (appendCompactSize r (AdmittedCount anchor)).

(** [binary.LittleEndian.Uint32] of bytes already read. *)
Definition read_le32 (b : list byte) : Read Z := fun r =>
  match get_u32 b with Ok v => Ok (v, r) | Err e => Err e | Panic => Panic end.

(** The fields of [DecodeAnchorBinary], up to the check for trailing bytes. *)
Definition decodeAnchorFields (limits : Limits) : Read TopicBlockAnchor :=
  topicLength ← compactSize;
  n ← remaining;
  if (topicLength =? 0) || (MaxTopicBytes limits <? topicLength) || (n <? topicLength)
  then fail ErrLimitExceeded else
  topicBytes ← read_bytes topicLength;
  if negb (Utf8.Valid topicBytes) then fail ErrInvalidInput else
  heightBytes ← read_bytes 4;
  blockHash ← read_bytes 32;
  root ← read_bytes 32;
  count ← compactSize;
  height ← read_le32 heightBytes;
  mret (mkAnchor topicBytes height (array32 blockHash) (array32 root) count).

(** [DecodeAnchorBinary] *)
Definition DecodeAnchorBinary (data : list byte) (limits : Limits) : result TopicBlockAnchor :=
  validate limits ≫= fun _ =>
  read_all ErrInvalidInput (decodeAnchorFields limits) (mkReader data 0) ≫= fun '(anchor, _) =>
  Validate anchor limits ≫= fun _ =>
  Ok anchor.

(** ** Raw transactions *)

(** [skipWireScript] *)
Definition skipWireScript : Read unit :=
  length ← compactSize;
  n ← remaining;
  if n <? length then fail ErrInvalidInput
  else read_bytes length ≫= fun _ => mret tt.

(** [skipRawTransactionInput] *)
Definition skipRawTransactionInput : Read unit :=
  read_bytes 36 ≫= fun _ => skipWireScript ≫= fun _ => read_bytes 4 ≫= fun _ => mret tt.

(** [skipRawTransactionInputs]: the count guard allows 41 bytes an input. *)
Definition skipRawTransactionInputs : Read unit :=
  read_bytes 4 ≫= fun _ => read_counted 41 skipRawTransactionInput.

(** The body of the loop of [skipRawTransactionOutputs]. *)
Definition skipRawTransactionOutput : Read unit :=
  read_bytes 8 ≫= fun _ => skipWireScript.

(** [skipRawTransactionOutputs]: the count guard allows 9 bytes an output. *)
Definition skipRawTransactionOutputs : Read unit := read_counted 9 skipRawTransactionOutput.

(** [preflightRawTransaction] *)
Definition preflightRawTransaction (data : list byte) : result unit :=
  read_all ErrInvalidInput
    (skipRawTransactionInputs ≫= fun _ => skipRawTransactionOutputs ≫= fun _ =>
     read_bytes 4 ≫= fun _ => mret tt) (mkReader data 0) ≫= fun _ => Ok tt.

Definition validateWireSize (data : list byte) (maxBytes : Z) : result unit :=
  if maxBytes =? 0 then Err ErrInvalidInput
  else if maxBytes <? len data then Err ErrLimitExceeded
  else Ok tt.

(** [RawTransactionID].  The SDK's parser and serializer are parameters. *)
Section RawTransactionID.
Context {Tx : Type} (NewTransactionFromBytes : list byte -> result Tx) (Bytes : Tx -> list byte).

Definition RawTransactionID (data : list byte) (maxBytes : Z) : result Hash :=
  validateWireSize data maxBytes ≫= fun _ =>
  preflightRawTransaction data ≫= fun _ =>
  NewTransactionFromBytes data ≫= fun tx =>
  if negb (bool_decide (Bytes tx = data)) then Err ErrInvalidInput
  else Ok (doubleSHA256 data).
End RawTransactionID.

(** ** The anchor codec *)

(** The limits are uint32 fields. *)
Definition limits_typed (l : Limits) : Prop := is_u32 (MaxAdmitted l) /\ is_u32 (MaxTopicBytes l).

(** The encoding of an anchor, field by field. *)
Definition anchor_bytes (a : TopicBlockAnchor) : list byte :=
  appendCompactSize [] (len (Topic a)) ++ Topic a ++ put_u32 (BlockHeight a) ++
  hbytes (BlockHash a) ++ hbytes (BASMRoot a) ++ appendCompactSize [] (AdmittedCount a).

Definition anchor_grammar (limits : Limits) (a : TopicBlockAnchor) (bs : list byte) : Prop :=
  0 < len (Topic a) <= MaxTopicBytes limits /\ Utf8.Valid (Topic a) = true /\
  is_u32 (BlockHeight a) /\ is_u64 (AdmittedCount a) /\ is_u64 (len (Topic a)) /\
  bs = anchor_bytes a.

Lemma reads_le32 b :
  length b = 4%nat -> reads (read_le32 b) (fun v bs => v = le_combine b /\ bs = []).
Proof.
  intros Hb r Hw. unfold read_le32, get_u32.
  rewrite get_le_take, take_ge by lia. by apply reads_ret.
Qed.

Lemma reads_anchor limits : reads (decodeAnchorFields limits) (anchor_grammar limits).
Proof.
  unfold decodeAnchorFields. eapply reads_iff; cycle 1.
  - eapply reads_bind; [apply reads_compactSize|]. intros n ? [Hn _].
    apply (reads_mixed_guard ((n =? 0) || (MaxTopicBytes limits <? n)) (fun k => k <? n)).
    + eapply reads_bind; [apply reads_bytes, Hn|]. intros t ? _.
      apply reads_guard.
      eapply reads_bind; [by apply reads_bytes|]. intros hb ? (-> & Hhb).
      eapply reads_bind; [by apply reads_bytes|]. intros bh ? _.
      eapply reads_bind; [by apply reads_bytes|]. intros rt ? _.
      eapply reads_bind; [apply reads_compactSize|]. intros count ? _.
      eapply reads_bind; [apply reads_le32; unfold len in Hhb; lia|]. intros h ? _.
      apply reads_ret.
    + intros a bs0 k _ (t & b1 & b2 & -> & (-> & Hl) & _) Hk. rewrite len_app in Hk.
      pose proof (len_nonneg b2). apply Z.ltb_ge. lia.
  - intros a bs. split.
    + intros (n & b1 & b2 & -> & [Hn ->] & Hg & t & b3 & b4 & -> & (-> & <-) & Hu &
        hb & b5 & b6 & -> & (-> & Hhb) & bh & b7 & b8 & -> & (-> & Hbh) & rt & b9 & b10 & -> &
        (-> & Hrt) & count & b11 & b12 & -> & [Hc ->] & h & b13 & b14 & -> & (-> & ->) & -> & ->).
      unfold anchor_grammar, anchor_bytes; cbn [Topic BlockHeight BlockHash BASMRoot AdmittedCount].
      assert (length b7 = 32%nat) by (unfold len in Hbh; lia).
      assert (length b9 = 32%nat) by (unfold len in Hrt; lia).
      assert (Hl5 : length b5 = 4%nat) by (unfold len in Hhb; lia).
      rewrite !hbytes_array32, !app_nil_r by done. unfold put_u32.
      rewrite (split_le_combine' b5) by done.
      pose proof (le_combine_bound b5) as Hb. rewrite Hl5 in Hb.
      pose proof (len_nonneg b3). apply negb_false_iff in Hu.
      unfold is_u32, MaxUint32. zcases. split_and!; (done || lia).
    + destruct a as [t h bh rt c]. unfold anchor_grammar, anchor_bytes; cbn [Topic BlockHeight BlockHash BASMRoot AdmittedCount].
      intros (Ht & Hu & Hh & Hc & Hlt & ->).
      eexists (len t), (appendCompactSize [] (len t)), _. split_and!; [done|done|zcases; done|].
      eexists t, t, _. split_and!; [done|done|done|by rewrite Hu|].
      eexists (put_u32 h), (put_u32 h), _. split_and!; [done|done|unfold len; by rewrite length_put_u32|].
      eexists (hbytes bh), (hbytes bh), _. split_and!; [done|done|unfold len; by rewrite hash_length|].
      eexists (hbytes rt), (hbytes rt), _. split_and!; [done|done|unfold len; by rewrite hash_length|].
      exists c, (appendCompactSize [] c), []. rewrite app_nil_r. split_and!; [done|done|].
      exists h, [], []. rewrite !array32_hbytes. split_and!; try done.
      unfold put_u32. rewrite le_combine_split. symmetry. apply Z.mod_small.
      unfold is_u32, MaxUint32 in Hh. lia.
Qed.

Lemma EncodeAnchorBinary_Ok a limits d :
  anchor_typed a -> limits_typed limits ->
  (EncodeAnchorBinary a limits = Ok d) <-> Validate a limits = Ok tt /\ d = anchor_bytes a.
Proof.
  intros (Ha & Hh & Hc) [_ Hm]. unfold EncodeAnchorBinary, addressable in *.
  destruct (Validate a limits) as [[]|e|] eqn:Ev; simpl; [|by split; [|intros [? _]]..].
  apply Validate_Ok in Ev as (_ & Ht & _).
  assert (Hcap : (MaxInt64 <? u64 (len (Topic a) + 9 + 4 + 32 * 2 + 9)) = false).
  { unfold is_u32, MaxUint32 in Hm. apply Z.ltb_ge. rewrite u64_small; unfold is_u64, MaxUint64, MaxInt64; lia. }
  rewrite Hcap, appendCompactSize_app, <- !app_assoc. split; [|by intros [_ ->]].
  by intros [= <-].
Qed.

(** C36.  The binary anchor codec is a bijection between the valid anchors and the
    accepted messages: [DecodeAnchorBinary] accepts a message as an anchor exactly
    when [EncodeAnchorBinary] produces this message for it (so nothing but the
    canonical encoding is accepted, and every encoding decodes to what was
    encoded), and no message makes the decoder panic. *)
Theorem anchor_codec a limits d :
  anchor_typed a -> limits_typed limits ->
  (DecodeAnchorBinary d limits = Ok a <-> EncodeAnchorBinary a limits = Ok d) /\
  is_panic (DecodeAnchorBinary d limits) = false.
Proof.
  intros Ha Hlim. rewrite EncodeAnchorBinary_Ok by done.
  pose proof Ha as (Hadd & Hh & Hc). unfold DecodeAnchorBinary.
  destruct (read_all_Ok ErrInvalidInput _ _ d a (reads_anchor limits)) as [Hr Hp]. split.
  - split.
    + intros H. inv_res. destruct_all_units.
      destruct (proj1 Hr) as (_ & _ & _ & _ & _ & ->); [by eexists|]. done.
    + intros [Hv ->]. pose proof Hv as (Hpos & Ht & Hu & _)%Validate_Ok.
      apply validate_Ok in Hpos as ->. simpl.
      destruct (proj2 Hr) as [r ->].
      { unfold anchor_grammar, addressable, is_u64, MaxUint64, MaxInt64 in *. split_and!; (done || lia). }
      simpl. by rewrite Hv.
  - destruct (validate_cases limits) as [-> | ->]; simpl; [|done].
    destruct (read_all _ _ _) as [[a' r]|e|] eqn:E; simpl; [|done..].
    destruct (Validate_cases a' limits) as [-> | [e ->]]; done.
Qed.

Lemma anchor_codec_witness :
  let a := mkAnchor (str "tm") 840000 v1 v2 3 in
  exists d, anchor_typed a /\ limits_typed DefaultLimits /\
    EncodeAnchorBinary a DefaultLimits = Ok d /\ DecodeAnchorBinary d DefaultLimits = Ok a.
Proof.
  intros a. eexists. assert (Ha : anchor_typed a) by (unfold anchor_typed, addressable; vm_compute; intuition congruence).
  assert (Hl : limits_typed DefaultLimits) by (vm_compute; intuition congruence).
  split; [exact Ha|split; [exact Hl|split; [reflexivity|]]].
  apply (proj1 (anchor_codec a DefaultLimits _ Ha Hl)). reflexivity.
Defined.

(** ** The grammar of raw transactions *)

Record RawInput := mkRawInput { outpoint : list byte; unlockingScript : list byte; sequence : list byte }.
Record RawOutput := mkRawOutput { satoshis : list byte; lockingScript : list byte }.
Record RawTx := mkRawTx {
  version : list byte; inputs : list RawInput; outputs : list RawOutput; lockTime : list byte }.

Definition script_bytes (s : list byte) : list byte := appendCompactSize [] (len s) ++ s.

Definition input_bytes (i : RawInput) : list byte :=
  outpoint i ++ script_bytes (unlockingScript i) ++ sequence i.

Definition output_bytes (o : RawOutput) : list byte := satoshis o ++ script_bytes (lockingScript o).

Definition tx_bytes (t : RawTx) : list byte :=
  version t ++
  appendCompactSize [] (len (inputs t)) ++ concat (map input_bytes (inputs t)) ++
  appendCompactSize [] (len (outputs t)) ++ concat (map output_bytes (outputs t)) ++
  lockTime t.

Definition input_ok (i : RawInput) : Prop :=
  len (outpoint i) = 36 /\ is_u64 (len (unlockingScript i)) /\ len (sequence i) = 4.

Definition output_ok (o : RawOutput) : Prop :=
  len (satoshis o) = 8 /\ is_u64 (len (lockingScript o)).

Definition tx_ok (t : RawTx) : Prop :=
  len (version t) = 4 /\
  inputs t <> [] /\ is_u64 (len (inputs t)) /\ Forall input_ok (inputs t) /\
  outputs t <> [] /\ is_u64 (len (outputs t)) /\ Forall output_ok (outputs t) /\
  len (lockTime t) = 4.

Lemma appendCompactSize_pos v : 1 <= len (appendCompactSize [] v).
Proof.
  rewrite appendCompactSize_le. pose proof (len_nonneg (le_split 2 v)).
  pose proof (len_nonneg (le_split 4 v)). pose proof (len_nonneg (le_split 8 v)).
  zcases; rewrite ?app_nil_l, len_cons, ?len_nil; lia.
Qed.

Lemma reads_script :
  reads skipWireScript (fun _ bs => exists s, is_u64 (len s) /\ bs = script_bytes s).
Proof.
  unfold skipWireScript. eapply reads_iff; cycle 1.
  - eapply reads_bind; [apply reads_compactSize|]. intros n ? [Hn _].
    apply (reads_remaining_guard (fun k => k <? n)).
    + eapply reads_bind; [apply reads_bytes, Hn|]. intros. apply reads_ret.
    + intros [] b k (s & b1 & b2 & -> & (-> & Hl) & _) Hk. rewrite len_app in Hk.
      pose proof (len_nonneg b2). apply Z.ltb_ge. lia.
  - intros [] bs. split.
    + intros (n & b1 & b2 & -> & [Hn ->] & s & b3 & b4 & -> & (-> & <-) & _ & ->).
      exists b3. by rewrite app_nil_r.
    + intros (s & Hs & ->). exists (len s), (appendCompactSize [] (len s)), s.
      split_and!; [done|done|]. exists s, s, []. by rewrite app_nil_r.
Qed.

Lemma reads_input :
  reads skipRawTransactionInput (fun _ bs => exists i, input_ok i /\ bs = input_bytes i).
Proof.
  unfold skipRawTransactionInput. eapply reads_iff; cycle 1.
  - eapply reads_bind; [by apply reads_bytes|]. intros o ? _.
    eapply reads_bind; [apply reads_script|]. intros ? ? _.
    eapply reads_bind; [by apply reads_bytes|]. intros ? ? _. apply reads_ret.
  - intros [] bs. split.
    + intros (o & b1 & b2 & -> & (-> & Ho) & [] & b3 & b4 & -> & (s & Hs & ->) & q & b5 & b6 & -> &
        (-> & Hq) & _ & ->). exists (mkRawInput b1 s b5). by rewrite app_nil_r.
    + intros ([o s q] & (Ho & Hs & Hq) & ->). unfold input_bytes; simpl in *.
      eexists o, o, _. split_and!; [done|done|done|].
      eexists tt, _, q. split_and!; [done|by eexists|]. exists q, q, []. by rewrite app_nil_r.
Qed.

Lemma reads_output :
  reads skipRawTransactionOutput (fun _ bs => exists o, output_ok o /\ bs = output_bytes o).
Proof.
  unfold skipRawTransactionOutput. eapply reads_iff; cycle 1.
  - eapply reads_bind; [by apply reads_bytes|]. intros ? ? _. apply reads_script.
  - intros [] bs. split.
    + intros (v & b1 & b2 & -> & (-> & Hv) & s & Hs & ->). by exists (mkRawOutput b1 s).
    + intros ([v s] & (Hv & Hs) & ->). eexists v, v, _. split_and!; [done..|]. by eexists.
Qed.

(** A counted sequence of encoded items, as a list of items. *)
Lemma counted_items {I} (ok : I -> Prop) (enc : I -> list byte) bs :
  (exists l, l <> [] /\ is_u64 (len l) /\ Forall (fun b => exists i, ok i /\ b = enc i) l /\
     bs = appendCompactSize [] (len l) ++ concat l) <->
  (exists xs, xs <> [] /\ is_u64 (len xs) /\ Forall ok xs /\
     bs = appendCompactSize [] (len xs) ++ concat (map enc xs)).
Proof.
  split.
  - intros (l & Hne & Hu & HF & ->).
    assert (exists xs, Forall ok xs /\ l = map enc xs) as (xs & Hxs & ->).
    { clear Hne Hu. induction HF as [|? ? (i & Hi & ->) _ (xs & ? & ->)]; [by exists []|].
      exists (i :: xs). by split; [constructor|]. }
    unfold len in *. rewrite length_map in *. exists xs. split_and!; try done. by intros ->.
  - intros (xs & Hne & Hu & HF & ->). exists (map enc xs). unfold len in *. rewrite length_map.
    split_and!; try done.
    + intros E. by apply map_eq_nil in E.
    + clear Hne Hu. induction HF; constructor; eauto.
Qed.

(** C37.  The preflight accepts exactly the standard serialization of transactions:
    a version, a nonempty list of inputs, a nonempty list of outputs and a lock time,
    with shortest CompactSize counts and script lengths, and nothing after.  In
    particular the guards that bound the two counts by the bytes left (41 per
    input, 9 per output) reject no transaction, the extended format marker (no
    input) is refused, and no data make the preflight panic. *)
Theorem preflightRawTransaction_grammar data :
  (preflightRawTransaction data = Ok tt <-> exists t, tx_ok t /\ data = tx_bytes t) /\
  is_panic (preflightRawTransaction data) = false.
Proof.
  unfold preflightRawTransaction.
  match goal with |- context [read_all ?e ?m] => set (M := m) end.
  assert (HM : reads M (fun _ bs => exists t, tx_ok t /\ bs = tx_bytes t)); subst M.
  { eapply reads_iff; cycle 1.
    - eapply reads_bind; [eapply reads_bind; [by apply reads_bytes|]|].
      { intros ? ? _. apply (reads_counted 41 _ _ ltac:(lia) reads_input).
        intros b (i & (Ho & _ & Hq) & ->). unfold input_bytes, script_bytes. rewrite !len_app.
        pose proof (appendCompactSize_pos (len (unlockingScript i))). pose proof (len_nonneg (unlockingScript i)). lia. }
      intros ? ? _. eapply reads_bind.
      { apply (reads_counted 9 _ _ ltac:(lia) reads_output).
        intros b (o & (Hv & _) & ->). unfold output_bytes, script_bytes. rewrite !len_app.
        pose proof (appendCompactSize_pos (len (lockingScript o))). pose proof (len_nonneg (lockingScript o)). lia. }
      intros ? ? _. eapply reads_bind; [by apply reads_bytes|]. intros ? ? _. apply reads_ret.
    - setoid_rewrite counted_items. intros [] bs. split.
      + intros ([] & b1 & b2 & -> & (v & b3 & b4 & -> & (-> & Hv) & ins & Hi & Hiu & Hin & ->) & [] & b5 & b6 & -> &
          (outs & Ho & Hou & Hout & ->) & lt & b7 & b8 & -> & (-> & Hlt) & _ & ->).
        exists (mkRawTx b3 ins outs b7). unfold tx_ok, tx_bytes; simpl.
        rewrite app_nil_r, <- !app_assoc. by split_and!.
      + intros ([v ins outs lt] & (Hv & Hi & Hiu & Hin & Ho & Hou & Hout & Hlt) & ->).
        unfold tx_bytes; simpl in *.
        eexists tt, (v ++ appendCompactSize [] (len ins) ++ concat (map input_bytes ins)), _.
        split_and!; [by rewrite <- !app_assoc| |].
        { eexists v, v, _. split_and!; [done..|]. by exists ins. }
        eexists tt, (appendCompactSize [] (len outs) ++ concat (map output_bytes outs)), lt.
        split_and!; [by rewrite <- !app_assoc|by exists outs|].
        exists lt, lt, []. by rewrite app_nil_r. }
  by apply (read_all_check _ _ (fun bs => exists t, tx_ok t /\ bs = tx_bytes t)).
Qed.

End BasmWire.
