(* ===== verification/BasmBump.v ===== *)
(** * pkg/core/basm/wire.go: the preflight of BUMP Merkle paths

    [preflightMerklePath] bounds and checks a BRC-74 Merkle path before the SDK
    parses it.  The preflight is compared with the grammar of the format. *)

From S2P Require Import Prelude Bytes Sha256 BasmHash BasmValues WireReader BasmWire.
Import BasmHash BasmValues Wire BasmWire.
Open Scope Z_scope.

Module BasmBump.

Definition validBUMPPosition (offset level : Z) : bool :=
  if 64 <=? level then offset =? 0 else offset <=? Z.shiftr MaxUint64 level.

(** [preflightMerkleItem]: whether the item carries a hash, and the offsets seen. *)
Definition preflightMerkleItem (level : Z) (seenOffsets : gset Z) : Read (bool * gset Z) :=
  offset ← compactSize;
  if negb (validBUMPPosition offset level) then fail ErrInvalidInput
  else if bool_decide (offset ∈ seenOffsets) then fail ErrInvalidInput
  else
    let seenOffsets := {[ offset ]} ∪ seenOffsets in
    flags ← read_byte;
    if negb (Z.ldiff (val flags) 3 =? 0) || (val flags =? 3) then fail ErrInvalidInput
    else if negb (Z.land (val flags) 1 =? 0) && (offset mod 2 =? 0) then fail ErrInvalidInput
    else if negb (Z.land (val flags) 1 =? 0) then mret (false, seenOffsets)
    else read_bytes 32 ≫= fun _ => mret (true, seenOffsets).

(** The loop over the items of [preflightMerkleLevel]. *)
Fixpoint preflightItems (n : nat) (level : Z) (seenOffsets : gset Z) (levelHasHash : bool)
    : Read bool :=
  match n with
  | O => mret levelHasHash
  | S n' =>
      '(hasHash, seen') ← preflightMerkleItem level seenOffsets;
      preflightItems n' level seen' (if (hasHash : bool) then true else levelHasHash)
  end.

(** [preflightMerkleLevel] *)
Definition preflightMerkleLevel (level : Z) : Read unit :=
  count ← compactSize;
  n ← remaining;
  if n / 2 <? count then fail ErrInvalidInput else
  levelHasHash ← preflightItems (Z.to_nat count) level ∅ false;
  if (level =? 0) && negb levelHasHash then fail ErrInvalidInput else mret tt.

(** [readBUMPTreeHeight] *)
Definition readBUMPTreeHeight : Read Z :=
  blockHeight ← compactSize;
  if MaxUint32 <? blockHeight then fail ErrInvalidInput else
  treeHeightByte ← read_byte;
  let treeHeight := val treeHeightByte in
  n ← remaining;
  if ((treeHeight =? 0) || (64 <? treeHeight)) || (n <? treeHeight) then fail ErrInvalidInput
  else mret treeHeight.

(** The loop over the levels of [preflightMerklePath]. *)
Fixpoint preflightLevels (n : nat) (level : Z) : Read unit :=
  match n with
  | O => mret tt
  | S n' => preflightMerkleLevel level ≫= fun _ => preflightLevels n' (level + 1)
  end.

(** [preflightMerklePath] *)
Definition preflightMerklePath (data : list byte) : result unit :=
  read_all ErrInvalidInput
    (treeHeight ← readBUMPTreeHeight; preflightLevels (Z.to_nat treeHeight) 0) (mkReader data 0)
  ≫= fun _ => Ok tt.

(** [ParseBoundedMerklePath].  The SDK's parser is a parameter. *)
Section ParseBoundedMerklePath.
Context {MerklePath : Type} (NewMerklePathFromReader : list byte -> result MerklePath).

Definition ParseBoundedMerklePath (data : list byte) (maxBytes : Z) : result MerklePath :=
  validateWireSize data maxBytes ≫= fun _ =>
  preflightMerklePath data ≫= fun _ =>
  NewMerklePathFromReader data.
End ParseBoundedMerklePath.

(** ** The grammar *)

(** An item is a hash, the hash of a client transaction, or the statement that
    the right-hand node repeats its sibling. *)
Inductive Item :=
  | Hashed (offset : Z) (txid : bool) (hash : list byte)
  | Duplicate (offset : Z).

Definition item_offset (i : Item) : Z :=
  match i with Hashed o _ _ => o | Duplicate o => o end.

Definition has_hash (i : Item) : bool :=
  match i with Hashed _ _ _ => true | Duplicate _ => false end.

Definition item_bytes (i : Item) : list byte :=
  match i with
  | Hashed o t h => appendCompactSize [] o ++ (if t then Byte.x02 else Byte.x00) :: h
  | Duplicate o => appendCompactSize [] o ++ [Byte.x01]
  end.

(** The leaves under the item are at 64-bit positions. *)
Definition item_ok (level : Z) (i : Item) : Prop :=
  is_u64 (item_offset i) /\ is_u64 (item_offset i * 2 ^ level) /\
  match i with Hashed _ _ h => len h = 32 | Duplicate o => Z.odd o = true end.

Definition level_bytes (items : list Item) : list byte :=
  appendCompactSize [] (len items) ++ concat (map item_bytes items).

Definition level_ok (level : Z) (items : list Item) : Prop :=
  is_u64 (len items) /\ Forall (item_ok level) items /\ NoDup (map item_offset items) /\
  (level = 0 -> exists i, i ∈ items /\ has_hash i = true).

(** The levels of a path from level [k] up. *)
Fixpoint levels_ok (k : Z) (levels : list (list Item)) : Prop :=
  match levels with
  | [] => True
  | l :: ls => level_ok k l /\ levels_ok (k + 1) ls
  end.

Record Path := mkPath { blockHeight : Z; levels : list (list Item) }.

Definition path_bytes (p : Path) : list byte :=
  appendCompactSize [] (blockHeight p) ++ byte.of_Z (len (levels p)) ::
  concat (map level_bytes (levels p)).

Definition path_ok (p : Path) : Prop :=
  is_u32 (blockHeight p) /\ 1 <= len (levels p) <= 64 /\ levels_ok 0 (levels p).

Lemma validBUMPPosition_spec offset level :
  is_u64 offset -> 0 <= level -> validBUMPPosition offset level = true <-> is_u64 (offset * 2 ^ level).
Proof.
  intros Ho Hl. unfold validBUMPPosition, is_u64, MaxUint64 in *.
  pose proof (Z.pow_pos_nonneg 2 level ltac:(lia) Hl) as Hp. destruct (Z.leb_spec 64 level) as [H|H].
  - rewrite Z.eqb_eq. pose proof (Z.pow_le_mono_r 2 64 level ltac:(lia) H). split; [intros ->; lia|nia].
  - rewrite Z.leb_le, Z.shiftr_div_pow2 by done.
    pose proof (Z.mul_div_le (2 ^ 64 - 1) (2 ^ level) Hp). split; [nia|].
    intros [_ Hm]. apply Z.div_le_lower_bound; [done|]. lia.
Qed.

(** The flags byte: only 0, 1 and 2 pass the bit tests. *)
Lemma flags_cases (b : byte) :
  (negb (Z.ldiff (val b) 3 =? 0) || (val b =? 3)) =
  negb (bool_decide (b = Byte.x00) || bool_decide (b = Byte.x01) || bool_decide (b = Byte.x02)).
Proof.
  apply eqb_true_iff. revert b. apply forall_bytes. vm_compute. reflexivity.
Qed.

Definition item_grammar (level : Z) (seen : gset Z) (r : bool * gset Z) (bs : list byte) : Prop :=
  exists i, item_ok level i /\ (item_offset i ∉ seen) /\ bs = item_bytes i /\
    r = (has_hash i, {[ item_offset i ]} ∪ seen).

Lemma reads_item level seen : 0 <= level -> reads (preflightMerkleItem level seen) (item_grammar level seen).
Proof.
  intros Hlevel. unfold preflightMerkleItem. eapply reads_iff; cycle 1.
  - eapply reads_bind; [apply reads_compactSize|]. intros o ? _.
    apply reads_guard, reads_guard.
    eapply (reads_bind _ _ _ (fun flags r bs =>
      (negb (Z.ldiff (val flags) 3 =? 0) || (val flags =? 3)) = false /\
      (negb (Z.land (val flags) 1 =? 0) && (o mod 2 =? 0)) = false /\
      if negb (Z.land (val flags) 1 =? 0) then r = (false, {[o]} ∪ seen) /\ bs = []
      else len bs = 32 /\ r = (true, {[o]} ∪ seen))); [apply reads_byte|].
    intros flags ? _. apply reads_guard, reads_guard.
    destruct (negb (Z.land (val flags) 1 =? 0)); [apply reads_ret|].
    eapply reads_iff; [|eapply reads_bind; [by apply reads_bytes|intros ? ? _; apply reads_ret]].
    intros r k. split.
    + intros (? & b1 & b2 & -> & (_ & Hl) & -> & ->). by rewrite app_nil_r.
    + intros [Hl ->]. exists k, k, []. by rewrite app_nil_r.
  - intros r bs. unfold item_grammar, item_ok. split.
    + intros (o & b1 & b2 & -> & [Ho ->] & Hp & Hs & f & b3 & b4 & -> & -> & Hf & Ho2 & H).
      apply negb_false_iff, validBUMPPosition_spec in Hp; [|done..]. apply bool_decide_eq_false in Hs.
      rewrite flags_cases in Hf. apply negb_false_iff in Hf.
      destruct (bool_decide_reflect (f = Byte.x00)) as [->|]; simpl in *.
      { destruct H as [Hl ->]. by exists (Hashed o false b4). }
      destruct (bool_decide_reflect (f = Byte.x01)) as [->|]; simpl in *.
      { destruct H as [-> ->]. exists (Duplicate o). simpl.
        rewrite Zmod_odd in Ho2. by destruct (Z.odd o). }
      destruct (bool_decide_reflect (f = Byte.x02)) as [->|]; simpl in *; [|done].
      destruct H as [Hl ->]. by exists (Hashed o true b4).
    + intros (i & (Hu & Hp & Hi) & Hs & -> & ->). apply validBUMPPosition_spec in Hp; [|done..].
      exists (item_offset i), (appendCompactSize [] (item_offset i)).
      destruct i as [o t h|o]; simpl in *.
      * exists ((if t then Byte.x02 else Byte.x00) :: h). rewrite Hp, bool_decide_false by done.
        split_and!; try done. eexists _, [_], h. split_and!; [done..| | |]; by destruct t.
      * exists [Byte.x01]. rewrite Hp, bool_decide_false by done.
        split_and!; try done. eexists _, [_], []. split_and!; [done..| |done].
        rewrite Zmod_odd, Hi. done.
Qed.

Lemma reads_items n level seen h : 0 <= level ->
  reads (preflightItems n level seen h)
    (fun h' bs => exists items, length items = n /\ Forall (item_ok level) items /\
       NoDup (map item_offset items) /\ (forall i, i ∈ items -> (item_offset i ∉ seen)) /\
       bs = concat (map item_bytes items) /\ h' = h || existsb has_hash items).
Proof.
  intros Hlevel. revert seen h. induction n as [|n IH]; intros seen h; cbn [preflightItems].
  - eapply reads_iff; [|apply reads_ret]. intros h' bs. split.
    + intros [-> ->]. exists []. simpl. rewrite orb_false_r.
      split_and!; (done || constructor || set_solver).
    + intros ([|] & Hl & _ & _ & _ & -> & ->); [|done]. simpl. by rewrite orb_false_r.
  - eapply reads_iff; cycle 1.
    + eapply (reads_bind _ _ _ (fun (r : bool * gset Z) h' bs => exists items, length items = n /\
        Forall (item_ok level) items /\ NoDup (map item_offset items) /\
        (forall i, i ∈ items -> (item_offset i ∉ snd r)) /\ bs = concat (map item_bytes items) /\
        h' = (if fst r then true else h) || existsb has_hash items)); [by apply reads_item|].
      intros [hasHash seen'] bs _. apply IH.
    + intros h' bs. split.
      * intros ([hh seen'] & b1 & b2 & -> & (i & Hi & Hs & -> & [= -> ->]) & items & Hl & HF & HN & Hd & -> & ->).
        simpl in Hd. exists (i :: items). simpl. split_and!; [congruence|by constructor| | |done|].
        -- constructor; [|done]. intros (i' & E & Hi')%list_elem_of_fmap. set_solver.
        -- set_solver.
        -- by destruct (has_hash i), h.
      * intros ([|i items] & Hl & HF & HN & Hd & -> & ->); [done|].
        inversion HF; subst. cbn [map] in HN. apply NoDup_cons in HN as [Hn HN].
        eexists (has_hash i, _), (item_bytes i), _. split_and!; [done| |].
        { exists i. split_and!; [done|set_solver|done|done]. }
        exists items. simpl. split_and!; [simpl in Hl; congruence|done|done| |done|].
        -- intros j Hj. apply not_elem_of_union. split; [|set_solver].
           apply not_elem_of_singleton. intros E. apply Hn. rewrite <- E. by apply list_elem_of_fmap_2.
        -- by destruct (has_hash i), h.
Qed.

Lemma item_bytes_ge level i : item_ok level i -> 2 <= len (item_bytes i).
Proof.
  intros (_ & _ & Hi). pose proof (appendCompactSize_pos (item_offset i)).
  destruct i as [o t h|o]; simpl in *; rewrite len_app, len_cons; [pose proof (len_nonneg h)|change (len []) with 0]; lia.
Qed.

Lemma has_hash_exists items : existsb has_hash items = true <-> exists i, i ∈ items /\ has_hash i = true.
Proof.
  rewrite existsb_exists. by setoid_rewrite list_elem_of_In.
Qed.

Lemma reads_level level : 0 <= level ->
  reads (preflightMerkleLevel level)
    (fun _ bs => exists items, level_ok level items /\ bs = level_bytes items).
Proof.
  intros Hlevel. unfold preflightMerkleLevel. eapply reads_iff; cycle 1.
  - eapply reads_bind; [apply reads_compactSize|]. intros count ? [Hn _].
    apply (reads_remaining_guard (fun n => n / 2 <? count)).
    + eapply reads_bind; [by apply reads_items|]. intros ? ? _. apply reads_guard, reads_ret.
    + intros [] b n (h & b1 & b2 & -> & (items & Hl & HF & _ & _ & -> & _) & _) Hb.
      rewrite len_app in Hb. pose proof (len_nonneg b2). apply Z.ltb_ge.
      pose proof (concat_length_ge 2 (map item_bytes items) ltac:(lia)) as Hc.
      unfold is_u64 in Hn. apply Z.div_le_lower_bound; [lia|].
      unfold len in Hc at 2. rewrite length_map, Hl, Z2Nat.id in Hc by lia.
      enough (2 * count <= len (concat (map item_bytes items))) by lia. apply Hc.
      apply Forall_map. eapply Forall_impl; [done|]. apply item_bytes_ge.
  - intros [] bs. unfold level_ok, level_bytes. split.
    + intros (count & b1 & b2 & -> & [Hn ->] & h & b3 & b4 & -> &
        (items & Hl & HF & HN & _ & -> & ->) & Hg & _ & ->).
      assert (El : len items = count) by (unfold len, is_u64 in *; lia).
      exists items. rewrite app_nil_r, El. split_and!; [done|done|done| |done].
      intros ->. simpl in Hg. apply negb_false_iff in Hg. by apply has_hash_exists.
    + intros (items & (Hn & HF & HN & Hz) & ->).
      eexists (len items), _, _. split_and!; [done|done|].
      eexists _, _, []. rewrite app_nil_r. split_and!; [done| | |done|done].
      { exists items. split_and!; [unfold len; lia|done|done|set_solver|done|done]. }
      simpl. destruct (Z.eqb_spec level 0) as [E|]; [|done].
      apply negb_false_iff, has_hash_exists. auto.
Qed.

Lemma reads_levels n k : 0 <= k ->
  reads (preflightLevels n k)
    (fun _ bs => exists ls, length ls = n /\ levels_ok k ls /\ bs = concat (map level_bytes ls)).
Proof.
  revert k. induction n as [|n IH]; intros k Hk; cbn [preflightLevels].
  - eapply reads_iff; [|apply reads_ret]. intros [] bs. split.
    + intros [_ ->]. by exists [].
    + intros ([|] & Hl & _ & ->); done.
  - eapply reads_iff; [|eapply reads_bind; [by apply reads_level|intros ? ? _; apply IH; lia]].
    intros [] bs. split.
    + intros ([] & b1 & b2 & -> & (l & Hl & ->) & ls & Hn & Hls & ->).
      exists (l :: ls). simpl. split_and!; congruence || done.
    + intros ([|l ls] & Hn & Hls & ->); [done|]. simpl in *. destruct Hls as [Hl Hls].
      eexists tt, _, _. split_and!; [done|by exists l|]. exists ls. split_and!; [congruence|done|done].
Qed.

Lemma level_bytes_pos ls : len ls <= len (concat (map level_bytes ls)).
Proof.
  pose proof (concat_length_ge 1 (map level_bytes ls) ltac:(lia)) as Hc.
  unfold len in Hc at 2. rewrite length_map in Hc. unfold len at 1.
  enough (1 * Z.of_nat (length ls) <= len (concat (map level_bytes ls))) by lia. apply Hc.
  apply Forall_map, Forall_true. intros l. simpl. unfold level_bytes. rewrite len_app.
  pose proof (appendCompactSize_pos (len l)). pose proof (len_nonneg (concat (map item_bytes l))). lia.
Qed.

Lemma reads_path :
  reads (treeHeight ← readBUMPTreeHeight; preflightLevels (Z.to_nat treeHeight) 0)
    (fun _ bs => exists p, path_ok p /\ bs = path_bytes p).
Proof.
  eapply (reads_ext _ (
    blockHeight ← compactSize;
    if MaxUint32 <? blockHeight then fail ErrInvalidInput else
    h ← read_byte;
    n ← remaining;
    if ((val h =? 0) || (64 <? val h)) || (n <? val h) then fail ErrInvalidInput
    else preflightLevels (Z.to_nat (val h)) 0)).
  { intros r. unfold readBUMPTreeHeight, mbind, read_bind.
    destruct (compactSize r) as [[bh r1]|e|]; [|done..].
    destruct (MaxUint32 <? bh); [done|]. destruct (read_byte r1) as [[h r2]|e|]; [|done..].
    unfold remaining. cbv zeta beta. by destruct (((val h =? 0) || (64 <? val h)) || (_ <? val h)). }
  eapply reads_iff; cycle 1.
  - eapply reads_bind; [apply reads_compactSize|]. intros bh ? _. apply reads_guard.
    eapply reads_bind; [apply reads_byte|]. intros h ? _.
    apply (reads_mixed_guard ((val h =? 0) || (64 <? val h)) (fun n => n <? val h)).
    + by apply reads_levels.
    + intros [] b n _ (ls & Hl & _ & ->) Hb. pose proof (level_bytes_pos ls). pose proof (val_range h).
      apply Z.ltb_ge. unfold len in H at 1. lia.
  - intros [] bs. unfold path_ok, path_bytes. split.
    + intros (bh & b1 & b2 & -> & [Hbh ->] & Hg & h & b3 & b4 & -> & -> & H0 & ls & Hl & Hok & ->).
      pose proof (val_range h). exists (mkPath bh ls). unfold is_u32, is_u64 in *. simpl.
      assert (El : len ls = val h) by (unfold len; lia). rewrite El, of_val.
      split_and!; (done || lia).
    + intros ([bh ls] & (Hbh & Hl & Hok) & ->). simpl in *.
      eexists bh, _, _. unfold is_u32, is_u64, compact, MaxUint32, is_u64, MaxUint64 in *.
      split_and!; try done; try lia.
      eexists (byte.of_Z (len ls)), [_], _. rewrite val_of_Z by lia.
      split_and!; [done|done|zcases; done|]. exists ls. split_and!; [unfold len; lia|done|done].
Qed.

(** C38.  The preflight of Merkle paths accepts exactly the canonical BRC-74 paths:
    a block height of 32 bits, 1 to 64 levels, in each level items at distinct
    offsets that exist in a tree of 64-bit leaf positions, with the flags 0, 1 or
    2, duplicates only on the right, and a hash in the leaf level; nothing after.
    The guards on the level count and on the item counts, which bound the memory
    and the time spent on hostile data by the length of the data, reject no path,
    and no data make the preflight panic. *)
Theorem preflightMerklePath_grammar data :
  (preflightMerklePath data = Ok tt <-> exists p, path_ok p /\ data = path_bytes p) /\
  is_panic (preflightMerklePath data) = false.
Proof.
  exact (read_all_check _ _ (fun bs => exists p, path_ok p /\ bs = path_bytes p) data reads_path).
Qed.

End BasmBump.
