(* ===== verification/Decimal.v ===== *)
(** * Decimal text ([strconv.Itoa], [strconv.FormatUint], [strconv.ParseUint])

    Unsigned decimal numbers, the canonical form that the storage contract uses,
    and the bytewise order of strings. *)

From S2P Require Import Prelude Bytes.
Open Scope Z_scope.

Definition digit (n : Z) : byte := byte.of_Z (48 + n).

Definition is_digit (b : byte) : bool := (48 <=? val b) && (val b <=? 57).

Definition digit_value (b : byte) : Z := val b - 48.

(** [strconv.FormatUint(n, 10)]: a uint64 has at most 20 digits. *)
Fixpoint format (fuel : nat) (n : Z) : list byte :=
  match fuel with
  | O => []
  | S f => if n <? 10 then [digit n] else format f (n / 10) ++ [digit (n mod 10)]
  end.

Definition FormatUint (n : Z) : list byte := format 20 n.

(** The value of a string of digits. *)
Definition value (s : list byte) : Z := foldl (fun acc b => acc * 10 + digit_value b) 0 s.

(** [strconv.ParseUint(s, 10, 64)]. *)
Definition ParseUint (s : list byte) : option Z :=
  if (len s =? 0) || negb (forallb is_digit s) then None
  else if MaxUint64 <? value s then None else Some (value s).

(** Digits without a superfluous leading zero. *)
Definition canonical (s : list byte) : Prop :=
  forallb is_digit s = true /\ s <> [] /\ (1 < len s -> head s <> Some (digit 0)).

Lemma is_digit_digit n : 0 <= n < 10 -> is_digit (digit n) = true /\ digit_value (digit n) = n.
Proof.
  intros Hn. unfold is_digit, digit_value, digit. rewrite val_of_Z by lia.
  split; [apply andb_true_iff; split; apply Z.leb_le; lia|lia].
Qed.

Lemma digit_digit_value b : is_digit b = true -> digit (digit_value b) = b /\ 0 <= digit_value b < 10.
Proof.
  unfold is_digit, digit_value, digit. rewrite andb_true_iff, !Z.leb_le. intros Hb.
  replace (48 + (val b - 48)) with (val b) by lia. split; [apply of_val|lia].
Qed.

Lemma value_snoc s b : value (s ++ [b]) = value s * 10 + digit_value b.
Proof. unfold value. by rewrite foldl_app. Qed.

Lemma value_bound s : forallb is_digit s = true -> 0 <= value s < 10 ^ len s.
Proof.
  induction s as [|b s IH] using rev_ind; [done|].
  rewrite forallb_app, andb_true_iff. intros [Hs Hb]. specialize (IH Hs). simpl in Hb.
  rewrite andb_true_r in Hb. apply digit_digit_value in Hb as [_ Hb].
  rewrite value_snoc, len_app. change (len [b]) with 1.
  pose proof (len_nonneg s). rewrite Z.pow_add_r by lia. lia.
Qed.

Lemma format_spec fuel n :
  0 <= n < 10 ^ Z.of_nat fuel -> (0 < fuel)%nat ->
  value (format fuel n) = n /\ canonical (format fuel n) /\ (0 < n -> head (format fuel n) <> Some (digit 0)).
Proof.
  revert n. induction fuel as [|fuel IH]; intros n Hn Hf; [lia|]. cbn [format].
  destruct (Z.ltb_spec n 10) as [Hlt|Hge].
  - destruct (is_digit_digit n) as [Hd Hv]; [lia|]. unfold canonical. cbn. rewrite Hd, Hv.
    split_and!; try done.
    intros Hpos [= E%(f_equal val)]. unfold digit in E. rewrite !val_of_Z in E by lia. lia.
  - assert (Hq : 0 <= n / 10 < 10 ^ Z.of_nat fuel).
    { rewrite Nat2Z.inj_succ, Z.pow_succ_r in Hn by lia. split; [apply Z.div_pos; lia|].
      apply Z.div_lt_upper_bound; lia. }
    assert (Hf' : (0 < fuel)%nat) by (destruct fuel; [simpl in Hq; pose proof (Z.div_le_mono 10 n 10); lia|lia]).
    destruct (IH (n / 10) Hq Hf') as (Hv & (Hd & Hne & _) & Hh).
    destruct (is_digit_digit (n mod 10)) as [Hd' Hv']; [apply Z.mod_pos_bound; lia|].
    assert (H1 : 1 <= n / 10) by (apply Z.div_le_lower_bound; lia).
    assert (Hhead : head (format fuel (n / 10) ++ [digit (n mod 10)]) <> Some (digit 0)).
    { destruct (format fuel (n / 10)) as [|x l]; [done|]. apply Hh. lia. }
    rewrite value_snoc, Hv, Hv'. unfold canonical. split_and!.
    + pose proof (Z.div_mod n 10). lia.
    + rewrite forallb_app, Hd. simpl. by rewrite Hd'.
    + by destruct (format fuel (n / 10)).
    + done.
    + done.
Qed.

Lemma FormatUint_spec n :
  is_u64 n -> value (FormatUint n) = n /\ canonical (FormatUint n).
Proof.
  unfold is_u64, MaxUint64. intros Hn.
  destruct (format_spec 20 n) as (? & ? & _); [simpl; lia|lia|done].
Qed.

Lemma format_length fuel n : (length (format fuel n) <= fuel)%nat.
Proof.
  revert n. induction fuel as [|fuel IH]; intros n; simpl; [done|].
  destruct (n <? 10); simpl; [lia|]. rewrite length_app. simpl. specialize (IH (n / 10)). lia.
Qed.

(** A value has one canonical form. *)
Lemma value_inj s1 s2 : canonical s1 -> canonical s2 -> value s1 = value s2 -> s1 = s2.
Proof.
  intros H1 H2. assert (Hpre : forall s b, canonical (s ++ [b]) -> s <> [] -> canonical s /\ 0 < value s).
  { intros s b (Hd & _ & Hh) Hne. rewrite forallb_app, andb_true_iff in Hd. destruct Hd as [Hd _].
    assert (Hh' : head s <> Some (digit 0)).
    { destruct s as [|x s]; [done|]. apply Hh. rewrite len_app, len_cons. change (len [b]) with 1.
      pose proof (len_nonneg s). lia. }
    split; [by split_and!|].
    destruct s as [|x s]; [done|]. simpl in Hd, Hh'. apply andb_true_iff in Hd as [Hx Hs].
    apply digit_digit_value in Hx as [Ex Hx].
    assert (digit_value x <> 0) by (intros E; apply Hh'; rewrite <- Ex, E; done).
    clear -Hx H Hs. assert (Hgen : forall a, 0 < a -> 0 < foldl (fun acc b => acc * 10 + digit_value b) a s).
    { revert Hs. induction s as [|y s IH]; intros Hs a Ha; [done|]. simpl in *.
      apply andb_true_iff in Hs as [Hy Hs]. apply digit_digit_value in Hy as [_ Hy]. apply IH; [done|lia]. }
    unfold value. simpl. apply Hgen. lia. }
  revert s2 H1 H2. induction s1 as [|b1 s1 IH] using rev_ind; intros s2 H1 H2 E; [by destruct H1 as (_ & ? & _)|].
  destruct s2 as [|b2 s2 _] using rev_ind; [by destruct H2 as (_ & ? & _)|].
  rewrite !value_snoc in E.
  assert (Hb : is_digit b1 = true /\ is_digit b2 = true).
  { destruct H1 as (D1 & _ & _), H2 as (D2 & _ & _). rewrite forallb_app, andb_true_iff in D1, D2. simpl in *.
    destruct D1 as [_ D1], D2 as [_ D2]. rewrite andb_true_r in D1, D2. done. }
  destruct Hb as [[E1 B1]%digit_digit_value [E2 B2]%digit_digit_value].
  assert (Ev : value s1 = value s2 /\ digit_value b1 = digit_value b2) by lia. destruct Ev as [Ev Ed].
  assert (b1 = b2) as -> by congruence. f_equal.
  destruct s1 as [|x1 s1'], s2 as [|x2 s2']; [done|exfalso..|].
  - destruct (Hpre _ _ H2 ltac:(done)) as [_ Hp]. change (value []) with 0 in Ev. lia.
  - destruct (Hpre _ _ H1 ltac:(done)) as [_ Hp]. change (value []) with 0 in Ev. lia.
  - apply IH; [by apply (Hpre _ b2)|by apply (Hpre _ b2)|done].
Qed.

Lemma FormatUint_value s : canonical s -> is_u64 (value s) -> FormatUint (value s) = s.
Proof. intros Hs Hv. destruct (FormatUint_spec _ Hv). by apply value_inj. Qed.

Lemma ParseUint_format n : is_u64 n -> ParseUint (FormatUint n) = Some n.
Proof.
  intros Hn. destruct (FormatUint_spec n Hn) as [Hv (Hd & Hne & _)]. unfold ParseUint. rewrite Hd, Hv.
  destruct (Z.eqb_spec (len (FormatUint n)) 0) as [E|_]; [unfold len in E; by destruct (FormatUint n)|]. cbn [negb orb].
  destruct (Z.ltb_spec MaxUint64 n); [unfold is_u64 in Hn; lia|done].
Qed.

Lemma FormatUint_inj n m : is_u64 n -> is_u64 m -> FormatUint n = FormatUint m -> n = m.
Proof.
  intros Hn Hm E. destruct (FormatUint_spec n Hn) as [<- _], (FormatUint_spec m Hm) as [<- _]. by rewrite E.
Qed.

(** ** The order of strings ([strings.Compare], [sort.Strings]) *)

Fixpoint bytes_leb (s t : list byte) : bool :=
  match s, t with
  | [], _ => true
  | _ :: _, [] => false
  | a :: s', b :: t' => if val a <? val b then true else if val b <? val a then false else bytes_leb s' t'
  end.

Lemma bytes_leb_total s t : bytes_leb s t = true \/ bytes_leb t s = true.
Proof.
  revert t. induction s as [|a s IH]; intros [|b t]; simpl; auto.
  destruct (Z.ltb_spec (val a) (val b)), (Z.ltb_spec (val b) (val a)); auto.
Qed.

Lemma bytes_leb_trans s t u : bytes_leb s t = true -> bytes_leb t u = true -> bytes_leb s u = true.
Proof.
  revert t u. induction s as [|a s IH]; intros [|b t] [|c u]; simpl; try done.
  destruct (Z.ltb_spec (val a) (val b)), (Z.ltb_spec (val b) (val a)), (Z.ltb_spec (val b) (val c)),
    (Z.ltb_spec (val c) (val b)), (Z.ltb_spec (val a) (val c)), (Z.ltb_spec (val c) (val a)); try done; try lia.
  apply IH.
Qed.

Lemma bytes_leb_antisym s t : bytes_leb s t = true -> bytes_leb t s = true -> s = t.
Proof.
  revert t. induction s as [|a s IH]; intros [|b t]; simpl; try done.
  destruct (Z.ltb_spec (val a) (val b)), (Z.ltb_spec (val b) (val a)); try done; try lia.
  intros. f_equal; [apply val_inj; lia|auto].
Qed.
