(* ===== verification/Json.v ===== *)
(** * JSON ([encoding/json])

    What the decoders of basm use of the package: the scanner, [json.Decoder] with its
    [Token], [More] and [Decode] into a [json.RawMessage], [json.Unmarshal] into a
    string, and the strings of [json.Marshal].  Documents ([json]) with their text
    ([render]) are the reference.  A syntax error is [ErrJSON]; the decoder reads from a
    buffer, so that [io.EOF] is the end of the data. *)

From S2P Require Import Prelude Bytes Utf8 Decimal.
Open Scope Z_scope.

Module Json.

Abbreviation isb x c := (bool_decide (c = x)).

Definition isSpace (b : byte) : bool := (val b =? 32) || (val b =? 9) || (val b =? 10) || (val b =? 13).

Fixpoint skipSpace (s : list byte) : list byte :=
  match s with [] => [] | c :: s' => if isSpace c then skipSpace s' else s end.

(** ** Strings *)

(** Four hexadecimal digits ([getu4], [strconv.ParseUint(s, 16, 16)]). *)
Definition hex4 (s : list byte) : option (Z * list byte) :=
  match s with
  | a :: b :: c :: d :: s' =>
      a ← from_hex_char a; b ← from_hex_char b; c ← from_hex_char c; d ← from_hex_char d;
      Some (a * 4096 + b * 256 + c * 16 + d, s')
  | _ => None
  end.

(** What the escapes of one character stand for. *)
Definition escapes : list (byte * byte) :=
  [(Byte.x22, Byte.x22); (Byte.x5c, Byte.x5c); (Byte.x2f, Byte.x2f); (Byte.x62, Byte.x08);
   (Byte.x66, Byte.x0c); (Byte.x6e, Byte.x0a); (Byte.x72, Byte.x0d); (Byte.x74, Byte.x09)].

Definition escaped (e : byte) : option byte := (fun p => p.2.2) <$> list_find (fun p => p.1 = e) escapes.

(** The contents of a string whose opening quote was read, and what follows the closing
    quote. *)
Fixpoint stringBody (s : list byte) : option (list byte * list byte) :=
  match s with
  | [] => None
  | c :: s1 =>
      if isb Byte.x22 c then Some ([], s1)
      else if isb Byte.x5c c then
        match s1 with
        | [] => None
        | e :: s2 =>
            if isb Byte.x75 e then
              match s2 with
              | a :: b :: c' :: d :: s3 =>
                  match hex4 [a; b; c'; d] with
                  | Some _ => '(body, rest) ← stringBody s3; Some (c :: e :: a :: b :: c' :: d :: body, rest)
                  | None => None
                  end
              | _ => None
              end
            else match escaped e with
                 | Some _ => '(body, rest) ← stringBody s2; Some (c :: e :: body, rest)
                 | None => None
                 end
        end
      else if val c <? 32 then None
      else '(body, rest) ← stringBody s1; Some (c :: body, rest)
  end.

Definition surrogate (r : Z) : bool := (0xD800 <=? r) && (r <=? 0xDFFF).
Definition highSurrogate (r : Z) : bool := (0xD800 <=? r) && (r <=? 0xDBFF).
Definition lowSurrogate (r : Z) : bool := (0xDC00 <=? r) && (r <=? 0xDFFF).

(** The text after the six bytes of an escape of a high surrogate: the other half of a
    pair, if it is one ([utf16.DecodeRune]). *)
Definition pairedWith (r : Z) (s : list byte) : option (Z * list byte) :=
  match s with
  | c :: e :: s' =>
      if isb Byte.x5c c && isb Byte.x75 e then
        '(low, rest) ← hex4 s';
        if highSurrogate r && lowSurrogate low then Some ((r - 0xD800) * 1024 + (low - 0xDC00) + 0x10000, rest) else None
      else None
  | _ => None
  end.

(** [unquote]: the string that the contents stand for.  A lone surrogate and a byte that
    is not UTF-8 become U+FFFD. *)
Fixpoint unquoteLoop (n : nat) (s : list byte) : list byte :=
  match n, s with
  | S n', c :: s1 =>
      if isb Byte.x5c c then
        match s1 with
        | [] => []
        | e :: s2 =>
            if isb Byte.x75 e then
              match hex4 s2 with
              | None => []
              | Some (r, s3) =>
                  if surrogate r then
                    match pairedWith r s3 with
                    | Some (r', s4) => Utf8.EncodeRune r' ++ unquoteLoop n' s4
                    | None => Utf8.replacement ++ unquoteLoop n' s3
                    end
                  else Utf8.EncodeRune r ++ unquoteLoop n' s3
              end
            else match escaped e with Some b => b :: unquoteLoop n' s2 | None => [] end
        end
      else match Utf8.width s with
           | O => Utf8.replacement ++ unquoteLoop n' s1
           | w => take w s ++ unquoteLoop n' (drop w s)
           end
  | _, _ => []
  end.

Definition unquote (s : list byte) : list byte := unquoteLoop (length s) s.

(** ** Numbers and values *)

Fixpoint skipDigits (s : list byte) : list byte :=
  match s with [] => [] | c :: s' => if is_digit c then skipDigits s' else s end.

Definition someDigits (s : list byte) : option (list byte) :=
  match s with c :: s' => if is_digit c then Some (skipDigits s') else None | [] => None end.

Definition skipInt (s : list byte) : option (list byte) :=
  match s with c :: s' => if isb Byte.x30 c then Some s' else someDigits s | [] => None end.

Definition skipFraction (s : list byte) : option (list byte) :=
  match s with c :: s' => if isb Byte.x2e c then someDigits s' else Some s | [] => Some s end.

Definition skipSign (s : list byte) : list byte :=
  match s with c :: s' => if isb Byte.x2b c || isb Byte.x2d c then s' else s | [] => s end.

Definition skipExponent (s : list byte) : option (list byte) :=
  match s with c :: s' => if isb Byte.x65 c || isb Byte.x45 c then someDigits (skipSign s') else Some s | [] => Some s end.

Definition skipMinus (s : list byte) : list byte :=
  match s with c :: s' => if isb Byte.x2d c then s' else s | [] => s end.

Definition skipNumber (s : list byte) : option (list byte) :=
  s1 ← skipInt (skipMinus s);
  s2 ← skipFraction s1;
  skipExponent s2.

Definition skipWord (w s : list byte) : option (list byte) :=
  if bool_decide (take (length w) s = w) then Some (drop (length w) s) else None.

Definition maxNestingDepth : Z := 10000.

Definition expect (x : byte) (s : list byte) : option (list byte) :=
  match s with c :: s' => if isb x c then Some s' else None | [] => None end.

(** The scanner: what follows the value at the front of [s].  A member and an element
    are read by the two loops. *)
Fixpoint skipValue (n : nat) (depth : Z) (s : list byte) {struct n} : option (list byte) :=
  match n, s with
  | S n', c :: s' =>
      if isb Byte.x22 c then snd <$> stringBody s'
      else if isb Byte.x7b c then
        if maxNestingDepth <? depth + 1 then None else
        match expect Byte.x7d (skipSpace s') with
        | Some rest => Some rest
        | None => skipMembers n' (depth + 1) (skipSpace s')
        end
      else if isb Byte.x5b c then
        if maxNestingDepth <? depth + 1 then None else
        match expect Byte.x5d (skipSpace s') with
        | Some rest => Some rest
        | None => skipElements n' (depth + 1) (skipSpace s')
        end
      else if isb Byte.x74 c then skipWord (str "true") s
      else if isb Byte.x66 c then skipWord (str "false") s
      else if isb Byte.x6e c then skipWord (str "null") s
      else skipNumber s
  | _, _ => None
  end
with skipMembers (n : nat) (depth : Z) (s : list byte) {struct n} : option (list byte) :=
  match n with
  | S n' =>
      s ← expect Byte.x22 s;
      '(_, s) ← stringBody s;
      s ← expect Byte.x3a (skipSpace s);
      s ← skipValue n' depth (skipSpace s);
      match expect Byte.x2c (skipSpace s) with
      | Some s => skipMembers n' depth (skipSpace s)
      | None => expect Byte.x7d (skipSpace s)
      end
  | O => None
  end
with skipElements (n : nat) (depth : Z) (s : list byte) {struct n} : option (list byte) :=
  match n with
  | S n' =>
      s ← skipValue n' depth s;
      match expect Byte.x2c (skipSpace s) with
      | Some s => skipElements n' depth (skipSpace s)
      | None => expect Byte.x5d (skipSpace s)
      end
  | O => None
  end.

(** The raw text of the value at the front of [s], and what follows.  The loops and
    [skipValue] alternate, so that two rounds per byte are enough. *)
Definition readValue (s : list byte) : option (list byte * list byte) :=
  rest ← skipValue (S (2 * length s)) 0 s; Some (take (length s - length rest) s, rest).

(** ** [json.Unmarshal] into a string that is empty; null leaves it as it is *)

Definition UnmarshalString (data : list byte) : result (list byte) :=
  match readValue (skipSpace data) with
  | None => Err ErrJSON
  | Some (v, rest) =>
      if negb (bool_decide (skipSpace rest = [])) then Err ErrJSON else
      match v with
      | c :: v' =>
          if isb Byte.x22 c then
            match stringBody v' with Some (body, _) => Ok (unquote body) | None => Err ErrJSON end
          else if isb Byte.x6e c then Ok [] else Err ErrJSON
      | [] => Err ErrJSON
      end
  end.

(** ** [json.Decoder] *)

Inductive tokenState :=
  | tokenTopValue | tokenArrayStart | tokenArrayValue | tokenArrayComma
  | tokenObjectStart | tokenObjectKey | tokenObjectColon | tokenObjectValue | tokenObjectComma.

#[global] Instance tokenState_eq_dec : EqDecision tokenState.
Proof. solve_decision. Defined.

Record Decoder := mkDecoder { buf : list byte; state : tokenState; stack : list tokenState }.

Definition NewDecoder (data : list byte) : Decoder := mkDecoder data tokenTopValue [].

Inductive token := Delim (c : byte) | StringToken (s : list byte) | OtherToken.

Definition tokenValueAllowed (st : tokenState) : bool :=
  match st with tokenTopValue | tokenArrayStart | tokenArrayValue | tokenObjectValue => true | _ => false end.

Definition tokenValueEnd (st : tokenState) : tokenState :=
  match st with
  | tokenArrayStart | tokenArrayValue => tokenArrayComma
  | tokenObjectValue => tokenObjectComma
  | _ => st
  end.

(** [More] *)
Definition More (dec : Decoder) : bool :=
  match skipSpace (buf dec) with [] => false | c :: _ => negb (isb Byte.x5d c) && negb (isb Byte.x7d c) end.

(** [tokenPrepareForDecode] *)
Definition tokenPrepareForDecode (dec : Decoder) : result Decoder :=
  let separator x st :=
    match skipSpace (buf dec) with
    | [] => Err ErrEOF
    | c :: s => if isb x c then Ok (mkDecoder s st (stack dec)) else Err ErrJSON
    end in
  match state dec with
  | tokenArrayComma => separator Byte.x2c tokenArrayValue
  | tokenObjectColon => separator Byte.x3a tokenObjectValue
  | _ => Ok dec
  end.

(** [Decode] into a [json.RawMessage]. *)
Definition Decode (dec : Decoder) : result (list byte * Decoder) :=
  dec ← tokenPrepareForDecode dec;
  if negb (tokenValueAllowed (state dec)) then Err ErrJSON else
  match skipSpace (buf dec) with
  | [] => Err ErrEOF
  | s => match readValue s with
         | Some (v, rest) => Ok (v, mkDecoder rest (tokenValueEnd (state dec)) (stack dec))
         | None => Err ErrJSON
         end
  end.

(** [Token]: a separator is skipped once; the code loops, but no state allows two.  A
    value that is neither a delimiter nor a key is not looked at by the callers. *)
Definition opening (dec : Decoder) (c : byte) (s : list byte) (st : tokenState) : result (token * Decoder) :=
  if negb (tokenValueAllowed (state dec)) then Err ErrJSON
  else Ok (Delim c, mkDecoder s st (state dec :: stack dec)).

Definition closing (dec : Decoder) (c : byte) (s : list byte) (st1 st2 : tokenState) : result (token * Decoder) :=
  if negb (bool_decide (state dec = st1)) && negb (bool_decide (state dec = st2)) then Err ErrJSON
  else match stack dec with
       | top :: stack' => Ok (Delim c, mkDecoder s (tokenValueEnd top) stack')
       | [] => Panic
       end.

Definition valueToken (dec : Decoder) : result (token * Decoder) :=
  match skipSpace (buf dec) with
  | [] => Err ErrEOF
  | c :: s =>
      if isb Byte.x5b c then opening dec c s tokenArrayStart
      else if isb Byte.x5d c then closing dec c s tokenArrayStart tokenArrayComma
      else if isb Byte.x7b c then opening dec c s tokenObjectStart
      else if isb Byte.x7d c then closing dec c s tokenObjectStart tokenObjectComma
      else if isb Byte.x3a c || isb Byte.x2c c then Err ErrJSON
      else if isb Byte.x22 c && (bool_decide (state dec = tokenObjectStart) || bool_decide (state dec = tokenObjectKey)) then
        match stringBody s with
        | Some (body, rest) => Ok (StringToken (unquote body), mkDecoder rest tokenObjectColon (stack dec))
        | None => Err ErrJSON
        end
      else if negb (tokenValueAllowed (state dec)) then Err ErrJSON
      else '(_, dec) ← Decode dec; Ok (OtherToken, dec)
  end.

Definition Token (dec : Decoder) : result (token * Decoder) :=
  match skipSpace (buf dec) with
  | c :: s =>
      if isb Byte.x3a c && bool_decide (state dec = tokenObjectColon) then valueToken (mkDecoder s tokenObjectValue (stack dec))
      else if isb Byte.x2c c && bool_decide (state dec = tokenArrayComma) then valueToken (mkDecoder s tokenArrayValue (stack dec))
      else if isb Byte.x2c c && bool_decide (state dec = tokenObjectComma) then valueToken (mkDecoder s tokenObjectKey (stack dec))
      else valueToken dec
  | [] => Err ErrEOF
  end.

(** ** The strings of [json.Marshal] *)

Definition quoteByte (c : byte) : list byte :=
  if isb Byte.x22 c || isb Byte.x5c c then [Byte.x5c; c]
  else if isb Byte.x08 c then [Byte.x5c; Byte.x62]
  else if isb Byte.x0c c then [Byte.x5c; Byte.x66]
  else if isb Byte.x0a c then [Byte.x5c; Byte.x6e]
  else if isb Byte.x0d c then [Byte.x5c; Byte.x72]
  else if isb Byte.x09 c then [Byte.x5c; Byte.x74]
  else if (val c <? 32) || isb Byte.x3c c || isb Byte.x3e c || isb Byte.x26 c
  then str "\u00" ++ [hex_digit (val c / 16); hex_digit (val c mod 16)]
  else [c].

(** An encoding of more than one byte: the two line separators are escaped. *)
Definition quoteRune (r : list byte) : list byte :=
  if bool_decide (r = [Byte.xe2; Byte.x80; Byte.xa8]) then str "\u2028"
  else if bool_decide (r = [Byte.xe2; Byte.x80; Byte.xa9]) then str "\u2029"
  else r.

Fixpoint quoteLoop (n : nat) (s : list byte) : list byte :=
  match n, s with
  | S n', c :: s1 =>
      if val c <? 128 then quoteByte c ++ quoteLoop n' s1
      else match Utf8.width s with
           | O => str "\ufffd" ++ quoteLoop n' s1
           | w => quoteRune (take w s) ++ quoteLoop n' (drop w s)
           end
  | _, _ => []
  end.

(** [appendString] with the escapes for HTML *)
Definition quote (s : list byte) : list byte := Byte.x22 :: quoteLoop (length s) s ++ [Byte.x22].

(** ** A string survives *)

Definition prepend (g : list byte) (r : option (list byte * list byte)) : option (list byte * list byte) :=
  '(body, rest) ← r; Some (g ++ body, rest).

Lemma prepend_app g1 g2 r : prepend g1 (prepend g2 r) = prepend (g1 ++ g2) r.
Proof. destruct r as [[body rest]|]; [|done]. cbn. by rewrite app_assoc. Qed.

Lemma prepend_nil r : prepend [] r = r.
Proof. by destruct r as [[body rest]|]. Qed.

(** A chunk of a string that stands for [d] *)
Record chunk (g d : list byte) : Prop := {
  chunk_body t : stringBody (g ++ t) = prepend g (stringBody t);
  chunk_unquote n t : unquoteLoop (S n) (g ++ t) = d ++ unquoteLoop n t;
  chunk_pos : (0 < length g)%nat;
  chunk_long : (length d <= length g)%nat }.

Lemma quoteByte_chunk c : val c < 128 -> chunk (quoteByte c) [c].
Proof. intros Hc. split; [intros t|intros n t|..]; destruct c; try reflexivity; try (exfalso; revert Hc; by vm_compute); simpl; lia. Qed.

Lemma high_body g t : Forall (fun b => 128 <= val b) g -> stringBody (g ++ t) = prepend g (stringBody t).
Proof.
  induction g as [|b g IH]; intros Hg; [by rewrite prepend_nil|]. apply Forall_cons in Hg as [Hb Hg].
  cbn [app stringBody]. assert (b <> Byte.x22 /\ b <> Byte.x5c) as [H1 H2] by (split; intros ->; revert Hb; by vm_compute).
  rewrite !bool_decide_false by done. destruct (Z.ltb_spec (val b) 32); [lia|]. rewrite IH by done.
  by destruct (stringBody t) as [[body rest]|].
Qed.

(** The encoding at the front does not depend on what follows it. *)
Lemma width_front s t :
  (0 < Utf8.width s)%nat -> Utf8.width (take (Utf8.width s) s ++ t) = Utf8.width s.
Proof.
  destruct s as [|b0 [|b1 [|b2 [|b3 l]]]]; cbn [Utf8.width]; repeat case_match; intros; try lia; cbn [take app Utf8.width];
    repeat match goal with E : ?x = _ |- context [?x] => rewrite E end; done.
Qed.

Lemma width_high c s : 128 <= val c -> Forall (fun b => 128 <= val b) (take (Utf8.width (c :: s)) (c :: s)).
Proof.
  intros Hc. destruct s as [|b1 [|b2 [|b3 l]]]; cbn [Utf8.width]; repeat case_match; cbn [take];
    repeat match goal with E : _ && _ = true |- _ => apply andb_true_iff in E as [? ?] end;
    unfold Utf8.second3, Utf8.second4, Utf8.cont, Utf8.between in *;
    repeat match goal with E : (if ?b then _ else _) = true |- _ => destruct b end;
    repeat match goal with E : _ && _ = true |- _ => apply andb_true_iff in E as [? ?] end;
    rewrite ?Z.leb_le, ?Z.ltb_lt in *; repeat constructor; lia.
Qed.

Lemma width_le s : (Utf8.width s <= length s)%nat.
Proof. destruct s as [|b0 [|b1 [|b2 [|b3 l]]]]; cbn [Utf8.width length]; repeat case_match; lia. Qed.

Lemma quoteRune_chunk c s :
  128 <= val c -> (0 < Utf8.width (c :: s))%nat ->
  chunk (quoteRune (take (Utf8.width (c :: s)) (c :: s))) (take (Utf8.width (c :: s)) (c :: s)).
Proof.
  intros Hc Hw. pose proof (width_high c s Hc) as Hhigh. pose proof (fun t => width_front (c :: s) t Hw) as Hfront.
  pose proof (width_le (c :: s)) as Hle. set (w := Utf8.width (c :: s)) in *.
  assert (Hlen : length (take w (c :: s)) = w) by (rewrite length_take; lia).
  assert (Hr : exists r', take w (c :: s) = c :: r') by (destruct w; [lia|by eexists]).
  set (r := take w (c :: s)) in *. clearbody r w. destruct Hr as [r' ->]. unfold quoteRune.
  case_bool_decide as E1; [rewrite E1; by split; [intros t; reflexivity|intros n t; reflexivity|simpl; lia..]|].
  case_bool_decide as E2; [rewrite E2; by split; [intros t; reflexivity|intros n t; reflexivity|simpl; lia..]|].
  split; [by intros; apply high_body| |simpl; lia..].
  intros n t. cbn [app unquoteLoop]. rewrite bool_decide_false by (intros ->; revert Hc; by vm_compute).
  change (c :: r' ++ t) with ((c :: r') ++ t). rewrite Hfront. destruct w as [|w]; [lia|]. rewrite <- Hlen.
  by rewrite take_app_length, drop_app_length.
Qed.

(** The text of a string is read back, and stands for the string. *)
Lemma quoteLoop_body n s rest :
  Utf8.Valid s = true -> (length s <= n)%nat ->
  stringBody (quoteLoop n s ++ Byte.x22 :: rest) = Some (quoteLoop n s, rest).
Proof.
  revert s. induction n as [|n IH]; intros s Hs Hn; [by destruct s; [|simpl in Hn; lia]|].
  destruct s as [|c s]; [done|].
  assert (Hstep : forall g d s', quoteLoop (S n) (c :: s) = g ++ quoteLoop n s' -> chunk g d -> Utf8.Valid s' = true -> (length s' <= n)%nat ->
    stringBody (quoteLoop (S n) (c :: s) ++ Byte.x22 :: rest) = Some (quoteLoop (S n) (c :: s), rest)).
  { intros g d s' -> Hg Hs' Hn'. rewrite <- app_assoc, (chunk_body _ _ Hg), IH by done. done. }
  cbn [length] in Hn. destruct (Utf8.Valid_width (c :: s) Hs ltac:(done)) as [Hw Hv]. cbn [length] in Hw.
  destruct (Z.ltb_spec (val c) 128) as [Hc|Hc].
  - eapply Hstep; [cbn [quoteLoop]; rewrite (proj2 (Z.ltb_lt _ _) Hc); reflexivity|by apply quoteByte_chunk| |lia].
    cbn [Utf8.Valid] in Hs. by rewrite (proj2 (Z.ltb_lt _ _) Hc) in Hs.
  - eapply (Hstep _ _ (drop (Utf8.width (c :: s)) (c :: s))); [|apply (quoteRune_chunk c s); [done|lia]|done|rewrite length_drop; cbn [length]; lia].
    cbn [quoteLoop]. rewrite (proj2 (Z.ltb_ge _ _) Hc). destruct (Utf8.width (c :: s)) eqn:E; [lia|done].
Qed.

Lemma quoteLoop_unquote n m s :
  Utf8.Valid s = true -> (length s <= n)%nat -> (length s <= m)%nat -> unquoteLoop m (quoteLoop n s) = s.
Proof.
  revert m s. induction n as [|n IH]; intros m s Hs Hn Hm; [by destruct s; [destruct m|simpl in Hn; lia]|].
  destruct s as [|c s]; [by destruct m|]. destruct m as [|m]; [simpl in Hm; lia|]. cbn [length] in Hn, Hm.
  destruct (Utf8.Valid_width (c :: s) Hs ltac:(done)) as [Hw Hv]. cbn [length] in Hw.
  destruct (Z.ltb_spec (val c) 128) as [Hc|Hc].
  - cbn [quoteLoop]. rewrite (proj2 (Z.ltb_lt _ _) Hc), (chunk_unquote _ _ (quoteByte_chunk c Hc)), IH; [done| |lia..].
    cbn [Utf8.Valid] in Hs. by rewrite (proj2 (Z.ltb_lt _ _) Hc) in Hs.
  - cbn [quoteLoop]. rewrite (proj2 (Z.ltb_ge _ _) Hc). pose proof (quoteRune_chunk c s Hc ltac:(lia)) as Hch.
    remember (Utf8.width (c :: s)) as w eqn:Ew. clear Ew. destruct w as [|w']; [lia|].
    rewrite (chunk_unquote _ _ Hch), IH; [apply take_drop|done|rewrite length_drop; cbn [length]; lia..].
Qed.

Lemma quoteLoop_length n s : Utf8.Valid s = true -> (length s <= n)%nat -> (length s <= length (quoteLoop n s))%nat.
Proof.
  revert s. induction n as [|n IH]; intros s Hs Hn; [lia|]. destruct s as [|c s]; [simpl; lia|].
  destruct (Utf8.Valid_width (c :: s) Hs ltac:(done)) as [Hw Hv]. cbn [length] in Hn, Hw. cbn [quoteLoop].
  destruct (Z.ltb_spec (val c) 128) as [Hc|Hc].
  - cbn [Utf8.Valid] in Hs. rewrite (proj2 (Z.ltb_lt _ _) Hc) in Hs. pose proof (chunk_long _ _ (quoteByte_chunk c Hc)).
    rewrite length_app. specialize (IH s Hs ltac:(lia)). cbn [length] in *. lia.
  - pose proof (chunk_long _ _ (quoteRune_chunk c s Hc ltac:(lia))) as Hlong. remember (Utf8.width (c :: s)) as w eqn:Ew. clear Ew.
    destruct w as [|w]; [lia|]. rewrite length_app. specialize (IH (drop (S w) (c :: s)) Hv). rewrite length_drop in IH.
    rewrite length_take in Hlong. cbn [length] in *. lia.
Qed.

Lemma quote_body s rest :
  Utf8.Valid s = true ->
  exists body, quote s = Byte.x22 :: body ++ [Byte.x22] /\ stringBody (body ++ Byte.x22 :: rest) = Some (body, rest) /\ unquote body = s.
Proof.
  intros Hs. exists (quoteLoop (length s) s). split_and!; [done|by apply quoteLoop_body|].
  by apply quoteLoop_unquote; [..|apply quoteLoop_length].
Qed.

(** ** Documents *)

Inductive json :=
  | JNull
  | JBool (b : bool)
  | JNumber (text : list byte)
  | JString (s : list byte)
  | JArray (l : list json)
  | JObject (members : list (list byte * json)).

Definition comma (l : list (list byte)) : list byte :=
  match l with [] => [] | x :: l' => x ++ flat_map (fun y => Byte.x2c :: y) l' end.

Definition member (k v : list byte) : list byte := quote k ++ Byte.x3a :: v.

Definition object (members : list (list byte * list byte)) : list byte :=
  Byte.x7b :: comma (map (fun m => member m.1 m.2) members) ++ [Byte.x7d].

Definition array (l : list (list byte)) : list byte := Byte.x5b :: comma l ++ [Byte.x5d].

Fixpoint render (j : json) : list byte :=
  match j with
  | JNull => str "null"
  | JBool b => if b then str "true" else str "false"
  | JNumber text => text
  | JString s => quote s
  | JArray l => array (map render l)
  | JObject members => object (map (fun m => (m.1, render m.2)) members)
  end.

(** The strings are UTF-8, the numbers are numbers, and the nesting is at most [d]. *)
Fixpoint wf (d : nat) (j : json) : Prop :=
  match j with
  | JNull | JBool _ => True
  | JNumber text => skipNumber text = Some []
  | JString s => Utf8.Valid s = true
  | JArray l => match d with O => False | S d' => Forall (wf d') l end
  | JObject members => match d with O => False | S d' => Forall (fun m => Utf8.Valid m.1 = true /\ wf d' m.2) members end
  end.

(** What may follow a value: nothing that continues a number. *)
Definition ends (rest : list byte) : Prop :=
  match rest with [] => True | c :: _ => is_digit c = false /\ c <> Byte.x2e /\ c <> Byte.x65 /\ c <> Byte.x45 end.

(** The first byte of a value *)
Definition starts (v : list byte) : Prop :=
  match v with [] => False | c :: _ => isSpace c = false /\ c <> Byte.x5d /\ c <> Byte.x7d /\ c <> Byte.x2c /\ c <> Byte.x3a end.

(** [v] is the text of a value that is nested at most [d] deep: the scanner reads it,
    and stops where it ends. *)
Record isValue (d : nat) (v : list byte) : Prop := {
  value_starts : starts v;
  value_skip n k rest : ends rest -> k + Z.of_nat d <= maxNestingDepth -> (2 * length (v ++ rest) < n)%nat -> skipValue n k (v ++ rest) = Some rest }.

Lemma skipDigits_app t rest : ends rest -> skipDigits (t ++ rest) = skipDigits t ++ rest \/ (skipDigits t = [] /\ skipDigits (t ++ rest) = rest).
Proof.
  intros He. induction t as [|c t IH]; cbn [app skipDigits].
  - right. split; [done|]. destruct rest as [|c rest]; [done|]. destruct He as [Hd _]. cbn [skipDigits]. by rewrite Hd.
  - destruct (is_digit c); [done|by left].
Qed.

Lemma skipDigits_end t rest : ends rest -> skipDigits (t ++ rest) = skipDigits t ++ rest.
Proof. intros He. by destruct (skipDigits_app t rest He) as [?|[-> ->]]. Qed.

Lemma someDigits_end t t' rest : ends rest -> someDigits t = Some t' -> someDigits (t ++ rest) = Some (t' ++ rest).
Proof. intros He. destruct t as [|c t]; [done|]. cbn. destruct (is_digit c); [|done]. intros [= <-]. by rewrite skipDigits_end. Qed.

Lemma skipNumber_end t rest : ends rest -> skipNumber t = Some [] -> skipNumber (t ++ rest) = Some rest.
Proof.
  intros He. unfold skipNumber.
  destruct (decide (t = [])) as [->|Hne]; [done|].
  assert (skipMinus (t ++ rest) = skipMinus t ++ rest) as -> by (destruct t as [|c t]; [done|]; cbn; by case_bool_decide).
  generalize (skipMinus t). clear t Hne. intros u.
  assert (Hint : forall u1, skipInt u = Some u1 -> skipInt (u ++ rest) = Some (u1 ++ rest)).
  { intros u1. destruct u as [|c u]; [done|]. cbn [skipInt app]. case_bool_decide; [by intros [= <-]|].
    intros E. by apply (someDigits_end (c :: u)). }
  destruct (skipInt u) as [u1|]; [|done]. rewrite (Hint u1 eq_refl). cbn [mbind option_bind].
  assert (Hfrac : forall u2, skipFraction u1 = Some u2 -> skipFraction (u1 ++ rest) = Some (u2 ++ rest)).
  { intros u2. destruct u1 as [|c u1]; cbn [skipFraction app].
    - intros [= <-]. destruct rest as [|c rest]; [done|]. cbn. destruct He as (_ & He & _). by rewrite bool_decide_false.
    - case_bool_decide; [|by intros [= <-]]. intros E. by apply someDigits_end. }
  destruct (skipFraction u1) as [u2|]; [|done]. rewrite (Hfrac u2 eq_refl). cbn [mbind option_bind].
  destruct u2 as [|c u2]; cbn [skipExponent app].
  - intros _. destruct rest as [|c rest]; [done|]. cbn. destruct He as (_ & _ & He1 & He2). by rewrite !bool_decide_false.
  - destruct (_ || _); [|done]. intros E. destruct u2 as [|s u2]; [done|]. cbn [skipSign app] in *.
    destruct (_ || _); by apply (someDigits_end _ [] rest He) in E.
Qed.

Lemma skipWord_end w rest : skipWord w (w ++ rest) = Some rest.
Proof. unfold skipWord. by rewrite take_app_length, bool_decide_true, drop_app_length. Qed.

Lemma skipSpace_starts v rest : starts v -> skipSpace (v ++ rest) = v ++ rest.
Proof. destruct v as [|c v]; [done|]. intros [Hc _]. cbn. by rewrite Hc. Qed.

Lemma expect_starts x v rest : starts v -> x = Byte.x5d \/ x = Byte.x7d \/ x = Byte.x2c -> expect x (v ++ rest) = None.
Proof. destruct v as [|c v]; [done|]. intros (_ & H1 & H2 & H3 & _) Hx. cbn. rewrite bool_decide_false; [done|]. naive_solver. Qed.

Lemma number_value text : skipNumber text = Some [] -> isValue 0 text.
Proof.
  intros Ht. destruct text as [|c t]; [done|].
  assert (Hc : is_digit c = true \/ c = Byte.x2d).
  { unfold skipNumber, skipMinus in Ht. case_bool_decide; [by right|]. left. cbn [skipInt someDigits] in Ht. case_bool_decide; [by subst|]. by destruct (is_digit c). }
  split.
  - destruct Hc as [Hc| ->]; [|by vm_compute]. split_and!; [|intros ->; done..]. unfold is_digit in Hc. apply andb_true_iff in Hc as [? ?]. unfold isSpace.
    rewrite !orb_false_iff, !Z.eqb_neq. lia.
  - intros n k rest He _ Hn. destruct n as [|n]; [lia|]. rewrite <- (skipNumber_end (c :: t) rest He Ht). cbn [app skipValue].
    destruct Hc as [Hc| ->]; [|reflexivity]. rewrite !bool_decide_false by (intros ->; done). reflexivity.
Qed.

Lemma word_value w : w = str "null" \/ w = str "true" \/ w = str "false" -> isValue 0 w.
Proof. intros [-> |[-> | ->]]; (split; [by vm_compute|]); (intros [|n] k rest He _ Hn; [lia|apply (skipWord_end _ rest)]). Qed.

Lemma quote_value s : Utf8.Valid s = true -> isValue 0 (quote s).
Proof.
  intros Hs. split; [done|]. intros [|n] k rest He _ Hn; [lia|]. destruct (quote_body s rest Hs) as (body & -> & Hb & _).
  cbn [app skipValue]. rewrite <- app_assoc. cbn [app]. rewrite Hb. reflexivity.
Qed.

Lemma isValue_le d d' v : isValue d v -> (d <= d')%nat -> isValue d' v.
Proof. intros [Hs Hv] Hle. split; [done|]. intros. apply Hv; [done|lia|done]. Qed.

Lemma ends_punctuation c rest : c = Byte.x2c \/ c = Byte.x5d \/ c = Byte.x7d -> ends (c :: rest).
Proof. by intros [-> | [-> | ->]]. Qed.

Lemma comma_cons v l rest : comma (v :: l) ++ rest = v ++ match l with [] => rest | _ => Byte.x2c :: comma l ++ rest end.
Proof. unfold comma. rewrite <- app_assoc. destruct l as [|w l]; [done|]. cbn [flat_map]. by rewrite <- app_assoc, <- app_comm_cons, <- app_assoc. Qed.

Lemma skipSpace_cons c t : isSpace c = false -> skipSpace (c :: t) = c :: t.
Proof. intros Hc. cbn. by rewrite Hc. Qed.

Lemma expect_cons c t : expect c (c :: t) = Some t.
Proof. cbn. by rewrite bool_decide_true. Qed.

Lemma skipElements_end d l n k rest :
  Forall (isValue d) l -> l <> [] -> k + Z.of_nat d <= maxNestingDepth -> (2 * length (comma l ++ Byte.x5d :: rest) + 1 < n)%nat ->
  skipElements n k (comma l ++ Byte.x5d :: rest) = Some rest.
Proof.
  intros Hl. revert n. induction l as [|v l IH]; intros n Hne Hk Hn; [done|]. apply Forall_cons in Hl as [Hv Hl]. specialize (IH Hl).
  destruct n as [|n]; [lia|]. rewrite comma_cons in *. cbn [skipElements].
  set (tail := match l with [] => _ | _ => _ end) in *.
  assert (Hends : ends tail) by (unfold tail; destruct l; apply ends_punctuation; auto).
  rewrite length_app in Hn.
  rewrite (value_skip _ _ Hv) by (done || (rewrite length_app; lia)). cbn [mbind option_bind].
  unfold tail in *. destruct l as [|w l]; [done|]. cbn [length] in Hn.
  rewrite skipSpace_cons, expect_cons by done. assert (Hw : starts w) by (apply Forall_cons in Hl as [Hw _]; apply Hw).
  rewrite comma_cons, skipSpace_starts by done. rewrite <- comma_cons. apply IH; [done|done|]. rewrite length_app in *. lia.
Qed.

Lemma array_value d l : Forall (isValue d) l -> isValue (S d) (array l).
Proof.
  intros Hl. split; [done|]. intros [|n] k rest He Hk Hn; [lia|]. unfold array in *. rewrite <- app_comm_cons, <- app_assoc in *. cbn [app skipValue].
  rewrite !bool_decide_false, bool_decide_true by done. rewrite (proj2 (Z.ltb_ge _ _)) by lia.
  destruct l as [|v l]; [done|]. assert (Hv : starts v) by (apply Forall_cons in Hl as [Hv _]; apply Hv).
  rewrite comma_cons, skipSpace_starts, expect_starts by auto. rewrite <- comma_cons. cbn [app length] in *.
  apply (skipElements_end d); [done..|lia|]. cbn [length] in *. lia.
Qed.

(** The text of an object's members: a key and the text of its value. *)
Definition memberOk (d : nat) (m : list byte * list byte) : Prop := Utf8.Valid m.1 = true /\ isValue d m.2.

Abbreviation members l := (comma (map (fun m => member m.1 m.2) l)).

Lemma members_cons k v l rest :
  Utf8.Valid k = true ->
  exists body, unquote body = k /\
    members ((k, v) :: l) ++ rest =
      Byte.x22 :: body ++ Byte.x22 :: Byte.x3a :: v ++ match l with [] => rest | _ => Byte.x2c :: members l ++ rest end /\
    forall t, stringBody (body ++ Byte.x22 :: t) = Some (body, t).
Proof.
  intros Hk. destruct (quote_body k [] Hk) as (body & Eq & _ & Hu). exists body. split; [done|]. split.
  - cbn [map]. rewrite comma_cons. unfold member. cbn [fst snd]. rewrite Eq. rewrite <- !app_comm_cons, <- !app_assoc. cbn [app].
    by destruct l.
  - intros t. destruct (quote_body k t Hk) as (body' & Eq' & Hb & _). rewrite Eq in Eq'. injection Eq' as Eq'. apply app_inj_tail in Eq' as [<- _]. done.
Qed.

Lemma skipMembers_end d l n k rest :
  Forall (memberOk d) l -> l <> [] -> k + Z.of_nat d <= maxNestingDepth -> (2 * length (members l ++ Byte.x7d :: rest) + 1 < n)%nat ->
  skipMembers n k (members l ++ Byte.x7d :: rest) = Some rest.
Proof.
  intros Hl. revert n. induction l as [|[key v] l IH]; intros n Hne Hk Hn; [done|]. apply Forall_cons in Hl as [[Hkey Hv] Hl]. specialize (IH Hl). cbn [fst snd] in *.
  destruct n as [|n]; [lia|]. destruct (members_cons key v l (Byte.x7d :: rest) Hkey) as (body & _ & E & Hb). rewrite E in *. cbn [skipMembers]. rewrite expect_cons. cbn [mbind option_bind].
  set (tail := match l with [] => _ | _ => _ end) in *.
  assert (Hends : ends tail) by (unfold tail; destruct l; apply ends_punctuation; auto).
  rewrite Hb. cbn [mbind option_bind]. rewrite skipSpace_cons, expect_cons by done. cbn [mbind option_bind]. rewrite (skipSpace_starts _ _ (value_starts _ _ Hv)).
  cbn [length] in Hn. rewrite !length_app in Hn. cbn [length] in Hn. rewrite length_app in Hn.
  rewrite (value_skip _ _ Hv) by (done || (rewrite length_app; lia)). cbn [mbind option_bind].
  unfold tail in *. destruct l as [|[key' v'] l]; [done|]. cbn [length] in Hn.
  rewrite skipSpace_cons, expect_cons by done.
  destruct (members_cons key' v' l (Byte.x7d :: rest)) as (body' & _ & E' & _); [by apply Forall_cons in Hl as [[? _] _]|].
  rewrite E', skipSpace_cons by done. rewrite <- E'. apply IH; [done|done|lia].
Qed.

Lemma object_value d l : Forall (memberOk d) l -> isValue (S d) (object l).
Proof.
  intros Hl. split; [done|]. intros [|n] k rest He Hk Hn; [lia|]. unfold object in *. rewrite <- app_comm_cons, <- app_assoc in *. cbn [app skipValue].
  rewrite !bool_decide_false, bool_decide_true by done. rewrite (proj2 (Z.ltb_ge _ _)) by lia.
  destruct l as [|[key v] l]; [done|].
  destruct (members_cons key v l (Byte.x7d :: rest)) as (body & _ & E & _); [by apply Forall_cons in Hl as [[? _] _]|].
  rewrite E, skipSpace_cons by done. cbn [expect]. rewrite bool_decide_false by done. rewrite <- E. cbn [app length] in *.
  apply (skipMembers_end d); [done..|lia|]. cbn [length] in *. lia.
Qed.

(** Every document is read. *)
Lemma render_value d j : wf d j -> isValue d (render j).
Proof.
  revert j. induction d as [|d IH]; intros j Hj.
  - destruct j; cbn [wf render] in *; try done; [apply word_value; auto|destruct b; apply word_value; auto|by apply number_value|by apply quote_value].
  - destruct j; cbn [wf render] in *;
      [apply (isValue_le 0); [apply word_value; auto|lia]|apply (isValue_le 0); [destruct b; apply word_value; auto|lia]
      |apply (isValue_le 0); [by apply number_value|lia]|apply (isValue_le 0); [by apply quote_value|lia]| |].
    + apply array_value. apply Forall_map. eapply Forall_impl; [exact Hj|]. auto.
    + apply object_value. apply Forall_map. eapply Forall_impl; [exact Hj|]. intros m [? ?]. split; [done|]. by apply IH.
Qed.

(** ** What the decoder reads back *)

Lemma readValue_render d v rest : isValue d v -> Z.of_nat d <= maxNestingDepth -> ends rest -> readValue (v ++ rest) = Some (v, rest).
Proof.
  intros Hv Hd He. unfold readValue. rewrite (value_skip _ _ Hv) by (done || lia). cbn [mbind option_bind].
  rewrite length_app. replace (length v + length rest - length rest)%nat with (length v) by lia. by rewrite take_app_length.
Qed.

Lemma isSpace_not (c : byte) : c = Byte.x22 \/ c = Byte.x2c \/ c = Byte.x3a \/ c = Byte.x5b \/ c = Byte.x5d \/ c = Byte.x7b \/ c = Byte.x7d -> isSpace c = false.
Proof. by intros [-> | [-> | [-> | [-> | [-> | [-> | ->]]]]]]. Qed.

(** What the decoder has before it after [st], when the members [l] are still to come. *)
Definition pending (st : tokenState) (l : list (list byte * list byte)) (rest : list byte) : list byte :=
  match st, l with
  | tokenObjectComma, _ :: _ => Byte.x2c :: members l ++ Byte.x7d :: rest
  | _, _ => members l ++ Byte.x7d :: rest
  end.

Lemma Decode_member k v l rest stk d :
  memberOk d (k, v) -> Z.of_nat d <= maxNestingDepth ->
  Decode (mkDecoder (Byte.x3a :: v ++ match l with [] => Byte.x7d :: rest | _ => Byte.x2c :: members l ++ Byte.x7d :: rest end) tokenObjectColon stk) =
    Ok (v, mkDecoder (pending tokenObjectComma l rest) tokenObjectComma stk).
Proof.
  intros [_ Hv] Hd. cbn [fst snd] in *. set (tail := match l with [] => _ | _ => _ end).
  assert (Hends : ends tail) by (unfold tail; destruct l; apply ends_punctuation; auto).
  assert (pending tokenObjectComma l rest = tail) as -> by (unfold pending, tail; by destruct l).
  unfold Decode, tokenPrepareForDecode. cbn [state buf stack]. rewrite skipSpace_cons by done. rewrite bool_decide_true by done.
  cbn [mbind result_bind state buf stack tokenValueAllowed negb]. rewrite (skipSpace_starts _ _ (value_starts _ _ Hv)).
  pose proof (readValue_render d v tail Hv Hd Hends) as Hread. destruct v as [|c v]; [by destruct (value_starts _ _ Hv)|].
  cbn [app] in *. by rewrite Hread.
Qed.

Lemma More_member k v l st rest stk :
  Utf8.Valid k = true -> st = tokenObjectStart \/ st = tokenObjectComma -> More (mkDecoder (pending st ((k, v) :: l) rest) st stk) = true.
Proof.
  intros Hk Hst. destruct (members_cons k v l (Byte.x7d :: rest) Hk) as (body & Hbody & E & Hread).
  unfold More, pending. cbn [buf]. destruct Hst as [-> | ->]; [rewrite E|]; by rewrite skipSpace_cons.
Qed.

(** The name of the next member is read. *)
Lemma Token_member k v l st rest stk :
  Utf8.Valid k = true -> st = tokenObjectStart \/ st = tokenObjectComma ->
  Token (mkDecoder (pending st ((k, v) :: l) rest) st stk) = Ok (StringToken k, mkDecoder
    (Byte.x3a :: v ++ match l with [] => Byte.x7d :: rest | _ => Byte.x2c :: members l ++ Byte.x7d :: rest end) tokenObjectColon stk).
Proof.
  intros Hk Hst. destruct (members_cons k v l (Byte.x7d :: rest) Hk) as (body & Hbody & E & Hread).
  unfold Token, pending. cbn [buf state stack]. destruct Hst as [-> | ->]; rewrite ?E, ?skipSpace_cons by done; cbn [buf state stack];
    unfold valueToken; cbn [buf state stack]; rewrite ?E, skipSpace_cons by done;
    repeat (rewrite bool_decide_false by done); repeat (rewrite bool_decide_true by done); cbn [andb orb];
    rewrite Hread, Hbody; done.
Qed.

(** An object opens, and closes. *)
Lemma Token_open s st stk :
  tokenValueAllowed st = true -> Token (mkDecoder (Byte.x7b :: s) st stk) = Ok (Delim Byte.x7b, mkDecoder s tokenObjectStart (st :: stk)).
Proof.
  intros Hst. unfold Token. cbn [buf]. rewrite skipSpace_cons by done. repeat (rewrite bool_decide_false by done; cbn [andb orb]). cbn [andb].
  unfold valueToken, opening. cbn [buf state stack]. rewrite skipSpace_cons by done. repeat (rewrite bool_decide_false by done; cbn [andb orb]).
  rewrite bool_decide_true by done. by rewrite Hst.
Qed.

Lemma Token_close s st top stk :
  st = tokenObjectStart \/ st = tokenObjectComma ->
  Token (mkDecoder (Byte.x7d :: s) st (top :: stk)) = Ok (Delim Byte.x7d, mkDecoder s (tokenValueEnd top) stk).
Proof.
  intros Hst. unfold Token. cbn [buf]. rewrite skipSpace_cons by done. repeat (rewrite bool_decide_false by done; cbn [andb orb]). cbn [andb].
  unfold valueToken, closing. cbn [buf state stack]. rewrite skipSpace_cons by done. repeat (rewrite bool_decide_false by done; cbn [andb orb]).
  rewrite bool_decide_true by done. by destruct Hst as [-> | ->].
Qed.

Lemma UnmarshalString_quote s : Utf8.Valid s = true -> UnmarshalString (quote s) = Ok s.
Proof.
  intros Hs. destruct (quote_body s [] Hs) as (body & Eq & Hb & Hu). pose proof (quote_value s Hs) as Hv.
  unfold UnmarshalString. assert (skipSpace (quote s) = quote s) as -> by (rewrite Eq; done).
  pose proof (readValue_render 0 (quote s) [] Hv ltac:(done) I) as Hr. rewrite app_nil_r in Hr. rewrite Hr. cbn [skipSpace].
  rewrite bool_decide_true by done. cbn [negb]. rewrite Eq. rewrite bool_decide_true by done. by rewrite Hb, Hu.
Qed.

Lemma FormatUint_number n : is_u64 n -> skipNumber (FormatUint n) = Some [].
Proof.
  intros Hn. destruct (FormatUint_spec n Hn) as [_ (Hd & Hne & Hhead)]. destruct (FormatUint n) as [|c t]; [done|].
  cbn [forallb] in Hd. apply andb_true_iff in Hd as [Hc Ht].
  assert (Hall : skipDigits t = []) by (clear -Ht; induction t as [|c t IH]; [done|]; cbn in *; apply andb_true_iff in Ht as [-> Ht]; auto).
  unfold skipNumber, skipMinus. rewrite bool_decide_false by (intros ->; done). cbn [skipInt someDigits]. rewrite Hc.
  case_bool_decide as H0; [|rewrite Hall; done]. subst c. destruct t as [|c' t]; [done|].
  exfalso. apply Hhead; [|done]. rewrite !len_cons. pose proof (len_nonneg t). lia.
Qed.

Definition membersOk (d : nat) (l : list (list byte * json)) : Prop := Forall (fun m => Utf8.Valid m.1 = true /\ wf d m.2) l.

Abbreviation rendered l := (map (fun m => (m.1, render m.2)) l).

Lemma rendered_ok d l : membersOk d l -> Forall (memberOk d) (rendered l).
Proof. intros Hl. apply Forall_map. eapply Forall_impl; [exact Hl|]. intros m [? ?]. split; [done|]. by apply render_value. Qed.

Lemma rendered_keys (l : list (list byte * json)) : (rendered l).*1 = l.*1.
Proof. induction l as [|m l IH]; [done|]. cbn. by rewrite <- IH. Qed.

Lemma wf_le d d' j : wf d j -> (d <= d')%nat -> wf d' j.
Proof.
  revert d' j. induction d as [|d IH]; intros d' j Hj Hle; destruct j, d'; cbn [wf] in *; try done; try lia.
  - eapply Forall_impl; [exact Hj|]. intros j Hj'. apply IH; [done|lia].
  - eapply Forall_impl; [exact Hj|]. intros m [? Hm]. split; [done|]. apply IH; [done|lia].
Qed.

Lemma comma_length l : (forall v, v ∈ l -> v <> []) -> (length l <= length (comma l) + 0)%nat.
Proof.
  intros Hl. destruct l as [|v l]; [done|]. cbn [comma length]. rewrite length_app.
  assert (0 < length v)%nat by (destruct v; [by destruct (Hl [] ltac:(by left))|simpl; lia]).
  enough (length l <= length (flat_map (fun y => Byte.x2c :: y) l))%nat by lia.
  clear. induction l as [|w l IH]; [done|]. cbn [flat_map length app]. rewrite length_app. lia.
Qed.

(** ** No input makes the decoder panic *)

(** The stack says where the value that is open stands. *)
Fixpoint stacked (st : tokenState) (stk : list tokenState) : Prop :=
  match stk with
  | [] => st = tokenTopValue
  | top :: stk' => st <> tokenTopValue /\ tokenValueAllowed top = true /\ stacked top stk'
  end.

Definition consistent (dec : Decoder) : Prop := stacked (state dec) (stack dec).

(** A step of the decoder does not panic, and leaves a consistent decoder. *)
Definition safe {A} (r : result (A * Decoder)) : Prop :=
  match r with Ok (_, dec) => consistent dec | Err _ => True | Panic => False end.

Lemma stacked_end st stk : stacked st stk -> stacked (tokenValueEnd st) stk.
Proof. destruct stk, st; cbn; intuition (try discriminate; try congruence). Qed.

Lemma prepare_safe dec : consistent dec ->
  match tokenPrepareForDecode dec with Ok dec' => consistent dec' | Err _ => True | Panic => False end.
Proof.
  intros Hc. unfold tokenPrepareForDecode, consistent in *. destruct dec as [b st stk]. cbn [state stack buf] in *.
  destruct st; try done; (destruct (skipSpace b) as [|c s]; [done|]); case_bool_decide; try done; destruct stk; cbn in *; intuition (try discriminate).
Qed.

Lemma Decode_safe dec : consistent dec -> safe (Decode dec).
Proof.
  intros Hc%prepare_safe. unfold Decode. destruct (tokenPrepareForDecode dec) as [dec'|e|]; [|done..]. cbn [mbind result_bind].
  destruct (negb _); [done|]. destruct (skipSpace (buf dec')) as [|c s]; [done|]. destruct (readValue _) as [[v rest]|]; [|done].
  by apply stacked_end.
Qed.

Lemma valueToken_safe dec : consistent dec -> safe (valueToken dec).
Proof.
  intros Hc. unfold valueToken. destruct dec as [b st stk]. cbn [state stack buf] in *. destruct (skipSpace b) as [|c s]; [done|].
  assert (Hopen : forall st', st' <> tokenTopValue -> safe (opening (mkDecoder b st stk) c s st')).
  { intros st' Hst'. unfold opening. cbn [state stack]. destruct (tokenValueAllowed st) eqn:E; [|done]. by split_and!. }
  assert (Hclose : forall st1 st2, st1 <> tokenTopValue -> st2 <> tokenTopValue -> safe (closing (mkDecoder b st stk) c s st1 st2)).
  { intros st1 st2 H1 H2. unfold closing. cbn [state stack]. unfold consistent in Hc. cbn [state stack] in Hc. destruct stk as [|top stk].
    - cbn in Hc. subst st. by rewrite !bool_decide_false.
    - destruct (_ && _); [done|]. destruct Hc as (_ & _ & Hc). by apply stacked_end. }
  case_bool_decide; [by apply Hopen|]. case_bool_decide; [by apply Hclose|]. case_bool_decide; [by apply Hopen|]. case_bool_decide; [by apply Hclose|].
  destruct (_ || _); [done|]. destruct (isb Byte.x22 c && _) eqn:Ekey.
  - apply andb_true_iff in Ekey as [_ Ekey]. destruct (stringBody s) as [[body rest]|]; [|done]. unfold safe, consistent in *. cbn [state stack] in *.
    destruct stk; [cbn in Hc; subst st; done|]. cbn in *. split; [done|]. tauto.
  - destruct (negb _); [done|]. pose proof (Decode_safe _ Hc) as Hs. destruct (Decode _) as [[v dec']|e|]; done.
Qed.

Lemma Token_safe dec : consistent dec -> safe (Token dec).
Proof.
  intros Hc. unfold Token. destruct (skipSpace (buf dec)) as [|c s]; [done|].
  assert (Hsep : forall st st', state dec = st -> st <> tokenTopValue -> st' <> tokenTopValue -> safe (valueToken (mkDecoder s st' (stack dec)))).
  { intros st st' E Hst Hst'. apply valueToken_safe. unfold consistent in *. cbn [state stack]. rewrite E in Hc. destruct (stack dec); cbn in *; intuition congruence. }
  destruct (isb Byte.x3a c && _) eqn:E1; [apply andb_true_iff in E1 as [_ E1%bool_decide_eq_true]; by eapply Hsep|].
  destruct (isb Byte.x2c c && bool_decide (state dec = tokenArrayComma)) eqn:E2; [apply andb_true_iff in E2 as [_ E2%bool_decide_eq_true]; by eapply Hsep|].
  destruct (isb Byte.x2c c && bool_decide (state dec = tokenObjectComma)) eqn:E3; [apply andb_true_iff in E3 as [_ E3%bool_decide_eq_true]; by eapply Hsep|].
  by apply valueToken_safe.
Qed.

Lemma safe_bind {A B} (m : result (A * Decoder)) (f : A * Decoder -> result (B * Decoder)) :
  safe m -> (forall a dec, consistent dec -> safe (f (a, dec))) -> safe (m ≫= f).
Proof. intros Hm Hf. destruct m as [[a dec]|e|]; [by apply Hf|done..]. Qed.

Lemma UnmarshalString_yields raw : yields (UnmarshalString raw) (fun _ => True).
Proof. unfold UnmarshalString. repeat case_match; done. Qed.

End Json.
