(* ===== verification/Text.v ===== *)
(** * Runes and fields of a text ([unicode/utf8], [strings], [regexp.QuoteMeta])

    What the query language of the identity service uses of Go's libraries: the runes
    that [range] reads from a string, [strings.FieldsFunc] and [strings.Join], and the
    quoting of regular expressions. *)

From S2P Require Import Prelude Bytes Utf8 Json.
Import Json.
Open Scope Z_scope.

Module Text.

(** ** Runes *)

(** [utf8.DecodeRune]: the rune at the front of a text that is not empty, and its
    length; [RuneError] of length 1 if there is none. *)
Definition DecodeRune (s : list byte) : Z * nat :=
  match Utf8.width s, s with
  | 1%nat, b0 :: _ => (val b0, 1%nat)
  | 2%nat, b0 :: b1 :: _ => ((val b0 - 0xC0) * 64 + (val b1 - 0x80), 2%nat)
  | 3%nat, b0 :: b1 :: b2 :: _ => ((val b0 - 0xE0) * 4096 + (val b1 - 0x80) * 64 + (val b2 - 0x80), 3%nat)
  | 4%nat, b0 :: b1 :: b2 :: b3 :: _ =>
      ((val b0 - 0xF0) * 262144 + (val b1 - 0x80) * 4096 + (val b2 - 0x80) * 64 + (val b3 - 0x80), 4%nat)
  | _, _ => (0xFFFD, 1%nat)
  end.

(** The runes of a text, each with the bytes it was read from. *)
Abbreviation Rune := (Z * list byte)%type.

Fixpoint runesLoop (n : nat) (s : list byte) : list Rune :=
  match n, s with
  | S n', _ :: _ => let '(r, w) := DecodeRune s in (r, take w s) :: runesLoop n' (drop w s)
  | _, _ => []
  end.

Definition runes (s : list byte) : list Rune := runesLoop (length s) s.

(** ** Fields *)

Fixpoint fields (f : Z -> bool) (l : list Rune) (current : list byte) : list (list byte) :=
  match l with
  | [] => if bool_decide (current = []) then [] else [current]
  | (r, b) :: l' =>
      if f r then (if bool_decide (current = []) then fields f l' [] else current :: fields f l' [])
      else fields f l' (current ++ b)
  end.

(** [strings.FieldsFunc] *)
Definition FieldsFunc (s : list byte) (f : Z -> bool) : list (list byte) := fields f (runes s) [].

(** [strings.Join] *)
Fixpoint Join (l : list (list byte)) (sep : list byte) : list byte :=
  match l with
  | [] => []
  | [x] => x
  | x :: l' => x ++ sep ++ Join l' sep
  end.

(** The bytes that [regexp.QuoteMeta] puts a backslash before. *)
Definition special (c : byte) : bool := bool_decide (c ∈ str "\.+*?()|[]{}^$").

Definition QuoteMeta (s : list byte) : list byte := flat_map (fun c => if special c then [Byte.x5c; c] else [c]) s.

(** [len(utf16.Encode([]rune(s)))] *)
Definition utf16Length (s : list byte) : Z :=
  foldr (fun x n => (if 0x10000 <=? x.1 then 2 else 1) + n) 0 (runes s).

(** ** Encoding and decoding runes *)

(** What the first bytes of an encoding are. *)
Definition encoding (s : list byte) : Prop :=
  match Utf8.width s, s with
  | 1%nat, b0 :: _ => val b0 < 0x80
  | 2%nat, b0 :: b1 :: _ => 0xC2 <= val b0 <= 0xDF /\ 0x80 <= val b1 <= 0xBF
  | 3%nat, b0 :: b1 :: b2 :: _ =>
      0xE0 <= val b0 <= 0xEF /\ 0x80 <= val b1 <= 0xBF /\ 0x80 <= val b2 <= 0xBF /\
      (val b0 = 0xE0 -> 0xA0 <= val b1) /\ (val b0 = 0xED -> val b1 <= 0x9F)
  | 4%nat, b0 :: b1 :: b2 :: b3 :: _ =>
      0xF0 <= val b0 <= 0xF4 /\ 0x80 <= val b1 <= 0xBF /\ 0x80 <= val b2 <= 0xBF /\ 0x80 <= val b3 <= 0xBF /\
      (val b0 = 0xF0 -> 0x90 <= val b1) /\ (val b0 = 0xF4 -> val b1 <= 0x8F)
  | _, _ => False
  end.

Lemma width_encoding s : (0 < Utf8.width s)%nat -> encoding s.
Proof.
  unfold encoding. destruct s as [|b0 [|b1 [|b2 [|b3 l]]]]; cbn [Utf8.width]; repeat case_match; intros; try lia;
    repeat match goal with
    | E : _ && _ = true |- _ => apply andb_true_iff in E as [? ?]
    end; unfold Utf8.second3, Utf8.second4, Utf8.cont, Utf8.between in *;
    repeat match goal with
    | E : (if ?b then _ else _) = true |- _ => destruct b eqn:?
    | E : _ && _ = true |- _ => apply andb_true_iff in E as [? ?]
    end; rewrite ?Z.eqb_eq, ?Z.eqb_neq, ?Z.leb_le, ?Z.ltb_lt in *; lia.
Qed.

Lemma EncodeRune_DecodeRune s :
  (0 < Utf8.width s)%nat -> DecodeRune s = ((DecodeRune s).1, Utf8.width s) /\ Utf8.EncodeRune (DecodeRune s).1 = take (Utf8.width s) s.
Proof.
  assert (Hof : forall z b, z = val b -> byte.of_Z z = b) by (intros z b ->; apply of_val).
  intros Hw%width_encoding. unfold encoding in Hw. unfold DecodeRune.
  destruct (Utf8.width s) as [|[|[|[|[|w]]]]]; [by destruct s| | | | |by destruct s];
    destruct s as [|b0 s]; try done; pose proof (val_range b0).
  - split; [done|]. cbn [fst take]. unfold Utf8.EncodeRune. zcases. cbn. by rewrite of_val.
  - destruct s as [|b1 s]; [done|]. split; [done|]. cbn [fst take]. set (r := (val b0 - 0xC0) * 64 + (val b1 - 0x80)).
    assert (r / 64 = val b0 - 0xC0 /\ r mod 64 = val b1 - 0x80) as [E1 E2] by (unfold r; split; Z.div_mod_to_equations; lia).
    assert (0x80 <= r < 0x800) as Hr by (unfold r; lia).
    unfold Utf8.EncodeRune. zcases; cbn; rewrite E1, E2; repeat f_equal; apply Hof; lia.
  - destruct s as [|b1 [|b2 s]]; try done. split; [done|]. cbn [fst take]. set (r := (val b0 - 0xE0) * 4096 + (val b1 - 0x80) * 64 + (val b2 - 0x80)).
    assert (r / 4096 = val b0 - 0xE0 /\ r / 64 mod 64 = val b1 - 0x80 /\ r mod 64 = val b2 - 0x80) as (E1 & E2 & E3)
      by (unfold r; split_and!; Z.div_mod_to_equations; lia).
    assert (~ (0xD800 <= r <= 0xDFFF) /\ 0x800 <= r < 0x10000) as [Hs Hr] by (unfold r; lia).
    unfold Utf8.EncodeRune. zcases; cbn; rewrite E1, E2, E3; repeat f_equal; apply Hof; lia.
  - destruct s as [|b1 [|b2 [|b3 s]]]; try done. split; [done|]. cbn [fst take].
    set (r := (val b0 - 0xF0) * 262144 + (val b1 - 0x80) * 4096 + (val b2 - 0x80) * 64 + (val b3 - 0x80)).
    assert (r / 262144 = val b0 - 0xF0 /\ r / 4096 mod 64 = val b1 - 0x80 /\ r / 64 mod 64 = val b2 - 0x80 /\ r mod 64 = val b3 - 0x80) as (E1 & E2 & E3 & E4)
      by (unfold r; split_and!; Z.div_mod_to_equations; lia).
    assert (0x10000 <= r <= 0x10FFFF) as Hr by (unfold r; lia).
    unfold Utf8.EncodeRune. zcases; cbn; rewrite E1, E2, E3, E4; repeat f_equal; apply Hof; lia.
Qed.

(** ** A text and its runes *)

Definition flatten (l : list Rune) : list byte := flat_map snd l.

(** A rune with its own encoding. *)
Definition proper (x : Rune) : Prop :=
  x.2 = Utf8.EncodeRune x.1 /\ x.2 <> [] /\ forall t, DecodeRune (x.2 ++ t) = (x.1, length x.2).

(** The text in which whatever is not UTF-8 is replaced. *)
Definition clean (l : list Rune) : list Rune := map (fun x => (x.1, Utf8.EncodeRune x.1)) l.

Lemma DecodeRune_length s : s <> [] -> (0 < (DecodeRune s).2 <= length s)%nat.
Proof.
  intros Hs. pose proof (width_le s). destruct (Utf8.width s) eqn:E.
  - unfold DecodeRune. rewrite E. destruct s; [done|]. simpl. lia.
  - destruct (EncodeRune_DecodeRune s) as [-> _]; [lia|]. cbn [snd]. lia.
Qed.

Lemma DecodeRune_proper s : s <> [] -> proper ((DecodeRune s).1, Utf8.EncodeRune (DecodeRune s).1).
Proof.
  intros Hs. destruct (decide (Utf8.width s = 0%nat)) as [E|E].
  - assert (DecodeRune s = (0xFFFD, 1%nat)) as -> by (unfold DecodeRune; by rewrite E). by split_and!.
  - destruct (EncodeRune_DecodeRune s) as [Ed Ee]; [lia|]. unfold proper. cbn [fst snd]. rewrite Ee.
    pose proof (width_le s) as Hle. pose proof (width_encoding s ltac:(lia)) as He.
    assert (Hlen : length (take (Utf8.width s) s) = Utf8.width s) by (rewrite length_take; lia).
    split_and!; [done|intros E0; rewrite E0 in Hlen; simpl in Hlen; lia|]. intros t. rewrite Hlen. pose proof (width_front s t ltac:(lia)) as Hf.
    unfold encoding in He. unfold DecodeRune in *. rewrite Hf.
    destruct (Utf8.width s) as [|[|[|[|[|w]]]]]; [lia| | | | |by destruct s];
      destruct s as [|b0 [|b1 [|b2 [|b3 s]]]]; done.
Qed.

Lemma runesLoop_fuel n m s : (length s <= n)%nat -> (length s <= m)%nat -> runesLoop n s = runesLoop m s.
Proof.
  revert m s. induction n as [|n IH]; intros m s Hn Hm; [by destruct s; [destruct m|simpl in Hn; lia]|].
  destruct s as [|c s]; [by destruct m|]. destruct m as [|m]; [simpl in Hm; lia|]. cbn [runesLoop].
  pose proof (DecodeRune_length (c :: s) ltac:(done)) as Hw. destruct (DecodeRune (c :: s)) as [r w]. cbn [snd length] in *.
  f_equal. apply IH; rewrite length_drop; cbn [length]; lia.
Qed.

Lemma runes_cons s : s <> [] -> runes s = ((DecodeRune s).1, take (DecodeRune s).2 s) :: runes (drop (DecodeRune s).2 s).
Proof.
  intros Hs. pose proof (DecodeRune_length s Hs) as Hw. destruct s as [|c s]; [done|]. unfold runes at 1. cbn [length runesLoop].
  destruct (DecodeRune (c :: s)) as [r w]. cbn [fst snd length] in *. f_equal. apply runesLoop_fuel; rewrite length_drop; cbn [length]; lia.
Qed.

Lemma runes_ind (P : list byte -> Prop) :
  P [] -> (forall s, s <> [] -> P (drop (DecodeRune s).2 s) -> P s) -> forall s, P s.
Proof.
  intros H0 Hs s. remember (length s) as n eqn:En. revert s En. induction (lt_wf n) as [n _ IH]. intros s ->.
  destruct (decide (s = [])) as [->|Hne]; [done|]. apply Hs; [done|]. eapply IH; [|reflexivity].
  pose proof (DecodeRune_length s Hne). rewrite length_drop. lia.
Qed.

Lemma clean_proper s : Forall proper (clean (runes s)).
Proof.
  induction s as [|s Hs IH] using runes_ind; [constructor|]. rewrite runes_cons by done. constructor; [by apply DecodeRune_proper|done].
Qed.

Lemma runes_proper l : Forall proper l -> runes (flatten l) = l.
Proof.
  induction 1 as [|[r b] l (E & Hne & Hd) _ IH]; [done|]. cbn [flatten flat_map snd fst] in *. fold (flatten l).
  rewrite runes_cons by (by destruct b). rewrite Hd. cbn [fst snd]. by rewrite take_app_length, drop_app_length, IH.
Qed.

(** Nothing is replaced in UTF-8. *)
Lemma clean_valid s : Utf8.Valid s = true -> clean (runes s) = runes s.
Proof.
  induction s as [|s Hs IH] using runes_ind; [done|]. intros Hv. rewrite runes_cons by done. cbn [clean map fst].
  destruct (Utf8.Valid_width s Hv Hs) as [Hw Hv']. destruct (EncodeRune_DecodeRune s) as [Ed Ee]; [lia|].
  rewrite Ee. rewrite Ed in *. cbn [fst snd] in *. f_equal. by apply IH.
Qed.

(** ** Fields of a text *)

Lemma fields_nonempty f l current : current <> [] -> fields f l current <> [].
Proof.
  revert current. induction l as [|[r b] l IH]; intros current Hc; cbn [fields]; rewrite ?bool_decide_false by done; [done|].
  destruct (f r); [done|]. apply IH. by destruct current.
Qed.

(** ** Regular expressions *)

(** The tokens of the regular expressions that are built: characters that stand for
    themselves, the two operators of [.*], and everything else. *)
Inductive atom := Literal (c : byte) | AnyChar | Star | Operator (c : byte).

Fixpoint lex (s : list byte) : list atom :=
  match s with
  | [] => []
  | c :: s' =>
      if isb Byte.x5c c then
        match s' with
        | [] => [Operator c]
        | e :: s'' => (if special e then Literal e else Operator e) :: lex s''
        end
      else (if isb Byte.x2e c then AnyChar else if isb Byte.x2a c then Star
            else if special c then Operator c else Literal c) :: lex s'
  end.

Lemma lex_QuoteMeta w t : lex (QuoteMeta w ++ t) = map Literal w ++ lex t.
Proof.
  induction w as [|c w IH]; [done|]. cbn [QuoteMeta flat_map]. fold (QuoteMeta w). rewrite <- app_assoc. destruct (special c) eqn:Ec.
  - cbn [app lex]. rewrite bool_decide_true, Ec by done. cbn [map app]. by rewrite IH.
  - cbn [app lex]. rewrite !bool_decide_false by (intros ->; done). rewrite Ec. cbn [map app]. by rewrite IH.
Qed.

End Text.
