(* ===== verification/Unmarshal.v ===== *)
(** * JSON into Go values ([encoding/json], [strconv.ParseFloat])

    [json.Unmarshal] into a map of raw values, into a slice of raw values and into a
    float64.  The text is scanned as a whole before anything is decoded. *)

From S2P Require Import Prelude Bytes Utf8 Decimal Json.
Import Json.
Open Scope Z_scope.

Module Unmarshal.

(** ** Documents *)

(** The value that [data] holds, without the space around it. *)
Definition document (data : list byte) : result (list byte) :=
  match readValue (skipSpace data) with
  | Some (v, rest) => if bool_decide (skipSpace rest = []) then Ok v else Err ErrJSON
  | None => Err ErrJSON
  end.

(** The members of an object whose brace was read: the name and the raw value. *)
Fixpoint readMembers (n : nat) (s : list byte) : option (list (list byte * list byte)) :=
  match n with
  | O => None
  | S n' =>
      s ← expect Byte.x22 s;
      '(body, s) ← stringBody s;
      s ← expect Byte.x3a (skipSpace s);
      '(v, s) ← readValue (skipSpace s);
      match expect Byte.x2c (skipSpace s) with
      | Some s => rest ← readMembers n' (skipSpace s); Some ((unquote body, v) :: rest)
      | None => _ ← expect Byte.x7d (skipSpace s); Some [(unquote body, v)]
      end
  end.

(** The elements of an array whose bracket was read. *)
Fixpoint readElements (n : nat) (s : list byte) : option (list (list byte)) :=
  match n with
  | O => None
  | S n' =>
      '(v, s) ← readValue s;
      match expect Byte.x2c (skipSpace s) with
      | Some s => rest ← readElements n' (skipSpace s); Some (v :: rest)
      | None => _ ← expect Byte.x5d (skipSpace s); Some [v]
      end
  end.

(** The text of an object or of an array: every member and element takes at least one
    byte, so that the length is enough fuel. *)
Definition objectMembers (v : list byte) : option (list (list byte * list byte)) :=
  s ← expect Byte.x7b v;
  match expect Byte.x7d (skipSpace s) with
  | Some _ => Some []
  | None => readMembers (length s) (skipSpace s)
  end.

Definition arrayElements (v : list byte) : option (list (list byte)) :=
  s ← expect Byte.x5b v;
  match expect Byte.x5d (skipSpace s) with
  | Some _ => Some []
  | None => readElements (length s) (skipSpace s)
  end.

(** What is decoded from null is the nil value; any other kind of value is a type error. *)
Definition isNull (v : list byte) : bool := bool_decide (head v = Some Byte.x6e).

Definition orError {A} (o : option A) : result A := match o with Some a => Ok a | None => Err ErrJSON end.

Abbreviation RawMap := (gmap (list byte) (list byte)).

(** A value into a map[string]json.RawMessage: the last of several members of a name
    stays. *)
Definition rawMap (v : list byte) : result (option RawMap) :=
  if isNull v then Ok None
  else Some <$> ((fun l => foldl (fun m x => <[x.1 := x.2]> m) (∅ : RawMap) l) <$> orError (objectMembers v)).

Definition UnmarshalMap (data : list byte) : result (option RawMap) := document data ≫= rawMap.

(** A value into a []json.RawMessage *)
Definition UnmarshalArray (data : list byte) : result (option (list (list byte))) :=
  document data ≫= fun v => if isNull v then Ok None else Some <$> orError (arrayElements v).

(** ** [strconv.ParseFloat] on the text of a JSON number *)

Definition digits (s : list byte) : list byte := take (length s - length (skipDigits s)) s.

(** The exponent of [readFloat], which stops to grow at 10000. *)
Definition exponentValue (ds : list byte) : Z :=
  foldl (fun e b => if e <? 10000 then e * 10 + digit_value b else e) 0 ds.

Definition readExponent (s : list byte) : Z :=
  match s with
  | c :: s' =>
      if isb Byte.x65 c || isb Byte.x45 c then
        (if bool_decide (head s' = Some Byte.x2d) then -1 else 1) * exponentValue (digits (skipSign s'))
      else 0
  | [] => 0
  end.

(** The number is [(-1)^negative * mantissa * 10^exponent]. *)
Definition readFloat (text : list byte) : bool * Z * Z :=
  let s := skipMinus text in
  let s1 := skipDigits s in
  let '(frac, s2) := match s1 with
                     | c :: s' => if isb Byte.x2e c then (digits s', skipDigits s') else ([], s1)
                     | [] => ([], [])
                     end in
  (bool_decide (head text = Some Byte.x2d), value (digits s ++ frac), readExponent s2 - len frac).

(** To nearest, ties to even. *)
Definition roundHalfEven (n d : Z) : Z :=
  let q := n / d in
  let r := n mod d in
  if 2 * r <? d then q else if d <? 2 * r then q + 1 else if Z.even q then q else q + 1.

(** The greatest [k] with [2^k <= n/d]. *)
Definition floorLog2 (n d : Z) : Z :=
  let k := Z.log2 n - Z.log2 d in
  if d * 2 ^ Z.max k 0 <=? n * 2 ^ Z.max (- k) 0 then k else k - 1.

(** The float64 nearest to [n/d], as a significand and a power of two; none beyond the
    greatest float. *)
Definition roundFloat (n d : Z) : option (Z * Z) :=
  if n =? 0 then Some (0, 0) else
  let e := Z.max (-1074) (floorLog2 n d - 52) in
  let m := roundHalfEven (n * 2 ^ Z.max (- e) 0) (d * 2 ^ Z.max e 0) in
  if 2 ^ 1024 <=? m * 2 ^ Z.max e 0 then None else Some (m, e).

(** The float as an integer, if it is one. *)
Definition integral (f : Z * Z) : option Z :=
  let '(m, e) := f in
  if 0 <=? e then Some (m * 2 ^ e) else if m mod 2 ^ (- e) =? 0 then Some (m / 2 ^ (- e)) else None.

(** [json.Unmarshal] into a float64 that is looked at as an integer: the outer option is
    a number that is not one. *)
Definition UnmarshalInteger (data : list byte) : result (option Z) :=
  v ← document data;
  match v with
  | c :: _ =>
      if isNull v then Ok (Some 0)
      else if isb Byte.x2d c || is_digit c then
        let '(negative, mantissa, exponent) := readFloat v in
        f ← orError (roundFloat (mantissa * 10 ^ Z.max exponent 0) (10 ^ Z.max (- exponent) 0));
        Ok ((fun n => if (negative : bool) then - n else n) <$> integral f)
      else Err ErrJSON
  | [] => Err ErrJSON
  end.

(** ** Documents are read back *)

Lemma document_value d v : isValue d v -> Z.of_nat d <= maxNestingDepth -> document v = Ok v.
Proof.
  intros Hv Hd. unfold document. pose proof (skipSpace_starts v [] (value_starts _ _ Hv)) as E. rewrite app_nil_r in E. rewrite E.
  pose proof (readValue_render d v [] Hv Hd I) as Hr. rewrite app_nil_r in Hr. by rewrite Hr.
Qed.

Lemma document_yields data : yields (document data) (fun v => exists rest, readValue (skipSpace data) = Some (v, rest)).
Proof. unfold document. destruct (readValue _) as [[v rest]|] eqn:E; [|done]. case_bool_decide; [|done]. by exists rest. Qed.

Lemma orError_yields {A} (o : option A) : yields (orError o) (fun _ => True).
Proof. by destruct o. Qed.

Lemma rawMap_yields v : yields (rawMap v) (fun _ => True).
Proof. unfold rawMap. destruct (isNull v); [done|]. by destruct (objectMembers v). Qed.

Lemma UnmarshalMap_yields data : yields (UnmarshalMap data) (fun _ => True).
Proof. eapply yields_bind; [apply document_yields|]. intros v _. apply rawMap_yields. Qed.

Lemma UnmarshalArray_yields data : yields (UnmarshalArray data) (fun _ => True).
Proof. eapply yields_bind; [apply document_yields|]. intros v _. destruct (isNull v); [done|]. by destruct (arrayElements v). Qed.

Lemma UnmarshalInteger_yields data : yields (UnmarshalInteger data) (fun _ => True).
Proof.
  eapply yields_bind; [apply document_yields|]. intros v _. destruct v as [|c v]; [done|]. destruct (isNull _); [done|]. destruct (_ || _); [|done].
  destruct (readFloat _) as [[n m] x]. eapply yields_bind; [apply orError_yields|]. done.
Qed.

Lemma readMembers_render d l n :
  Forall (memberOk d) l -> l <> [] -> Z.of_nat d <= maxNestingDepth -> (length l <= n)%nat ->
  readMembers n (members l ++ [Byte.x7d]) = Some l.
Proof.
  intros Hl Hne Hd. revert n. induction Hl as [|[k v] l [Hk Hv] Hl IH]; intros n Hn; [done|]. cbn [fst snd length] in *.
  destruct n as [|n]; [lia|]. destruct (members_cons k v l [Byte.x7d] Hk) as (body & Hbody & E & Hread). rewrite E. cbn [readMembers].
  rewrite expect_cons. cbn [mbind option_bind]. rewrite Hread. cbn [mbind option_bind]. rewrite skipSpace_cons, expect_cons by done. cbn [mbind option_bind].
  set (tail := match l with [] => _ | _ => _ end). assert (Hends : ends tail) by (unfold tail; destruct l; apply ends_punctuation; auto).
  rewrite (skipSpace_starts _ _ (value_starts _ _ Hv)), (readValue_render d) by done. cbn [mbind option_bind]. rewrite Hbody. unfold tail in *.
  destruct l as [|[k' v'] l]; [done|]. rewrite skipSpace_cons, expect_cons by done.
  destruct (members_cons k' v' l [Byte.x7d]) as (body' & _ & E' & _); [by apply Forall_cons in Hl as [[? _] _]|].
  rewrite E', skipSpace_cons by done. rewrite <- E', IH by (done || lia). done.
Qed.

Lemma readElements_render d l n :
  Forall (isValue d) l -> l <> [] -> Z.of_nat d <= maxNestingDepth -> (length l <= n)%nat ->
  readElements n (comma l ++ [Byte.x5d]) = Some l.
Proof.
  intros Hl Hne Hd. revert n. induction Hl as [|v l Hv Hl IH]; intros n Hn; [done|]. cbn [length] in *.
  destruct n as [|n]; [lia|]. rewrite comma_cons. cbn [readElements].
  set (tail := match l with [] => _ | _ => _ end). assert (Hends : ends tail) by (unfold tail; destruct l; apply ends_punctuation; auto).
  rewrite (readValue_render d) by done. cbn [mbind option_bind]. unfold tail in *. destruct l as [|w l]; [done|].
  rewrite skipSpace_cons, expect_cons by done. assert (Hw : starts w) by (apply Forall_cons in Hl as [Hw _]; apply Hw).
  rewrite comma_cons, skipSpace_starts by done. rewrite <- comma_cons, IH by (done || lia). done.
Qed.

Lemma values_nonempty d l : Forall (isValue d) l -> forall v, v ∈ l -> v <> [].
Proof. intros Hl v Hv ->. rewrite Forall_forall in Hl. by destruct (value_starts _ _ (Hl _ Hv)). Qed.

Lemma objectMembers_render d l :
  Forall (memberOk d) l -> Z.of_nat d <= maxNestingDepth -> objectMembers (object l) = Some l.
Proof.
  intros Hl Hd. unfold objectMembers, object. rewrite expect_cons. cbn [mbind option_bind].
  destruct l as [|[k v] l]; [done|].
  assert (Hlong : (length ((k, v) :: l) <= length (members ((k, v) :: l)))%nat).
  { pose proof (comma_length (map (fun m => member m.1 m.2) ((k, v) :: l))) as Hc. rewrite length_map in Hc.
    enough (length ((k, v) :: l) <= length (members ((k, v) :: l)) + 0)%nat by lia. apply Hc. intros w (m & -> & _)%list_elem_of_fmap. done. }
  destruct (members_cons k v l [Byte.x7d]) as (body & _ & E & _); [by apply Forall_cons in Hl as [[? _] _]|].
  rewrite E, skipSpace_cons by done. cbn [expect]. rewrite bool_decide_false by done. rewrite <- E.
  apply (readMembers_render d); [done..|]. rewrite length_app. lia.
Qed.

Lemma arrayElements_render d l :
  Forall (isValue d) l -> Z.of_nat d <= maxNestingDepth -> arrayElements (array l) = Some l.
Proof.
  intros Hl Hd. unfold arrayElements, array. rewrite expect_cons. cbn [mbind option_bind].
  destruct l as [|v l]; [done|]. pose proof (comma_length (v :: l) (values_nonempty d _ Hl)) as Hlong.
  assert (Hv : starts v) by (apply Forall_cons in Hl as [Hv _]; apply Hv).
  rewrite comma_cons, skipSpace_starts, expect_starts by auto. rewrite <- comma_cons.
  apply (readElements_render d); [done..|]. rewrite length_app. lia.
Qed.

(** An object with different names is read into the map of its members. *)
Lemma UnmarshalMap_object d l :
  membersOk d l -> Z.of_nat (S d) <= maxNestingDepth ->
  UnmarshalMap (render (JObject l)) = Ok (Some (foldl (fun m x => <[x.1 := x.2]> m) ∅ (rendered l))).
Proof.
  intros Hl Hd. unfold UnmarshalMap. rewrite (document_value (S d)) by (try apply render_value; done). cbn [mbind result_bind]. unfold rawMap.
  cbn [render]. change (isNull (object (rendered l))) with false.
  rewrite (objectMembers_render d) by (try apply rendered_ok; done || lia). done.
Qed.

Lemma rendered_lookup (l : list (list byte * json)) k j :
  NoDup l.*1 -> (k, j) ∈ l -> foldl (fun m x => <[x.1 := x.2]> m) (∅ : RawMap) (rendered l) !! k = Some (render j).
Proof.
  intros Hnd Hin. rewrite (foldl_insert fst snd). apply elem_of_list_to_map_1.
  - rewrite fmap_reverse, reverse_Permutation. change (NoDup ((fun x => (x.1, x.2)) <$> rendered l).*1).
    rewrite <- list_fmap_compose. change (NoDup (rendered l).*1). by rewrite rendered_keys.
  - rewrite elem_of_reverse. apply list_elem_of_fmap. exists (k, render j). split; [done|]. apply list_elem_of_fmap. by exists (k, j).
Qed.

Lemma rendered_none (l : list (list byte * json)) k :
  k ∉ l.*1 -> foldl (fun m x => <[x.1 := x.2]> m) (∅ : RawMap) (rendered l) !! k = None.
Proof.
  intros Hk. rewrite (foldl_insert fst snd). apply not_elem_of_list_to_map_1.
  rewrite fmap_reverse, elem_of_reverse. change (k ∉ ((fun x => (x.1, x.2)) <$> rendered l).*1).
  rewrite <- list_fmap_compose. change (k ∉ (rendered l).*1). by rewrite rendered_keys.
Qed.

Lemma UnmarshalArray_array d l :
  Forall (wf d) l -> Z.of_nat (S d) <= maxNestingDepth ->
  UnmarshalArray (render (JArray l)) = Ok (Some (map render l)).
Proof.
  intros Hl Hd. unfold UnmarshalArray. rewrite (document_value (S d)) by (try apply render_value; done). cbn [mbind result_bind].
  cbn [render]. change (isNull (array (map render l))) with false.
  rewrite (arrayElements_render d); [done| |lia]. apply Forall_map. eapply Forall_impl; [exact Hl|]. intros j. apply render_value.
Qed.

(** ** Integers up to 2^53 are exact *)

Lemma skipDigits_all t : forallb is_digit t = true -> skipDigits t = [].
Proof. induction t as [|c t IH]; [done|]. cbn. intros [-> Ht]%andb_true_iff. auto. Qed.

Lemma readFloat_digits t : forallb is_digit t = true -> t <> [] -> readFloat t = (false, value t, 0).
Proof.
  intros Ht Hne. assert (Hm : skipMinus t = t /\ head t <> Some Byte.x2d).
  { destruct t as [|c t]; [done|]. cbn in Ht. apply andb_true_iff in Ht as [Hc _]. split; [|intros [= ->]; done]. cbn. rewrite bool_decide_false; [done|]. by intros ->. }
  unfold readFloat. rewrite (proj1 Hm), (skipDigits_all t Ht), bool_decide_false by apply Hm.
  unfold digits. rewrite (skipDigits_all t Ht). cbn [length]. rewrite Nat.sub_0_r, firstn_all, app_nil_r. done.
Qed.

Lemma roundHalfEven_exact n d : 0 < d -> roundHalfEven (n * d) d = n.
Proof. intros Hd. unfold roundHalfEven. rewrite Z.div_mul, Z.mod_mul by lia. destruct (Z.ltb_spec (2 * 0) d); [done|lia]. Qed.

Lemma floorLog2_integer n : 0 < n -> floorLog2 n 1 = Z.log2 n.
Proof.
  intros Hn. unfold floorLog2. change (Z.log2 1) with 0. rewrite Z.sub_0_r. pose proof (Z.log2_spec n Hn). pose proof (Z.log2_nonneg n).
  rewrite Z.max_l, Z.max_r by lia. change (2 ^ 0) with 1. destruct (Z.leb_spec (1 * 2 ^ Z.log2 n) (n * 1)); [done|lia].
Qed.

Lemma roundFloat_integer n : 0 <= n < 2 ^ 53 -> exists f, roundFloat n 1 = Some f /\ integral f = Some n.
Proof.
  intros Hn. unfold roundFloat. destruct (Z.eqb_spec n 0) as [->|Hne]; [by exists (0, 0)|].
  rewrite floorLog2_integer by lia. assert (Hl : 0 <= Z.log2 n <= 52).
  { split; [apply Z.log2_nonneg|]. enough (Z.log2 n < 53) by lia. apply Z.log2_lt_pow2; lia. }
  rewrite (Z.max_r (-1074)) by lia. set (e := Z.log2 n - 52). assert (He : -52 <= e <= 0) by (unfold e; lia).
  rewrite (Z.max_r e) by lia. rewrite Z.max_l by lia. change (2 ^ 0) with 1. rewrite !Z.mul_1_r.
  assert (Hp : 0 < 2 ^ (- e)) by (apply Z.pow_pos_nonneg; lia).
  pose proof (roundHalfEven_exact (n * 2 ^ (- e)) 1 ltac:(lia)) as Hr. rewrite Z.mul_1_r in Hr. rewrite Hr.
  assert (Hsmall : n * 2 ^ (- e) < 2 ^ 1024).
  { eapply Z.lt_le_trans with (2 ^ 53 * 2 ^ 52); [|rewrite <- Z.pow_add_r by lia; apply Z.pow_le_mono_r; lia].
    pose proof (Z.pow_le_mono_r 2 (- e) 52 ltac:(lia) ltac:(lia)). nia. }
  destruct (Z.leb_spec (2 ^ 1024) (n * 2 ^ (- e))); [lia|]. eexists. split; [reflexivity|]. unfold integral.
  destruct (Z.leb_spec 0 e) as [He0|He0].
  - assert (e = 0) as -> by lia. change (2 ^ 0) with 1. by rewrite !Z.mul_1_r.
  - rewrite Z.mod_mul, Z.div_mul by lia. done.
Qed.

(** The numbers that Go and JavaScript print for integers below 2^53 are read exactly. *)
Lemma UnmarshalInteger_format n : 0 <= n < 2 ^ 53 -> UnmarshalInteger (FormatUint n) = Ok (Some n).
Proof.
  intros Hn. assert (Hu : is_u64 n) by (unfold is_u64, MaxUint64; lia).
  destruct (FormatUint_spec n Hu) as [Hv (Hd & Hne & _)]. unfold UnmarshalInteger.
  rewrite (document_value 0) by (try apply number_value, FormatUint_number; done). cbn [mbind result_bind].
  pose proof (readFloat_digits _ Hd Hne) as Hr. destruct (FormatUint n) as [|c t]; [done|].
  pose proof Hd as Hc. cbn [forallb] in Hc. apply andb_true_iff in Hc as [Hc _].
  assert (isNull (c :: t) = false) as -> by (apply bool_decide_eq_false; intros [= ->]; done).
  rewrite Hc, orb_true_r, Hr, Hv. change (2 ^ Z.max 0 0) with 1. change (10 ^ Z.max 0 0) with 1. change (10 ^ Z.max (- 0) 0) with 1. rewrite Z.mul_1_r.
  destruct (roundFloat_integer n Hn) as (f & -> & Hi). cbn [orError mbind result_bind]. by rewrite Hi.
Qed.

Example half_rounds : UnmarshalInteger (str "9007199254740993") = Ok (Some 9007199254740992).
Proof. vm_compute. reflexivity. Qed.
Example fraction : UnmarshalInteger (str "-12.5e1") = Ok (Some (-125)) /\ UnmarshalInteger (str "1.5") = Ok None /\ UnmarshalInteger (str "1e999") = Err ErrJSON.
Proof. vm_compute. auto. Qed.

End Unmarshal.
