(* ===== verification/Cursor.v ===== *)
(** * Slicing and encoding/binary

    What the decoders that keep an explicit offset use of the standard library:
    slice expressions with their bounds checks, [make] with its limit, and the
    variable-length integers of encoding/binary. *)

From S2P Require Import Prelude Bytes.
Open Scope Z_scope.

(** [data[lo:hi]] *)
Definition slice (data : list byte) (lo hi : Z) : result (list byte) :=
  if (0 <=? lo) && (lo <=? hi) && (hi <=? len data)
  then Ok (take (Z.to_nat (hi - lo)) (drop (Z.to_nat lo) data)) else Panic.

(** [data[lo:]] *)
Definition slice_from (data : list byte) (lo : Z) : result (list byte) :=
  slice data lo (len data).

(** [data[i]] *)
Definition index (data : list byte) (i : Z) : result byte :=
  if i <? 0 then Panic
  else match data !! Z.to_nat i with Some b => Ok b | None => Panic end.

(** The largest block of memory the runtime can hand out (48-bit addresses);
    [make([]T, n)] panics when [n] elements of [T] are larger. *)
Definition maxAlloc : Z := 2 ^ 48.

Definition allocated {A} (l : list A) : Prop := len l <= maxAlloc.

Definition make_slice (elemSize n : Z) : result unit :=
  if maxAlloc <? elemSize * n then Panic else Ok tt.

(** ** Varints *)

(** [binary.AppendUvarint]: a uint64 takes 10 bytes at most. *)
Fixpoint uvarint_bytes (fuel : nat) (x : Z) : list byte :=
  match fuel with
  | O => []
  | S f =>
      if 0x80 <=? x then byte.of_Z (Z.lor (u8 x) 0x80) :: uvarint_bytes f (Z.shiftr x 7)
      else [byte.of_Z (u8 x)]
  end.

Definition AppendUvarint (buf : list byte) (x : Z) : list byte := buf ++ uvarint_bytes 10 x.

(** [binary.Uvarint]: the value and the number of bytes read, 0 when the buffer is
    too small and negative when the value overflows. *)
Fixpoint uvarint_loop (i x s : Z) (buf : list byte) : Z * Z :=
  match buf with
  | [] => (0, 0)
  | b :: buf' =>
      if i =? 10 then (0, - (i + 1))
      else if val b <? 0x80 then
        if (i =? 9) && (1 <? val b) then (0, - (i + 1))
        else (Z.lor x (u64 (Z.shiftl (val b) s)), i + 1)
      else uvarint_loop (i + 1) (Z.lor x (u64 (Z.shiftl (Z.land (val b) 0x7f) s))) (s + 7) buf'
  end.

Definition Uvarint (buf : list byte) : Z * Z := uvarint_loop 0 0 0 buf.

(** ** Positions *)

(** [e] lies at [off] in [data]. *)
Definition at_ (data : list byte) (off : Z) (e : list byte) : Prop :=
  exists pre post, data = pre ++ e ++ post /\ off = len pre.

Lemma at_app data off e1 e2 :
  at_ data off (e1 ++ e2) -> at_ data off e1 /\ at_ data (off + len e1) e2.
Proof.
  intros (pre & post & -> & ->). split.
  - exists pre, (e2 ++ post). by rewrite <- app_assoc.
  - exists (pre ++ e1), post. by rewrite len_app, <- !app_assoc.
Qed.

Lemma at_bounds data off e : at_ data off e -> 0 <= off /\ off + len e <= len data.
Proof.
  intros (pre & post & -> & ->). rewrite !len_app.
  pose proof (len_nonneg pre). pose proof (len_nonneg post). lia.
Qed.

Lemma at_whole data : at_ data 0 data.
Proof. exists [], []. by rewrite app_nil_r. Qed.

Lemma slice_at data off e hi : at_ data off e -> hi = off + len e -> slice data off hi = Ok e.
Proof.
  intros H ->. pose proof (at_bounds _ _ _ H). destruct H as (pre & post & -> & ->).
  unfold slice. pose proof (len_nonneg e). zcases. simpl. f_equal.
  rewrite drop_len_app by (unfold len; lia). apply take_len_app. unfold len; lia.
Qed.

Lemma slice_from_at data off e : at_ data off e -> exists post, slice_from data off = Ok (e ++ post).
Proof.
  intros H. pose proof (at_bounds _ _ _ H). destruct H as (pre & post & -> & ->).
  exists post. apply slice_at; [|by rewrite !len_app].
  exists pre, []. by rewrite app_nil_r.
Qed.

Lemma index_at data off b : at_ data off [b] -> index data off = Ok b.
Proof.
  intros H. pose proof (at_bounds _ _ _ H). destruct H as (pre & post & -> & ->).
  unfold index. zcases. rewrite lookup_app_r by (unfold len; lia).
  replace (Z.to_nat (len pre) - length pre)%nat with 0%nat by (unfold len; lia). done.
Qed.

(** A slice that stays inside the data. *)
Lemma slice_inside data lo hi :
  0 <= lo -> lo <= hi -> hi <= len data ->
  exists e, slice data lo hi = Ok e /\ at_ data lo e /\ len e = hi - lo.
Proof.
  intros H1 H2 H3. exists (take (Z.to_nat (hi - lo)) (drop (Z.to_nat lo) data)).
  unfold slice. zcases. split; [done|]. split.
  - exists (take (Z.to_nat lo) data), (drop (Z.to_nat (hi - lo)) (drop (Z.to_nat lo) data)).
    rewrite take_drop, take_drop. split; [done|]. unfold len in *. rewrite length_take. lia.
  - unfold len in *. rewrite length_take, length_drop. lia.
Qed.

(** ** Varint round trip *)

Lemma land_shiftl_low x y s : 0 <= s -> 0 <= x < 2 ^ s -> Z.land x (Z.shiftl y s) = 0.
Proof.
  intros Hs Hx. apply Z.bits_inj'. intros n Hn. rewrite Z.land_spec, Z.bits_0.
  destruct (Z.ltb_spec n s).
  - rewrite Z.shiftl_spec_low by lia. apply andb_false_r.
  - rewrite (Z.testbit_eqb x n) by lia. rewrite Z.div_small; [done|].
    split; [lia|]. apply Z.lt_le_trans with (2 ^ s); [lia|]. apply Z.pow_le_mono_r; lia.
Qed.

Lemma lor_add x y s : 0 <= s -> 0 <= x < 2 ^ s -> Z.lor x (Z.shiftl y s) = x + y * 2 ^ s.
Proof.
  intros Hs Hx. pose proof (land_shiftl_low x y s Hs Hx) as Hl.
  rewrite <- Z.lxor_lor, <- Z.add_nocarry_lxor by done.
  by rewrite Z.shiftl_mul_pow2.
Qed.

(** A continuation byte keeps the low seven bits. *)
Lemma continuation_byte x :
  let c := byte.of_Z (Z.lor (u8 x) 0x80) in 0x80 <= val c /\ Z.land (val c) 0x7f = x mod 2 ^ 7.
Proof.
  assert (H : forall b : byte, let c := byte.of_Z (Z.lor (val b) 0x80) in
    (0x80 <=? val c) && (Z.land (val c) 0x7f =? val b mod 2 ^ 7) = true).
  { apply forall_bytes. vm_compute. reflexivity. }
  intros c. specialize (H (byte.of_Z (u8 x))).
  pose proof (Z.mod_pos_bound x (2 ^ 8) ltac:(lia)) as Hx.
  rewrite val_of_Z in H by exact Hx. cbv zeta in H. fold c in H.
  apply andb_true_iff in H as [H1 H2]. split; [lia|].
  apply Z.eqb_eq in H2. rewrite H2. unfold u8.
  apply Z.mod_mod_divide. by exists 2.
Qed.

Lemma uvarint_loop_bytes n i x s v post :
  i = 10 - Z.of_nat n -> s = 7 * i -> (1 <= n <= 10)%nat ->
  0 <= x < 2 ^ s -> 0 <= v -> v * 2 ^ s < 2 ^ 64 ->
  uvarint_loop i x s (uvarint_bytes n v ++ post) =
  (x + v * 2 ^ s, i + len (uvarint_bytes n v)).
Proof.
  revert i x s v. induction n as [|n IH]; intros i x s v Hi Hs Hn Hx Hv Hb; [lia|].
  cbn [uvarint_bytes]. destruct (Z.leb_spec 0x80 v) as [Hge|Hlt].
  - assert (Hn' : (1 <= n)%nat).
    { destruct n; [|lia]. exfalso. replace s with 63 in Hb by lia. lia. }
    destruct (continuation_byte v) as [Hc1 Hc2]. cbn [app uvarint_loop].
    destruct (Z.eqb_spec i 10); [lia|]. destruct (Z.ltb_spec (val (byte.of_Z (Z.lor (u8 v) 0x80))) 0x80); [lia|].
    rewrite Hc2. pose proof (Z.mod_pos_bound v (2 ^ 7) ltac:(lia)) as Hm.
    pose proof (Z.div_mod v (2 ^ 7) ltac:(lia)) as Hd.
    assert (Hq : 0 <= v / 2 ^ 7) by (apply Z.div_pos; lia).
    assert (Hp : 0 < 2 ^ s) by lia.
    assert (Hsp : 2 ^ (s + 7) = 2 ^ s * 2 ^ 7) by (apply Z.pow_add_r; lia).
    rewrite u64_small.
    2: { unfold is_u64, MaxUint64. rewrite Z.shiftl_mul_pow2 by lia. nia. }
    rewrite lor_add, Z.shiftr_div_pow2, IH by (lia || nia).
    rewrite len_cons, Hsp. f_equal; [|lia]. nia.
  - cbn [app uvarint_loop]. unfold u8. rewrite (Z.mod_small v) by lia. rewrite val_of_Z by lia.
    destruct (Z.eqb_spec i 10); [lia|]. destruct (Z.ltb_spec v 0x80); [|lia].
    assert (Hi9 : ((i =? 9) && (1 <? v)) = false).
    { destruct (Z.eqb_spec i 9); [|done]. simpl. apply Z.ltb_ge. replace s with 63 in Hb by lia. lia. }
    rewrite Hi9, u64_small, lor_add.
    + change (len [byte.of_Z v]) with 1. done.
    + lia.
    + lia.
    + unfold is_u64, MaxUint64. rewrite Z.shiftl_mul_pow2 by lia. nia.
Qed.

(** A uint64 is read back, whatever follows it. *)
Lemma Uvarint_bytes v post :
  is_u64 v -> Uvarint (AppendUvarint [] v ++ post) = (v, len (AppendUvarint [] v)).
Proof.
  unfold is_u64, MaxUint64. intros Hv. unfold Uvarint, AppendUvarint. rewrite app_nil_l.
  generalize (uvarint_loop_bytes 10 0 0 0 v post). generalize (uvarint_bytes 10 v). intros l ->; [|lia..].
  f_equal; lia.
Qed.

Lemma AppendUvarint_app buf v : AppendUvarint buf v = buf ++ AppendUvarint [] v.
Proof. done. Qed.

Lemma AppendUvarint_pos v : 0 < len (AppendUvarint [] v).
Proof.
  assert (Hne : forall n, uvarint_bytes (S n) v <> []) by (intros n; cbn [uvarint_bytes]; by case_match).
  unfold AppendUvarint. rewrite app_nil_l. specialize (Hne 9%nat).
  destruct (uvarint_bytes 10 v) as [|b l]; [done|]. rewrite len_cons. pose proof (len_nonneg l). lia.
Qed.

(** What is read is a uint64 and lies inside the buffer. *)
Lemma uvarint_loop_inside i x s buf v n :
  0 <= i -> s = 7 * i -> is_u64 x -> uvarint_loop i x s buf = (v, n) -> 0 < n ->
  i < n <= i + len buf /\ is_u64 v.
Proof.
  assert (Hor : forall a b, is_u64 a -> is_u64 (Z.lor a (u64 b))).
  { unfold is_u64, MaxUint64, u64. intros a b Ha.
    pose proof (Z.mod_pos_bound b (2 ^ 64) ltac:(lia)). split; [apply Z.lor_nonneg; lia|].
    apply Z.lt_le_pred. destruct (Z.eq_dec (Z.lor a (b mod 2 ^ 64)) 0) as [->|]; [lia|].
    assert (0 <= Z.lor a (b mod 2 ^ 64)) by (apply Z.lor_nonneg; lia).
    apply Z.log2_lt_pow2; [lia|]. rewrite Z.log2_lor by lia.
    assert (forall z, 0 <= z < 2 ^ 64 -> Z.log2 z < 64) as Hlog.
    { intros z Hz. destruct (Z.eq_dec z 0) as [->|]; [done|]. apply Z.log2_lt_pow2; lia. }
    apply Z.max_lub_lt; apply Hlog; lia. }
  revert i x s. induction buf as [|b buf IH]; intros i x s Hi Hs Hx; simpl.
  - intros [= <- <-]. lia.
  - destruct (Z.eqb_spec i 10); [intros [= <- <-]; lia|].
    destruct (val b <? 0x80).
    + destruct ((i =? 9) && (1 <? val b)); intros [= <- <-] Hn; [lia|].
      rewrite len_cons. pose proof (len_nonneg buf). split; [lia|]. by apply Hor.
    + intros E Hn. apply IH in E; [|lia|lia|by apply Hor|done].
      destruct E as [E ?]. rewrite len_cons. split; [lia|done].
Qed.

Lemma Uvarint_inside buf v n :
  Uvarint buf = (v, n) -> 0 < n -> n <= len buf /\ is_u64 v.
Proof.
  intros E Hn. apply uvarint_loop_inside in E as [? ?]; [by split; [lia|]|lia|lia| |done].
  unfold is_u64, MaxUint64. lia.
Qed.
