(* ===== verification/Runs.v ===== *)
(** * Runs: state, errors, panics and fuel

    The monad of the stateful components: a run from a state [S] ends with an
    outcome and a state, or exhausts the fuel of a recursion ([None]).  [wp]
    carries what is shown of runs from step to step. *)

From S2P Require Import Prelude.
Open Scope Z_scope.

(** An operation of a component with state [W]. *)
Definition Op (W A : Type) : Type := W -> result A * W.

(** The order in which [range] walks a Go map: any enumeration of it. *)
Class MapRange (W : Type) := {
  range : forall {K V} `{Countable K}, gmap K V -> W -> list (K * V);
  range_perm : forall {K V} `{Countable K} (m : gmap K V) w, range m w ≡ₚ map_to_list m }.

Definition Run (S A : Type) : Type := S -> option (result A * S).

#[global] Instance run_ret {S} : MRet (Run S) := fun A a s => Some (Ok a, s).
#[global] Instance run_bind {S} : MBind (Run S) := fun A B f m s =>
  match m s with
  | Some (Ok a, s') => f a s'
  | Some (Err e, s') => Some (Err e, s')
  | Some (Panic, s') => Some (Panic, s')
  | None => None
  end.

Definition lift {S A} (r : result A) : Run S A := fun s => Some (r, s).

Definition exhausted {S A} : Run S A := fun _ => None.

(** [if err := m; err != nil { log }]: an error is dropped, a panic is not. *)
Definition dropError {S} (m : Run S unit) : Run S unit := fun s =>
  match m s with
  | Some (Err _, s') => Some (Ok tt, s')
  | r => r
  end.

(** [for _, x := range xs { if err := f(x); err != nil { return err } }] *)
Fixpoint forEach {S A} (f : A -> Run S unit) (xs : list A) : Run S unit :=
  match xs with
  | [] => mret tt
  | x :: xs' => f x ≫= fun _ => forEach f xs'
  end.

(** [wp t m s Q]: the run of [m] from [s] ends in an outcome and a state that
    satisfy [Q]; with [t = true] it also has enough fuel. *)
Definition wp {S A} (t : bool) (m : Run S A) (s : S) (Q : result A -> S -> Prop) : Prop :=
  match m s with Some (r, s') => Q r s' | None => t = false end.

Section Rules.
Context {S : Type}.

Lemma wp_mono {A} t (m : Run S A) s (Q Q' : result A -> S -> Prop) :
  wp t m s Q -> (forall r s', Q r s' -> Q' r s') -> wp t m s Q'.
Proof. unfold wp. destruct (m s) as [[r s']|]; auto. Qed.

Lemma wp_bind {A B} t (m : Run S A) (f : A -> Run S B) s Q :
  wp t m s (fun r s' => match r with
                        | Ok a => wp t (f a) s' Q
                        | Err e => Q (Err e) s'
                        | Panic => Q Panic s'
                        end) ->
  wp t (m ≫= f) s Q.
Proof. unfold wp, mbind, run_bind. destruct (m s) as [[[a|e|] s']|]; auto. Qed.

Lemma wp_ret {A} t (a : A) (s : S) (Q : result A -> S -> Prop) : Q (Ok a) s -> wp t (mret a) s Q.
Proof. done. Qed.

Lemma wp_lift {A} t (r : result A) s (Q : result A -> S -> Prop) : Q r s -> wp t (lift r) s Q.
Proof. done. Qed.

Lemma wp_dropError t (m : Run S unit) s (Q : result unit -> S -> Prop) :
  wp t m s (fun r s' => match r with Panic => Q Panic s' | _ => Q (Ok tt) s' end) ->
  wp t (dropError m) s Q.
Proof. unfold wp, dropError. destruct (m s) as [[[[]|e|] s']|]; auto. Qed.

(** Fuel is shown once; the rest may be shown of the runs that end. *)
Lemma wp_and {A} t (m : Run S A) s (Q Q' : result A -> S -> Prop) :
  wp t m s Q -> wp false m s Q' -> wp t m s (fun r s' => Q r s' /\ Q' r s').
Proof. unfold wp. destruct (m s) as [[r s']|]; auto. Qed.

Lemma wp_any {A} (m : Run S A) s : wp false m s (fun _ _ => True).
Proof. unfold wp. by destruct (m s) as [[r s']|]. Qed.

Lemma wp_partial {A} t (m : Run S A) s (Q : result A -> S -> Prop) : wp t m s Q -> wp false m s Q.
Proof. unfold wp. by destruct (m s) as [[r s']|]. Qed.

Lemma wp_returns {A} (m : Run S A) s (Q : result A -> S -> Prop) :
  wp true m s Q -> exists r s', m s = Some (r, s') /\ Q r s'.
Proof. unfold wp. destruct (m s) as [[r s']|]; [eauto|done]. Qed.

(** A loop keeps what each of its steps keeps. *)
Lemma wp_forEach {A} t (f : A -> Run S unit) xs s (R : S -> S -> Prop) :
  (forall s, R s s) -> (forall s1 s2 s3, R s1 s2 -> R s2 s3 -> R s1 s3) ->
  (forall x s', x ∈ xs -> wp t (f x) s' (fun _ s'' => R s' s'')) ->
  wp t (forEach f xs) s (fun _ s' => R s s').
Proof.
  intros Hrefl Htrans. revert s. induction xs as [|x xs IH]; intros s Hf; simpl; [by apply wp_ret|].
  apply wp_bind. eapply wp_mono; [apply Hf; set_solver|]. intros [[]|e|] s' Hs'; [|done..].
  eapply wp_mono; [apply IH; set_solver|]. intros r s'' Hs''. by eapply Htrans.
Qed.
(** A loop that succeeds has done what each of its steps does on success. *)
Lemma wp_forEach_all {A} t (f : A -> Run S unit) xs s (R : S -> S -> Prop) (V : A -> S -> Prop) :
  (forall s, R s s) -> (forall s1 s2 s3, R s1 s2 -> R s2 s3 -> R s1 s3) ->
  (forall x s1 s2, V x s1 -> R s1 s2 -> V x s2) ->
  (forall x s', x ∈ xs -> wp t (f x) s' (fun r s'' => R s' s'' /\ (r = Ok tt -> V x s''))) ->
  wp t (forEach f xs) s (fun r s' => R s s' /\ (r = Ok tt -> forall x, x ∈ xs -> V x s')).
Proof.
  intros Hrefl Htrans Hstable. revert s. induction xs as [|x xs IH]; intros s Hf; simpl.
  { apply wp_ret. split; [done|]. intros _ x Hx. by apply not_elem_of_nil in Hx. }
  apply wp_bind. eapply wp_mono; [apply Hf; by left|]. intros [[]|e|] s' [Hs' HV]; [|by split..].
  eapply wp_mono; [apply IH; intros; apply Hf; by right|]. intros r s'' [Hs'' Hall].
  split; [by eapply Htrans|]. intros Hr y [->|Hy]%elem_of_cons; [|by apply Hall].
  by eapply Hstable; [apply HV|].
Qed.
End Rules.
