(* ===== verification/Traced.v ===== *)
(** * Traced: components whose calls are recorded

    The state of a run that calls components: their common state and the calls made
    so far, each with what the theorems need of its outcome.  [only P m s] says that
    [m] makes only calls of [P]. *)

From S2P Require Import Prelude Runs.
Open Scope Z_scope.

Record St (W E : Type) := mkSt { world : W; trace : list E }.
Arguments mkSt {W E}.
Arguments world {W E}.
Arguments trace {W E}.

Section Traced.
Context {W event : Type}.
Local Abbreviation St := (St W event).
Local Abbreviation Run := (Runs.Run St).

(** A call of a component, recorded with its outcome. *)
Definition observe {A} (op : Op W A) (ev : result A -> event) : Run A := fun s =>
  let '(r, w) := op (world s) in Some (r, mkSt w (trace s ++ [ev r])).

Definition invoke {A} (op : Op W A) (ev : event) : Run A := observe op (fun _ => ev).

(** A callback of the host. *)
Definition emit (ev : event) : Run unit := fun s => Some (Ok tt, mkSt (world s) (trace s ++ [ev])).

(** [range m] *)
Definition rangeMap `{MapRange W} {K V} `{Countable K} (m : gmap K V) : Run (list (K * V)) := fun s =>
  Some (Ok (range m (world s)), s).

Lemma wp_observe {A} t (op : Op W A) ev s (Q : result A -> St -> Prop) :
  (forall r w, op (world s) = (r, w) -> Q r (mkSt w (trace s ++ [ev r]))) -> wp t (observe op ev) s Q.
Proof. unfold wp, observe. destruct (op (world s)) as [r w]. auto. Qed.

Lemma wp_invoke {A} t (op : Op W A) ev s (Q : result A -> St -> Prop) :
  (forall r w, op (world s) = (r, w) -> Q r (mkSt w (trace s ++ [ev]))) -> wp t (invoke op ev) s Q.
Proof. apply wp_observe. Qed.

Lemma wp_rangeMap `{MapRange W} {K V} `{Countable K} t (m : gmap K V) s (Q : result (list (K * V)) -> St -> Prop) :
  (forall l, l ≡ₚ map_to_list m -> Q (Ok l) s) -> wp t (rangeMap m) s Q.
Proof. intros HQ. apply HQ, range_perm. Qed.

(** ** Runs that only make calls of a kind *)

Definition emits (P : event -> Prop) (s s' : St) : Prop :=
  exists tr, trace s' = trace s ++ tr /\ Forall P tr.

Lemma emits_refl P s : emits P s s.
Proof. exists []. by rewrite app_nil_r. Qed.

Lemma emits_trans P s1 s2 s3 : emits P s1 s2 -> emits P s2 s3 -> emits P s1 s3.
Proof.
  intros (t1 & E1 & F1) (t2 & E2 & F2). exists (t1 ++ t2).
  rewrite E2, E1, app_assoc. split; [done|by apply Forall_app].
Qed.

Lemma emits_impl (P P' : event -> Prop) s s' : (forall ev, P ev -> P' ev) -> emits P s s' -> emits P' s s'.
Proof. intros HP (tr & E & F). exists tr. split; [done|]. by eapply Forall_impl. Qed.

(** [m] makes only calls of [P]. *)
Definition only {A} (t : bool) (P : event -> Prop) (m : Run A) (s : St) : Prop :=
  wp t m s (fun _ s' => emits P s s').

Lemma only_observe {A} t P (op : Op W A) ev s : (forall r, P (ev r)) -> only t P (observe op ev) s.
Proof.
  intros HP. unfold only, wp, observe. destruct (op (world s)) as [r w]. exists [ev r]. simpl.
  split; [done|]. by repeat constructor.
Qed.

Lemma only_invoke {A} t P (op : Op W A) ev s : P ev -> only t P (invoke op ev) s.
Proof. intros HP. by apply only_observe. Qed.

Lemma only_emit t P ev s : P ev -> only t P (emit ev) s.
Proof. intros HP. exists [ev]. simpl. split; [done|]. by repeat constructor. Qed.

Lemma only_lift {A} t P (r : result A) s : only t P (lift r) s.
Proof. apply emits_refl. Qed.

Lemma only_ret {A} t P (a : A) s : only t P (mret a) s.
Proof. apply emits_refl. Qed.

Lemma only_rangeMap `{MapRange W} `{Countable K} {V} t P (m : gmap K V) s : only t P (rangeMap m) s.
Proof. apply emits_refl. Qed.

Lemma only_bind {A B} t P (m : Run A) (f : A -> Run B) s :
  only t P m s -> (forall a s', only t P (f a) s') -> only t P (m ≫= f) s.
Proof.
  intros Hm Hf. apply wp_bind. eapply wp_mono; [exact Hm|]. intros [a|e'|] s' Hs'; [|done..].
  eapply wp_mono; [apply Hf|]. intros r s'' Hs''. by eapply emits_trans.
Qed.

Lemma only_forEach {A} t P (f : A -> Run unit) xs s :
  (forall x s', x ∈ xs -> only t P (f x) s') -> only t P (forEach f xs) s.
Proof. intros Hf. apply wp_forEach; [apply emits_refl|apply emits_trans|done]. Qed.

Lemma only_dropError t P (m : Run unit) s : only t P m s -> only t P (dropError m) s.
Proof.
  intros Hm. apply wp_dropError. eapply wp_mono; [exact Hm|]. by intros [[]|e'|] s' Hs'.
Qed.

Lemma emits_any (P : event -> Prop) s s' ev : emits P s s' -> ev ∈ trace s -> ev ∈ trace s'.
Proof. intros (tr & -> & _) Hev. apply elem_of_app. by left. Qed.

End Traced.

(** Proves [only] of a program by its structure; what is left are the calls. *)
Ltac only_step :=
  lazymatch goal with
  | |- only _ _ (lift _) _ => apply only_lift
  | |- only _ _ (mret _) _ => apply only_ret
  | |- only _ _ (rangeMap _) _ => apply only_rangeMap
  | |- only _ _ (_ ≫= _) _ => apply only_bind; [|intros ? ?]
  | |- only _ _ (forEach _ _) _ => apply only_forEach; intros ? ? ?
  | |- only _ _ (observe _ _) _ => apply only_observe; intros ?; simpl; done
  | |- only _ _ (invoke _ _) _ => apply only_invoke; simpl; done
  | |- only _ _ (emit _) _ => apply only_emit; simpl; done
  | |- only _ _ (match _ with _ => _ end) _ => case_match
  end.
