(* ===== verification/GaspTypes.v ===== *)
(** * pkg/core/gasp/types.go: the messages of the synchronisation protocol

    A float64 is its IEEE 754 bit pattern (what [math.Float64bits] returns), an
    integer of 64 bits; a Go map is a finite map. *)

From S2P Require Import Prelude Bytes.
Open Scope Z_scope.

Module Gasp.

(** [transaction.Outpoint] of the SDK: a transaction id and an output index. *)
Record Outpoint := mkOutpoint { Txid : Hash; Index : Z }.

#[global] Instance Outpoint_eq_dec : EqDecision Outpoint.
Proof. solve_decision. Defined.

#[global] Program Instance Outpoint_countable : Countable Outpoint :=
  {| encode o := encode (Txid o, Index o);
     decode p := (fun '(t, i) => mkOutpoint t i) <$> decode p |}.
Next Obligation. intros [t i]. cbv beta. rewrite decode_encode. done. Qed.

#[global] Instance Outpoint_inhabited : Inhabited Outpoint := populate (mkOutpoint zero_hash 0).

Record InitialRequest := mkInitialRequest { Version : Z; reqSince : Z; Limit : Z }.

Record Output := mkOutput { outTxid : Hash; OutputIndex : Z; Score : Z }.

#[global] Instance Output_eq_dec : EqDecision Output.
Proof. solve_decision. Defined.

(** [Output.Outpoint] *)
Definition toOutpoint (g : Output) : Outpoint := mkOutpoint (outTxid g) (OutputIndex g).

Record InitialResponse := mkInitialResponse { respUTXOList : list Output; respSince : Z }.

Record InitialReply := mkInitialReply { replyUTXOList : list Output }.

Record Input := mkInput { inputHash : list byte }.

(** [NodeRequest] (remote.go): the pointers may be nil. *)
Record NodeRequest := mkNodeRequest {
  reqGraphID : option Outpoint; reqTxid : option Hash; reqOutputIndex : Z; Metadata : bool }.

(** The nil and the empty byte slice are not distinguished. *)
Record Node := mkNode {
  GraphID : option Outpoint;
  RawTx : list byte;
  nodeOutputIndex : Z;
  Proof_ : list byte;
  TxMetadata : list byte;
  OutputMetadata : list byte;
  Inputs : gmap (list byte) Input }.

(** A nil [*NodeResponseData] reads as [Metadata = false]. *)
Record NodeResponseData := mkNodeResponseData { dataMetadata : bool }.

Record NodeResponse := mkNodeResponse { RequestedInputs : gmap Outpoint (option NodeResponseData) }.

(** [VersionMismatchError]; the message text is not modelled. *)
Record VersionMismatchError := mkVersionMismatchError { CurrentVersion : Z; ForeignVersion : Z }.

(** [NewVersionMismatchError] *)
Definition NewVersionMismatchError (currentVersion foreignVersion : Z) : VersionMismatchError :=
  mkVersionMismatchError currentVersion foreignVersion.

(** The fields fit their Go types. *)
Definition outpoint_typed (o : Outpoint) : Prop := is_u32 (Index o).
Definition output_typed (o : Output) : Prop := is_u32 (OutputIndex o) /\ is_u64 (Score o).

(** ** Floating-point comparison

    [a > b] on float64 values, from their bit patterns: false when one is NaN,
    otherwise the order of sign and magnitude (both zeros are equal). *)

Definition float_nan (f : Z) : bool := 0x7ff0000000000000 <? f mod 2 ^ 63.

Definition float_key (f : Z) : Z := if f mod 2 ^ 64 <? 2 ^ 63 then f mod 2 ^ 63 else - (f mod 2 ^ 63).

Definition float_gt (a b : Z) : bool :=
  negb (float_nan a) && negb (float_nan b) && (float_key b <? float_key a).

Lemma float_key_bounds f : - 2 ^ 63 < float_key f < 2 ^ 63.
Proof. unfold float_key. pose proof (Z.mod_pos_bound f (2 ^ 63)). case_match; lia. Qed.

Lemma float_gt_key a b : float_gt a b = true -> float_key b < float_key a.
Proof. unfold float_gt. rewrite !andb_true_iff, Z.ltb_lt. tauto. Qed.

Lemma float_gt_irrefl a : float_gt a a = false.
Proof. unfold float_gt. rewrite Z.ltb_irrefl. apply andb_false_r. Qed.

Lemma float_gt_trans a b c : float_gt a b = true -> float_gt b c = true -> float_gt a c = true.
Proof.
  unfold float_gt. rewrite !andb_true_iff, !Z.ltb_lt. intros [[? ?] ?] [[? ?] ?]. split_and!; (done || lia).
Qed.

(** Not above is transitive through anything but NaN. *)
Lemma float_not_gt_trans a b c :
  float_nan b = false -> float_gt a b = false -> float_gt b c = false -> float_gt a c = false.
Proof.
  unfold float_gt. intros ->. simpl. destruct (float_nan a), (float_nan c); simpl; try done.
  rewrite !Z.ltb_ge. lia.
Qed.

Lemma float_gt_nan a b : float_nan b = true -> float_gt a b = false.
Proof. unfold float_gt. intros ->. by rewrite andb_false_r. Qed.

Lemma float_gt_not_nan a b : float_gt a b = true -> float_nan a = false /\ float_nan b = false.
Proof. unfold float_gt. destruct (float_nan a), (float_nan b); done. Qed.

End Gasp.
