(* ===== verification/GaspWire.v ===== *)
(** * pkg/core/gasp/wire.go: the binary wire format

    Serialisation of every message, and the decoders with the run-time checks of
    the slice expressions and the wrap-around of the [int] arithmetic on counts
    that come from the network.  The capacity hints of [make] ([varintSize]) have
    no effect on the result and are left out; a Go map is enumerated in an order
    that is an argument of the serialiser. *)

From S2P Require Import Prelude Bytes Cursor GaspTypes.
Import Gasp.
Open Scope Z_scope.

Module GaspWire.

Definition WireVersion : byte := Byte.x00.

Definition writeVersion (buf : list byte) : list byte := buf ++ [WireVersion].

Definition checkVersion (data : list byte) : result Z :=
  match data with
  | [] => Err ErrWireEmptyData
  | v :: _ => if negb (bool_decide (v = WireVersion)) then Err ErrWireUnsupportedVer else Ok 1
  end.

(** [binary.LittleEndian.Uint32(data[lo:])] and [Uint64]. *)
Definition u32_at (data : list byte) (lo : Z) : result Z := slice_from data lo ≫= get_u32.
Definition u64_at (data : list byte) (lo : Z) : result Z := slice_from data lo ≫= get_u64.

(** [copy(h[:], data[lo:lo+32])] *)
Definition hash_at (data : list byte) (lo : Z) : result Hash :=
  array32 <$> slice data lo (lo + 32).

(** ** InitialRequest *)

Definition serializeInitialRequest (r : InitialRequest) : list byte :=
  writeVersion [] ++ put_u32 (u32 (Version r)) ++ put_u64 (reqSince r) ++ put_u32 (Limit r).

Definition DeserializeInitialRequest (data : list byte) : result InitialRequest :=
  offset ← checkVersion data;
  if negb (len data - offset =? 16) then Err ErrWireTooShort else
  v ← slice data offset (offset + 4) ≫= get_u32;
  s ← slice data (offset + 4) (offset + 12) ≫= get_u64;
  l ← slice data (offset + 12) (offset + 16) ≫= get_u32;
  Ok (mkInitialRequest v s l).

(** ** Lists of outputs *)

Definition output_bytes (o : Output) : list byte :=
  hbytes (outTxid o) ++ put_u32 (OutputIndex o) ++ put_u64 (Score o).

Definition appendOutputList (buf : list byte) (outputs : list Output) : list byte :=
  AppendUvarint buf (len outputs) ++ flat_map output_bytes outputs.

(** The loop of [readOutputList]. *)
Fixpoint readOutputs (n : nat) (data : list byte) (offset : Z) : result (list Output * Z) :=
  match n with
  | O => Ok ([], offset)
  | S n' =>
      h ← hash_at data offset;
      i ← u32_at data (offset + 32);
      s ← u64_at data (offset + 36);
      '(os, offset') ← readOutputs n' data (offset + 44);
      Ok (mkOutput h i s :: os, offset')
  end.

Definition readOutputList (data : list byte) (offset : Z) : result (list Output * Z) :=
  buf ← slice_from data offset;
  let '(count, n) := Uvarint buf in
  if n <=? 0 then Err ErrWireInvalidVarint else
  let offset := offset + n in
  let needed := int64 (int64 count * 44) in
  if len data <? int64 (offset + needed) then Err ErrWireTooShort else
  _ ← make_slice 8 count;
  readOutputs (Z.to_nat count) data offset.

(** ** InitialResponse and InitialReply *)

Definition serializeInitialResponse (r : InitialResponse) : list byte :=
  appendOutputList (writeVersion [] ++ put_u64 (respSince r)) (respUTXOList r).

Definition DeserializeInitialResponse (data : list byte) : result InitialResponse :=
  offset ← checkVersion data;
  if len data - offset <? 8 then Err ErrWireTooShort else
  since ← slice data offset (offset + 8) ≫= get_u64;
  '(l, _) ← readOutputList data (offset + 8);
  Ok (mkInitialResponse l since).

Definition serializeInitialReply (r : InitialReply) : list byte :=
  appendOutputList (writeVersion []) (replyUTXOList r).

Definition DeserializeInitialReply (data : list byte) : result InitialReply :=
  offset ← checkVersion data;
  '(l, _) ← readOutputList data offset;
  Ok (mkInitialReply l).

(** ** NodeRequest *)

(** A nil outpoint and a nil hash are written as zeros. *)
Definition outpoint_bytes (o : option Outpoint) : list byte :=
  match o with
  | Some o => hbytes (Txid o) ++ put_u32 (Index o)
  | None => replicate 36 Byte.x00
  end.

Definition bool_byte (b : bool) : byte := if b then Byte.x01 else Byte.x00.

Definition serializeNodeRequest (r : NodeRequest) : list byte :=
  writeVersion [] ++ outpoint_bytes (reqGraphID r) ++
  (match reqTxid r with Some h => hbytes h | None => replicate 32 Byte.x00 end) ++
  put_u32 (reqOutputIndex r) ++ [bool_byte (Metadata r)].

Definition DeserializeNodeRequest (data : list byte) : result NodeRequest :=
  offset ← checkVersion data;
  if negb (len data - offset =? 73) then Err ErrWireTooShort else
  g ← hash_at data offset;
  gi ← slice data (offset + 32) (offset + 36) ≫= get_u32;
  t ← slice data (offset + 36) (offset + 68);
  i ← slice data (offset + 68) (offset + 72) ≫= get_u32;
  m ← index data (offset + 72);
  Ok (mkNodeRequest (Some (mkOutpoint g gi)) (Some (array32 t)) i (negb (val m =? 0))).

(** ** Node *)

Definition appendByteField (buf data : list byte) : list byte :=
  AppendUvarint buf (len data) ++ data.

Definition readByteField (data : list byte) (offset : Z) : result (list byte * Z) :=
  buf ← slice_from data offset;
  let '(length, n) := Uvarint buf in
  if n <=? 0 then Err ErrWireInvalidVarint else
  let offset := offset + n in
  if len data <? int64 (offset + int64 length) then Err ErrWireTooShort else
  if length =? 0 then Ok ([], offset) else
  _ ← make_slice 1 length;
  r ← slice data offset (int64 (offset + int64 length));
  Ok (r, int64 (offset + int64 length)).

(** [Node.Serialize]; [order] is the order in which the map of inputs is
    enumerated. *)
Definition serializeNode (order : list (list byte)) (n : Node) : list byte :=
  let buf := writeVersion [] ++ outpoint_bytes (GraphID n) ++ put_u32 (nodeOutputIndex n) in
  let buf := appendByteField buf (RawTx n) in
  let buf := appendByteField buf (Proof_ n) in
  let buf := appendByteField buf (TxMetadata n) in
  let buf := appendByteField buf (OutputMetadata n) in
  let buf := AppendUvarint buf (Z.of_nat (size (Inputs n))) in
  foldl appendByteField buf order.

(** The loop of [deserializeNodeInputs]. *)
Fixpoint readInputs (n : nat) (data : list byte) (offset : Z) (inputs : gmap (list byte) Input)
    : result (gmap (list byte) Input * Z) :=
  match n with
  | O => Ok (inputs, offset)
  | S n' =>
      '(hashBytes, offset') ← readByteField data offset;
      readInputs n' data offset' (<[hashBytes := mkInput hashBytes]> inputs)
  end.

Definition deserializeNodeInputs (data : list byte) (offset : Z)
    : result (gmap (list byte) Input * Z) :=
  buf ← slice_from data offset;
  let '(inputCount, nn) := Uvarint buf in
  if nn <=? 0 then Err ErrWireInvalidVarint else
  let offset := offset + nn in
  if MaxUint32 <? inputCount then Err ErrWireTooShort else
  if inputCount =? 0 then Ok (∅, offset) else
  readInputs (Z.to_nat (int64 inputCount)) data offset ∅.

Definition DeserializeNode (data : list byte) : result Node :=
  offset ← checkVersion data;
  if len data - offset <? 40 then Err ErrWireTooShort else
  g ← hash_at data offset;
  let offset := offset + 32 in
  gi ← u32_at data offset;
  let offset := offset + 4 in
  oi ← u32_at data offset;
  let offset := offset + 4 in
  '(rawTx, offset) ← readByteField data offset;
  '(proof, offset) ← readByteField data offset;
  '(txMeta, offset) ← readByteField data offset;
  '(outMeta, offset) ← readByteField data offset;
  '(inputs, offset) ← deserializeNodeInputs data offset;
  if negb (offset =? len data) then Err ErrWireTrailingBytes else
  Ok (mkNode (Some (mkOutpoint g gi)) rawTx oi proof txMeta outMeta inputs).

(** ** NodeResponse *)

Definition entry_bytes (e : Outpoint * option NodeResponseData) : list byte :=
  outpoint_bytes (Some (fst e)) ++
  [bool_byte (match snd e with Some d => dataMetadata d | None => false end)].

(** [NodeResponse.Serialize]; [order] is an enumeration of the map. *)
Definition serializeNodeResponse (order : list (Outpoint * option NodeResponseData))
    (r : NodeResponse) : list byte :=
  AppendUvarint (writeVersion []) (Z.of_nat (size (RequestedInputs r))) ++ flat_map entry_bytes order.

(** The loop of [DeserializeNodeResponse]. *)
Fixpoint readEntries (n : nat) (data : list byte) (offset : Z)
    (m : gmap Outpoint (option NodeResponseData))
    : result (gmap Outpoint (option NodeResponseData) * Z) :=
  match n with
  | O => Ok (m, offset)
  | S n' =>
      h ← hash_at data offset;
      i ← u32_at data (offset + 32);
      b ← index data (offset + 36);
      readEntries n' data (offset + 37)
        (<[mkOutpoint h i := Some (mkNodeResponseData (negb (val b =? 0)))]> m)
  end.

Definition DeserializeNodeResponse (data : list byte) : result NodeResponse :=
  offset ← checkVersion data;
  buf ← slice_from data offset;
  let '(count, n) := Uvarint buf in
  if n <=? 0 then Err ErrWireInvalidVarint else
  let offset := offset + n in
  if len data <? int64 (offset + int64 (int64 count * 37)) then Err ErrWireTooShort else
  '(m, offset) ← readEntries (Z.to_nat (int64 count)) data offset ∅;
  if negb (offset =? len data) then Err ErrWireTrailingBytes else
  Ok (mkNodeResponse m).

(** ** What the decoders read at a position *)

Lemma u32_at_at data off v : is_u32 v -> at_ data off (put_u32 v) -> u32_at data off = Ok v.
Proof.
  intros Hv H. unfold u32_at. destruct (slice_from_at _ _ _ H) as [post ->]. by apply get_put_u32.
Qed.

Lemma u64_at_at data off v : is_u64 v -> at_ data off (put_u64 v) -> u64_at data off = Ok v.
Proof.
  intros Hv H. unfold u64_at. destruct (slice_from_at _ _ _ H) as [post ->]. by apply get_put_u64.
Qed.

Lemma slice_u32_at data off v hi :
  is_u32 v -> at_ data off (put_u32 v) -> hi = off + 4 -> slice data off hi ≫= get_u32 = Ok v.
Proof.
  intros Hv H ->. rewrite (slice_at _ _ _ _ H) by (unfold len; by rewrite length_put_u32).
  simpl. rewrite <- (app_nil_r (put_u32 v)). by apply get_put_u32.
Qed.

Lemma slice_u64_at data off v hi :
  is_u64 v -> at_ data off (put_u64 v) -> hi = off + 8 -> slice data off hi ≫= get_u64 = Ok v.
Proof.
  intros Hv H ->. rewrite (slice_at _ _ _ _ H) by (unfold len; by rewrite length_put_u64).
  simpl. rewrite <- (app_nil_r (put_u64 v)). by apply get_put_u64.
Qed.

Lemma hash_at_at data off h : at_ data off (hbytes h) -> hash_at data off = Ok h.
Proof.
  intros H. unfold hash_at. rewrite (slice_at _ _ _ _ H) by (unfold len; by rewrite hash_length).
  simpl. by rewrite array32_hbytes.
Qed.

Lemma varint_at data off v :
  is_u64 v -> at_ data off (AppendUvarint [] v) ->
  exists buf, slice_from data off = Ok buf /\ Uvarint buf = (v, len (AppendUvarint [] v)).
Proof.
  intros Hv H. destruct (slice_from_at _ _ _ H) as [post E]. eexists. split; [done|].
  by apply Uvarint_bytes.
Qed.

Lemma len_writeVersion : len (writeVersion []) = 1.
Proof. done. Qed.

Lemma len_outpoint o : len (outpoint_bytes o) = 36.
Proof.
  destruct o; unfold outpoint_bytes, len; [|by rewrite length_replicate].
  rewrite length_app, hash_length, length_put_u32. done.
Qed.

Lemma len_hash h : len (hbytes h) = 32.
Proof. unfold len. by rewrite hash_length. Qed.

Lemma len_put_u32 v : len (put_u32 v) = 4.
Proof. unfold len. by rewrite length_put_u32. Qed.

Lemma len_put_u64 v : len (put_u64 v) = 8.
Proof. unfold len. by rewrite length_put_u64. Qed.

Lemma checkVersion_at data : at_ data 0 (writeVersion []) -> checkVersion data = Ok 1.
Proof. by intros ([|b pre] & post & -> & E). Qed.

(** Positions in an allocated buffer do not wrap. *)
Lemma position_small data off e :
  allocated data -> at_ data off e ->
  0 <= off /\ off + len e <= len data /\ len data <= 2 ^ 48 /\ int64 (off + len e) = off + len e /\
  int64 (len e) = len e /\ is_u64 (len e).
Proof.
  unfold allocated, maxAlloc, is_u64, MaxUint64. intros Ha H. apply at_bounds in H.
  pose proof (len_nonneg e). rewrite !int64_small; lia.
Qed.

Lemma readByteField_at data off b :
  allocated data -> at_ data off (appendByteField [] b) ->
  readByteField data off = Ok (b, off + len (appendByteField [] b)).
Proof.
  intros Ha H. unfold appendByteField in *. rewrite len_app.
  apply at_app in H as [Hv Hb]. pose proof (AppendUvarint_pos (len b)).
  pose proof (at_bounds _ _ _ Hv).
  destruct (position_small _ _ _ Ha Hb) as (H1 & H2 & H3 & H4 & H5 & H6).
  destruct (varint_at data off (len b) H6 Hv) as (buf & E & Eu).
  unfold readByteField. rewrite E. simpl. rewrite Eu, H5, H4, Z.add_assoc.
  destruct (Z.leb_spec (len (AppendUvarint [] (len b))) 0); [lia|].
  destruct (Z.ltb_spec (len data) (off + len (AppendUvarint [] (len b)) + len b)); [lia|].
  destruct (Z.eqb_spec (len b) 0) as [E0|].
  - destruct b; [|rewrite len_cons in E0; pose proof (len_nonneg b0); lia].
    by rewrite Z.add_0_r.
  - unfold make_slice, maxAlloc. destruct (Z.ltb_spec (2 ^ 48) (1 * len b)); [lia|]. simpl.
    by rewrite (slice_at _ _ _ _ Hb).
Qed.

Lemma len_output o : len (output_bytes o) = 44.
Proof. unfold output_bytes, len. rewrite !length_app, hash_length, length_put_u32, length_put_u64. done. Qed.

Lemma len_outputs os : len (flat_map output_bytes os) = 44 * len os.
Proof. induction os as [|o os IH]; [done|]. simpl. rewrite len_app, len_cons, len_output, IH. lia. Qed.

Lemma readOutputs_at os data off :
  Forall output_typed os -> at_ data off (flat_map output_bytes os) ->
  readOutputs (length os) data off = Ok (os, off + 44 * len os).
Proof.
  intros Hos. revert off. induction Hos as [|o os [Hi Hs] _ IH]; intros off H.
  - simpl. by rewrite Z.add_0_r.
  - cbn [flat_map] in H. apply at_app in H as [Ho H]. rewrite len_output in H.
    unfold output_bytes in Ho. apply at_app in Ho as [H1 Ho]. apply at_app in Ho as [H2 H3].
    rewrite len_hash in H2, H3. rewrite len_put_u32 in H3.
    cbn [readOutputs length]. rewrite (hash_at_at _ _ _ H1). simpl.
    rewrite (u32_at_at _ _ _ Hi H2). simpl.
    replace (off + 36) with (off + 32 + 4) by lia.
    rewrite (u64_at_at _ _ _ Hs H3). simpl. rewrite (IH _ H). simpl. rewrite len_cons.
    replace (off + 44 + 44 * len os) with (off + 44 * (1 + len os)) by lia. by destruct o.
Qed.

Lemma readOutputList_at os data off :
  Forall output_typed os -> allocated data -> at_ data off (appendOutputList [] os) ->
  readOutputList data off = Ok (os, off + len (appendOutputList [] os)).
Proof.
  intros Hos Ha H. unfold appendOutputList in *. rewrite len_app, len_outputs.
  apply at_app in H as [Hv Hb]. pose proof (AppendUvarint_pos (len os)). pose proof (len_nonneg os).
  pose proof (at_bounds _ _ _ Hv). pose proof (at_bounds _ _ _ Hb) as Hbb. rewrite len_outputs in Hbb.
  unfold allocated, maxAlloc in Ha.
  destruct (varint_at data off (len os)) as (buf & E & Eu); [unfold is_u64, MaxUint64; lia|done|].
  unfold readOutputList. rewrite E. simpl. rewrite Eu.
  destruct (Z.leb_spec (len (AppendUvarint [] (len os))) 0); [lia|].
  rewrite (int64_small (len os)) by lia. rewrite (int64_small (len os * 44)) by lia.
  rewrite int64_small by lia.
  destruct (Z.ltb_spec (len data) (off + len (AppendUvarint [] (len os)) + len os * 44)); [lia|].
  unfold make_slice, maxAlloc. destruct (Z.ltb_spec (2 ^ 48) (8 * len os)); [lia|]. simpl.
  replace (Z.to_nat (len os)) with (length os) by (unfold len; lia).
  rewrite readOutputs_at by done. do 2 f_equal. lia.
Qed.

Lemma readInputs_at order data off m :
  allocated data -> at_ data off (flat_map (appendByteField []) order) ->
  readInputs (length order) data off m =
  Ok (foldl (fun m k => <[k := mkInput k]> m) m order,
      off + len (flat_map (appendByteField []) order)).
Proof.
  intros Ha. revert off m. induction order as [|k order IH]; intros off m H; cbn [flat_map] in *.
  - cbn. by rewrite Z.add_0_r.
  - apply at_app in H as [Hk H]. cbn [length readInputs].
    rewrite (readByteField_at _ _ _ Ha Hk). simpl. rewrite (IH _ _ H), len_app.
    do 2 f_equal. lia.
Qed.

Lemma deserializeNodeInputs_at order data off :
  allocated data -> len order <= MaxUint32 ->
  at_ data off (AppendUvarint [] (len order) ++ flat_map (appendByteField []) order) ->
  deserializeNodeInputs data off =
  Ok (foldl (fun m k => <[k := mkInput k]> m) ∅ order,
      off + len (AppendUvarint [] (len order) ++ flat_map (appendByteField []) order)).
Proof.
  unfold MaxUint32. intros Ha Ho H. rewrite len_app. apply at_app in H as [Hv Hb].
  pose proof (AppendUvarint_pos (len order)). pose proof (len_nonneg order).
  destruct (varint_at data off (len order)) as (buf & E & Eu); [unfold is_u64, MaxUint64; lia|done|].
  unfold deserializeNodeInputs. rewrite E. simpl. rewrite Eu.
  destruct (Z.leb_spec (len (AppendUvarint [] (len order))) 0); [lia|].
  unfold MaxUint32. destruct (Z.ltb_spec (2 ^ 32 - 1) (len order)); [lia|].
  destruct (Z.eqb_spec (len order) 0) as [E0|].
  - destruct order; [simpl; by rewrite Z.add_0_r|rewrite len_cons in E0; pose proof (len_nonneg order); lia].
  - rewrite int64_small by lia. replace (Z.to_nat (len order)) with (length order) by (unfold len; lia).
    rewrite readInputs_at by done. do 2 f_equal. lia.
Qed.

Lemma foldl_appendByteField buf order :
  foldl appendByteField buf order = buf ++ flat_map (appendByteField []) order.
Proof.
  revert buf. induction order as [|k order IH]; intros buf; simpl; [by rewrite app_nil_r|].
  rewrite IH. unfold appendByteField, AppendUvarint. by rewrite <- !app_assoc.
Qed.

Lemma serializeNode_eq order n :
  serializeNode order n =
  writeVersion [] ++ outpoint_bytes (GraphID n) ++ put_u32 (nodeOutputIndex n) ++
  appendByteField [] (RawTx n) ++ appendByteField [] (Proof_ n) ++
  appendByteField [] (TxMetadata n) ++ appendByteField [] (OutputMetadata n) ++
  AppendUvarint [] (Z.of_nat (size (Inputs n))) ++ flat_map (appendByteField []) order.
Proof.
  unfold serializeNode. rewrite foldl_appendByteField. unfold appendByteField, AppendUvarint.
  by rewrite <- !app_assoc.
Qed.

(** The node as the receiver has it: a nil graph id arrives as zeros. *)
Definition received (n : Node) : Node :=
  mkNode (Some (default (mkOutpoint zero_hash 0) (GraphID n))) (RawTx n) (nodeOutputIndex n)
    (Proof_ n) (TxMetadata n) (OutputMetadata n) (Inputs n).

(** The fields fit their types and every input is filed under its own hash. *)
Definition node_typed (n : Node) : Prop :=
  (forall o, GraphID n = Some o -> outpoint_typed o) /\ is_u32 (nodeOutputIndex n) /\
  Z.of_nat (size (Inputs n)) <= MaxUint32 /\
  forall k i, Inputs n !! k = Some i -> inputHash i = k.

Lemma outpoint_bytes_default o :
  outpoint_bytes o = let d := default (mkOutpoint zero_hash 0) o in hbytes (Txid d) ++ put_u32 (Index d).
Proof. by destruct o. Qed.

(** Every way of enumerating the map of inputs gives back the map. *)
Lemma inputs_rebuilt n order :
  node_typed n -> order ≡ₚ (map_to_list (Inputs n)).*1 ->
  foldl (fun m k => <[k := mkInput k]> m) ∅ order = Inputs n.
Proof.
  intros (_ & _ & _ & Hk) Ho. apply (foldl_insert_perm id mkInput).
  rewrite Ho, <- list_fmap_compose. apply reflexive_eq.
  assert (HF : forall e, e ∈ map_to_list (Inputs n) -> (e.1, mkInput e.1) = e).
  { intros [k [h]] He. apply elem_of_map_to_list in He. simpl. by rewrite <- (Hk _ _ He). }
  clear Ho. induction (map_to_list (Inputs n)) as [|e l IH]; [done|]. cbn [fmap list_fmap map].
  f_equal; [apply HF; set_solver|]. apply IH. intros e' He'. apply HF. set_solver.
Qed.

Lemma len_order n order : order ≡ₚ (map_to_list (Inputs n)).*1 -> len order = Z.of_nat (size (Inputs n)).
Proof.
  intros Ho. unfold len. rewrite (Permutation_length Ho), length_fmap, length_map_to_list. done.
Qed.

(** C39.  A node survives the wire: whatever order the sender's map iteration
    takes, [DeserializeNode] gives back the node that [Node.Serialize] was given
    (a nil graph id becomes the zero outpoint). *)
Theorem node_roundtrip n order :
  node_typed n -> order ≡ₚ (map_to_list (Inputs n)).*1 -> allocated (serializeNode order n) ->
  DeserializeNode (serializeNode order n) = Ok (received n).
Proof.
  intros Hn Ho Ha. pose proof (inputs_rebuilt _ _ Hn Ho) as Hin. pose proof (len_order _ _ Ho) as Hlo.
  destruct Hn as (Hg & Hoi & Hsz & _). pose proof (at_whole (serializeNode order n)) as H.
  remember (serializeNode order n) as data eqn:Hdata. rewrite Hdata in H at 2.
  rewrite serializeNode_eq, outpoint_bytes_default in H.
  assert (Hd : is_u32 (Index (default (mkOutpoint zero_hash 0) (GraphID n)))).
  { destruct (GraphID n) as [o|]; [by apply (Hg o)|done]. }
  set (d := default _ _) in *. cbv zeta in H. rewrite <- Hlo, <- !app_assoc in H.
  apply at_app in H as [Hv H]. apply at_app in H as [H1 H]. apply at_app in H as [H2 H].
  apply at_app in H as [H3 H]. apply at_app in H as [H4 H]. apply at_app in H as [H5 H].
  apply at_app in H as [H6 H]. apply at_app in H as [H7 H].
  assert (Hlen : len data = len (serializeNode order n)) by (by rewrite Hdata).
  rewrite serializeNode_eq, <- Hlo, !len_app, len_outpoint, len_put_u32, len_writeVersion in Hlen.
  rewrite ?len_writeVersion, ?len_hash, ?len_put_u32 in *.
  change (0 + 1 + 32 + 4 + 4) with 41 in *. change (0 + 1 + 32 + 4) with 37 in *.
  change (0 + 1 + 32) with 33 in *. change (0 + 1) with 1 in *.
  unfold DeserializeNode. rewrite (checkVersion_at _ Hv). simpl.
  change (1 + 32 + 4 + 4) with 41. change (1 + 32 + 4) with 37. change (1 + 32) with 33.
  destruct (Z.ltb_spec (len data - 1) 40) as [Hs|_].
  { exfalso. revert Hlen Hs.
    generalize (len_nonneg (appendByteField [] (RawTx n))), (len_nonneg (appendByteField [] (Proof_ n))),
      (len_nonneg (appendByteField [] (TxMetadata n))), (len_nonneg (appendByteField [] (OutputMetadata n))),
      (len_nonneg (AppendUvarint [] (len order))), (len_nonneg (flat_map (appendByteField []) order)). lia. }
  rewrite (hash_at_at _ _ _ H1). simpl. rewrite (u32_at_at _ _ _ Hd H2). simpl.
  rewrite (u32_at_at _ _ _ Hoi H3). simpl.
  rewrite (readByteField_at _ _ _ Ha H4). simpl. rewrite (readByteField_at _ _ _ Ha H5). simpl.
  rewrite (readByteField_at _ _ _ Ha H6). simpl. rewrite (readByteField_at _ _ _ Ha H7). simpl.
  rewrite (deserializeNodeInputs_at order _ _ Ha ltac:(lia) H). simpl.
  match goal with |- context [?o =? len data] => destruct (Z.eqb_spec o (len data)) as [_|Hneq] end.
  - simpl. rewrite Hin. unfold received. fold d. by destruct d.
  - exfalso. apply Hneq. rewrite Hlen, len_app. lia.
Qed.

Lemma node_roundtrip_witness :
  let n := mkNode (Some (mkOutpoint zero_hash 7)) (str "tx") 1 [] (str "m") []
             {[ str "a" := mkInput (str "a"); str "b" := mkInput (str "b") ]} in
  DeserializeNode (serializeNode [str "b"; str "a"] n) = Ok (received n).
Proof.
  intros n. apply (node_roundtrip n [str "b"; str "a"]).
  - split_and!; [by intros o [= <-]|done|done|].
    intros k i H. unfold n in H. simpl in H. apply lookup_insert_Some in H as [[<- <-]|[_ H]]; [done|].
    by apply lookup_singleton_Some in H as [<- <-].
  - vm_compute. constructor 3 || reflexivity.
  - vm_compute. discriminate.
Defined.

(** ** The other messages *)

Lemma entry_len e : len (entry_bytes e) = 37.
Proof. unfold entry_bytes. rewrite len_app, len_outpoint. done. Qed.

Lemma entries_len order : len (flat_map entry_bytes order) = 37 * len order.
Proof. induction order as [|e l IH]; [done|]. simpl. rewrite len_app, len_cons, entry_len, IH. lia. Qed.

Definition flag (d : option NodeResponseData) : bool :=
  match d with Some d => dataMetadata d | None => false end.

Lemma readEntries_at order data off m :
  Forall (fun e => outpoint_typed (fst e)) order -> at_ data off (flat_map entry_bytes order) ->
  readEntries (length order) data off m =
  Ok (foldl (fun m e => <[fst e := Some (mkNodeResponseData (flag (snd e)))]> m) m order,
      off + 37 * len order).
Proof.
  intros Ho. revert off m. induction Ho as [|[[t i] d] order Ht _ IH]; intros off m H; cbn [flat_map] in *.
  - cbn. by rewrite Z.add_0_r.
  - apply at_app in H as [He H]. rewrite entry_len in H. unfold entry_bytes, outpoint_bytes in He.
    cbn [fst snd Txid Index] in He. rewrite <- app_assoc in He.
    apply at_app in He as [H1 He]. apply at_app in He as [H2 H3].
    rewrite len_hash in H2, H3. rewrite len_put_u32 in H3.
    cbn [readEntries length]. rewrite (hash_at_at _ _ _ H1). simpl.
    rewrite (u32_at_at _ _ _ Ht H2). simpl. replace (off + 36) with (off + 32 + 4) by lia.
    rewrite (index_at _ _ _ H3). simpl. rewrite (IH _ _ H), len_cons.
    replace (off + 37 + 37 * len order) with (off + 37 * (1 + len order)) by lia.
    do 4 f_equal. by destruct (match d with Some d0 => _ | None => _ end) eqn:Ed; unfold flag; rewrite Ed.
Qed.

(** A nil entry arrives as one without metadata. *)
Definition receivedResponse (r : NodeResponse) : NodeResponse :=
  mkNodeResponse ((fun d => Some (mkNodeResponseData (flag d))) <$> RequestedInputs r).

(** A node response survives the wire for every order of the sender's map
    iteration. *)
Theorem nodeResponse_roundtrip r order :
  (forall o, o ∈ dom (RequestedInputs r) -> outpoint_typed o) ->
  order ≡ₚ map_to_list (RequestedInputs r) -> allocated (serializeNodeResponse order r) ->
  DeserializeNodeResponse (serializeNodeResponse order r) = Ok (receivedResponse r).
Proof.
  intros Ht Ho Ha. pose proof (at_whole (serializeNodeResponse order r)) as H.
  assert (Hlo : Z.of_nat (size (RequestedInputs r)) = len order).
  { unfold len. rewrite (Permutation_length Ho), length_map_to_list. done. }
  remember (serializeNodeResponse order r) as data eqn:Hdata. rewrite Hdata in H at 2.
  unfold serializeNodeResponse in *. rewrite Hlo in *. rewrite AppendUvarint_app, <- app_assoc in H.
  assert (Hlen : len data = 1 + len (AppendUvarint [] (len order)) + 37 * len order).
  { by rewrite Hdata, AppendUvarint_app, !len_app, entries_len. }
  apply at_app in H as [Hv H]. apply at_app in H as [Hc H]. rewrite len_writeVersion in *.
  change (0 + 1) with 1 in *. pose proof (len_nonneg order). pose proof (AppendUvarint_pos (len order)).
  unfold allocated, maxAlloc in Ha.
  destruct (varint_at data 1 (len order)) as (buf & E & Eu); [unfold is_u64, MaxUint64; lia|done|].
  unfold DeserializeNodeResponse. rewrite (checkVersion_at _ Hv). simpl. rewrite E. simpl. rewrite Eu.
  destruct (Z.leb_spec (len (AppendUvarint [] (len order))) 0); [lia|].
  rewrite (int64_small (len order)) by lia. rewrite (int64_small (len order * 37)) by lia.
  rewrite int64_small by lia. zcases.
  replace (Z.to_nat (len order)) with (length order) by (unfold len; lia).
  rewrite (readEntries_at order); [|apply Forall_forall|done].
  - simpl. destruct (Z.eqb_spec (1 + len (AppendUvarint [] (len order)) + 37 * len order) (len data)); [|lia].
    simpl. unfold receivedResponse. do 2 f_equal.
    apply (foldl_insert_perm fst (fun e => Some (mkNodeResponseData (flag (snd e))))).
    rewrite map_to_list_fmap, Ho. apply reflexive_eq, list_fmap_ext. by intros ? [].
  - intros [o d] He; rewrite Ho in He. apply elem_of_map_to_list in He. apply Ht, elem_of_dom. by eexists.
Qed.

Lemma nodeResponse_roundtrip_witness :
  let o := mkOutpoint zero_hash 3 in
  let r := mkNodeResponse {[ o := None ]} in
  DeserializeNodeResponse (serializeNodeResponse [(o, None)] r) = Ok (receivedResponse r).
Proof.
  intros o r. apply (nodeResponse_roundtrip r [(o, None)]).
  - intros o' Ho. unfold r in Ho. simpl in Ho. rewrite dom_singleton in Ho.
    apply elem_of_singleton in Ho as ->. by vm_compute.
  - unfold r. simpl. by rewrite map_to_list_singleton.
  - vm_compute. discriminate.
Defined.

Definition request_typed (r : InitialRequest) : Prop :=
  is_u32 (Version r) /\ is_u64 (reqSince r) /\ is_u32 (Limit r).

Definition nodeRequest_typed (r : NodeRequest) : Prop :=
  (forall o, reqGraphID r = Some o -> outpoint_typed o) /\ is_u32 (reqOutputIndex r).

(** A nil graph id and a nil transaction id arrive as zeros. *)
Definition receivedRequest (r : NodeRequest) : NodeRequest :=
  mkNodeRequest (Some (default (mkOutpoint zero_hash 0) (reqGraphID r)))
    (Some (default zero_hash (reqTxid r))) (reqOutputIndex r) (Metadata r).

Lemma initialRequest_roundtrip r :
  request_typed r -> DeserializeInitialRequest (serializeInitialRequest r) = Ok r.
Proof.
  intros (Hv & Hs & Hl). pose proof (at_whole (serializeInitialRequest r)) as H.
  remember (serializeInitialRequest r) as data eqn:Hdata. rewrite Hdata in H at 2.
  unfold serializeInitialRequest in *. rewrite (u32_small _ Hv) in *.
  assert (Hlen : len data = 17).
  { by rewrite Hdata, !len_app, !len_put_u32, len_put_u64. }
  apply at_app in H as [H0 H]. apply at_app in H as [H1 H]. apply at_app in H as [H2 H3].
  rewrite len_writeVersion, ?len_put_u32, ?len_put_u64 in *.
  unfold DeserializeInitialRequest. rewrite (checkVersion_at _ H0). simpl. rewrite Hlen. simpl.
  rewrite (slice_u32_at _ 1 _ _ Hv H1) by done. simpl.
  rewrite (slice_u64_at _ (1 + 4) _ _ Hs H2) by done. simpl.
  rewrite (slice_u32_at _ (1 + 12) _ _ Hl H3) by done. simpl. by destruct r.
Qed.

Lemma nodeRequest_roundtrip r :
  nodeRequest_typed r -> DeserializeNodeRequest (serializeNodeRequest r) = Ok (receivedRequest r).
Proof.
  intros (Hg & Hi). pose proof (at_whole (serializeNodeRequest r)) as H.
  remember (serializeNodeRequest r) as data eqn:Hdata. rewrite Hdata in H at 2.
  unfold serializeNodeRequest in *. rewrite outpoint_bytes_default in *.
  assert (Hd : is_u32 (Index (default (mkOutpoint zero_hash 0) (reqGraphID r)))).
  { destruct (reqGraphID r) as [o|]; [by apply (Hg o)|done]. }
  unfold receivedRequest. set (d := default _ (reqGraphID r)) in *. cbv zeta in *.
  replace (match reqTxid r with Some h => hbytes h | None => replicate 32 Byte.x00 end)
    with (hbytes (default zero_hash (reqTxid r))) in * by (by destruct (reqTxid r)).
  assert (Hlen : len data = 74).
  { by rewrite Hdata, !len_app, !len_put_u32, !len_hash. }
  rewrite <- !app_assoc in H. apply at_app in H as [H0 H]. apply at_app in H as [H1 H].
  apply at_app in H as [H2 H]. apply at_app in H as [H3 H]. apply at_app in H as [H4 H5].
  rewrite len_writeVersion, ?len_put_u32, ?len_hash in *.
  unfold DeserializeNodeRequest. rewrite (checkVersion_at _ H0). simpl. rewrite Hlen. simpl.
  rewrite (hash_at_at _ 1 _ H1). simpl. rewrite (slice_u32_at _ (1 + 32) _ _ Hd H2) by done. simpl.
  rewrite (slice_at _ (1 + 36) _ _ H3) by (by rewrite len_hash). simpl.
  rewrite (slice_u32_at _ (1 + 68) _ _ Hi H4) by done. simpl.
  rewrite (index_at _ (1 + 72) _ H5). simpl. rewrite array32_hbytes. fold d. destruct d. by destruct (Metadata r).
Qed.

Lemma initialResponse_roundtrip r :
  is_u64 (respSince r) -> Forall output_typed (respUTXOList r) -> allocated (serializeInitialResponse r) ->
  DeserializeInitialResponse (serializeInitialResponse r) = Ok r.
Proof.
  intros Hs Hos Ha. pose proof (at_whole (serializeInitialResponse r)) as H.
  remember (serializeInitialResponse r) as data eqn:Hdata. rewrite Hdata in H at 2.
  unfold serializeInitialResponse, appendOutputList in *.
  rewrite AppendUvarint_app, <- !app_assoc in *. fold (appendOutputList [] (respUTXOList r)) in *.
  assert (Hlen : 9 <= len data).
  { rewrite Hdata, !len_app, len_writeVersion, len_put_u64.
    pose proof (len_nonneg (appendOutputList [] (respUTXOList r))). lia. }
  apply at_app in H as [H0 H]. apply at_app in H as [H1 H].
  rewrite len_writeVersion, ?len_put_u64 in *.
  unfold DeserializeInitialResponse. rewrite (checkVersion_at _ H0). simpl.
  destruct (Z.ltb_spec (len data - 1) 8); [lia|].
  rewrite (slice_u64_at _ 1 _ _ Hs H1) by done. simpl.
  rewrite (readOutputList_at _ _ (1 + 8) Hos Ha H). simpl. by destruct r.
Qed.

Lemma initialReply_roundtrip r :
  Forall output_typed (replyUTXOList r) -> allocated (serializeInitialReply r) ->
  DeserializeInitialReply (serializeInitialReply r) = Ok r.
Proof.
  intros Hos Ha. pose proof (at_whole (serializeInitialReply r)) as H.
  remember (serializeInitialReply r) as data eqn:Hdata. rewrite Hdata in H at 2.
  unfold serializeInitialReply, appendOutputList in *.
  rewrite AppendUvarint_app, <- !app_assoc in *.
  apply at_app in H as [H0 H]. rewrite len_writeVersion in *.
  unfold DeserializeInitialReply. rewrite (checkVersion_at _ H0). simpl.
  rewrite (readOutputList_at _ _ 1 Hos Ha H). simpl. by destruct r.
Qed.

(** The four messages of the initial exchange and of the node requests
    survive the wire: decoding what was encoded gives the message back (in a node
    request, nil identifiers become zeros). *)
Theorem exchange_roundtrip req resp reply nreq :
  request_typed req ->
  is_u64 (respSince resp) -> Forall output_typed (respUTXOList resp) ->
  allocated (serializeInitialResponse resp) ->
  Forall output_typed (replyUTXOList reply) -> allocated (serializeInitialReply reply) ->
  nodeRequest_typed nreq ->
  DeserializeInitialRequest (serializeInitialRequest req) = Ok req /\
  DeserializeInitialResponse (serializeInitialResponse resp) = Ok resp /\
  DeserializeInitialReply (serializeInitialReply reply) = Ok reply /\
  DeserializeNodeRequest (serializeNodeRequest nreq) = Ok (receivedRequest nreq).
Proof.
  intros. split_and!; [by apply initialRequest_roundtrip|by apply initialResponse_roundtrip|
    by apply initialReply_roundtrip|by apply nodeRequest_roundtrip].
Qed.

Lemma exchange_roundtrip_witness :
  let os := [mkOutput zero_hash 5 (2 ^ 62)] in
  DeserializeInitialResponse (serializeInitialResponse (mkInitialResponse os 0)) =
  Ok (mkInitialResponse os 0).
Proof.
  intros os.
  assert (Hos : Forall output_typed os) by (repeat constructor; vm_compute; discriminate).
  apply (exchange_roundtrip (mkInitialRequest 1 0 10) (mkInitialResponse os 0) (mkInitialReply os)
    (mkNodeRequest None None 0 true)); try exact Hos.
  - split_and!; vm_compute; (discriminate || split; discriminate).
  - vm_compute; split; discriminate.
  - vm_compute; discriminate.
  - vm_compute; discriminate.
  - split; [done|vm_compute; split; discriminate].
Defined.

(** ** Messages from a hostile peer *)

Lemma slice_inside_u32 data lo :
  0 <= lo -> lo + 4 <= len data ->
  exists v, u32_at data lo = Ok v /\ is_u32 v /\ at_ data lo (put_u32 v).
Proof.
  intros H1 H2. destruct (slice_inside data lo (lo + 4)) as (e & _ & He & Hl); [lia..|].
  exists (le_combine e). assert (Hle : length e = 4%nat) by (unfold len in Hl; lia).
  pose proof (le_combine_bound e) as Hb. rewrite Hle in Hb.
  assert (Hp : put_u32 (le_combine e) = e) by (apply split_le_combine'; done).
  assert (is_u32 (le_combine e)) by (unfold is_u32, MaxUint32; lia).
  rewrite Hp. split_and!; try done. apply u32_at_at; [done|]. by rewrite Hp.
Qed.

Lemma slice_inside_u64 data lo :
  0 <= lo -> lo + 8 <= len data ->
  exists v, u64_at data lo = Ok v /\ is_u64 v /\ at_ data lo (put_u64 v).
Proof.
  intros H1 H2. destruct (slice_inside data lo (lo + 8)) as (e & _ & He & Hl); [lia..|].
  exists (le_combine e). assert (Hle : length e = 8%nat) by (unfold len in Hl; lia).
  pose proof (le_combine_bound e) as Hb. rewrite Hle in Hb.
  assert (Hp : put_u64 (le_combine e) = e) by (apply split_le_combine'; done).
  assert (is_u64 (le_combine e)) by (unfold is_u64, MaxUint64; lia).
  rewrite Hp. split_and!; try done. apply u64_at_at; [done|]. by rewrite Hp.
Qed.

(** When the outputs lie inside the data, the loop reads them. *)
Lemma readOutputs_inside n data off :
  0 <= off -> off + 44 * Z.of_nat n <= len data ->
  exists os, Forall output_typed os /\ length os = n /\
    readOutputs n data off = Ok (os, off + 44 * Z.of_nat n).
Proof.
  revert off. induction n as [|n IH]; intros off H0 Hin.
  - exists []. split_and!; [constructor|done|]. simpl. by rewrite Z.add_0_r.
  - destruct (slice_inside data off (off + 32)) as (e & Ee & _ & _); [lia..|].
    destruct (slice_inside_u32 data (off + 32)) as (i & Ei & Hi & _); [lia..|].
    destruct (slice_inside_u64 data (off + 36)) as (s & Es & Hs & _); [lia..|].
    destruct (IH (off + 44)) as (os & Hos & Hl & E); [lia..|].
    exists (mkOutput (array32 e) i s :: os). split_and!; [by constructor|simpl; congruence|].
    cbn [readOutputs]. unfold hash_at. rewrite Ee. simpl. rewrite Ei. simpl. rewrite Es. simpl.
    rewrite E. simpl. do 2 f_equal. lia.
Qed.

(** The exact behaviour of [readOutputList] on untrusted data.  When the
    announced outputs lie inside the data it returns that many; otherwise it
    returns an error, unless the product [count * 44] wraps around in 64 bits to
    something that passes the check: then the allocation panics. *)
Theorem readOutputList_spec data offset :
  allocated data -> 0 <= offset <= len data ->
  let '(count, n) := Uvarint (drop (Z.to_nat offset) data) in
  (n <= 0 -> readOutputList data offset = Err ErrWireInvalidVarint) /\
  (0 < n -> offset + n + 44 * count <= len data ->
     exists os, Forall output_typed os /\ len os = count /\
       readOutputList data offset = Ok (os, offset + n + 44 * count)) /\
  (0 < n -> len data < offset + n + 44 * count ->
     readOutputList data offset =
       if int64 (offset + n + int64 (int64 count * 44)) <=? len data then Panic else Err ErrWireTooShort).
Proof.
  unfold allocated, maxAlloc. intros Ha Hoff.
  unfold readOutputList, slice_from, slice.
  destruct (Z.leb_spec 0 offset); [|lia]. destruct (Z.leb_spec offset (len data)); [|lia].
  rewrite Z.leb_refl. simpl. rewrite take_ge by (rewrite length_drop; unfold len; lia).
  destruct (Uvarint (drop (Z.to_nat offset) data)) as [count n] eqn:Eu.
  assert (Hlen : len (drop (Z.to_nat offset) data) = len data - offset).
  { unfold len in *. rewrite length_drop. lia. }
  split_and!; intros Hn; destruct (Z.leb_spec n 0); try lia; try done.
  all: apply Uvarint_inside in Eu as [Hnl Hu]; [|done]; rewrite Hlen in Hnl; unfold is_u64, MaxUint64 in Hu; intros Hin.
  - destruct (readOutputs_inside (Z.to_nat count) data (offset + n)) as (os & Hos & Hl & E); [lia..|].
    exists os. split_and!; [done|unfold len; lia|].
    rewrite (int64_small count) by lia. rewrite (int64_small (count * 44)) by lia.
    rewrite int64_small by lia. destruct (Z.ltb_spec (len data) (offset + n + count * 44)); [lia|].
    unfold make_slice, maxAlloc. destruct (Z.ltb_spec (2 ^ 48) (8 * count)); [lia|]. simpl.
    rewrite E. do 2 f_equal. lia.
  - rewrite <- Z.add_assoc in *. set (w := int64 (offset + (n + int64 (int64 count * 44)))).
    destruct (Z.ltb_spec (len data) w); destruct (Z.leb_spec w (len data)); try lia; [done|].
    unfold make_slice, maxAlloc. destruct (Z.ltb_spec (2 ^ 48) (8 * count)); [done|].
    exfalso. subst w. rewrite (int64_small count), (int64_small (count * 44)), int64_small in * by lia. lia.
Qed.

Lemma readOutputList_spec_witness :
  readOutputList (AppendUvarint [] (2 ^ 62)) 0 = Panic.
Proof.
  destruct (readOutputList_spec (AppendUvarint [] (2 ^ 62)) 0) as (_ & _ & H).
  - vm_compute. discriminate.
  - vm_compute. split; discriminate.
  - rewrite H; reflexivity.
Defined.

(** The bounds of the counts can be evaded, although the source says that
    the counts are bounded by the length of the data: ten bytes of count make
    [DeserializeInitialReply], [DeserializeInitialResponse] and [DeserializeNode]
    panic, and the count 2^63 makes [DeserializeNodeResponse] accept a message
    that announces 2^63 inputs as an empty response. *)
Theorem counts_wrap_around :
  DeserializeInitialReply (WireVersion :: AppendUvarint [] (2 ^ 62)) = Panic /\
  DeserializeInitialResponse (WireVersion :: put_u64 0 ++ AppendUvarint [] (2 ^ 62)) = Panic /\
  DeserializeNode (WireVersion :: replicate 40 Byte.x00 ++ AppendUvarint [] (2 ^ 63)) = Panic /\
  DeserializeNodeResponse (WireVersion :: AppendUvarint [] (2 ^ 63)) = Ok (mkNodeResponse ∅).
Proof. split_and!; vm_compute; reflexivity. Qed.

End GaspWire.
