(* ===== verification/GaspSync.v ===== *)
(** * pkg/core/gasp/gasp.go: the synchronisation of a graph

    The recursive descent that fetches a graph from a peer, and its completion.
    The storage and the peer are interfaces ([Storage], [Remote]); every call to
    them is recorded in a trace, so that the theorems can speak about the order of
    the calls.  Logging is not modelled.  The model is the run of one goroutine:
    what [NewGASP] gives with [Concurrency <= 1], whose limiter has one slot. *)

From S2P Require Import Prelude Bytes Runs GaspTypes.
Import Gasp.
Open Scope Z_scope.

(** [gasp.Storage] *)
Class Storage (W : Type) := {
  FindKnownUTXOs : Z -> Z -> Op W (list Output);
  HasOutputs : list Outpoint -> Op W (list bool);
  HydrateGASPNode : option Outpoint -> Outpoint -> bool -> Op W (option Node);
  FindNeededInputs : Node -> Op W (option NodeResponse);
  AppendToGraph : Node -> option Outpoint -> Op W unit;
  ValidateGraphAnchor : option Outpoint -> Op W unit;
  DiscardGraph : option Outpoint -> Op W unit;
  FinalizeGraph : option Outpoint -> Op W unit }.

(** [gasp.Remote] *)
Class Remote (W : Type) := {
  rGetInitialResponse : InitialRequest -> Op W (option InitialResponse);
  rGetInitialReply : InitialResponse -> Op W (option InitialReply);
  rRequestNode : option Outpoint -> Outpoint -> bool -> Op W (option Node);
  rSubmitNode : Node -> Op W (option NodeResponse) }.

(** The SDK's transaction parser and identifier. *)
Class SDK (Tx : Type) := {
  NewTransactionFromBytes : list byte -> result Tx;
  TxID : Tx -> Hash }.

Module GaspSync.
Section Sync.
Context {W Tx : Type} `{Storage W} `{Remote W} `{MapRange W} `{SDK Tx}.

(** ** State *)

Inductive call :=
  | RequestNodeCall (graphID : option Outpoint) (outpoint : Outpoint)
  | AppendCall (graphID : option Outpoint) (node : Outpoint) (spentBy : option Outpoint)
  | NeededCall (node : Outpoint)
  | ValidateCall (graphID : option Outpoint) (r : result unit)
  | FinalizeCall (graphID : option Outpoint) (r : result unit)
  | DiscardCall (graphID : option Outpoint)
  | HasOutputsCall (outpoints : list Outpoint)
  | KnownCall (since : Z)
  | HydrateCall (graphID : option Outpoint) (outpoint : Outpoint)
  | SubmitCall (node : Outpoint).

(** The components' state, the nodes seen in this graph, the calls so far. *)
Record St := mkSt { world : W; seenNodes : gset Outpoint; trace : list call }.

Local Abbreviation Run := (Runs.Run St).

(** A call of a component, recorded with its outcome. *)
Definition invoke {A} (op : Op W A) (ev : result A -> call) : Run A := fun s =>
  let '(r, w) := op (world s) in Some (r, mkSt w (seenNodes s) (trace s ++ [ev r])).

(** ** Operations *)

(** [GASP.computeTxID], with its recovery from the parser's panics. *)
Definition computeTxID (rawtx : list byte) : result Hash :=
  if len rawtx <? 10 then Err ErrTransactionHexTooShort
  else if 100000000 <? len rawtx then Err ErrTransactionHexTooLong
  else match NewTransactionFromBytes rawtx with
       | Ok tx => Ok (TxID tx)
       | Err e => Err e
       | Panic => Err ErrTransactionParsingPanic
       end.

(** [GASP.CompleteGraph] *)
Definition CompleteGraph (graphID : option Outpoint) : Run unit := fun s =>
  match invoke (ValidateGraphAnchor graphID) (ValidateCall graphID) s with
  | Some (Ok _, s) =>
      match invoke (FinalizeGraph graphID) (FinalizeCall graphID) s with
      | Some (Ok _, s) =>
          dropError (invoke (DiscardGraph graphID) (fun _ => DiscardCall graphID)) s
      | Some (Err e, s) =>
          (dropError (invoke (DiscardGraph graphID) (fun _ => DiscardCall graphID)) ≫= fun _ =>
           lift (Err e)) s
      | r => r
      end
  | Some (Err e, s) =>
      (dropError (invoke (DiscardGraph graphID) (fun _ => DiscardCall graphID)) ≫= fun _ =>
       lift (Err e)) s
  | r => r
  end.

(** [seenNodes.Load] and [seenNodes.Store] *)
Definition isSeen (o : Outpoint) : Run bool := fun s =>
  Some (Ok (bool_decide (o ∈ seenNodes s)), s).
Definition markSeen (o : Outpoint) : Run unit := fun s =>
  Some (Ok tt, mkSt (world s) ({[ o ]} ∪ seenNodes s) (trace s)).

(** [range neededInputs.RequestedInputs] *)
Definition rangeInputs (m : gmap Outpoint (option NodeResponseData))
    : Run (list (Outpoint * option NodeResponseData)) := fun s =>
  Some (Ok (range m (world s)), s).

(** The body of the loop of [processIncomingNode] over the needed inputs; the
    log line reads [data.Metadata]. *)
Fixpoint processInputs (processUTXO : Outpoint -> option Outpoint -> option Outpoint -> Run unit)
    (nodeOutpoint : Outpoint) (graphID : option Outpoint)
    (inputs : list (Outpoint * option NodeResponseData)) : Run unit :=
  match inputs with
  | [] => mret tt
  | (_, None) :: _ => lift Panic
  | (outpoint, Some _) :: inputs' =>
      dropError (processUTXO outpoint (Some nodeOutpoint) graphID) ≫= fun _ =>
      processInputs processUTXO nodeOutpoint graphID inputs'
  end.

(** [GASP.processIncomingNode] *)
Definition processIncomingNode
    (processUTXO : Outpoint -> option Outpoint -> option Outpoint -> Run unit)
    (node : option Node) (spentBy : option Outpoint) : Run unit :=
  match node with
  | None => lift Panic
  | Some node =>
      lift (computeTxID (RawTx node)) ≫= fun txid =>
      let nodeOutpoint := mkOutpoint txid (nodeOutputIndex node) in
      isSeen nodeOutpoint ≫= fun seen =>
      if (seen : bool) then mret tt else
      markSeen nodeOutpoint ≫= fun _ =>
      invoke (AppendToGraph node spentBy) (fun _ => AppendCall (GraphID node) nodeOutpoint spentBy) ≫= fun _ =>
      invoke (FindNeededInputs node) (fun _ => NeededCall nodeOutpoint) ≫= fun neededInputs =>
      match neededInputs with
      | None => mret tt
      | Some r =>
          rangeInputs (RequestedInputs r) ≫= fun inputs =>
          processInputs processUTXO nodeOutpoint (GraphID node) inputs
      end
  end.

(** [GASP.processUTXO] *)
Fixpoint processUTXO (fuel : nat) (outpoint : Outpoint) (spentBy graphID : option Outpoint) : Run unit :=
  match fuel with
  | O => fun _ => None
  | S fuel' =>
      invoke (rRequestNode graphID outpoint true) (fun _ => RequestNodeCall graphID outpoint) ≫= fun resolvedNode =>
      processIncomingNode (processUTXO fuel') resolvedNode spentBy ≫= fun _ =>
      match spentBy with
      | None => CompleteGraph graphID
      | Some _ => mret tt
      end
  end.

(** [GASP.ProcessUTXOToCompletion], for the goroutine that does the work (no
    other call for the same outpoint is in flight). *)
Definition ProcessUTXOToCompletion (fuel : nat) (outpoint : Outpoint) (spentBy : option Outpoint)
    : Run unit := fun s =>
  match processUTXO fuel outpoint spentBy (Some outpoint) s with
  | Some (Err e, s) =>
      (dropError (invoke (DiscardGraph (Some outpoint)) (fun _ => DiscardCall (Some outpoint))) ≫= fun _ =>
       lift (Err e)) s
  | r => r
  end.

(** The goroutines of [processOutgoingNode], one per requested input, in the order
    in which they are started; their errors are logged. *)
Fixpoint processRequested (processOutgoingNode : option Node -> Run unit)
    (graphID : option Outpoint) (inputs : list (Outpoint * option NodeResponseData)) : Run unit :=
  match inputs with
  | [] => mret tt
  | (_, None) :: _ => lift Panic
  | (outpoint, Some data) :: inputs' =>
      dropError
        (invoke (HydrateGASPNode graphID outpoint (dataMetadata data))
           (fun _ => HydrateCall graphID outpoint) ≫= processOutgoingNode) ≫= fun _ =>
      processRequested processOutgoingNode graphID inputs'
  end.

(** [GASP.processOutgoingNode] *)
Fixpoint processOutgoingNode (fuel : nat) (unidirectional : bool) (node : option Node) : Run unit :=
  match fuel with
  | O => fun _ => None
  | S fuel' =>
      if unidirectional then mret tt else
      match node with
      | None => lift (Err ErrNodeNilInProcessOutgoingNode)
      | Some node =>
          lift (computeTxID (RawTx node)) ≫= fun txid =>
          let nodeID := mkOutpoint txid (nodeOutputIndex node) in
          isSeen nodeID ≫= fun seen =>
          if (seen : bool) then mret tt else
          markSeen nodeID ≫= fun _ =>
          invoke (rSubmitNode node) (fun _ => SubmitCall nodeID) ≫= fun response =>
          match response with
          | None => mret tt
          | Some r =>
              rangeInputs (RequestedInputs r) ≫= fun inputs =>
              processRequested (processOutgoingNode fuel' unidirectional) (GraphID node) inputs
          end
      end
  end.

(** The fields of [GASP] that the synchronisation reads and writes. *)
Record GASP := mkGASP { gVersion : Z; LastInteraction : Z; Unidirectional : bool }.

(** The loop of [GASP.Sync] over the page: the last interaction, the outpoints
    already shared and the queue of outputs to ingest. *)
Fixpoint selectOutputs (outputs : list Output) (has : list bool) (last : Z) (shared : gset Outpoint)
    : result (Z * gset Outpoint * list Output) :=
  match outputs with
  | [] => Ok (last, shared, [])
  | utxo :: outputs' =>
      let last := if float_gt (Score utxo) last then Score utxo else last in
      match has with
      | [] => Panic
      | true :: has' => selectOutputs outputs' has' last ({[ toOutpoint utxo ]} ∪ shared)
      | false :: has' =>
          '(last', shared', queue) ← selectOutputs outputs' has' last shared;
          Ok (last', shared', if bool_decide (toOutpoint utxo ∈ shared) then queue else utxo :: queue)
      end
  end.

(** A call with a fresh [sync.Map] of seen nodes. *)
Definition withFreshNodes {A} (m : Run A) : Run A := fun s =>
  match m (mkSt (world s) ∅ (trace s)) with
  | Some (r, s') => Some (r, mkSt (world s') (seenNodes s) (trace s'))
  | None => None
  end.

(** The goroutines of the ingestion, in the order of the queue; the group's error
    is the first one, and every output is processed whatever the others did. *)
Fixpoint ingest (fuel : nat) (queue : list Output) (shared : gset Outpoint) (first : option error)
    : Run (gset Outpoint * option error) :=
  match queue with
  | [] => mret (shared, first)
  | utxo :: queue' => fun s =>
      match withFreshNodes (ProcessUTXOToCompletion fuel (toOutpoint utxo) None) s with
      | Some (Ok _, s) => ingest fuel queue' ({[ toOutpoint utxo ]} ∪ shared) first s
      | Some (Err e, s) =>
          ingest fuel queue' shared (match first with Some e' => Some e' | None => Some e end) s
      | Some (Panic, s) => Some (Panic, s)
      | None => None
      end
  end.

(** The reply half, for the outputs that the peer does not have. *)
Fixpoint sendReplies (fuel : nat) (unidirectional : bool) (utxos : list Output) : Run unit :=
  match utxos with
  | [] => mret tt
  | utxo :: utxos' =>
      let o := toOutpoint utxo in
      dropError
        (invoke (HydrateGASPNode (Some o) o true) (fun _ => HydrateCall (Some o) o) ≫= fun node =>
         match node with
         | None => mret tt
         | Some _ => withFreshNodes (processOutgoingNode fuel unidirectional node)
         end) ≫= fun _ =>
      sendReplies fuel unidirectional utxos'
  end.

(** [GASP.Sync]; the new [LastInteraction] is kept whatever the outcome. *)
Definition Sync (fuel : nat) (g : GASP) (limit : Z) : St -> option (result unit * Z * St) := fun s =>
  let '(r, w) := rGetInitialResponse (mkInitialRequest (gVersion g) (LastInteraction g) limit) (world s) in
  let s := mkSt w (seenNodes s) (trace s) in
  match r with
  | Err e => Some (Err e, LastInteraction g, s)
  | Panic | Ok None => Some (Panic, LastInteraction g, s)
  | Ok (Some initialResponse) =>
      let page := respUTXOList initialResponse in
      if len page =? 0 then Some (Ok tt, LastInteraction g, s) else
      match invoke (HasOutputs (map toOutpoint page)) (fun _ => HasOutputsCall (map toOutpoint page)) s with
      | None => None
      | Some (Err e, s) => Some (Err e, LastInteraction g, s)
      | Some (Panic, s) => Some (Panic, LastInteraction g, s)
      | Some (Ok hasOutputs, s) =>
          match selectOutputs page hasOutputs (LastInteraction g) ∅ with
          | Err e => Some (Err e, LastInteraction g, s)
          | Panic => Some (Panic, LastInteraction g, s)
          | Ok (last, shared, queue) =>
              let finish := '(shared, first) ← ingest fuel queue shared None;
                match first with
                | Some e => lift (Err e)
                | None =>
                    if Unidirectional g then mret tt else
                    localUTXOs ← invoke (FindKnownUTXOs (respSince initialResponse) 0)
                                   (fun _ => KnownCall (respSince initialResponse));
                    sendReplies fuel (Unidirectional g)
                      (filter (fun utxo => toOutpoint utxo ∉ shared) localUTXOs)
                end in
              match finish s with
              | Some (r, s) => Some (r, last, s)
              | None => None
              end
          end
      end
  end.

(** [GASP.GetInitialResponse] *)
Definition GetInitialResponse (g : GASP) (request : InitialRequest) : Op W InitialResponse := fun w =>
  if negb (Version request =? gVersion g) then (Err ErrVersionMismatch, w)
  else let '(r, w) := FindKnownUTXOs (reqSince request) (Limit request) w in
       ((fun utxos => mkInitialResponse utxos (LastInteraction g)) <$> r, w).

(** [GASP.GetInitialReply] *)
Definition GetInitialReply (response : InitialResponse) : Op W InitialReply := fun w =>
  let '(r, w) := FindKnownUTXOs (respSince response) 0 w in
  ((fun known => mkInitialReply
      (filter (fun k => negb (existsb (fun u => bool_decide (outTxid u = outTxid k) &&
                                             (OutputIndex u =? OutputIndex k))
                                 (respUTXOList response)) = true) known)) <$> r, w).

(** [GASP.RequestNode] *)
Definition RequestNode (graphID : option Outpoint) (outpoint : Outpoint) (metadata : bool)
    : Op W (option Node) := HydrateGASPNode graphID outpoint metadata.

(** [GASP.SubmitNode] *)
Definition SubmitNode (node : Node) (nodeOutpoint : Outpoint) : Run (option NodeResponse) :=
  invoke (AppendToGraph node None) (fun _ => AppendCall (GraphID node) nodeOutpoint None) ≫= fun _ =>
  invoke (FindNeededInputs node) (fun _ => NeededCall nodeOutpoint) ≫= fun requestedInputs =>
  match requestedInputs with
  | None => mret None
  | Some _ => CompleteGraph (GraphID node) ≫= fun _ => mret requestedInputs
  end.

(** ** Reasoning about runs *)

Lemma wp_call {A} t (op : Op W A) ev s (Q : result A -> St -> Prop) :
  (forall r w, Q r (mkSt w (seenNodes s) (trace s ++ [ev r]))) -> wp t (invoke op ev) s Q.
Proof. unfold wp, invoke. intros HQ. destruct (op (world s)) as [r w]. apply HQ. Qed.

Lemma wp_isSeen t o s (Q : result bool -> St -> Prop) :
  Q (Ok (bool_decide (o ∈ seenNodes s))) s -> wp t (isSeen o) s Q.
Proof. done. Qed.

Lemma wp_markSeen t o s (Q : result unit -> St -> Prop) :
  Q (Ok tt) (mkSt (world s) ({[ o ]} ∪ seenNodes s) (trace s)) -> wp t (markSeen o) s Q.
Proof. done. Qed.

Lemma wp_rangeInputs t m s (Q : result _ -> St -> Prop) :
  Q (Ok (range m (world s))) s -> wp t (rangeInputs m) s Q.
Proof. done. Qed.

(** ** The calls of a traversal *)

Definition is_fetch (c : call) : Prop :=
  match c with RequestNodeCall _ _ | AppendCall _ _ _ | NeededCall _ => True | _ => False end.

(** The nodes handed to [AppendToGraph]. *)
Definition appended (tr : list call) : list Outpoint :=
  omap (fun c => match c with AppendCall _ n _ => Some n | _ => None end) tr.

(** Every node is appended after the node that spends it. *)
Fixpoint linked (known : gset Outpoint) (tr : list call) : Prop :=
  match tr with
  | [] => True
  | AppendCall _ n sp :: tr' =>
      (forall p, sp = Some p -> p ∈ known) /\ linked ({[ n ]} ∪ known) tr'
  | _ :: tr' => linked known tr'
  end.

Lemma appended_app t1 t2 : appended (t1 ++ t2) = appended t1 ++ appended t2.
Proof. apply omap_app. Qed.

Lemma linked_app known t1 t2 :
  linked known t1 -> linked (list_to_set (appended t1) ∪ known) t2 -> linked known (t1 ++ t2).
Proof.
  revert known. induction t1 as [|c t1 IH]; intros known; simpl.
  - intros _. by rewrite union_empty_l_L.
  - destruct c; simpl; auto. intros [? ?] H'. split; [done|]. apply IH; [done|].
    replace (list_to_set (appended t1) ∪ ({[node]} ∪ known))
      with ({[node]} ∪ list_to_set (appended t1) ∪ known) by set_solver. done.
Qed.

Definition done_nodes (s : St) : gset Outpoint := list_to_set (appended (trace s)).

(** What one part of a traversal does between two states. *)
Definition grow (s s' : St) : Prop := exists tr,
  trace s' = trace s ++ tr /\ Forall is_fetch tr /\ NoDup (appended tr) /\
  linked (done_nodes s) tr /\
  (forall o, o ∈ appended tr -> (o ∉ seenNodes s) /\ o ∈ seenNodes s') /\
  seenNodes s ⊆ seenNodes s'.

Lemma grow_refl s : grow s s.
Proof.
  exists []. rewrite app_nil_r. simpl. split_and!; try done; try constructor; set_solver.
Qed.

Lemma done_nodes_app s s' tr :
  trace s' = trace s ++ tr -> done_nodes s' = list_to_set (appended tr) ∪ done_nodes s.
Proof. intros E. unfold done_nodes. rewrite E, appended_app, list_to_set_app_L. set_solver. Qed.

Lemma grow_done s s' : grow s s' -> done_nodes s ⊆ done_nodes s'.
Proof. intros (tr & E & _). rewrite (done_nodes_app _ _ _ E). set_solver. Qed.

Lemma grow_seen s s' : grow s s' -> seenNodes s ⊆ seenNodes s'.
Proof. by intros (tr & _ & _ & _ & _ & _ & ?). Qed.

Lemma grow_trans s1 s2 s3 : grow s1 s2 -> grow s2 s3 -> grow s1 s3.
Proof.
  intros (t1 & E1 & F1 & N1 & L1 & O1 & S1) (t2 & E2 & F2 & N2 & L2 & O2 & S2).
  exists (t1 ++ t2). rewrite E2, E1, appended_app, <- app_assoc. split_and!; [done| | | | |set_solver].
  - by apply Forall_app.
  - apply NoDup_app. split_and!; [done| |done]. intros o Ho1 Ho2.
    apply O1 in Ho1. apply O2 in Ho2. set_solver.
  - apply linked_app; [done|]. by rewrite <- (done_nodes_app s1 s2 t1 E1).
  - intros o [Ho|Ho]%elem_of_app; [apply O1 in Ho|apply O2 in Ho]; set_solver.
Qed.

(** A call that is not an append. *)
Lemma grow_fetch s w c :
  is_fetch c -> appended [c] = [] -> grow s (mkSt w (seenNodes s) (trace s ++ [c])).
Proof.
  intros Hf Ha. exists [c]. rewrite Ha. simpl. split_and!; try done.
  - by repeat constructor.
  - constructor.
  - by destruct c.
  - intros o Ho. set_solver.
Qed.

Lemma grow_append s w g n sp :
  n ∉ seenNodes s -> (forall p, sp = Some p -> p ∈ done_nodes s) ->
  grow s (mkSt w ({[ n ]} ∪ seenNodes s) (trace s ++ [AppendCall g n sp])).
Proof.
  intros Hn Hp. exists [AppendCall g n sp]. simpl. split_and!; try done.
  - by repeat constructor.
  - apply NoDup_singleton.
  - intros o Ho. set_solver.
  - set_solver.
Qed.

(** ** Traversals *)

Lemma processInputs_wp t rec n g inputs s :
  n ∈ done_nodes s ->
  (forall o s', grow s s' -> wp t (rec o (Some n) g) s' (fun _ s'' => grow s' s'')) ->
  wp t (processInputs rec n g inputs) s (fun _ s' => grow s s').
Proof.
  intros Hn Hrec. cut (forall s', grow s s' ->
    wp t (processInputs rec n g inputs) s' (fun _ s'' => grow s s'')).
  { intros Hc. apply Hc, grow_refl. }
  induction inputs as [|[o [d|]] inputs IH]; intros s' Hg; simpl; [done| |done].
  apply wp_bind, wp_dropError. eapply wp_mono; [by apply Hrec|].
  intros r s'' Hg'. pose proof (grow_trans _ _ _ Hg Hg').
  destruct r as [[]|e|]; simpl; auto.
Qed.

Lemma processIncomingNode_wp t rec node sp s :
  (forall p, sp = Some p -> p ∈ done_nodes s) ->
  (forall nd txid o s', let n := mkOutpoint txid (nodeOutputIndex nd) in
     node = Some nd -> computeTxID (RawTx nd) = Ok txid -> (n ∉ seenNodes s) ->
     {[ n ]} ∪ seenNodes s ⊆ seenNodes s' -> n ∈ done_nodes s' ->
     wp t (rec o (Some n) (GraphID nd)) s' (fun _ s'' => grow s' s'')) ->
  wp t (processIncomingNode rec node sp) s (fun _ s' => grow s s').
Proof.
  intros Hsp Hrec. destruct node as [nd|]; simpl; [|apply grow_refl].
  apply wp_bind, wp_lift. destruct (computeTxID (RawTx nd)) as [txid|e|] eqn:Etx; simpl; [|apply grow_refl..].
  apply wp_bind, wp_isSeen. case_bool_decide as Hseen; simpl; [apply grow_refl|].
  set (n := mkOutpoint txid (nodeOutputIndex nd)) in *.
  apply wp_bind, wp_markSeen, wp_bind, wp_call. intros r w. simpl.
  pose proof (grow_append s w (GraphID nd) n sp Hseen Hsp) as Ha.
  assert (Hdone : n ∈ done_nodes (mkSt w ({[n]} ∪ seenNodes s) (trace s ++ [AppendCall (GraphID nd) n sp]))).
  { rewrite (done_nodes_app s _ [AppendCall (GraphID nd) n sp]) by done. simpl. set_solver. }
  destruct r as [[]|e|]; [|done..].
  apply wp_bind, wp_call. intros r w'. simpl.
  set (s1 := mkSt w _ _) in *. pose proof (grow_fetch s1 w' (NeededCall n) I eq_refl) as Hf.
  change (trace s ++ [AppendCall (GraphID nd) n sp]) with (trace s1).
  change ({[n]} ∪ seenNodes s) with (seenNodes s1).
  pose proof (grow_trans _ _ _ Ha Hf) as Hg. apply (grow_done _ _ Hf) in Hdone.
  destruct r as [[resp|]|e|]; [|done..].
  apply wp_bind, wp_rangeInputs. eapply wp_mono; [apply processInputs_wp|].
  - done.
  - intros o s' Hs'. apply (Hrec nd txid); [done..| |].
    + exact (grow_seen _ _ Hs').
    + by apply (grow_done _ _ Hs').
  - intros ? s' Hs'. exact (grow_trans _ _ _ Hg Hs').
Qed.

(** Every node that the peer can deliver is one of [U]. *)
Definition delivers (U : gset Outpoint) : Prop :=
  forall g o m w n w' txid,
    rRequestNode g o m w = (Ok (Some n), w') -> computeTxID (RawTx n) = Ok txid ->
    mkOutpoint txid (nodeOutputIndex n) ∈ U.

(** The fetching part of [processUTXO]. *)
Definition fetchNode (fuel : nat) (outpoint : Outpoint) (spentBy graphID : option Outpoint) : Run unit :=
  invoke (rRequestNode graphID outpoint true) (fun _ => RequestNodeCall graphID outpoint) ≫= fun resolvedNode =>
  processIncomingNode (processUTXO fuel) resolvedNode spentBy.

Lemma processUTXO_unfold fuel o sp g s :
  processUTXO (S fuel) o sp g s =
  (fetchNode fuel o sp g ≫= fun _ =>
   match sp with None => CompleteGraph g | Some _ => mret tt end) s.
Proof.
  unfold fetchNode, mbind, run_bind. cbn [processUTXO]. unfold mbind, run_bind.
  destruct (invoke _ _ s) as [[[nd|e|] s']|]; done.
Qed.

Lemma fetchNode_wp t U fuel o sp g s :
  (t = true -> delivers U /\ (size (U ∖ seenNodes s) <= fuel)%nat) ->
  (forall p, sp = Some p -> p ∈ done_nodes s) ->
  wp t (fetchNode fuel o sp g) s (fun _ s' => grow s s').
Proof.
  revert o sp g s. induction fuel as [|fuel IH]; intros o sp g s Hfuel Hsp; unfold fetchNode;
    apply wp_bind; unfold wp at 1, invoke; destruct (rRequestNode g o true (world s)) as [r w] eqn:Er;
    pose proof (grow_fetch s w (RequestNodeCall g o) I eq_refl) as Hg;
    (destruct r as [node|e|]; [|done..]);
    (eapply wp_mono; [apply processIncomingNode_wp|intros ? s' Hs'; exact (grow_trans _ _ _ Hg Hs')]).
  1, 3: intros p Hp; eapply grow_done; [done|auto].
  - intros nd txid o' s' n -> Etx Hseen _ _. subst n. simpl in Hseen.
    destruct t; [|done]. destruct (Hfuel eq_refl) as [HU Hsz].
    pose proof (HU _ _ _ _ _ _ _ Er Etx) as Hin. exfalso.
    assert (size (U ∖ seenNodes s) <> 0)%nat; [|lia].
    intros E%size_empty_inv. set_solver.
  - intros nd txid o' s' n -> Etx Hseen Hsub Hdone. simpl in Hseen, Hsub.
    eapply wp_mono; [|intros ? ? HQ; exact HQ].
    unfold wp. rewrite processUTXO_unfold. fold (wp t (fetchNode fuel o' (Some n) (GraphID nd) ≫= (fun _ => mret tt)) s' (fun _ s'' => grow s' s'')).
    apply wp_bind. eapply wp_mono; [apply IH|].
    + intros ->. destruct (Hfuel eq_refl) as [HU Hsz]. split; [done|].
      pose proof (HU _ _ _ _ _ _ _ Er Etx) as Hin. fold n in Hin.
      assert (size (U ∖ seenNodes s') < size (U ∖ seenNodes s))%nat; [|lia].
      apply subset_size. set_solver.
    + by intros p [= <-].
    + intros [[]|e|] s'' Hs''; done.
Qed.

(** ** Completion *)

(** How the completion of a graph ends. *)
Inductive completion (g : option Outpoint) : list call -> result unit -> Prop :=
  | completion_invalid e :
      completion g [ValidateCall g (Err e); DiscardCall g] (Err e)
  | completion_unfinalized e :
      completion g [ValidateCall g (Ok tt); FinalizeCall g (Err e); DiscardCall g] (Err e)
  | completion_done :
      completion g [ValidateCall g (Ok tt); FinalizeCall g (Ok tt); DiscardCall g] (Ok tt).

Lemma CompleteGraph_wp g s :
  wp true (CompleteGraph g) s (fun r s' =>
    r = Panic \/ exists tail, completion g tail r /\ trace s' = trace s ++ tail).
Proof.
  unfold wp, CompleteGraph, invoke, dropError, lift, mbind, run_bind.
  destruct (ValidateGraphAnchor g (world s)) as [[[]|e|] w1]; simpl; [| |by left].
  - destruct (FinalizeGraph g w1) as [[[]|e|] w2]; simpl; [| |by left].
    + destruct (DiscardGraph g w2) as [[[]|e|] w3]; simpl; [| |by left];
        right; eexists; (split; [apply completion_done|]); simpl; by rewrite <- !app_assoc.
    + destruct (DiscardGraph g w2) as [[[]|e'|] w3]; simpl; [| |by left];
        right; eexists; (split; [apply completion_unfinalized|]); simpl; by rewrite <- !app_assoc.
  - destruct (DiscardGraph g w1) as [[[]|e'|] w2]; simpl; [| |by left];
      right; eexists; (split; [apply completion_invalid|]); simpl; by rewrite <- !app_assoc.
Qed.

(** How the processing of a root ends: either the root could not be fetched and
    nothing was validated, or the graph was completed; after a failure the graph is
    discarded (once more, when the completion had discarded it already). *)
Inductive ending (g : option Outpoint) : list call -> result unit -> Prop :=
  | ending_unfetched e : ending g [DiscardCall g] (Err e)
  | ending_failed tail e : completion g tail (Err e) -> ending g (tail ++ [DiscardCall g]) (Err e)
  | ending_done tail : completion g tail (Ok tt) -> ending g tail (Ok tt).

(** The graph is discarded and the error returned. *)
Lemma discard_wp g e s :
  wp true (dropError (invoke (DiscardGraph g) (fun _ => DiscardCall g)) ≫= fun _ => lift (@Err unit e)) s
    (fun r s' => r = Panic \/ (r = Err e /\ trace s' = trace s ++ [DiscardCall g])).
Proof. apply wp_bind, wp_dropError, wp_call. intros [[]|e'|] w; [apply wp_lift; by right..|by left]. Qed.

Lemma processUTXO_root_wp U fuel o w g :
  delivers U -> (size U <= fuel)%nat ->
  wp true (processUTXO (S fuel) o None g) (mkSt w ∅ []) (fun r s' =>
    r = Panic \/
    exists fetches tail, trace s' = fetches ++ tail /\
      Forall is_fetch fetches /\ NoDup (appended fetches) /\ linked ∅ fetches /\
      ((tail = [] /\ exists e, r = Err e) \/ completion g tail r)).
Proof.
  intros HU Hfuel. unfold wp at 1. rewrite processUTXO_unfold.
  apply (wp_bind true (fetchNode fuel o None g) (fun _ => CompleteGraph g)).
  eapply wp_mono; [apply (fetchNode_wp true U); [|done]|].
  { intros _. split; [done|]. simpl. by rewrite difference_empty_L. }
  intros r s1 (tr & E & F & N & L & _ & _). simpl in E. change (linked ∅ tr) in L.
  destruct r as [[]|e|]; [| |by left].
  - eapply wp_mono; [apply CompleteGraph_wp|]. intros r s2 [->|(tail & Hc & E2)]; [by left|].
    right. exists tr, tail. rewrite E2, E. split_and!; auto.
  - right. exists tr, []. rewrite E, app_nil_r. split_and!; eauto.
Qed.

Lemma completion_wp U fuel o w :
  delivers U -> (size U <= fuel)%nat ->
  wp true (ProcessUTXOToCompletion (S fuel) o None) (mkSt w ∅ []) (fun r s' =>
    r = Panic \/
    exists fetches tail, trace s' = fetches ++ tail /\
      Forall is_fetch fetches /\ NoDup (appended fetches) /\ linked ∅ fetches /\
      ending (Some o) tail r).
Proof.
  intros HU Hfuel. pose proof (processUTXO_root_wp U fuel o w (Some o) HU Hfuel) as Hp.
  unfold wp in *. unfold ProcessUTXOToCompletion.
  destruct (processUTXO _ _ _ _ _) as [[r s1]|]; [|done].
  destruct Hp as [->|(tr & tail & E & F & N & L & Ht)]; [by left|].
  destruct r as [[]|e|]; [| |by left].
  - right. exists tr, tail. destruct Ht as [[_ [e ?]]|Ht]; [done|]. split_and!; try done. by constructor.
  - eapply wp_mono; [apply discard_wp|]. intros r s2 [->|[-> E2]]; [by left|]. right.
    exists tr, (tail ++ [DiscardCall (Some o)]). rewrite E2, E, app_assoc. split_and!; try done.
    destruct Ht as [[-> _]|Ht]; [apply ending_unfetched|by apply ending_failed].
Qed.

(** C11.  The processing of a root terminates and has one shape.  If the peer can
    only deliver nodes of a finite set [U] then one more unit of fuel than [U] has
    elements is enough.  The calls are: first only fetches, in which no node is
    appended twice and every node is appended after the node that spends it; then
    the completion of the root's graph and of no other, in which nothing is
    finalized that was not validated just before; success means that the graph
    was finalized, and whatever happens the graph is discarded in the end (unless
    a component panics, which stops the program). *)
Theorem processing_of_a_root U fuel w o :
  delivers U -> (size U < fuel)%nat ->
  exists r s', ProcessUTXOToCompletion fuel o None (mkSt w ∅ []) = Some (r, s') /\
    (r = Panic \/
     exists fetches tail, trace s' = fetches ++ tail /\
       Forall is_fetch fetches /\ NoDup (appended fetches) /\ linked ∅ fetches /\
       ending (Some o) tail r).
Proof.
  intros HU Hfuel. destruct fuel as [|fuel]; [lia|].
  pose proof (completion_wp U fuel o w HU ltac:(lia)) as Hw. unfold wp in Hw.
  destruct (ProcessUTXOToCompletion _ _ _ _) as [[r s']|]; [eauto|done].
Qed.

(** ** The page of a synchronisation *)

(** The last interaction after an output. *)
Lemma selectOutputs_last u outputs last last' :
  let last1 := if float_gt (Score u) last then Score u else last in
  (last' = last1 \/ exists v, v ∈ outputs /\ last' = Score v) ->
  (forall v, v ∈ outputs -> float_gt (Score v) last' = false) -> float_gt last1 last' = false ->
  (float_nan last1 = true -> last' = last1) ->
  (last' = last \/ exists v, v ∈ u :: outputs /\ last' = Score v) /\
  (forall v, v ∈ u :: outputs -> float_gt (Score v) last' = false) /\ float_gt last last' = false /\
  (float_nan last = true -> last' = last).
Proof.
  intros last1 Hor Hle Hlast Hnan.
  assert (Hboth : float_gt (Score u) last' = false /\ float_gt last last' = false /\
    (float_nan last = true -> last' = last)).
  { unfold last1 in *. destruct (float_gt (Score u) last) eqn:Eg.
    - destruct (float_gt_not_nan _ _ Eg) as [Hn1 Hn2]. split_and!; [done| |congruence].
      apply not_true_iff_false. intros Hgt. by rewrite (float_gt_trans _ _ _ Eg Hgt) in Hlast.
    - split_and!; [|done|done]. destruct (float_nan last) eqn:En.
      + rewrite (Hnan eq_refl). by apply float_gt_nan.
      + by apply (float_not_gt_trans _ last). }
  destruct Hboth as (H1' & H2' & H3'). split_and!; try done.
  - destruct Hor as [->|(v & Hv & ->)]; [|right; exists v; set_solver].
    unfold last1. destruct (float_gt (Score u) last); [right; exists u; set_solver|by left].
  - intros v [->|Hv]%elem_of_cons; auto.
Qed.

(** What becomes of the output at each position. *)
Lemma selectOutputs_at (u : Output) (b : bool) outputs has (queue queue' : list Output) (shared : gset Outpoint) :
  ((b = true -> toOutpoint u ∈ shared) /\ (b = false -> u ∈ queue' \/ toOutpoint u ∈ shared)) ->
  (forall v, v ∈ queue -> v ∈ queue') ->
  (forall i v c, outputs !! i = Some v -> has !! i = Some c ->
     (c = true -> toOutpoint v ∈ shared) /\ (c = false -> v ∈ queue \/ toOutpoint v ∈ shared)) ->
  (forall i v c, (u :: outputs) !! i = Some v -> (b :: has) !! i = Some c ->
     (c = true -> toOutpoint v ∈ shared) /\ (c = false -> v ∈ queue' \/ toOutpoint v ∈ shared)).
Proof.
  intros Hu Hq Ha [|i] v c; simpl; [by intros [= <-] [= <-]|]. intros Hv Hc.
  destruct (Ha i v c Hv Hc) as [? Hf]. split; [done|]. intros Hc'. destruct (Hf Hc'); auto.
Qed.

Lemma selectOutputs_ok outputs has last shared :
  length has = length outputs ->
  exists last' shared' queue,
    selectOutputs outputs has last shared = Ok (last', shared', queue) /\
    queue `sublist_of` outputs /\ shared ⊆ shared' /\
    (forall i u b, outputs !! i = Some u -> has !! i = Some b ->
       (b = true -> toOutpoint u ∈ shared') /\
       (b = false -> u ∈ queue \/ toOutpoint u ∈ shared')) /\
    (forall u, u ∈ queue -> exists i, outputs !! i = Some u /\ has !! i = Some false) /\
    (forall o, o ∈ shared' -> o ∈ shared \/
       exists i u, outputs !! i = Some u /\ has !! i = Some true /\ o = toOutpoint u) /\
    ((last' = last \/ exists u, u ∈ outputs /\ last' = Score u) /\
     (forall u, u ∈ outputs -> float_gt (Score u) last' = false) /\ float_gt last last' = false) /\
    (float_nan last = true -> last' = last).
Proof.
  revert has last shared. induction outputs as [|u outputs IH]; intros [|b has] last shared Hl; try done.
  - exists last, shared, []. simpl.
    split_and!; first [apply float_gt_irrefl|done|constructor; done|set_solver].
  - cbn [selectOutputs].
    set (last1 := if float_gt (Score u) last then Score u else last).
    set (shared1 := if b then {[ toOutpoint u ]} ∪ shared else shared).
    destruct (IH has last1 shared1) as (last' & shared' & queue & E & Hsub & Hsh & Ha & Hb & Hc & (Hor & Hle & Hlast) & Hnan);
      [simpl in Hl; lia|].
    assert (Hlo : (last' = last \/ (exists v, v ∈ u :: outputs /\ last' = Score v)) /\
      (forall v, v ∈ u :: outputs -> float_gt (Score v) last' = false) /\ float_gt last last' = false /\
      (float_nan last = true -> last' = last)) by (by apply selectOutputs_last).
    destruct Hlo as (Hor' & Hle' & Hlast' & Hnan').
    assert (Hb' : forall v, v ∈ queue -> exists i, (u :: outputs) !! i = Some v /\ (b :: has) !! i = Some false).
    { intros v Hv. destruct (Hb v Hv) as [i ?]. by exists (S i). }
    assert (Hc' : forall o, o ∈ shared' -> o ∈ shared \/
      exists i v, (u :: outputs) !! i = Some v /\ (b :: has) !! i = Some true /\ o = toOutpoint v).
    { intros o Ho. destruct (Hc o Ho) as [Ho'|(i & v & ?)]; [|right; by exists (S i), v].
      unfold shared1 in Ho'. destruct b; [|by left]. apply elem_of_union in Ho' as [->%elem_of_singleton|?]; [|by left].
      right. by exists 0%nat, u. }
    destruct b; unfold shared1 in *; [|rewrite E; cbn [mbind result_bind]; case_bool_decide as Hin];
      eexists last', shared', _; (split; [done|]).
    + split_and!; try done; [by apply sublist_cons|set_solver|].
      apply (selectOutputs_at _ _ _ _ queue); [set_solver|done|done].
    + split_and!; try done; [by apply sublist_cons|].
      apply (selectOutputs_at _ _ _ _ queue); [set_solver|done|done].
    + split_and!; try done; [by apply sublist_skip| |].
      * apply (selectOutputs_at _ _ _ _ queue); [set_solver|set_solver|done].
      * intros v [->|Hv]%elem_of_cons; [by exists 0%nat|auto].
Qed.

(** From a page of outputs, [Sync] takes for ingestion exactly the outputs that
    the storage does not have (and whose outpoint was not already found in the
    storage earlier in the page), in order; and its new last interaction is the old
    one or the score of an output of the page, and no score of the page is above it. *)
Theorem selectOutputs_spec outputs has last :
  length has = length outputs ->
  exists last' shared' queue,
    selectOutputs outputs has last ∅ = Ok (last', shared', queue) /\
    queue `sublist_of` outputs /\
    (forall i u b, outputs !! i = Some u -> has !! i = Some b ->
       (b = true -> toOutpoint u ∈ shared') /\
       (b = false -> u ∈ queue \/ toOutpoint u ∈ shared')) /\
    (forall u, u ∈ queue -> exists i, outputs !! i = Some u /\ has !! i = Some false) /\
    (forall o, o ∈ shared' -> exists i u, outputs !! i = Some u /\ has !! i = Some true /\ o = toOutpoint u) /\
    (last' = last \/ exists u, u ∈ outputs /\ last' = Score u) /\
    (forall u, u ∈ outputs -> float_gt (Score u) last' = false) /\ float_gt last last' = false.
Proof.
  intros Hl. destruct (selectOutputs_ok outputs has last ∅ Hl) as (last' & shared' & queue & E & Hs & _ & Ha & Hb & Hc & Hlast & _).
  exists last', shared', queue. split; [done|]. split; [done|].
  split; [done|]. split; [done|]. split; [|done].
  intros o Ho. destruct (Hc o Ho) as [Hn|Hi]; [set_solver|done].
Qed.

(** ** A whole page *)

(** The processing of a root ends, whatever was called before. *)
Lemma completion_ends U fuel o w tr :
  delivers U -> (size U <= fuel)%nat ->
  wp true (ProcessUTXOToCompletion (S fuel) o None) (mkSt w ∅ tr) (fun _ _ => True).
Proof.
  intros HU Hfuel.
  assert (Hp : wp true (processUTXO (S fuel) o None (Some o)) (mkSt w ∅ tr) (fun _ _ => True)).
  { unfold wp at 1. rewrite processUTXO_unfold.
    apply (wp_bind true (fetchNode fuel o None (Some o)) (fun _ => CompleteGraph (Some o))).
    eapply wp_mono; [apply (fetchNode_wp true U); [|done]|].
    { intros _. split; [done|]. simpl. by rewrite difference_empty_L. }
    intros r s1 _. destruct r as [[]|e|]; [|done..]. by eapply wp_mono; [apply CompleteGraph_wp|]. }
  unfold wp in *. unfold ProcessUTXOToCompletion.
  destruct (processUTXO _ _ _ _ _) as [[r s1]|]; [|done]. destruct r as [[]|e|]; [done| |done].
  by eapply wp_mono; [apply discard_wp|].
Qed.

Lemma ingest_ends U fuel queue shared first s :
  delivers U -> (size U < fuel)%nat -> wp true (ingest fuel queue shared first) s (fun _ _ => True).
Proof.
  intros HU Hfuel. destruct fuel as [|fuel]; [lia|]. revert shared first s.
  induction queue as [|u queue IH]; intros shared first s; [done|]. unfold wp. cbn [ingest]. unfold withFreshNodes.
  pose proof (completion_ends U fuel (toOutpoint u) (world s) (trace s) HU ltac:(lia)) as Hc. unfold wp in Hc.
  destruct (ProcessUTXOToCompletion _ _ _ _) as [[r s1]|]; [|done].
  destruct r as [[]|e|]; [apply IH..|done].
Qed.

(** The cursor only moves forward, to the score of an output of the page. *)
Definition advances (outputs : list Output) (last last' : Z) : Prop :=
  last' = last \/ float_gt last' last = true /\ exists u, u ∈ outputs /\ last' = Score u.

Lemma selectOutputs_advances outputs has last shared last' shared' queue :
  selectOutputs outputs has last shared = Ok (last', shared', queue) -> advances outputs last last'.
Proof.
  revert has last shared last' shared' queue.
  induction outputs as [|u outputs IH]; intros has last shared last' shared' queue E; [injection E as <- _ _; by left|].
  cbn [selectOutputs] in E. set (last1 := if float_gt (Score u) last then Score u else last) in E.
  assert (Hrest : exists sh1 sh2 q has', selectOutputs outputs has' last1 sh1 = Ok (last', sh2, q)).
  { destruct has as [|[] has]; [done|by eexists _, _, _, _|].
    destruct (selectOutputs outputs has last1 shared) as [[[l' sh'] q]|err|] eqn:E1; [|done..].
    injection E as <- _ _. by eexists _, _, _, _. }
  destruct Hrest as (sh1 & sh2 & q & has' & E1). apply IH in E1. clear IH E.
  assert (Hgrow : forall v : Output, v ∈ outputs -> v ∈ u :: outputs) by (intros; by right).
  unfold last1 in E1. destruct (float_gt (Score u) last) eqn:Eg; destruct E1 as [->|[Hgt (v & Hv & Ev)]].
  - right. split; [done|]. exists u. split; [by left|done].
  - right. split; [by eapply float_gt_trans|]. exists v. auto.
  - by left.
  - right. split; [done|]. exists v. auto.
Qed.

(** A one-sided synchronisation of a page ends, and its cursor only moves forward. *)
Lemma Sync_ends U fuel g limit s :
  delivers U -> (size U < fuel)%nat -> Unidirectional g = true ->
  exists r last' s', Sync fuel g limit s = Some (r, last', s') /\
    (last' = LastInteraction g \/ exists response w',
      rGetInitialResponse (mkInitialRequest (gVersion g) (LastInteraction g) limit) (world s) = (Ok (Some response), w') /\
      advances (respUTXOList response) (LastInteraction g) last').
Proof.
  intros HU Hfuel Hg. unfold Sync. rewrite Hg.
  destruct (rGetInitialResponse _ _) as [[[response|]|err|] w'] eqn:Er; [|by eexists _, _, _; split; [|by left]..].
  destruct (len _ =? 0); [by eexists _, _, _; split; [|by left]|].
  unfold invoke at 1. destruct (HasOutputs _ _) as [[has|err|] w2]; [|by eexists _, _, _; split; [|by left]..].
  destruct (selectOutputs _ has _ ∅) as [[[last' shared] queue]|err|] eqn:Esel;
    [|by eexists _, _, _; split; [|by left]..].
  set (s2 := mkSt _ _ _). pose proof (ingest_ends U fuel queue shared None s2 HU Hfuel) as Hi. unfold wp in Hi.
  assert (Hadv := selectOutputs_advances _ _ _ _ _ _ _ Esel).
  unfold mbind, run_bind. destruct (ingest _ _ _ _ _) as [[[[sh [e|]]|err|] s3]|]; [..|done];
    (eexists _, _, _; split; [done|]; right; by eexists _, _).
Qed.

End Sync.

(** ** A peer with two transactions *)

Module Example.

Definition child_tx : list byte := replicate 10 Byte.x01.
Definition parent_tx : list byte := replicate 10 Byte.x02.
Definition child : Outpoint := mkOutpoint (array32 child_tx) 0.
Definition parent : Outpoint := mkOutpoint (array32 parent_tx) 0.

Definition node_of (o : Outpoint) : Node :=
  mkNode (Some child) (if decide (o = child) then child_tx else parent_tx) 0 [] [] [] ∅.

#[local] Instance sdk : SDK (list byte) := {| NewTransactionFromBytes := Ok; TxID := array32 |}.

#[local] Instance storage : Storage unit := {|
  FindKnownUTXOs _ _ w := (Ok [], w);
  HasOutputs os w := (Ok (map (fun _ => false) os), w);
  HydrateGASPNode _ _ _ w := (Err ErrMissingInput, w);
  FindNeededInputs n w :=
    (Ok (Some (mkNodeResponse
       (if bool_decide (RawTx n = child_tx) then {[ parent := Some (mkNodeResponseData false) ]} else ∅))), w);
  AppendToGraph _ _ w := (Ok tt, w);
  ValidateGraphAnchor _ w := (Ok tt, w);
  DiscardGraph _ w := (Ok tt, w);
  FinalizeGraph _ w := (Ok tt, w) |}.

#[local] Instance remote : Remote unit := {|
  rGetInitialResponse _ w := (Ok None, w);
  rGetInitialReply _ w := (Err ErrNotImplemented, w);
  rRequestNode _ o _ w := (Ok (Some (node_of o)), w);
  rSubmitNode _ w := (Err ErrNotImplemented, w) |}.

#[local] Program Instance map_range : MapRange unit := {| range _ _ _ _ m _ := map_to_list m |}.
Next Obligation. done. Qed.

Lemma delivers_two : delivers {[ child; parent ]}.
Proof.
  intros g o m w n w' txid [= <- <-] Htx. unfold node_of, computeTxID in *. simpl in *.
  destruct (decide (o = child)); injection Htx as <-; set_solver.
Qed.

Lemma processing_of_a_root_witness :
  exists r s', ProcessUTXOToCompletion 3 child None (mkSt tt ∅ []) = Some (r, s') /\
    (r = Panic \/
     exists fetches tail, trace s' = fetches ++ tail /\
       Forall is_fetch fetches /\ NoDup (appended fetches) /\ linked ∅ fetches /\
       ending (Some child) tail r).
Proof. apply (processing_of_a_root {[ child; parent ]} 3 tt child delivers_two). vm_compute. lia. Defined.

(** The run of the example: the parent is fetched after the child that spends it,
    then the graph is validated, finalized and discarded. *)
Example two_transactions :
  (fun '(r, s) => (r, trace s)) <$> ProcessUTXOToCompletion 3 child None (mkSt tt ∅ []) =
  Some (Ok tt, [RequestNodeCall (Some child) child; AppendCall (Some child) child None; NeededCall child;
    RequestNodeCall (Some child) parent; AppendCall (Some child) parent (Some child); NeededCall parent;
    ValidateCall (Some child) (Ok tt); FinalizeCall (Some child) (Ok tt); DiscardCall (Some child)]).
Proof. vm_compute. reflexivity. Qed.

Lemma selectOutputs_spec_witness :
  let out i s := mkOutput zero_hash i s in
  exists last' shared' queue,
    selectOutputs [out 0 5; out 1 9] [true; false] 7 ∅ = Ok (last', shared', queue) /\
    queue `sublist_of` [out 0 5; out 1 9].
Proof.
  intros out.
  destruct (selectOutputs_spec [out 0 5; out 1 9] [true; false] 7 eq_refl) as (l & sh & q & E & Hs & _).
  exists l, sh, q. exact (conj E Hs).
Defined.

End Example.
End GaspSync.
