(* ===== verification/Admission.v ===== *)
(** * pkg/core/engine: the admission contract

    admission_storage.go: the data of an admission plan, the canonical numbers of
    the storage contract and the semantic digest of an admission.
    admission_submit.go: the framing of hashed fields and the operation identifier.
    recovery_contract.go: leases and cursors. *)

From stdpp Require Import sorting.
From S2P Require Import Prelude Bytes Sha256 Utf8 Decimal.
Open Scope Z_scope.

Module Admission.

(** ** Data *)

(** [StorageUint64] is a string type. *)
Definition StorageUint64 : Type := list byte.

Record StorageScope := mkScope { Network : list byte; GenesisHash : list byte; NodeID : list byte }.

Record HistoryFence := mkFence {
  ChainEpoch : StorageUint64; TopicHistoryGeneration : StorageUint64 }.

Record AdmissionTopic := mkTopic { Topic : list byte; PolicyID : list byte }.

Definition AdmissionMode : Type := list byte.
Definition AdmissionModeLive : AdmissionMode := str "live".
Definition AdmissionModeHistorical : AdmissionMode := str "historical".

Record AdmissionIdentity := mkIdentity {
  Scope : StorageScope; idTxID : list byte; Mode : AdmissionMode;
  ContextDigest : list byte; Topics : list AdmissionTopic }.

Record AdmissionOperationKey := mkKey {
  keyScope : StorageScope; OperationID : list byte; SemanticDigest : list byte }.

(** A string type; kinds without a name are refused by the storage. *)
Inductive AdmissionPayloadKind :=
  | AdmissionPayloadRawTransaction | AdmissionPayloadMerklePath | AdmissionPayloadBEEFManifest
  | AdmissionPayloadLockingScript | AdmissionPayloadOutboxData | AdmissionPayloadOther (s : list byte).

Record AdmissionPayloadRef := mkPayloadRef {
  Digest : list byte; ByteLength : StorageUint64; Kind : AdmissionPayloadKind }.

Record AdmissionOutpoint := mkAdmissionOutpoint { opTxID : list byte; opOutputIndex : StorageUint64 }.

Record AdmissionReadPredicate := mkRead { readKey : list byte; readVersion : option (list byte) }.

Record AdmissionScriptRange := mkRange {
  Payload : AdmissionPayloadRef; Offset : StorageUint64; rangeLength : StorageUint64 }.

Record AdmissionOutput := mkAdmissionOutput {
  outOutpoint : AdmissionOutpoint; Satoshis : StorageUint64; outScore : StorageUint64;
  Script : AdmissionScriptRange; Ancillary : list (list byte) }.

Record AdmissionSpend := mkSpend {
  spendOutpoint : AdmissionOutpoint; ExpectedVersion : list byte; Spender : list byte }.

Record AdmissionEdge := mkEdge { Source : AdmissionOutpoint; Consumer : AdmissionOutpoint }.

Record AdmissionAppliedBlock := mkAppliedBlock {
  blkHeight : StorageUint64; blkHash : list byte; blkIndex : StorageUint64; blkMerkleRoot : list byte }.

Record AdmissionAppliedTransaction := mkApplied {
  appliedTxID : list byte; appliedFirstSeen : option StorageUint64;
  appliedProof : option AdmissionPayloadRef; appliedBlock : option AdmissionAppliedBlock }.

Record RecoveryLease := mkLease {
  lFence : HistoryFence; lScope : StorageScope; lTopic : list byte; PeerID : list byte;
  JobID : list byte; LeaseToken : StorageUint64; ExpiresAtMS : StorageUint64 }.

Record HistoryRevisionHandoff := mkHandoff { Expected : RecoveryLease; Checkpoint : list byte }.

Record AdmissionHistoryUpdate := mkHistoryUpdate {
  NextTopicHistoryGeneration : StorageUint64; AffectedFromHeight : StorageUint64;
  Handoff : option HistoryRevisionHandoff }.

Record AdmissionTopicDecision := mkDecision {
  decTopic : list byte; ExpectedHistory : HistoryFence; Reads : list AdmissionReadPredicate;
  Spends : list AdmissionSpend; Evictions : list AdmissionOutpoint;
  decOutputs : list AdmissionOutput; Edges : list AdmissionEdge;
  Applied : AdmissionAppliedTransaction; HistoryUpdate : option AdmissionHistoryUpdate }.

(** A string type; kinds without a name are refused by the storage. *)
Inductive AdmissionOutboxKind :=
  | AdmissionOutboxLookup | AdmissionOutboxPropagation | AdmissionOutboxOther (s : list byte).

Record AdmissionOutboxIntent := mkIntent {
  EventID : list byte; intentKind : AdmissionOutboxKind; Target : list byte;
  intentPayloads : list AdmissionPayloadRef }.

(** [AdmissionCommitState]: a string type; anything else is treated as pending. *)
Inductive AdmissionCommitState :=
  | AdmissionCommitStateCommitted | AdmissionCommitStatePending
  | AdmissionCommitStateRejected | AdmissionCommitStateAborted | AdmissionCommitStateOther.

(** The other string types of the contract. *)
Definition AdmissionDurability : Type := list byte.
Definition AdmissionDurabilityAtomicLocal : AdmissionDurability := str "atomic-local".
Definition AdmissionIndexState : Type := list byte.
Definition AdmissionIndexVisible : AdmissionIndexState := str "visible".
Definition AdmissionIndexPending : AdmissionIndexState := str "pending".
Definition AdmissionPropagationState : Type := list byte.
Definition AdmissionPropagationNotRequested : AdmissionPropagationState := str "not-requested".
Definition AdmissionPropagationPending : AdmissionPropagationState := str "pending".

Record AdmissionIndexStatus := mkIndexStatus { indexTarget : list byte; indexState : AdmissionIndexState }.

(** A nil slice of indexes is [None]. *)
Record AdmissionReceipt := mkReceipt {
  recOperationID : list byte; recDigest : list byte; Durability : AdmissionDurability;
  Steak : list byte; Indexes : option (list AdmissionIndexStatus); Propagation : AdmissionPropagationState }.

(** [AdmissionCommitResult]; an attempt and a code that are absent are empty. *)
Record AdmissionCommitResult := mkCommitResult {
  State : AdmissionCommitState; Receipt : option AdmissionReceipt; AttemptID : list byte; RejectionCode : rejection_code }.

(** ** Canonical numbers *)

(** [ParseStorageUint64] *)
Definition ParseStorageUint64 (value : StorageUint64) : result Z :=
  if (len value =? 0) || (20 <? len value) ||
     ((1 <? len value) && bool_decide (head value = Some (digit 0)))
  then Err ErrInvalidStorageUint64
  else if negb (forallb is_digit value) then Err ErrInvalidStorageUint64
  else match ParseUint value with
       | None => Err ErrInvalidStorageUint64
       | Some parsed => Ok parsed
       end.

(** [ParseStorageOutputIndex] *)
Definition ParseStorageOutputIndex (value : StorageUint64) : result Z :=
  parsed ← ParseStorageUint64 value;
  if MaxUint32 <? parsed then Err ErrInvalidStorageOutputIndex else Ok (u32 parsed).

(** ** Framed hashing *)

(** What [writeFramedField] writes, and the loop of [AdmissionSemanticDigest]. *)
Definition writeFramedField (field : list byte) : list byte :=
  FormatUint (len field) ++ str ":" ++ field.

Definition frame (fields : list (list byte)) : list byte := flat_map writeFramedField fields.

Definition isLowerHexHash (value : list byte) : bool :=
  (len value =? 64) && forallb lower_hex value.

Definition AdmissionStorageProtocol : list byte := str "overlay-admission-v1".

(** The order of the topics; [sort.Slice] may permute equal topics, which are
    refused afterwards. *)
Definition topic_le (a b : AdmissionTopic) : Prop := bytes_leb (Topic a) (Topic b) = true.

#[global] Instance topic_le_dec a b : Decision (topic_le a b).
Proof. unfold topic_le. apply _. Defined.

Definition sortTopics (topics : list AdmissionTopic) : list AdmissionTopic := merge_sort topic_le topics.

Fixpoint adjacentDuplicate (topics : list AdmissionTopic) : bool :=
  match topics with
  | a :: (b :: _) as rest => bool_decide (Topic a = Topic b) || adjacentDuplicate rest
  | _ => false
  end.

(** The fields that are hashed, in order. *)
Definition semanticFields (identity : AdmissionIdentity) (topics : list AdmissionTopic) : list (list byte) :=
  [AdmissionStorageProtocol; Network (Scope identity); GenesisHash (Scope identity);
   NodeID (Scope identity); idTxID identity; Mode identity; ContextDigest identity;
   FormatUint (len topics)] ++ flat_map (fun t => [Topic t; PolicyID t]) topics.

(** The bytes hashed by [AdmissionSemanticDigest]. *)
Definition semanticPreimage (identity : AdmissionIdentity) : result (list byte) :=
  if negb (isLowerHexHash (idTxID identity)) || negb (isLowerHexHash (GenesisHash (Scope identity))) ||
     negb (isLowerHexHash (ContextDigest identity)) then Err ErrInvalidAdmissionHash
  else if negb (bool_decide (Mode identity = AdmissionModeLive)) &&
          negb (bool_decide (Mode identity = AdmissionModeHistorical)) then Err ErrInvalidAdmissionMode
  else
    let topics := sortTopics (Topics identity) in
    if len topics =? 0 then Err ErrInvalidAdmissionTopics
    else if adjacentDuplicate topics then Err ErrInvalidAdmissionTopics
    else
      let fields := semanticFields identity topics in
      if existsb (fun f => bool_decide (f = []) || negb (Utf8.Valid f)) fields
      then Err ErrInvalidAdmissionIdentity
      else Ok (frame fields).

(** [AdmissionSemanticDigest] *)
Definition AdmissionSemanticDigest (identity : AdmissionIdentity) : result (list byte) :=
  (fun p => hex_encode (hbytes (SHA256.Sum256 p))) <$> semanticPreimage identity.

(** The removal of repeated topics, in order, of [admissionOperationID] and
    [buildAdmissionPlan]. *)
Fixpoint dedupe (seen : gset (list byte)) (topics : list (list byte)) : list (list byte) :=
  match topics with
  | [] => []
  | t :: topics' => if bool_decide (t ∈ seen) then dedupe seen topics' else t :: dedupe ({[ t ]} ∪ seen) topics'
  end.

Definition string_le (a b : list byte) : Prop := bytes_leb a b = true.

#[global] Instance string_le_dec a b : Decision (string_le a b).
Proof. unfold string_le. apply _. Defined.

Definition admissionOperationIDDomain : list byte := str "overlay-admission-operation-id-v1".

(** The bytes hashed by [admissionOperationID]. *)
Definition operationPreimage (mode : AdmissionMode) (txid : list byte) (topics : list (list byte)) : list byte :=
  frame (admissionOperationIDDomain :: mode :: txid :: merge_sort string_le (dedupe ∅ topics)).

(** [admissionOperationID] *)
Definition admissionOperationID (mode : AdmissionMode) (txid : list byte) (topics : list (list byte)) : list byte :=
  hex_encode (hbytes (SHA256.Sum256 (operationPreimage mode txid topics))).

(** [contextDigest] *)
Definition contextDigest (values : list byte) : list byte := hex_encode (hbytes (SHA256.Sum256 values)).

(** ** Leases and cursors *)

#[global] Instance StorageScope_eq_dec : EqDecision StorageScope.
Proof. solve_decision. Defined.

(** [IsRecoveryLeaseCurrent] *)
Definition IsRecoveryLeaseCurrent (expected current : RecoveryLease) (nowMS : StorageUint64) : result bool :=
  if negb (bool_decide (lScope expected = lScope current)) || negb (bool_decide (lTopic expected = lTopic current)) ||
     negb (bool_decide (PeerID expected = PeerID current)) || negb (bool_decide (JobID expected = JobID current))
  then Ok false else
  expectedChainEpoch ← ParseStorageUint64 (ChainEpoch (lFence expected));
  currentChainEpoch ← ParseStorageUint64 (ChainEpoch (lFence current));
  expectedGeneration ← ParseStorageUint64 (TopicHistoryGeneration (lFence expected));
  currentGeneration ← ParseStorageUint64 (TopicHistoryGeneration (lFence current));
  expectedToken ← ParseStorageUint64 (LeaseToken expected);
  currentToken ← ParseStorageUint64 (LeaseToken current);
  expiresAt ← ParseStorageUint64 (ExpiresAtMS current);
  now ← ParseStorageUint64 nowMS;
  Ok ((expectedChainEpoch =? currentChainEpoch) && (expectedGeneration =? currentGeneration) &&
      (expectedToken =? currentToken) && (now <? expiresAt)).

(** [GASPCursorMode] is a string type. *)
Inductive GASPCursorMode :=
  | GASPCursorModeNegotiatedTuple | GASPCursorModeInclusiveSince
  | GASPCursorModeFullResync | GASPCursorModeUnsupported | GASPCursorModeOther (s : list byte).

Record GASPCursorEvidence := mkEvidence {
  evMode : GASPCursorMode; Negotiated : bool; InclusiveSemanticsProven : bool;
  EqualScoreDrained : bool; NoSkipSemanticsProven : bool; ResyncCompleted : bool; PageFinalized : bool }.

(** [CanAdvanceGASPCursor] *)
Definition CanAdvanceGASPCursor (e : GASPCursorEvidence) : bool :=
  if negb (PageFinalized e) then false else
  match evMode e with
  | GASPCursorModeNegotiatedTuple => Negotiated e
  | GASPCursorModeInclusiveSince => InclusiveSemanticsProven e && EqualScoreDrained e
  | GASPCursorModeFullResync => NoSkipSemanticsProven e && ResyncCompleted e
  | GASPCursorModeUnsupported => false
  | GASPCursorModeOther _ => false
  end.

(** ** Canonical numbers are a bijection *)

Lemma ParseStorageUint64_cases v :
  ParseStorageUint64 v = Err ErrInvalidStorageUint64 \/ exists n, ParseStorageUint64 v = Ok n.
Proof. unfold ParseStorageUint64. repeat case_match; eauto. Qed.

Lemma ParseStorageUint64_Ok v n :
  ParseStorageUint64 v = Ok n <-> is_u64 n /\ v = FormatUint n.
Proof.
  unfold ParseStorageUint64, ParseUint, is_u64. split.
  - destruct (Z.eqb_spec (len v) 0) as [|Hne]; [done|]. simpl.
    destruct (20 <? len v); [done|]. simpl.
    destruct ((1 <? len v) && bool_decide (head v = Some (digit 0))) eqn:Eh; [done|].
    destruct (forallb is_digit v) eqn:Ed; [|done]. simpl.
    destruct (Z.ltb_spec MaxUint64 (value v)); [done|]. intros [= <-].
    pose proof (value_bound v Ed). split; [lia|]. symmetry. apply FormatUint_value; [|unfold is_u64; lia].
    split_and!; [done|by intros ->|]. intros Hl Hh. rewrite bool_decide_true in Eh by done.
    apply Z.ltb_lt in Hl. by rewrite Hl in Eh.
  - intros [Hn ->]. destruct (FormatUint_spec n Hn) as [Hv (Hd & Hne & Hh)].
    pose proof (format_length 20 n) as Hl. fold (FormatUint n) in Hl.
    destruct (Z.eqb_spec (len (FormatUint n)) 0) as [E|_].
    { unfold len in E. by destruct (FormatUint n). }
    destruct (Z.ltb_spec 20 (len (FormatUint n))) as [Hgt|_]; [unfold len in Hgt; lia|]. simpl.
    destruct (Z.ltb_spec 1 (len (FormatUint n))); simpl; [rewrite bool_decide_false by auto|];
      rewrite Hd, Hv; simpl; (destruct (Z.ltb_spec MaxUint64 n); [lia|done]).
Qed.

(** The text form of storage numbers is a bijection with the integers of 64
    bits: a text parses to [n] exactly when it is the decimal numeral that Go
    prints for [n] (no sign, no space, no leading zero, no overflow); anything
    else is refused with the one error of the contract. *)
Theorem ParseStorageUint64_spec v :
  (forall n, ParseStorageUint64 v = Ok n <-> is_u64 n /\ v = FormatUint n) /\
  (ParseStorageUint64 v = Err ErrInvalidStorageUint64 \/ exists n, ParseStorageUint64 v = Ok n).
Proof. split; [intros n; apply ParseStorageUint64_Ok|apply ParseStorageUint64_cases]. Qed.

(** ** Framing is injective *)

Lemma digits_colon d1 d2 r1 r2 :
  forallb is_digit d1 = true -> forallb is_digit d2 = true ->
  d1 ++ str ":" ++ r1 = d2 ++ str ":" ++ r2 -> d1 = d2 /\ r1 = r2.
Proof.
  revert d2. induction d1 as [|a d1 IH]; intros [|b d2] H1 H2 E; simpl in *.
  - by injection E as ->.
  - injection E as <- _. done.
  - injection E as -> _. done.
  - injection E as <- E. apply andb_true_iff in H1 as [_ H1], H2 as [_ H2].
    destruct (IH d2 H1 H2 E) as [-> ->]. done.
Qed.

Lemma len_u64 {A} (l : list A) : addressable l -> is_u64 (len l).
Proof. unfold addressable, MaxInt64, is_u64, MaxUint64. pose proof (len_nonneg l). lia. Qed.

Lemma frame_inj l1 l2 :
  Forall addressable l1 -> Forall addressable l2 -> frame l1 = frame l2 -> l1 = l2.
Proof.
  assert (Hne : forall f k, frame (f :: k) <> []).
  { intros f k. unfold frame. simpl. unfold writeFramedField. by destruct (FormatUint (len f)). }
  intros H1. revert l2. induction H1 as [|f1 l1 Hf1 _ IH]; intros l2 H2 E.
  - destruct H2 as [|f2 l2]; [done|]. by apply eq_sym, Hne in E.
  - destruct H2 as [|f2 l2 Hf2 H2]; [by apply Hne in E|].
    cbn [frame flat_map] in E. unfold writeFramedField in E at 1 3. rewrite <- !app_assoc in E.
    destruct (FormatUint_spec _ (len_u64 _ Hf1)) as [_ [D1 _]], (FormatUint_spec _ (len_u64 _ Hf2)) as [_ [D2 _]].
    apply digits_colon in E as [El E]; [|done..].
    apply FormatUint_inj in El; [|by apply len_u64..].
    apply app_len_inj in E as [-> E]; [|unfold len in El; lia]. f_equal. by apply IH.
Qed.

(** ** What the semantic digest covers *)

#[global] Instance topic_le_total : Total topic_le.
Proof. intros a b. apply bytes_leb_total. Qed.
#[global] Instance topic_le_trans : Transitive topic_le.
Proof. intros a b c. apply bytes_leb_trans. Qed.
#[global] Instance string_le_total : Total string_le.
Proof. intros a b. apply bytes_leb_total. Qed.
#[global] Instance string_le_trans : Transitive string_le.
Proof. intros a b c. apply bytes_leb_trans. Qed.
#[global] Instance string_le_antisymm : AntiSymm (=) string_le.
Proof. intros a b. apply bytes_leb_antisym. Qed.

Lemma sorted_distinct l :
  StronglySorted topic_le l -> adjacentDuplicate l = false -> NoDup (map Topic l).
Proof.
  induction 1 as [|a l Hs IH Ha]; intros Hd; simpl; [constructor|]. constructor.
  - destruct l as [|b l]; [set_solver|]. simpl in Hd. apply orb_false_iff in Hd as [Hab _].
    apply bool_decide_eq_false in Hab. intros [c [E Hc]]%list_elem_of_fmap. apply Hab.
    apply bytes_leb_antisym; [by inversion Ha|]. rewrite E.
    apply elem_of_cons in Hc as [->|Hc]; [by destruct (topic_le_total b b)|].
    inversion Hs as [|? ? _ Hb]; subst. by rewrite Forall_forall in Hb; apply Hb.
  - apply IH. destruct l; [done|]. simpl in Hd. by apply orb_false_iff in Hd as [_ Hd].
Qed.

Lemma sortTopics_sorted l : StronglySorted topic_le (sortTopics l).
Proof. apply (StronglySorted_merge_sort topic_le). Qed.

Lemma sortTopics_perm l : sortTopics l ≡ₚ l.
Proof. apply (merge_sort_Permutation topic_le). Qed.

(** Distinct topics have one sorted list. *)
Lemma sortTopics_eq l1 l2 :
  adjacentDuplicate (sortTopics l1) = false -> l1 ≡ₚ l2 -> sortTopics l1 = sortTopics l2.
Proof.
  intros Hd Hp. pose proof (sorted_distinct _ (sortTopics_sorted l1) Hd) as Hn.
  apply (StronglySorted_unique_strong topic_le); [|apply sortTopics_sorted..|by rewrite !sortTopics_perm].
  intros x1 x2 H1 H2 Hle1 Hle2. rewrite sortTopics_perm, <- Hp, <- (sortTopics_perm l1) in H2.
  pose proof (bytes_leb_antisym _ _ Hle1 Hle2) as E. clear -H1 H2 E Hn.
  induction (sortTopics l1) as [|a l IH]; [set_solver|]. simpl in Hn. apply NoDup_cons in Hn as [Ha Hn].
  apply elem_of_cons in H1 as [->|H1], H2 as [->|H2]; auto.
  - exfalso. apply Ha. rewrite E. by apply list_elem_of_fmap_2.
  - exfalso. apply Ha. rewrite <- E. by apply list_elem_of_fmap_2.
Qed.

Definition identity_addressable (i : AdmissionIdentity) : Prop :=
  addressable (Network (Scope i)) /\ addressable (GenesisHash (Scope i)) /\ addressable (NodeID (Scope i)) /\
  addressable (idTxID i) /\ addressable (Mode i) /\ addressable (ContextDigest i) /\
  addressable (Topics i) /\ Forall (fun t => addressable (Topic t) /\ addressable (PolicyID t)) (Topics i).

(** Equal up to the order of the topics. *)
Definition same_identity (a b : AdmissionIdentity) : Prop :=
  Scope a = Scope b /\ idTxID a = idTxID b /\ Mode a = Mode b /\ ContextDigest a = ContextDigest b /\
  Topics a ≡ₚ Topics b.

Lemma semanticPreimage_Ok i p :
  semanticPreimage i = Ok p ->
  adjacentDuplicate (sortTopics (Topics i)) = false /\ p = frame (semanticFields i (sortTopics (Topics i))).
Proof. unfold semanticPreimage. repeat case_match; try done. by intros [= <-]. Qed.

Lemma format_addressable n : addressable (FormatUint n).
Proof. pose proof (format_length 20 n). unfold addressable, len, MaxInt64, FormatUint. lia. Qed.

Lemma semanticFields_addressable i :
  identity_addressable i -> Forall addressable (semanticFields i (sortTopics (Topics i))).
Proof.
  intros (H1 & H2 & H3 & H4 & H5 & H6 & _ & Ht). unfold semanticFields.
  apply Forall_app. split.
  - rewrite !Forall_cons, Forall_nil. split_and!; try done. apply format_addressable.
  - apply Forall_forall. intros f Hf. apply list_elem_of_In, in_flat_map in Hf as (t & Hin & Hf).
    apply list_elem_of_In in Hin. rewrite sortTopics_perm in Hin.
    rewrite Forall_forall in Ht. destruct (Ht t Hin) as [? ?]. destruct Hf as [<-|[<-|[]]]; done.
Qed.

Lemma topic_fields_inj l1 l2 :
  flat_map (fun t => [Topic t; PolicyID t]) l1 = flat_map (fun t => [Topic t; PolicyID t]) l2 -> l1 = l2.
Proof.
  revert l2. induction l1 as [|[t1 p1] l1 IH]; intros [|[t2 p2] l2]; simpl; try done.
  intros [= -> -> E]. f_equal. by apply IH.
Qed.

(** C40.  The semantic digest identifies an admission: two accepted identities hash
    the same bytes exactly when they agree on the scope, the transaction, the mode,
    the context and the set of topics with their policies, in whatever order the
    topics are listed (the length-framed encoding is injective). *)
Theorem semanticPreimage_identifies a b pa pb :
  identity_addressable a -> identity_addressable b ->
  semanticPreimage a = Ok pa -> semanticPreimage b = Ok pb ->
  (pa = pb <-> same_identity a b).
Proof.
  intros Ha Hb [Hda ->]%semanticPreimage_Ok [Hdb ->]%semanticPreimage_Ok. split.
  - intros E. apply frame_inj in E; [|by apply semanticFields_addressable..].
    unfold semanticFields in E. injection E as E1 E2 E3 E4 E5 E6 _ Et.
    apply topic_fields_inj in Et. split_and!; try done.
    + destruct (Scope a), (Scope b); simpl in *; congruence.
    + by rewrite <- (sortTopics_perm (Topics a)), <- (sortTopics_perm (Topics b)), Et.
  - intros (E1 & E2 & E3 & E4 & Ht). rewrite <- (sortTopics_eq _ _ Hda Ht).
    unfold semanticFields. by rewrite E1, E2, E3, E4.
Qed.

Lemma semanticPreimage_identifies_witness :
  let h := hex_encode (replicate 32 Byte.x00) in
  let scope := mkScope (str "main") h (str "node-1") in
  let t1 := mkTopic (str "tm_a") (str "tm_a") in
  let t2 := mkTopic (str "tm_b") (str "tm_b") in
  let a := mkIdentity scope h AdmissionModeLive h [t1; t2] in
  let b := mkIdentity scope h AdmissionModeLive h [t2; t1] in
  exists pa pb, semanticPreimage a = Ok pa /\ semanticPreimage b = Ok pb /\ pa = pb.
Proof.
  intros h scope t1 t2 a b.
  assert (Ha : identity_addressable a) by (unfold identity_addressable; repeat split; repeat constructor; vm_compute; discriminate).
  assert (Hb : identity_addressable b) by (unfold identity_addressable; repeat split; repeat constructor; vm_compute; discriminate).
  eexists _, _. split; [vm_compute; reflexivity|]. split; [vm_compute; reflexivity|].
  eapply (proj2 (semanticPreimage_identifies a b _ _ Ha Hb eq_refl eq_refl)).
  unfold same_identity. repeat split. simpl. constructor.
Defined.

(** ** What the operation identifier covers *)

Lemma dedupe_spec seen l :
  NoDup (dedupe seen l) /\ forall x, x ∈ dedupe seen l <-> x ∈ l /\ (x ∉ seen).
Proof.
  revert seen. induction l as [|t l IH]; intros seen; simpl; [split; [constructor|set_solver]|].
  case_bool_decide as Ht.
  - destruct (IH seen) as [Hn Hx]. split; [done|]. intros x. rewrite Hx. set_solver.
  - destruct (IH ({[t]} ∪ seen)) as [Hn Hx]. split.
    + constructor; [|done]. rewrite Hx. set_solver.
    + intros x. rewrite elem_of_cons, Hx. destruct (decide (x = t)); set_solver.
Qed.

(** The hashed list of topics, as a function of the set of topics. *)
Definition topicList (topics : list (list byte)) : list (list byte) :=
  merge_sort string_le (dedupe ∅ topics).

Lemma topicList_elem topics x : x ∈ topicList topics <-> x ∈ topics.
Proof.
  unfold topicList. rewrite (merge_sort_Permutation string_le).
  destruct (dedupe_spec ∅ topics) as [_ ->]. set_solver.
Qed.

Lemma topicList_eq t1 t2 : (forall x, x ∈ t1 <-> x ∈ t2) -> topicList t1 = topicList t2.
Proof.
  intros Hx. apply (StronglySorted_unique string_le); [apply (StronglySorted_merge_sort string_le)..|].
  unfold topicList. rewrite !(merge_sort_Permutation string_le).
  destruct (dedupe_spec ∅ t1) as [N1 H1], (dedupe_spec ∅ t2) as [N2 H2].
  apply NoDup_Permutation; [done..|]. intros x. rewrite H1, H2, Hx. done.
Qed.

(** The operation identifier identifies the mode, the transaction and the set
    of topics: two calls hash the same bytes exactly when these agree, whatever
    the order and the repetitions of the topic lists; and by its domain tag an
    operation never hashes the bytes of a semantic digest. *)
Theorem operationPreimage_identifies m1 x1 l1 m2 x2 l2 :
  addressable m1 -> addressable x1 -> Forall addressable l1 ->
  addressable m2 -> addressable x2 -> Forall addressable l2 ->
  (operationPreimage m1 x1 l1 = operationPreimage m2 x2 l2 <->
     m1 = m2 /\ x1 = x2 /\ forall t, t ∈ l1 <-> t ∈ l2) /\
  (forall i, identity_addressable i -> semanticPreimage i <> Ok (operationPreimage m1 x1 l1)).
Proof.
  intros Hm1 Hx1 Hl1 Hm2 Hx2 Hl2.
  assert (Hadd : forall m x l, addressable m -> addressable x -> Forall addressable l ->
    Forall addressable (admissionOperationIDDomain :: m :: x :: topicList l)).
  { intros m x l ? ? Hl. rewrite !Forall_cons. split_and!; try done.
    rewrite Forall_forall in *. intros t Ht. apply Hl. by apply topicList_elem. }
  unfold operationPreimage. fold (topicList l1) (topicList l2). split.
  - split.
    + intros E. apply frame_inj in E; [|by apply Hadd..]. injection E as -> -> E.
      split_and!; [done..|]. intros t. by rewrite <- topicList_elem, E, topicList_elem.
    + intros (-> & -> & Ht). by rewrite (topicList_eq _ _ Ht).
  - intros i Hi [_ E]%semanticPreimage_Ok.
    apply frame_inj in E; [|by apply Hadd|by apply semanticFields_addressable].
    apply (f_equal head) in E. change (Some admissionOperationIDDomain = Some AdmissionStorageProtocol) in E.
    vm_compute in E. discriminate E.
Qed.

Lemma operationPreimage_identifies_witness :
  let a := str "tm_a" in let b := str "tm_b" in
  operationPreimage AdmissionModeLive (str "00") [a; b; a] =
  operationPreimage AdmissionModeLive (str "00") [b; a].
Proof.
  intros a b.
  assert (Hl : Forall addressable [a; b; a]) by (rewrite !Forall_cons, Forall_nil; repeat split; vm_compute; discriminate).
  assert (Hl' : Forall addressable [b; a]) by (rewrite !Forall_cons, Forall_nil; repeat split; vm_compute; discriminate).
  assert (Hm : addressable AdmissionModeLive) by (vm_compute; discriminate).
  assert (Hx : addressable (str "00")) by (vm_compute; discriminate).
  apply (proj2 (proj1 (operationPreimage_identifies AdmissionModeLive (str "00") [a; b; a]
    AdmissionModeLive (str "00") [b; a] Hm Hx Hl Hm Hx Hl'))).
  split; [reflexivity|]. split; [reflexivity|]. intros t. set_solver.
Defined.

(** ** Leases *)

Lemma ParseStorageUint64_same v1 v2 n :
  ParseStorageUint64 v1 = Ok n -> ParseStorageUint64 v2 = Ok n -> v1 = v2.
Proof. rewrite !ParseStorageUint64_Ok. intros [_ ->] [_ ->]. done. Qed.

(** Canonical storage text. *)
Definition storage_number (v : StorageUint64) : Prop := exists n, ParseStorageUint64 v = Ok n.

(** A lease is current exactly when it is the expected one in every field
    (scope, topic, peer, job, both history revisions and the token, all
    well-formed) and expires strictly after now; the test panics on no text. *)
Theorem IsRecoveryLeaseCurrent_spec e c now :
  (IsRecoveryLeaseCurrent e c now = Ok true <->
   lScope e = lScope c /\ lTopic e = lTopic c /\ PeerID e = PeerID c /\ JobID e = JobID c /\
   lFence e = lFence c /\ LeaseToken e = LeaseToken c /\
   storage_number (ChainEpoch (lFence c)) /\ storage_number (TopicHistoryGeneration (lFence c)) /\
   storage_number (LeaseToken c) /\
   exists x t, ParseStorageUint64 (ExpiresAtMS c) = Ok x /\ ParseStorageUint64 now = Ok t /\ t < x) /\
  is_panic (IsRecoveryLeaseCurrent e c now) = false.
Proof.
  unfold IsRecoveryLeaseCurrent. split.
  - split.
    + repeat case_bool_decide; simpl; try done. intros Hr. inv_res.
      repeat match goal with H : _ && _ = true |- _ => apply andb_true_iff in H as [? ?] end.
      repeat match goal with H : (_ =? _) = true |- _ => apply Z.eqb_eq in H; subst end.
      destruct e as [[] ? ? ? ? ? ?], c as [[] ? ? ? ? ? ?]; simpl in *; subst.
      repeat match goal with
      | H1 : ParseStorageUint64 ?a = Ok ?n, H2 : ParseStorageUint64 ?b = Ok ?n |- _ =>
          assert (a = b) by (by eapply ParseStorageUint64_same); subst; clear H1
      end.
      unfold storage_number. split_and!; try done; eauto.
      eexists _, _. split_and!; [done..|lia].
    + intros (-> & -> & -> & -> & -> & -> & [a Ea] & [b Eb] & [k Ek] & x & t & Ex & Et & Hlt).
      rewrite !bool_decide_true by done. simpl. rewrite Ea, Eb, Ek, Ex, Et. simpl.
      rewrite !Z.eqb_refl. simpl. f_equal. by apply Z.ltb_lt.
  - repeat case_bool_decide; simpl; try done.
    repeat match goal with |- context [ParseStorageUint64 ?v] =>
      let E := fresh in destruct (ParseStorageUint64_cases v) as [E|[? E]]; rewrite E; simpl; [done|] end.
    done.
Qed.

End Admission.
