(* ===== verification/Hosting.v ===== *)
(** * pkg/core/engine/validation.go: hosting URLs

    The checks on a hosting URL, after [net/url] has parsed it: what the parser
    found is an argument. *)

From S2P Require Import Prelude Bytes Decimal.
Open Scope Z_scope.

Module Hosting.

(** What the code reads of a [url.URL]: the scheme, the host and [Hostname()]. *)
Record URL := mkURL { Scheme : list byte; Host : list byte; Hostname : list byte }.

(** [strings.EqualFold(s, t)] for a lower-case ASCII [t]: besides the two cases of
    a letter, simple folding maps the long s (U+017F) to s and the Kelvin sign
    (U+212A) to k. *)
Fixpoint EqualFold (s t : list byte) : bool :=
  match t with
  | [] => match s with [] => true | _ => false end
  | c :: t' =>
      match s with
      | b :: s' =>
          if (val b =? val c) || ((97 <=? val c) && (val c <=? 122) && (val b =? val c - 32)) then EqualFold s' t'
          else if (val c =? 115) && (val b =? 0xc5) then
            match s' with b2 :: s'' => (val b2 =? 0xbf) && EqualFold s'' t' | [] => false end
          else if (val c =? 107) && (val b =? 0xe2) then
            match s' with b2 :: b3 :: s'' => (val b2 =? 0x84) && (val b3 =? 0xaa) && EqualFold s'' t' | _ => false end
          else false
      | [] => false
      end
  end.

(** [len(ip) >= len(p) && ip[:len(p)] == p] *)
Definition hasPrefix (ip p : list byte) : bool :=
  (len p <=? len ip) && bool_decide (take (length p) ip = p).

(** [parseOctet]; the string is a list of characters. *)
Fixpoint parseOctetLoop (acc : Z) (s : list byte) : Z :=
  match s with
  | [] => acc
  | ch :: s' =>
      if (val ch <? 48) || (57 <? val ch) then -1
      else
        let acc := acc * 10 + (val ch - 48) in
        if 255 <? acc then -1 else parseOctetLoop acc s'
  end.

Definition parseOctet (s : list byte) : Z :=
  match s with [] => -1 | _ => parseOctetLoop 0 s end.

(** The characters before the next dot. *)
Fixpoint untilDot (s : list byte) : list byte :=
  match s with
  | [] => []
  | b :: s' => if val b =? 46 then [] else b :: untilDot s'
  end.

(** [isNonRoutableIPv4] *)
Definition isNonRoutableIPv4 (ip : list byte) : bool :=
  if hasPrefix ip (str "127.") then true
  else if hasPrefix ip (str "10.") then true
  else if hasPrefix ip (str "192.168.") then true
  else if bool_decide (ip = str "0.0.0.0") then true
  else if (7 <=? len ip) && bool_decide (take 4 ip = str "172.") then
    let octet := parseOctet (untilDot (drop 4 ip)) in
    (16 <=? octet) && (octet <=? 31)
  else false.

(** [IsValidHostingURL], given the result of [url.Parse]. *)
Definition IsValidHostingURL (hostingURL : list byte) (parsed : option URL) : bool :=
  if bool_decide (hostingURL = []) then false else
  match parsed with
  | None => false
  | Some u =>
      if bool_decide (Scheme u = str "http") then false
      else if bool_decide (Scheme u = []) then false
      else if EqualFold (Hostname u) (str "localhost") then false
      else if isNonRoutableIPv4 (Hostname u) then false
      else if bool_decide (Hostname u = str "::1") || bool_decide (Hostname u = str "[::1]") then false
      else if bool_decide (Host u = str "::1") then false
      else true
  end.

(** ** Dotted quads *)

(** The text of an address. *)
Definition quad (a b c d : Z) : list byte :=
  FormatUint a ++ str "." ++ FormatUint b ++ str "." ++ FormatUint c ++ str "." ++ FormatUint d.

Definition octet (n : Z) : Prop := 0 <= n <= 255.

(** The ranges that the documentation of the check names. *)
Definition non_routable (a b c d : Z) : Prop :=
  a = 127 \/ a = 10 \/ (a = 192 /\ b = 168) \/ (a = 172 /\ 16 <= b <= 31) \/
  (a = 0 /\ b = 0 /\ c = 0 /\ d = 0).

Lemma octet_u64 n : octet n -> is_u64 n.
Proof. unfold octet, is_u64, MaxUint64. lia. Qed.

Lemma digits_dot d1 d2 r1 r2 :
  forallb is_digit d1 = true -> forallb is_digit d2 = true ->
  d1 ++ str "." ++ r1 = d2 ++ str "." ++ r2 -> d1 = d2 /\ r1 = r2.
Proof.
  revert d2. induction d1 as [|a d1 IH]; intros [|b d2] H1 H2 E; simpl in *.
  - by injection E as ->.
  - injection E as <- _. done.
  - injection E as -> _. done.
  - injection E as <- E. apply andb_true_iff in H1 as [_ H1], H2 as [_ H2].
    destruct (IH d2 H1 H2 E) as [-> ->]. done.
Qed.

Lemma format_digits n : octet n -> forallb is_digit (FormatUint n) = true.
Proof. intros Hn. by destruct (FormatUint_spec n (octet_u64 n Hn)) as [_ [? _]]. Qed.

Lemma format_eq n m : octet n -> octet m -> FormatUint n = FormatUint m <-> n = m.
Proof.
  intros Hn Hm. split; [|congruence]. apply FormatUint_inj; by apply octet_u64.
Qed.

Lemma hasPrefix_spec ip p : hasPrefix ip p = true <-> exists r, ip = p ++ r.
Proof.
  unfold hasPrefix. rewrite andb_true_iff, bool_decide_eq_true, Z.leb_le. split.
  - intros [_ E]. exists (drop (length p) ip). by rewrite <- E at 1; rewrite take_drop.
  - intros [r ->]. rewrite len_app, take_app_length. pose proof (len_nonneg r). split; [lia|done].
Qed.

(** A first octet, with its dot. *)
Lemma prefix_octet a n r rest :
  octet a -> octet n ->
  (FormatUint a ++ str "." ++ rest = (FormatUint n ++ str ".") ++ r) <-> a = n /\ rest = r.
Proof.
  intros Ha Hn. rewrite <- app_assoc. split.
  - intros E. apply digits_dot in E as [E ->]; [|by apply format_digits..]. split; [|done]. by apply format_eq.
  - by intros [-> ->].
Qed.

Lemma untilDot_format b rest : octet b -> untilDot (FormatUint b ++ str "." ++ rest) = FormatUint b.
Proof.
  intros Hb. pose proof (format_digits b Hb) as Hd. induction (FormatUint b) as [|x l IH]; [done|].
  simpl in *. apply andb_true_iff in Hd as [Hx Hd]. unfold is_digit in Hx.
  apply andb_true_iff in Hx as [Hx1 Hx2]. destruct (Z.eqb_spec (val x) 46); [lia|]. f_equal. by apply IH.
Qed.

Lemma parseOctet_format b : octet b -> parseOctet (FormatUint b) = b.
Proof.
  intros Hb. assert (Hall : forallb (fun n => parseOctet (FormatUint n) =? n) (seqZ 0 256) = true)
    by (vm_compute; reflexivity).
  rewrite forallb_forall in Hall. apply Z.eqb_eq, Hall.
  apply list_elem_of_In, elem_of_seqZ. unfold octet in Hb. lia.
Qed.

Lemma format_len n : octet n -> 1 <= len (FormatUint n).
Proof.
  intros Hn. destruct (FormatUint_spec n (octet_u64 n Hn)) as [_ (_ & Hne & _)].
  destruct (FormatUint n) as [|x l]; [done|]. rewrite len_cons. pose proof (len_nonneg l). lia.
Qed.

Section Quad.
Context (a b c d : Z) (Ha : octet a) (Hb : octet b) (Hc : octet c) (Hd : octet d).

Lemma quad_first n : octet n -> hasPrefix (quad a b c d) (FormatUint n ++ str ".") = true <-> a = n.
Proof using Ha.
  intros Hn. rewrite hasPrefix_spec. unfold quad. split.
  - intros [r E]. by apply prefix_octet in E as [-> _].
  - intros ->. eexists. by rewrite <- app_assoc.
Qed.

Lemma quad_192_168 : hasPrefix (quad a b c d) (str "192.168.") = true <-> a = 192 /\ b = 168.
Proof using Ha Hb.
  rewrite hasPrefix_spec. unfold quad. split.
  - intros [r E].
    change (str "192.168." ++ r) with ((FormatUint 192 ++ str ".") ++ (FormatUint 168 ++ str ".") ++ r) in E.
    apply prefix_octet in E as [-> E]; [|done|unfold octet; lia].
    apply prefix_octet in E as [-> _]; [done..|unfold octet; lia].
  - intros [-> ->]. by eexists.
Qed.

Lemma quad_zero : quad a b c d = str "0.0.0.0" <-> a = 0 /\ b = 0 /\ c = 0 /\ d = 0.
Proof using Ha Hb Hc Hd.
  split; [|by intros (-> & -> & -> & ->)]. unfold quad. intros E.
  assert (H0 : octet 0) by (unfold octet; lia).
  change (str "0.0.0.0") with ((FormatUint 0 ++ str ".") ++ (FormatUint 0 ++ str ".") ++ (FormatUint 0 ++ str ".") ++ FormatUint 0) in E.
  apply prefix_octet in E as [-> E]; [|done..]. apply prefix_octet in E as [-> E]; [|done..].
  apply prefix_octet in E as [-> E]; [|done..]. by apply format_eq in E as ->.
Qed.

Lemma quad_172 :
  (7 <=? len (quad a b c d)) && bool_decide (take 4 (quad a b c d) = str "172.") = true <-> a = 172.
Proof using Ha Hb Hc Hd.
  rewrite andb_true_iff, bool_decide_eq_true, Z.leb_le. split.
  - intros [_ E]. apply (quad_first 172); [unfold octet; lia|]. apply hasPrefix_spec.
    exists (drop 4 (quad a b c d)). change (FormatUint 172 ++ str ".") with (str "172.").
    by rewrite <- E, take_drop.
  - intros E. unfold quad. rewrite E. change (FormatUint 172) with (str "172"). split; [|done].
    rewrite !len_app. change (len (str "172")) with 3. change (len (str ".")) with 1.
    pose proof (format_len b Hb). pose proof (format_len c Hc). pose proof (format_len d Hd). lia.
Qed.

Lemma quad_second : a = 172 -> parseOctet (untilDot (drop 4 (quad a b c d))) = b.
Proof using Hb.
  intros E. unfold quad. rewrite E. change (FormatUint 172) with (str "172"). cbn [drop str app].
  rewrite <- (parseOctet_format b Hb) at 2. f_equal. by apply untilDot_format.
Qed.
End Quad.

(** On the text of an IPv4 address, the pattern checks recognise exactly the
    documented ranges: 127/8, 10/8, 192.168/16, 172.16/12 and 0.0.0.0. *)
Theorem isNonRoutableIPv4_quad a b c d :
  octet a -> octet b -> octet c -> octet d ->
  (isNonRoutableIPv4 (quad a b c d) = true <-> non_routable a b c d).
Proof.
  intros Ha Hb Hc Hd. unfold isNonRoutableIPv4, non_routable.
  pose proof (quad_first a b c d Ha 127 ltac:(unfold octet; lia)) as H127.
  pose proof (quad_first a b c d Ha 10 ltac:(unfold octet; lia)) as H10.
  change (FormatUint 127 ++ str ".") with (str "127.") in H127.
  change (FormatUint 10 ++ str ".") with (str "10.") in H10.
  pose proof (quad_192_168 a b c d Ha Hb) as H192.
  pose proof (quad_zero a b c d Ha Hb Hc Hd) as H0.
  pose proof (quad_172 a b c d Ha Hb Hc Hd) as H172.
  pose proof (quad_second a b c d Hb) as H2.
  destruct (hasPrefix _ (str "127.")); [tauto|]. destruct (hasPrefix _ (str "10.")); [tauto|].
  destruct (hasPrefix _ (str "192.168.")); [tauto|].
  destruct (bool_decide_reflect (quad a b c d = str "0.0.0.0")); [tauto|].
  destruct ((7 <=? _) && bool_decide (take 4 (quad a b c d) = _)).
  - rewrite H2 by tauto. rewrite andb_true_iff, !Z.leb_le. assert (a = 172) by tauto. split; [tauto|].
    intros [?|[?|[[? ?]|[?|?]]]]; (lia || tauto).
  - split; [done|]. intros Hr. exfalso. destruct Hr as [?|[?|[?|[[? _]|?]]]]; (assert (false = true) by tauto; done) || tauto.
Qed.

Lemma isNonRoutableIPv4_quad_witness :
  isNonRoutableIPv4 (quad 172 31 0 7) = true.
Proof. apply (isNonRoutableIPv4_quad 172 31 0 7); unfold octet, non_routable; lia. Defined.

(** The documentation says that only https is allowed; the code refuses http
    and the empty scheme and accepts every other one. *)
Theorem other_schemes_accepted scheme :
  scheme <> [] -> scheme <> str "http" ->
  IsValidHostingURL (scheme ++ str "://example.com")
    (Some (mkURL scheme (str "example.com") (str "example.com"))) = true.
Proof.
  intros Hne Hh. unfold IsValidHostingURL. simpl.
  rewrite bool_decide_false by (by destruct scheme). rewrite !bool_decide_false by done.
  vm_compute. reflexivity.
Qed.

Lemma other_schemes_accepted_witness :
  IsValidHostingURL (str "ftp://example.com")
    (Some (mkURL (str "ftp") (str "example.com") (str "example.com"))) = true.
Proof. apply (other_schemes_accepted (str "ftp")); discriminate. Defined.

End Hosting.
