(* ===== verification/IdentityQuery.v ===== *)
(** * pkg/topics/identity/query.go: the queries of the identity lookup service

    A query is JSON from any client.  It is compiled to a [Query] that a projection can
    evaluate: which lookup path, which filters, and bounds on the answer. *)

From stdpp Require Import sorting.
From S2P Require Import Prelude Bytes Utf8 Decimal Json Unmarshal Text Admission.
Import Json Unmarshal Text.
Open Scope Z_scope.

Module IdentityQuery.

(** ** Data *)

Definition MaxQueryBytes : Z := 64 * 1024.
Definition MaxQueryStringBytes : Z := 4 * 1024.
Definition MaxQueryAttributes : Z := 64.
Definition MaxQueryArrayValues : Z := 128.
Definition MaxQueryResults : Z := 10000.
Definition MaxQueryOffset : Z := 100000.

Record QueryPolicy := mkQueryPolicy { MaxResults : Z; MaxOffset : Z }.

Definition DefaultQueryPolicy : QueryPolicy := mkQueryPolicy MaxQueryResults MaxQueryOffset.

Inductive AttributeMatch := AttributeMatchExact | AttributeMatchFuzzy | AttributeMatchText.

Inductive QueryKind :=
  | QueryKindSerialNumber | QueryKindAttributes | QueryKindIdentityKeyAndTypes
  | QueryKindIdentityKey | QueryKindCertifiers.

Record AttributePredicate := mkPredicate { Field : list byte; Value : list byte; Match : AttributeMatch }.

(** The fields of [Query] that bound its answer. *)
Record Pagination := mkPagination { Limit : Z; Offset : Z; ResultLimit : Z; Unbounded : bool }.

Record Query := mkQuery {
  Kind : QueryKind; SerialNumber : list byte; IdentityKey : list byte;
  CertificateTypes : list (list byte); Certifiers : list (list byte);
  AttributePredicates : list AttributePredicate; pagination : Pagination; Empty : bool }.

(** [QueryPolicy.validate] *)
Definition validateQueryPolicy (policy : QueryPolicy) : result unit :=
  if (MaxResults policy <=? 0) || (MaxQueryResults <? MaxResults policy) then Err ErrInvalidQueryPolicy
  else if (MaxOffset policy <=? 0) || (MaxQueryOffset <? MaxOffset policy) then Err ErrInvalidQueryPolicy
  else Ok tt.

(** An error that is wrapped with [%w] around [ErrInvalidQuery]. *)
Definition invalid {A} (r : result A) : result A := match r with Err _ => Err ErrInvalidQuery | _ => r end.

(** ** Values *)

(** [bytes.TrimSpace]: a raw value is JSON, with nothing but ASCII at its ends. *)
Definition isTrimmed (b : byte) : bool := isSpace b || isb Byte.x0b b || isb Byte.x0c b.

Fixpoint trimLeft (s : list byte) : list byte :=
  match s with c :: s' => if isTrimmed c then trimLeft s' else s | [] => [] end.

Definition TrimSpace (s : list byte) : list byte := reverse (trimLeft (reverse (trimLeft s))).

Definition decodeString (raw : list byte) : result (list byte) :=
  if bool_decide (TrimSpace raw = str "null") then Err ErrInvalidQuery else
  value ← invalid (UnmarshalString raw);
  if MaxQueryStringBytes <? len value then Err ErrInvalidQuery else Ok value.

Definition decodeOptionalString (values : RawMap) (name : list byte) : result (list byte * bool) :=
  match values !! name with
  | None => Ok ([], false)
  | Some raw => value ← decodeString raw; Ok (value, true)
  end.

(** The loop of [decodeOptionalStringArrayWithPresence]. *)
Fixpoint decodeStrings (array : list (list byte)) : result (list (list byte)) :=
  match array with
  | [] => Ok []
  | raw :: array' => value ← decodeString raw; rest ← decodeStrings array'; Ok (value :: rest)
  end.

Definition decodeOptionalStringArrayWithPresence (values : RawMap) (name : list byte) : result (list (list byte) * bool) :=
  match values !! name with
  | None => Ok ([], false)
  | Some raw =>
      array ← invalid (UnmarshalArray raw);
      match array with
      | None => Err ErrInvalidQuery
      | Some array =>
          if MaxQueryArrayValues <? len array then Err ErrInvalidQuery else
          result ← decodeStrings array; Ok (result, true)
      end
  end.

Definition decodeOptionalStringArray (values : RawMap) (name : list byte) : result (list (list byte)) :=
  fst <$> decodeOptionalStringArrayWithPresence values name.

Definition decodeOptionalInteger (values : RawMap) (name : list byte) : result (Z * bool) :=
  match values !! name with
  | None => Ok (0, false)
  | Some raw =>
      let trimmed := TrimSpace raw in
      match trimmed with
      | [] => Err ErrInvalidQuery
      | c :: _ =>
          if negb (isb Byte.x2d c) && ((val c <? 48) || (57 <? val c)) then Err ErrInvalidQuery else
          number ← invalid (UnmarshalInteger trimmed);
          match number with
          | None => Err ErrInvalidQuery
          | Some n => if (2 ^ 53 - 1 <? n) || (n <? - (2 ^ 53 - 1)) then Err ErrInvalidQuery else Ok (n, true)
          end
      end
  end.

Definition compilePagination (values : RawMap) (policy : QueryPolicy) : result Pagination :=
  '(limit, hasLimit) ← decodeOptionalInteger values (str "limit");
  '(limit, unbounded) ←
    (if negb hasLimit || (limit =? 0) then Ok (MaxResults policy + 1, true)
     else if (limit <? 0) || (MaxResults policy <? limit) then Err ErrInvalidQuery
     else Ok (limit, false));
  '(offset, hasOffset) ← decodeOptionalInteger values (str "offset");
  if (hasOffset : bool) && ((offset <? 0) || (MaxOffset policy <? offset)) then Err ErrInvalidQuery
  else Ok (mkPagination limit offset (MaxResults policy) unbounded).

(** ** Search text *)

Definition isECMAScriptWhitespace (r : Z) : bool :=
  bool_decide (r ∈ [0x09; 0x0A; 0x0B; 0x0C; 0x0D; 0x2028; 0x2029; 0xFEFF]) ||
  (r =? 0x20) || (r =? 0xA0) || (r =? 0x1680) || ((0x2000 <=? r) && (r <=? 0x200A)) ||
  (r =? 0x202F) || (r =? 0x205F) || (r =? 0x3000).

(** The loop of [normalizeSearchInput]. *)
Fixpoint normalizeLoop (l : list Rune) (spacePending written : bool) : list byte :=
  match l with
  | [] => []
  | (r, _) :: l' =>
      if isECMAScriptWhitespace r then normalizeLoop l' (spacePending || written) written
      else (if spacePending then [Byte.x20] else []) ++ Utf8.EncodeRune r ++ normalizeLoop l' false true
  end.

Definition normalizeSearchInput (input : list byte) : list byte := normalizeLoop (runes input) false false.

Definition fuzzyPattern (input : list byte) : list byte :=
  Join (map QuoteMeta (FieldsFunc input isECMAScriptWhitespace)) (str ".*").

Definition safeAttributePath (path : list byte) : bool :=
  negb (bool_decide (path = [])) &&
  negb (existsb (fun c => isb Byte.x2e c || isb Byte.x24 c || isb Byte.x00 c) path).

(** ** Attributes *)

Definition any : list byte := str "any".
Definition userName : list byte := str "userName".

Definition decodeAttributeEntry (key raw : list byte) : result (list byte) :=
  if MaxQueryStringBytes <? len key then Err ErrInvalidQuery
  else if negb (bool_decide (key = any)) && negb (safeAttributePath key) then Err ErrInvalidQuery
  else decodeString raw.

(** The loop of [decodeAttributeMap].  It ranges over a map; all that depends on the
    order is which of several invalid entries is reported, with the same sentinel. *)
Fixpoint decodeAttributes (l : list (list byte * list byte)) : result (list (list byte * list byte)) :=
  match l with
  | [] => Ok []
  | (key, raw) :: l' => value ← decodeAttributeEntry key raw; rest ← decodeAttributes l'; Ok ((key, value) :: rest)
  end.

Definition decodeAttributeMap (raw : list byte) : result (gmap (list byte) (list byte) * list (list byte)) :=
  attributes ← invalid (UnmarshalMap raw);
  match attributes with
  | None => Err ErrInvalidQuery
  | Some attributes =>
      if MaxQueryAttributes <? Z.of_nat (size attributes) then Err ErrInvalidQuery else
      decoded ← decodeAttributes (map_to_list attributes);
      Ok (list_to_map decoded, merge_sort Admission.string_le decoded.*1)
  end.

Definition compileAnyAttribute (value : list byte) : list AttributePredicate * bool :=
  let normalized := normalizeSearchInput value in
  if utf16Length normalized <=? 1 then ([], true)
  else if utf16Length normalized =? 2 then ([mkPredicate [] (fuzzyPattern normalized) AttributeMatchFuzzy], false)
  else ([mkPredicate [] normalized AttributeMatchText], false).

(** The loop of [compileFieldAttributes]. *)
Fixpoint compileFields (decoded : gmap (list byte) (list byte)) (keys : list (list byte)) : list AttributePredicate :=
  match keys with
  | [] => []
  | key :: keys' =>
      let normalized := normalizeSearchInput (default [] (decoded !! key)) in
      if bool_decide (normalized = []) then compileFields decoded keys'
      else (if bool_decide (key = userName) then mkPredicate key normalized AttributeMatchExact
            else mkPredicate key (fuzzyPattern normalized) AttributeMatchFuzzy) :: compileFields decoded keys'
  end.

Definition compileFieldAttributes (decoded : gmap (list byte) (list byte)) (keys : list (list byte)) : list AttributePredicate * bool :=
  let predicates := compileFields decoded keys in (predicates, len predicates =? 0).

Definition compileAttributes (raw : list byte) : result (list AttributePredicate * bool) :=
  '(decoded, keys) ← decodeAttributeMap raw;
  Ok (match decoded !! any with Some value => compileAnyAttribute value | None => compileFieldAttributes decoded keys end).

(** ** Queries *)

(** [ensureEOF] *)
Definition ensureEOF (dec : Decoder) : result unit :=
  match Decode dec with Err ErrEOF => Ok tt | Panic => Panic | _ => Err ErrInvalidQuery end.

(** What [CompileQuery] reads first: the members of the only value of the document. *)
Definition decodeQuery (raw : list byte) : result RawMap :=
  '(v, dec) ← invalid (Decode (NewDecoder raw));
  values ← invalid (rawMap v);
  match values with
  | None => Err ErrInvalidQuery
  | Some values => if More dec then Err ErrInvalidQuery else ensureEOF dec ≫= fun _ => Ok values
  end.

(** The lookup path: serialNumber, attributes, identityKey with certificateTypes,
    identityKey, certifiers, in this order. *)
Definition compileSelector (values : RawMap) (page : Pagination) : result Query :=
  match values !! str "serialNumber" with
  | Some raw =>
      serialNumber ← decodeString raw;
      Ok (mkQuery QueryKindSerialNumber serialNumber [] [] [] [] page (bool_decide (serialNumber = [])))
  | None =>
  match values !! str "attributes" with
  | Some raw =>
      '(predicates, empty) ← compileAttributes raw;
      certifiers ← decodeOptionalStringArray values (str "certifiers");
      Ok (mkQuery QueryKindAttributes [] [] [] certifiers predicates page empty)
  | None =>
      '(identityKey, hasIdentityKey) ← decodeOptionalString values (str "identityKey");
      '(certificateTypes, hasCertificateTypes) ← decodeOptionalStringArrayWithPresence values (str "certificateTypes");
      '(certifiers, hasCertifiers) ← decodeOptionalStringArrayWithPresence values (str "certifiers");
      if (hasIdentityKey : bool) && (hasCertificateTypes : bool) then
        Ok (mkQuery QueryKindIdentityKeyAndTypes [] identityKey certificateTypes certifiers [] page (len certificateTypes =? 0))
      else if (hasIdentityKey : bool) then
        Ok (mkQuery QueryKindIdentityKey [] identityKey [] certifiers [] page false)
      else if (hasCertifiers : bool) then
        Ok (mkQuery QueryKindCertifiers [] [] [] certifiers [] page (len certifiers =? 0))
      else Err ErrInvalidQuery
  end end.

Definition CompileQuery (raw : list byte) (policy : QueryPolicy) : result Query :=
  validateQueryPolicy policy ≫= fun _ =>
  if (len raw =? 0) || (MaxQueryBytes <? len raw) then Err ErrInvalidQuery else
  values ← decodeQuery raw;
  page ← compilePagination values policy;
  compileSelector values page.

(** ** What the search text is *)

Abbreviation white := isECMAScriptWhitespace.

(** The words of a text, after what is not UTF-8 was replaced. *)
Definition words (input : list byte) : list (list byte) := fields white (clean (runes input)) [].

Definition space : list byte := [Byte.x20].

(** The runes that the loop writes. *)
Fixpoint normalRunes (l : list Rune) (spacePending written : bool) : list Rune :=
  match l with
  | [] => []
  | (r, b) :: l' =>
      if white r then normalRunes l' (spacePending || written) written
      else (if spacePending then [(0x20, space)] else []) ++ (r, Utf8.EncodeRune r) :: normalRunes l' false true
  end.

Lemma normalRunes_flatten l p w : flatten (normalRunes l p w) = normalizeLoop l p w.
Proof.
  revert p w. induction l as [|[r b] l IH]; intros p w; [done|]. cbn [normalRunes normalizeLoop]. destruct (white r); [apply IH|].
  unfold flatten in *. rewrite flat_map_app. cbn [flat_map snd]. rewrite IH. by destruct p.
Qed.

Lemma normalRunes_proper s p w : Forall proper (normalRunes (runes s) p w).
Proof.
  pose proof (clean_proper s) as Hc. revert p w. induction (runes s) as [|[r b] l IH]; intros p w; [constructor|].
  cbn [clean map] in Hc. apply Forall_cons in Hc as [Hr Hc]. cbn [normalRunes]. destruct (white r); [by apply IH|].
  apply Forall_app. split; [|constructor; [done|by apply IH]]. destruct p; [|constructor]. constructor; [by split_and!|constructor].
Qed.

(** The loop, in its three states: nothing written, a space pending, and after a
    character, with [current] the word that is being written. *)
Lemma normalizeLoop_fields l :
  Forall proper (clean l) ->
  normalizeLoop l false false = Join (fields white (clean l) []) space /\
  (forall current, current <> [] -> current ++ normalizeLoop l true true = Join (current :: fields white (clean l) []) space) /\
  (forall current, current <> [] -> current ++ normalizeLoop l false true = Join (fields white (clean l) current) space).
Proof.
  assert (HJoin : forall x l, l <> [] -> Join (x :: l) space = x ++ space ++ Join l space) by (intros x [|y l']; done).
  induction l as [|[r b] l IH]; intros Hl.
  { split_and!; [done|intros c Hc; by rewrite app_nil_r..|]. intros c Hc. cbn. rewrite app_nil_r. by rewrite bool_decide_false. }
  cbn [clean map] in Hl. apply Forall_cons in Hl as [(_ & Hne & _) Hl]. destruct (IH Hl) as (IH1 & IH2 & IH3). cbn [fst snd] in Hne.
  cbn [normalizeLoop clean map fields fst]. change (map _ l) with (clean l). destruct (white r); cbn [orb app].
  - split_and!; [done|exact IH2|]. intros c Hc. rewrite bool_decide_false by done. by apply IH2.
  - split_and!.
    + by apply IH3.
    + intros c Hc. rewrite HJoin by (by apply fields_nonempty). f_equal. rewrite <- IH3 by done. done.
    + intros c Hc. rewrite app_assoc. apply IH3. by destruct c.
Qed.

Lemma normalRunes_fields l :
  Forall proper (clean l) ->
  fields white (normalRunes l false false) [] = fields white (clean l) [] /\
  (forall current, current <> [] -> fields white (normalRunes l true true) current = current :: fields white (clean l) []) /\
  (forall current, current <> [] -> fields white (normalRunes l false true) current = fields white (clean l) current).
Proof.
  induction l as [|[r b] l IH]; intros Hl.
  { split_and!; [done| |done]. intros c Hc. cbn. by rewrite bool_decide_false. }
  cbn [clean map] in Hl. apply Forall_cons in Hl as [(_ & Hne & _) Hl]. destruct (IH Hl) as (IH1 & IH2 & IH3). cbn [fst snd] in Hne.
  cbn [normalRunes clean map fields fst]. change (map _ l) with (clean l). destruct (white r) eqn:Er; cbn [orb app].
  - split_and!; [done|exact IH2|]. intros c Hc. rewrite bool_decide_false by done. by apply IH2.
  - split_and!.
    + cbn [fields]. rewrite Er. by apply IH3.
    + intros c Hc. cbn [fields]. change (white 0x20) with true. rewrite bool_decide_false by done. cbn [fields]. rewrite Er. f_equal. by apply IH3.
    + intros c Hc. cbn [fields]. rewrite Er. apply IH3. by destruct c.
Qed.

Lemma normalize_words input : normalizeSearchInput input = Join (words input) space.
Proof. apply normalizeLoop_fields, clean_proper. Qed.

(** What the code sees of the normalized text are the words of the input. *)
Lemma FieldsFunc_normalized input : FieldsFunc (normalizeSearchInput input) white = words input.
Proof.
  unfold FieldsFunc, normalizeSearchInput. rewrite <- normalRunes_flatten, runes_proper by apply normalRunes_proper.
  apply normalRunes_fields, clean_proper.
Qed.

Lemma clean_id l : Forall proper l -> clean l = l.
Proof. induction 1 as [|[r b] l (E & _) _ IH]; [done|]. cbn [clean map fst snd] in *. rewrite E. f_equal. exact IH. Qed.

Lemma words_normalized input : words (normalizeSearchInput input) = words input.
Proof.
  transitivity (FieldsFunc (normalizeSearchInput input) white); [|apply FieldsFunc_normalized].
  unfold words, FieldsFunc, normalizeSearchInput.
  rewrite <- normalRunes_flatten, runes_proper by apply normalRunes_proper. by rewrite clean_id by apply normalRunes_proper.
Qed.

(** A word is not empty and holds no white space. *)
Definition isWord (w : list byte) : Prop := w <> [] /\ Forall (fun x => white x.1 = false) (runes w).

Lemma fields_words l c :
  Forall proper l -> Forall proper c -> Forall (fun x => white x.1 = false) c -> Forall isWord (fields white l (flatten c)).
Proof.
  assert (Hend : forall c, Forall proper c -> Forall (fun x => white x.1 = false) c -> flatten c <> [] -> isWord (flatten c))
    by (intros c' Hp Hw Hne; split; [done|by rewrite runes_proper]).
  intros Hl. revert c. induction Hl as [|[r b] l Hr Hl IH]; intros c Hp Hw; cbn [fields].
  - case_bool_decide; [constructor|]. constructor; [by apply Hend|constructor].
  - destruct (white r) eqn:Er.
    + pose proof (IH [] ltac:(constructor) ltac:(constructor)) as H0. case_bool_decide; [exact H0|]. constructor; [by apply Hend|exact H0].
    + assert (E : flatten c ++ b = flatten (c ++ [(r, b)])) by (unfold flatten; rewrite flat_map_app; cbn; by rewrite app_nil_r).
      rewrite E. apply IH; apply Forall_app; (split; [done|by constructor]).
Qed.

(** The regular expression of a list of words: they themselves, with anything between. *)
Fixpoint inOrder (ws : list (list byte)) : list atom :=
  match ws with
  | [] => []
  | [w] => map Literal w
  | w :: ws' => map Literal w ++ AnyChar :: Star :: inOrder ws'
  end.

Lemma lex_words ws : lex (Join (map QuoteMeta ws) (str ".*")) = inOrder ws.
Proof.
  induction ws as [|w ws IH]; [done|]. destruct ws as [|w' ws].
  - cbn [map Join inOrder]. pose proof (lex_QuoteMeta w []) as E. by rewrite !app_nil_r in E.
  - change (Join (map QuoteMeta (w :: w' :: ws)) (str ".*")) with (QuoteMeta w ++ (str ".*" ++ Join (map QuoteMeta (w' :: ws)) (str ".*"))).
    rewrite lex_QuoteMeta. change (lex (str ".*" ++ ?t)) with (AnyChar :: Star :: lex t). by rewrite IH.
Qed.

(** Search text cannot smuggle in operators.  For any input, normalisation gives
    the words of the input (as strings.FieldsFunc splits at the white space of
    ECMAScript) joined by single spaces, and is idempotent; and the pattern that is
    built from it denotes exactly these words, every character standing for itself, in
    order and with anything between them: the client's text adds no operator of its own.
    Nothing is replaced in the words of a text that is UTF-8. *)
Theorem search_text_is_literal input :
  normalizeSearchInput input = Join (words input) space /\
  Forall isWord (words input) /\
  normalizeSearchInput (normalizeSearchInput input) = normalizeSearchInput input /\
  lex (fuzzyPattern (normalizeSearchInput input)) = inOrder (words input) /\
  (Utf8.Valid input = true -> words input = FieldsFunc input white).
Proof.
  split_and!.
  - apply normalize_words.
  - apply (fields_words (clean (runes input)) []); [apply clean_proper|constructor..].
  - rewrite (normalize_words (normalizeSearchInput input)), words_normalized. symmetry. apply normalize_words.
  - unfold fuzzyPattern. by rewrite FieldsFunc_normalized, lex_words.
  - intros Hv. unfold words, FieldsFunc. by rewrite clean_valid.
Qed.

(** ** What a query is within *)

(** A value with [P], or the error of an invalid query. *)
Definition expects {A} (r : result A) (P : A -> Prop) : Prop :=
  match r with Ok a => P a | Err e => e = ErrInvalidQuery | Panic => False end.

Lemma expects_bind {A B} (m : result A) (f : A -> result B) P Q :
  expects m P -> (forall a, P a -> expects (f a) Q) -> expects (m ≫= f) Q.
Proof. intros Hm Hf. destruct m as [a|e|]; [by apply Hf|done..]. Qed.

Lemma expects_invalid {A} (r : result A) P : yields r P -> expects (invalid r) P.
Proof. by destruct r. Qed.

Lemma expects_weaken {A} (m : result A) (P Q : A -> Prop) : expects m P -> (forall a, P a -> Q a) -> expects m Q.
Proof. destruct m; cbn; auto. Qed.

Definition short (s : list byte) : Prop := len s <= MaxQueryStringBytes.

Lemma decodeString_expects raw : expects (decodeString raw) short.
Proof.
  unfold decodeString. case_bool_decide; [done|]. eapply expects_bind; [apply expects_invalid, UnmarshalString_yields|].
  intros v _. destruct (Z.ltb_spec MaxQueryStringBytes (len v)); [done|]. cbn. unfold short. lia.
Qed.

Lemma decodeOptionalString_expects values name : expects (decodeOptionalString values name) (fun r => short r.1).
Proof.
  unfold decodeOptionalString. destruct (values !! name) as [raw|]; [|by cbn].
  eapply expects_bind; [apply decodeString_expects|]. by intros v Hv.
Qed.

Lemma decodeStrings_expects array : expects (decodeStrings array) (fun l => Forall short l /\ length l = length array).
Proof.
  induction array as [|raw array IH]; [by cbn; auto|]. cbn [decodeStrings]. eapply expects_bind; [apply decodeString_expects|]. intros v Hv.
  eapply expects_bind; [exact IH|]. intros l [Hl Hlen]. cbn. split; [by constructor|by rewrite Hlen].
Qed.

Definition shortList (l : list (list byte)) : Prop := Forall short l /\ len l <= MaxQueryArrayValues.

Lemma shortList_nil : shortList [].
Proof. split; [constructor|done]. Qed.

Lemma decodeArray_expects values name : expects (decodeOptionalStringArrayWithPresence values name) (fun r => shortList r.1).
Proof.
  unfold decodeOptionalStringArrayWithPresence. destruct (values !! name) as [raw|]; [|exact shortList_nil].
  eapply expects_bind; [apply expects_invalid, UnmarshalArray_yields|]. intros [array|] _; [|done].
  destruct (Z.ltb_spec MaxQueryArrayValues (len array)); [done|]. eapply expects_bind; [apply decodeStrings_expects|].
  intros l [Hl Hlen]. cbn. split; [done|]. unfold len in *. lia.
Qed.

Lemma decodeOptionalStringArray_expects values name : expects (decodeOptionalStringArray values name) shortList.
Proof. unfold decodeOptionalStringArray. pose proof (decodeArray_expects values name) as H. by destruct (decodeOptionalStringArrayWithPresence values name). Qed.

Lemma decodeOptionalInteger_expects values name : expects (decodeOptionalInteger values name) (fun r => r.2 = false -> r.1 = 0).
Proof.
  unfold decodeOptionalInteger. destruct (values !! name) as [raw|]; [|done]. cbv zeta. destruct (TrimSpace raw) as [|c s]; [done|].
  destruct (_ && _); [done|]. eapply expects_bind; [apply expects_invalid, UnmarshalInteger_yields|]. intros [n|] _; [|done]. by destruct (_ || _).
Qed.

Definition page_bounds (policy : QueryPolicy) (p : Pagination) : Prop :=
  ResultLimit p = MaxResults policy /\ 0 <= Offset p <= MaxOffset policy /\
  if Unbounded p then Limit p = MaxResults policy + 1 else 1 <= Limit p <= MaxResults policy.

Lemma compilePagination_expects values policy :
  0 <= MaxOffset policy -> expects (compilePagination values policy) (page_bounds policy).
Proof.
  intros Hmax. unfold compilePagination. eapply expects_bind; [apply decodeOptionalInteger_expects|]. intros [limit hasLimit] _.
  eapply (expects_bind _ _ (fun r => if (r.2 : bool) then r.1 = MaxResults policy + 1 else 1 <= r.1 <= MaxResults policy)).
  { destruct hasLimit; cbn [negb orb]; [|done]. destruct (Z.eqb_spec limit 0); [done|].
    destruct (Z.ltb_spec limit 0), (Z.ltb_spec (MaxResults policy) limit); cbn; done || lia. }
  intros [limit' unbounded] Hl. eapply expects_bind; [apply decodeOptionalInteger_expects|]. intros [offset hasOffset] Ho. cbn [fst snd] in *.
  destruct hasOffset; cbn [andb].
  - destruct (Z.ltb_spec offset 0), (Z.ltb_spec (MaxOffset policy) offset); cbn; unfold page_bounds; cbn; split_and?; (done || lia).
  - rewrite Ho by done. unfold page_bounds. cbn. split_and?; (done || lia).
Qed.

(** A predicate never splices anything into an operator: its field is the searchable
    text or a name without dots, dollars and zeros, and a fuzzy value is a pattern of
    literal words. *)
Definition predicate_bounds (p : AttributePredicate) : Prop :=
  Value p <> [] /\
  (Field p = [] \/ safeAttributePath (Field p) = true /\ short (Field p) /\ Field p <> any) /\
  match Match p with
  | AttributeMatchExact => Field p = userName
  | AttributeMatchFuzzy => exists ws, lex (Value p) = inOrder ws
  | AttributeMatchText => Field p = []
  end.

Definition attribute_ok (key : list byte) : Prop := short key /\ (key = any \/ safeAttributePath key = true).

Lemma decodeAttributes_expects l : expects (decodeAttributes l) (fun d => d.*1 = l.*1 /\ Forall attribute_ok d.*1).
Proof.
  induction l as [|[key raw] l IH]; [by cbn; auto|]. cbn [decodeAttributes].
  eapply (expects_bind _ _ (fun _ => attribute_ok key)).
  - unfold decodeAttributeEntry. destruct (Z.ltb_spec MaxQueryStringBytes (len key)) as [|Hs]; [done|].
    destruct (_ && _) eqn:E; [done|]. eapply expects_weaken; [apply decodeString_expects|]. intros _ _. split; [exact Hs|].
    apply andb_false_iff in E as [E|E]; apply negb_false_iff in E; [left; by apply bool_decide_eq_true in E|by right].
  - intros v Hk. eapply expects_bind; [exact IH|]. intros d [E Hd]. cbn. split; [by f_equal|by constructor].
Qed.

Lemma decodeAttributeMap_expects raw :
  expects (decodeAttributeMap raw) (fun r => len r.2 <= MaxQueryAttributes /\ Forall attribute_ok r.2 /\
    forall k, k ∈ r.2 -> is_Some (r.1 !! k)).
Proof.
  unfold decodeAttributeMap. eapply expects_bind; [apply expects_invalid, UnmarshalMap_yields|]. intros [attributes|] _; [|done].
  destruct (Z.ltb_spec MaxQueryAttributes (Z.of_nat (size attributes))) as [|Hsize]; [done|].
  eapply expects_bind; [apply decodeAttributes_expects|]. intros d [E Hd]. cbn [expects fst snd].
  pose proof (merge_sort_Permutation Admission.string_le d.*1) as Hp. split_and!.
  - unfold len. rewrite (Permutation_length Hp), E, length_fmap, length_map_to_list. lia.
  - by rewrite Hp.
  - intros k Hk. rewrite Hp in Hk. apply list_elem_of_fmap in Hk as ([k' v] & -> & Hin). cbn.
    destruct (list_to_map d !! k') eqn:El; [done|]. apply not_elem_of_list_to_map_2 in El. destruct El. apply list_elem_of_fmap. by exists (k', v).
Qed.

Lemma fuzzy_nonempty input : normalizeSearchInput input <> [] -> fuzzyPattern (normalizeSearchInput input) <> [].
Proof.
  unfold fuzzyPattern. rewrite FieldsFunc_normalized, normalize_words.
  assert (Hw : Forall isWord (words input)) by (apply (fields_words (clean (runes input)) []); [apply clean_proper|constructor..]).
  destruct Hw as [|w ws [Hne _] _]; [done|]. intros _ E. destruct w as [|c w]; [done|]. destruct ws; cbn in E; by destruct (special c).
Qed.

Lemma fuzzy_bounds key input :
  normalizeSearchInput input <> [] -> key = [] \/ safeAttributePath key = true /\ short key /\ key <> any ->
  predicate_bounds (mkPredicate key (fuzzyPattern (normalizeSearchInput input)) AttributeMatchFuzzy).
Proof.
  intros Hne Hk. split_and!; [by apply fuzzy_nonempty|done|]. exists (words input). cbn [Value]. unfold fuzzyPattern.
  by rewrite FieldsFunc_normalized, lex_words.
Qed.

(** The predicates of a query, and whether there are none. *)
Definition predicates_bounds (r : list AttributePredicate * bool) : Prop :=
  len r.1 <= MaxQueryAttributes /\ Forall predicate_bounds r.1 /\ (r.2 = true <-> r.1 = []).

Lemma compileAny_bounds value : predicates_bounds (compileAnyAttribute value).
Proof.
  unfold compileAnyAttribute, predicates_bounds. cbv zeta. set (n := normalizeSearchInput value).
  destruct (Z.leb_spec (utf16Length n) 1) as [|H1]; [unfold len, MaxQueryAttributes; cbn [fst snd length]; split_and!; [lia|constructor|done]|].
  assert (Hne : n <> []) by (intros ->; cbn in H1; lia).
  destruct (Z.eqb_spec (utf16Length n) 2); cbn [fst snd]; (split_and!; [unfold len, MaxQueryAttributes; cbn [length]; lia| |done]); constructor; [|constructor| |constructor].
  - by apply fuzzy_bounds; [|left].
  - split_and!; [done|by left|done].
Qed.

Lemma compileFields_bounds decoded keys :
  Forall attribute_ok keys -> (forall k, k ∈ keys -> k <> any) ->
  Forall predicate_bounds (compileFields decoded keys) /\ (length (compileFields decoded keys) <= length keys)%nat.
Proof.
  induction 1 as [|key keys [Hs Hk] Hkeys IH]; intros Hany; [done|]. cbn [compileFields]. set (n := normalizeSearchInput _).
  assert (Hne : key <> any) by (apply Hany; by left). destruct Hk as [|Hk]; [done|]. destruct IH as [IH1 IH2]; [intros k Hin; apply Hany; by right|].
  case_bool_decide as Hn; cbn [length]; (split; [|lia || (cbn [length]; lia)]); [done|]. constructor; [|done].
  case_bool_decide as Hu.
  - split_and!; [done|by right|done].
  - by apply fuzzy_bounds; [|right].
Qed.

Lemma compileAttributes_expects raw : expects (compileAttributes raw) predicates_bounds.
Proof.
  unfold compileAttributes. eapply expects_bind; [apply decodeAttributeMap_expects|]. intros [decoded keys] (Hlen & Hok & Hin). cbn [fst snd] in *.
  unfold expects. destruct (decoded !! any) as [value|] eqn:E; [apply compileAny_bounds|]. unfold compileFieldAttributes, predicates_bounds. cbn [fst snd].
  destruct (compileFields_bounds decoded keys Hok) as [Hb Hl]; [intros k Hk ->; destruct (Hin any Hk); congruence|].
  split_and!; [unfold len in *; lia|done|]. rewrite Z.eqb_eq. unfold len. destruct (compileFields decoded keys); cbn; split; (done || lia).
Qed.

Lemma decodeQuery_expects raw : expects (decodeQuery raw) (fun _ => True).
Proof.
  unfold decodeQuery. eapply expects_bind; [apply expects_invalid|].
  { assert (Hs : safe (Decode (NewDecoder raw))) by (by apply Decode_safe).
    instantiate (1 := fun r => consistent r.2). by destruct (Decode (NewDecoder raw)) as [[v dec]|e|]. }
  intros [v dec] Hc. eapply expects_bind; [apply expects_invalid, rawMap_yields|]. intros [values|] _; [|done].
  destruct (More dec); [done|]. unfold ensureEOF. apply Decode_safe in Hc. cbn [snd] in Hc. by destruct (Decode dec) as [[v' dec']|[]|].
Qed.

(** What holds of every compiled query. *)
Definition query_bounds (policy : QueryPolicy) (query : Query) : Prop :=
  page_bounds policy (pagination query) /\
  short (SerialNumber query) /\ short (IdentityKey query) /\ shortList (CertificateTypes query) /\ shortList (Certifiers query) /\
  len (AttributePredicates query) <= MaxQueryAttributes /\ Forall predicate_bounds (AttributePredicates query) /\
  match Kind query with
  | QueryKindSerialNumber =>
      IdentityKey query = [] /\ CertificateTypes query = [] /\ Certifiers query = [] /\ AttributePredicates query = [] /\
      (Empty query = true <-> SerialNumber query = [])
  | QueryKindAttributes =>
      SerialNumber query = [] /\ IdentityKey query = [] /\ CertificateTypes query = [] /\
      (Empty query = true <-> AttributePredicates query = [])
  | QueryKindIdentityKeyAndTypes =>
      SerialNumber query = [] /\ AttributePredicates query = [] /\ (Empty query = true <-> CertificateTypes query = [])
  | QueryKindIdentityKey =>
      SerialNumber query = [] /\ CertificateTypes query = [] /\ AttributePredicates query = [] /\ Empty query = false
  | QueryKindCertifiers =>
      SerialNumber query = [] /\ IdentityKey query = [] /\ CertificateTypes query = [] /\ AttributePredicates query = [] /\
      (Empty query = true <-> Certifiers query = [])
  end.

Lemma short_nil : short [].
Proof. done. Qed.

Lemma empty_list {A} (l : list A) : (len l =? 0) = true <-> l = [].
Proof. rewrite Z.eqb_eq. unfold len. destruct l; cbn [length]; split; (done || lia). Qed.

Lemma compileSelector_expects values page policy : page_bounds policy page -> expects (compileSelector values page) (query_bounds policy).
Proof.
  intros Hp. pose proof short_nil as H0. pose proof shortList_nil as Hl0.
  assert (Ha : len ([] : list AttributePredicate) <= MaxQueryAttributes) by done.
  unfold compileSelector. destruct (values !! str "serialNumber") as [raw|].
  { eapply expects_bind; [apply decodeString_expects|]. intros v Hv. unfold expects, query_bounds. cbn -[len]. split_and?; first [done|apply bool_decide_eq_true|apply Forall_nil_2]. }
  destruct (values !! str "attributes") as [raw|].
  { eapply expects_bind; [apply compileAttributes_expects|]. intros [predicates empty] (Hlen & Hb & He). cbn [fst snd] in *.
    eapply expects_bind; [apply decodeOptionalStringArray_expects|]. intros certifiers Hc. unfold expects, query_bounds. cbn -[len]. by split_and!. }
  eapply expects_bind; [apply decodeOptionalString_expects|]. intros [key hasKey] Hkey.
  eapply expects_bind; [apply decodeArray_expects|]. intros [types hasTypes] Htypes.
  eapply expects_bind; [apply decodeArray_expects|]. intros [certifiers hasCertifiers] Hcert. cbn [fst snd] in *.
  destruct hasKey; cbn [andb]; [destruct hasTypes|destruct hasCertifiers; [|done]]; unfold expects, query_bounds; cbn -[len]; split_and?;
    first [done|apply empty_list|apply Forall_nil_2].
Qed.

Lemma validateQueryPolicy_cases policy :
  validateQueryPolicy policy = Err ErrInvalidQueryPolicy \/
  (validateQueryPolicy policy = Ok tt /\ 0 < MaxResults policy <= MaxQueryResults /\ 0 < MaxOffset policy <= MaxQueryOffset).
Proof.
  unfold validateQueryPolicy.
  destruct (Z.leb_spec (MaxResults policy) 0), (Z.ltb_spec MaxQueryResults (MaxResults policy)); cbn [orb]; auto.
  destruct (Z.leb_spec (MaxOffset policy) 0), (Z.ltb_spec MaxQueryOffset (MaxOffset policy)); cbn [orb]; auto.
Qed.

(** Queries are compiled safely.  Whatever bytes a client sends, compiling them
    never panics, and it fails only with the one error of invalid queries (or that of an
    unusable policy).  What it accepts is bounded: the answer by the policy (an omitted
    or zero limit asks for one result more than the policy allows, so that an overflow
    shows), every string, list and set of predicates by its maximum; each predicate has a
    harmless field and a pattern of literal words; the fields that the lookup path does
    not use are empty; and the query is marked as empty exactly when its path cannot
    match. *)
Theorem CompileQuery_safe raw policy :
  match CompileQuery raw policy with
  | Ok query => validateQueryPolicy policy = Ok tt /\ query_bounds policy query
  | Err err => err = ErrInvalidQuery \/ (err = ErrInvalidQueryPolicy /\ validateQueryPolicy policy <> Ok tt)
  | Panic => False
  end.
Proof.
  unfold CompileQuery. destruct (validateQueryPolicy_cases policy) as [E|[E Hm]]; rewrite E; cbn [mbind result_bind]; [by right|].
  destruct (_ || _); [by left|].
  enough (He : expects (values ← decodeQuery raw; page ← compilePagination values policy; compileSelector values page) (query_bounds policy))
    by (revert He; match goal with |- expects ?m _ -> _ => destruct m; cbn [expects]; auto end).
  eapply expects_bind; [apply decodeQuery_expects|]. intros values _. eapply expects_bind; [apply compilePagination_expects; lia|].
  intros page Hp. by apply compileSelector_expects.
Qed.

(** ** Queries that clients send *)

Inductive selector :=
  | BySerialNumber (serialNumber : list byte)
  | ByAttributes (attributes : list (list byte * list byte)) (certifiers : list (list byte))
  | ByIdentityKeyAndTypes (identityKey : list byte) (types certifiers : list (list byte))
  | ByIdentityKey (identityKey : list byte) (certifiers : list (list byte))
  | ByCertifiers (certifiers : list (list byte)).

Definition jStrings (l : list (list byte)) : json := JArray (map JString l).

(** The members of a document that ask for a lookup. *)
Definition selectorMembers (sel : selector) : list (list byte * json) :=
  match sel with
  | BySerialNumber s => [(str "serialNumber", JString s)]
  | ByAttributes attributes certifiers =>
      [(str "attributes", JObject (map (fun kv => (kv.1, JString kv.2)) attributes)); (str "certifiers", jStrings certifiers)]
  | ByIdentityKeyAndTypes key types certifiers =>
      [(str "identityKey", JString key); (str "certificateTypes", jStrings types); (str "certifiers", jStrings certifiers)]
  | ByIdentityKey key certifiers => [(str "identityKey", JString key); (str "certifiers", jStrings certifiers)]
  | ByCertifiers certifiers => [(str "certifiers", jStrings certifiers)]
  end.

Definition pageMembers (limit offset : option Z) : list (list byte * json) :=
  match limit with Some n => [(str "limit", JNumber (FormatUint n))] | None => [] end ++
  match offset with Some n => [(str "offset", JNumber (FormatUint n))] | None => [] end.

(** The names that the other members of the document must avoid: those that come
    before, and those that the lookup uses. *)
Definition reserved (sel : selector) : list (list byte) :=
  [str "limit"; str "offset"; str "serialNumber"] ++
  match sel with
  | BySerialNumber _ => []
  | ByAttributes _ _ => [str "attributes"; str "certifiers"]
  | _ => [str "attributes"; str "identityKey"; str "certificateTypes"; str "certifiers"]
  end.

Definition validShort (s : list byte) : Prop := Utf8.Valid s = true /\ short s.

Definition validList (l : list (list byte)) : Prop := Forall validShort l /\ len l <= MaxQueryArrayValues.

Definition selector_ok (sel : selector) : Prop :=
  match sel with
  | BySerialNumber s => validShort s
  | ByAttributes attributes certifiers =>
      NoDup attributes.*1 /\ len attributes <= MaxQueryAttributes /\
      Forall (fun kv => Utf8.Valid kv.1 = true /\ attribute_ok kv.1 /\ validShort kv.2) attributes /\ validList certifiers
  | ByIdentityKeyAndTypes key types certifiers => validShort key /\ validList types /\ validList certifiers
  | ByIdentityKey key certifiers => validShort key /\ validList certifiers
  | ByCertifiers certifiers => validList certifiers
  end.

Definition page_ok (policy : QueryPolicy) (limit offset : option Z) : Prop :=
  (forall n, limit = Some n -> 0 <= n <= MaxResults policy) /\ (forall n, offset = Some n -> 0 <= n <= MaxOffset policy).

(** The predicate of an attribute, none if it has no words. *)
Definition predicateOf (attributes : list (list byte * list byte)) (key : list byte) : option AttributePredicate :=
  let ws := words (default [] ((list_to_map attributes : gmap _ _) !! key)) in
  if bool_decide (ws = []) then None
  else if bool_decide (key = userName) then Some (mkPredicate key (Join ws space) AttributeMatchExact)
  else Some (mkPredicate key (Join (map QuoteMeta ws) (str ".*")) AttributeMatchFuzzy).

(** The one predicate of attributes.any, by the number of UTF-16 units of its words. *)
Definition anyPredicates (value : list byte) : list AttributePredicate :=
  let ws := words value in
  let n := utf16Length (Join ws space) in
  if n <=? 1 then [] else
  [if n =? 2 then mkPredicate [] (Join (map QuoteMeta ws) (str ".*")) AttributeMatchFuzzy
   else mkPredicate [] (Join ws space) AttributeMatchText].

Definition predicatesOf (attributes : list (list byte * list byte)) : list AttributePredicate :=
  match (list_to_map attributes : gmap _ _) !! any with
  | Some value => anyPredicates value
  | None => omap (predicateOf attributes) (merge_sort Admission.string_le attributes.*1)
  end.

(** What the document asks for. *)
Definition compiled (sel : selector) (page : Pagination) : Query :=
  match sel with
  | BySerialNumber s => mkQuery QueryKindSerialNumber s [] [] [] [] page (bool_decide (s = []))
  | ByAttributes attributes certifiers =>
      mkQuery QueryKindAttributes [] [] [] certifiers (predicatesOf attributes) page (bool_decide (predicatesOf attributes = []))
  | ByIdentityKeyAndTypes key types certifiers =>
      mkQuery QueryKindIdentityKeyAndTypes [] key types certifiers [] page (bool_decide (types = []))
  | ByIdentityKey key certifiers => mkQuery QueryKindIdentityKey [] key [] certifiers [] page false
  | ByCertifiers certifiers => mkQuery QueryKindCertifiers [] [] [] certifiers [] page (bool_decide (certifiers = []))
  end.

Definition paged (policy : QueryPolicy) (limit offset : option Z) : Pagination :=
  let unbounded := bool_decide (default 0 limit = 0) in
  mkPagination (if unbounded then MaxResults policy + 1 else default 0 limit) (default 0 offset) (MaxResults policy) unbounded.

(** *** Values *)

Lemma trimLeft_id s : (forall c, head s = Some c -> isTrimmed c = false) -> trimLeft s = s.
Proof. destruct s as [|c s]; [done|]. intros H. cbn. by rewrite (H c eq_refl). Qed.

Lemma TrimSpace_id s :
  (forall c, head s = Some c -> isTrimmed c = false) -> (forall c, last s = Some c -> isTrimmed c = false) -> TrimSpace s = s.
Proof.
  intros Hh Hl. unfold TrimSpace. rewrite (trimLeft_id s Hh), trimLeft_id; [apply reverse_involutive|].
  intros c Hc. apply Hl. by rewrite <- head_reverse.
Qed.

Lemma TrimSpace_quote s : TrimSpace (quote s) = quote s.
Proof.
  apply TrimSpace_id; intros c; unfold quote; [by intros [= <-]|]. rewrite app_comm_cons, last_snoc. by intros [= <-].
Qed.

Lemma decodeString_quote s : validShort s -> decodeString (quote s) = Ok s.
Proof.
  intros [Hv Hs]. unfold decodeString. rewrite TrimSpace_quote, bool_decide_false by done. rewrite UnmarshalString_quote by done.
  cbn [invalid mbind result_bind]. unfold short in Hs. destruct (Z.ltb_spec MaxQueryStringBytes (len s)); [lia|done].
Qed.

Lemma decodeStrings_quote l : Forall validShort l -> decodeStrings (map quote l) = Ok l.
Proof.
  induction 1 as [|s l Hs _ IH]; [done|]. cbn [map decodeStrings]. rewrite decodeString_quote by done. cbn [mbind result_bind]. by rewrite IH.
Qed.

Lemma decodeArray_strings (values : RawMap) name l :
  values !! name = Some (render (jStrings l)) -> validList l -> decodeOptionalStringArrayWithPresence values name = Ok (l, true).
Proof.
  intros E [Hl Hlen]. unfold decodeOptionalStringArrayWithPresence. rewrite E. unfold jStrings.
  assert (Hwf : Forall (wf 0) (map JString l)) by (apply Forall_map; eapply Forall_impl; [exact Hl|]; by intros s [? _]).
  rewrite (UnmarshalArray_array 0) by done.
  cbn [invalid mbind result_bind]. rewrite map_map. cbn [render]. unfold len in *. rewrite length_map.
  destruct (Z.ltb_spec MaxQueryArrayValues (Z.of_nat (length l))); [lia|]. by rewrite decodeStrings_quote.
Qed.

Lemma decodeOptionalInteger_format (values : RawMap) name n :
  values !! name = Some (FormatUint n) -> 0 <= n <= MaxQueryOffset -> decodeOptionalInteger values name = Ok (n, true).
Proof.
  intros E Hn. unfold MaxQueryOffset in Hn. assert (Hu : is_u64 n) by (unfold is_u64, MaxUint64; lia).
  destruct (FormatUint_spec n Hu) as [_ (Hd & Hne & _)]. unfold decodeOptionalInteger. rewrite E. cbv zeta.
  assert (Hdig : forall c, c ∈ FormatUint n -> is_digit c = true) by (rewrite forallb_forall in Hd; intros c Hc; apply Hd; by apply list_elem_of_In).
  assert (Hplain : forall c, is_digit c = true -> isTrimmed c = false) by (intros []; vm_compute; congruence).
  rewrite TrimSpace_id; [|intros c Hc; apply Hplain, Hdig..].
  - pose proof (UnmarshalInteger_format n ltac:(lia)) as Hi. destruct (FormatUint n) as [|c t]; [done|].
    assert (Hc : is_digit c = true) by (apply Hdig; by left). unfold is_digit in Hc. apply andb_true_iff in Hc as [H1%Z.leb_le H2%Z.leb_le].
    assert ((val c <? 48) || (57 <? val c) = false) as -> by (apply orb_false_iff; rewrite !Z.ltb_ge; lia). rewrite andb_false_r, Hi.
    cbn [invalid mbind result_bind]. destruct (Z.ltb_spec (2 ^ 53 - 1) n), (Z.ltb_spec n (- (2 ^ 53 - 1))); (done || lia).
  - destruct (FormatUint n); [done|]. injection Hc as ->. by left.
  - by apply last_Some_elem_of in Hc.
Qed.

(** *** Attributes *)

Lemma pairs_id {A B} (l : list (A * B)) : (fun x => (x.1, x.2)) <$> l = l.
Proof. induction l as [|[a b] l IH]; [done|]. cbn. by rewrite IH. Qed.

Definition quoted (kv : list byte * list byte) : list byte * list byte := (kv.1, quote kv.2).

Lemma quoted_keys l : (map quoted l).*1 = l.*1.
Proof. induction l as [|kv l IH]; [done|]. cbn. by rewrite IH. Qed.

Lemma decodeAttributes_quoted l :
  Forall (fun kv => attribute_ok kv.1 /\ validShort kv.2) l -> decodeAttributes (map quoted l) = Ok l.
Proof.
  induction 1 as [|[k v] l [[Hs Hk] Hv] _ IH]; [done|]. cbn [map quoted decodeAttributes fst snd] in *. unfold decodeAttributeEntry.
  unfold short in Hs. destruct (Z.ltb_spec MaxQueryStringBytes (len k)); [lia|].
  assert (negb (bool_decide (k = any)) && negb (safeAttributePath k) = false) as ->.
  { destruct Hk as [-> | ->]; [by rewrite bool_decide_true|by rewrite andb_false_r]. }
  rewrite decodeString_quote by done. cbn [mbind result_bind]. by rewrite IH.
Qed.

Lemma sorted_perm l1 l2 : l1 ≡ₚ l2 -> merge_sort Admission.string_le l1 = merge_sort Admission.string_le l2.
Proof.
  intros Hp. apply (StronglySorted_unique Admission.string_le); [apply (StronglySorted_merge_sort _)..|].
  by rewrite !merge_sort_Permutation.
Qed.

Lemma words_nil input : normalizeSearchInput input = [] <-> words input = [].
Proof.
  rewrite normalize_words. assert (Hw : Forall isWord (words input)) by (apply (fields_words (clean (runes input)) []); [apply clean_proper|constructor..]).
  destruct Hw as [|w ws [Hne _] _]; [done|]. split; [|done]. intros E. by destruct ws; cbn in E; destruct w.
Qed.

Lemma fuzzy_words input : fuzzyPattern (normalizeSearchInput input) = Join (map QuoteMeta (words input)) (str ".*").
Proof. unfold fuzzyPattern. by rewrite FieldsFunc_normalized. Qed.

Lemma compileFields_spec attributes keys : compileFields (list_to_map attributes) keys = omap (predicateOf attributes) keys.
Proof.
  induction keys as [|key keys IH]; [done|]. cbn [compileFields omap list_omap]. unfold predicateOf at 1. cbv zeta.
  set (v := default [] _). rewrite (bool_decide_ext _ _ (words_nil v)). rewrite fuzzy_words. case_bool_decide; [exact IH|].
  rewrite IH, normalize_words. by case_bool_decide.
Qed.

Lemma compileAny_spec value : compileAnyAttribute value = (anyPredicates value, bool_decide (anyPredicates value = [])).
Proof.
  unfold compileAnyAttribute, anyPredicates. cbv zeta. rewrite fuzzy_words, normalize_words.
  destruct (Z.leb_spec (utf16Length (Join (words value) space)) 1); [done|]. by destruct (_ =? 2).
Qed.

Lemma compileAttributes_object attributes :
  NoDup attributes.*1 -> len attributes <= MaxQueryAttributes ->
  Forall (fun kv => Utf8.Valid kv.1 = true /\ attribute_ok kv.1 /\ validShort kv.2) attributes ->
  compileAttributes (render (JObject (map (fun kv => (kv.1, JString kv.2)) attributes))) =
    Ok (predicatesOf attributes, bool_decide (predicatesOf attributes = [])).
Proof.
  intros Hnd Hlen Hall. set (l := map _ attributes).
  assert (Hr : rendered l = map quoted attributes) by (unfold l; by rewrite map_map).
  assert (Hl : membersOk 0 l) by (apply Forall_map; eapply Forall_impl; [exact Hall|]; by intros kv (? & _ & ? & _)).
  set (m := list_to_map (map quoted attributes) : RawMap).
  assert (Hm : map_to_list m ≡ₚ map quoted attributes) by (apply map_to_list_to_map; by rewrite quoted_keys).
  assert (HU : UnmarshalMap (render (JObject l)) = Ok (Some m)).
  { rewrite (UnmarshalMap_object 0) by done. do 2 f_equal. apply (foldl_insert_perm fst snd). by rewrite pairs_id, Hr, Hm. }
  unfold compileAttributes, decodeAttributeMap. rewrite HU. cbn [invalid mbind result_bind].
  assert (Hsize : Z.of_nat (size m) = len attributes) by (unfold len; by rewrite <- length_map_to_list, (Permutation_length Hm), length_map).
  rewrite Hsize. destruct (Z.ltb_spec MaxQueryAttributes (len attributes)); [lia|].
  destruct (Permutation_map_inv quoted _ Hm) as (d & -> & Hd).
  rewrite decodeAttributes_quoted by (rewrite <- Hd; eapply Forall_impl; [exact Hall|]; by intros kv (_ & ? & ?)).
  cbn [mbind result_bind].
  assert (Hmap : (list_to_map d : gmap (list byte) (list byte)) = list_to_map attributes) by (symmetry; apply list_to_map_proper; done).
  rewrite Hmap. rewrite (sorted_perm d.*1 attributes.*1) by (by rewrite Hd).
  unfold predicatesOf. destruct (_ !! any) as [value|]; [by rewrite compileAny_spec|].
  unfold compileFieldAttributes. rewrite compileFields_spec. do 2 f_equal. apply eq_true_iff_eq. by rewrite empty_list, bool_decide_eq_true.
Qed.

(** *** Documents *)

Lemma decodeQuery_object d l :
  membersOk d l -> Z.of_nat (S d) <= maxNestingDepth ->
  decodeQuery (render (JObject l)) = Ok (foldl (fun m x => <[x.1 := x.2]> m) ∅ (rendered l)).
Proof.
  intros Hl Hd. assert (Hv : isValue (S d) (render (JObject l))) by (by apply render_value).
  pose proof (UnmarshalMap_object d l Hl Hd) as HU. unfold UnmarshalMap in HU. rewrite (document_value (S d)) in HU by done. cbn [mbind result_bind] in HU.
  assert (HD : Decode (NewDecoder (render (JObject l))) = Ok (render (JObject l), mkDecoder [] tokenTopValue [])).
  { unfold Decode, NewDecoder. cbn [tokenPrepareForDecode mbind result_bind state buf stack tokenValueAllowed negb].
    pose proof (skipSpace_starts _ [] (value_starts _ _ Hv)) as Es. pose proof (readValue_render (S d) _ [] Hv Hd I) as Er.
    rewrite app_nil_r in Es, Er. rewrite Es. destruct (render (JObject l)) as [|c v]; [by destruct (value_starts _ _ Hv)|]. by rewrite Er. }
  unfold decodeQuery. rewrite HD. cbn [invalid mbind result_bind]. by rewrite HU.
Qed.

Lemma compilePagination_paged (values : RawMap) policy limit offset :
  validateQueryPolicy policy = Ok tt -> page_ok policy limit offset ->
  values !! str "limit" = FormatUint <$> limit -> values !! str "offset" = FormatUint <$> offset ->
  compilePagination values policy = Ok (paged policy limit offset).
Proof.
  intros Hp [Hl Ho] El Eo. destruct (validateQueryPolicy_cases policy) as [E|(_ & Hr & Hm)]; [by rewrite E in Hp|].
  unfold MaxQueryResults, MaxQueryOffset in *. unfold compilePagination, paged.
  assert (Eo' : decodeOptionalInteger values (str "offset") = Ok (default 0 offset, bool_decide (is_Some offset))).
  { destruct offset as [n|]; [|unfold decodeOptionalInteger; by rewrite Eo]. rewrite (decodeOptionalInteger_format _ _ n) by (try done; specialize (Ho n eq_refl); unfold MaxQueryOffset; lia).
    by rewrite bool_decide_true. }
  assert (El' : decodeOptionalInteger values (str "limit") = Ok (default 0 limit, bool_decide (is_Some limit))).
  { destruct limit as [n|]; [|unfold decodeOptionalInteger; by rewrite El]. rewrite (decodeOptionalInteger_format _ _ n) by (try done; specialize (Hl n eq_refl); unfold MaxQueryOffset; lia).
    by rewrite bool_decide_true. }
  rewrite El'. cbn [mbind result_bind].
  assert (Elim : (if negb (bool_decide (is_Some limit)) || (default 0 limit =? 0) then Ok (MaxResults policy + 1, true)
     else if (default 0 limit <? 0) || (MaxResults policy <? default 0 limit) then Err ErrInvalidQuery else Ok (default 0 limit, false)) =
     Ok (if bool_decide (default 0 limit = 0) then MaxResults policy + 1 else default 0 limit, bool_decide (default 0 limit = 0))).
  { destruct limit as [n|]; [|done]. cbn [default from_option id]. specialize (Hl n eq_refl). rewrite bool_decide_true by done. cbn [negb orb].
    destruct (Z.eqb_spec n 0) as [->|Hne]; [done|]. rewrite bool_decide_false by done. destruct (Z.ltb_spec n 0), (Z.ltb_spec (MaxResults policy) n); (done || lia). }
  rewrite Elim. cbn [mbind result_bind]. rewrite Eo'. cbn [mbind result_bind].
  destruct offset as [n|]; [|done]. cbn [default from_option id]. specialize (Ho n eq_refl).
  destruct (Z.ltb_spec n 0), (Z.ltb_spec (MaxOffset policy) n); try lia. by rewrite andb_false_r.
Qed.

Lemma compileSelector_compiled (sel : selector) (values : RawMap) page :
  selector_ok sel ->
  (forall k j, (k, j) ∈ selectorMembers sel -> values !! k = Some (render j)) ->
  (forall k, k ∈ reserved sel -> k ∉ [str "limit"; str "offset"] -> k ∉ (selectorMembers sel).*1 -> values !! k = None) ->
  compileSelector values page = Ok (compiled sel page).
Proof.
  intros Hok Hin Hout. unfold compileSelector.
  assert (Habsent : forall k, k ∈ reserved sel -> bool_decide (k ∈ [str "limit"; str "offset"]) = false -> bool_decide (k ∈ (selectorMembers sel).*1) = false -> values !! k = None).
  { intros k Hk H1%bool_decide_eq_false H2%bool_decide_eq_false. by apply Hout. }
  assert (Hnil : forall l : list (list byte), (len l =? 0) = bool_decide (l = [])) by (intros l; apply eq_true_iff_eq; by rewrite empty_list, bool_decide_eq_true).
  assert (Hmissing : values !! str "certificateTypes" = None -> decodeOptionalStringArrayWithPresence values (str "certificateTypes") = Ok ([], false))
    by (unfold decodeOptionalStringArrayWithPresence; by intros ->).
  destruct sel as [s|attributes certifiers|key types certifiers|key certifiers|certifiers]; cbn [selector_ok compiled] in *.
  - rewrite (Hin (str "serialNumber") (JString s)) by (by left). cbn [render]. by rewrite decodeString_quote.
  - destruct Hok as (Hnd & Hlen & Hall & Hc).
    rewrite (Habsent (str "serialNumber")) by (done || set_solver).
    rewrite (Hin (str "attributes") _) by (by left). rewrite compileAttributes_object by done. cbn [mbind result_bind].
    unfold decodeOptionalStringArray. by rewrite (decodeArray_strings _ (str "certifiers") certifiers) by (done || (apply Hin; right; by left)).
  - destruct Hok as (Hk & Ht & Hc). rewrite (Habsent (str "serialNumber")), (Habsent (str "attributes")) by (done || set_solver).
    unfold decodeOptionalString. rewrite (Hin (str "identityKey") (JString key)) by (by left). cbn [render]. rewrite decodeString_quote by done. cbn [mbind result_bind].
    rewrite (decodeArray_strings _ (str "certificateTypes") types) by (done || (apply Hin; right; by left)). cbn [mbind result_bind].
    rewrite (decodeArray_strings _ (str "certifiers") certifiers) by (done || (apply Hin; right; right; by left)). cbn [mbind result_bind andb]. by rewrite Hnil.
  - destruct Hok as (Hk & Hc). rewrite (Habsent (str "serialNumber")), (Habsent (str "attributes")) by (done || set_solver).
    unfold decodeOptionalString. rewrite (Hin (str "identityKey") (JString key)) by (by left). cbn [render]. rewrite decodeString_quote by done. cbn [mbind result_bind].
    rewrite Hmissing by (apply Habsent; done || set_solver). cbn [mbind result_bind].
    by rewrite (decodeArray_strings _ (str "certifiers") certifiers) by (done || (apply Hin; right; by left)).
  - rewrite (Habsent (str "serialNumber")), (Habsent (str "attributes")) by (done || set_solver).
    unfold decodeOptionalString. rewrite (Habsent (str "identityKey")) by (done || set_solver). cbn [mbind result_bind].
    rewrite Hmissing by (apply Habsent; done || set_solver). cbn [mbind result_bind].
    rewrite (decodeArray_strings _ (str "certifiers") certifiers) by (done || (apply Hin; by left)). cbn [mbind result_bind andb]. by rewrite Hnil.
Qed.

Lemma jStrings_ok l : validList l -> wf 1 (jStrings l).
Proof. intros [Hl _]. apply Forall_map. eapply Forall_impl; [exact Hl|]. by intros s [? _]. Qed.

Lemma selectorMembers_ok (sel : selector) : selector_ok sel -> membersOk 1 (selectorMembers sel).
Proof.
  unfold membersOk. destruct sel as [s|attributes certifiers|key types certifiers|key certifiers|certifiers]; cbn [selector_ok selectorMembers]; intros Hok;
    rewrite ?Forall_cons, ?Forall_nil; cbn [fst snd].
  - by destruct Hok.
  - destruct Hok as (_ & _ & Hall & Hc). split_and!; try done; [|by apply jStrings_ok]. cbn [wf]. apply Forall_map. eapply Forall_impl; [exact Hall|].
    by intros kv (? & _ & ? & _).
  - destruct Hok as ([Hk _] & Ht & Hc). split_and!; try done; by apply jStrings_ok.
  - destruct Hok as ([Hk _] & Hc). split_and!; try done; by apply jStrings_ok.
  - split_and!; try done. by apply jStrings_ok.
Qed.

Lemma pageMembers_ok policy limit offset d :
  validateQueryPolicy policy = Ok tt -> page_ok policy limit offset -> membersOk d (pageMembers limit offset).
Proof.
  intros Hp [Hl Ho]. destruct (validateQueryPolicy_cases policy) as [E|(_ & Hr & Hm)]; [by rewrite E in Hp|]. unfold MaxQueryResults, MaxQueryOffset in *.
  assert (Hnum : forall n, 0 <= n <= 100000 -> wf d (JNumber (FormatUint n))) by (intros n Hn; destruct d; apply FormatUint_number; unfold is_u64, MaxUint64; lia).
  apply Forall_app. split; [destruct limit as [n|]|destruct offset as [n|]]; repeat constructor; apply Hnum.
  - specialize (Hl n eq_refl). lia.
  - specialize (Ho n eq_refl). lia.
Qed.

(** Queries mean what they ask for.  For every lookup that a client can ask for
    within the limits, and every page of it, a document that has the members of the
    lookup and of the page, in any order and among other members that the lookup does not
    use or that rank below it, is compiled to exactly that query: the lookup paths have
    the documented precedence; userName is matched exactly, other attributes by the
    pattern of their words in the order of their names, and attributes.any by itself;
    attributes without words are dropped; and an omitted or zero limit is unbounded. *)
Theorem queries_compile (sel : selector) limit offset extra l d policy :
  validateQueryPolicy policy = Ok tt -> selector_ok sel -> page_ok policy limit offset ->
  l ≡ₚ selectorMembers sel ++ pageMembers limit offset ++ extra -> (forall k, k ∈ reserved sel -> k ∉ extra.*1) ->
  NoDup l.*1 -> (1 <= d)%nat -> Z.of_nat (S d) <= maxNestingDepth -> membersOk d extra ->
  len (render (JObject l)) <= MaxQueryBytes ->
  CompileQuery (render (JObject l)) policy = Ok (compiled sel (paged policy limit offset)).
Proof.
  intros Hpolicy Hsel Hpage Hperm Hextra Hnd Hd1 Hd Hwf Hsize.
  assert (Hl : membersOk d l).
  { unfold membersOk. rewrite Hperm. rewrite !Forall_app. split_and!; [|by eapply pageMembers_ok|done].
    eapply Forall_impl; [by apply selectorMembers_ok|]. intros m [? ?]. split; [done|]. by apply (wf_le 1). }
  unfold CompileQuery. rewrite Hpolicy. cbn [mbind result_bind].
  destruct (Z.eqb_spec (len (render (JObject l))) 0) as [E0|_]; [by unfold len in E0|].
  destruct (Z.ltb_spec MaxQueryBytes (len (render (JObject l)))) as [|_]; [lia|]. cbn [orb].
  rewrite (decodeQuery_object d) by done. cbn [mbind result_bind]. set (values := foldl _ _ _).
  assert (Hin : forall k j, (k, j) ∈ selectorMembers sel ++ pageMembers limit offset -> values !! k = Some (render j)).
  { intros k j Hk. apply rendered_lookup; [done|]. rewrite Hperm, app_assoc. apply elem_of_app. by left. }
  assert (Hout : forall k, k ∈ reserved sel -> k ∉ (selectorMembers sel).*1 -> k ∉ (pageMembers limit offset).*1 -> values !! k = None).
  { intros k Hk Hs Hp. apply rendered_none. rewrite Hperm, !fmap_app, !elem_of_app. intros [?|[?|Hx]]; [done..|]. by apply (Hextra k). }
  assert (Hnames : forall k, k ∈ (pageMembers limit offset).*1 -> k ∈ [str "limit"; str "offset"]).
  { unfold pageMembers. destruct limit, offset; set_solver. }
  rewrite (compilePagination_paged _ policy limit offset); [|done|done| |].
  - cbn [mbind result_bind]. apply compileSelector_compiled; [done| |].
    + intros k j Hk. apply Hin, elem_of_app. by left.
    + intros k Hk Hpn Hs. apply Hout; [done..|]. intros Hk'. by apply Hpn, Hnames.
  - destruct limit as [n|].
    + apply (Hin (str "limit") (JNumber (FormatUint n))), elem_of_app. right. unfold pageMembers. set_solver.
    + apply Hout; [by left|by destruct sel; apply (bool_decide_eq_false_1 _); vm_compute|]. by destruct offset; apply (bool_decide_eq_false_1 _); vm_compute.
  - destruct offset as [n|].
    + apply (Hin (str "offset") (JNumber (FormatUint n))), elem_of_app. right. unfold pageMembers. set_solver.
    + apply Hout; [right; by left|by destruct sel; apply (bool_decide_eq_false_1 _); vm_compute|]. by destruct limit; apply (bool_decide_eq_false_1 _); vm_compute.
Qed.

(** ** Examples *)

Module Example.

(** JSON with single quotes for double ones. *)
Definition text (s : string) : list byte := map (fun c => if isb Byte.x27 c then Byte.x22 else c) (str s).

Definition policy : QueryPolicy := mkQueryPolicy 3 7.

Definition bySelector : selector :=
  ByAttributes [(str "userName", str " Ada  Lovelace"); (str "blank", str " "); (str "name", str "A.* B[")] [str "c1"].

Definition rest : list (list byte * json) := [(str "identityKey", JNull); (str "x", JArray [JBool true])].

Definition document : list (list byte * json) := rev (selectorMembers bySelector ++ pageMembers (Some 2) None ++ rest).

Lemma queries_compile_witness :
  CompileQuery (render (JObject document)) policy =
    Ok (mkQuery QueryKindAttributes [] [] [] [str "c1"]
          [mkPredicate (str "name") (str "A\.\*.*B\[") AttributeMatchFuzzy; mkPredicate (str "userName") (str "Ada Lovelace") AttributeMatchExact]
          (mkPagination 2 0 3 false) false).
Proof.
  apply (queries_compile bySelector (Some 2) None rest document 1 policy).
  - reflexivity.
  - split; [apply (bool_decide_eq_true_1 (NoDup _)); vm_compute; reflexivity|]. split; [vm_compute; discriminate|]. split.
    + repeat constructor; vm_compute; first [discriminate|reflexivity|right; reflexivity].
    + split; [|vm_compute; discriminate]. repeat constructor; vm_compute; discriminate.
  - split; [intros n [= <-]; vm_compute; split; discriminate|discriminate].
  - symmetry. apply Permutation_rev.
  - apply Forall_forall. apply (bool_decide_eq_true_1 (Forall (fun k => k ∉ rest.*1) (reserved bySelector))). vm_compute. reflexivity.
  - apply (bool_decide_eq_true_1 (NoDup document.*1)). vm_compute. reflexivity.
  - lia.
  - vm_compute. discriminate.
  - repeat constructor.
  - vm_compute. discriminate.
Defined.

Lemma search_text_is_literal_witness :
  lex (fuzzyPattern (normalizeSearchInput (str " A.*  B[ "))) =
    map Literal (str "A.*") ++ [AnyChar; Star] ++ map Literal (str "B[") /\
  words (str " A.*  B[ ") = FieldsFunc (str " A.*  B[ ") white.
Proof.
  destruct (search_text_is_literal (str " A.*  B[ ")) as (_ & _ & _ & Hlex & Hvalid).
  split; [exact Hlex|exact (Hvalid eq_refl)].
Defined.

(** Certificate types alone select nothing. *)
Example types_alone : CompileQuery (text "{'certificateTypes':['t']}") policy = Err ErrInvalidQuery.
Proof. vm_compute. reflexivity. Qed.

(** A fraction that rounds to an integer is one. *)
Example rounded_limit : pagination <$> CompileQuery (text "{'identityKey':'','limit':2.00000000000000000001}") policy = Ok (mkPagination 2 0 3 false).
Proof. vm_compute. reflexivity. Qed.

End Example.

End IdentityQuery.
