(* ===== verification/EngineTypes.v ===== *)
(** * pkg/core/engine: the interfaces of the engine

    The values the engine handles and the components it calls: the storage
    (storage.go), the topic managers (topic-manager.go), the lookup services
    (lookup-service.go), the broadcaster and the SDK.  A BEEF is an opaque value of
    the SDK; a transaction is the fields the engine reads. *)

From S2P Require Import Prelude Bytes Runs GaspTypes Admission.
Import Gasp.
Open Scope Z_scope.

(** ** Values *)

(** A leaf of the first level of a [transaction.MerklePath]. *)
Record PathElement := mkElement { elemHash : option Hash; elemOffset : Z }.

Record MerklePath := mkPath {
  pathHeight : Z; leaves : list PathElement; otherLevels : list (list PathElement) }.

(** [transaction.Transaction]: its serialization, its Merkle path, its inputs (the
    outpoint spent, the unlocking script, the sequence number and, when it is
    linked, the source transaction) and its outputs (satoshis, locking script). *)
#[warnings="-register-all"]
Inductive Transaction :=
  mkTransaction (bytes : list byte) (path : option MerklePath) (inputs : list TxInput)
    (outputs : list (option (Z * option (list byte))))
with TxInput :=
  mkTxInput (spends : Outpoint) (unlocking : list byte) (sequence : Z) (source : option Transaction).

Definition txBytes (t : Transaction) : list byte := match t with mkTransaction b _ _ _ => b end.
Definition txMerklePath (t : Transaction) : option MerklePath := match t with mkTransaction _ p _ _ => p end.
Definition txInputs (t : Transaction) : list TxInput := match t with mkTransaction _ _ i _ => i end.
Definition txOutputs (t : Transaction) := match t with mkTransaction _ _ _ o => o end.

Definition inputOutpoint (i : TxInput) : Outpoint := match i with mkTxInput o _ _ _ => o end.
Definition UnlockingScript (i : TxInput) : list byte := match i with mkTxInput _ u _ _ => u end.
Definition SequenceNumber (i : TxInput) : Z := match i with mkTxInput _ _ s _ => s end.
Definition SourceTransaction (i : TxInput) : option Transaction := match i with mkTxInput _ _ _ s => s end.

(** Induction over a transaction and the transactions linked to its inputs. *)
Section TransactionInduction.
Context (P : Transaction -> Prop).
Context (step : forall bytes path inputs outputs,
  Forall (fun i => forall source, SourceTransaction i = Some source -> P source) inputs ->
  P (mkTransaction bytes path inputs outputs)).

Lemma Transaction_nested : forall t, P t.
Proof using step.
  fix IH 1. intros [bytes path inputs outputs]. apply step.
  induction inputs as [|[o u q src] inputs IHinputs]; constructor; [|exact IHinputs].
  simpl. destruct src as [s|]; [|discriminate]. intros source E. injection E as <-. apply IH.
Qed.
End TransactionInduction.

Inductive MerkleState :=
  | MerkleStateUnmined | MerkleStateValidated | MerkleStateInvalidated | MerkleStateImmutable.

(** [engine.Output] *)
Record EngineOutput (Beef : Type) := mkEngineOutput {
  oOutpoint : Outpoint; oTopic : list byte; oSpent : bool;
  OutputsConsumed : list Outpoint; ConsumedBy : list Outpoint;
  oBlockHeight : Z; oBlockIdx : Z; oScore : Z; oBeef : option Beef;
  AncillaryTxids : list Hash; oMerkleState : MerkleState; oMerkleRoot : option Hash }.
Arguments mkEngineOutput {Beef}.
Arguments oOutpoint {Beef}.
Arguments oTopic {Beef}.
Arguments oSpent {Beef}.
Arguments OutputsConsumed {Beef}.
Arguments ConsumedBy {Beef}.
Arguments oBlockHeight {Beef}.
Arguments oBlockIdx {Beef}.
Arguments oScore {Beef}.
Arguments oBeef {Beef}.
Arguments AncillaryTxids {Beef}.
Arguments oMerkleState {Beef}.
Arguments oMerkleRoot {Beef}.

Definition setConsumedBy {Beef} (o : EngineOutput Beef) (c : list Outpoint) : EngineOutput Beef :=
  mkEngineOutput (oOutpoint o) (oTopic o) (oSpent o) (OutputsConsumed o) c (oBlockHeight o)
    (oBlockIdx o) (oScore o) (oBeef o) (AncillaryTxids o) (oMerkleState o) (oMerkleRoot o).

Definition setBeef {Beef} (o : EngineOutput Beef) (b : option Beef) : EngineOutput Beef :=
  mkEngineOutput (oOutpoint o) (oTopic o) (oSpent o) (OutputsConsumed o) (ConsumedBy o) (oBlockHeight o)
    (oBlockIdx o) (oScore o) b (AncillaryTxids o) (oMerkleState o) (oMerkleRoot o).

Definition setBlock {Beef} (o : EngineOutput Beef) (height idx : Z) : EngineOutput Beef :=
  mkEngineOutput (oOutpoint o) (oTopic o) (oSpent o) (OutputsConsumed o) (ConsumedBy o) height
    idx (oScore o) (oBeef o) (AncillaryTxids o) (oMerkleState o) (oMerkleRoot o).

(** [overlay.AdmittanceInstructions]; a nil slice and an empty one differ for
    [propagateToNetwork]. *)
Record AdmittanceInstructions := mkAdmit {
  OutputsToAdmit : option (list Z); CoinsToRetain : option (list Z); CoinsRemoved : list Z;
  admitAncillary : list Hash }.

Definition noAdmittance : AdmittanceInstructions := mkAdmit None None [] [].

Definition elements {A} (l : option (list A)) : list A := default [] l.

(** ** Components *)

(** The SDK. *)
Class TransactionSDK (Beef : Type) := {
  txIDOf : Transaction -> Hash;
  (* the subject transaction and its identifier may be absent *)
  ParseBeef : list byte -> result (Beef * option Transaction * option Hash);
  FindTransactionForSigningByHash : Beef -> Hash -> option Transaction;
  FindTransactionByHash : Beef -> Hash -> option Transaction;
  MergeBeef : Beef -> Beef -> result Beef;
  AtomicBytes : Beef -> Hash -> result (list byte);
  (* tx.AtomicBEEF followed by ParseBeef, tx.BEEF, MerklePath.ComputeRoot *)
  AtomicBEEF : Transaction -> result (list byte);
  BEEF : Transaction -> result (list byte);
  ComputeRoot : MerklePath -> Hash -> result Hash;
  pathBytes : MerklePath -> list byte }.

(** [engine.Storage] *)
Class EngineStorage (W Beef : Type) := {
  InsertOutputs : list byte -> Hash -> list Z -> list Outpoint -> Beef -> list Hash -> Op W unit;
  FindOutput : Outpoint -> option (list byte) -> option bool -> bool -> Op W (option (EngineOutput Beef));
  FindOutputs : list Outpoint -> list byte -> option bool -> bool -> Op W (list (option (EngineOutput Beef)));
  FindOutputsForTransaction : Hash -> bool -> Op W (list (EngineOutput Beef));
  FindUTXOsForTopic : list byte -> Z -> Z -> bool -> Op W (list (EngineOutput Beef));
  DeleteOutput : Outpoint -> list byte -> Op W unit;
  MarkUTXOsAsSpent : list Outpoint -> list byte -> Hash -> Op W unit;
  UpdateConsumedBy : Outpoint -> list byte -> list Outpoint -> Op W unit;
  UpdateTransactionBEEF : Hash -> Beef -> Op W unit;
  UpdateOutputBlockHeight : Outpoint -> list byte -> Z -> Z -> Op W unit;
  InsertAppliedTransaction : Hash -> list byte -> Op W unit;
  DoesAppliedTransactionExist : Hash -> list byte -> Op W bool;
  UpdateLastInteraction : list byte -> list byte -> Z -> Op W unit;
  GetLastInteraction : list byte -> list byte -> Op W Z;
  FindOutpointsByMerkleState : list byte -> MerkleState -> Z -> Op W (list Outpoint);
  LoadAncillaryBeef : EngineOutput Beef -> Op W (EngineOutput Beef) }.

(** The topic managers, by name ([TopicManager]). *)
Class TopicManagers (W Beef : Type) := {
  IdentifyAdmissibleOutputs : list byte -> Beef -> Hash -> list Z -> Op W AdmittanceInstructions;
  IdentifyNeededInputs : list byte -> Beef -> Hash -> Op W (list Outpoint) }.

(** The lookup services, by name ([LookupService]). *)
Class LookupServices (W : Type) := {
  OutputAdmittedByTopic : list byte -> list byte -> Z -> list byte -> list byte -> Op W unit;
  OutputSpent : list byte -> Outpoint -> list byte -> Hash -> Z -> list byte -> Z -> list byte -> Op W unit;
  OutputNoLongerRetainedInHistory : list byte -> Outpoint -> list byte -> Op W unit;
  OutputBlockHeightUpdated : list byte -> Hash -> Z -> Z -> Op W unit }.

(** The network: the SPV check with the chain tracker, the broadcaster, the
    propagation to other nodes and the host's callbacks. *)
Class Network (W : Type) := {
  Verify : Transaction -> Op W bool;
  IsValidRootForHeight : Hash -> Z -> Op W bool;
  Broadcast : Transaction -> Op W unit;
  Propagate : list (list byte) -> Transaction -> Op W unit }.

(** The fields of [Engine] that do not change while it runs. *)
Record EngineConfig := mkConfig {
  managers : gmap (list byte) unit;
  lookupServices : gmap (list byte) unit;
  HostingURL : list byte;
  hasBroadcaster : bool;
  hasAdvertiser : bool;
  hasOnAdmission : bool;
  hasAdmission : bool }.

Inductive SumbitMode := SubmitModeHistorical | SubmitModeCurrent | SubmitModeOther (s : list byte).

Definition isHistorical (m : SumbitMode) : bool :=
  match m with SubmitModeHistorical => true | _ => false end.
