(* ===== verification/AdmissionPlan.v ===== *)
(** * pkg/core/engine/admission_submit.go: the contents of an admission plan

    What a plan says of a topic (its outputs, spends and edges), and the JSON of the
    steak that is stored with it.  The capability of the storage is a class; the calls
    are in Submit.v. *)

From stdpp Require Import sorting.
From S2P Require Import Prelude Bytes Sha256 Utf8 Decimal Json Text Unmarshal Runs GaspTypes Admission EngineTypes.
Import Json Text Unmarshal Gasp Admission.
Open Scope Z_scope.

(** [AdmissionCommit] *)
Record AdmissionCommit := mkAdmissionCommit {
  comKey : AdmissionOperationKey; comIdentity : AdmissionIdentity; Payloads : list AdmissionPayloadRef;
  Decisions : list AdmissionTopicDecision; Outbox : list AdmissionOutboxIntent; comSteak : list byte }.

(** [admissionHost] and [AdmissionStorage]; [hostMethods] says whether the storage has
    the methods of the host. *)
Class AdmissionHost (W : Type) := {
  hostMethods : bool;
  hostScope : W -> StorageScope;
  PublishPayload : AdmissionPayloadRef -> list byte -> Op W unit;
  CurrentHistoryFence : list byte -> Op W HistoryFence;
  EnsureHistoryFence : list byte -> HistoryFence -> Op W unit;
  CommitAdmission : AdmissionCommit -> Op W AdmissionCommitResult }.

Module AdmissionPlan.

(** ** The parts of a decision *)

(** [hex.EncodeToString(txid[:])]: the bytes in their order in memory. *)
Definition hexID (h : Hash) : list byte := hex_encode (hbytes h).

(** [admissionOutpointFrom] *)
Definition admissionOutpointFrom (o : Outpoint) : AdmissionOutpoint :=
  mkAdmissionOutpoint (hexID (Txid o)) (FormatUint (Index o)).

(** [publishBytes], what it publishes. *)
Definition payloadRef (data : list byte) (kind : AdmissionPayloadKind) : AdmissionPayloadRef :=
  mkPayloadRef (hex_encode (hbytes (SHA256.Sum256 data))) (FormatUint (len data)) kind.

(** [admissionPayloads] *)
Record admissionPayloads := mkPayloads { raw : AdmissionPayloadRef; scripts : gmap Z AdmissionPayloadRef }.

(** The output of an index: [int(vout) >= len(tx.Outputs) || tx.Outputs[vout] == nil]. *)
Definition outputAt (tx : Transaction) (vout : Z) : option (Z * option (list byte)) :=
  default None (txOutputs tx !! Z.to_nat vout).

(** [admittedOutputValue] *)
Definition admittedOutputValue (tx : Transaction) (vout : Z) (scriptRef : AdmissionPayloadRef) : StorageUint64 * StorageUint64 :=
  match outputAt tx vout with
  | None => (str "0", ByteLength scriptRef)
  | Some (satoshis, lockingScript) =>
      (FormatUint satoshis, match lockingScript with Some s => FormatUint (len s) | None => ByteLength scriptRef end)
  end.

(** [admissionAncillaryIDs]; no hash is nil. *)
Definition admissionAncillaryIDs (instr : AdmittanceInstructions) : list (list byte) := map hexID (admitAncillary instr).

(** [admissionOutputs] *)
Definition admissionOutputs (tx : Transaction) (txid : list byte) (instr : AdmittanceInstructions) (payloads : admissionPayloads)
    : list AdmissionOutput :=
  map (fun vout =>
    let scriptRef := default (raw payloads) (scripts payloads !! vout) in
    let '(satoshis, scriptLen) := admittedOutputValue tx vout scriptRef in
    mkAdmissionOutput (mkAdmissionOutpoint txid (FormatUint vout)) satoshis (str "0")
      (mkRange scriptRef (str "0") scriptLen) (admissionAncillaryIDs instr))
    (elements (OutputsToAdmit instr)).

(** [admissionSpends], of the inputs in the order of the loop. *)
Definition admissionSpends {Beef} (inputs : list (Z * EngineOutput Beef)) (spender : list byte) : list AdmissionSpend :=
  map (fun i => mkSpend (admissionOutpointFrom (oOutpoint i.2)) (str "1") spender) inputs.

(** [admissionEdges] *)
Definition admissionEdges (sources : list Outpoint) (outputs : list AdmissionOutput) : list AdmissionEdge :=
  flat_map (fun source => map (fun output => mkEdge (admissionOutpointFrom source) (outOutpoint output)) outputs) sources.

(** ** The steak as JSON *)

Definition numbers (l : list Z) : json := JArray (map (fun n => JNumber (FormatUint n)) l).

(** [steakJSONEntry] and its encoding; a nil slice is stored as an empty one. *)
Definition steakEntry (i : AdmittanceInstructions) : json :=
  JObject [(str "outputsToAdmit", numbers (elements (OutputsToAdmit i)));
           (str "coinsToRetain", numbers (elements (CoinsToRetain i)));
           (str "coinsRemoved", numbers (CoinsRemoved i))].

Definition key_le (a b : list byte * json) : Prop := bytes_leb a.1 b.1 = true.

#[global] Instance key_le_dec a b : Decision (key_le a b).
Proof. unfold key_le. apply _. Defined.

(** [encodeSteakJSON]: [json.Marshal] sorts the keys of a map. *)
Definition encodeSteakJSON (steak : gmap (list byte) AdmittanceInstructions) : list byte :=
  render (JObject (merge_sort key_le (map (fun ti => (ti.1, steakEntry ti.2)) (map_to_list steak)))).

(** [encoding/json] finds the field of a name up to case; the folding of a rune to the
    least one equivalent to it, as far as it can meet an ASCII letter. *)
Definition foldRune (r : Z) : Z :=
  if (97 <=? r) && (r <=? 122) then r - 32
  else if r =? 0x212A then 75 else if r =? 0x17F then 83 else r.

Definition foldName (name : list byte) : list Z := map (fun x => foldRune x.1) (runes name).

Definition named (name key : list byte) : bool := bool_decide (foldName key = foldName name).

(** A slice of [uint32] being decoded: its elements, and what is left in its memory
    beyond them by an earlier decoding. *)
Record uint32s := mkSlice { slice : option (list Z); stale : list Z }.

Definition noSlice : uint32s := mkSlice None [].

(** The elements of an array; a null leaves what is in memory. *)
Fixpoint decodeElements (els : list (list byte)) (memory : list Z) : result (list Z) :=
  match els with
  | [] => Ok []
  | el :: els' =>
      n ← (if isNull el then Ok (default 0 (head memory))
           else match ParseUint el with
                | Some n => if n <=? MaxUint32 then Ok n else Err ErrJSON
                | None => Err ErrJSON
                end);
      rest ← decodeElements els' (tail memory); Ok (n :: rest)
  end.

Definition decodeSlice (old : uint32s) (v : list byte) : result uint32s :=
  if isNull v then Ok noSlice
  else match arrayElements v with
  | None => Err ErrJSON
  | Some [] => Ok (mkSlice (Some []) [])
  | Some els =>
      let memory := elements (slice old) ++ stale old in
      l ← decodeElements els memory; Ok (mkSlice (Some l) (drop (length l) memory))
  end.

Record entrySlices := mkEntry { eOutputs : uint32s; eRetain : uint32s; eRemoved : uint32s }.

(** The members of an entry, one after the other. *)
Fixpoint decodeMembers (l : list (list byte * list byte)) (e : entrySlices) : result entrySlices :=
  match l with
  | [] => Ok e
  | (key, v) :: l' =>
      e ← (if named (str "outputsToAdmit") key then s ← decodeSlice (eOutputs e) v; Ok (mkEntry s (eRetain e) (eRemoved e))
           else if named (str "coinsToRetain") key then s ← decodeSlice (eRetain e) v; Ok (mkEntry (eOutputs e) s (eRemoved e))
           else if named (str "coinsRemoved") key then s ← decodeSlice (eRemoved e) v; Ok (mkEntry (eOutputs e) (eRetain e) s)
           else Ok e);
      decodeMembers l' e
  end.

Definition entryInstructions (e : entrySlices) : AdmittanceInstructions :=
  mkAdmit (slice (eOutputs e)) (slice (eRetain e)) (elements (slice (eRemoved e))) [].

Definition decodeEntry (v : list byte) : result entrySlices :=
  if isNull v then Ok (mkEntry noSlice noSlice noSlice)
  else match objectMembers v with
  | None => Err ErrJSON
  | Some l => decodeMembers l (mkEntry noSlice noSlice noSlice)
  end.

Fixpoint decodeTopics (l : list (list byte * list byte)) (steak : gmap (list byte) entrySlices) : result (gmap (list byte) entrySlices) :=
  match l with
  | [] => Ok steak
  | (topic, v) :: l' => i ← decodeEntry v; decodeTopics l' (<[topic := i]> steak)
  end.

(** [json.Unmarshal] of a map of entries. *)
Definition decodeSteak (text : list byte) : result (gmap (list byte) entrySlices) :=
  v ← document text;
  if isNull v then Ok ∅
  else match objectMembers v with
  | None => Err ErrJSON
  | Some l => decodeTopics l ∅
  end.

(** [parseSavedSteak] *)
Definition parseSavedSteak (text : list byte) : result (gmap (list byte) AdmittanceInstructions) :=
  steak ← decodeSteak text; Ok (fmap (M := gmap (list byte)) entryInstructions steak).

(** ** The steak survives *)

(** What is read back: nil slices have become empty ones, ancillary hashes are not stored. *)
Definition saved (i : AdmittanceInstructions) : AdmittanceInstructions :=
  mkAdmit (Some (elements (OutputsToAdmit i))) (Some (elements (CoinsToRetain i))) (CoinsRemoved i) [].

Definition indices (l : list Z) : Prop := Forall is_u32 l.

Definition steak_ok (steak : gmap (list byte) AdmittanceInstructions) : Prop :=
  map_Forall (fun topic i => Utf8.Valid topic = true /\ indices (elements (OutputsToAdmit i)) /\
    indices (elements (CoinsToRetain i)) /\ indices (CoinsRemoved i)) steak.

Lemma numbers_value l : indices l -> Forall (isValue 0) (map FormatUint l).
Proof. intros Hl. apply Forall_map. eapply Forall_impl; [exact Hl|]. intros n Hn. apply number_value, FormatUint_number. by apply u32_u64. Qed.

Lemma render_numbers l : render (numbers l) = array (map FormatUint l).
Proof. unfold numbers. cbn [render]. f_equal. rewrite map_map. done. Qed.

Lemma FormatUint_not_null n : is_u64 n -> isNull (FormatUint n) = false.
Proof.
  intros Hn. destruct (FormatUint_spec n Hn) as [_ (Hd & Hne & _)]. destruct (FormatUint n) as [|c t]; [done|]. cbn [forallb] in Hd.
  apply andb_true_iff in Hd as [Hc _]. apply bool_decide_eq_false. intros [= ->]. done.
Qed.

Lemma decodeElements_numbers l memory : indices l -> decodeElements (map FormatUint l) memory = Ok l.
Proof.
  intros Hl. revert memory. induction Hl as [|n l Hn Hl IH]; intros memory; [done|]. cbn [map decodeElements].
  rewrite FormatUint_not_null, ParseUint_format by by apply u32_u64. destruct (Z.leb_spec n MaxUint32); [|unfold is_u32 in Hn; lia].
  cbn [mbind result_bind]. by rewrite IH.
Qed.

Lemma decodeSlice_numbers l : indices l -> decodeSlice noSlice (render (numbers l)) = Ok (mkSlice (Some l) []).
Proof.
  intros Hl. rewrite render_numbers. unfold decodeSlice. change (isNull (array (map FormatUint l))) with false.
  rewrite (arrayElements_render 0) by (done || by apply numbers_value). destruct l as [|n l]; [done|].
  change (map FormatUint (n :: l)) with (FormatUint n :: map FormatUint l). cbv iota beta. change (FormatUint n :: map FormatUint l) with (map FormatUint (n :: l)).
  rewrite decodeElements_numbers by done. cbn [mbind result_bind noSlice slice stale elements default from_option app]. by rewrite drop_nil.
Qed.

Definition entryMembers (i : AdmittanceInstructions) : list (list byte * json) :=
  [(str "outputsToAdmit", numbers (elements (OutputsToAdmit i)));
   (str "coinsToRetain", numbers (elements (CoinsToRetain i)));
   (str "coinsRemoved", numbers (CoinsRemoved i))].

Definition instructions_ok (i : AdmittanceInstructions) : Prop :=
  indices (elements (OutputsToAdmit i)) /\ indices (elements (CoinsToRetain i)) /\ indices (CoinsRemoved i).

Lemma entryMembers_ok i : instructions_ok i -> membersOk 1 (entryMembers i).
Proof.
  intros (H1 & H2 & H3). assert (Hn : forall l, indices l -> wf 1 (numbers l)).
  { intros l Hl. cbn. apply Forall_map. eapply Forall_impl; [exact Hl|]. intros n Hn. cbn. apply FormatUint_number. by apply u32_u64. }
  repeat constructor; by apply Hn.
Qed.

(** The slices that are read back; none is nil. *)
Definition savedSlices (i : AdmittanceInstructions) : entrySlices :=
  mkEntry (mkSlice (Some (elements (OutputsToAdmit i))) []) (mkSlice (Some (elements (CoinsToRetain i))) []) (mkSlice (Some (CoinsRemoved i)) []).

Lemma decodeEntry_saved i : instructions_ok i -> decodeEntry (render (steakEntry i)) = Ok (savedSlices i).
Proof.
  intros Hi. unfold decodeEntry. change (render (steakEntry i)) with (object (rendered (entryMembers i))). change (isNull (object _)) with false.
  rewrite (objectMembers_render 1 (rendered (entryMembers i))) by (done || by apply rendered_ok, entryMembers_ok).
  destruct Hi as (H1 & H2 & H3). unfold entryMembers. cbn [map decodeMembers fst snd].
  change (named (str "outputsToAdmit") (str "outputsToAdmit")) with true. change (named (str "outputsToAdmit") (str "coinsToRetain")) with false.
  change (named (str "outputsToAdmit") (str "coinsRemoved")) with false. change (named (str "coinsToRetain") (str "coinsToRetain")) with true.
  change (named (str "coinsToRetain") (str "coinsRemoved")) with false. change (named (str "coinsRemoved") (str "coinsRemoved")) with true. cbv iota.
  cbn [eOutputs eRetain eRemoved]. do 3 (rewrite decodeSlice_numbers by done; cbn [mbind result_bind eOutputs eRetain eRemoved]). done.
Qed.

Definition entryOf (ti : list byte * AdmittanceInstructions) : list byte * json := (ti.1, steakEntry ti.2).

Lemma decodeTopics_saved l steak :
  Forall (fun ti => instructions_ok ti.2) l ->
  decodeTopics (rendered (map entryOf l)) steak = Ok (foldl (fun m ti => <[ti.1 := savedSlices ti.2]> m) steak l).
Proof.
  intros Hl. revert steak. induction Hl as [|[t i] l Hi _ IH]; intros steak; [done|]. cbn [map decodeTopics entryOf fst snd] in *.
  rewrite decodeEntry_saved by done. cbn [mbind result_bind foldl fst snd]. apply IH.
Qed.

Lemma decodeSteak_saved steak : steak_ok steak -> decodeSteak (encodeSteakJSON steak) = Ok (savedSlices <$> steak).
Proof.
  intros Hsteak. unfold encodeSteakJSON. set (sorted := merge_sort key_le _).
  assert (Hperm : sorted ≡ₚ map entryOf (map_to_list steak)) by apply merge_sort_Permutation.
  apply Permutation_map_inv in Hperm as (l & El & Hl). rewrite El.
  assert (Hall : Forall (fun ti => Utf8.Valid ti.1 = true /\ instructions_ok ti.2) l).
  { rewrite <- Hl. apply Forall_forall. intros [t i] Hin%elem_of_map_to_list. destruct (Hsteak t i Hin) as (? & ? & ? & ?). by split. }
  assert (Hmem : membersOk 2 (map entryOf l)).
  { apply Forall_map. eapply Forall_impl; [exact Hall|]. intros [t i] [Ht Hi]. split; [done|]. by apply entryMembers_ok in Hi. }
  unfold decodeSteak. rewrite (document_value 3) by (done || by apply (render_value 3 (JObject _))). cbn [mbind result_bind render].
  change (isNull (object _)) with false. rewrite (objectMembers_render 2) by (done || by apply rendered_ok).
  rewrite decodeTopics_saved by (eapply Forall_impl; [exact Hall|]; by intros ? [? ?]). f_equal. apply (foldl_insert_perm fst (fun ti => savedSlices ti.2)).
  rewrite map_to_list_fmap, <- Hl. done.
Qed.

(** The steak of a plan survives its storage.  For any instructions, with any topics
    that are text and any indices, what is read from the JSON that the plan stores is,
    topic by topic, the outputs admitted, the coins retained and the coins removed, in
    their order; only the difference between no slice and an empty one is lost. *)
Theorem steak_json steak : steak_ok steak -> parseSavedSteak (encodeSteakJSON steak) = Ok (saved <$> steak).
Proof.
  intros Hsteak. unfold parseSavedSteak. rewrite decodeSteak_saved by done. cbn [mbind result_bind]. by rewrite <- map_fmap_compose.
Qed.

Module Example.

Definition steak : gmap (list byte) AdmittanceInstructions :=
  {[ str "tm_a" := mkAdmit (Some [0; 7]) None [4294967295] []; str "tm_b" := noAdmittance ]}.

Lemma steak_json_witness :
  parseSavedSteak (encodeSteakJSON steak) = Ok (saved <$> steak) /\ (saved <$> steak) !! str "tm_a" = Some (mkAdmit (Some [0; 7]) (Some []) [4294967295] []).
Proof.
  split; [|vm_compute; reflexivity]. apply steak_json.
  apply (bool_decide_eq_true_1 (map_Forall (fun topic i => Utf8.Valid topic = true /\ Forall (fun n => 0 <= n <= MaxUint32) (elements (OutputsToAdmit i)) /\
    Forall (fun n => 0 <= n <= MaxUint32) (elements (CoinsToRetain i)) /\ Forall (fun n => 0 <= n <= MaxUint32) (CoinsRemoved i)) steak)).
  vm_compute. reflexivity.
Defined.

(** JSON with single quotes for double ones. *)
Definition text (s : string) : list byte := map (fun c => if isb Byte.x27 c then Byte.x22 else c) (str s).

(** Names are matched up to case; a repeated slice keeps the memory of the earlier one. *)
Example stale_memory :
  parseSavedSteak (text "{'t':{'OUTPUTSTOADMIT':[5,6],'outputsToAdmit':[1],'outputstoadmit':[null,null,null]}}") =
    Ok {[ str "t" := mkAdmit (Some [1; 6; 0]) None [] [] ]}.
Proof. vm_compute. reflexivity. Qed.

End Example.

End AdmissionPlan.
