(* ===== verification/IdentityOutput.v ===== *)
(** * pkg/topics/identity: admission of identity certificates

    identity.go, output.go, projection.go, topic.go.  An output is admitted if its
    locking script carries a certificate whose signatures verify and whose fields can be
    decrypted by anyone; the same derivation gives the record that the lookup service
    stores.  Scripts, signatures, wallets and the UTF-8 decoder of golang.org/x/text are
    those of libraries: a class. *)

From stdpp Require Import sorting.
From S2P Require Import Prelude Bytes Utf8 Decimal Json Unmarshal Text GaspTypes EngineTypes.
Import Json Unmarshal Gasp.
Open Scope Z_scope.

(** The transactions that the manager is given: pointers may be nil. *)
Record IdentityInput := mkIdentityInput { SourceTXID : option Hash; InputScript : option (list byte) }.
Record IdentityOutput := mkIdentityOutput { LockingScript : option (list byte) }.
Record IdentityTx := mkIdentityTx {
  TxID : Hash; Inputs : list (option IdentityInput); Outputs : list (option IdentityOutput) }.

(** An entry of the map of a BEEF. *)
Record BeefTx := mkBeefTx { beefTransaction : option IdentityTx; TxIDOnly : bool }.
Abbreviation IdentityBeef := (gmap Hash BeefTx).

Section Certificates.
Context {PublicKey : Type}.

(** [certificates.VerifiableCertificate] *)
Record VerifiableCertificate := mkVerifiable {
  certType : list byte; certSerial : list byte; certSubject : PublicKey; certCertifier : PublicKey;
  certRevocation : Outpoint; certFields : gmap (list byte) (list byte); certSignature : list byte;
  certKeyring : gmap (list byte) (list byte) }.
End Certificates.
Arguments VerifiableCertificate : clear implicits.

(** What the package uses of libraries.  The calls that take a context may look at it. *)
Class IdentitySDK (PublicKey Signature : Type) := {
  pushdropDecode : list byte -> option (list (list byte));
  UTF8BOM : list byte -> result (list byte);
  ParseSignature : list byte -> result Signature;
  PublicKeyFromString : list byte -> result PublicKey;
  OutpointFromString : list byte -> result Outpoint;
  NewCompletedProtoWallet : result unit;
  (* the subject's key for the protocol [1, identity], key 1; the data and the signature *)
  VerifySignature : PublicKey -> list byte -> Signature -> Polling bool;
  VerifyCertificate : VerifiableCertificate PublicKey -> Polling unit;
  DecryptFields : VerifiableCertificate PublicKey -> Polling (gmap (list byte) (list byte)) }.

(** [m] computes [r], or fails after its context was cancelled; a cancelled context stays
    cancelled. *)
Definition respects {A} (m : Polling A) (r : result A) : Prop :=
  forall c, absent c = false ->
    absent (snd (m c)) = false /\ cause (snd (m c)) = cause c /\
    (left c = Some O -> left (snd (m c)) = Some O) /\
    ((fst (m c) = r /\ (live c -> snd (m c) = c)) \/
     (~ live c /\ is_ok (fst (m c)) = false /\ is_panic (fst (m c)) = false /\ left (snd (m c)) = Some O)).

(** The calls with a context are functions of their arguments, up to cancellation. *)
Class IdentityLaws {PublicKey Signature} (sdk : IdentitySDK PublicKey Signature) := {
  verifySignature : PublicKey -> list byte -> Signature -> result bool;
  verifyCertificate : VerifiableCertificate PublicKey -> result unit;
  decryptFields : VerifiableCertificate PublicKey -> result (gmap (list byte) (list byte));
  VerifySignature_respects key data sig : respects (VerifySignature key data sig) (verifySignature key data sig);
  VerifyCertificate_respects cert : respects (VerifyCertificate cert) (verifyCertificate cert);
  DecryptFields_respects cert : respects (DecryptFields cert) (decryptFields cert) }.

Module IdentityOutput.

Definition Topic : list byte := str "tm_identity".
Definition Service : list byte := str "ls_identity".

(** ** Policies (identity.go) *)

Record AdmissionPolicy := mkAdmissionPolicy {
  MaxScriptBytes : Z; MaxFields : Z; MaxOutputs : Z; MaxTotalScriptBytes : Z; MaxNotificationBytes : Z }.

Definition DefaultAdmissionPolicy : AdmissionPolicy :=
  mkAdmissionPolicy (Z.shiftl 1 20) 128 10000 (Z.shiftl 32 20) (Z.shiftl 64 20).

(** [AdmissionPolicy.validate] *)
Definition validatePolicy (p : AdmissionPolicy) : result unit :=
  if (MaxScriptBytes p <? 1) || (MaxFields p <? 1) || (MaxOutputs p <? 1) ||
     (MaxTotalScriptBytes p <? MaxScriptBytes p) || (MaxNotificationBytes p <? 1)
  then Err ErrInvalidPolicy else Ok tt.

(** ** Records (projection.go) *)

Record Certificate := mkCertificate {
  Type_ : list byte; Serial : list byte; Subject : list byte; Certifier : list byte;
  RevocationOutpoint : list byte; Fields : gmap (list byte) (list byte) }.

(** [Record] *)
Record IdentityRecord := mkRecord {
  recOutpoint : Outpoint; recCertificate : Certificate; SearchableAttributes : list byte }.

(** ** The envelope (output.go) *)

Record orderedFields := mkOrdered { values : gmap (list byte) (list byte); keys : list (list byte) }.

Definition propertyIndex (key : list byte) : option Z :=
  match ParseUint key with
  | Some n => if (n <? 2 ^ 32 - 1) && bool_decide (FormatUint n = key) then Some n else None
  | None => None
  end.

Definition lessKey (a b : list byte) : bool :=
  match propertyIndex a with
  | None => false
  | Some i => match propertyIndex b with None => true | Some j => i <? j end
  end.

(** [sort.SliceStable] *)
Fixpoint insertStable (x : list byte) (l : list (list byte)) : list (list byte) :=
  match l with
  | [] => [x]
  | y :: l' => if lessKey x y then x :: l else y :: insertStable x l'
  end.

Definition sortKeys (l : list (list byte)) : list (list byte) := foldl (fun acc x => insertStable x acc) [] l.

(** The loop of [orderedFields.UnmarshalJSON]; a member takes at least one byte. *)
Fixpoint readOrdered (n : nat) (dec : Decoder) (f : orderedFields) : result (orderedFields * Decoder) :=
  match n with
  | O => Err ErrJSON
  | S n' =>
      if negb (More dec) then Ok (f, dec) else
      '(t, dec) ← Token dec;
      match t with
      | StringToken key =>
          '(value, dec) ← Decode dec;
          if negb (bool_decide (head value = Some Byte.x22)) then Err ErrInvalidOutput else
          decoded ← UnmarshalString value;
          readOrdered n' dec (mkOrdered (<[key := decoded]> (values f))
                                (match values f !! key with None => keys f ++ [key] | Some _ => keys f end))
      | _ => Err ErrInvalidOutput
      end
  end.

(** [orderedFields.UnmarshalJSON] *)
Definition UnmarshalOrdered (data : list byte) : result orderedFields :=
  match Token (NewDecoder data) with
  | Ok (Delim c, dec) =>
      if negb (isb Byte.x7b c) then Err ErrInvalidOutput else
      '(f, dec) ← readOrdered (S (length data)) dec (mkOrdered ∅ []);
      '(_, dec) ← Token dec;
      match Token dec with
      | Err ErrEOF => Ok (mkOrdered (values f) (sortKeys (keys f)))
      | Panic => Panic
      | _ => Err ErrInvalidOutput
      end
  | Panic => Panic
  | _ => Err ErrInvalidOutput
  end.

Record certificateEnvelope := mkEnvelope {
  eType : list byte; eSerialNumber : list byte; eSubject : list byte; eCertifier : list byte;
  eRevocationOutpoint : list byte; eFields : orderedFields; eKeyring : orderedFields; eSignature : list byte }.

(** A property that must be a string; a raw value has no space around it. *)
Definition stringProperty (properties : RawMap) (name : list byte) : result (list byte) :=
  match properties !! name with
  | Some raw => if bool_decide (head raw = Some Byte.x22) then UnmarshalString raw else Err ErrInvalidOutput
  | None => Err ErrInvalidOutput
  end.

(** [json.Unmarshal] of a property into ordered fields; nil is not JSON. *)
Definition orderedProperty (properties : RawMap) (name : list byte) : result orderedFields :=
  v ← document (default [] (properties !! name)); UnmarshalOrdered v.

(** [certificateEnvelope.UnmarshalJSON] *)
Definition UnmarshalEnvelope (data : list byte) : result certificateEnvelope :=
  properties ← UnmarshalMap data;
  match properties with
  | None => Err ErrInvalidOutput
  | Some properties =>
      type ← stringProperty properties (str "type");
      serialNumber ← stringProperty properties (str "serialNumber");
      subject ← stringProperty properties (str "subject");
      certifier ← stringProperty properties (str "certifier");
      revocationOutpoint ← stringProperty properties (str "revocationOutpoint");
      signature ← stringProperty properties (str "signature");
      fields ← orderedProperty properties (str "fields");
      keyring ← orderedProperty properties (str "keyring");
      Ok (mkEnvelope type serialNumber subject certifier revocationOutpoint fields keyring signature)
  end.

(** An error that is wrapped with [%w] around a sentinel. *)
Definition wrapped {A} (sentinel : error) (r : result A) : result A := match r with Err _ => Err sentinel | _ => r end.

Definition wrap {A} (sentinel : error) (m : Polling A) : Polling A := fun c => let '(r, c') := m c in (wrapped sentinel r, c').

(** ** base64.StdEncoding: line breaks are skipped *)

Definition base64Value (b : byte) : option Z :=
  let c := val b in
  if (65 <=? c) && (c <=? 90) then Some (c - 65)
  else if (97 <=? c) && (c <=? 122) then Some (c - 71)
  else if (48 <=? c) && (c <=? 57) then Some (c + 4)
  else if c =? 43 then Some 62 else if c =? 47 then Some 63 else None.

Fixpoint base64Quanta (s : list byte) : option (list byte) :=
  match s with
  | [] => Some []
  | a :: b :: c :: d :: s' =>
      x ← base64Value a; y ← base64Value b;
      if isb Byte.x3d c then
        if isb Byte.x3d d && bool_decide (s' = []) then Some [byte.of_Z (x * 4 + y / 16)] else None
      else
        z ← base64Value c;
        if isb Byte.x3d d then
          if bool_decide (s' = []) then Some [byte.of_Z (x * 4 + y / 16); byte.of_Z (y mod 16 * 16 + z / 4)] else None
        else
          w ← base64Value d; rest ← base64Quanta s';
          Some (byte.of_Z (x * 4 + y / 16) :: byte.of_Z (y mod 16 * 16 + z / 4) :: byte.of_Z (z mod 4 * 64 + w) :: rest)
  | _ => None
  end.

Definition base64Decode (s : list byte) : option (list byte) :=
  base64Quanta (filter (fun c => c <> Byte.x0a /\ c <> Byte.x0d) s).

Section Output.
Context {PublicKey Signature : Type} `{sdk : IdentitySDK PublicKey Signature}.

(** [decodeCertificateEnvelope] *)
Definition decodeCertificateEnvelope (lockingScript : option (list byte)) (policy : AdmissionPolicy)
    : result (list (list byte) * certificateEnvelope) :=
  match lockingScript with
  | None => Err ErrInvalidOutput
  | Some lockingScript =>
      if len lockingScript =? 0 then Err ErrInvalidOutput
      else if MaxScriptBytes policy <? len lockingScript then Err ErrAdmissionBudget
      else match pushdropDecode lockingScript with
      | None => Err ErrInvalidOutput
      | Some fields =>
          if len fields <? 2 then Err ErrInvalidOutput
          else if MaxFields policy <? len fields - 1 then Err ErrAdmissionBudget
          else
            envelopeJSON ← wrapped ErrInvalidOutput (UTF8BOM (default [] (head fields)));
            envelope ← wrapped ErrInvalidOutput (document envelopeJSON ≫= UnmarshalEnvelope);
            Ok (fields, envelope)
      end
  end.

Definition parsePublicKey (value : list byte) : result PublicKey :=
  if negb (len value =? 66) then Err ErrInvalidOutput else wrapped ErrInvalidOutput (PublicKeyFromString value).

(** A type and a serial number encode 32 bytes. *)
Definition encodes32 (value : list byte) : bool :=
  match base64Decode value with Some decoded => len decoded =? 32 | None => false end.

(** [certificateEnvelope.certificate] *)
Definition certificate (e : certificateEnvelope) (policy : AdmissionPolicy) : result (VerifiableCertificate PublicKey) :=
  if (MaxFields policy <? Z.of_nat (size (values (eFields e)))) || (MaxFields policy <? Z.of_nat (size (values (eKeyring e))))
  then Err ErrAdmissionBudget
  else if negb (encodes32 (eType e)) || negb (encodes32 (eSerialNumber e)) then Err ErrInvalidOutput
  else
    subject ← parsePublicKey (eSubject e);
    certifier ← parsePublicKey (eCertifier e);
    if (len (eRevocationOutpoint e) <? 66) || negb (bool_decide (eRevocationOutpoint e !! 64%nat = Some Byte.x2e))
    then Err ErrInvalidOutput
    else
      outpoint ← wrapped ErrInvalidOutput (OutpointFromString (eRevocationOutpoint e));
      match hex_decode (eSignature e) with
      | None | Some [] => Err ErrInvalidOutput
      | Some signature =>
          Ok (mkVerifiable (eType e) (eSerialNumber e) subject certifier outpoint (values (eFields e)) signature (values (eKeyring e)))
      end.

(** [verifyEnvelopeSignature]: the signed data is all but the last field. *)
Definition verifyEnvelopeSignature (fields : list (list byte)) (cert : VerifiableCertificate PublicKey) : Polling unit :=
  match last fields with
  | None => pure Panic
  | Some field =>
      signature ← pure (wrapped ErrInvalidOutput (ParseSignature field));
      valid ← wrap ErrInvalidOutput (VerifySignature (certSubject cert) (concat (removelast fields)) signature);
      if (valid : bool) then mret tt else pure (Err ErrInvalidOutput)
  end.

(** The text of the public fields, if all of them are text. *)
Definition decodeFields (l : list (list byte * list byte)) : result (list (list byte * list byte)) :=
  foldr (fun kv acc => v ← wrapped ErrInvalidOutput (UTF8BOM kv.2); rest ← acc; Ok ((kv.1, v) :: rest)) (Ok []) l.

(** [decryptPublicFields]; the order of the loop over the map only matters for which of
    several errors is reported, with the same sentinel. *)
Definition decryptPublicFields (cert : VerifiableCertificate PublicKey) : Polling (gmap (list byte) (list byte)) :=
  publicFields ← wrap ErrInvalidOutput (DecryptFields cert);
  if bool_decide (publicFields = ∅) then pure (Err ErrInvalidOutput)
  else decoded ← pure (decodeFields (map_to_list publicFields)); mret (list_to_map decoded).

Definition searchableAttributes (keys : list (list byte)) (publicFields : gmap (list byte) (list byte)) : list byte :=
  Text.Join (map (fun key => default [] (publicFields !! key))
               (filter (fun key => key <> str "profilePhoto" /\ key <> str "icon") keys)) (str " ").

(** [ProjectOutput] *)
Definition ProjectOutput (outpoint : Outpoint) (lockingScript : option (list byte)) (policy : AdmissionPolicy)
    : Polling IdentityRecord :=
  pure (validatePolicy policy) ≫= fun _ =>
  poll ≫= fun _ =>
  '(decoded, envelope) ← pure (decodeCertificateEnvelope lockingScript policy);
  cert ← pure (certificate envelope policy);
  pure NewCompletedProtoWallet ≫= fun _ =>
  verifyEnvelopeSignature decoded cert ≫= fun _ =>
  wrap ErrCertificateVerification (VerifyCertificate cert) ≫= fun _ =>
  poll ≫= fun _ =>
  publicFields ← decryptPublicFields cert;
  poll ≫= fun _ =>
  mret (mkRecord outpoint
          (mkCertificate (eType envelope) (eSerialNumber envelope) (eSubject envelope) (eCertifier envelope)
             (eRevocationOutpoint envelope) publicFields)
          (searchableAttributes (keys (eKeyring envelope)) publicFields)).

(** ** The topic manager (topic.go) *)

Definition lookupSelectedTransaction (beef : option IdentityBeef) (txid : option Hash) : result IdentityTx :=
  match beef, txid with
  | Some beef, Some txid =>
      match beef !! txid with
      | Some entry =>
          match beefTransaction entry with
          | Some tx => if TxIDOnly entry then Err ErrIdentityTransaction else Ok tx
          | None => Err ErrIdentityTransaction
          end
      | None => Err ErrIdentityTransaction
      end
  | _, _ => Err ErrIdentityTransaction
  end.

(** The loop of [boundSelectedOutputs]. *)
Fixpoint boundOutputs (outputs : list (option IdentityOutput)) (policy : AdmissionPolicy) (total : Z) : result unit :=
  match outputs with
  | [] => Ok tt
  | output :: outputs' =>
      match output ≫= LockingScript with
      | None => Err ErrIdentityTransaction
      | Some lockingScript =>
          if MaxTotalScriptBytes policy - total <? len lockingScript then Err ErrAdmissionBudget
          else boundOutputs outputs' policy (total + len lockingScript)
      end
  end.

Definition boundSelectedOutputs (tx : IdentityTx) (policy : AdmissionPolicy) : result unit :=
  if (MaxOutputs policy <? len (Outputs tx)) || (2 ^ 32 <? len (Outputs tx)) then Err ErrAdmissionBudget
  else boundOutputs (Outputs tx) policy 0.

Definition requireSelectedInputs (tx : IdentityTx) : result unit :=
  if forallb (fun input => match input with
                           | Some i => bool_decide (is_Some (SourceTXID i)) && bool_decide (is_Some (InputScript i))
                           | None => false
                           end) (Inputs tx)
  then Ok tt else Err ErrIdentityTransaction.

Definition selectedTransaction (beef : option IdentityBeef) (txid : option Hash) (policy : AdmissionPolicy) : result IdentityTx :=
  tx ← lookupSelectedTransaction beef txid;
  boundSelectedOutputs tx policy ≫= fun _ =>
  requireSelectedInputs tx ≫= fun _ =>
  if negb (bool_decide (Some (TxID tx) = txid)) then Err ErrIdentityTransaction else Ok tx.

(** The script of an output of a selected transaction; a nil output is dereferenced. *)
Definition scriptOf (output : option IdentityOutput) : result (option (list byte)) :=
  match output with Some o => Ok (LockingScript o) | None => Panic end.

(** The result of [ProjectOutput], whose error is only looked at. *)
Definition attemptOutput (m : Polling IdentityRecord) : Polling bool := fun c =>
  match m c with (Panic, c') => (Panic, c') | (r, c') => (Ok (is_ok r), c') end.

(** The loop of [IdentifyAdmissibleOutputs]. *)
Fixpoint admitOutputs (txid : Hash) (policy : AdmissionPolicy) (index : Z) (outputs : list (option IdentityOutput)) (admitted : list Z)
    : Polling (list Z) :=
  match outputs with
  | [] => mret admitted
  | output :: outputs' =>
      poll ≫= fun _ =>
      script ← pure (scriptOf output);
      ok ← attemptOutput (ProjectOutput (mkOutpoint txid (u32 index)) script policy);
      admitOutputs txid policy (index + 1) outputs' (if (ok : bool) then admitted ++ [u32 index] else admitted)
  end.

(** [TopicManager.IdentifyAdmissibleOutputs] *)
Definition IdentifyAdmissibleOutputs (policy : AdmissionPolicy) (beef : option IdentityBeef) (txid : option Hash)
    : Polling AdmittanceInstructions :=
  poll ≫= fun _ =>
  tx ← pure (selectedTransaction beef txid policy);
  if bool_decide (Inputs tx = []) || bool_decide (Outputs tx = []) then mret (mkAdmit (Some []) (Some []) [] [])
  else
    admitted ← admitOutputs (default zero_hash txid) policy 0 (Outputs tx) [];
    poll ≫= fun _ =>
    mret (mkAdmit (Some admitted) (Some []) [] []).

(** [NewTopicManagerWithPolicy]: the manager is its policy. *)
Definition NewTopicManagerWithPolicy (policy : AdmissionPolicy) : result AdmissionPolicy :=
  validatePolicy policy ≫= fun _ => Ok policy.

Definition NewTopicManager : AdmissionPolicy := DefaultAdmissionPolicy.

(** [TopicManager.IdentifyNeededInputs] *)
Definition IdentifyNeededInputs : Polling (list Outpoint) := poll ≫= fun _ => mret [].

(** ** Cancellation *)

Lemma respects_pure {A} (r : result A) : respects (pure r) r.
Proof. intros c Hc. split_and!; auto. Qed.

Lemma respects_ret {A} (a : A) : respects (mret a) (Ok a).
Proof. apply respects_pure. Qed.

Lemma respects_poll : respects poll (Ok tt).
Proof. intros [ab [[|n]|] ca]; unfold poll, live; cbn; intros ->; split_and!; try done; auto; first [by left|right; by split_and!]. Qed.

Lemma respects_bind {A B} (m : Polling A) (f : A -> Polling B) r (g : A -> result B) :
  respects m r -> (forall a, r = Ok a -> respects (f a) (g a)) -> respects (m ≫= f) (r ≫= g).
Proof.
  intros Hm Hf c Hc. destruct (Hm c Hc) as (Ha & Hca & Hst & Hv). unfold mbind, polling_bind, result_bind.
  destruct (m c) as [v c1]; cbn [fst snd] in *. destruct Hv as [[-> Hlive]|(Hnl & Hno & Hnp & Hcan)].
  - destruct r as [a|e|]; [|by split_and!; auto..]. destruct (Hf a eq_refl c1 Ha) as (Ha2 & Hca2 & Hst2 & Hv2).
    split_and!; [done|congruence|auto|]. destruct Hv2 as [[Hv2 Hl2]|(Hnl & Hv2)].
    + left. split; [done|]. intros Hl. specialize (Hlive Hl). subst c1. auto.
    + right. split; [|done]. intros Hl. specialize (Hlive Hl). by subst c1.
  - destruct v as [a|e|]; [done| |done]. cbn [fst snd]. split_and!; auto.
Qed.

Lemma respects_wrap {A} e (m : Polling A) r : respects m r -> respects (wrap e m) (wrapped e r).
Proof.
  intros Hm c Hc. destruct (Hm c Hc) as (Ha & Hca & Hst & Hv). unfold wrap. destruct (m c) as [v c1]; cbn [fst snd] in *.
  split_and!; try done. destruct Hv as [[-> ?]|(Hnl & Hno & Hnp & ?)]; [by left|right]. by destruct v.
Qed.

Lemma respects_seq {B} (m : Polling unit) (f : Polling B) (r : result B) : respects m (Ok tt) -> respects f r -> respects (m ≫= fun _ => f) r.
Proof. intros Hm Hf. apply (respects_bind m (fun _ => f) (Ok tt) (fun _ => r)); [done|by intros]. Qed.

(** What a result with an error that is only looked at says. *)
Definition attempted {A} (r : result A) : result bool := match r with Panic => Panic | _ => Ok (is_ok r) end.

(** Only the context's error, when the context is cancelled. *)
Definition stops {A} (m : Polling A) : Prop :=
  forall c, absent c = false -> left c = Some O ->
    fst (m c) = Err (ErrContext (cause c)) /\ cause (snd (m c)) = cause c /\ absent (snd (m c)) = false.

Lemma stops_poll {A} (f : unit -> Polling A) : stops (poll ≫= f).
Proof. intros [ab l ca]. cbn. intros -> ->. done. Qed.

(** After an attempt that failed by cancellation, the next look at the context fails. *)
Lemma attempt_computes {B} (m : Polling IdentityRecord) r (f : bool -> Polling B) (g : bool -> result B) :
  respects m r -> (forall b, computes (f b) (g b)) -> (forall b, stops (f b)) ->
  computes (attemptOutput m ≫= f) (attempted r ≫= g).
Proof.
  intros Hm Hf Hstop c Hc. destruct (Hm c Hc) as (Ha & Hca & Hst & Hv). unfold mbind, polling_bind, result_bind, attemptOutput.
  destruct (m c) as [v c1]; cbn [fst snd] in *. destruct Hv as [[-> Hlive]|(Hnl & Hno & Hnp & Hl1)].
  - unfold attempted. destruct r as [a|e|]; [| |split_and!; auto; intros Hl; by rewrite Hlive].
    + cbn [is_ok]. destruct (Hf true c1 Ha) as (Hl2 & Hv2 & Hca2 & Ha2). rewrite <- Hca. split_and!; try done. intros Hl. specialize (Hlive Hl). subst c1. auto.
    + cbn [is_ok]. destruct (Hf false c1 Ha) as (Hl2 & Hv2 & Hca2 & Ha2). rewrite <- Hca. split_and!; try done. intros Hl. specialize (Hlive Hl). subst c1. auto.
  - destruct v as [a|e|]; [done| |done]. cbn [is_ok]. destruct (Hstop false c1 Ha Hl1) as (H1 & H2 & H3).
    split_and!; [done|right; by rewrite H1, Hca|by rewrite H2|done].
Qed.

(** ** The reference *)

Context `{laws : !IdentityLaws sdk}.

Definition verifyEnvelope (fields : list (list byte)) (cert : VerifiableCertificate PublicKey) : result unit :=
  match last fields with
  | None => Panic
  | Some field =>
      signature ← wrapped ErrInvalidOutput (ParseSignature field);
      valid ← wrapped ErrInvalidOutput (verifySignature (certSubject cert) (concat (removelast fields)) signature);
      if (valid : bool) then Ok tt else Err ErrInvalidOutput
  end.

Definition publicFieldsOf (cert : VerifiableCertificate PublicKey) : result (gmap (list byte) (list byte)) :=
  publicFields ← wrapped ErrInvalidOutput (decryptFields cert);
  if bool_decide (publicFields = ∅) then Err ErrInvalidOutput else list_to_map <$> decodeFields (map_to_list publicFields).

(** The record of an output, whatever happens to contexts. *)
Definition project (outpoint : Outpoint) (lockingScript : option (list byte)) (policy : AdmissionPolicy) : result IdentityRecord :=
  validatePolicy policy ≫= fun _ =>
  '(decoded, envelope) ← decodeCertificateEnvelope lockingScript policy;
  cert ← certificate envelope policy;
  NewCompletedProtoWallet ≫= fun _ =>
  verifyEnvelope decoded cert ≫= fun _ =>
  wrapped ErrCertificateVerification (verifyCertificate cert) ≫= fun _ =>
  publicFields ← publicFieldsOf cert;
  Ok (mkRecord outpoint
        (mkCertificate (eType envelope) (eSerialNumber envelope) (eSubject envelope) (eCertifier envelope)
           (eRevocationOutpoint envelope) publicFields)
        (searchableAttributes (keys (eKeyring envelope)) publicFields)).

Lemma verifyEnvelopeSignature_respects fields cert : respects (verifyEnvelopeSignature fields cert) (verifyEnvelope fields cert).
Proof.
  unfold verifyEnvelopeSignature, verifyEnvelope. destruct (last fields) as [field|]; [|apply respects_pure].
  apply respects_bind; [apply respects_pure|]. intros sig _. apply respects_bind; [apply respects_wrap, VerifySignature_respects|].
  intros [] _; [apply respects_ret|apply respects_pure].
Qed.

Lemma decryptPublicFields_respects cert : respects (decryptPublicFields cert) (publicFieldsOf cert).
Proof.
  unfold decryptPublicFields, publicFieldsOf. apply respects_bind; [apply respects_wrap, DecryptFields_respects|].
  intros fields _. case_bool_decide; [apply respects_pure|]. apply (respects_bind _ _ (decodeFields (map_to_list fields)) (fun d => Ok (list_to_map d))); [apply respects_pure|].
  intros d _. apply respects_ret.
Qed.

Lemma ProjectOutput_respects outpoint lockingScript policy :
  respects (ProjectOutput outpoint lockingScript policy) (project outpoint lockingScript policy).
Proof.
  unfold ProjectOutput, project. apply respects_bind; [apply respects_pure|]. intros _ _. apply respects_seq; [apply respects_poll|].
  apply respects_bind; [apply respects_pure|]. intros [decoded envelope] _. apply respects_bind; [apply respects_pure|]. intros cert _.
  apply respects_bind; [apply respects_pure|]. intros _ _. apply respects_bind; [apply verifyEnvelopeSignature_respects|]. intros _ _.
  apply respects_bind; [apply respects_wrap, VerifyCertificate_respects|]. intros _ _. apply respects_seq; [apply respects_poll|].
  apply respects_bind; [apply decryptPublicFields_respects|]. intros publicFields _. apply respects_seq; [apply respects_poll|]. apply respects_ret.
Qed.

(** The outputs that [IdentifyAdmissibleOutputs] admits. *)
Fixpoint admittedFrom (txid : Hash) (policy : AdmissionPolicy) (index : Z) (outputs : list (option IdentityOutput)) (admitted : list Z)
    : result (list Z) :=
  match outputs with
  | [] => Ok admitted
  | output :: outputs' =>
      script ← scriptOf output;
      ok ← attempted (project (mkOutpoint txid (u32 index)) script policy);
      admittedFrom txid policy (index + 1) outputs' (if (ok : bool) then admitted ++ [u32 index] else admitted)
  end.

Definition admission (policy : AdmissionPolicy) (beef : option IdentityBeef) (txid : option Hash) : result AdmittanceInstructions :=
  tx ← selectedTransaction beef txid policy;
  if bool_decide (Inputs tx = []) || bool_decide (Outputs tx = []) then Ok (mkAdmit (Some []) (Some []) [] [])
  else admitted ← admittedFrom (default zero_hash txid) policy 0 (Outputs tx) []; Ok (mkAdmit (Some admitted) (Some []) [] []).

Lemma computes_ext {A} (m m' : Polling A) r : (forall c, m c = m' c) -> computes m' r -> computes m r.
Proof. intros E Hm c Hc. rewrite !E. by apply Hm. Qed.

Lemma polling_assoc {A B C} (m : Polling A) (f : A -> Polling B) (g : B -> Polling C) c :
  ((m ≫= f) ≫= g) c = (m ≫= fun a => f a ≫= g) c.
Proof. unfold mbind, polling_bind. destruct (m c) as [[a|e|] c1]; [|done..]. done. Qed.

Lemma admitOutputs_computes {B} (k : list Z -> Polling B) (rk : list Z -> result B) txid policy index outputs admitted :
  (forall l, computes (k l) (rk l)) -> (forall l, stops (k l)) ->
  computes (admitOutputs txid policy index outputs admitted ≫= k) (admittedFrom txid policy index outputs admitted ≫= rk).
Proof.
  intros Hk Hstop. revert index admitted. induction outputs as [|output outputs IH]; intros index admitted; [apply Hk|].
  cbn [admitOutputs admittedFrom]. eapply computes_ext; [intros c; by rewrite polling_assoc|]. apply computes_poll_bind.
  eapply computes_ext; [intros c; by rewrite polling_assoc|]. rewrite bind_assoc. apply computes_bind; [apply computes_pure|]. intros script _.
  eapply computes_ext; [intros c; by rewrite polling_assoc|]. rewrite bind_assoc.
  apply attempt_computes; [apply ProjectOutput_respects|intros ok; apply IH|]. intros ok.
  destruct outputs; [apply Hstop|]. intros c Hc Hl. cbn [admitOutputs]. rewrite polling_assoc. by apply stops_poll.
Qed.

Lemma admission_computes policy beef txid : computes (IdentifyAdmissibleOutputs policy beef txid) (admission policy beef txid).
Proof.
  unfold IdentifyAdmissibleOutputs, admission. apply computes_poll_bind. apply computes_bind; [apply computes_pure|]. intros tx _.
  destruct (_ || _); [apply computes_ret|]. apply admitOutputs_computes; [intros l; apply computes_poll_bind, computes_ret|intros l; apply stops_poll].
Qed.

(** ** What is admitted *)

(** The output at index [i] has a record; [outputs] are those from [index] on. *)
Definition admissible (txid : Hash) (policy : AdmissionPolicy) (index : Z) (outputs : list (option IdentityOutput)) (i : Z) : Prop :=
  index <= i /\ exists o, outputs !! Z.to_nat (i - index) = Some (Some o) /\ is_ok (project (mkOutpoint txid i) (LockingScript o) policy) = true.

Lemma boundOutputs_Ok outputs policy total : boundOutputs outputs policy total = Ok tt -> Forall (fun o => is_Some (o ≫= LockingScript)) outputs.
Proof.
  revert total. induction outputs as [|o outputs IH]; intros total; cbn [boundOutputs]; [constructor|].
  destruct (o ≫= LockingScript) eqn:E; [|done]. destruct (_ <? _); [done|]. intros Hb. constructor; [by rewrite E|by eapply IH].
Qed.

Lemma selectedTransaction_Ok beef txid policy tx :
  selectedTransaction beef txid policy = Ok tx ->
  txid = Some (TxID tx) /\ lookupSelectedTransaction beef txid = Ok tx /\ len (Outputs tx) <= MaxOutputs policy /\ len (Outputs tx) <= 2 ^ 32 /\
  Forall (fun o => is_Some (o ≫= LockingScript)) (Outputs tx).
Proof.
  unfold selectedTransaction. intros E. apply bind_Ok in E as (tx' & El & E). apply bind_Ok in E as ([] & Eb & E). apply bind_Ok in E as ([] & Ei & E).
  destruct (bool_decide (Some (TxID tx') = txid)) eqn:Ed; [|done]. injection E as <-. apply bool_decide_eq_true in Ed.
  unfold boundSelectedOutputs in Eb. destruct (Z.ltb_spec (MaxOutputs policy) (len (Outputs tx'))), (Z.ltb_spec (2 ^ 32) (len (Outputs tx'))); cbn [orb] in Eb; try done.
  split_and!; try done. by eapply boundOutputs_Ok.
Qed.

Lemma selectedTransaction_total beef txid policy : is_panic (selectedTransaction beef txid policy) = false.
Proof.
  unfold selectedTransaction, lookupSelectedTransaction. destruct beef as [beef|], txid as [txid|]; try done. destruct (beef !! txid) as [entry|]; [|done].
  destruct (beefTransaction entry) as [tx|]; [|done]. destruct (TxIDOnly entry); [done|]. cbn [mbind result_bind].
  assert (Hb : forall outputs total, is_panic (boundOutputs outputs policy total) = false).
  { induction outputs as [|o outputs IH]; intros total; [done|]. cbn [boundOutputs]. destruct (o ≫= LockingScript); [|done]. by destruct (_ <? _). }
  unfold boundSelectedOutputs, requireSelectedInputs. destruct (_ || _); [done|]. specialize (Hb (Outputs tx) 0).
  destruct (boundOutputs _ _ _); [|done..]. cbn [mbind result_bind]. destruct (forallb _ _); [|done]. cbn [mbind result_bind]. by case_match.
Qed.

Lemma admissible_cons txid policy index o outputs i :
  admissible txid policy index (Some o :: outputs) i <->
  (i = index /\ is_ok (project (mkOutpoint txid index) (LockingScript o) policy) = true) \/ admissible txid policy (index + 1) outputs i.
Proof.
  unfold admissible. split.
  - intros (Hi & o' & Ho & Hok). destruct (decide (i = index)) as [->|Hne]; [left|right].
    + rewrite Z.sub_diag in Ho. injection Ho as <-. done.
    + split; [lia|]. exists o'. split; [|done]. replace (Z.to_nat (i - index)) with (S (Z.to_nat (i - (index + 1)))) in Ho by lia. done.
  - intros [[-> Hok]|(Hi & o' & Ho & Hok)].
    + split; [lia|]. exists o. by rewrite Z.sub_diag.
    + split; [lia|]. exists o'. split; [|done]. replace (Z.to_nat (i - index)) with (S (Z.to_nat (i - (index + 1)))) by lia. done.
Qed.

Lemma admittedFrom_spec txid policy outputs index acc :
  Forall (fun o => is_Some (o ≫= LockingScript)) outputs -> 0 <= index -> index + len outputs <= 2 ^ 32 ->
  match admittedFrom txid policy index outputs acc with
  | Ok l => exists new, l = acc ++ new /\ StronglySorted Z.lt new /\ forall i, i ∈ new <-> admissible txid policy index outputs i
  | Err _ => False
  | Panic => exists outpoint script, project outpoint script policy = Panic
  end.
Proof.
  intros Hall. revert index acc. induction Hall as [|output outputs [script Hs] _ IH]; intros index acc Hi Hlen; cbn [admittedFrom].
  { exists []. rewrite app_nil_r. split_and!; [done|constructor|]. intros i. split; [set_solver|]. intros (_ & o & Ho & _). by rewrite lookup_nil in Ho. }
  rewrite len_cons in Hlen. pose proof (len_nonneg outputs). destruct output as [o|]; [|done]. cbn [scriptOf mbind result_bind].
  assert (Hu : u32 index = index) by (apply u32_small; unfold is_u32, MaxUint32; lia). rewrite Hu.
  destruct (project (mkOutpoint txid index) (LockingScript o) policy) as [rec|e|] eqn:Ep; cbn [attempted is_ok mbind result_bind]; [| |by eauto].
  - specialize (IH (index + 1) (acc ++ [index]) ltac:(lia) ltac:(lia)). destruct (admittedFrom _ _ _ _ _) as [l|e|]; [|done..].
    destruct IH as (new & -> & Hsort & Hnew). exists (index :: new). rewrite <- app_assoc. split_and!; [done| |].
    + constructor; [done|]. apply Forall_forall. intros i Hin. apply Hnew in Hin as [? _]. lia.
    + intros i. rewrite elem_of_cons, Hnew, admissible_cons, Ep. cbn [is_ok]. naive_solver.
  - specialize (IH (index + 1) acc ltac:(lia) ltac:(lia)). destruct (admittedFrom _ _ _ _ _) as [l|e'|]; [|done..].
    destruct IH as (new & -> & Hsort & Hnew). exists new. split_and!; [done..|]. intros i. rewrite Hnew, admissible_cons, Ep. cbn [is_ok]. naive_solver.
Qed.

(** Admission is decided output by output, and cancellation cannot change it.
    Under any context, the manager answers [admission] or the context's error, although
    it looks away from the errors of single outputs: an output is never dropped because
    the context was cancelled while it was examined.  The answer, if the transaction is
    the one of the identifier and within the budget, admits in increasing order exactly
    the outputs that have a record, none if there are no inputs, and retains no coins;
    otherwise it is the error of the selection. *)
Theorem admission_spec policy beef txid :
  computes (IdentifyAdmissibleOutputs policy beef txid) (admission policy beef txid) /\
  match selectedTransaction beef txid policy with
  | Ok tx =>
      txid = Some (TxID tx) /\
      match admission policy beef txid with
      | Ok instr => exists l, instr = mkAdmit (Some l) (Some []) [] [] /\ StronglySorted Z.lt l /\
          forall i, i ∈ l <-> Inputs tx <> [] /\ admissible (TxID tx) policy 0 (Outputs tx) i
      | Err _ => False
      | Panic => exists outpoint script, project outpoint script policy = Panic
      end
  | Err e => admission policy beef txid = Err e
  | Panic => False
  end.
Proof.
  split; [apply admission_computes|]. unfold admission.
  destruct (selectedTransaction beef txid policy) as [tx|e|] eqn:E; [|done|by pose proof (selectedTransaction_total beef txid policy) as H; rewrite E in H].
  apply selectedTransaction_Ok in E as (-> & _ & _ & Hlen & Hall). split; [done|]. cbn [mbind result_bind].
  case_bool_decide as Hin; cbn [orb].
  { exists []. split_and!; [done|constructor|]. intros i. rewrite elem_of_nil. naive_solver. }
  case_bool_decide as Hout; cbn [orb].
  { exists []. split_and!; [done|constructor|]. intros i. rewrite elem_of_nil, Hout. split; [done|]. intros (_ & _ & o & Ho & _). by rewrite lookup_nil in Ho. }
  cbn [default from_option id]. pose proof (admittedFrom_spec (TxID tx) policy (Outputs tx) 0 [] Hall ltac:(lia) ltac:(lia)) as H.
  destruct (admittedFrom _ _ _ _ _) as [l|e|]; [|done..]. destruct H as (new & -> & Hsort & Hnew). exists new. split_and!; [done..|].
  intros i. rewrite Hnew. naive_solver.
Qed.

(** ** What a record stands for *)

Lemma wrapped_Ok {A} e (r : result A) a : wrapped e r = Ok a <-> r = Ok a.
Proof. by destruct r. Qed.

Lemma decodeFields_Ok l d :
  decodeFields l = Ok d -> d.*1 = l.*1 /\ forall k t, (k, t) ∈ d -> exists v, (k, v) ∈ l /\ UTF8BOM v = Ok t.
Proof.
  revert d. induction l as [|[k v] l IH]; intros d E; cbn [decodeFields foldr] in E.
  { injection E as <-. split; [done|]. intros k t. set_solver. }
  apply bind_Ok in E as (t & Et & E). apply (proj1 (wrapped_Ok _ _ _)) in Et. apply bind_Ok in E as (rest & Er & E). injection E as <-. cbn [fst snd] in *.
  destruct (IH rest Er) as [Hk Hin]. split; [cbn; by rewrite Hk|]. intros k' t' Hd.
  apply elem_of_cons in Hd as [[= -> ->]|Hd].
  - exists v. split; [by left|done].
  - apply Hin in Hd as (v' & ? & ?). exists v'. split; [by right|done].
Qed.

Lemma publicFieldsOf_Ok cert m :
  publicFieldsOf cert = Ok m -> exists decrypted, decryptFields cert = Ok decrypted /\ decrypted <> ∅ /\ dom m = dom decrypted /\
    forall k t, m !! k = Some t -> exists v, decrypted !! k = Some v /\ UTF8BOM v = Ok t.
Proof.
  unfold publicFieldsOf. intros E. apply bind_Ok in E as (decrypted & Ed & E). apply (proj1 (wrapped_Ok _ _ _)) in Ed. case_bool_decide as Hne; [done|].
  apply fmap_Ok in E as (d & Edec & ->). apply decodeFields_Ok in Edec as [Hk Hin]. exists decrypted. split_and!; [done..| |].
  - rewrite dom_list_to_map_L, Hk. by rewrite <- dom_list_to_map_L, list_to_map_to_list.
  - intros k t Hl. apply elem_of_list_to_map_2 in Hl. apply Hin in Hl as (v & Hv & Ht). exists v. split; [by apply elem_of_map_to_list|done].
Qed.

Lemma verifyEnvelope_Ok fields cert :
  verifyEnvelope fields cert = Ok tt ->
  exists body field sig, fields = body ++ [field] /\ ParseSignature field = Ok sig /\ verifySignature (certSubject cert) (concat body) sig = Ok true.
Proof.
  unfold verifyEnvelope. destruct fields as [|field body _] using rev_ind; [done|]. rewrite last_snoc, removelast_last. intros E.
  apply bind_Ok in E as (sig & Es & E). apply (proj1 (wrapped_Ok _ _ _)) in Es. apply bind_Ok in E as ([] & Ev & E); [|done].
  apply (proj1 (wrapped_Ok _ _ _)) in Ev. by exists body, field, sig.
Qed.

Lemma decodeCertificateEnvelope_Ok lockingScript policy fields envelope :
  decodeCertificateEnvelope lockingScript policy = Ok (fields, envelope) ->
  exists script text, lockingScript = Some script /\ len script <= MaxScriptBytes policy /\ pushdropDecode script = Some fields /\
    2 <= len fields <= MaxFields policy + 1 /\ UTF8BOM (default [] (head fields)) = Ok text /\ (document text ≫= UnmarshalEnvelope) = Ok envelope.
Proof.
  unfold decodeCertificateEnvelope. destruct lockingScript as [script|]; [|done]. destruct (len script =? 0); [done|].
  destruct (Z.ltb_spec (MaxScriptBytes policy) (len script)); [done|]. destruct (pushdropDecode script) as [fields'|] eqn:Ep; [|done].
  destruct (Z.ltb_spec (len fields') 2); [done|]. destruct (Z.ltb_spec (MaxFields policy) (len fields' - 1)); [done|]. intros E.
  apply bind_Ok in E as (text & Et & E). apply (proj1 (wrapped_Ok _ _ _)) in Et. apply bind_Ok in E as (env & Ee & E). apply (proj1 (wrapped_Ok _ _ _)) in Ee.
  injection E as <- <-. exists script, text. split_and!; (done || lia).
Qed.

Lemma certificate_Ok envelope policy cert :
  certificate envelope policy = Ok cert ->
  certType cert = eType envelope /\ certSerial cert = eSerialNumber envelope /\ encodes32 (eType envelope) = true /\ encodes32 (eSerialNumber envelope) = true /\
  len (eSubject envelope) = 66 /\ PublicKeyFromString (eSubject envelope) = Ok (certSubject cert) /\
  len (eCertifier envelope) = 66 /\ PublicKeyFromString (eCertifier envelope) = Ok (certCertifier cert) /\
  OutpointFromString (eRevocationOutpoint envelope) = Ok (certRevocation cert) /\ hex_decode (eSignature envelope) = Some (certSignature cert) /\
  certFields cert = values (eFields envelope) /\ certKeyring cert = values (eKeyring envelope) /\
  Z.of_nat (size (certFields cert)) <= MaxFields policy /\ Z.of_nat (size (certKeyring cert)) <= MaxFields policy.
Proof.
  unfold certificate.
  destruct (Z.ltb_spec (MaxFields policy) (Z.of_nat (size (values (eFields envelope))))), (Z.ltb_spec (MaxFields policy) (Z.of_nat (size (values (eKeyring envelope))))); cbn [orb]; try done.
  destruct (encodes32 (eType envelope)), (encodes32 (eSerialNumber envelope)); cbn [negb orb]; try done. intros E.
  apply bind_Ok in E as (subject & Es & E). apply bind_Ok in E as (certifier & Ec & E). destruct (_ || _); [done|].
  apply bind_Ok in E as (o & Eo & E). apply (proj1 (wrapped_Ok _ _ _)) in Eo.
  assert (Hkey : forall v k, parsePublicKey v = Ok k -> len v = 66 /\ PublicKeyFromString v = Ok k).
  { intros v k. unfold parsePublicKey. destruct (Z.eqb_spec (len v) 66); [|done]. by intros Ek%wrapped_Ok. }
  apply Hkey in Es as [? ?], Ec as [? ?]. destruct (hex_decode (eSignature envelope)) as [[|b sig]|] eqn:Eh; try done.
  injection E as <-. by split_and!.
Qed.

(** C28.  A record is verified.  Under any context, if an output is projected to a record
    then its script is within the budget and holds at least two fields: first the envelope,
    as text in JSON, and last a signature of the certificate's subject over exactly the
    concatenation of the fields before it; the certificate of the envelope verifies, with
    the type, serial number, keys and outpoint that the record states; its fields could be
    decrypted, and the record has exactly these fields, as text; and the searchable text
    joins them in the order of the keyring, without the photo and the icon. *)
Theorem record_is_verified outpoint lockingScript policy c rec :
  absent c = false -> fst (ProjectOutput outpoint lockingScript policy c) = Ok rec ->
  exists script body field sig cert decrypted text envelope,
    lockingScript = Some script /\ len script <= MaxScriptBytes policy /\
    pushdropDecode script = Some (body ++ [field]) /\ 1 <= len body <= MaxFields policy /\
    ParseSignature field = Ok sig /\ verifySignature (certSubject cert) (concat body) sig = Ok true /\
    certificate envelope policy = Ok cert /\ verifyCertificate cert = Ok tt /\
    UTF8BOM (default [] (head body)) = Ok text /\ document text ≫= UnmarshalEnvelope = Ok envelope /\
    decryptFields cert = Ok decrypted /\ decrypted <> ∅ /\
    recOutpoint rec = outpoint /\
    let r := recCertificate rec in
    Type_ r = certType cert /\ Serial r = certSerial cert /\ encodes32 (Type_ r) = true /\ encodes32 (Serial r) = true /\
    PublicKeyFromString (Subject r) = Ok (certSubject cert) /\ PublicKeyFromString (Certifier r) = Ok (certCertifier cert) /\
    OutpointFromString (RevocationOutpoint r) = Ok (certRevocation cert) /\
    dom (Fields r) = dom decrypted /\ (forall k t, Fields r !! k = Some t -> exists v, decrypted !! k = Some v /\ UTF8BOM v = Ok t) /\
    SearchableAttributes rec = searchableAttributes (keys (eKeyring envelope)) (Fields r).
Proof.
  intros Hc E. destruct (ProjectOutput_respects outpoint lockingScript policy c Hc) as (_ & _ & _ & [[Hr _]|(_ & Hno & _)]); [|by rewrite E in Hno].
  rewrite E in Hr. symmetry in Hr. clear E. unfold project in Hr.
  apply bind_Ok in Hr as ([] & _ & Hr). apply bind_Ok in Hr as ([fields envelope] & Ed & Hr). apply bind_Ok in Hr as (cert & Ec & Hr).
  apply bind_Ok in Hr as ([] & _ & Hr). apply bind_Ok in Hr as ([] & Ev & Hr). apply bind_Ok in Hr as ([] & Evc & Hr). apply (proj1 (wrapped_Ok _ _ _)) in Evc.
  apply bind_Ok in Hr as (m & Em & Hr). injection Hr as <-.
  apply decodeCertificateEnvelope_Ok in Ed as (script & text & -> & Hs & Hp & Hlen & Htx & Henv).
  apply verifyEnvelope_Ok in Ev as (body & field & sig & -> & Hsig & Hver). apply publicFieldsOf_Ok in Em as (decrypted & Hdec & Hne & Hdom & Htext).
  pose proof (certificate_Ok _ _ _ Ec) as (H1 & H2 & H3 & H4 & _ & H5 & _ & H6 & H7 & _).
  rewrite len_app in Hlen. change (len [field]) with 1 in Hlen.
  destruct body as [|first body]; [exfalso; change (@len (list byte) []) with 0 in Hlen; lia|].
  assert (1 <= len (first :: body) /\ len (first :: body) <= MaxFields policy) as [Hb1 Hb2] by lia.
  exists script, (first :: body), field, sig, cert, decrypted, text, envelope. cbn [recOutpoint recCertificate SearchableAttributes]. split_and!; done.
Qed.

End Output.

(** ** The order of the fields *)

Definition isIndex (key : list byte) : bool := bool_decide (is_Some (propertyIndex key)).

(** The first occurrences, in order. *)
Definition firsts (l : list (list byte)) : list (list byte) := reverse (remove_dups (reverse l)).

(** The one index is below the other. *)
Definition indexBelow (a b : list byte) : Prop :=
  exists i j, propertyIndex a = Some i /\ propertyIndex b = Some j /\ i < j.

Lemma propertyIndex_key key i : propertyIndex key = Some i -> FormatUint i = key.
Proof.
  unfold propertyIndex. destruct (ParseUint key) as [n|]; [|done]. destruct (n <? 2 ^ 32 - 1); [|done]. cbn [andb].
  case_bool_decide; [|done]. by intros [= <-].
Qed.

Lemma firsts_snoc l x : firsts (l ++ [x]) = if bool_decide (x ∈ l) then firsts l else firsts l ++ [x].
Proof.
  unfold firsts. rewrite reverse_snoc. cbn [remove_dups]. case_bool_decide as H.
  - destruct (decide_rel _ _ _) as [_|Hn]; [done|]. by rewrite elem_of_reverse in Hn.
  - destruct (decide_rel _ _ _) as [Hn|_]; [by rewrite elem_of_reverse in Hn|]. by rewrite reverse_cons.
Qed.

Lemma firsts_elem l x : x ∈ firsts l <-> x ∈ l.
Proof. unfold firsts. by rewrite elem_of_reverse, elem_of_remove_dups, elem_of_reverse. Qed.

Lemma firsts_NoDup l : NoDup (firsts l).
Proof. unfold firsts. rewrite reverse_Permutation. apply NoDup_remove_dups. Qed.

Lemma insert_name x l : propertyIndex x = None -> insertStable x l = l ++ [x].
Proof. intros Hx. induction l as [|y l IH]; [done|]. cbn [insertStable]. unfold lessKey. by rewrite Hx, IH. Qed.

Lemma insert_index x i indices names :
  propertyIndex x = Some i -> StronglySorted indexBelow indices -> x ∉ indices ->
  Forall (fun y => is_Some (propertyIndex y)) indices -> Forall (fun y => propertyIndex y = None) names ->
  exists indices', insertStable x (indices ++ names) = indices' ++ names /\ indices' ≡ₚ x :: indices /\ StronglySorted indexBelow indices'.
Proof.
  intros Hx Hsort. revert names. induction Hsort as [|y indices Hsort IH Hy]; intros names Hnot Hidx Hnames.
  - exists [x]. split_and!; [|done|repeat constructor]. destruct Hnames as [|z names Hz _]; [done|]. cbn. unfold lessKey. by rewrite Hx, Hz.
  - apply Forall_cons in Hidx as [[j Hj] Hidx]. cbn [app insertStable]. unfold lessKey. rewrite Hx, Hj. destruct (Z.ltb_spec i j) as [Hlt|Hge].
    + exists (x :: y :: indices). split_and!; [done..|]. constructor; [by constructor|]. constructor; [by exists i, j|].
      eapply Forall_impl; [exact Hy|]. intros z (j' & k & Hj' & Hk & Hjk). exists i, k. split_and!; [done..|]. assert (j' = j) by congruence. lia.
    + destruct (IH names ltac:(set_solver) Hidx Hnames) as (indices' & -> & Hperm & Hsort'). exists (y :: indices'). split_and!; [done|rewrite Hperm; by constructor|].
      constructor; [done|]. rewrite Hperm. constructor; [|done]. exists j, i. split_and!; [done..|].
      assert (i <> j); [|lia]. intros ->. apply propertyIndex_key in Hx, Hj. apply Hnot. rewrite <- Hx, <- Hj. by left.
Qed.

(** Sorting puts the indices first, in ascending order, and keeps the order of the names. *)
Lemma sortKeys_spec l :
  NoDup l -> exists indices, sortKeys l = indices ++ filter (fun k => isIndex k = false) l /\
    indices ≡ₚ filter (fun k => isIndex k = true) l /\ StronglySorted indexBelow indices.
Proof.
  induction l as [|x l IH] using rev_ind; intros Hnd; [exists []; split_and!; [done..|constructor]|]. apply NoDup_app in Hnd as (Hnd & Hx & _).
  destruct (IH Hnd) as (indices & E & Hperm & Hsort). unfold sortKeys in *. rewrite foldl_app, E, !filter_app. cbn [foldl].
  assert (Hnames : Forall (fun y => propertyIndex y = None) (filter (fun k => isIndex k = false) l)).
  { apply Forall_forall. intros y [Hy _]%list_elem_of_filter. unfold isIndex in Hy. apply bool_decide_eq_false in Hy. by apply eq_None_not_Some. }
  assert (Hidx : Forall (fun y => is_Some (propertyIndex y)) indices).
  { rewrite Hperm. apply Forall_forall. intros y [Hy _]%list_elem_of_filter. by apply bool_decide_eq_true in Hy. }
  assert (Hnot : x ∉ indices) by (rewrite Hperm, list_elem_of_filter; intros [_ ?]; apply (Hx x); [done|by left]).
  rewrite !filter_cons, !filter_nil. destruct (propertyIndex x) as [i|] eqn:Ei.
  - assert (isIndex x = true) as -> by (unfold isIndex; by rewrite Ei, bool_decide_true). destruct (decide (true = false)) as [|_]; [done|]. destruct (decide (true = true)) as [_|]; [|done].
    destruct (insert_index x i indices _ Ei Hsort Hnot Hidx Hnames) as (indices' & E' & Hperm' & Hsort').
    exists indices'. rewrite app_nil_r, E'. split_and!; [done| |done]. rewrite Hperm', Hperm. apply Permutation_cons_append.
  - assert (isIndex x = false) as -> by (unfold isIndex; rewrite Ei, bool_decide_false; [done|by intros [??]]).
    destruct (decide (false = true)) as [|_]; [done|]. destruct (decide (false = false)) as [_|]; [|done]. rewrite app_nil_r. exists indices. rewrite insert_name by done. by rewrite app_assoc.
Qed.

(** The members of a document of texts. *)
Definition texts (l : list (list byte * list byte)) : json := JObject (map (fun kv => (kv.1, JString kv.2)) l).

Definition quoted (l : list (list byte * list byte)) : list (list byte * list byte) := map (fun kv => (kv.1, quote kv.2)) l.

Definition textsOk (l : list (list byte * list byte)) : Prop := Forall (fun kv => Utf8.Valid kv.1 = true /\ Utf8.Valid kv.2 = true) l.

Lemma quoted_ok l : textsOk l -> Forall (memberOk 0) (quoted l).
Proof. intros Hl. apply Forall_map. eapply Forall_impl; [exact Hl|]. intros kv [? ?]. split; [done|]. by apply quote_value. Qed.

Lemma readOrdered_texts l n done st rest stk :
  textsOk l -> st = tokenObjectStart \/ st = tokenObjectComma -> (length l < n)%nat ->
  readOrdered n (mkDecoder (pending st (quoted l) rest) st stk) (mkOrdered (list_to_map (reverse done)) (firsts done.*1)) =
    Ok (mkOrdered (list_to_map (reverse (done ++ l))) (firsts (done ++ l).*1),
        mkDecoder (Byte.x7d :: rest) (match l with [] => st | _ => tokenObjectComma end) stk).
Proof.
  intros Hl. revert n done st. induction Hl as [|[k v] l [Hk Hv] Hl IH]; intros n done st Hst Hn; (destruct n as [|n]; [cbn in Hn; lia|]); cbn [readOrdered quoted map fst snd].
  { rewrite app_nil_r. by destruct Hst as [-> | ->]. }
  cbn [fst snd] in Hk, Hv. rewrite (More_member k (quote v) (quoted l)) by done. cbn [negb]. rewrite (Token_member k (quote v) (quoted l)) by done. cbn [mbind result_bind].
  rewrite (Decode_member k (quote v) (quoted l) rest stk 0) by (done || by split; [|apply quote_value]). cbn [mbind result_bind].
  rewrite bool_decide_true by done. cbn [negb]. rewrite UnmarshalString_quote by done. cbn [mbind result_bind values keys].
  pose proof (IH n (done ++ [(k, v)]) tokenObjectComma (or_intror eq_refl) ltac:(cbn in Hn; lia)) as Hnext.
  rewrite <- app_assoc in Hnext. cbn [app] in Hnext. rewrite fmap_app in Hnext. cbn [fmap list_fmap fst] in Hnext.
  rewrite firsts_snoc, reverse_snoc in Hnext. cbn [list_to_map foldr fst snd] in Hnext.
  assert (Hmem : list_to_map (M := gmap (list byte) (list byte)) (reverse done) !! k = None <-> k ∉ done.*1).
  { rewrite <- not_elem_of_list_to_map, fmap_reverse. by rewrite elem_of_reverse. }
  case_bool_decide as Hin.
  - destruct (list_to_map (reverse done) !! k) eqn:Ek; [rewrite Hnext; by destruct l|]. by destruct (proj1 Hmem eq_refl).
  - rewrite (proj2 Hmem Hin), Hnext. by destruct l.
Qed.

(** The fields are enumerated the way JavaScript does.  The document of any members,
    names repeated or not, is read to the map of the last values, with every name once:
    first the names that are canonical array indices (2^32-1 is not one), in ascending
    order of the numbers, then the others in the order of their first occurrences. *)
Theorem fields_keep_order l :
  textsOk l ->
  exists f indices, UnmarshalOrdered (render (texts l)) = Ok f /\
    values f = list_to_map (reverse l) /\
    keys f = indices ++ filter (fun k => isIndex k = false) (firsts l.*1) /\
    indices ≡ₚ filter (fun k => isIndex k = true) (firsts l.*1) /\
    StronglySorted indexBelow indices /\
    keys f ≡ₚ base.elements (dom (values f)).
Proof.
  intros Hl. destruct (sortKeys_spec (firsts l.*1) (firsts_NoDup _)) as (indices & E & Hperm & Hsort).
  exists (mkOrdered (list_to_map (reverse l)) (sortKeys (firsts l.*1))), indices. cbn [values keys]. rewrite E. split_and!; [|done..|].
  - unfold UnmarshalOrdered, NewDecoder. assert (render (texts l) = object (quoted l)) as ->.
    { unfold texts, quoted. cbn [render]. f_equal. rewrite map_map. done. }
    unfold object. rewrite Token_open by done. rewrite bool_decide_true by done. cbn [negb].
    assert (Epend : pending tokenObjectStart (quoted l) [] = members (quoted l) ++ [Byte.x7d]) by (by destruct l). rewrite <- Epend.
    pose proof (readOrdered_texts l (S (length (Byte.x7b :: pending tokenObjectStart (quoted l) []))) [] tokenObjectStart [] [tokenTopValue] Hl (or_introl eq_refl)) as Hread.
    change (mkOrdered (list_to_map (reverse [])) (firsts (@nil (list byte * list byte)).*1)) with (mkOrdered ∅ []) in Hread. rewrite Hread.
    + cbn [mbind result_bind]. rewrite Token_close by (destruct l; auto). cbn [mbind result_bind tokenValueEnd]. cbn -[sortKeys firsts reverse]. by rewrite E.
    + rewrite Epend. cbn [length]. rewrite length_app. pose proof (comma_length (map (fun m => member m.1 m.2) (quoted l))) as Hc. unfold quoted in *.
      rewrite !length_map in Hc. specialize (Hc ltac:(intros v (m & -> & _)%list_elem_of_fmap; done)). lia.
  - apply NoDup_Permutation; [|apply NoDup_elements|].
    + rewrite Hperm. rewrite NoDup_app. split_and!; [by apply NoDup_filter, firsts_NoDup| |by apply NoDup_filter, firsts_NoDup].
      intros k [Hk _]%list_elem_of_filter [Hk' _]%list_elem_of_filter. by rewrite Hk in Hk'.
    + intros k. rewrite elem_of_elements, dom_list_to_map_L, elem_of_list_to_set, fmap_reverse, elem_of_reverse.
      rewrite Hperm, elem_of_app, !list_elem_of_filter, firsts_elem. destruct (isIndex k); naive_solver.
Qed.

(** ** An instance: a script is an envelope and one byte, which stands for the length
    of the envelope; nothing is encrypted *)

Module Example.

#[local] Instance sdk : IdentitySDK (list byte) (list byte) := {
  pushdropDecode script := match last script with Some b => Some [removelast script; [b]] | None => None end;
  UTF8BOM s := Ok s;
  ParseSignature s := Ok s;
  PublicKeyFromString s := Ok s;
  OutpointFromString s := Ok (mkOutpoint zero_hash (len s));
  NewCompletedProtoWallet := Ok tt;
  VerifySignature _ data sig := pure (Ok (bool_decide (sig = [byte.of_Z (len data mod 256)])));
  VerifyCertificate _ := pure (Ok tt);
  DecryptFields cert := pure (Ok (certFields cert)) }.

#[local] Instance laws : IdentityLaws sdk.
Proof.
  refine {| verifySignature _ data sig := Ok (bool_decide (sig = [byte.of_Z (len data mod 256)]));
            verifyCertificate _ := Ok tt; decryptFields cert := Ok (certFields cert) |}; intros; apply respects_pure.
Defined.

Definition publicFields : list (list byte * list byte) :=
  [(str "userName", str "Ada"); (str "10", str "ten"); (str "icon", str "x.png"); (str "9", str "nine"); (str "userName", str "Ada L.")].

Definition encoded : list byte := repeat Byte.x41 43 ++ str "=".
Definition key : list byte := str "02" ++ repeat Byte.x61 64.
Definition revocation : list byte := repeat Byte.x30 64 ++ str ".7".

Definition envelope : list byte :=
  render (JObject [(str "type", JString encoded); (str "serialNumber", JString encoded); (str "subject", JString key); (str "certifier", JString key);
                   (str "TYPE", JString (str "other")); (str "revocationOutpoint", JString revocation); (str "signature", JString (str "3044"));
                   (str "fields", texts publicFields); (str "keyring", texts publicFields)]).

Definition lockingScript : list byte := envelope ++ [byte.of_Z (len envelope mod 256)].
Definition outpoint : Outpoint := mkOutpoint zero_hash 3.

Definition record : IdentityRecord :=
  mkRecord outpoint (mkCertificate encoded encoded key key revocation (list_to_map (reverse publicFields))) (str "nine ten Ada L.").

Example projected : fst (ProjectOutput outpoint (Some lockingScript) DefaultAdmissionPolicy background) = Ok record.
Proof. vm_compute. reflexivity. Qed.

Lemma record_is_verified_witness :
  exists script body field sig cert decrypted text envelope,
    Some lockingScript = Some script /\ len script <= MaxScriptBytes DefaultAdmissionPolicy /\
    pushdropDecode script = Some (body ++ [field]) /\ 1 <= len body <= MaxFields DefaultAdmissionPolicy /\
    ParseSignature field = Ok sig /\ verifySignature (certSubject cert) (concat body) sig = Ok true /\
    certificate envelope DefaultAdmissionPolicy = Ok cert /\ verifyCertificate cert = Ok tt /\
    UTF8BOM (default [] (head body)) = Ok text /\ document text ≫= UnmarshalEnvelope = Ok envelope /\
    decryptFields cert = Ok decrypted /\ decrypted <> ∅ /\
    recOutpoint record = outpoint /\
    let r := recCertificate record in
    Type_ r = certType cert /\ Serial r = certSerial cert /\ encodes32 (Type_ r) = true /\ encodes32 (Serial r) = true /\
    PublicKeyFromString (Subject r) = Ok (certSubject cert) /\ PublicKeyFromString (Certifier r) = Ok (certCertifier cert) /\
    OutpointFromString (RevocationOutpoint r) = Ok (certRevocation cert) /\
    dom (Fields r) = dom decrypted /\ (forall k t, Fields r !! k = Some t -> exists v, decrypted !! k = Some v /\ UTF8BOM v = Ok t) /\
    SearchableAttributes record = searchableAttributes (keys (eKeyring envelope)) (Fields r).
Proof. apply (record_is_verified outpoint (Some lockingScript) DefaultAdmissionPolicy background record); [done|]. vm_compute. reflexivity. Defined.

Lemma fields_keep_order_witness :
  exists f indices, UnmarshalOrdered (render (texts publicFields)) = Ok f /\
    values f = list_to_map (reverse publicFields) /\
    keys f = indices ++ filter (fun k => isIndex k = false) (firsts publicFields.*1) /\
    indices ≡ₚ filter (fun k => isIndex k = true) (firsts publicFields.*1) /\
    StronglySorted indexBelow indices /\
    keys f ≡ₚ base.elements (dom (values f)).
Proof. apply fields_keep_order. repeat constructor. Defined.

(** The order of the keys of the example. *)
Example order : keys <$> (match UnmarshalOrdered (render (texts publicFields)) with Ok f => Some f | _ => None end) =
  Some [str "9"; str "10"; str "userName"; str "icon"].
Proof. vm_compute. reflexivity. Qed.

(** The signature of another document is refused. *)
Example wrong_signature : fst (ProjectOutput outpoint (Some (envelope ++ [byte.of_Z ((len envelope + 1) mod 256)])) DefaultAdmissionPolicy background) = Err ErrInvalidOutput.
Proof. vm_compute. reflexivity. Qed.

Definition tx : IdentityTx :=
  mkIdentityTx zero_hash [Some (mkIdentityInput (Some zero_hash) (Some []))]
    [Some (mkIdentityOutput (Some lockingScript)); Some (mkIdentityOutput (Some [])); Some (mkIdentityOutput (Some lockingScript))].

Definition beef : IdentityBeef := {[ zero_hash := mkBeefTx (Some tx) false ]}.

Lemma admission_spec_witness :
  computes (IdentifyAdmissibleOutputs DefaultAdmissionPolicy (Some beef) (Some zero_hash)) (admission DefaultAdmissionPolicy (Some beef) (Some zero_hash)) /\
  fst (IdentifyAdmissibleOutputs DefaultAdmissionPolicy (Some beef) (Some zero_hash) background) = Ok (mkAdmit (Some [0; 2]) (Some []) [] []).
Proof.
  destruct (admission_spec DefaultAdmissionPolicy (Some beef) (Some zero_hash)) as [H _]. split; [exact H|]. vm_compute. reflexivity.
Defined.

End Example.

End IdentityOutput.
