(* ===== verification/EngineModel.v ===== *)
(** * Concrete components for the engine

    Instances of the interfaces of the engine, small enough to evaluate: a storage in
    memory, one that holds nothing, topic managers and services that accept
    everything, and an SDK whose transactions are short texts.  The witnesses of the
    engine's theorems run on them. *)

From S2P Require Import Prelude Bytes Runs GaspTypes Admission EngineTypes AdmissionPlan.
Import Gasp.
Open Scope Z_scope.

Module EngineModel.

(** ** Transactions

    The first byte names the transaction, the others the transactions whose output 0
    it spends.  A BEEF is a transaction with its linked ancestors. *)

Definition nameOf (b : list byte) : Hash := array32 (take 1 b).

Definition spend (x : byte) : TxInput := mkTxInput (mkOutpoint (nameOf [x]) 0) [] 0 None.

Definition parse (b : list byte) : result Transaction :=
  match b with
  | [] => Err ErrInvalidTransaction
  | _ :: inputs => Ok (mkTransaction b None (map spend inputs) [])
  end.

Definition treeID (t : Transaction) : Hash := nameOf (txBytes t).

#[export] Instance treeSDK : TransactionSDK Transaction := {|
  txIDOf := treeID;
  ParseBeef b := (fun t => (t, Some t, Some (treeID t))) <$> parse b;
  FindTransactionForSigningByHash t h := if bool_decide (treeID t = h) then Some t else None;
  FindTransactionByHash t h := if bool_decide (treeID t = h) then Some t else None;
  MergeBeef t _ := Ok t;
  AtomicBytes t _ := Ok (txBytes t);
  AtomicBEEF t := Ok (txBytes t);
  BEEF t := Ok (txBytes t);
  ComputeRoot _ h := Ok h;
  pathBytes _ := [] |}.

(** ** Storages *)

Abbreviation Store Beef := (gmap Outpoint (EngineOutput Beef)).

#[export] Instance memory {Beef} : EngineStorage (Store Beef) Beef := {|
  InsertOutputs _ _ _ _ _ _ w := (Ok tt, w);
  FindOutput o _ _ _ w := (Ok (w !! o), w);
  FindOutputs os _ _ _ w := (Ok (map (fun o => w !! o) os), w);
  FindOutputsForTransaction txid _ w :=
    (Ok (filter (fun o => Txid (oOutpoint o) = txid) (map_to_list w).*2), w);
  FindUTXOsForTopic _ _ _ _ w := (Ok (map_to_list w).*2, w);
  DeleteOutput o _ w := (Ok tt, delete o w);
  MarkUTXOsAsSpent _ _ _ w := (Ok tt, w);
  UpdateConsumedBy o _ l w := (Ok tt, alter (fun x => setConsumedBy x l) o w);
  UpdateTransactionBEEF txid beef w :=
    (Ok tt, (fun x => if bool_decide (Txid (oOutpoint x) = txid) then setBeef x (Some beef) else x) <$> w);
  UpdateOutputBlockHeight o _ height idx w := (Ok tt, alter (fun x => setBlock x height idx) o w);
  InsertAppliedTransaction _ _ w := (Ok tt, w);
  DoesAppliedTransactionExist _ _ w := (Ok false, w);
  UpdateLastInteraction _ _ _ w := (Ok tt, w);
  GetLastInteraction _ _ w := (Ok 0, w);
  FindOutpointsByMerkleState _ _ _ w := (Ok [], w);
  LoadAncillaryBeef o w := (Ok o, w) |}.

(** What is stored never changes. *)
Definition frozen {Beef} (content : Store Beef) : EngineStorage unit Beef := {|
  InsertOutputs _ _ _ _ _ _ w := (Ok tt, w);
  FindOutput o _ _ _ w := (Ok (content !! o), w);
  FindOutputs os _ _ _ w := (Ok (map (fun o => content !! o) os), w);
  FindOutputsForTransaction txid _ w :=
    (Ok (filter (fun o => Txid (oOutpoint o) = txid) (map_to_list content).*2), w);
  FindUTXOsForTopic _ _ _ _ w := (Ok (map_to_list content).*2, w);
  DeleteOutput _ _ w := (Ok tt, w);
  MarkUTXOsAsSpent _ _ _ w := (Ok tt, w);
  UpdateConsumedBy _ _ _ w := (Ok tt, w);
  UpdateTransactionBEEF _ _ w := (Ok tt, w);
  UpdateOutputBlockHeight _ _ _ _ w := (Ok tt, w);
  InsertAppliedTransaction _ _ w := (Ok tt, w);
  DoesAppliedTransactionExist _ _ w := (Ok false, w);
  UpdateLastInteraction _ _ _ w := (Ok tt, w);
  GetLastInteraction _ _ w := (Ok 0, w);
  FindOutpointsByMerkleState _ _ _ w := (Ok [], w);
  LoadAncillaryBeef o w := (Ok o, w) |}.

Lemma frozen_outputs {Beef} (content : gmap Outpoint (EngineOutput Beef)) txid b w outs w' o :
  @FindOutputsForTransaction _ _ (frozen content) txid b w = (Ok outs, w') -> o ∈ outs ->
  Txid (oOutpoint o) = txid /\ exists k, content !! k = Some o.
Proof.
  intros [= <- _] Ho. apply list_elem_of_filter in Ho as [E ([k out] & -> & Hin)%list_elem_of_fmap].
  split; [done|]. exists k. cbn [snd] in *. by apply elem_of_map_to_list.
Qed.

(** Nothing is stored. *)
#[export] Instance noStorage {Beef} : EngineStorage unit Beef := {|
  InsertOutputs _ _ _ _ _ _ w := (Ok tt, w);
  FindOutput o _ _ _ w := (Ok None, w);
  FindOutputs os _ _ _ w := (Ok [], w);
  FindOutputsForTransaction _ _ w := (Ok [], w);
  FindUTXOsForTopic _ _ _ _ w := (Ok [], w);
  DeleteOutput o _ w := (Ok tt, w);
  MarkUTXOsAsSpent _ _ _ w := (Ok tt, w);
  UpdateConsumedBy o _ l w := (Ok tt, w);
  UpdateTransactionBEEF _ _ w := (Ok tt, w);
  UpdateOutputBlockHeight _ _ _ _ w := (Ok tt, w);
  InsertAppliedTransaction _ _ w := (Ok tt, w);
  DoesAppliedTransactionExist _ _ w := (Ok false, w);
  UpdateLastInteraction _ _ _ w := (Ok tt, w);
  GetLastInteraction _ _ w := (Ok 0, w);
  FindOutpointsByMerkleState _ _ _ w := (Ok [], w);
  LoadAncillaryBeef o w := (Ok o, w) |}.

(** ** The other components *)

#[export] Instance admitFirst {W Beef} : TopicManagers W Beef := {|
  IdentifyAdmissibleOutputs _ _ _ _ w := (Ok (mkAdmit (Some [0]) None [] []), w);
  IdentifyNeededInputs _ _ _ w := (Ok [], w) |}.

#[export] Instance services {W} : LookupServices W := {|
  OutputAdmittedByTopic _ _ _ _ _ w := (Ok tt, w);
  OutputSpent _ _ _ _ _ _ _ _ w := (Ok tt, w);
  OutputNoLongerRetainedInHistory _ _ _ w := (Ok tt, w);
  OutputBlockHeightUpdated _ _ _ _ w := (Ok tt, w) |}.

#[export] Instance network {W} : Network W := {|
  Verify _ w := (Ok true, w);
  IsValidRootForHeight _ _ w := (Ok true, w);
  Broadcast _ w := (Ok tt, w);
  Propagate _ _ w := (Ok tt, w) |}.

(** It publishes, and commits every plan with its own steak. *)
#[export] Instance commitAll {W} : AdmissionHost W := {|
  hostMethods := true;
  hostScope _ := Admission.mkScope (str "main") (repeat Byte.x30 64) (str "node");
  PublishPayload _ _ w := (Ok tt, w);
  CurrentHistoryFence _ w := (Ok (Admission.mkFence (str "1") (str "2")), w);
  EnsureHistoryFence _ _ w := (Ok tt, w);
  CommitAdmission plan w := (Ok (Admission.mkCommitResult Admission.AdmissionCommitStateCommitted
    (Some (Admission.mkReceipt (Admission.OperationID (comKey plan)) (Admission.SemanticDigest (comKey plan))
             Admission.AdmissionDurabilityAtomicLocal (comSteak plan) None Admission.AdmissionPropagationNotRequested)) [] NoRejection), w) |}.

#[export] Program Instance map_range {W} : MapRange W := {| range _ _ _ _ m _ := map_to_list m |}.
Next Obligation. done. Qed.

Definition config : EngineConfig :=
  mkConfig {[ str "tm" := tt ]} {[ str "ls" := tt ]} (str "https://host") true true true false.

End EngineModel.
