(* ===== verification/MerkleProof.v ===== *)
(** * pkg/core/engine/engine.go: new Merkle proofs

    [HandleNewMerkleProof] and what it calls: the proof of a transaction is checked
    against the chain, written into the BEEFs of its outputs and of the unmined
    transactions that consumed them, and announced to the lookup services.  The
    objects that the code updates in place are threaded as values; the transaction
    identifier is not nil, and a Merkle path has a first level. *)

From S2P Require Import Prelude Bytes Runs Traced GaspTypes EngineTypes EngineModel.
Import Gasp.
Open Scope Z_scope.

Module MerkleProof.
Section MerkleProof.
Context {W Beef : Type} `{TransactionSDK Beef} `{EngineStorage W Beef} `{LookupServices W} `{Network W}
  `{MapRange W}.
Context (e : EngineConfig).

Local Abbreviation Output := (EngineOutput Beef).

Inductive event :=
  | RootCall (root : Hash) (height : Z) (r : result bool)
  | FindTxCall (txid : Hash) (r : result (list (Outpoint * list byte * Z * Z)))
  | UpdateBeefCall (txid : Hash)
  | FindConsumersCall (txid : Hash)
  | UpdateHeightCall (outpoint : Outpoint) (topic : list byte) (height idx : Z)
  | HeightUpdatedCall (service : list byte) (txid : Hash) (height idx : Z).

Local Abbreviation St := (Traced.St W event).
Local Abbreviation Run := (Runs.Run St).

(** ** Proofs in a transaction *)

Fixpoint updateInputProofs (txid : Hash) (proof : MerklePath) (tx : Transaction) : result Transaction :=
  match tx with
  | mkTransaction bytes path inputs outputs =>
      match path with
      | Some _ => Ok (mkTransaction bytes (Some proof) inputs outputs)
      | None =>
          if bool_decide (txIDOf tx = txid) then Ok (mkTransaction bytes (Some proof) inputs outputs)
          else
            inputs' ← (fix go (inputs : list TxInput) : result (list TxInput) :=
              match inputs with
              | [] => Ok []
              | mkTxInput o u q source :: inputs' =>
                  match source with
                  | None => Err ErrMissingSourceTransaction
                  | Some source =>
                      source' ← updateInputProofs txid proof source;
                      rest ← go inputs';
                      Ok (mkTxInput o u q (Some source') :: rest)
                  end
              end) inputs;
            Ok (mkTransaction bytes None inputs' outputs)
      end
  end.

Definition isMerkleRootUnchanged (tx : Transaction) (txid : Hash) (proof : MerklePath) : result bool :=
  match txMerklePath tx with
  | None => Ok false
  | Some path =>
      oldRoot ← ComputeRoot path txid;
      newRoot ← ComputeRoot proof txid;
      Ok (bool_decide (oldRoot = newRoot))
  end.

Definition rebuildBeefFromTx (tx : Transaction) : result Beef :=
  atomicBytes ← AtomicBEEF tx;
  '(updatedBeef, _, _) ← ParseBeef atomicBytes;
  Ok updatedBeef.

(** The first leaf of the hash [h]. *)
Fixpoint findLeaf (leaves : list PathElement) (h : Hash) : option Z :=
  match leaves with
  | [] => None
  | leaf :: leaves' => if bool_decide (elemHash leaf = Some h) then Some (elemOffset leaf) else findLeaf leaves' h
  end.

Definition findBlockIdx (proof : MerklePath) (txid : Hash) : option Z := findLeaf (leaves proof) txid.

Definition updateOutputBlockInfo (output : Output) (proof : MerklePath) : Output :=
  setBlock output (pathHeight proof) (default (oBlockIdx output) (findLeaf (leaves proof) (Txid (oOutpoint output)))).

Definition consumingAlreadyMined (output : Output) : bool :=
  match oBeef output with
  | None => false
  | Some beef =>
      match FindTransactionForSigningByHash beef (Txid (oOutpoint output)) with
      | Some tx => bool_decide (is_Some (txMerklePath tx))
      | None => false
      end
  end.

(** ** Outputs *)

Definition propagateMerkleProofToConsumers (updateMerkleProof : Output -> Run Output)
    (consumedBy : list Outpoint) : Run unit :=
  forEach (fun outpoint =>
    consumingOutputs ← invoke (FindOutputsForTransaction (Txid outpoint) true) (FindConsumersCall (Txid outpoint));
    forEach (fun consuming =>
      if consumingAlreadyMined consuming then mret tt
      else updateMerkleProof consuming ≫= fun _ => mret tt) consumingOutputs) consumedBy.

(** The output with its new block information. *)
Fixpoint updateMerkleProof (fuel : nat) (txid : Hash) (proof : MerklePath) (output : Output) : Run Output :=
  match fuel with
  | O => exhausted
  | S fuel' =>
      match oBeef output with
      | None => lift (Err ErrMissingBeef)
      | Some beef =>
          match FindTransactionForSigningByHash beef (Txid (oOutpoint output)) with
          | None => lift (Err ErrMissingTransaction)
          | Some tx =>
              unchanged ← lift (isMerkleRootUnchanged tx txid proof);
              if (unchanged : bool) then mret output else
              tx ← lift (updateInputProofs txid proof tx);
              updatedBeef ← lift (rebuildBeefFromTx tx);
              let output := updateOutputBlockInfo output proof in
              invoke (UpdateTransactionBEEF (Txid (oOutpoint output)) updatedBeef)
                (UpdateBeefCall (Txid (oOutpoint output))) ≫= fun _ =>
              propagateMerkleProofToConsumers (updateMerkleProof fuel' txid proof) (ConsumedBy output) ≫= fun _ =>
              mret output
          end
      end
  end.

Definition validateMerkleProof (txid : Hash) (proof : MerklePath) : Run unit :=
  merkleRoot ← lift (ComputeRoot proof txid);
  valid ← observe (IsValidRootForHeight merkleRoot (pathHeight proof)) (RootCall merkleRoot (pathHeight proof));
  if (valid : bool) then mret tt else lift (Err ErrInvalidMerkleProof).

(** The loop of [HandleNewMerkleProof] over the outputs of the transaction. *)
Definition updateOutputs (fuel : nat) (txid : Hash) (proof : MerklePath) (outputs : list Output) : Run unit :=
  forEach (fun output =>
    output ← updateMerkleProof fuel txid proof output;
    invoke (UpdateOutputBlockHeight (oOutpoint output) (oTopic output) (oBlockHeight output) (oBlockIdx output))
      (UpdateHeightCall (oOutpoint output) (oTopic output) (oBlockHeight output) (oBlockIdx output))) outputs.

(** An output as it was found: its outpoint and topic, its block height and index. *)
Definition blockInfo (o : Output) := (oOutpoint o, oTopic o, oBlockHeight o, oBlockIdx o).

Definition HandleNewMerkleProof (fuel : nat) (txid : Hash) (proof : MerklePath) : Run unit :=
  validateMerkleProof txid proof ≫= fun _ =>
  outputs ← observe (FindOutputsForTransaction txid true)
              (fun r => FindTxCall txid (map blockInfo <$> r));
  if bool_decide (outputs = []) then mret tt else
  match findBlockIdx proof txid with
  | None => lift (Err ErrTxNotInProof)
  | Some blockIdx =>
      updateOutputs fuel txid proof outputs ≫= fun _ =>
      services ← rangeMap (lookupServices e);
      forEach (fun l => invoke (OutputBlockHeightUpdated l txid (pathHeight proof) blockIdx)
                          (HeightUpdatedCall l txid (pathHeight proof) blockIdx)) services.*1
  end.

(** ** What updating a transaction does to its proofs *)

(** The proofs that a transaction and its unproven ancestors carry: a branch ends at
    the first transaction with a path. *)
Fixpoint proofs (tx : Transaction) : list (Hash * MerklePath) :=
  match tx with
  | mkTransaction _ path inputs _ =>
      match path with
      | Some p => [(txIDOf tx, p)]
      | None => flat_map (fun '(mkTxInput _ _ _ source) =>
                  match source with Some s => proofs s | None => [] end) inputs
      end
  end.

(** Where the update stops: at the transaction [txid], and at every proven one. *)
Fixpoint cut (txid : Hash) (tx : Transaction) : list Hash :=
  match tx with
  | mkTransaction _ path inputs _ =>
      if bool_decide (is_Some path) || bool_decide (txIDOf tx = txid) then [txIDOf tx]
      else flat_map (fun '(mkTxInput _ _ _ source) =>
             match source with Some s => cut txid s | None => [] end) inputs
  end.

(** Every branch reaches the cut. *)
Fixpoint linked (txid : Hash) (tx : Transaction) : bool :=
  match tx with
  | mkTransaction _ path inputs _ =>
      bool_decide (is_Some path) || bool_decide (txIDOf tx = txid) ||
      forallb (fun '(mkTxInput _ _ _ source) =>
        match source with Some s => linked txid s | None => false end) inputs
  end.

(** A transaction is identified by its serialization, which holds neither its proof
    nor the transactions linked to it. *)
Definition identified_by_bytes : Prop := forall t1 t2, txBytes t1 = txBytes t2 -> txIDOf t1 = txIDOf t2.

(** Writing the proof of [txid] into a transaction: it fails, with
    ErrMissingSourceTransaction and nothing else, exactly when a branch of unproven
    ancestors ends before [txid] or a proven transaction; otherwise the transaction
    keeps its serialization, and the proofs it carries are the new one on every
    transaction of the cut.  That includes the proven ancestors other than [txid],
    whose own proofs are lost. *)
Theorem updateInputProofs_spec txid proof tx :
  identified_by_bytes ->
  match updateInputProofs txid proof tx with
  | Ok tx' => linked txid tx = true /\ txBytes tx' = txBytes tx /\
      proofs tx' = map (fun id => (id, proof)) (cut txid tx)
  | Err err => err = ErrMissingSourceTransaction /\ linked txid tx = false
  | Panic => False
  end.
Proof.
  intros Hid. induction tx as [bytes path inputs outputs IH] using Transaction_nested.
  cbn [updateInputProofs linked cut]. set (tx := mkTransaction bytes path inputs outputs).
  assert (Hself : proofs (mkTransaction bytes (Some proof) inputs outputs) = [(txIDOf tx, proof)]).
  { simpl. by rewrite (Hid _ tx). }
  destruct path as [p|]; [by rewrite bool_decide_true by eauto|].
  rewrite (bool_decide_false (is_Some None)) by (by intros [? ?]). simpl.
  case_bool_decide as Etx; [by simpl|]. subst tx. simpl. clear Hself Etx.
  match goal with |- match ?m ≫= _ with _ => _ end => enough (Hgo :
    match m with
    | Ok inputs' => forallb (fun '(mkTxInput _ _ _ source) =>
          match source with Some s => linked txid s | None => false end) inputs = true /\
        flat_map (fun '(mkTxInput _ _ _ source) => match source with Some s => proofs s | None => [] end) inputs' =
        map (fun id => (id, proof)) (flat_map (fun '(mkTxInput _ _ _ source) =>
             match source with Some s => cut txid s | None => [] end) inputs)
    | Err err => err = ErrMissingSourceTransaction /\ forallb (fun '(mkTxInput _ _ _ source) =>
          match source with Some s => linked txid s | None => false end) inputs = false
    | Panic => False
    end); [destruct m as [inputs'|err|]; simpl; tauto|] end.
  induction inputs as [|[o u q [source|]] inputs IHinputs]; simpl; [done| |done].
  apply List.Forall_cons_iff in IH as [Hs IH]. specialize (Hs source eq_refl). specialize (IHinputs IH).
  destruct (updateInputProofs txid proof source) as [source'|err|]; [|by destruct Hs as [-> ->]|done].
  destruct Hs as (-> & _ & Hps). simpl.
  match goal with |- match (?m ≫= _) with _ => _ end => destruct m as [rest|err|]; simpl; [|done..] end.
  destruct IHinputs as [-> Hrest]. by rewrite Hps, Hrest, map_app.
Qed.

(** ** The phases of a new proof *)

(** The consumers of a transaction end: [rank] decreases from a transaction to those
    that consumed its outputs. *)
Definition consumers_end (rank : Hash -> nat) : Prop :=
  forall txid b w outs w' o c, FindOutputsForTransaction txid b w = (Ok outs, w') ->
    o ∈ outs -> c ∈ ConsumedBy o -> (rank (Txid c) < rank txid)%nat.

Definition writing (ev : event) : Prop :=
  match ev with UpdateBeefCall _ | FindConsumersCall _ | UpdateHeightCall _ _ _ _ => True | _ => False end.

Lemma updateMerkleProof_only t rank fuel txid proof output s :
  (t = true -> consumers_end rank /\ (0 < fuel)%nat /\
     forall c, c ∈ ConsumedBy output -> (S (rank (Txid c)) < fuel)%nat) ->
  only t writing (updateMerkleProof fuel txid proof output) s.
Proof.
  revert output s. induction fuel as [|fuel IH]; intros output s Hfuel.
  - destruct t; [|done]. destruct (Hfuel eq_refl) as (_ & ? & _). lia.
  - cbn [updateMerkleProof]. repeat only_step.
    unfold propagateMerkleProofToConsumers. apply only_forEach. intros c s1 Hc.
    apply wp_bind, wp_invoke. intros r w Ef. set (s2 := mkSt _ _).
    assert (He : emits writing s1 s2) by (exists [FindConsumersCall (Txid c)]; split; [done|by repeat constructor]).
    destruct r as [outs|err|]; [|done..].
    eapply wp_mono; [|intros r s3 Hs3; eapply emits_trans; [exact He|exact Hs3]].
    apply only_forEach. intros o s3 Ho. case_match; [apply only_ret|].
    apply only_bind; [|intros; apply only_ret]. apply IH. intros Ht.
    destruct (Hfuel Ht) as (Hend & _ & Hr). split; [done|].
    assert (Hc' : c ∈ ConsumedBy output) by done. specialize (Hr c Hc'). split; [lia|].
    intros c' Hc''. specialize (Hend _ _ _ _ _ _ _ Ef Ho Hc''). lia.
Qed.

(** What the block information of an output can be afterwards. *)
Definition located (txid : Hash) (proof : MerklePath) (idx : Z) (o : Outpoint) (height0 idx0 height i : Z) : Prop :=
  (height = height0 /\ i = idx0) \/ (height = pathHeight proof /\ (Txid o = txid -> i = idx)).

Lemma updateMerkleProof_located fuel txid proof output s :
  wp false (updateMerkleProof fuel txid proof output) s (fun r _ => forall o', r = Ok o' ->
    o' = output \/ o' = updateOutputBlockInfo output proof).
Proof.
  destruct fuel as [|fuel]; [done|]. cbn [updateMerkleProof]. repeat (case_match; [|by apply wp_lift]).
  apply wp_bind, wp_lift. destruct (isMerkleRootUnchanged _ _ _) as [[]|err|]; [|
    |done..]; [apply wp_ret; intros ? [= <-]; by left|].
  apply wp_bind, wp_lift. destruct (updateInputProofs _ _ _) as [tx|err|]; [|done..].
  apply wp_bind, wp_lift. destruct (rebuildBeefFromTx tx) as [beef|err|]; [|done..].
  apply wp_bind. eapply wp_mono; [apply wp_any|]. intros [[]|err|] s1 _; [|done..].
  apply wp_bind. eapply wp_mono; [apply wp_any|]. intros [[]|err|] s2 _; [|done..].
  apply wp_ret. intros ? [= <-]. by right.
Qed.

Lemma updateOutputs_wp t rank fuel txid proof outputs idx s :
  (t = true -> consumers_end rank /\ (rank txid < fuel)%nat /\
     forall o c, o ∈ outputs -> c ∈ ConsumedBy o -> (rank (Txid c) < rank txid)%nat) ->
  findBlockIdx proof txid = Some idx ->
  wp t (updateOutputs fuel txid proof outputs) s (fun r s' => exists writes,
    trace s' = trace s ++ writes /\ Forall writing writes /\
    (is_ok r = true -> forall o, o ∈ outputs -> exists h i,
       UpdateHeightCall (oOutpoint o) (oTopic o) h i ∈ writes /\
       located txid proof idx (oOutpoint o) (oBlockHeight o) (oBlockIdx o) h i)).
Proof.
  intros Hfuel Hidx. revert s Hfuel. unfold updateOutputs.
  induction outputs as [|o outputs IH]; intros s Hfuel; cbn [forEach].
  { apply wp_ret. exists []. rewrite app_nil_r. split_and!; [done|constructor|]. intros _ o Ho. by apply not_elem_of_nil in Ho. }
  apply wp_bind, wp_bind. eapply wp_mono.
  { eapply wp_and; [apply (updateMerkleProof_only t rank)|apply updateMerkleProof_located].
    intros Ht. destruct (Hfuel Ht) as (? & ? & Hr). split_and!; [done|lia|].
    intros c Hc. specialize (Hr o c ltac:(by left) Hc). lia. }
  intros r s1 [(w1 & E1 & F1) Hloc]. destruct r as [o'|err|]; [|by exists w1..].
  apply wp_invoke. intros r w Ew. set (s2 := mkSt _ _).
  set (ev := UpdateHeightCall _ _ _ _) in *.
  assert (E2 : trace s2 = trace s ++ (w1 ++ [ev])) by (subst s2; simpl; by rewrite E1, app_assoc).
  assert (F2 : Forall writing (w1 ++ [ev])) by (apply Forall_app; split; [done|by repeat constructor]).
  destruct r as [[]|err|]; [|by eexists..].
  eapply wp_mono.
  { apply IH. intros Ht. destruct (Hfuel Ht) as (? & ? & Hr). split_and!; [done..|].
    intros o2 c Ho2. apply Hr. by right. }
  intros r s3 (w3 & E3 & F3 & Hr). exists (w1 ++ [ev] ++ w3). rewrite E3, E2, !app_assoc.
  split_and!; [done|by apply Forall_app|]. intros Hok o2 [->|Ho2]%elem_of_cons.
  - exists (oBlockHeight o'), (oBlockIdx o'). split.
    + rewrite !elem_of_app. left. right. apply list_elem_of_singleton.
      subst ev. by destruct (Hloc o' eq_refl) as [->| ->].
    + destruct (Hloc o' eq_refl) as [->| ->]; [by left|]. right. simpl. split; [done|].
      intros ->. unfold findBlockIdx in Hidx. by rewrite Hidx.
  - destruct (Hr Hok o2 Ho2) as (h & i & Hin & ?). exists h, i. split; [|done]. rewrite !elem_of_app. by right.
Qed.

(** The calls [tr] of a proof of [txid] that ends in [r].  The chain tracker is asked
    first; then the outputs are found; then, if there are any and the transaction is
    in the first level of the path, they and their consumers are written; and the
    lookup services are told last. *)
Definition proof_phases (txid : Hash) (proof : MerklePath) (tr : list event) (r : result unit) : Prop :=
  match ComputeRoot proof txid with
  | Ok root =>
      (exists v, v <> Ok true /\ tr = [RootCall root (pathHeight proof) v] /\ is_ok r = false) \/
      exists found rest, tr = RootCall root (pathHeight proof) (Ok true) :: FindTxCall txid found :: rest /\
        match found with
        | Ok [] => rest = [] /\ r = Ok tt
        | Ok outputs =>
            match findBlockIdx proof txid with
            | None => rest = [] /\ r = Err ErrTxNotInProof
            | Some idx => exists writes notes, rest = writes ++ notes /\ Forall writing writes /\
                Forall (fun ev => exists l, ev = HeightUpdatedCall l txid (pathHeight proof) idx) notes /\
                (notes <> [] \/ is_ok r = true -> forall o topic h0 i0, (o, topic, h0, i0) ∈ outputs ->
                   exists h i, UpdateHeightCall o topic h i ∈ writes /\ located txid proof idx o h0 i0 h i) /\
                (is_ok r = true -> forall l, is_Some (lookupServices e !! l) ->
                   HeightUpdatedCall l txid (pathHeight proof) idx ∈ notes)
            end
        | _ => rest = [] /\ is_ok r = false
        end
  | _ => tr = [] /\ is_ok r = false
  end.

Lemma announce_wp t txid height idx services (s : St) :
  wp t (forEach (fun l => invoke (OutputBlockHeightUpdated l txid height idx) (HeightUpdatedCall l txid height idx))
          services) s (fun r s' => exists notes, trace s' = trace s ++ notes /\
    Forall (fun ev => exists l, ev = HeightUpdatedCall l txid height idx) notes /\
    (is_ok r = true -> forall l, l ∈ services -> HeightUpdatedCall l txid height idx ∈ notes)).
Proof.
  revert s. induction services as [|l services IH]; intros s; cbn [forEach].
  { apply wp_ret. exists []. rewrite app_nil_r. split_and!; [done|constructor|]. intros _ l Hl. by apply not_elem_of_nil in Hl. }
  apply wp_bind, wp_invoke. intros r w _.
  destruct r as [[]|err|]; [|eexists; split_and!; [done|repeat constructor; by eexists|done]..].
  eapply wp_mono; [apply IH|]. intros r s1 (notes & E & F & Hr). simpl in E.
  exists (HeightUpdatedCall l txid height idx :: notes). rewrite E, <- app_assoc.
  split_and!; [done|constructor; [by eexists|done]|]. intros Hok l' [->|Hl']%elem_of_cons; [by left|right; by apply Hr].
Qed.

Lemma HandleNewMerkleProof_wp rank fuel txid proof w :
  consumers_end rank -> (rank txid < fuel)%nat ->
  wp true (HandleNewMerkleProof fuel txid proof) (mkSt w []) (fun r s' => proof_phases txid proof (trace s') r).
Proof.
  intros Hend Hfuel.
  unfold HandleNewMerkleProof, validateMerkleProof, proof_phases. apply wp_bind, wp_bind, wp_lift.
  destruct (ComputeRoot proof txid) as [root|err|]; [|done..].
  apply wp_bind, wp_observe. intros v w1 _. destruct v as [[]|err|]; [|apply wp_lift|..];
    [|left; eexists; (split; [|split; [reflexivity|done]]); done..].
  apply wp_ret, wp_bind, wp_observe. intros found w2 Ef. simpl in Ef.
  destruct found as [outputs|err|]; [|right; eexists _, []; (split; [reflexivity|done])..].
  case_bool_decide as Eo; [subst outputs; apply wp_ret; right; eexists _, []; (split; [reflexivity|done])|].
  destruct outputs as [|o1 outputs]; [done|]. clear Eo. set (all := o1 :: outputs) in *.
  destruct (findBlockIdx proof txid) as [idx|] eqn:Eidx; [|apply wp_lift; right; eexists _, []; (split; [reflexivity|done])].
  apply wp_bind. eapply wp_mono.
  { apply (updateOutputs_wp true rank); [|done]. intros _. split_and!; [done..|]. intros o c Ho Hc.
    exact (Hend _ _ _ _ _ _ _ Ef Ho Hc). }
  intros r s1 (writes & E1 & F1 & Hw). simpl in E1.
  assert (Hall : is_ok r = true -> forall o topic h0 i0, (o, topic, h0, i0) ∈ map blockInfo all ->
    exists h i, UpdateHeightCall o topic h i ∈ writes /\ located txid proof idx o h0 i0 h i).
  { intros Hok o topic h0 i0 (o' & [= -> -> -> ->] & Ho')%list_elem_of_fmap. by apply Hw. }
  destruct r as [[]|err|]; [|right; eexists _, _; split; [exact E1|]; exists writes, [];
    (split_and!; [by rewrite app_nil_r|done|constructor|by intros [[]|?]|done])..].
  apply wp_bind, wp_rangeMap. intros l Hl. eapply wp_mono; [apply announce_wp|].
  intros r s2 (notes & E2 & F2 & Hn). right. eexists _, _. rewrite E2, E1. split; [done|].
  exists writes, notes. split_and!; [done..| |].
  - intros _. by apply Hall.
  - intros Hok u [x Hu]. apply (Hn Hok). rewrite Hl. apply list_elem_of_fmap. exists (u, x). split; [done|].
    by apply elem_of_map_to_list.
Qed.

(** C16.  The life of a new Merkle proof.  Handling it terminates, and its calls come in
    phases: nothing is read or written unless the chain tracker confirms the root that
    the path computes for the transaction at the height of the path; nothing is
    written unless the transaction is in the path; the lookup services are told only
    once every output of the transaction has been given its block height and index,
    and when all succeeds every service has been told, with the index of the
    transaction in the path. *)
Theorem new_proof_phases rank fuel txid proof w :
  consumers_end rank -> (rank txid < fuel)%nat ->
  exists r s', HandleNewMerkleProof fuel txid proof (mkSt w []) = Some (r, s') /\
    proof_phases txid proof (trace s') r.
Proof. intros Hend Hfuel. by apply wp_returns, (HandleNewMerkleProof_wp rank). Qed.

End MerkleProof.

(** ** Three transactions

    [C] spends the mined transaction [A] and the unmined transaction [B]; the proof of
    [B] arrives. *)

Module Example.
Import EngineModel.

Definition A : Hash := nameOf [Byte.x01].
Definition B : Hash := nameOf [Byte.x02].

Definition proofA : MerklePath := mkPath 6 [mkElement (Some A) 1] [].
Definition proofB : MerklePath := mkPath 7 [mkElement None 4; mkElement (Some B) 5] [].

Definition txA : Transaction := mkTransaction [Byte.x01] (Some proofA) [] [].
Definition txB : Transaction := mkTransaction [Byte.x02] None [] [].
Definition txC : Transaction :=
  mkTransaction [Byte.x03; Byte.x01; Byte.x02] None
    [mkTxInput (mkOutpoint A 0) [] 0 (Some txA); mkTxInput (mkOutpoint B 0) [] 0 (Some txB)] [].

Definition oB : Outpoint := mkOutpoint B 0.
Definition oC : Outpoint := mkOutpoint (nameOf [Byte.x03]) 0.

Definition output (o : Outpoint) (consumedBy : list Outpoint) (tx : Transaction) : EngineOutput Transaction :=
  mkEngineOutput o (str "tm") false [] consumedBy 0 0 0 (Some tx) [] MerkleStateUnmined None.

Definition content : Store Transaction := {[ oB := output oB [oC] txB; oC := output oC [] txC ]}.

#[local] Instance stored : EngineStorage unit Transaction := frozen content.

Definition rank (t : Hash) : nat := if bool_decide (t = B) then 1 else 0.

Lemma content_ends : consumers_end (W := unit) (Beef := Transaction) rank.
Proof.
  intros txid b w outs w' o c Ef Ho Hc.
  destruct (frozen_outputs content txid b w outs w' o Ef Ho) as [<- [k Hk]]. unfold content in Hk.
  apply lookup_insert_Some in Hk as [[_ <-]|[_ [_ <-]%lookup_singleton_Some]].
  - change (c ∈ [oC]) in Hc. apply list_elem_of_singleton in Hc. subst c. vm_compute. lia.
  - change (c ∈ []) in Hc. inversion Hc.
Qed.

Definition handle := HandleNewMerkleProof (W := unit) (Beef := Transaction) config 2 B proofB (mkSt tt []).

Lemma new_proof_phases_witness :
  exists r s', handle = Some (r, s') /\ proof_phases config B proofB (trace s') r.
Proof.
  apply (new_proof_phases (W := unit) (Beef := Transaction) config rank 2 B proofB tt).
  - exact content_ends.
  - vm_compute. lia.
Defined.

Example handle_trace : (fun '(r, s) => (r, trace s)) <$> handle =
  Some (Ok tt, [RootCall B 7 (Ok true); FindTxCall B (Ok [(oB, str "tm", 0, 0)]);
    UpdateBeefCall B; FindConsumersCall (nameOf [Byte.x03]); UpdateBeefCall (nameOf [Byte.x03]);
    UpdateHeightCall oB (str "tm") 7 5; HeightUpdatedCall (str "ls") B 7 5]).
Proof. vm_compute. reflexivity. Qed.

Lemma updateInputProofs_spec_witness :
  match updateInputProofs B proofB txC with
  | Ok tx' => linked B txC = true /\ txBytes tx' = txBytes txC /\
      proofs tx' = map (fun id => (id, proofB)) (cut B txC)
  | Err err => err = ErrMissingSourceTransaction /\ linked B txC = false
  | Panic => False
  end.
Proof.
  apply (updateInputProofs_spec B proofB txC).
  intros t1 t2 E. unfold txIDOf, treeSDK, treeID. by rewrite E.
Defined.

(** The proof of one ancestor replaces the proof of another.  [C] carries the proof of
    its mined input [A]; once the proof of the other input [B] has been written, [A]
    carries the proof of [B], in which it does not occur, and its own is gone. *)
Theorem ancestor_proof_overwritten :
  proofs txC = [(A, proofA)] /\ findBlockIdx proofB A = None /\
  proofs <$> updateInputProofs B proofB txC = Ok [(A, proofB); (B, proofB)].
Proof. split_and!; vm_compute; reflexivity. Qed.

End Example.

End MerkleProof.
