(* ===== verification/Submit.v ===== *)
(** * pkg/core/engine/engine.go: the submission of a transaction

    [Submit] and everything it calls: validation, admission by the topic managers,
    marking of spent outputs, broadcast, commit, propagation; and, when the storage has
    the admission capability (admission_submit.go), the building and committing of an
    admission plan.  The calls of the components are recorded in a trace.  Logging is
    not modelled. *)

From S2P Require Import Prelude Bytes Runs Traced GaspTypes Admission EngineTypes AdmissionPlan EngineModel.
Import Gasp.
Open Scope Z_scope.

Module Submit.
Section Engine.
Context {W Beef : Type} `{TransactionSDK Beef} `{EngineStorage W Beef} `{TopicManagers W Beef}
  `{LookupServices W} `{Network W} `{MapRange W}.
Context (e : EngineConfig).

Local Abbreviation Output := (EngineOutput Beef).

Inductive event :=
  | VerifyCall (r : result bool)
  | ExistsCall (topic : list byte) (r : result bool)
  | FindOutputsCall (topic : list byte)
  | IdentifyCall (topic : list byte)
  | MarkSpentCall (topic : list byte) (outpoints : list Outpoint)
  | SpentCall (service : list byte) (topic : list byte) (outpoint : Outpoint) (vin : Z)
  | BroadcastCall (r : result unit)
  | SteakReadyCall
  | OnAdmissionCall
  | DeleteCall (topic : list byte) (outpoint : Outpoint)
  | NoLongerRetainedCall (service : list byte) (topic : list byte) (outpoint : Outpoint)
  | FindStaleCall (topic : list byte) (outpoint : Outpoint)
  | UpdateConsumedByCall (topic : list byte) (outpoint : Outpoint) (consumedBy : list Outpoint)
  | InsertCall (topic : list byte) (outputs : list Z) (consumed : list Outpoint)
  | AdmittedCall (service : list byte) (topic : list byte) (vout : Z)
  | AppliedCall (topic : list byte)
  | PropagateCall (topics : list (list byte))
  | PublishCall (ref : Admission.AdmissionPayloadRef) (data : list byte) (r : result unit)
  | FenceCall (topic : list byte) (r : result Admission.HistoryFence)
  | EnsureFenceCall (topic : list byte) (fence : Admission.HistoryFence) (r : result unit)
  | CommitAdmissionCall (plan : AdmissionCommit) (r : result Admission.AdmissionCommitResult).

Local Abbreviation St := (Traced.St W event).
Local Abbreviation Run := (Runs.Run St).

(** [getLookupServicesSnapshot] *)
Definition getLookupServicesSnapshot : Run (list (list byte)) :=
  l ← rangeMap (lookupServices e); mret l.*1.

(** [submitParsedBeefParams]; the BEEF is threaded separately, because the
    pipeline merges into it. *)
Record Params := mkParams {
  pTxid : Hash; pTopics : list (list byte); AtomicBeef : list byte; OffChainValues : list byte;
  pMode : SumbitMode; hasSteakReady : bool }.

Abbreviation Steak := (gmap (list byte) AdmittanceInstructions).
Abbreviation TopicInputs := (gmap (list byte) (gmap Z (EngineOutput Beef))).

(** ** Validation *)

Fixpoint validateTopicsAndGetManagers (topics : list (list byte)) : result unit :=
  match topics with
  | [] => Ok tt
  | t :: topics' =>
      match managers e !! t with
      | None => Err ErrUnknownTopic
      | Some _ => validateTopicsAndGetManagers topics'
      end
  end.

Definition verifyTransaction (tx : Transaction) : Run unit :=
  valid ← observe (Verify tx) VerifyCall;
  if (valid : bool) then mret tt else lift (Err ErrInvalidTransaction).

Definition buildInpoints (tx : Transaction) : list Outpoint := map inputOutpoint (txInputs tx).

(** ** Admission by the topic managers *)

(** The loop of [mergeExistingOutputs] over the outputs found. *)
Fixpoint mergeOutputs (vin : Z) (outputs : list (option Output)) (beef : Beef)
    (previousCoins : list Z) (inputs : gmap Z Output) : result (Beef * list Z * gmap Z Output) :=
  match outputs with
  | [] => Ok (beef, previousCoins, inputs)
  | None :: outputs' => mergeOutputs (vin + 1) outputs' beef previousCoins inputs
  | Some output :: outputs' =>
      beef' ← match oBeef output with Some b => MergeBeef beef b | None => Ok beef end;
      mergeOutputs (vin + 1) outputs' beef' (previousCoins ++ [u32 vin]) (<[u32 vin := output]> inputs)
  end.

Definition mergeExistingOutputs (beef : Beef) (inpoints : list Outpoint) (topic : list byte)
    : Run (Beef * list Z * gmap Z Output) :=
  outputs ← invoke (FindOutputs inpoints topic None true) (FindOutputsCall topic);
  lift (mergeOutputs 0 outputs beef [] ∅).

Fixpoint identifyAdmissibleOutputsPerTopic (p : Params) (inpoints : list Outpoint)
    (topics : list (list byte)) (beef : Beef) (steak : Steak) (topicInputs : TopicInputs)
    (dupeTopics : gset (list byte)) : Run (Beef * Steak * TopicInputs * gset (list byte)) :=
  match topics with
  | [] => mret (beef, steak, topicInputs, dupeTopics)
  | t :: topics' =>
      exists_ ← (if hasAdmission e then mret false
                 else observe (DoesAppliedTransactionExist (pTxid p) t) (ExistsCall t));
      if (exists_ : bool) then
        identifyAdmissibleOutputsPerTopic p inpoints topics' beef (<[t := noAdmittance]> steak)
          topicInputs ({[ t ]} ∪ dupeTopics)
      else
        '(beef, previousCoins, inputs) ← mergeExistingOutputs beef inpoints t;
        instr ← invoke (IdentifyAdmissibleOutputs t beef (pTxid p) previousCoins) (IdentifyCall t);
        identifyAdmissibleOutputsPerTopic p inpoints topics' beef (<[t := instr]> steak)
          (<[t := inputs]> topicInputs) dupeTopics
  end.

(** ** Spent outputs *)

Definition markTopicUTXOsSpent (inputs : gmap Z Output) (topic : list byte) (txid : Hash) : Run unit :=
  if bool_decide (inputs = ∅) then mret tt else
  l ← rangeMap inputs;
  let topicInpoints := map (fun i => oOutpoint i.2) l in
  invoke (MarkUTXOsAsSpent topicInpoints topic txid) (MarkSpentCall topic topicInpoints).

Definition notifySpentOutput (p : Params) (topic : list byte) (tx : Transaction)
    (services : list (list byte)) (i : Z * Output) : Run unit :=
  forEach (fun l =>
    match txInputs tx !! Z.to_nat i.1 with
    | None => lift Panic
    | Some input =>
        invoke (OutputSpent l (oOutpoint i.2) topic (pTxid p) i.1 (UnlockingScript input)
                  (SequenceNumber input) (AtomicBeef p))
          (SpentCall l topic (oOutpoint i.2) i.1)
    end) services.

Definition notifySpentOutputs (p : Params) (inputs : gmap Z Output) (topic : list byte)
    (tx : Transaction) : Run unit :=
  services ← getLookupServicesSnapshot;
  l ← rangeMap inputs;
  forEach (notifySpentOutput p topic tx services) l.

Definition inputsOf (topicInputs : TopicInputs) (t : list byte) : gmap Z Output :=
  default ∅ (topicInputs !! t).

(** [markSpentAndNotify] *)
Definition markSpentAndNotify (p : Params) (dupeTopics : gset (list byte)) (topicInputs : TopicInputs)
    (tx : Transaction) : Run unit :=
  forEach (fun t =>
    if bool_decide (t ∈ dupeTopics) then mret tt else
    markTopicUTXOsSpent (inputsOf topicInputs t) t (pTxid p) ≫= fun _ =>
    notifySpentOutputs p (inputsOf topicInputs t) t tx) (pTopics p).

Definition broadcastIfNeeded (tx : Transaction) (mode : SumbitMode) : Run unit :=
  if isHistorical mode || negb (hasBroadcaster e) then mret tt else observe (Broadcast tx) BroadcastCall.

(** ** Commit *)

(** The loop of [separateRetainedCoins] over the map of inputs: the retained
    outputs in the order of the loop, and the map without them. *)
Fixpoint separateLoop (retainSet : gset Z) (l : list (Z * Output)) (topicInputs : gmap Z Output)
    : list Output * gmap Z Output :=
  match l with
  | [] => ([], topicInputs)
  | (vin, output) :: l' =>
      if bool_decide (vin ∈ retainSet) then
        let '(consumed, rest) := separateLoop retainSet l' (delete vin topicInputs) in
        (output :: consumed, rest)
      else separateLoop retainSet l' topicInputs
  end.

Definition separateRetainedCoins (topicInputs : gmap Z Output) (coinsToRetain : list Z)
    : Run (list Output * list Outpoint * gmap Z Output) :=
  if bool_decide (topicInputs = ∅) || bool_decide (coinsToRetain = []) then mret ([], [], topicInputs)
  else
    l ← rangeMap topicInputs;
    let '(consumed, rest) := separateLoop (list_to_set coinsToRetain) l topicInputs in
    mret (consumed, map oOutpoint consumed, rest).

(** [deleteUTXODeep] *)
Fixpoint deleteUTXODeep (fuel : nat) (output : Output) : Run unit :=
  match fuel with
  | O => exhausted
  | S fuel' =>
      (if bool_decide (ConsumedBy output = []) then
         invoke (DeleteOutput (oOutpoint output) (oTopic output)) (DeleteCall (oTopic output) (oOutpoint output)) ≫= fun _ =>
         services ← getLookupServicesSnapshot;
         forEach (fun l =>
           invoke (OutputNoLongerRetainedInHistory l (oOutpoint output) (oTopic output))
             (NoLongerRetainedCall l (oTopic output) (oOutpoint output))) services
       else mret tt) ≫= fun _ =>
      forEach (fun outpoint =>
        stale ← invoke (FindOutput outpoint (Some (oTopic output)) None false)
                  (FindStaleCall (oTopic output) outpoint);
        match stale with
        | None => mret tt
        | Some staleOutput =>
            let consumedBy := filter (fun o => o <> oOutpoint output) (ConsumedBy staleOutput) in
            let staleOutput' := if bool_decide (ConsumedBy staleOutput = []) then staleOutput
                                else setConsumedBy staleOutput consumedBy in
            (if bool_decide (ConsumedBy staleOutput = []) then mret tt
             else invoke (UpdateConsumedBy (oOutpoint staleOutput) (oTopic staleOutput) consumedBy)
                    (UpdateConsumedByCall (oTopic staleOutput) (oOutpoint staleOutput) consumedBy)) ≫= fun _ =>
            deleteUTXODeep fuel' staleOutput'
        end) (OutputsConsumed output)
  end.

(** [notifyAdmittedOutputs] *)
Definition notifyAdmittedOutputs (p : Params) (topic : list byte) (outputsToAdmit : list Z)
    : Run (list Outpoint) :=
  services ← getLookupServicesSnapshot;
  forEach (fun vout =>
    forEach (fun l =>
      invoke (OutputAdmittedByTopic l topic vout (AtomicBeef p) (OffChainValues p)) (AdmittedCall l topic vout))
      services) outputsToAdmit ≫= fun _ =>
  mret (map (mkOutpoint (pTxid p)) outputsToAdmit).

(** [updateConsumedByReferences] *)
Definition updateConsumedByReferences (outputsConsumed : list Output) (newOutpoints : list Outpoint) : Run unit :=
  forEach (fun output =>
    let consumedBy := ConsumedBy output ++ newOutpoints in
    invoke (UpdateConsumedBy (oOutpoint output) (oTopic output) consumedBy)
      (UpdateConsumedByCall (oTopic output) (oOutpoint output) consumedBy)) outputsConsumed.

(** The loop of [commitTopicOutputs] over the inputs that are not retained. *)
Fixpoint deleteInputs (fuel : nat) (l : list (Z * Output)) (instr : AdmittanceInstructions)
    : Run AdmittanceInstructions :=
  match l with
  | [] => mret instr
  | (vin, output) :: l' =>
      deleteUTXODeep fuel output ≫= fun _ =>
      deleteInputs fuel l' (mkAdmit (OutputsToAdmit instr) (CoinsToRetain instr)
                              (CoinsRemoved instr ++ [vin]) (admitAncillary instr))
  end.

(** [commitTopicOutputs]: the instructions with the coins removed, and the inputs
    that are left in the map. *)
Definition commitTopicOutputs (fuel : nat) (topic : list byte) (p : Params) (beef : Beef)
    (instr : AdmittanceInstructions) (inputs : gmap Z Output)
    : Run (AdmittanceInstructions * gmap Z Output) :=
  '(outputsConsumed, outpointsConsumed, inputs) ← separateRetainedCoins inputs (elements (CoinsToRetain instr));
  l ← rangeMap inputs;
  instr ← deleteInputs fuel l instr;
  let outputsToAdmit := elements (OutputsToAdmit instr) in
  invoke (InsertOutputs topic (pTxid p) outputsToAdmit outpointsConsumed beef (admitAncillary instr))
    (InsertCall topic outputsToAdmit outpointsConsumed) ≫= fun _ =>
  newOutpoints ← notifyAdmittedOutputs p topic outputsToAdmit;
  updateConsumedByReferences outputsConsumed newOutpoints ≫= fun _ =>
  invoke (InsertAppliedTransaction (pTxid p) topic) (AppliedCall topic) ≫= fun _ =>
  mret (instr, inputs).

(** [commitAdmittedOutputs] *)
Fixpoint commitAdmittedOutputs (fuel : nat) (p : Params) (topics : list (list byte)) (beef : Beef)
    (steak : Steak) (topicInputs : TopicInputs) (dupeTopics : gset (list byte)) : Run Steak :=
  match topics with
  | [] => mret steak
  | t :: topics' =>
      if bool_decide (t ∈ dupeTopics) then
        commitAdmittedOutputs fuel p topics' beef steak topicInputs dupeTopics
      else match steak !! t with
      | None => lift Panic
      | Some instr =>
          '(instr, inputs) ← commitTopicOutputs fuel t p beef instr (inputsOf topicInputs t);
          commitAdmittedOutputs fuel p topics' beef (<[t := instr]> steak) (<[t := inputs]> topicInputs) dupeTopics
      end
  end.

(** [propagateToNetwork] *)
Definition propagateToNetwork (p : Params) (tx : Transaction) (steak : Steak)
    (dupeTopics : gset (list byte)) : Run unit :=
  if negb (hasAdvertiser e) || isHistorical (pMode p) then mret tt else
  l ← rangeMap steak;
  let relevantTopics := (filter (fun ts =>
    ~ (OutputsToAdmit ts.2 = None /\ CoinsToRetain ts.2 = None) /\ (ts.1 ∉ dupeTopics)) l).*1 in
  if bool_decide (relevantTopics = []) then mret tt
  else dropError (invoke (Propagate relevantTopics tx) (PropagateCall relevantTopics)).

(** ** Admission plans (admission_submit.go) *)

Context `{AdmissionHost W}.

(** [publishBytes] *)
Definition publishBytes (data : list byte) (kind : Admission.AdmissionPayloadKind) : Run Admission.AdmissionPayloadRef :=
  let ref := AdmissionPlan.payloadRef data kind in
  observe (PublishPayload ref data) (PublishCall ref data) ≫= fun _ => mret ref.

(** The loops of [publishAdmissionPayloads] over the outputs admitted to the topics. *)
Fixpoint publishScripts (tx : Transaction) (vouts : list Z) (payloads : list Admission.AdmissionPayloadRef)
    (scripts : gmap Z Admission.AdmissionPayloadRef) : Run (list Admission.AdmissionPayloadRef * gmap Z Admission.AdmissionPayloadRef) :=
  match vouts with
  | [] => mret (payloads, scripts)
  | vout :: vouts' =>
      match AdmissionPlan.outputAt tx vout ≫= snd with
      | None => publishScripts tx vouts' payloads scripts
      | Some lockingScript =>
          match scripts !! vout with
          | Some _ => publishScripts tx vouts' payloads scripts
          | None =>
              scriptRef ← publishBytes lockingScript Admission.AdmissionPayloadLockingScript;
              publishScripts tx vouts' (payloads ++ [scriptRef]) (<[vout := scriptRef]> scripts)
          end
      end
  end.

Definition publishAdmissionPayloads (p : Params) (tx : Transaction) (steak : Steak)
    : Run (list Admission.AdmissionPayloadRef * AdmissionPlan.admissionPayloads) :=
  raw ← publishBytes (txBytes tx) Admission.AdmissionPayloadRawTransaction;
  l ← rangeMap steak;
  '(payloads, scripts) ← publishScripts tx (flat_map (fun ti => elements (OutputsToAdmit ti.2)) l) [raw] ∅;
  payloads ← (if bool_decide (AtomicBeef p = []) then mret payloads
              else beefRef ← publishBytes (AtomicBeef p) Admission.AdmissionPayloadBEEFManifest; mret (payloads ++ [beefRef]));
  mret (payloads, AdmissionPlan.mkPayloads raw scripts).

Definition buildTopicDecision (p : Params) (tx : Transaction) (topic : list byte) (instr : AdmittanceInstructions)
    (inputs : gmap Z Output) (payloads : AdmissionPlan.admissionPayloads) : Run Admission.AdmissionTopicDecision :=
  fence ← observe (CurrentHistoryFence topic) (FenceCall topic);
  observe (EnsureHistoryFence topic fence) (EnsureFenceCall topic fence) ≫= fun _ =>
  let txid := AdmissionPlan.hexID (pTxid p) in
  let outputs := AdmissionPlan.admissionOutputs tx txid instr payloads in
  '(_, consumed, _) ← separateRetainedCoins inputs (elements (CoinsToRetain instr));
  spent ← rangeMap inputs;
  mret (Admission.mkDecision topic fence [] (AdmissionPlan.admissionSpends spent txid) [] outputs
          (AdmissionPlan.admissionEdges consumed outputs) (Admission.mkApplied txid None None None) None).

(** The loop of [buildAdmissionPlan] over the topics. *)
Fixpoint buildDecisions (p : Params) (tx : Transaction) (topics : list (list byte)) (steak : Steak) (topicInputs : TopicInputs)
    (payloads : AdmissionPlan.admissionPayloads) : Run (list Admission.AdmissionTopicDecision) :=
  match topics with
  | [] => mret []
  | t :: topics' =>
      decision ← buildTopicDecision p tx t (default noAdmittance (steak !! t)) (inputsOf topicInputs t) payloads;
      decisions ← buildDecisions p tx topics' steak topicInputs payloads;
      mret (decision :: decisions)
  end.

Definition admissionMode (mode : SumbitMode) : Admission.AdmissionMode :=
  if isHistorical mode then Admission.AdmissionModeHistorical else Admission.AdmissionModeLive.

Definition identityTopics (p : Params) : list (list byte) := Admission.dedupe ∅ (pTopics p).

Definition admissionIdentity (scope : Admission.StorageScope) (p : Params) : Admission.AdmissionIdentity :=
  Admission.mkIdentity scope (AdmissionPlan.hexID (pTxid p)) (admissionMode (pMode p)) (Admission.contextDigest (OffChainValues p))
    (map (fun t => Admission.mkTopic t t) (identityTopics p)).

Definition operationID (p : Params) : list byte :=
  Admission.admissionOperationID (admissionMode (pMode p)) (AdmissionPlan.hexID (pTxid p)) (identityTopics p).

Definition admissionOutbox (p : Params) (raw : Admission.AdmissionPayloadRef) (lookupNames : list (list byte)) : list Admission.AdmissionOutboxIntent :=
  (if isHistorical (pMode p) then []
   else [Admission.mkIntent (operationID p ++ str ":propagate") Admission.AdmissionOutboxPropagation (str "overlay-network") [raw]]) ++
  map (fun name => Admission.mkIntent (operationID p ++ str ":lookup:" ++ name) Admission.AdmissionOutboxLookup name [raw]) lookupNames.

(** [host.Scope()] *)
Definition getScope : Run Admission.StorageScope := fun s => Some (Ok (hostScope (world s)), s).

Definition buildAdmissionPlan (p : Params) (tx : Transaction) (steak : Steak) (topicInputs : TopicInputs) : Run AdmissionCommit :=
  scope ← getScope;
  let identity := admissionIdentity scope p in
  digest ← lift (Admission.AdmissionSemanticDigest identity);
  '(payloads, payloadIndex) ← publishAdmissionPayloads p tx steak;
  decisions ← buildDecisions p tx (identityTopics p) steak topicInputs payloadIndex;
  lookupNames ← getLookupServicesSnapshot;
  mret (mkAdmissionCommit (Admission.mkKey scope (operationID p) digest) identity payloads decisions
          (admissionOutbox p (AdmissionPlan.raw payloadIndex) lookupNames) (AdmissionPlan.encodeSteakJSON steak)).

(** [submitWithAdmission] *)
Definition submitWithAdmission (p : Params) (tx : Transaction) (steak : Steak) (topicInputs : TopicInputs) : Run Steak :=
  if negb hostMethods then lift (Err ErrAdmissionUnsupported) else
  broadcastIfNeeded tx (pMode p) ≫= fun _ =>
  plan ← buildAdmissionPlan p tx steak topicInputs;
  res ← observe (CommitAdmission plan) (CommitAdmissionCall plan);
  match Admission.State res with
  | Admission.AdmissionCommitStateCommitted =>
      match Admission.Receipt res with
      | None => lift (Err ErrAdmissionRejected)
      | Some saved =>
          committed ← lift (AdmissionPlan.parseSavedSteak (Admission.Steak saved));
          (if hasSteakReady p then emit SteakReadyCall else mret tt) ≫= fun _ =>
          (if negb (isHistorical (pMode p)) && hasOnAdmission e then emit OnAdmissionCall else mret tt) ≫= fun _ =>
          mret committed
      end
  | Admission.AdmissionCommitStateRejected | Admission.AdmissionCommitStateAborted => lift (Err ErrAdmissionRejected)
  | Admission.AdmissionCommitStatePending | Admission.AdmissionCommitStateOther => lift (Err ErrAdmissionPending)
  end.

(** [submitParsedBeefInternal] *)
Definition submitParsedBeefInternal (fuel : nat) (p : Params) (beef : Beef) : Run Steak :=
  lift (validateTopicsAndGetManagers (pTopics p)) ≫= fun _ =>
  match FindTransactionForSigningByHash beef (pTxid p) with
  | None => lift (Err ErrInvalidBeef)
  | Some tx =>
      verifyTransaction tx ≫= fun _ =>
      '(beef, steak, topicInputs, dupeTopics) ←
        identifyAdmissibleOutputsPerTopic p (buildInpoints tx) (pTopics p) beef ∅ ∅ ∅;
      if hasAdmission e then submitWithAdmission p tx steak topicInputs else
      markSpentAndNotify p dupeTopics topicInputs tx ≫= fun _ =>
      broadcastIfNeeded tx (pMode p) ≫= fun _ =>
      (if hasSteakReady p then emit SteakReadyCall else mret tt) ≫= fun _ =>
      (if negb (isHistorical (pMode p)) && hasOnAdmission e then emit OnAdmissionCall else mret tt) ≫= fun _ =>
      steak ← commitAdmittedOutputs fuel p (pTopics p) beef steak topicInputs dupeTopics;
      propagateToNetwork p tx steak dupeTopics ≫= fun _ =>
      mret steak
  end.

(** [Submit] *)
Definition Submit (fuel : nat) (topics : list (list byte)) (beefBytes offChainValues : list byte)
    (mode : SumbitMode) (steakReady : bool) : Run Steak :=
  '(beef, tx, txid) ← lift (ParseBeef beefBytes);
  match tx, txid with
  | None, _ => lift (Err ErrInvalidBeef)
  | Some _, None => lift (validateTopicsAndGetManagers topics) ≫= fun _ => lift Panic
  | Some _, Some txid =>
      submitParsedBeefInternal fuel (mkParams txid topics beefBytes offChainValues mode steakReady) beef
  end.

(** ** The kinds of calls *)

Lemma only_snapshot t P s : only t P getLookupServicesSnapshot s.
Proof. apply only_bind; [apply only_rangeMap|intros; apply only_ret]. Qed.

Definition reading (ev : event) : Prop :=
  match ev with VerifyCall _ | ExistsCall _ _ | FindOutputsCall _ | IdentifyCall _ => True | _ => False end.

(** Spending calls, for the topics of [ok]. *)
Definition marking (ok : list byte -> Prop) (ev : event) : Prop :=
  match ev with MarkSpentCall t _ | SpentCall _ t _ _ => ok t | _ => False end.

Definition hosting (ev : event) : Prop :=
  match ev with BroadcastCall _ | SteakReadyCall | OnAdmissionCall => True | _ => False end.

Definition committing (ok : list byte -> Prop) (ev : event) : Prop :=
  match ev with
  | DeleteCall _ _ | NoLongerRetainedCall _ _ _ | FindStaleCall _ _ | UpdateConsumedByCall _ _ _ => True
  | InsertCall t _ _ | AdmittedCall _ t _ | AppliedCall t => ok t
  | _ => False
  end.

Definition propagating (ev : event) : Prop :=
  match ev with PropagateCall _ => True | _ => False end.

Ltac only_tac := repeat first [only_step | apply only_snapshot].

Lemma markSpentAndNotify_only t p dupes inputs tx s :
  only t (marking (fun t => t ∈ pTopics p /\ (t ∉ dupes))) (markSpentAndNotify p dupes inputs tx) s.
Proof.
  unfold markSpentAndNotify, markTopicUTXOsSpent, notifySpentOutputs, notifySpentOutput.
  apply only_forEach. intros topic s' Hin. case_bool_decide; [apply only_ret|].
  only_tac; by apply only_invoke.
Qed.

Lemma broadcastIfNeeded_only t tx mode s : only t hosting (broadcastIfNeeded tx mode) s.
Proof. unfold broadcastIfNeeded. only_tac. Qed.

(** The history of an output ends: [rank] decreases from an output to the outputs
    that it consumed. *)
Definition ranked (rank : Outpoint -> nat) (o : Output) : Prop :=
  forall c, c ∈ OutputsConsumed o -> (rank c < rank (oOutpoint o))%nat.

Definition history_ends (rank : Outpoint -> nat) : Prop :=
  (forall o topic spent beef w out w',
     FindOutput o topic spent beef w = (Ok (Some out), w') -> oOutpoint out = o /\ ranked rank out) /\
  (forall os topic spent beef w outs w' out,
     FindOutputs os topic spent beef w = (Ok outs, w') -> Some out ∈ outs -> ranked rank out).

Lemma deleteUTXODeep_only t rank fuel output ok s :
  (t = true -> history_ends rank /\ (0 < fuel)%nat /\
     forall c, c ∈ OutputsConsumed output -> (S (rank c) < fuel)%nat) ->
  only t (committing ok) (deleteUTXODeep fuel output) s.
Proof.
  revert output s. induction fuel as [|fuel IH]; intros output s Hfuel.
  - destruct t; [|done]. destruct (Hfuel eq_refl) as (_ & ? & _). lia.
  - cbn [deleteUTXODeep]. apply only_bind; [only_tac|]. intros ? s1.
    apply only_forEach. intros c s2 Hc. apply wp_bind, wp_invoke. intros r w Ef.
    assert (He : emits (committing ok) s2 (mkSt w (trace s2 ++ [FindStaleCall (oTopic output) c]))).
    { exists [FindStaleCall (oTopic output) c]. split; [done|]. by repeat constructor. }
    destruct r as [[stale|]|e'|]; [|done..]. cbv zeta.
    eapply wp_mono; [|intros r s3 Hs3; eapply emits_trans; [exact He|exact Hs3]].
    apply only_bind; [only_tac|]. intros ? s3. apply IH. intros ->.
    destruct (Hfuel eq_refl) as (Hh & _ & Hr). split; [done|].
    specialize (Hr c Hc). split; [lia|]. intros c' Hc'. destruct Hh as [Hh _].
    destruct (Hh _ _ _ _ _ _ _ Ef) as [Eo Hrk].
    assert (Hc'' : c' ∈ OutputsConsumed stale) by (by revert Hc'; case_bool_decide).
    specialize (Hrk c' Hc''). rewrite Eo in Hrk. lia.
Qed.

Lemma deleteInputs_only t rank fuel l instr ok s :
  (t = true -> history_ends rank /\ (forall o, S (rank o) < fuel)%nat) ->
  only t (committing ok) (deleteInputs fuel l instr) s.
Proof.
  intros Hfuel. revert instr s. induction l as [|[vin output] l IH]; intros instr s; [apply only_ret|].
  cbn [deleteInputs]. apply only_bind; [|intros; apply IH].
  apply (deleteUTXODeep_only t rank). intros Ht. destruct (Hfuel Ht) as [? Hr].
  split_and!; [done|specialize (Hr (oOutpoint output)); lia|auto].
Qed.

Lemma separateRetainedCoins_only t inputs coins P s : only t P (separateRetainedCoins inputs coins) s.
Proof. unfold separateRetainedCoins. only_tac. Qed.

Lemma commitTopicOutputs_only t rank fuel topic p beef instr inputs (ok : list byte -> Prop) s :
  (t = true -> history_ends rank /\ (forall o, S (rank o) < fuel)%nat) -> ok topic ->
  only t (committing ok) (commitTopicOutputs fuel topic p beef instr inputs) s.
Proof.
  intros Hfuel Hok. unfold commitTopicOutputs. apply only_bind; [apply separateRetainedCoins_only|].
  intros [[consumed outpoints] rest] s1. apply only_bind; [apply only_rangeMap|]. intros l s2.
  apply only_bind; [by apply (deleteInputs_only t rank)|]. intros instr' s3.
  apply only_bind; [by apply only_invoke|]. intros ? s4.
  unfold notifyAdmittedOutputs, updateConsumedByReferences.
  only_tac; by apply only_invoke.
Qed.

Lemma commitAdmittedOutputs_only t rank fuel p topics beef steak inputs dupes (ok : list byte -> Prop) s :
  (t = true -> history_ends rank /\ (forall o, S (rank o) < fuel)%nat) ->
  (forall t, t ∈ topics -> (t ∉ dupes) -> ok t) ->
  only t (committing ok) (commitAdmittedOutputs fuel p topics beef steak inputs dupes) s.
Proof.
  intros Hfuel. revert steak inputs s. induction topics as [|topic topics IH]; intros steak inputs s Hok;
    cbn [commitAdmittedOutputs]; [apply only_ret|].
  case_bool_decide; [apply IH; set_solver|]. destruct (steak !! topic) as [instr|]; [|apply only_lift].
  apply only_bind; [apply (commitTopicOutputs_only t rank); [done|set_solver]|].
  intros [instr' rest] s'. apply IH. set_solver.
Qed.

Lemma propagateToNetwork_only t p tx steak dupes s :
  only t propagating (propagateToNetwork p tx steak dupes) s.
Proof.
  unfold propagateToNetwork. case_match; [apply only_ret|]. apply only_bind; [apply only_rangeMap|].
  intros l s'. case_match; [apply only_ret|]. apply only_dropError. by apply only_invoke.
Qed.

(** ** The reading phase *)

(** The topics to which the transaction was already applied. *)
Definition applied (tr : list event) (t : list byte) : Prop := ExistsCall t (Ok true) ∈ tr.

Definition identified (dupes : gset (list byte)) (s : St)
    (r : result (Beef * Steak * TopicInputs * gset (list byte))) (s' : St) : Prop :=
  exists tr, trace s' = trace s ++ tr /\ Forall reading tr /\
    forall beef steak inputs dupes', r = Ok (beef, steak, inputs, dupes') ->
      forall t, t ∈ dupes' <-> t ∈ dupes \/ applied tr t.

Lemma identified_step (dupes dupes1 : gset (list byte)) (s s1 : St) (tr : list event) r (s' : St) :
  trace s1 = trace s ++ tr -> Forall reading tr ->
  (forall t, t ∈ dupes1 <-> t ∈ dupes \/ applied tr t) ->
  identified dupes1 s1 r s' -> identified dupes s r s'.
Proof.
  intros E F Hd (tr' & E' & F' & Hr). exists (tr ++ tr'). rewrite E', E, app_assoc.
  split_and!; [done|by apply Forall_app|]. intros beef steak inputs dupes' Er t.
  rewrite (Hr _ _ _ _ Er t), Hd. unfold applied. rewrite elem_of_app. tauto.
Qed.

(** A run of reads that ends in an error. *)
Lemma identified_error (dupes : gset (list byte)) (s : St) (r : result (Beef * Steak * TopicInputs * gset (list byte))) (s' : St) (tr : list event) :
  trace s' = trace s ++ tr -> Forall reading tr -> is_ok r = false -> identified dupes s r s'.
Proof. intros E F Hr. exists tr. split_and!; [done..|]. by intros ? ? ? ? ->. Qed.

Lemma mergeExistingOutputs_reads t beef inpoints topic s :
  wp t (mergeExistingOutputs beef inpoints topic) s
    (fun _ s' => trace s' = trace s ++ [FindOutputsCall topic]).
Proof.
  unfold mergeExistingOutputs. apply wp_bind. unfold wp at 1, invoke, observe.
  destruct (FindOutputs _ _ _ _ _) as [[outs|e'|] w]; [apply wp_lift|..]; done.
Qed.

(** The part of the loop that asks the topic manager. *)
Lemma identified_admit t p inpoints topic topics beef steak inputs dupes s1 :
  (forall beef steak inputs s, wp t (identifyAdmissibleOutputsPerTopic p inpoints topics beef steak inputs dupes) s
     (identified dupes s)) ->
  wp t ('(beef, previousCoins, found) ← mergeExistingOutputs beef inpoints topic;
        instr ← invoke (IdentifyAdmissibleOutputs topic beef (pTxid p) previousCoins) (IdentifyCall topic);
        identifyAdmissibleOutputsPerTopic p inpoints topics beef (<[topic := instr]> steak)
          (<[topic := found]> inputs) dupes) s1 (identified dupes s1).
Proof.
  intros IH. apply wp_bind. eapply wp_mono; [apply mergeExistingOutputs_reads|].
  intros r s2 E2. assert (Hf : forall ev, Forall reading [FindOutputsCall topic; IdentifyCall ev])
    by (intros; by repeat constructor).
  destruct r as [[[beef' coins] found]|e'|]; [|apply (identified_error _ _ _ _ [FindOutputsCall topic]); by repeat constructor..].
  apply wp_bind. unfold wp at 1, invoke, observe.
  destruct (IdentifyAdmissibleOutputs _ _ _ _ _) as [r w].
  assert (E3 : trace (mkSt w (trace s2 ++ [IdentifyCall topic])) = trace s1 ++ [FindOutputsCall topic; IdentifyCall topic]).
  { simpl. by rewrite E2, <- app_assoc. }
  destruct r as [instr|e'|]; [|by apply (identified_error _ _ _ _ _ E3)..].
  eapply wp_mono; [apply IH|]. intros r s4. apply (identified_step _ _ _ _ _ _ _ E3); [done|].
  intros u. unfold applied. set_solver.
Qed.

Lemma identify_wp t p inpoints topics beef steak inputs dupes s :
  wp t (identifyAdmissibleOutputsPerTopic p inpoints topics beef steak inputs dupes) s (identified dupes s).
Proof.
  revert beef steak inputs dupes s. induction topics as [|topic topics IH]; intros beef steak inputs dupes s.
  - apply wp_ret. exists []. rewrite app_nil_r. split_and!; [done|constructor|].
    intros ? ? ? ? [= <- <- <- <-] u. unfold applied. set_solver.
  - cbn [identifyAdmissibleOutputsPerTopic]. apply wp_bind. destruct (hasAdmission e).
    { apply wp_ret. by apply identified_admit. }
    unfold wp at 1, observe. destruct (DoesAppliedTransactionExist _ _ _) as [r w].
    assert (E1 : forall r, trace (mkSt w (trace s ++ [ExistsCall topic r])) = trace s ++ [ExistsCall topic r]) by done.
    assert (F1 : forall r, Forall reading [ExistsCall topic r]) by (by repeat constructor).
    destruct r as [[]|e'|]; [| |by apply (identified_error _ _ _ _ _ (E1 _))..].
    + eapply wp_mono; [apply IH|]. intros r s'. apply (identified_step _ _ _ _ _ _ _ (E1 _) (F1 _)).
      intros u. unfold applied. rewrite elem_of_union, elem_of_singleton, list_elem_of_singleton.
      split; [intros [->|?]; auto|]. intros [?|[= ->]]; auto.
    + eapply wp_mono; [by apply identified_admit|]. intros r s'. apply (identified_step _ _ _ _ _ _ _ (E1 _) (F1 _)).
      intros u. unfold applied. rewrite list_elem_of_singleton. split; [auto|]. by intros [?|?].
Qed.

(** ** Every committed topic is recorded *)

Lemma commitTopicOutputs_applied fuel topic p beef instr inputs s :
  wp false (commitTopicOutputs fuel topic p beef instr inputs) s
    (fun r s' => is_ok r = true -> AppliedCall topic ∈ trace s').
Proof.
  unfold commitTopicOutputs.
  apply wp_bind. eapply wp_mono; [apply wp_any|]. intros [[[consumed outpoints] rest]|e'|] s1 _; [|done..].
  apply wp_bind. eapply wp_mono; [apply wp_any|]. intros [l|e'|] s2 _; [|done..].
  apply wp_bind. eapply wp_mono; [apply wp_any|]. intros [instr'|e'|] s3 _; [|done..].
  apply wp_bind. eapply wp_mono; [apply wp_any|]. intros [[]|e'|] s4 _; [|done..].
  apply wp_bind. eapply wp_mono; [apply wp_any|]. intros [outs|e'|] s5 _; [|done..].
  apply wp_bind. eapply wp_mono; [apply wp_any|]. intros [[]|e'|] s6 _; [|done..].
  apply wp_bind. unfold wp at 1, invoke, observe. destruct (InsertAppliedTransaction _ _ _) as [[[]|e'|] w]; [|done..].
  apply wp_ret. intros _. simpl. set_solver.
Qed.

Lemma commitAdmittedOutputs_applied fuel p topics beef steak inputs dupes s :
  wp false (commitAdmittedOutputs fuel p topics beef steak inputs dupes) s
    (fun r s' => is_ok r = true -> forall t, t ∈ topics -> (t ∉ dupes) -> AppliedCall t ∈ trace s').
Proof.
  revert steak inputs s. induction topics as [|topic topics IH]; intros steak inputs s; cbn [commitAdmittedOutputs].
  - apply wp_ret. set_solver.
  - case_bool_decide as Hd.
    { eapply wp_mono; [apply IH|]. intros r s' Hr Hok t Ht Hn. apply Hr; [done| |done].
      by apply elem_of_cons in Ht as [->|?]. }
    destruct (steak !! topic) as [instr|]; [|done].
    apply wp_bind. eapply wp_mono; [apply commitTopicOutputs_applied|].
    intros [[instr' rest]|e'|] s1 H1'; [|done..]. specialize (H1' eq_refl).
    assert (Honly : only false (committing (fun _ => True))
      (commitAdmittedOutputs fuel p topics beef (<[topic:=instr']> steak) (<[topic:=rest]> inputs) dupes) s1).
    { by apply (commitAdmittedOutputs_only false (fun _ => 0%nat)). }
    eapply wp_mono; [eapply wp_and; [exact Honly|apply IH]|].
    intros r s' [He Hr] Hok t Ht Hn. apply elem_of_cons in Ht as [->|Ht]; [|auto].
    by eapply emits_any.
Qed.

(** ** The phases of a submission *)

(** What a submission does, phase by phase. *)
Definition phases (p : Params) (tr : list event) (r : result Steak) : Prop :=
  exists reads marks host commits props,
    tr = reads ++ marks ++ host ++ commits ++ props /\
    let fresh t := t ∈ pTopics p /\ ~ applied reads t in
    Forall reading reads /\ Forall (marking fresh) marks /\ Forall hosting host /\
    Forall (committing fresh) commits /\ Forall propagating props /\
    (marks ++ host ++ commits ++ props <> [] ->
       validateTopicsAndGetManagers (pTopics p) = Ok tt /\ VerifyCall (Ok true) ∈ reads) /\
    (commits ++ props <> [] -> isHistorical (pMode p) = false -> hasBroadcaster e = true ->
       BroadcastCall (Ok tt) ∈ host) /\
    (is_ok r = true -> forall t, fresh t -> AppliedCall t ∈ commits).

(** A submission that stops while it reads. *)
Lemma phases_reads (p : Params) (tr : list event) (r : result Steak) :
  Forall reading tr -> is_ok r = false -> phases p tr r.
Proof.
  intros F Hr. exists tr, [], [], [], []. rewrite !app_nil_r. cbv zeta. split_and!; try done; try constructor.
  by rewrite Hr.
Qed.

Lemma broadcastIfNeeded_ok t tx mode s :
  wp t (broadcastIfNeeded tx mode) s (fun r s' =>
    exists host, trace s' = trace s ++ host /\ Forall hosting host /\
      (is_ok r = true -> isHistorical mode = false -> hasBroadcaster e = true -> BroadcastCall (Ok tt) ∈ host)).
Proof.
  unfold broadcastIfNeeded. destruct (isHistorical mode), (hasBroadcaster e); simpl;
    try (apply wp_ret; exists []; rewrite app_nil_r; by split_and!).
  unfold wp, observe. destruct (Broadcast tx (world s)) as [r w].
  exists [BroadcastCall r]. split_and!; [done|by repeat constructor|].
  destruct r as [[]|e'|]; set_solver.
Qed.

(** The commits and the propagation, once the reading is done. *)
Lemma commit_wp t rank fuel p tx beef steak inputs dupes fresh s :
  (t = true -> history_ends rank /\ (forall o, S (rank o) < fuel)%nat) ->
  (forall u, u ∈ pTopics p -> (u ∉ dupes) -> fresh u) ->
  wp t (steak ← commitAdmittedOutputs fuel p (pTopics p) beef steak inputs dupes;
        propagateToNetwork p tx steak dupes ≫= fun _ => mret steak) s
    (fun r s' => exists commits props, trace s' = trace s ++ commits ++ props /\
       Forall (committing fresh) commits /\ Forall propagating props /\
       (is_ok r = true -> forall u, u ∈ pTopics p -> (u ∉ dupes) -> AppliedCall u ∈ trace s ++ commits)).
Proof.
  intros Hfuel Hfresh. apply wp_bind. eapply wp_mono.
  { eapply wp_and; [apply (commitAdmittedOutputs_only t rank); [exact Hfuel|exact Hfresh]|].
    apply commitAdmittedOutputs_applied. }
  intros [steak'|e'|] s1 [(commits & E1 & F1) Happ];
    [|exists commits, []; rewrite app_nil_r; by split_and!..].
  apply wp_bind. eapply wp_mono; [apply propagateToNetwork_only|].
  intros [[]|e'|] s2 (props & E2 & F2); [apply wp_ret|..]; exists commits, props; rewrite E2, E1, app_assoc;
    (split_and!; try done). intros _. rewrite <- E1. by apply Happ.
Qed.

(** A callback of the host, or none. *)
Lemma emit_wp t (b : bool) ev (s : St) :
  hosting ev ->
  wp t (if b then emit ev else mret tt) s (fun r s' => r = Ok tt /\ emits hosting s s').
Proof.
  intros Hev. destruct b; (split; [done|]).
  - exists [ev]. simpl. split; [done|by repeat constructor].
  - apply emits_refl.
Qed.

(** The part of a submission that writes, after [reads]. *)
Lemma write_wp t rank fuel p tx beef steak inputs dupes reads w :
  (t = true -> history_ends rank /\ (forall o, S (rank o) < fuel)%nat) ->
  validateTopicsAndGetManagers (pTopics p) = Ok tt -> VerifyCall (Ok true) ∈ reads -> Forall reading reads ->
  (forall u, u ∈ dupes <-> applied reads u) ->
  wp t (markSpentAndNotify p dupes inputs tx ≫= fun _ =>
        broadcastIfNeeded tx (pMode p) ≫= fun _ =>
        (if hasSteakReady p then emit SteakReadyCall else mret tt) ≫= fun _ =>
        (if negb (isHistorical (pMode p)) && hasOnAdmission e then emit OnAdmissionCall else mret tt) ≫= fun _ =>
        steak ← commitAdmittedOutputs fuel p (pTopics p) beef steak inputs dupes;
        propagateToNetwork p tx steak dupes ≫= fun _ => mret steak) (mkSt w reads)
    (fun r s' => phases p (trace s') r).
Proof.
  intros Hfuel Hval Hver Hreads Hdupes.
  set (fresh := fun u => u ∈ pTopics p /\ ~ applied reads u).
  assert (Hfresh : forall u, u ∈ pTopics p -> (u ∉ dupes) -> fresh u) by (intros u ? Hu; split; [done|by rewrite <- Hdupes]).
  apply wp_bind. eapply wp_mono; [apply markSpentAndNotify_only|].
  intros r1 s1 (marks & E1 & F1). simpl in E1.
  assert (F1' : Forall (marking fresh) marks).
  { eapply Forall_impl; [exact F1|]. intros []; simpl; try done; intros [? ?]; by apply Hfresh. }
  destruct r1 as [[]|e'|]; [|by exists reads, marks, [], [], []; rewrite !app_nil_r; repeat split; auto..].
  apply wp_bind. eapply wp_mono; [apply broadcastIfNeeded_ok|].
  intros r2 s2 (host & E2 & F2 & Hb).
  destruct r2 as [[]|e'|];
    [|by exists reads, marks, host, [], []; rewrite !app_nil_r, E2, E1, <- ?app_assoc; repeat split; auto..].
  apply wp_bind. eapply wp_mono; [by apply emit_wp|]. intros r3 s3 [-> (h3 & E3 & F3)].
  apply wp_bind. eapply wp_mono; [by apply emit_wp|]. intros r4 s4 [-> (h4 & E4 & F4)].
  eapply wp_mono; [by apply (commit_wp t rank _ _ _ _ _ _ _ fresh)|].
  intros r s' (commits & props & E5 & F5 & F6 & Happ).
  exists reads, marks, (host ++ h3 ++ h4), commits, props.
  split; [rewrite E5, E4, E3, E2, E1, <- !app_assoc; done|]. cbv zeta.
  assert (Fh : Forall hosting (host ++ h3 ++ h4)) by (rewrite !Forall_app; done).
  split_and!; try done.
  - intros _ Hm Hbr. apply elem_of_app. left. by apply Hb.
  - intros Hok u [Hu Hn]. assert (Hin : AppliedCall u ∈ trace s4 ++ commits) by (apply Happ; [done..|by rewrite Hdupes]).
    rewrite E4, E3, E2, E1, !elem_of_app in Hin.
    rewrite Forall_forall in Hreads, F1, F2, F3, F4. clear -Hin Hreads F1 F2 F3 F4.
    destruct Hin as [[[[[Hi|Hi]|Hi]|Hi]|Hi]|Hi]; [by apply Hreads in Hi|by apply F1 in Hi|by apply F2 in Hi|by apply F3 in Hi|by apply F4 in Hi|done].
Qed.

Lemma submission_wp rank fuel p beef w :
  history_ends rank -> (forall o, S (rank o) < fuel)%nat -> hasAdmission e = false ->
  wp true (submitParsedBeefInternal fuel p beef) (mkSt w []) (fun r s' => phases p (trace s') r).
Proof.
  intros Hh Hfuel Hadm.
  unfold submitParsedBeefInternal. apply wp_bind, wp_lift.
  destruct (validateTopicsAndGetManagers (pTopics p)) as [[]|e'|] eqn:Hval;
    [|by apply phases_reads; [constructor|]..].
  destruct (FindTransactionForSigningByHash beef (pTxid p)) as [tx|]; [|by apply wp_lift, phases_reads; [constructor|]].
  apply wp_bind. unfold verifyTransaction. apply wp_bind. unfold wp at 1, observe.
  destruct (Verify tx _) as [[[]|e'|] w1]; [|by apply wp_lift, phases_reads; [repeat constructor|]|by apply phases_reads; [repeat constructor|]..].
  apply wp_ret. apply wp_bind. eapply wp_mono; [apply identify_wp|].
  intros r s1 (tr & E1 & F1 & Hd). simpl in E1.
  assert (Hreads : Forall reading (VerifyCall (Ok true) :: tr)) by (by constructor).
  destruct r as [[[[beef' steak] inputs] dupes]|e'|]; [|rewrite E1; by apply phases_reads..].
  destruct s1 as [w2 tr2]. simpl in E1. subst tr2. rewrite Hadm.
  eapply wp_mono; [apply (write_wp true rank _ _ _ _ _ _ _ (VerifyCall (Ok true) :: tr))|done]; [done|done|set_solver|done|].
  intros u. rewrite (Hd _ _ _ _ eq_refl u). unfold applied. set_solver.
Qed.

(** A submission returns. *)
Lemma Submit_wp rank fuel topics beefBytes offChainValues mode steakReady w :
  history_ends rank -> (forall o, S (rank o) < fuel)%nat -> hasAdmission e = false ->
  wp true (Submit fuel topics beefBytes offChainValues mode steakReady) (mkSt w []) (fun _ _ => True).
Proof.
  intros Hh Hfuel Hadm. apply wp_bind, wp_lift. destruct (ParseBeef beefBytes) as [[[beef [tx|]] [txid|]]|err|]; [|apply wp_bind, wp_lift; by destruct (validateTopicsAndGetManagers topics) as [[]|err|]|done..].
  eapply wp_mono; [by apply (submission_wp rank)|done].
Qed.

(** C1.  A submission ends, and it works in phases.  Assume that histories end
    (every output consumed only outputs of lower rank, and the fuel is above
    every rank).  First only reads; then the spending of inputs; then the
    broadcast and the host's emits; then the commits; then the propagation.
    Nothing is written, broadcast or told to the lookup services unless every
    topic is known and the transaction passed the SPV check; nothing is committed
    or propagated before the broadcast succeeded, when there is one to do; no
    write concerns a topic to which the transaction was already applied; and a
    success has recorded the transaction for every other topic. *)
Theorem submission_phases rank fuel p beef w :
  history_ends rank -> (forall o, S (rank o) < fuel)%nat -> hasAdmission e = false ->
  exists r s', submitParsedBeefInternal fuel p beef (mkSt w []) = Some (r, s') /\
    phases p (trace s') r.
Proof. intros Hh Hfuel Hadm. by apply wp_returns, (submission_wp rank). Qed.

(** ** Retained coins *)

Lemma separateLoop_spec (retain : gset Z) (l : list (Z * Output)) m :
  NoDup l.*1 ->
  let '(consumed, rest) := separateLoop retain l m in
  consumed = (filter (fun kv => kv.1 ∈ retain) l).*2 /\
  forall k, (k ∈ retain -> k ∈ l.*1 -> rest !! k = None) /\ ((k ∉ retain) \/ (k ∉ l.*1) -> rest !! k = m !! k).
Proof.
  revert m. induction l as [|[k v] l IH]; intros m Hn; simpl.
  - split; [done|]. intros k. split; [set_solver|done].
  - apply NoDup_cons in Hn as [Hk Hn]. simpl in Hk. case_bool_decide as Hr.
    + specialize (IH (delete k m) Hn). destruct (separateLoop retain l (delete k m)) as [consumed rest].
      destruct IH as [-> IH]. rewrite filter_cons_True by done. split; [done|].
      intros k'. destruct (IH k') as [IH1 IH2]. split.
      * change (((k, v) :: l).*1) with (k :: l.*1). intros Hr' [->|Hin]%elem_of_cons; [|auto].
        rewrite IH2 by auto. apply lookup_delete_eq.
      * change (((k, v) :: l).*1) with (k :: l.*1). intros Hor. rewrite not_elem_of_cons in Hor. destruct (decide (k' = k)) as [->|Hne]; [tauto|].
        rewrite IH2 by tauto. by apply lookup_delete_ne.
    + specialize (IH m Hn). destruct (separateLoop retain l m) as [consumed rest].
      destruct IH as [-> IH]. rewrite filter_cons_False by done. split; [done|].
      intros k'. destruct (IH k') as [IH1 IH2]. change (((k, v) :: l).*1) with (k :: l.*1). split.
      * intros Hr' [->|Hin]%elem_of_cons; [done|auto].
      * intros Hor. rewrite not_elem_of_cons in Hor. tauto.
Qed.

(** Whatever order the map of inputs is walked in (while entries are being
    deleted from it), [separateRetainedCoins] splits the inputs in two: the
    outputs under the retained indices are consumed, each once, and the map is
    left with exactly the other entries; nothing else changes. *)
Theorem separateRetainedCoins_spec inputs coins s :
  exists consumed rest,
    separateRetainedCoins inputs coins s = Some (Ok (consumed, map oOutpoint consumed, rest), s) /\
    consumed ≡ₚ (filter (fun kv => kv.1 ∈ coins) (map_to_list inputs)).*2 /\
    rest = filter (fun kv => kv.1 ∉ coins) inputs.
Proof.
  unfold separateRetainedCoins.
  destruct (bool_decide_reflect (inputs = ∅)) as [->|Hne]; simpl.
  { exists [], ∅. split_and!; [done|by rewrite map_to_list_empty|by rewrite map_filter_empty]. }
  destruct (bool_decide_reflect (coins = [])) as [->|Hnc].
  { exists [], inputs. split_and!; [done| |].
    - by induction (map_to_list inputs) as [|x l IH].
    - symmetry. apply map_filter_id. intros k v _. set_solver. }
  set (l := range inputs (world s)). pose proof (range_perm inputs (world s)) as Hl. fold l in Hl.
  assert (Hn : NoDup l.*1) by (rewrite Hl; apply NoDup_fst_map_to_list).
  pose proof (separateLoop_spec (list_to_set coins) l inputs Hn) as Hs.
  destruct (separateLoop (list_to_set coins) l inputs) as [consumed rest] eqn:Es. destruct Hs as [Hc Hr].
  exists consumed, rest. split_and!.
  - unfold mbind, run_bind, rangeMap. fold l. by rewrite Es.
  - rewrite Hc, (list_filter_iff _ (fun kv => kv.1 ∈ coins)) by (intros; apply elem_of_list_to_set). by rewrite Hl.
  - apply map_eq. intros k. destruct (Hr k) as [Hr1 Hr2]. rewrite elem_of_list_to_set in Hr1, Hr2.
    destruct (inputs !! k) as [v|] eqn:Ek.
    + destruct (decide (k ∈ coins)) as [Hin|Hin].
      * rewrite Hr1; [|done|].
        -- symmetry. apply map_lookup_filter_None. right. intros x _ Hg. by destruct (Hg Hin).
        -- rewrite Hl. apply list_elem_of_fmap. exists (k, v). by rewrite elem_of_map_to_list.
      * rewrite Hr2 by auto. symmetry. by apply map_lookup_filter_Some.
    + rewrite Hr2; [symmetry; apply map_lookup_filter_None; by left|].
      right. rewrite Hl. intros ([k' v] & -> & Hin)%list_elem_of_fmap.
      apply elem_of_map_to_list in Hin. simpl in *. congruence.
Qed.

End Engine.

(** ** Examples *)

Module Example.
Import EngineModel.

#[local] Instance sdk : TransactionSDK unit := {|
  txIDOf _ := zero_hash;
  ParseBeef _ := Err ErrInvalidBeef;
  FindTransactionForSigningByHash _ _ := Some (mkTransaction [] None [] []);
  FindTransactionByHash _ _ := None;
  MergeBeef _ _ := Ok tt;
  AtomicBytes _ _ := Ok [];
  AtomicBEEF _ := Ok [];
  BEEF _ := Ok [];
  ComputeRoot _ _ := Ok zero_hash;
  pathBytes _ := [] |}.

Definition params : Params := mkParams zero_hash [str "tm"] [] [] SubmitModeCurrent true.

Lemma history_ends_none : history_ends (W := unit) (Beef := unit) (fun _ => 0%nat).
Proof.
  split; intros; simpl in *; [discriminate|].
  match goal with H : (Ok [], _) = (Ok _, _) |- _ => injection H as <- _ end. set_solver.
Qed.

Lemma submission_phases_witness :
  exists r s', submitParsedBeefInternal (W := unit) (Beef := unit) config 2 params tt (mkSt tt []) = Some (r, s') /\
    phases config params (trace s') r.
Proof.
  apply (submission_phases (W := unit) (Beef := unit) config (fun _ => 0%nat) 2 params tt tt history_ends_none).
  - intros o. lia.
  - reflexivity.
Defined.

(** The calls of that submission. *)
Example submission_trace :
  (fun '(r, s) => (is_ok r, trace s)) <$>
    submitParsedBeefInternal (W := unit) (Beef := unit) config 2 params tt (mkSt tt []) =
  Some (true, [VerifyCall (Ok true); ExistsCall (str "tm") (Ok false); FindOutputsCall (str "tm");
    IdentifyCall (str "tm"); BroadcastCall (Ok tt); SteakReadyCall; OnAdmissionCall;
    InsertCall (str "tm") [0] []; AdmittedCall (str "ls") (str "tm") 0; AppliedCall (str "tm");
    PropagateCall [str "tm"]]).
Proof. vm_compute. reflexivity. Qed.

(** Four outputs: [a] was consumed by [b], and [b] by the two outputs [c] and [d]. *)
Definition a : Outpoint := mkOutpoint zero_hash 0.
Definition b : Outpoint := mkOutpoint zero_hash 1.
Definition c : Outpoint := mkOutpoint zero_hash 2.
Definition d : Outpoint := mkOutpoint zero_hash 3.

Definition output (o : Outpoint) (consumed consumedBy : list Outpoint) : EngineOutput unit :=
  mkEngineOutput o (str "tm") false consumed consumedBy 0 0 0 (Some tt) [] MerkleStateUnmined None.

Definition history : Store unit :=
  {[ a := output a [] [b]; b := output b [a] [c; d]; c := output c [b] []; d := output d [b] [] ]}.

(** The deep deletion of one consumer strips the history that another consumer
    still retains: after [c] is deleted, [b] stays for [d], but [a], which [b]
    consumed and which is part of the history of [d], has been deleted although
    nothing about [d] changed. *)
Theorem shared_history_is_deleted :
  (fun '(r, s) => (r, world s !! d, world s !! b, world s !! a)) <$>
    deleteUTXODeep config 5 (output c [b] []) (mkSt history []) =
  Some (Ok tt, Some (output d [b] []), Some (output b [a] [d]), None).
Proof. vm_compute. reflexivity. Qed.

End Example.
End Submit.
