(* ===== verification/AdmissionSubmit.v ===== *)
(** * pkg/core/engine/admission_submit.go: submissions to a storage with admission plans

    What a submission does when the storage has the admission capability, and what the
    plan that it commits says.  The definitions are those of Submit.v and
    AdmissionPlan.v. *)

From S2P Require Import Prelude Bytes Sha256 Decimal Runs Traced GaspTypes Admission EngineTypes AdmissionPlan EngineModel Submit.
Import Gasp Submit.
Open Scope Z_scope.

Module AdmissionSubmit.
Section AdmissionSubmit.
Context {W Beef : Type} `{TransactionSDK Beef} `{EngineStorage W Beef} `{TopicManagers W Beef}
  `{LookupServices W} `{Network W} `{MapRange W} `{AdmissionHost W}.
Context (e : EngineConfig).

Local Abbreviation Output := (EngineOutput Beef).
Local Abbreviation Steak := (gmap (list byte) AdmittanceInstructions).
Local Abbreviation TopicInputs := (gmap (list byte) (gmap Z (EngineOutput Beef))).
Local Abbreviation St := (Traced.St W event).
Local Abbreviation Run := (Runs.Run St).

(** ** Building a plan *)

(** The calls that prepare a plan. *)
Definition planning (ev : event) : Prop :=
  match ev with PublishCall _ _ _ | FenceCall _ _ | EnsureFenceCall _ _ _ => True | _ => False end.

(** [m] ends; it only makes calls that prepare a plan, and what it returns is so by them. *)
Definition stage {A} (m : Run A) (P : list event -> A -> Prop) : Prop :=
  forall s, wp true m s (fun r s' => exists tr, trace s' = trace s ++ tr /\ Forall planning tr /\ forall a, r = Ok a -> P tr a).

Lemma prep_ret {A} (a : A) (P : list event -> A -> Prop) : P [] a -> stage (mret a) P.
Proof. intros HP s. apply wp_ret. exists []. rewrite app_nil_r. split_and!; [done..|]. by intros ? [= <-]. Qed.

Lemma prep_lift {A} (r : result A) (P : list event -> A -> Prop) : (forall a, r = Ok a -> P [] a) -> stage (lift r) P.
Proof. intros HP s. apply wp_lift. exists []. rewrite app_nil_r. by split_and!. Qed.

Lemma prep_bind {A B} (m : Run A) (f : A -> Run B) P Q :
  stage m P -> (forall tr a, P tr a -> stage (f a) (fun tr' b => Q (tr ++ tr') b)) -> stage (m ≫= f) Q.
Proof.
  intros Hm Hf s. apply wp_bind. eapply wp_mono; [apply Hm|]. intros [a|err|] s' (tr & E & F & HP); [|exists tr; by split_and!..].
  eapply wp_mono; [by apply (Hf tr a (HP a eq_refl))|]. intros r s'' (tr' & E' & F' & HQ). exists (tr ++ tr').
  rewrite E', E, app_assoc. split_and!; [done|by apply Forall_app|done].
Qed.

Lemma prep_observe {A} (op : Op W A) ev P :
  (forall r, planning (ev r)) -> (forall a, P [ev (Ok a)] a) -> stage (observe op ev) P.
Proof. intros Hev HP s. apply wp_observe. intros r w _. exists [ev r]. split_and!; [done|by repeat constructor|]. by intros a ->. Qed.

Lemma stage_rangeMap {K V} `{Countable K} (m : gmap K V) : stage (rangeMap m) (fun _ l => l ≡ₚ map_to_list m).
Proof. intros s. apply wp_rangeMap. intros l Hl. exists []. rewrite app_nil_r. split_and!; [done..|]. by intros ? [= <-]. Qed.

Lemma prep_weaken {A} (m : Run A) (P Q : list event -> A -> Prop) : stage m P -> (forall tr a, P tr a -> Q tr a) -> stage m Q.
Proof. intros Hm HPQ s. eapply wp_mono; [apply Hm|]. intros r s' (tr & ? & ? & HP). exists tr. split_and!; auto. Qed.

(** The payload was published, and the reference is that of its bytes. *)
Definition ready (tr : list event) (ref : Admission.AdmissionPayloadRef) : Prop :=
  exists data, PublishCall ref data (Ok tt) ∈ tr /\ ref = AdmissionPlan.payloadRef data (Admission.Kind ref).

Lemma ready_app tr1 tr2 ref : ready tr1 ref \/ ready tr2 ref -> ready (tr1 ++ tr2) ref.
Proof. intros [(data & Hin & E)|(data & Hin & E)]; exists data; (split; [set_solver|done]). Qed.

Lemma publishBytes_stage data kind :
  stage (publishBytes data kind) (fun tr ref => ref = AdmissionPlan.payloadRef data kind /\ ready tr ref).
Proof.
  unfold publishBytes. eapply prep_bind with (P := fun tr _ => PublishCall (AdmissionPlan.payloadRef data kind) data (Ok tt) ∈ tr).
  - apply prep_observe; [done|]. intros []. by left.
  - intros tr [] Hin. apply prep_ret. split; [done|]. exists data. rewrite app_nil_r. by split.
Qed.

(** The script of an output of the transaction. *)
Definition scriptAt (tx : Transaction) (vout : Z) : option (list byte) := AdmissionPlan.outputAt tx vout ≫= snd.

(** The references of scripts are those of the outputs, and are among the payloads. *)
Definition scripts_ok (tx : Transaction) (payloads : list Admission.AdmissionPayloadRef) (scripts : gmap Z Admission.AdmissionPayloadRef) : Prop :=
  map_Forall (fun vout ref => ref ∈ payloads /\ exists script, scriptAt tx vout = Some script /\
    ref = AdmissionPlan.payloadRef script Admission.AdmissionPayloadLockingScript) scripts.

Lemma scripts_ok_insert tx payloads scripts vout script :
  scripts_ok tx payloads scripts -> scriptAt tx vout = Some script ->
  let ref := AdmissionPlan.payloadRef script Admission.AdmissionPayloadLockingScript in
  scripts_ok tx (payloads ++ [ref]) (<[vout := ref]> scripts).
Proof.
  intros Hok Hs ref v r Hr. apply lookup_insert_Some in Hr as [[<- <-]|[_ Hr]].
  - split; [set_solver|]. by exists script.
  - apply Hok in Hr as (Hin & Hscript). split; [set_solver|done].
Qed.

Lemma publishScripts_stage tx vouts payloads scripts pre :
  (forall ref, ref ∈ payloads -> ready pre ref) -> scripts_ok tx payloads scripts ->
  stage (publishScripts tx vouts payloads scripts) (fun tr res =>
    (forall ref, ref ∈ res.1 -> ready (pre ++ tr) ref) /\ (forall ref, ref ∈ payloads -> ref ∈ res.1) /\ scripts_ok tx res.1 res.2 /\
    (forall v, v ∈ vouts \/ is_Some (scripts !! v) -> is_Some (scriptAt tx v) -> is_Some (res.2 !! v))).
Proof.
  revert payloads scripts pre. induction vouts as [|vout vouts IH]; intros payloads scripts pre Hready Hok; cbn [publishScripts].
  { apply prep_ret. cbn [fst snd]. rewrite app_nil_r. split_and!; [done..|]. intros v [Hv|Hv] _; [set_solver|done]. }
  change (AdmissionPlan.outputAt tx vout ≫= snd) with (scriptAt tx vout).
  destruct (scriptAt tx vout) as [script|] eqn:Es; [destruct (scripts !! vout) as [ref0|] eqn:E0|].
  - eapply prep_weaken; [by apply (IH payloads scripts pre)|]. intros tr res (H1' & H2' & H3' & H4'). split_and!; [done..|].
    intros v [[->|Hv]%elem_of_cons|Hv]; apply H4'; eauto.
  - eapply prep_bind; [apply publishBytes_stage|]. intros tr ref [-> Hr].
    eapply prep_weaken; [apply (IH _ _ (pre ++ tr))|].
    + intros ref [Hin| ->%list_elem_of_singleton]%elem_of_app; apply ready_app; auto.
    + by apply scripts_ok_insert.
    + intros tr' res (H1' & H2' & H3' & H4'). cbv beta. rewrite app_assoc. split_and!; [done|set_solver|done|].
      intros v Hv. apply H4'. destruct Hv as [[->|Hv]%elem_of_cons|Hv]; [right; rewrite lookup_insert_eq; eauto|by left|].
      right. destruct (decide (v = vout)) as [->|Hne]; [rewrite lookup_insert_eq; eauto|by rewrite lookup_insert_ne].
  - eapply prep_weaken; [by apply (IH payloads scripts pre)|]. intros tr res (H1' & H2' & H3' & H4'). split_and!; [done..|].
    intros v [[->|Hv]%elem_of_cons|Hv] Hs; [by rewrite Es in Hs; destruct Hs|apply H4'; auto..].
Qed.

(** What [publishAdmissionPayloads] gives: the transaction, the scripts of all outputs that
    are admitted, and the BEEF, all published. *)
Definition published (p : Params) (tx : Transaction) (steak : Steak) (tr : list event)
    (payloads : list Admission.AdmissionPayloadRef) (index : AdmissionPlan.admissionPayloads) : Prop :=
  (forall ref, ref ∈ payloads -> ready tr ref) /\
  AdmissionPlan.raw index = AdmissionPlan.payloadRef (txBytes tx) Admission.AdmissionPayloadRawTransaction /\
  AdmissionPlan.raw index ∈ payloads /\ scripts_ok tx payloads (AdmissionPlan.scripts index) /\
  (forall topic instr vout, steak !! topic = Some instr -> vout ∈ elements (OutputsToAdmit instr) ->
     is_Some (scriptAt tx vout) -> is_Some (AdmissionPlan.scripts index !! vout)) /\
  (AtomicBeef p <> [] -> AdmissionPlan.payloadRef (AtomicBeef p) Admission.AdmissionPayloadBEEFManifest ∈ payloads).

Lemma publishAdmissionPayloads_stage p tx steak :
  stage (publishAdmissionPayloads p tx steak) (fun tr res => published p tx steak tr res.1 res.2).
Proof.
  unfold publishAdmissionPayloads. eapply prep_bind; [apply publishBytes_stage|]. intros tr1 raw [-> Hraw].
  eapply prep_bind; [apply stage_rangeMap|]. intros tr2 l Hl. cbv beta.
  eapply prep_bind; [apply (publishScripts_stage tx _ _ ∅ (tr1 ++ tr2))|].
  { intros ref ->%list_elem_of_singleton. apply ready_app. by left. }
  { apply map_Forall_empty. }
  intros tr3 [payloads scripts] (Hready & Hincl & Hok & Hall). cbn [fst snd] in *.
  assert (Hsteak : forall topic instr vout, steak !! topic = Some instr -> vout ∈ elements (OutputsToAdmit instr) ->
     is_Some (scriptAt tx vout) -> is_Some (scripts !! vout)).
  { intros topic instr vout Ht Hv. apply Hall. left. apply list_elem_of_In, in_flat_map. exists (topic, instr). split; [|by apply list_elem_of_In].
    apply list_elem_of_In. rewrite Hl. by apply elem_of_map_to_list. }
  assert (Hend : forall (payloads' : list Admission.AdmissionPayloadRef) tr4, (forall ref, ref ∈ payloads -> ref ∈ payloads') ->
    (forall ref, ref ∈ payloads' -> ready (tr1 ++ tr2 ++ tr3 ++ tr4) ref) ->
    (AtomicBeef p <> [] -> AdmissionPlan.payloadRef (AtomicBeef p) Admission.AdmissionPayloadBEEFManifest ∈ payloads') ->
    published p tx steak (tr1 ++ tr2 ++ tr3 ++ tr4) payloads'
      (AdmissionPlan.mkPayloads (AdmissionPlan.payloadRef (txBytes tx) Admission.AdmissionPayloadRawTransaction) scripts)).
  { intros payloads' tr4 Hin Hr Hbeef. unfold published. cbn [AdmissionPlan.raw AdmissionPlan.scripts]. split_and!; try done.
    - apply Hin, Hincl, list_elem_of_singleton. done.
    - intros v ref Hv. apply Hok in Hv as (? & ?). split; [by apply Hin|done]. }
  eapply prep_bind with (P := fun tr res => (forall ref, ref ∈ payloads -> ref ∈ res) /\ (forall ref, ref ∈ res -> ready (tr1 ++ tr2 ++ tr3 ++ tr) ref) /\
    (AtomicBeef p <> [] -> AdmissionPlan.payloadRef (AtomicBeef p) Admission.AdmissionPayloadBEEFManifest ∈ res)).
  - case_bool_decide as Hb.
    + apply prep_ret. split_and!; [done| |done]. intros ref Hin. rewrite app_nil_r, app_assoc. by apply Hready.
    + eapply prep_bind; [apply publishBytes_stage|]. intros tr4 ref [-> Hr]. apply prep_ret. rewrite app_nil_r. split_and!; [set_solver| |set_solver].
      intros ref [Hin| ->%list_elem_of_singleton]%elem_of_app; rewrite !app_assoc; apply ready_app; [left; by apply Hready|by right].
  - intros tr4 res (Hin & Hr & Hbeef). apply prep_ret. cbn [fst snd]. rewrite app_nil_r. by apply Hend.
Qed.

(** ** Decisions *)

(** What a plan says of a topic.  The outputs are those that were admitted, in their
    order, each with the value of the output of the transaction and the reference of its
    script; the inputs are spent, each once; and the edges lead from each input that is
    retained to each output. *)
Definition decided (p : Params) (tx : Transaction) (topic : list byte) (instr : AdmittanceInstructions) (inputs : gmap Z Output)
    (payloads : AdmissionPlan.admissionPayloads) (d : Admission.AdmissionTopicDecision) : Prop :=
  Admission.decTopic d = topic /\ Admission.Reads d = [] /\ Admission.Evictions d = [] /\
  Admission.appliedTxID (Admission.Applied d) = AdmissionPlan.hexID (pTxid p) /\
  Admission.decOutputs d = AdmissionPlan.admissionOutputs tx (AdmissionPlan.hexID (pTxid p)) instr payloads /\
  Admission.Spends d ≡ₚ AdmissionPlan.admissionSpends (map_to_list inputs) (AdmissionPlan.hexID (pTxid p)) /\
  forall edge, edge ∈ Admission.Edges d <->
    exists vin o output, vin ∈ elements (CoinsToRetain instr) /\ inputs !! vin = Some o /\ output ∈ Admission.decOutputs d /\
      edge = Admission.mkEdge (AdmissionPlan.admissionOutpointFrom (oOutpoint o)) (Admission.outOutpoint output).

Lemma edges_elem sources outputs edge :
  edge ∈ AdmissionPlan.admissionEdges sources outputs <->
  exists source output, source ∈ sources /\ output ∈ outputs /\
    edge = Admission.mkEdge (AdmissionPlan.admissionOutpointFrom source) (Admission.outOutpoint output).
Proof.
  unfold AdmissionPlan.admissionEdges. rewrite list_elem_of_In, in_flat_map. split.
  - intros (source & Hs & (output & <- & Ho)%in_map_iff). exists source, output. by rewrite !list_elem_of_In.
  - intros (source & output & Hs & Ho & ->). apply list_elem_of_In in Hs. apply list_elem_of_In in Ho. exists source. split; [done|]. apply in_map_iff. by exists output.
Qed.

(** The fence of a decision was read, and then ensured by the storage. *)
Definition fenced (tr : list event) (d : Admission.AdmissionTopicDecision) : Prop :=
  FenceCall (Admission.decTopic d) (Ok (Admission.ExpectedHistory d)) ∈ tr /\
  EnsureFenceCall (Admission.decTopic d) (Admission.ExpectedHistory d) (Ok tt) ∈ tr.

Lemma fenced_app tr1 tr2 d : fenced tr1 d \/ fenced tr2 d -> fenced (tr1 ++ tr2) d.
Proof. unfold fenced. set_solver. Qed.

Lemma buildTopicDecision_stage p tx topic instr inputs payloads :
  stage (buildTopicDecision p tx topic instr inputs payloads) (fun tr d => fenced tr d /\ decided p tx topic instr inputs payloads d).
Proof.
  unfold buildTopicDecision. eapply prep_bind with (P := fun tr fence => FenceCall topic (Ok fence) ∈ tr); [apply prep_observe; [done|]; intros; by left|].
  intros tr1 fence Hfence. eapply prep_bind with (P := fun tr _ => EnsureFenceCall topic fence (Ok tt) ∈ tr); [apply prep_observe; [done|]; intros []; by left|].
  intros tr2 [] Hensure. eapply prep_bind with (P := fun tr res => exists consumed, res.1.2 = map oOutpoint consumed /\
    consumed ≡ₚ (filter (fun kv => kv.1 ∈ elements (CoinsToRetain instr)) (map_to_list inputs)).*2).
  { intros s. destruct (separateRetainedCoins_spec inputs (elements (CoinsToRetain instr)) s) as (consumed & rest & E & Hc & _). unfold wp. rewrite E.
    exists []. rewrite app_nil_r. split_and!; [done..|]. intros ? [= <-]. by exists consumed. }
  intros tr3 [[x outpoints] y] (consumed & Eo & Hc). cbn [fst snd] in Eo. subst outpoints. eapply prep_bind; [apply stage_rangeMap|].
  intros tr4 spent Hspent. apply prep_ret. split; [unfold fenced; cbn; set_solver|]. unfold decided. cbn. split_and!; try done.
  { unfold AdmissionPlan.admissionSpends. by rewrite Hspent. }
  intros edge. rewrite edges_elem. split.
  - intros (source & output & Hs & Ho & ->). apply list_elem_of_fmap in Hs as (o & -> & Hin). rewrite Hc in Hin.
    apply list_elem_of_fmap in Hin as ([vin o'] & -> & [Hv Hin]%list_elem_of_filter). apply elem_of_map_to_list in Hin. by exists vin, o', output.
  - intros (vin & o & output & Hv & Hin & Hout & ->). exists (oOutpoint o), output. split_and!; [|done..].
    apply list_elem_of_fmap. exists o. split; [done|]. rewrite Hc. apply list_elem_of_fmap. exists (vin, o). split; [done|].
    apply list_elem_of_filter. split; [done|]. by apply elem_of_map_to_list.
Qed.

Lemma buildDecisions_stage p tx topics steak topicInputs payloads :
  stage (buildDecisions p tx topics steak topicInputs payloads) (fun tr ds => Forall2 (fun topic d => fenced tr d /\
    decided p tx topic (default noAdmittance (steak !! topic)) (inputsOf topicInputs topic) payloads d) topics ds).
Proof.
  induction topics as [|topic topics IH]; cbn [buildDecisions]; [by apply prep_ret; constructor|].
  eapply prep_bind; [apply buildTopicDecision_stage|]. intros tr1 d [Hf Hd]. eapply prep_bind; [apply IH|]. intros tr2 ds Hds.
  apply prep_ret. rewrite app_nil_r. constructor; [split; [apply fenced_app; by left|done]|].
  eapply Forall2_impl; [exact Hds|]. intros t d' [Hf' Hd']. split; [apply fenced_app; by right|done].
Qed.

(** ** The whole plan *)

Definition planned (p : Params) (tx : Transaction) (steak : Steak) (topicInputs : TopicInputs) (scope : Admission.StorageScope)
    (tr : list event) (plan : AdmissionCommit) : Prop :=
  exists digest index names,
    Admission.AdmissionSemanticDigest (comIdentity plan) = Ok digest /\
    comKey plan = Admission.mkKey scope (operationID p) digest /\ comIdentity plan = admissionIdentity scope p /\
    published p tx steak tr (Payloads plan) index /\
    Forall2 (fun topic d => fenced tr d /\
      decided p tx topic (default noAdmittance (steak !! topic)) (inputsOf topicInputs topic) index d) (identityTopics p) (Decisions plan) /\
    names ≡ₚ (map_to_list (lookupServices e)).*1 /\ Outbox plan = admissionOutbox p (AdmissionPlan.raw index) names /\
    comSteak plan = AdmissionPlan.encodeSteakJSON steak.

Lemma published_app p tx steak tr tr' payloads index :
  published p tx steak tr payloads index -> published p tx steak (tr ++ tr') payloads index.
Proof. intros (Hr & Hrest). split; [|done]. intros ref Hin. apply ready_app. left. by apply Hr. Qed.

Lemma buildAdmissionPlan_wp (p : Params) (tx : Transaction) (steak : Steak) (topicInputs : TopicInputs) (s : St) :
  wp true (buildAdmissionPlan e p tx steak topicInputs) s (fun r s' => exists tr, trace s' = trace s ++ tr /\ Forall planning tr /\
    forall plan, r = Ok plan -> planned p tx steak topicInputs (hostScope (world s)) tr plan).
Proof.
  unfold buildAdmissionPlan. apply wp_bind. unfold wp at 1, getScope. set (scope := hostScope (world s)). revert s scope.
  enough (Hs : forall scope, stage (let identity := admissionIdentity scope p in
     digest ← lift (Admission.AdmissionSemanticDigest identity);
     '(payloads, payloadIndex) ← publishAdmissionPayloads p tx steak;
     decisions ← buildDecisions p tx (identityTopics p) steak topicInputs payloadIndex;
     lookupNames ← getLookupServicesSnapshot e;
     mret (mkAdmissionCommit (Admission.mkKey scope (operationID p) digest) identity payloads decisions
          (admissionOutbox p (AdmissionPlan.raw payloadIndex) lookupNames) (AdmissionPlan.encodeSteakJSON steak)))
     (planned p tx steak topicInputs scope)) by (intros s scope; apply Hs).
  intros scope. cbv zeta. eapply prep_bind with (P := fun _ digest => Admission.AdmissionSemanticDigest (admissionIdentity scope p) = Ok digest);
    [by apply prep_lift|]. intros tr1 digest Hdigest.
  eapply prep_bind; [apply publishAdmissionPayloads_stage|]. intros tr2 [payloads index] Hpub. cbn [fst snd] in Hpub.
  eapply prep_bind; [apply buildDecisions_stage|]. intros tr3 ds Hds.
  eapply prep_bind with (P := fun _ names => names ≡ₚ (map_to_list (lookupServices e)).*1).
  { unfold getLookupServicesSnapshot. eapply prep_bind; [apply stage_rangeMap|]. intros tr l Hl. apply prep_ret. by rewrite Hl. }
  intros tr4 names Hnames. apply prep_ret. exists digest, index, names. cbn. split_and!; try done.
  - destruct Hpub as (Hr & Hrest). split; [|done]. intros ref Hin. apply ready_app. right. apply ready_app. left. by apply Hr.
  - eapply Forall2_impl; [exact Hds|]. intros t d [Hf Hd]. split; [|done]. apply fenced_app. right. apply fenced_app. right. apply fenced_app. by left.
Qed.

(** The output of a plan for an output of the transaction. *)
Lemma planned_output tx txid instr payloads published_list i vout :
  scripts_ok tx published_list (AdmissionPlan.scripts payloads) -> elements (OutputsToAdmit instr) !! i = Some vout ->
  exists o, AdmissionPlan.admissionOutputs tx txid instr payloads !! i = Some o /\
    Admission.outOutpoint o = Admission.mkAdmissionOutpoint txid (FormatUint vout) /\
    (forall satoshis script, AdmissionPlan.outputAt tx vout = Some (satoshis, Some script) -> is_Some (AdmissionPlan.scripts payloads !! vout) ->
       Admission.Satoshis o = FormatUint satoshis /\
       Admission.Script o = Admission.mkRange (AdmissionPlan.payloadRef script Admission.AdmissionPayloadLockingScript) (str "0") (FormatUint (len script)) /\
       Admission.Payload (Admission.Script o) ∈ published_list).
Proof.
  intros Hok Hi. unfold AdmissionPlan.admissionOutputs. eexists. split; [rewrite list_lookup_fmap, Hi; reflexivity|].
  unfold AdmissionPlan.admittedOutputValue. destruct (AdmissionPlan.outputAt tx vout) as [[satoshis' script']|] eqn:Eo; (split; [done|]); [|done].
  intros satoshis script [= -> ->] [ref Href]. destruct (Hok vout ref Href) as (Hin & script' & Es & Er). unfold scriptAt in Es. rewrite Eo in Es. injection Es as ->.
  cbn. rewrite Href. cbn [default from_option id]. subst ref. done.
Qed.

(** C3.  A plan says exactly what was decided.  Building a plan ends and only publishes
    payloads and asks for fences.  If it succeeds then, whatever the order of the maps:
    the plan has one decision per topic, without repetitions, in the order of the
    request; a decision admits the outputs that the topic's manager admitted, in order,
    each with the value of the transaction's output and a reference to its whole script;
    it spends exactly the topic's inputs, and links the retained ones to every output;
    its fence was read, and ensured by the storage, while the plan was built; everything the plan
    refers to was published, under the digest and the length of its bytes; there is one
    intent per lookup service, and one for propagation unless the mode is historical;
    and the stored steak reads back as the one that was decided. *)
Theorem plan_is_faithful (p : Params) (tx : Transaction) (steak : Steak) (topicInputs : TopicInputs) (s : St) :
  exists r s' tr, buildAdmissionPlan e p tx steak topicInputs s = Some (r, s') /\ trace s' = trace s ++ tr /\ Forall planning tr /\
  forall plan, r = Ok plan ->
    let txid := AdmissionPlan.hexID (pTxid p) in
    map Admission.decTopic (Decisions plan) = identityTopics p /\ NoDup (identityTopics p) /\
    (forall ref, ref ∈ Payloads plan -> ready tr ref) /\
    (forall d, d ∈ Decisions plan ->
       let instr := default noAdmittance (steak !! Admission.decTopic d) in
       let inputs := inputsOf topicInputs (Admission.decTopic d) in
       fenced tr d /\
       map Admission.outOutpoint (Admission.decOutputs d) =
         map (fun vout => Admission.mkAdmissionOutpoint txid (FormatUint vout)) (elements (OutputsToAdmit instr)) /\
       (forall i vout satoshis script, elements (OutputsToAdmit instr) !! i = Some vout -> AdmissionPlan.outputAt tx vout = Some (satoshis, Some script) ->
          exists o, Admission.decOutputs d !! i = Some o /\ Admission.Satoshis o = FormatUint satoshis /\
            Admission.Script o = Admission.mkRange (AdmissionPlan.payloadRef script Admission.AdmissionPayloadLockingScript) (str "0") (FormatUint (len script)) /\
            Admission.Payload (Admission.Script o) ∈ Payloads plan) /\
       Admission.Spends d ≡ₚ AdmissionPlan.admissionSpends (map_to_list inputs) txid /\
       forall edge, edge ∈ Admission.Edges d <-> exists vin o output, vin ∈ elements (CoinsToRetain instr) /\ inputs !! vin = Some o /\
         output ∈ Admission.decOutputs d /\ edge = Admission.mkEdge (AdmissionPlan.admissionOutpointFrom (oOutpoint o)) (Admission.outOutpoint output)) /\
    (exists raw names, raw ∈ Payloads plan /\ names ≡ₚ (map_to_list (lookupServices e)).*1 /\ Outbox plan = admissionOutbox p raw names) /\
    (AdmissionPlan.steak_ok steak -> AdmissionPlan.parseSavedSteak (comSteak plan) = Ok (AdmissionPlan.saved <$> steak)).
Proof.
  destruct (wp_returns _ _ _ (buildAdmissionPlan_wp p tx steak topicInputs s)) as (r & s' & E & tr & Etr & Hplan & Hr).
  exists r, s', tr. split_and!; [done..|]. intros plan ->. destruct (Hr plan eq_refl) as (digest & index & names & _ & _ & _ & Hpub & Hds & Hnames & Hout & Hsteak).
  destruct Hpub as (Hready & Hraw & Hrawin & Hok & Hall & _). cbv zeta. split_and!.
  - clear -Hds. induction Hds as [|t d ts ds [_ Hd] _ IH]; [done|]. cbn [map]. rewrite IH. f_equal. apply Hd.
  - apply (Admission.dedupe_spec ∅ (pTopics p)).
  - done.
  - intros d Hd. apply list_elem_of_lookup in Hd as [k Hk]. destruct (Forall2_lookup_r _ _ _ _ _ Hds Hk) as (topic & _ & Hf & Hdec).
    destruct Hdec as (-> & _ & _ & _ & Eouts & Hspends & Hedges). split_and!; [done| | |done|done].
    + rewrite Eouts. unfold AdmissionPlan.admissionOutputs. rewrite map_map. apply map_ext. intros vout. by destruct (AdmissionPlan.admittedOutputValue _ _ _).
    + intros i vout satoshis script Hi Ho. destruct (planned_output tx (AdmissionPlan.hexID (pTxid p)) _ index (Payloads plan) i vout Hok Hi) as (o & Eo & _ & Hvalue).
      exists o. rewrite Eouts. split; [done|]. apply Hvalue; [done|]. destruct (steak !! topic) as [instr|] eqn:Et; [|cbn in Hi; by rewrite lookup_nil in Hi].
      eapply Hall; [exact Et|by eapply list_elem_of_lookup_2|unfold scriptAt; rewrite Ho; by eexists].
  - by exists (AdmissionPlan.raw index), names.
  - intros Hok'. rewrite Hsteak. by apply AdmissionPlan.steak_json.
Qed.

(** ** The phases of a submission *)

Definition broadcasting (ev : event) : Prop := match ev with BroadcastCall _ => True | _ => False end.

(** The callbacks of the host after a commit. *)
Definition callbacks (p : Params) : list event :=
  (if hasSteakReady p then [SteakReadyCall] else []) ++
  (if negb (isHistorical (pMode p)) && hasOnAdmission e then [OnAdmissionCall] else []).

(** Everything that a plan refers to was published, and its fences were ensured. *)
Definition plan_ready (p : Params) (tr : list event) (plan : AdmissionCommit) : Prop :=
  map Admission.decTopic (Decisions plan) = identityTopics p /\
  (forall ref, ref ∈ Payloads plan -> ready tr ref) /\ (forall d, d ∈ Decisions plan -> fenced tr d).

(** What the storage has committed. *)
Definition committed (res : result Admission.AdmissionCommitResult) : option Steak :=
  match res with
  | Ok (Admission.mkCommitResult Admission.AdmissionCommitStateCommitted (Some saved) _ _) =>
      match AdmissionPlan.parseSavedSteak (Admission.Steak saved) with Ok steak => Some steak | _ => None end
  | _ => None
  end.

(** The commit, if it comes to it, and what follows. *)
Definition concluded (p : Params) (plans commits : list event) (r : result Steak) : Prop :=
  match commits with
  | [] => is_ok r = false
  | CommitAdmissionCall plan res :: calls =>
      plan_ready p plans plan /\
      match committed res with
      | Some steak => r = Ok steak /\ calls = callbacks p
      | None => is_ok r = false /\ calls = []
      end
  | _ => False
  end.

Definition admission_phases (p : Params) (tr : list event) (r : result Steak) : Prop :=
  exists reads host plans commits, tr = reads ++ host ++ plans ++ commits /\
    Forall reading reads /\ Forall broadcasting host /\ Forall planning plans /\
    (host ++ plans ++ commits <> [] -> validateTopicsAndGetManagers e (pTopics p) = Ok tt /\ VerifyCall (Ok true) ∈ reads) /\
    (plans ++ commits <> [] -> isHistorical (pMode p) = false -> hasBroadcaster e = true -> BroadcastCall (Ok tt) ∈ host) /\
    concluded p plans commits r.

Lemma admission_reads (p : Params) (tr : list event) (r : result Steak) : Forall reading tr -> is_ok r = false -> admission_phases p tr r.
Proof. intros F Hr. exists tr, [], [], []. rewrite !app_nil_r. by split_and!. Qed.

Lemma broadcast_wp (t : bool) (tx : Transaction) (mode : SumbitMode) (s : St) :
  wp t (broadcastIfNeeded e tx mode) s (fun r s' => exists host, trace s' = trace s ++ host /\ Forall broadcasting host /\
    (is_ok r = true -> isHistorical mode = false -> hasBroadcaster e = true -> BroadcastCall (Ok tt) ∈ host)).
Proof.
  unfold broadcastIfNeeded. destruct (isHistorical mode), (hasBroadcaster e); cbn [orb negb];
    try (apply wp_ret; exists []; rewrite app_nil_r; by split_and!).
  apply wp_observe. intros r w _. exists [BroadcastCall r]. split_and!; [done|by repeat constructor|].
  intros Hr _ _. destruct r as [[]|err|]; [by left|done..].
Qed.

Lemma callbacks_wp (t : bool) (p : Params) (steak : Steak) (s : St) :
  wp t ((if hasSteakReady p then emit SteakReadyCall else mret tt) ≫= fun _ =>
        (if negb (isHistorical (pMode p)) && hasOnAdmission e then emit OnAdmissionCall else mret tt) ≫= fun _ => mret steak) s
    (fun r s' => r = Ok steak /\ trace s' = trace s ++ callbacks p).
Proof.
  unfold callbacks. destruct (hasSteakReady p), (negb (isHistorical (pMode p)) && hasOnAdmission e); (split; [done|]); cbn; rewrite ?app_nil_r, <- ?app_assoc; done.
Qed.

Lemma submitWithAdmission_wp (p : Params) (tx : Transaction) (steak : Steak) (topicInputs : TopicInputs) (reads : list event) (w : W) :
  validateTopicsAndGetManagers e (pTopics p) = Ok tt -> VerifyCall (Ok true) ∈ reads -> Forall reading reads ->
  wp true (submitWithAdmission e p tx steak topicInputs) (mkSt w reads) (fun r s' => admission_phases p (trace s') r).
Proof.
  intros Hval Hver Hreads. unfold submitWithAdmission. destruct hostMethods; cbn [negb]; [|by apply wp_lift, admission_reads].
  apply wp_bind. eapply wp_mono; [apply broadcast_wp|]. intros r s1 (host & E1 & F1 & Hb). cbn [trace] in E1.
  destruct r as [[]|err|]; [|by exists reads, host, [], []; rewrite !app_nil_r; split_and!..].
  apply wp_bind. eapply wp_mono; [apply buildAdmissionPlan_wp|]. intros r s2 (plans & E2 & F2 & Hplan).
  assert (Hphases : forall commits (r : result Steak), concluded p plans commits r -> admission_phases p (reads ++ host ++ plans ++ commits) r).
  { intros commits r0 Hc. exists reads, host, plans, commits. split_and!; try done. intros _. by apply Hb. }
  assert (Et : trace s2 = reads ++ host ++ plans) by (by rewrite E2, E1, app_assoc).
  destruct r as [plan|err|]; [|by rewrite Et; specialize (Hphases []); rewrite app_nil_r in Hphases; apply Hphases..].
  assert (Hready : plan_ready p plans plan).
  { destruct (Hplan plan eq_refl) as (digest & index & names & _ & _ & _ & (Hready & _) & Hds & _). split_and!; [|done|].
    - clear -Hds. induction Hds as [|t d ts ds [_ Hd] _ IH]; [done|]. cbn [map]. rewrite IH. f_equal. apply Hd.
    - intros d Hd. apply list_elem_of_lookup in Hd as [k Hk]. by destruct (Forall2_lookup_r _ _ _ _ _ Hds Hk) as (topic & _ & Hf & _). }
  apply wp_bind, wp_observe. intros res w3 _. cbn [trace]. rewrite Et, <- !app_assoc.
  assert (Hfail : forall r0 : result Steak, is_ok r0 = false -> committed res = None -> admission_phases p (reads ++ host ++ plans ++ [CommitAdmissionCall plan res]) r0).
  { intros r0 Hr0 Hc. apply Hphases. split; [done|]. by rewrite Hc. }
  destruct res as [[state receipt attempt code]|err|]; [|by apply Hfail..]. cbn [Admission.State Admission.Receipt].
  destruct state; try (apply wp_lift; by apply Hfail). destruct receipt as [saved|]; [|apply wp_lift; by apply Hfail].
  apply wp_bind, wp_lift. destruct (AdmissionPlan.parseSavedSteak (Admission.Steak saved)) as [steak'|err|] eqn:Esaved; [|by apply Hfail; [done|cbn; rewrite Esaved]..].
  eapply wp_mono; [apply callbacks_wp|]. intros r s4 [-> E4]. rewrite E4. cbn [trace]. rewrite <- !app_assoc. apply Hphases. split; [done|]. cbn. by rewrite Esaved.
Qed.

(** C2.  A submission to a storage with admission plans is decided by one commit.  It
    ends, whatever the storage holds, and works in phases: reads; the broadcast; the
    publishing of payloads and the reading of fences; one commit of a plan; the
    callbacks.  Nothing is broadcast before every topic is known and the transaction has
    passed the SPV check, and nothing is prepared before a broadcast that is due has
    succeeded.  The plan that is committed only refers to payloads that were published,
    has one decision per topic, and fences that the storage ensured.  The callbacks are
    made, and a steak is returned, if and only if the storage answers that it has
    committed, with a steak that can be read; it is that steak that is returned, not the
    one that was decided.  No output is inserted, spent or deleted outside the plan, and
    no lookup service is told. *)
Theorem admission_is_one_commit (fuel : nat) (p : Params) (beef : Beef) (w : W) :
  hasAdmission e = true ->
  exists r s', submitParsedBeefInternal e fuel p beef (mkSt w []) = Some (r, s') /\ admission_phases p (trace s') r.
Proof.
  intros Hadm. apply wp_returns. unfold submitParsedBeefInternal. apply wp_bind, wp_lift.
  destruct (validateTopicsAndGetManagers e (pTopics p)) as [[]|e'|] eqn:Hval; [|by apply admission_reads; [constructor|]..].
  destruct (FindTransactionForSigningByHash beef (pTxid p)) as [tx|]; [|by apply wp_lift, admission_reads; [constructor|]].
  apply wp_bind. unfold verifyTransaction. apply wp_bind. unfold wp at 1, observe.
  destruct (Verify tx _) as [[[]|e'|] w1]; [|by apply wp_lift, admission_reads; [repeat constructor|]|by apply admission_reads; [repeat constructor|]..].
  apply wp_ret. apply wp_bind. eapply wp_mono; [apply identify_wp|]. intros r s1 (tr & E1 & F1 & Hd). cbn [trace] in E1.
  assert (Hreads : Forall reading (VerifyCall (Ok true) :: tr)) by (by constructor).
  destruct r as [[[[beef' steak] inputs] dupes]|e'|]; [|rewrite E1; by apply admission_reads..].
  destruct s1 as [w2 tr2]. cbn [trace] in E1. subst tr2. rewrite Hadm. apply submitWithAdmission_wp; [done|by left|done].
Qed.

End AdmissionSubmit.

(** ** An instance: a transaction with one output, and a storage that commits every plan *)

Module Example.
Import EngineModel.

Definition tx : Transaction := mkTransaction (str "raw") None [] [Some (5, Some (str "script"))].

#[local] Instance sdk : TransactionSDK unit := {|
  txIDOf _ := zero_hash;
  ParseBeef _ := Err ErrInvalidBeef;
  FindTransactionForSigningByHash _ _ := Some tx;
  FindTransactionByHash _ _ := None;
  MergeBeef _ _ := Ok tt;
  AtomicBytes _ _ := Ok [];
  AtomicBEEF _ := Ok [];
  BEEF _ := Ok [];
  ComputeRoot _ _ := Ok zero_hash;
  pathBytes _ := [] |}.

Definition engine : EngineConfig :=
  mkConfig (managers config) (lookupServices config) (HostingURL config) true true true true.

Definition params : Params := mkParams zero_hash [str "tm"; str "tm"] (str "beef") (str "values") SubmitModeCurrent true.

Definition steak : gmap (list byte) AdmittanceInstructions := {[ str "tm" := mkAdmit (Some [0; 3]) None [] [] ]}.

Lemma admission_is_one_commit_witness :
  exists r s', submitParsedBeefInternal (W := unit) (Beef := unit) engine 0 params tt (mkSt tt []) = Some (r, s') /\
    admission_phases engine params (trace s') r.
Proof. apply (admission_is_one_commit (W := unit) (Beef := unit) engine 0 params tt tt). reflexivity. Defined.

(** What kind of call it is. *)
Definition kindOf (ev : event) : nat :=
  match ev with
  | VerifyCall _ => 0 | FindOutputsCall _ => 1 | IdentifyCall _ => 2 | BroadcastCall _ => 3 | PublishCall _ _ _ => 4 | FenceCall _ _ => 5
  | EnsureFenceCall _ _ _ => 6 | CommitAdmissionCall _ _ => 7 | SteakReadyCall => 8 | OnAdmissionCall => 9 | _ => 10
  end%nat.

Definition entries (r : result (gmap (list byte) AdmittanceInstructions)) : result (list (list byte * AdmittanceInstructions)) :=
  map_to_list <$> r.

(** The transaction, its script and the BEEF are published; the topic, named twice, is
    asked twice but decided once. *)
Example admission_trace :
  (fun '(r, s) => (entries r, map kindOf (trace s))) <$> submitParsedBeefInternal (W := unit) (Beef := unit) engine 0 params tt (mkSt tt []) =
  Some (Ok [(str "tm", mkAdmit (Some [0]) (Some []) [] [])], [0; 1; 2; 1; 2; 3; 4; 4; 4; 5; 6; 7; 8; 9]%nat).
Proof. vm_compute. reflexivity. Qed.

(** The values of the outputs: the second is not an output of the transaction. *)
Definition planOutputs : option (list (list byte * list byte)) :=
  match buildAdmissionPlan (W := unit) (Beef := unit) engine params tx steak ∅ (mkSt tt []) with
  | Some (Ok plan, _) => Some (flat_map (fun d => map (fun o => (Admission.Satoshis o, Admission.rangeLength (Admission.Script o))) (Admission.decOutputs d)) (Decisions plan))
  | _ => None
  end.

Lemma plan_is_faithful_witness :
  (exists r s' tr, buildAdmissionPlan (W := unit) (Beef := unit) engine params tx steak ∅ (mkSt tt []) = Some (r, s') /\
     trace s' = tr /\ Forall planning tr) /\
  planOutputs = Some [(str "5", str "6"); (str "0", str "3")].
Proof.
  split; [|vm_compute; reflexivity].
  destruct (plan_is_faithful (W := unit) (Beef := unit) engine params tx steak ∅ (mkSt tt [])) as (r & s' & tr & E & Et & F & _).
  exists r, s', tr. split; [exact E|]. split; [exact Et|exact F].
Defined.

End Example.
End AdmissionSubmit.
