(* ===== verification/GaspStorage.v ===== *)
(** * pkg/core/engine/gasp-storage.go: the temporary graphs of GASP

    The storage that the synchronisation works on: the graph of a traversal is
    collected in memory, validated, ordered and submitted to the engine.  A sync.Map
    is a finite map that is enumerated in a new order each time.  The pointers from
    a node to its parent and its children are the outpoints under which the graph
    keeps them.  One goroutine runs, so no other submission of the same transaction
    is in flight. *)

From stdpp Require Import sorting.
From S2P Require Import Prelude Bytes Runs Traced GaspTypes EngineTypes AdmissionPlan EngineModel Submit.
Import Gasp.
Open Scope Z_scope.

(** The parsers and constructors of the SDK that the graph uses. *)
Class GraphSDK (Beef : Type) := {
  ParseTransaction : list byte -> result Transaction;
  NewMerklePathFromBinary : list byte -> result MerklePath;
  NewBeefFromTransaction : Transaction -> result Beef;
  NewTransactionFromBEEF : list byte -> result Transaction;
  MergeBeefBytes : Beef -> list byte -> result Beef }.

Definition setSource (i : TxInput) (source : Transaction) : TxInput :=
  mkTxInput (inputOutpoint i) (UnlockingScript i) (SequenceNumber i) (Some source).

Definition setMerklePath (t : Transaction) (path : MerklePath) : Transaction :=
  mkTransaction (txBytes t) (Some path) (txInputs t) (txOutputs t).

Definition setInputs (t : Transaction) (inputs : list TxInput) : Transaction :=
  mkTransaction (txBytes t) (txMerklePath t) inputs (txOutputs t).

Module GaspStorage.
Section GaspStorage.
Context {W Beef : Type} `{TransactionSDK Beef} `{GraphSDK Beef} `{EngineStorage W Beef}
  `{TopicManagers W Beef} `{LookupServices W} `{Network W} `{MapRange W} `{MapRange (W * nat)} `{AdmissionHost W}.
Context (e : EngineConfig).

Record GraphNode := mkGraphNode {
  gNode : Node; gTxid : Hash; Children : gset Outpoint; Parent : option Outpoint }.

Record graphContext := mkGraph { nodes : gmap Outpoint GraphNode; count : Z }.

(** The fields of [OverlayGASPStorage] that do not change. *)
Record OverlayGASPStorage := mkStorage { Topic : list byte; MaxNodesInGraph : option Z }.

Inductive event :=
  | FindOutputCall (outpoint : Outpoint) (found : bool)
  | FindOutputsCall (outpoints : list Outpoint)
  | VerifyCall (tx : Transaction) (r : result bool)
  | AdmitCall (txid : Hash) (r : result (list Z))
  | NeededCall (txid : Hash)
  | SubmitCall (beef : list byte) (r : result unit).

Record St := mkSt {
  world : W; graphs : gmap Outpoint graphContext; tick : nat; trace : list event }.

Local Abbreviation Run := (Runs.Run St).

Definition observe {A} (op : Op W A) (ev : result A -> event) : Run A := fun s =>
  let '(r, w) := op (world s) in Some (r, mkSt w (graphs s) (tick s) (trace s ++ [ev r])).

(** [range m]; every loop has its own order. *)
Definition rangeMap {K V} `{Countable K} (m : gmap K V) : Run (list (K * V)) := fun s =>
  Some (Ok (range m (world s, tick s)), mkSt (world s) (graphs s) (S (tick s)) (trace s)).

(** A computation without effects, which may recurse. *)
Definition within {A} (m : Runs.Run unit A) : Run A := fun s =>
  match m tt with Some (r, _) => Some (r, s) | None => None end.

(** ** Reads *)

Definition FindKnownUTXOs (st : OverlayGASPStorage) (since limit : Z) : Op W (list Output) := fun w =>
  let '(r, w) := FindUTXOsForTopic (Topic st) since limit false w in
  (map (fun u => mkOutput (Txid (oOutpoint u)) (Index (oOutpoint u)) (oScore u)) <$> r, w).

Definition HasOutputs (st : OverlayGASPStorage) (outpoints : list Outpoint) : Op W (list bool) := fun w =>
  let '(r, w) := FindOutputs outpoints (Topic st) None false w in
  (map (fun o => bool_decide (is_Some o)) <$> r, w).

Definition HydrateGASPNode (graphID : option Outpoint) (outpoint : Outpoint) : Op W Node := fun w =>
  let '(r, w) := FindOutput outpoint None None true w in
  (r ≫= fun output =>
   match output ≫= oBeef with
   | None => Err ErrMissingInput
   | Some beef =>
       match FindTransactionForSigningByHash beef (Txid outpoint) with
       | None => Err ErrParsedBEEFReturnedNilTx
       | Some tx =>
           Ok (mkNode graphID (txBytes tx) (Index outpoint)
                 (match txMerklePath tx with Some p => pathBytes p | None => [] end) [] [] ∅)
       end
   end, w).

(** [IdentifyAdmissibleOutputs] and [IdentifyNeededInputs]: the manager of the
    topic is asked. *)
Definition identifyAdmissibleOutputs (st : OverlayGASPStorage) (beef : Beef) (txid : Hash)
    (previousCoins : list Z) : Run AdmittanceInstructions :=
  match managers e !! Topic st with
  | None => lift (Err ErrNoManagerForTopic)
  | Some _ =>
      observe (IdentifyAdmissibleOutputs (Topic st) beef txid previousCoins)
        (fun r => AdmitCall txid ((fun a => elements (OutputsToAdmit a)) <$> r))
  end.

Definition identifyNeededInputs (st : OverlayGASPStorage) (beef : Beef) (txid : Hash) : Run (list Outpoint) :=
  match managers e !! Topic st with
  | None => lift (Err ErrNoManagerForTopic)
  | Some _ => observe (IdentifyNeededInputs (Topic st) beef txid) (fun _ => NeededCall txid)
  end.

(** The loop of [stripAlreadyKnowInputs] over the requested inputs. *)
Fixpoint stripLoop (st : OverlayGASPStorage) (l : list (Outpoint * option NodeResponseData))
    (requested : gmap Outpoint (option NodeResponseData)) : Run (gmap Outpoint (option NodeResponseData)) :=
  match l with
  | [] => mret requested
  | (outpoint, _) :: l' =>
      found ← observe (FindOutput outpoint (Some (Topic st)) None false)
                (fun r => FindOutputCall outpoint (match r with Ok (Some _) => true | _ => false end));
      stripLoop st l' (match found with Some _ => delete outpoint requested | None => requested end)
  end.

Definition stripAlreadyKnowInputs (st : OverlayGASPStorage) (response : NodeResponse) : Run NodeResponse :=
  l ← rangeMap (RequestedInputs response);
  requested ← stripLoop st l (RequestedInputs response);
  mret (mkNodeResponse requested).

Definition request (metadata : bool) (outpoints : list Outpoint) : NodeResponse :=
  mkNodeResponse (foldl (fun m o => <[o := Some (mkNodeResponseData metadata)]> m) ∅ outpoints).

(** The outputs found for the inputs of a transaction are merged into its BEEF; the
    positions of those found are the previous coins. *)
Fixpoint mergeFound (vin : Z) (outputs : list (option (EngineOutput Beef))) (beef : Beef)
    (previousCoins : list Z) : result (Beef * list Z) :=
  match outputs with
  | [] => Ok (beef, previousCoins)
  | None :: outputs' => mergeFound (vin + 1) outputs' beef previousCoins
  | Some output :: outputs' =>
      beef' ← match oBeef output with Some b => MergeBeef beef b | None => Ok beef end;
      mergeFound (vin + 1) outputs' beef' (previousCoins ++ [u32 vin])
  end.

(** An error is ignored, with what the manager would have admitted. *)
Definition ignoreError (m : Run AdmittanceInstructions) : Run AdmittanceInstructions := fun s =>
  match m s with
  | Some (Err _, s') => Some (Ok noAdmittance, s')
  | r => r
  end.

Definition FindNeededInputs (st : OverlayGASPStorage) (gaspTx : Node) : Run NodeResponse :=
  tx ← lift (ParseTransaction (RawTx gaspTx));
  let inpoints := map inputOutpoint (txInputs tx) in
  if len (Proof_ gaspTx) =? 0 then stripAlreadyKnowInputs st (request false inpoints)
  else
    path ← lift (NewMerklePathFromBinary (Proof_ gaspTx));
    let tx := setMerklePath tx path in
    beef ← lift (NewBeefFromTransaction tx);
    outputs ← observe (FindOutputs inpoints (Topic st) None true) (fun _ => FindOutputsCall inpoints);
    '(beef, previousCoins) ← lift (mergeFound 0 outputs beef []);
    instr ← ignoreError (identifyAdmissibleOutputs st beef (txIDOf tx) previousCoins);
    if bool_decide (nodeOutputIndex gaspTx ∈ elements (OutputsToAdmit instr)) then mret (mkNodeResponse ∅)
    else
      neededInputs ← identifyNeededInputs st beef (txIDOf tx);
      stripAlreadyKnowInputs st (request true neededInputs).

(** ** The graph *)

Definition setGraph (id : Outpoint) (g : graphContext) : Run unit := fun s =>
  Some (Ok tt, mkSt (world s) (<[id := g]> (graphs s)) (tick s) (trace s)).

Definition addChild (o : Outpoint) (n : GraphNode) : GraphNode :=
  mkGraphNode (gNode n) (gTxid n) ({[ o ]} ∪ Children n) (Parent n).

Definition setParent (p : Outpoint) (n : GraphNode) : GraphNode :=
  mkGraphNode (gNode n) (gTxid n) (Children n) (Some p).

(** [graphs.LoadOrStore] of an empty graph *)
Definition loadOrStoreGraph (id : Outpoint) : Run graphContext := fun s =>
  let graph := default (mkGraph ∅ 0) (graphs s !! id) in
  Some (Ok graph, mkSt (world s) (<[id := graph]> (graphs s)) (tick s) (trace s)).

(** [AppendToGraph]: the limit, the parsers, then [LoadOrStore] of the node and its
    link to the node that spends it. *)
Definition AppendToGraph (st : OverlayGASPStorage) (gaspTx : Node) (spentBy : option Outpoint) : Run unit :=
  match GraphID gaspTx with
  | None => lift (Err ErrMissingGraphID)
  | Some id =>
      graph ← loadOrStoreGraph id;
      if (match MaxNodesInGraph st with Some max => max <=? count graph | None => false end)
      then lift (Err ErrGraphFull) else
      tx ← lift (ParseTransaction (RawTx gaspTx));
      let txid := txIDOf tx in
      lift (if 0 <? len (Proof_ gaspTx) then NewMerklePathFromBinary (Proof_ gaspTx) ≫= fun _ => Ok tt
            else Ok tt) ≫= fun _ =>
      let o := mkOutpoint txid (nodeOutputIndex gaspTx) in
      let graph := match nodes graph !! o with
                   | Some _ => graph
                   | None => mkGraph (<[o := mkGraphNode gaspTx txid ∅ None]> (nodes graph)) (count graph + 1)
                   end in
      setGraph id graph ≫= fun _ =>
      match spentBy with
      | None => mret tt
      | Some p =>
          match nodes graph !! p with
          | None => lift (Err ErrMissingInput)
          | Some _ =>
              setGraph id (mkGraph (alter (setParent p) o (alter (addChild o) p (nodes graph))) (count graph))
          end
      end
  end.

Definition loadGraph (graphID : option Outpoint) (s : St) : option graphContext :=
  match graphID with None => None | Some id => graphs s !! id end.

(** [DiscardGraph]; a nil graph ID is dereferenced. *)
Definition DiscardGraph (graphID : option Outpoint) : Run unit := fun s =>
  match graphID with
  | None => Some (Panic, s)
  | Some id => Some (Ok tt, mkSt (world s) (delete id (graphs s)) (tick s) (trace s))
  end.

(** ** The BEEF of a node *)

(** The loop of [hydrator] over the inputs. *)
Fixpoint hydrateInputs (hydrator : GraphNode -> Runs.Run unit Transaction) (graph : graphContext)
    (inputs : list TxInput) : Runs.Run unit (list TxInput) :=
  match inputs with
  | [] => mret []
  | input :: inputs' =>
      match nodes graph !! inputOutpoint input with
      | None => lift (Err ErrRequiredInputNodeNotFoundInTempGraph)
      | Some foundNode =>
          source ← hydrator foundNode;
          rest ← hydrateInputs hydrator graph inputs';
          mret (setSource input source :: rest)
      end
  end.

(** The closure [hydrator] of [getBEEFForNode]. *)
Fixpoint hydrator (fuel : nat) (graph : graphContext) (node : GraphNode) : Runs.Run unit Transaction :=
  match fuel with
  | O => exhausted
  | S fuel' =>
      tx ← lift (ParseTransaction (RawTx (gNode node)));
      if 0 <? len (Proof_ (gNode node)) then
        path ← lift (NewMerklePathFromBinary (Proof_ (gNode node)));
        mret (setMerklePath tx path)
      else
        inputs ← hydrateInputs (hydrator fuel' graph) graph (txInputs tx);
        mret (setInputs tx inputs)
  end.

Definition getBEEFForNode (fuel : nat) (graph : graphContext) (node : option GraphNode)
    : Runs.Run unit (list byte) :=
  match node with
  | None => lift (Err ErrNilNode)
  | Some node =>
      tx ← hydrator fuel graph node;
      beef ← lift (NewBeefFromTransaction tx);
      lift (AtomicBytes beef (txIDOf tx))
  end.

(** ** Ordering *)

(** The nodes by transaction; of several nodes of a transaction the last one of the
    enumeration stays. *)
Definition nodesByTxid (l : list (Outpoint * GraphNode)) : gmap Hash GraphNode :=
  foldl (fun m on => <[gTxid on.2 := on.2]> m) ∅ l.

(** The inputs that are other transactions of the graph. *)
Definition graphInputs (chosen : gmap Hash GraphNode) (txid : Hash) (tx : Transaction) : gset Hash :=
  list_to_set (filter (fun t => is_Some (chosen !! t) /\ t <> txid)
                 (map (fun i => Txid (inputOutpoint i)) (txInputs tx))).

Fixpoint dependencies (chosen : gmap Hash GraphNode) (l : list (Hash * GraphNode))
    (deps : gmap Hash (gset Hash)) : result (gmap Hash (gset Hash)) :=
  match l with
  | [] => Ok deps
  | (txid, node) :: l' =>
      tx ← ParseTransaction (RawTx (gNode node));
      dependencies chosen l' (<[txid := graphInputs chosen txid tx]> deps)
  end.

(** One pass over the transactions: the BEEFs, what was emitted, the progress. *)
Fixpoint emitReady (fuel : nat) (graph : graphContext) (chosen : gmap Hash GraphNode)
    (l : list (Hash * gset Hash)) (beefs : list (list byte)) (emitted : gset Hash) (progress : bool)
    : Run (list (list byte) * gset Hash * bool) :=
  match l with
  | [] => mret (beefs, emitted, progress)
  | (txid, txDeps) :: l' =>
      if bool_decide (txid ∈ emitted) || negb (bool_decide (txDeps ⊆ emitted)) then
        emitReady fuel graph chosen l' beefs emitted progress
      else
        beef ← within (getBEEFForNode fuel graph (chosen !! txid));
        emitReady fuel graph chosen l' (beefs ++ [beef]) ({[ txid ]} ∪ emitted) true
  end.

Fixpoint emitAll (passes fuel : nat) (graph : graphContext) (chosen : gmap Hash GraphNode)
    (deps : gmap Hash (gset Hash)) (beefs : list (list byte)) (emitted : gset Hash)
    : Run (list (list byte)) :=
  if bool_decide (size emitted < size chosen)%nat then
    match passes with
    | O => exhausted
    | S passes' =>
        l ← rangeMap deps;
        '(beefs, emitted, progress) ← emitReady fuel graph chosen l beefs emitted false;
        if (progress : bool) then emitAll passes' fuel graph chosen deps beefs emitted
        else lift (Err ErrGraphDependencyCycle)
    end
  else mret beefs.

(** [computeOrderedBEEFsForGraph]; each pass emits a transaction, so there are no
    more passes than transactions. *)
Definition computeOrderedBEEFsForGraph (fuel : nat) (graph : graphContext) : Run (list (list byte)) :=
  l ← rangeMap (nodes graph);
  let chosen := nodesByTxid l in
  if bool_decide (chosen = ∅) then lift (Err ErrUnableToFindRootNodeInGraph) else
  byTxid ← rangeMap chosen;
  deps ← lift (dependencies chosen byTxid ∅);
  emitAll (size chosen) fuel graph chosen deps [] ∅.

(** ** Validation *)

(** The loop of [ValidateGraphAnchor] over the outputs found for the inputs of a
    transaction; coins admitted earlier in the pass count as found. *)
Fixpoint mergeGraph (vin : Z) (inpoints : list Outpoint) (outputs : list (option (EngineOutput Beef)))
    (coins : gset Outpoint) (graphBeefs : gmap Hash (list byte)) (beef : Beef) (previousCoins : list Z)
    : result (Beef * list Z) :=
  match outputs with
  | [] => Ok (beef, previousCoins)
  | Some output :: outputs' =>
      beef' ← match oBeef output with Some b => MergeBeef beef b | None => Ok beef end;
      mergeGraph (vin + 1) inpoints outputs' coins graphBeefs beef' (previousCoins ++ [u32 vin])
  | None :: outputs' =>
      match inpoints !! Z.to_nat vin with
      | None => Panic
      | Some inpoint =>
          if bool_decide (inpoint ∈ coins) then
            beef' ← match graphBeefs !! Txid inpoint with
                    | Some ancestorBeef => MergeBeefBytes beef ancestorBeef
                    | None => Ok beef
                    end;
            mergeGraph (vin + 1) inpoints outputs' coins graphBeefs beef' (previousCoins ++ [u32 vin])
          else mergeGraph (vin + 1) inpoints outputs' coins graphBeefs beef previousCoins
      end
  end.

(** The loop over the ordered BEEFs: the coins the topic manager admits. *)
Fixpoint admitGraph (st : OverlayGASPStorage) (beefs : list (list byte)) (coins : gset Outpoint)
    (graphBeefs : gmap Hash (list byte)) : Run (gset Outpoint) :=
  match beefs with
  | [] => mret coins
  | beefBytes :: beefs' =>
      '(beef, tx, txid) ← lift (ParseBeef beefBytes);
      match tx, txid with
      | Some tx, Some txid =>
          let inpoints := map inputOutpoint (txInputs tx) in
          outputs ← observe (FindOutputs inpoints (Topic st) None true) (fun _ => FindOutputsCall inpoints);
          '(beef, previousCoins) ← lift (mergeGraph 0 inpoints outputs coins graphBeefs beef []);
          instr ← identifyAdmissibleOutputs st beef txid previousCoins;
          let vouts := elements (OutputsToAdmit instr) in
          admitGraph st beefs' (list_to_set (map (mkOutpoint txid) vouts) ∪ coins)
            (if bool_decide (vouts = []) then graphBeefs else <[txid := beefBytes]> graphBeefs)
      | _, _ => lift Panic
      end
  end.

Definition ValidateGraphAnchor (fuel : nat) (st : OverlayGASPStorage) (graphID : option Outpoint)
    : Run unit := fun s =>
  match graphID, loadGraph graphID s with
  | Some id, Some graph =>
      (match nodes graph !! id with
       | None => lift (Err ErrMissingInput)
       | Some rootNode =>
           beef ← within (getBEEFForNode fuel graph (Some rootNode));
           tx ← lift (NewTransactionFromBEEF beef);
           valid ← observe (Verify tx) (VerifyCall tx);
           if negb (valid : bool) then lift (Err ErrGraphAnchorInvalidTx) else
           beefs ← computeOrderedBEEFsForGraph fuel graph;
           coins ← admitGraph st beefs ∅ ∅;
           if bool_decide (id ∈ coins) then mret tt else lift (Err ErrGraphNoTopicalAdmittance)
       end) s
  | _, _ => Some (Err ErrMissingInput, s)
  end.

(** ** Submission *)

(** [Engine.Submit], run on the engine's state. *)
Definition engineSubmit (fuel : nat) (topic : list byte) (beef : list byte) : Run unit := fun s =>
  match Submit.Submit e fuel [topic] beef [] SubmitModeHistorical false (Traced.mkSt (world s) []) with
  | Some (r, s') =>
      let r := (fun _ => tt) <$> r in
      Some (r, mkSt (Traced.world s') (graphs s) (tick s) (trace s ++ [SubmitCall beef r]))
  | None => None
  end.

(** [submitBeef], for the goroutine that does the work. *)
Definition submitBeef (fuel : nat) (st : OverlayGASPStorage) (beef : list byte) : Run unit :=
  '(_, tx, txid) ← lift (ParseBeef beef);
  match tx, txid with
  | None, _ => lift (Err ErrNoTransactionInBEEF)
  | Some _, None => lift Panic
  | Some _, Some _ => engineSubmit fuel (Topic st) beef
  end.

Definition FinalizeGraph (fuel : nat) (st : OverlayGASPStorage) (graphID : option Outpoint) : Run unit := fun s =>
  match loadGraph graphID s with
  | None => Some (Err ErrUnableToFindRootNodeInGraph, s)
  | Some graph =>
      (beefs ← computeOrderedBEEFsForGraph fuel graph;
       forEach (submitBeef fuel st) beefs) s
  end.

(** ** The graphs are well-formed *)

Definition node_ok (id : Outpoint) (g : graphContext) (o : Outpoint) (n : GraphNode) : Prop :=
  GraphID (gNode n) = Some id /\
  o = mkOutpoint (gTxid n) (nodeOutputIndex (gNode n)) /\
  (exists tx, ParseTransaction (RawTx (gNode n)) = Ok tx /\ gTxid n = txIDOf tx) /\
  (forall c, c ∈ Children n -> exists cn, nodes g !! c = Some cn /\ is_Some (Parent cn)) /\
  (forall p, Parent n = Some p -> exists pn, nodes g !! p = Some pn /\ o ∈ Children pn).

Definition graph_ok (st : OverlayGASPStorage) (id : Outpoint) (g : graphContext) : Prop :=
  count g = Z.of_nat (size (nodes g)) /\
  (forall max, MaxNodesInGraph st = Some max -> count g <= Z.max 0 max) /\
  map_Forall (node_ok id g) (nodes g).

Definition graphs_ok (st : OverlayGASPStorage) (s : St) : Prop := map_Forall (graph_ok st) (graphs s).

Lemma graph_ok_empty st id : graph_ok st id (mkGraph ∅ 0).
Proof. split_and!; [done|simpl; lia|apply map_Forall_empty]. Qed.

Lemma graph_ok_insert st id g o gaspTx tx :
  graph_ok st id g -> nodes g !! o = None -> GraphID gaspTx = Some id ->
  ParseTransaction (RawTx gaspTx) = Ok tx -> o = mkOutpoint (txIDOf tx) (nodeOutputIndex gaspTx) ->
  (forall max, MaxNodesInGraph st = Some max -> count g < max) ->
  graph_ok st id (mkGraph (<[o := mkGraphNode gaspTx (txIDOf tx) ∅ None]> (nodes g)) (count g + 1)).
Proof.
  intros (Hc & Hm & Hn) Ho Hid Htx Eo Hmax. split_and!; simpl.
  - rewrite map_size_insert_None by done. lia.
  - intros max Hst. specialize (Hmax _ Hst). lia.
  - apply map_Forall_insert_2.
    + split_and!; simpl; [done|done|by eauto|set_solver|done].
    + intros o' n' Hn'. destruct (Hn o' n' Hn') as (Ha & Hb & Hd & Hcs & Hps). split_and!; [done..| |].
      * intros c Hch. destruct (Hcs c Hch) as (cn & Ecn & ?). exists cn. simpl. rewrite lookup_insert_ne; congruence || done.
      * intros p Hp. destruct (Hps p Hp) as (pn & Epn & ?). exists pn. simpl. rewrite lookup_insert_ne; congruence || done.
Qed.

(** The nodes once [o] is linked to its parent [p]. *)
Definition link (p o : Outpoint) (m : gmap Outpoint GraphNode) : gmap Outpoint GraphNode :=
  alter (setParent p) o (alter (addChild o) p m).

Lemma link_lookup p o m o' :
  link p o m !! o' =
  (fun n => (if bool_decide (o' = o) then setParent p else fun x => x)
              ((if bool_decide (o' = p) then addChild o else fun x => x) n)) <$> m !! o'.
Proof.
  unfold link. case_bool_decide as E1; [subst o'; rewrite lookup_alter_eq|rewrite lookup_alter_ne by done];
    (case_bool_decide as E2; [subst p; rewrite lookup_alter_eq|rewrite lookup_alter_ne by done]);
    by destruct (m !! _).
Qed.

Lemma link_size p o m : size (link p o m) = size m.
Proof.
  rewrite <- !size_dom. f_equal. apply leibniz_equiv. unfold link. by rewrite !dom_alter.
Qed.

Lemma graph_ok_link st id g o p :
  graph_ok st id g -> is_Some (nodes g !! o) -> is_Some (nodes g !! p) ->
  graph_ok st id (mkGraph (link p o (nodes g)) (count g)).
Proof.
  intros (Hc & Hm & Hn) [no Ho] [np Hp]. split_and!; simpl; [|done|].
  - by rewrite Hc, link_size.
  - intros o' n' Hl. rewrite link_lookup in Hl. apply fmap_Some in Hl as (n & En & ->).
    destruct (Hn o' n En) as (Ha & Hb & Hd & Hcs & Hps).
    unfold node_ok; split_and!; [by repeat case_bool_decide..| |].
    + intros c Hch. assert (Hch' : c ∈ Children n \/ c = o /\ o' = p).
      { revert Hch. repeat case_bool_decide; simpl; set_solver. }
      assert (Hcn : exists cn, nodes g !! c = Some cn /\ (is_Some (Parent cn) \/ c = o)).
      { destruct Hch' as [Hch'|[-> _]]; [|by eauto]. destruct (Hcs c Hch') as (cn & ? & ?). eauto. }
      destruct Hcn as (cn & Ecn & Hcn). eexists. cbn [nodes]. rewrite link_lookup, Ecn. split; [done|].
      repeat case_bool_decide; simpl; try done; by destruct Hcn.
    + intros q Hq. assert (Hq' : Parent n = Some q \/ o' = o /\ q = p).
      { revert Hq. repeat case_bool_decide; simpl; intros; simplify_eq; auto. }
      assert (Hpn : exists pn, nodes g !! q = Some pn /\ (o' ∈ Children pn \/ o' = o /\ q = p)).
      { destruct Hq' as [Hq'|[-> ->]]; [|by eauto]. destruct (Hps q Hq') as (pn & ? & ?). eauto. }
      destruct Hpn as (pn & Epn & Hpn). eexists. cbn [nodes]. rewrite link_lookup, Epn. split; [done|].
      repeat case_bool_decide; simpl; destruct Hpn as [?|[-> ->]]; set_solver.
Qed.

(** What a call of [AppendToGraph] does to the graph [g] of its traversal: when it
    succeeds the node is stored under its outpoint and linked to its spender; an
    error leaves the nodes as they were, except that a node whose spender is missing
    stays, unlinked; so does a panic, which the parsers of the SDK may raise. *)
Definition appended (gaspTx : Node) (spentBy : option Outpoint) (r : result unit) (g g' : graphContext) : Prop :=
  match r with
  | Ok _ => exists tx n, ParseTransaction (RawTx gaspTx) = Ok tx /\
      let o := mkOutpoint (txIDOf tx) (nodeOutputIndex gaspTx) in
      nodes g' !! o = Some n /\ (nodes g !! o = None -> gNode n = gaspTx) /\
      (forall p, spentBy = Some p -> Parent n = Some p /\
         exists pn, nodes g' !! p = Some pn /\ o ∈ Children pn)
  | Err e => nodes g' = nodes g \/
      (e = ErrMissingInput /\ exists o p, spentBy = Some p /\ nodes g !! p = None /\
         nodes g' = <[o := mkGraphNode gaspTx (Txid o) ∅ None]> (nodes g))
  | Panic => nodes g' = nodes g
  end.

Lemma graphs_ok_insert st s id g w n tr :
  graphs_ok st s -> graph_ok st id g -> graphs_ok st (mkSt w (<[id := g]> (graphs s)) n tr).
Proof. intros Hs Hg. by apply map_Forall_insert_2. Qed.

Lemma graphs_ok_default st s id : graphs_ok st s -> graph_ok st id (default (mkGraph ∅ 0) (graphs s !! id)).
Proof.
  intros Hs. destruct (graphs s !! id) as [g|] eqn:E; simpl; [by apply Hs|apply graph_ok_empty].
Qed.

(** The state once the graph of [id] is [g]. *)
Definition withGraph (id : Outpoint) (g : graphContext) (s : St) : St :=
  mkSt (world s) (<[id := g]> (graphs s)) (tick s) (trace s).

Lemma withGraph_twice id g g' s : withGraph id g (withGraph id g' s) = withGraph id g s.
Proof. unfold withGraph. simpl. by rewrite insert_insert_eq. Qed.

Lemma wp_setGraph t id g s (Q : result unit -> St -> Prop) :
  Q (Ok tt) (withGraph id g s) -> wp t (setGraph id g) s Q.
Proof. done. Qed.

Lemma wp_loadOrStoreGraph t id s (Q : result graphContext -> St -> Prop) :
  (let g := default (mkGraph ∅ 0) (graphs s !! id) in Q (Ok g) (withGraph id g s)) ->
  wp t (loadOrStoreGraph id) s Q.
Proof. done. Qed.

Lemma AppendToGraph_wp st gaspTx spentBy s :
  graphs_ok st s ->
  wp true (AppendToGraph st gaspTx spentBy) s (fun r s' =>
    match GraphID gaspTx with
    | None => r = Err ErrMissingGraphID /\ s' = s
    | Some id => exists g', s' = withGraph id g' s /\ graph_ok st id g' /\
        appended gaspTx spentBy r (default (mkGraph ∅ 0) (graphs s !! id)) g'
    end).
Proof.
  intros Hs. unfold AppendToGraph. destruct (GraphID gaspTx) as [id|] eqn:Eid; [|done].
  pose proof (graphs_ok_default st s id Hs) as Hg. 
  apply wp_bind, wp_loadOrStoreGraph. set (g := default _ _) in *. cbv zeta.
  destruct (match MaxNodesInGraph st with Some max => max <=? count g | None => false end) eqn:Efull.
  { apply wp_lift. exists g. split_and!; [done..|by left]. }
  apply wp_bind, wp_lift.
  destruct (ParseTransaction (RawTx gaspTx)) as [tx|err|] eqn:Etx; [|exists g; split_and!; [done..|by left]|by exists g].
  apply wp_bind, wp_lift.
  destruct (if 0 <? len (Proof_ gaspTx) then _ else _) as [[]|err|]; [|exists g; split_and!; [done..|by left]|by exists g].
  set (o := mkOutpoint (txIDOf tx) (nodeOutputIndex gaspTx)). set (g1 := match nodes g !! o with Some _ => g | None => _ end).
  assert (Hg1 : graph_ok st id g1 /\ is_Some (nodes g1 !! o)).
  { subst g1. destruct (nodes g !! o) as [n|] eqn:En; [split; [done|by eauto]|]. split.
    - apply graph_ok_insert; try done. intros max Hmax. rewrite Hmax in Efull. lia.
    - simpl. rewrite lookup_insert_eq. eauto. }
  destruct Hg1 as [Hg1 [n En]].
  assert (Hfresh : nodes g !! o = None -> gNode n = gaspTx).
  { subst g1. destruct (nodes g !! o); [done|]. simpl in En. rewrite lookup_insert_eq in En. by injection En as <-. }
  apply wp_bind, wp_setGraph. rewrite withGraph_twice.
  destruct spentBy as [p|].
  - destruct (nodes g1 !! p) as [np|] eqn:Ep.
    + apply wp_setGraph. rewrite withGraph_twice. fold (link p o (nodes g1)).
      eexists. split_and!; [done|by apply graph_ok_link; eauto|]. eexists tx, _. cbv zeta. fold o. cbn [nodes].
      split_and!; [done|by rewrite link_lookup, En| |].
      * intros Hn. rewrite bool_decide_true by done. simpl. by case_bool_decide; simpl; apply Hfresh.
      * intros q [= <-]. rewrite bool_decide_true by done. split; [done|]. eexists. rewrite link_lookup, Ep. split; [done|].
        rewrite (bool_decide_true (p = p)) by done. case_bool_decide; simpl; set_solver.
    + apply wp_lift. exists g1. split_and!; [done..|]. simpl. subst g1.
      destruct (nodes g !! o) eqn:Eo; [by left|]. right. split; [done|]. simpl in Ep.
      exists o, p. split_and!; [done| |done]. by apply lookup_insert_None in Ep as [? _].
  - apply wp_ret. exists g1. split_and!; [done..|]. exists tx, n. split_and!; done.
Qed.

(** ** Hydrated transactions *)

(** Every branch of the transactions linked as sources ends in a proof. *)
#[warnings="-register-all"]
Inductive anchored : Transaction -> Prop :=
  | anchored_proof t : is_Some (txMerklePath t) -> anchored t
  | anchored_inputs t :
      Forall (fun i => exists source, SourceTransaction i = Some source /\ anchored source) (txInputs t) ->
      anchored t.

(** Transactions spend transactions of lower rank: none is its own ancestor. *)
Definition acyclic (rank : Hash -> nat) (graph : graphContext) : Prop :=
  forall o n tx i, nodes graph !! o = Some n -> ParseTransaction (RawTx (gNode n)) = Ok tx ->
    i ∈ txInputs tx -> (rank (Txid (inputOutpoint i)) < rank (Txid o))%nat.

(** [n] is a node of [graph] that [fuel] calls of [hydrator] are enough for. *)
Definition hydratable (rank : Hash -> nat) (fuel : nat) (graph : graphContext) (n : GraphNode) : Prop :=
  acyclic rank graph /\ exists o, nodes graph !! o = Some n /\ (rank (Txid o) < fuel)%nat.

Lemma hydrateInputs_wp t (hyd : GraphNode -> Runs.Run unit Transaction) graph inputs (P : GraphNode -> Prop) :
  (forall n, P n -> wp t (hyd n) tt (fun r _ => forall tx, r = Ok tx -> anchored tx)) ->
  (forall i n, i ∈ inputs -> nodes graph !! inputOutpoint i = Some n -> P n) ->
  wp t (hydrateInputs hyd graph inputs) tt (fun r _ => forall ins, r = Ok ins ->
    Forall (fun i => exists source, SourceTransaction i = Some source /\ anchored source) ins).
Proof.
  intros Hhyd. induction inputs as [|i inputs IH]; intros HP; cbn [hydrateInputs].
  - apply wp_ret. intros ins [= <-]. constructor.
  - destruct (nodes graph !! inputOutpoint i) as [n|] eqn:En; [|by apply wp_lift].
    apply wp_bind. eapply wp_mono; [apply Hhyd, (HP i); [set_solver|done]|].
    intros [source|err|] [] Hsource; [|done..]. apply wp_bind.
    eapply wp_mono; [apply IH; intros; eapply HP; [|done]; set_solver|].
    intros [rest|err|] [] Hrest; [|done..]. apply wp_ret. intros ins [= <-].
    constructor; [|by apply Hrest]. exists source. split; [done|]. by apply Hsource.
Qed.

Lemma hydrator_wp t rank fuel graph n :
  (t = true -> hydratable rank fuel graph n) ->
  wp t (hydrator fuel graph n) tt (fun r _ => forall tx, r = Ok tx -> anchored tx).
Proof.
  revert n. induction fuel as [|fuel IH]; intros n Hn; cbn [hydrator].
  - unfold wp, exhausted. destruct t; [|done]. destruct (Hn eq_refl) as (_ & o & _ & ?). lia.
  - apply wp_bind, wp_lift. destruct (ParseTransaction _) as [tx|err|] eqn:Etx; [|done..].
    destruct (0 <? _).
    { apply wp_bind, wp_lift. destruct (NewMerklePathFromBinary _) as [path|err|]; [|done..].
      apply wp_ret. intros tx' [= <-]. apply anchored_proof. simpl. eauto. }
    apply wp_bind. eapply wp_mono.
    + apply (hydrateInputs_wp t _ _ _ (fun n' => t = true -> hydratable rank fuel graph n')); [apply IH|].
      intros i n' Hi En' Ht. destruct (Hn Ht) as (Hac & o & En & Ho). split; [done|].
      exists (inputOutpoint i). split; [done|]. pose proof (Hac o n tx i En Etx Hi). lia.
    + intros [ins|err|] [] His; [|done..]. apply wp_ret. intros tx' [= <-]. apply anchored_inputs.
      by apply His.
Qed.

(** The BEEF of the node [n], as [getBEEFForNode] builds it. *)
Definition beef_of (fuel : nat) (graph : graphContext) (n : GraphNode) (beef : list byte) : Prop :=
  getBEEFForNode fuel graph (Some n) tt = Some (Ok beef, tt).

(** It is the serialization of a transaction whose branches all end in a proof. *)
Lemma getBEEFForNode_wp t rank fuel graph n :
  (t = true -> hydratable rank fuel graph n) ->
  wp t (getBEEFForNode fuel graph (Some n)) tt (fun r _ => forall b, r = Ok b ->
    exists tx beef, anchored tx /\ NewBeefFromTransaction tx = Ok beef /\ AtomicBytes beef (txIDOf tx) = Ok b).
Proof.
  intros Hn. cbn [getBEEFForNode]. apply wp_bind. eapply wp_mono; [by apply (hydrator_wp t rank)|].
  intros [tx|err|] [] Htx; [|done..]. apply wp_bind, wp_lift.
  destruct (NewBeefFromTransaction tx) as [beef|err|] eqn:Eb; [|done..]. apply wp_lift.
  intros b Hb. exists tx, beef. split_and!; [by apply Htx|done..].
Qed.

(** ** The order of the transactions *)

(** One node for each transaction of the graph. *)
Definition represents (graph : graphContext) (chosen : gmap Hash GraphNode) : Prop :=
  (forall t n, chosen !! t = Some n -> gTxid n = t /\ exists o, nodes graph !! o = Some n) /\
  (forall o n, nodes graph !! o = Some n -> is_Some (chosen !! gTxid n)).

(** What [t] needs before it. *)
Definition needs (chosen : gmap Hash GraphNode) (t : Hash) : gset Hash :=
  match chosen !! t with
  | Some n => match ParseTransaction (RawTx (gNode n)) with
              | Ok tx => graphInputs chosen t tx
              | _ => ∅
              end
  | None => ∅
  end.

(** Every transaction once, after its inputs. *)
Definition topological (chosen : gmap Hash GraphNode) (order : list Hash) : Prop :=
  NoDup order /\ (forall t, t ∈ order <-> is_Some (chosen !! t)) /\
  forall i t, order !! i = Some t -> needs chosen t ⊆ list_to_set (take i order).

Lemma nodesByTxid_represents graph l :
  l ≡ₚ map_to_list (nodes graph) -> represents graph (nodesByTxid l).
Proof.
  intros Hl. assert (Hin : forall o n, (o, n) ∈ l <-> nodes graph !! o = Some n).
  { intros o n. rewrite Hl. apply elem_of_map_to_list. }
  enough (Hfold : (forall t n, nodesByTxid l !! t = Some n -> gTxid n = t /\ exists o, (o, n) ∈ l) /\
                  (forall o n, (o, n) ∈ l -> is_Some (nodesByTxid l !! gTxid n))).
  { destruct Hfold as [H1' H2']. split.
    - intros t n E. destruct (H1' t n E) as (? & o & ?). split; [done|]. exists o. by apply Hin.
    - intros o n E. apply (H2' o). by apply Hin. }
  clear Hl Hin. unfold nodesByTxid. induction l as [|[o n] l [IH1 IH2]] using rev_ind; [split|rewrite foldl_app; simpl; split].
  - intros t n E. simpl in E. by rewrite lookup_empty in E.
  - intros o n E. by apply not_elem_of_nil in E.
  - intros t n' E. destruct (decide (gTxid n = t)) as [<-|Ht].
    + rewrite lookup_insert_eq in E. injection E as <-. split; [done|]. exists o. set_solver.
    + rewrite lookup_insert_ne in E by done. destruct (IH1 t n' E) as (? & o' & ?). split; [done|].
      exists o'. set_solver.
  - intros o' n' E. destruct (decide (gTxid n = gTxid n')) as [Et|Ht].
    + rewrite Et, lookup_insert_eq. eauto.
    + rewrite lookup_insert_ne by done. apply elem_of_app in E as [E|E]; [by apply (IH2 o')|].
      apply list_elem_of_singleton in E. congruence.
Qed.

Lemma dependencies_lookup chosen l deps0 deps :
  NoDup l.*1 -> dependencies chosen l deps0 = Ok deps ->
  forall t, deps !! t = match (list_to_map l : gmap Hash GraphNode) !! t with
                        | Some n => match ParseTransaction (RawTx (gNode n)) with
                                    | Ok tx => Some (graphInputs chosen t tx)
                                    | _ => None
                                    end
                        | None => deps0 !! t
                        end.
Proof.
  revert deps0. induction l as [|[txid node] l IH]; intros deps0 Hnd Hr t; simpl in *.
  - injection Hr as ->. by rewrite lookup_empty.
  - apply NoDup_cons in Hnd as [Hn Hnd]. destruct (ParseTransaction _) as [tx|err|] eqn:Etx; [|done..].
    simpl in Hr. rewrite (IH _ Hnd Hr). destruct (decide (txid = t)) as [<-|Ht].
    + rewrite (not_elem_of_list_to_map_1 l) by done. by rewrite !lookup_insert_eq, Etx.
    + by rewrite !(lookup_insert_ne _ txid) by done.
Qed.

(** The dependencies that the code computes are those of the specification. *)
Lemma dependencies_needs chosen l deps :
  l ≡ₚ map_to_list chosen -> dependencies chosen l ∅ = Ok deps ->
  forall t d, deps !! t = Some d <-> is_Some (chosen !! t) /\ d = needs chosen t.
Proof.
  intros Hl Hr t d. assert (Hnd : NoDup l.*1) by (rewrite Hl; apply NoDup_fst_map_to_list).
  assert (El : (list_to_map l : gmap Hash GraphNode) = chosen).
  { rewrite (list_to_map_proper l _ Hnd Hl). apply list_to_map_to_list. }
  rewrite (dependencies_lookup _ _ _ _ Hnd Hr), El. unfold needs.
  destruct (chosen !! t) as [n|] eqn:En; [|split; [by rewrite lookup_empty|by intros [[? ?] ?]]].
  assert (Hok : exists tx, ParseTransaction (RawTx (gNode n)) = Ok tx).
  { assert (Hin : (t, n) ∈ l) by (rewrite Hl; by apply elem_of_map_to_list).
    clear Hl Hnd El En. revert Hr. generalize (∅ : gmap Hash (gset Hash)).
    induction l as [|[t' n'] l IH]; intros d0 Hr; [by apply not_elem_of_nil in Hin|].
    simpl in Hr. destruct (ParseTransaction (RawTx (gNode n'))) as [tx|err|] eqn:E; [|done..].
    apply elem_of_cons in Hin as [[= -> ->]|Hin]; eauto. }
  destruct Hok as [tx ->]. split; [intros [= <-]; eauto|]. by intros [_ ->].
Qed.

(** What a pass has emitted: the start of a topological order, with its BEEFs. *)
Definition emitted_order (fuel : nat) (graph : graphContext) (chosen : gmap Hash GraphNode)
    (beefs : list (list byte)) (emitted : gset Hash) (order : list Hash) : Prop :=
  NoDup order /\ emitted = list_to_set order /\
  (forall i t, order !! i = Some t -> is_Some (chosen !! t) /\ needs chosen t ⊆ list_to_set (take i order)) /\
  Forall2 (fun t b => exists n, chosen !! t = Some n /\ beef_of fuel graph n b) order beefs.

Lemma emitted_order_snoc fuel graph chosen beefs emitted order t n b :
  emitted_order fuel graph chosen beefs emitted order ->
  chosen !! t = Some n -> beef_of fuel graph n b -> (t ∉ emitted) -> needs chosen t ⊆ emitted ->
  emitted_order fuel graph chosen (beefs ++ [b]) ({[ t ]} ∪ emitted) (order ++ [t]).
Proof.
  intros (Hnd & -> & Hneeds & Hb) En Hbeef Ht Hd. split_and!.
  - apply NoDup_app. split_and!; [done| |apply NoDup_singleton]. set_solver.
  - rewrite list_to_set_app_L. set_solver.
  - intros i u Hu. apply lookup_snoc_Some in Hu as [[Hi Hu]|[-> <-]].
    + rewrite take_app_le by lia. by apply Hneeds.
    + rewrite take_app_length. eauto.
  - apply Forall2_app; [done|]. constructor; [|constructor]. eauto.
Qed.

(** The order is complete when it has as many transactions as the graph. *)
Lemma emitted_order_complete fuel graph chosen beefs emitted order :
  emitted_order fuel graph chosen beefs emitted order -> ~ (size emitted < size chosen)%nat ->
  topological chosen order.
Proof.
  intros (Hnd & -> & Hneeds & _) Hsize. split_and!; [done| |intros i t Ht; by apply Hneeds].
  assert (Hsub : list_to_set order ⊆ dom chosen).
  { intros t Ht. apply elem_of_list_to_set, list_elem_of_lookup in Ht as [i Hi].
    apply elem_of_dom. by apply (Hneeds i). }
  assert (Eq : list_to_set order ≡ dom chosen).
  { apply set_subseteq_size_equiv; [done|]. rewrite size_dom. lia. }
  intros t. rewrite <- elem_of_dom, <- Eq. by rewrite elem_of_list_to_set.
Qed.

(** When every transaction left needs another that is left, no order exists. *)
Lemma stuck_no_order (chosen : gmap Hash GraphNode) (emitted : gset Hash) :
  (size emitted < size chosen)%nat ->
  (forall t, is_Some (chosen !! t) -> t ∈ emitted \/ ~ needs chosen t ⊆ emitted) ->
  ~ exists order, topological chosen order.
Proof.
  intros Hsize Hstuck (order & _ & Hall & Hneeds).
  assert (Hin : forall i t, order !! i = Some t -> t ∈ emitted).
  { intros i. induction i as [i IH] using lt_wf_ind. intros t Ht.
    destruct (Hstuck t) as [?|Hn]; [by eapply Hall, list_elem_of_lookup_2|done|].
    destruct Hn. intros d Hd%(Hneeds i t Ht)%elem_of_list_to_set.
    apply list_elem_of_lookup in Hd as [j Hj]. apply lookup_take_Some in Hj as [Hj ?]. eauto. }
  assert (Hsub : dom chosen ⊆ emitted).
  { intros t Ht%elem_of_dom%Hall. apply list_elem_of_lookup in Ht as [i Hi]. eauto. }
  apply subseteq_size in Hsub. rewrite size_dom in Hsub. lia.
Qed.

Section Ordering.
Context (t : bool) (rank : Hash -> nat) (fuel : nat) (graph : graphContext).
Context (Hfuel : t = true -> forall o n, nodes graph !! o = Some n -> hydratable rank fuel graph n).

(** The BEEF of every node can be built. *)
Definition builds : Prop := forall o n, nodes graph !! o = Some n -> exists b, beef_of fuel graph n b.

Lemma within_beef_wp o n s (Q : result (list byte) -> St -> Prop) :
  nodes graph !! o = Some n ->
  (forall r, (forall b, r = Ok b -> beef_of fuel graph n b) -> (builds -> is_ok r = true) -> Q r s) ->
  wp t (within (getBEEFForNode fuel graph (Some n))) s Q.
Proof using Hfuel.
  intros Hn HQ.
  pose proof (getBEEFForNode_wp t rank fuel graph n (fun Ht => Hfuel Ht o n Hn)) as Hwp.
  unfold wp, within in *. destruct (getBEEFForNode fuel graph (Some n) tt) as [[r []]|] eqn:E; [|done].
  apply HQ.
  - intros b ->. exact E.
  - intros Hb. destruct (Hb o n Hn) as [b Hb']. unfold beef_of in Hb'. rewrite E in Hb'. by injection Hb' as ->.
Qed.

Lemma emitReady_wp chosen l beefs emitted order progress s :
  represents graph chosen ->
  (forall u d, (u, d) ∈ l -> is_Some (chosen !! u) /\ d = needs chosen u) ->
  emitted_order fuel graph chosen beefs emitted order ->
  wp t (emitReady fuel graph chosen l beefs emitted progress) s (fun r s' => s' = s /\
    (builds -> is_ok r = true) /\
    forall beefs' emitted' progress', r = Ok (beefs', emitted', progress') ->
      exists more, emitted_order fuel graph chosen beefs' emitted' (order ++ more) /\
        progress' = progress || negb (bool_decide (more = [])) /\
        (more = [] -> forall u d, (u, d) ∈ l -> u ∈ emitted \/ ~ d ⊆ emitted)).
Proof using Hfuel.
  intros [Hrep _]. revert beefs emitted order progress.
  induction l as [|[u d] l IH]; intros beefs emitted order progress Hl Ho; cbn [emitReady].
  - apply wp_ret. split_and!; [done..|]. intros ? ? ? [= <- <- <-]. exists [].
    rewrite app_nil_r, orb_false_r. split_and!; [done..|]. intros _ u d Hin. by apply not_elem_of_nil in Hin.
  - assert (Hl' : forall u d, (u, d) ∈ l -> is_Some (chosen !! u) /\ d = needs chosen u) by (intros; apply Hl; set_solver).
    destruct (Hl u d ltac:(set_solver)) as [[n En] Ed].
    destruct (bool_decide (u ∈ emitted) || negb (bool_decide (d ⊆ emitted))) eqn:Eg.
    + eapply wp_mono; [by apply (IH beefs emitted order)|]. intros r s' (-> & Hok & Hr). split_and!; [done..|].
      intros beefs' emitted' progress' Er. destruct (Hr _ _ _ Er) as (more & ? & ? & Hst). exists more.
      split_and!; [done..|]. intros Em u' d' [[= -> ->]|Hin]%elem_of_cons; [|by apply Hst].
      apply orb_true_iff in Eg as [Eg%bool_decide_eq_true|Eg%negb_true_iff%bool_decide_eq_false]; auto.
    + apply orb_false_iff in Eg as [Eg%bool_decide_eq_false Hd%negb_false_iff%bool_decide_eq_true].
      destruct (Hrep u n En) as (_ & o & Eo). rewrite En. apply wp_bind. apply (within_beef_wp o n); [done|].
      intros r Hb Hok. destruct r as [b|err|]; [|by split_and!..].
      eapply wp_mono.
      * apply (IH (beefs ++ [b]) ({[ u ]} ∪ emitted) (order ++ [u])); [done|].
        apply (emitted_order_snoc _ _ _ _ _ _ _ n); auto; by rewrite <- Ed.
      * intros r s' (-> & Hok' & Hr). split_and!; [done..|]. intros beefs' emitted' progress' Er.
        destruct (Hr _ _ _ Er) as (more & Hm & -> & _). exists (u :: more).
        rewrite <- app_assoc in Hm. split_and!; [done| |done].
        rewrite (bool_decide_false (u :: more = [])) by done. by rewrite orb_true_r.
Qed.

(** What the ordering of the transactions [chosen] returns. *)
Definition ordered (chosen : gmap Hash GraphNode) (r : result (list (list byte))) : Prop :=
  (forall beefs, r = Ok beefs -> exists order, topological chosen order /\
     Forall2 (fun u b => exists n, chosen !! u = Some n /\ beef_of fuel graph n b) order beefs) /\
  (builds -> is_ok r = true \/ r = Err ErrGraphDependencyCycle /\ ~ exists order, topological chosen order).

(** Two states differ in the tick only. *)
Definition quiet (s s' : St) : Prop := world s' = world s /\ graphs s' = graphs s /\ trace s' = trace s.

Lemma emitAll_wp passes chosen deps beefs emitted order s :
  represents graph chosen ->
  (forall u d, deps !! u = Some d <-> is_Some (chosen !! u) /\ d = needs chosen u) ->
  emitted_order fuel graph chosen beefs emitted order -> (size chosen - size emitted <= passes)%nat ->
  wp t (emitAll passes fuel graph chosen deps beefs emitted) s (fun r s' => quiet s s' /\ ordered chosen r).
Proof using Hfuel.
  intros Hrep Hdeps. revert beefs emitted order s.
  induction passes as [|passes IH]; intros beefs emitted order s Ho Hp; cbn [emitAll];
    (case_bool_decide as Hsize; [|apply wp_ret; split; [done|]; split; [|by left];
       intros ? [= <-]; exists order; split; [by eapply emitted_order_complete|apply Ho]]); [lia|].
  apply wp_bind. unfold wp at 1, rangeMap. set (s1 := mkSt _ _ _ _).
  assert (Hl : forall u d, (u, d) ∈ range deps (world s, tick s) <-> is_Some (chosen !! u) /\ d = needs chosen u).
  { intros u d. rewrite range_perm, elem_of_map_to_list. apply Hdeps. }
  apply wp_bind. eapply wp_mono.
  { apply emitReady_wp; [done| |done]. intros u d. apply Hl. }
  intros r s2 (-> & Hok & Hr). destruct r as [[[beefs' emitted'] progress]|err|].
  - destruct (Hr _ _ _ eq_refl) as (more & Ho' & -> & Hstuck). simpl. case_bool_decide as Hmore; simpl.
    + apply wp_lift. split; [done|]. split; [done|]. intros _. right. split; [done|].
      apply (stuck_no_order chosen emitted Hsize). intros u Hu. by apply (Hstuck Hmore u _), Hl.
    + eapply wp_mono; [apply (IH _ _ _ _ Ho')|].
      * destruct Ho as (Hnd & -> & _), Ho' as (Hnd' & -> & _). rewrite !size_list_to_set in * by done.
        rewrite length_app. destruct more; [done|]. simpl. lia.
      * intros r' s2 [Hq Hord]. split; [exact Hq|done].
  - split; [done|]. split; [done|]. intros Hb. by specialize (Hok Hb).
  - split; [done|]. split; [done|]. intros Hb. by specialize (Hok Hb).
Qed.
End Ordering.

Lemma computeOrderedBEEFsForGraph_wp t rank fuel graph s :
  (t = true -> forall o n, nodes graph !! o = Some n -> hydratable rank fuel graph n) ->
  wp t (computeOrderedBEEFsForGraph fuel graph) s (fun r s' => quiet s s' /\
    (nodes graph = ∅ -> r = Err ErrUnableToFindRootNodeInGraph) /\
    (forall beefs, r = Ok beefs -> exists chosen order, represents graph chosen /\ topological chosen order /\
       Forall2 (fun u b => exists n, chosen !! u = Some n /\ beef_of fuel graph n b) order beefs) /\
    (nodes graph <> ∅ -> builds fuel graph -> exists chosen, represents graph chosen /\
       (is_ok r = true \/ r = Err ErrGraphDependencyCycle /\ ~ exists order, topological chosen order))).
Proof.
  intros Hfuel. unfold computeOrderedBEEFsForGraph. apply wp_bind. unfold wp at 1, rangeMap.
  pose proof (nodesByTxid_represents graph _ (range_perm (nodes graph) (world s, tick s))) as Hrep.
  set (chosen := nodesByTxid _) in *. set (s1 := mkSt _ _ _ _).
  assert (Hempty : chosen = ∅ <-> nodes graph = ∅).
  { destruct Hrep as [H1' H2']. split; intros E; apply map_empty.
    - intros o. destruct (nodes graph !! o) as [n|] eqn:En; [|done].
      destruct (H2' o n En) as [? Ec]. by rewrite E, lookup_empty in Ec.
    - intros u. destruct (chosen !! u) as [n|] eqn:En; [|done].
      destruct (H1' u n En) as (_ & o & Eo). by rewrite E, lookup_empty in Eo. }
  case_bool_decide as Ec; [apply wp_lift; split_and!; [done..|]; intros Hne; by apply Hempty in Ec|].
  apply wp_bind. unfold wp at 1, rangeMap. set (s2 := mkSt _ _ _ _).
  set (byTxid := range chosen (world s1, tick s1)).
  assert (Hby : byTxid ≡ₚ map_to_list chosen) by apply range_perm.
  apply wp_bind, wp_lift.
  assert (Hparses : builds fuel graph -> is_ok (dependencies chosen byTxid ∅) = true).
  { intros Hb. assert (Hall : forall u n, (u, n) ∈ byTxid -> exists tx, ParseTransaction (RawTx (gNode n)) = Ok tx).
    { intros u n Hin. rewrite Hby in Hin. apply elem_of_map_to_list in Hin.
      destruct Hrep as [Hrep _]. destruct (Hrep u n Hin) as (_ & o & Eo). destruct (Hb o n Eo) as [b Hbeef].
      unfold beef_of, getBEEFForNode, mbind, run_bind in Hbeef. destruct fuel; [done|]. cbn [hydrator] in Hbeef.
      unfold mbind, run_bind, lift in Hbeef. destruct (ParseTransaction _); [eauto|done..]. }
    generalize (∅ : gmap Hash (gset Hash)). clear Hby. induction byTxid as [|[u n] l IH]; intros d; [done|].
    simpl. destruct (Hall u n ltac:(set_solver)) as [tx ->]. simpl. apply IH.
    intros u1 n1 Hin. apply (Hall u1). set_solver. }
  assert (Hne : nodes graph <> ∅) by (intros ?; by apply Ec, Hempty).
  destruct (dependencies chosen byTxid ∅) as [deps|err|] eqn:Ed;
    [|split_and!; [done..|]; intros _ Hb; by specialize (Hparses Hb)..].
  eapply wp_mono.
  - apply (emitAll_wp t rank fuel graph Hfuel _ chosen deps [] ∅ []); [done| | |].
    + intros u d. by apply (dependencies_needs chosen byTxid).
    + split_and!; [constructor|done|by intros i u|constructor].
    + lia.
  - intros r s3 ([Hw [Hg Ht]] & Hord & Hb). split_and!; [done| |intros beefs Er|intros _ Hbuilds].
    + by intros ?%Hne.
    + destruct (Hord beefs Er) as (order & ? & ?). eauto.
    + eauto.
Qed.

(** With acyclic transactions an order exists. *)
Lemma acyclic_order rank graph chosen :
  map_Forall (fun o n => gTxid n = Txid o) (nodes graph) -> acyclic rank graph -> represents graph chosen ->
  exists order, topological chosen order.
Proof.
  intros Hkey Hac [Hrep _].
  set (R := fun a b : Hash => (rank a <= rank b)%nat).
  assert (Hdec : forall x y, Decision (R x y)) by (intros; unfold R; apply _).
  exists (merge_sort R (base.elements (dom chosen))).
  assert (Hp : merge_sort R (base.elements (dom chosen)) ≡ₚ base.elements (dom chosen)) by apply merge_sort_Permutation.
  assert (Hs : StronglySorted R (merge_sort R (base.elements (dom chosen)))).
  { apply StronglySorted_merge_sort; intros ?; unfold R; lia. }
  set (order := merge_sort R _) in *. split_and!.
  - rewrite Hp. apply NoDup_elements.
  - intros u. by rewrite Hp, elem_of_elements, elem_of_dom.
  - intros i u Hu d Hd. unfold needs in Hd. assert (Hin : u ∈ order) by by eapply list_elem_of_lookup_2.
    rewrite Hp, elem_of_elements, elem_of_dom in Hin. destruct Hin as [n En]. rewrite En in Hd.
    destruct (ParseTransaction _) as [tx|err|] eqn:Etx; [|set_solver..].
    destruct (Hrep u n En) as (Eu & o & Eo). unfold graphInputs in Hd.
    apply elem_of_list_to_set, list_elem_of_filter in Hd as [[Hd _] (inp & -> & Hinp)%list_elem_of_fmap].
    pose proof (Hac o n tx inp Eo Etx Hinp) as Hlt. rewrite <- (Hkey o n Eo), Eu in Hlt.
    set (d := Txid (inputOutpoint inp)) in *.
    assert (Hdo : d ∈ order) by by rewrite Hp, elem_of_elements, elem_of_dom.
    rewrite <- (take_drop i order), elem_of_app in Hdo. destruct Hdo as [?|Hdo]; [by apply elem_of_list_to_set|].
    rewrite (drop_S _ _ _ Hu) in Hdo. apply elem_of_cons in Hdo as [->|Hdo]; [lia|].
    rewrite <- (take_drop_middle _ _ _ Hu) in Hs. apply StronglySorted_app in Hs as (_ & _ & Hs).
    apply StronglySorted_inv in Hs as [_ Hs]. rewrite Forall_forall in Hs. specialize (Hs d Hdo). unfold R in Hs. lia.
Qed.

(** C12.  The order in which the transactions of a graph are validated and submitted.
    In a graph without cycles whose transactions are hashed by their content, the
    computation returns; it fails for an empty graph, and succeeds whenever the BEEF
    of each node can be built: the cycle error is never reported.  What it returns
    is, for one node of each transaction, its BEEF, each transaction once and after
    all of its inputs that are in the graph, whatever the order in which the maps
    are enumerated; nothing else changes. *)
Theorem graph_order rank fuel graph s :
  map_Forall (fun o n => gTxid n = Txid o) (nodes graph) -> acyclic rank graph ->
  map_Forall (fun o n => (rank (Txid o) < fuel)%nat) (nodes graph) ->
  exists r s', computeOrderedBEEFsForGraph fuel graph s = Some (r, s') /\ quiet s s' /\
    (nodes graph = ∅ -> r = Err ErrUnableToFindRootNodeInGraph) /\
    (nodes graph <> ∅ -> builds fuel graph -> is_ok r = true) /\
    (forall beefs, r = Ok beefs -> exists chosen order,
       represents graph chosen /\ topological chosen order /\
       Forall2 (fun t b => exists n, chosen !! t = Some n /\ beef_of fuel graph n b) order beefs).
Proof.
  intros Hkey Hac Hfuel.
  assert (Hwp := computeOrderedBEEFsForGraph_wp true rank fuel graph s
    (fun _ o n Hn => conj Hac (ex_intro _ o (conj Hn (Hfuel o n Hn))))).
  unfold wp in Hwp. destruct (computeOrderedBEEFsForGraph fuel graph s) as [[r s']|] eqn:E; [|done].
  destruct Hwp as (Hq & He & Ho & Hb). exists r, s'. split_and!; try done.
  intros Hne Hbuilds. destruct (Hb Hne Hbuilds) as (chosen & Hrep & [?|[_ Hno]]); [done|].
  destruct Hno. by eapply acyclic_order.
Qed.

(** The submissions of a finalization: [done] were accepted, then at most one was
    refused. *)
Definition submissions (beefs : list (list byte)) (r : result unit) (tr : list event) : Prop :=
  match r with
  | Ok _ => tr = map (fun b => SubmitCall b (Ok tt)) beefs
  | _ => exists done rest, beefs = done ++ rest /\
      (tr = map (fun b => SubmitCall b (Ok tt)) done \/
       exists b, head rest = Some b /\ tr = map (fun b => SubmitCall b (Ok tt)) done ++ [SubmitCall b r])
  end.

(** The engine's storage has histories that end, and the fuel is above their ranks. *)
Definition engine_ends (fuel : nat) : Prop :=
  exists rank : Outpoint -> nat, Submit.history_ends rank /\ (forall o, S (rank o) < fuel)%nat /\ hasAdmission e = false.

Lemma submitBeef_wp t fuel st beef s :
  (t = true -> engine_ends fuel) ->
  wp t (submitBeef fuel st beef) s (fun r s' => graphs s' = graphs s /\
    exists tr, trace s' = trace s ++ tr /\
      (tr = [SubmitCall beef r] \/ tr = [] /\ is_ok r = false)).
Proof.
  intros Hends. unfold submitBeef. apply wp_bind, wp_lift.
  destruct (ParseBeef beef) as [[[b tx] txid]|err|]; [|split; [done|]; exists []; rewrite app_nil_r; auto..].
  destruct tx, txid; try (apply wp_lift; split; [done|]; exists []; rewrite app_nil_r; auto).
  unfold wp, engineSubmit. destruct (Submit.Submit _ _ _ _ _ _ _ _) as [[r s']|] eqn:Esubmit.
  - simpl. split; [done|]. eexists. split; [done|]. by left.
  - destruct t; [|done]. destruct (Hends eq_refl) as (rank & Hh & Hfuel & Hadm).
    pose proof (Submit.Submit_wp e rank fuel [Topic st] beef [] SubmitModeHistorical false (world s) Hh Hfuel Hadm) as Hwp.
    unfold wp in Hwp. by rewrite Esubmit in Hwp.
Qed.

Lemma submitAll_wp t fuel st beefs s :
  (t = true -> engine_ends fuel) ->
  wp t (forEach (submitBeef fuel st) beefs) s (fun r s' => graphs s' = graphs s /\
    exists tr, trace s' = trace s ++ tr /\ submissions beefs r tr).
Proof.
  intros Hends. revert s. induction beefs as [|b beefs IH]; intros s; cbn [forEach].
  - apply wp_ret. split; [done|]. exists []. by rewrite app_nil_r.
  - apply wp_bind. eapply wp_mono; [by apply submitBeef_wp|].
    intros r s1 (Eg & tr & Et & Htr). destruct r as [[]|err|].
    + destruct Htr as [->|[_ ?]]; [|done]. eapply wp_mono; [apply IH|].
      intros r s2 (Eg2 & tr2 & Et2 & Htr2). split; [congruence|].
      eexists. rewrite Et2, Et, <- app_assoc. split; [done|].
      destruct r as [u|err|]; [by simpl in *; subst|..];
        destruct Htr2 as (dn & rest & -> & Htr2); exists (b :: dn), rest; split; try done;
        (destruct Htr2 as [->|(b' & ? & ->)]; [by left|right; by exists b']).
    + split; [done|]. exists tr. split; [done|]. exists [], (b :: beefs). split; [done|].
      destruct Htr as [->|[-> _]]; [right; by exists b|by left].
    + split; [done|]. exists tr. split; [done|]. exists [], (b :: beefs). split; [done|].
      destruct Htr as [->|[-> _]]; [right; by exists b|by left].
Qed.

(** The BEEF of every node of a graph is built within the fuel: its transactions have no
    cycle, and the fuel is above their ranks. *)
Definition buildable (fuel : nat) (graph : graphContext) : Prop :=
  exists rank : Hash -> nat, acyclic rank graph /\ map_Forall (fun o n => (rank (Txid o) < fuel)%nat) (nodes graph).

Lemma computeOrdered_wp t fuel graph s :
  (t = true -> buildable fuel graph) ->
  wp t (computeOrderedBEEFsForGraph fuel graph) s (fun r s' => quiet s s' /\
    forall beefs, r = Ok beefs -> exists chosen order, represents graph chosen /\ topological chosen order /\
       Forall2 (fun u b => exists n, chosen !! u = Some n /\ beef_of fuel graph n b) order beefs).
Proof.
  intros Hb. destruct t.
  - destruct (Hb eq_refl) as (rank & Hac & Hfuel). eapply wp_mono; [apply (computeOrderedBEEFsForGraph_wp true rank)|by intros r s' (? & _ & ? & _)].
    intros _ o n Hn. split; [done|]. exists o. split; [done|by apply (Hfuel o n)].
  - eapply wp_mono; [by apply (computeOrderedBEEFsForGraph_wp false (fun _ => O))|by intros r s' (? & _ & ? & _)].
Qed.

(** What a finalization submits. *)
Definition finalized (fuel : nat) (graph : graphContext) (r : result unit) (tr : list event) : Prop :=
  (tr = [] /\ is_ok r = false) \/
  exists chosen order beefs, represents graph chosen /\ topological chosen order /\
    Forall2 (fun t b => exists n, chosen !! t = Some n /\ beef_of fuel graph n b) order beefs /\ submissions beefs r tr.

Lemma FinalizeGraph_wp t fuel st graphID s :
  (t = true -> engine_ends fuel /\ forall graph, loadGraph graphID s = Some graph -> buildable fuel graph) ->
  wp t (FinalizeGraph fuel st graphID) s (fun r s' => graphs s' = graphs s /\ exists tr, trace s' = trace s ++ tr /\
    match loadGraph graphID s with
    | None => tr = [] /\ r = Err ErrUnableToFindRootNodeInGraph
    | Some graph => finalized fuel graph r tr
    end).
Proof.
  intros Ht. unfold wp at 1, FinalizeGraph. destruct (loadGraph graphID s) as [graph|]; [|split; [done|]; exists []; by rewrite app_nil_r].
  match goal with |- match ?m s with _ => _ end => change (wp t m s (fun r s' => graphs s' = graphs s /\ exists tr, trace s' = trace s ++ tr /\
    finalized fuel graph r tr)) end.
  apply wp_bind. eapply wp_mono; [apply computeOrdered_wp; intros Et; by apply Ht|].
  intros r1 s1 ((Ew & Eg & Et) & Ho). destruct r1 as [beefs|err|];
    [|split; [done|]; exists []; rewrite app_nil_r; split; [done|by left]..].
  destruct (Ho beefs eq_refl) as (chosen & order & Hrep & Htop & Hb).
  eapply wp_mono; [apply submitAll_wp; intros Ett; by apply Ht|]. intros r2 s2 (Eg2 & tr & Et2 & Hsub).
  split; [congruence|]. exists tr. split; [congruence|]. right. by exists chosen, order, beefs.
Qed.

(** C14.  Finalization ends, when the histories of the engine's storage end and the transactions
    of the graph have no cycle.  It submits the transactions of the graph in a topological
    order, each after the engine accepted its inputs from the graph: it stops at the first
    submission that is refused, and when it succeeds every transaction of the graph was
    submitted, once, and accepted.  The graphs themselves do not change. *)
Theorem finalization_order fuel st graphID s :
  engine_ends fuel -> (forall graph, loadGraph graphID s = Some graph -> buildable fuel graph) ->
  exists r s' tr, FinalizeGraph fuel st graphID s = Some (r, s') /\ graphs s' = graphs s /\ trace s' = trace s ++ tr /\
    match loadGraph graphID s with
    | None => tr = [] /\ r = Err ErrUnableToFindRootNodeInGraph
    | Some graph => finalized fuel graph r tr
    end.
Proof.
  intros Hends Hb. destruct (wp_returns _ _ _ (FinalizeGraph_wp true fuel st graphID s (fun _ => conj Hends Hb))) as (r & s' & E & Eg & tr & Et & Hr).
  by exists r, s', tr.
Qed.

(** ** Reads of the components *)

Definition reading (ev : event) : Prop := match ev with SubmitCall _ _ => False | _ => True end.

(** A run that only reads, with the calls [tr]. *)
Definition reads_with (tr : list event) (s s' : St) : Prop :=
  graphs s' = graphs s /\ trace s' = trace s ++ tr /\ Forall reading tr.

Lemma reads_nil s : reads_with [] s s.
Proof. split_and!; [done|by rewrite app_nil_r|constructor]. Qed.

Lemma reads_quiet s s' : quiet s s' -> reads_with [] s s'.
Proof. intros (_ & ? & ?). split_and!; [done|by rewrite app_nil_r|constructor]. Qed.

Lemma reads_app tr1 tr2 s s1 s2 : reads_with tr1 s s1 -> reads_with tr2 s1 s2 -> reads_with (tr1 ++ tr2) s s2.
Proof.
  intros (Eg1 & Et1 & F1) (Eg2 & Et2 & F2). split_and!; [congruence| |by apply Forall_app].
  by rewrite Et2, Et1, app_assoc.
Qed.

Lemma wp_read {A} t (op : Op W A) ev s (Q : result A -> St -> Prop) :
  (forall r, reading (ev r)) ->
  (forall r s', reads_with [ev r] s s' -> Q r s') -> wp t (observe op ev) s Q.
Proof.
  intros Hev HQ. unfold wp, observe. destruct (op (world s)) as [r w]. apply HQ.
  split_and!; [done..|]. by repeat constructor.
Qed.

Lemma identifyAdmissibleOutputs_wp t st beef txid coins s (Q : result AdmittanceInstructions -> St -> Prop) :
  (Q (Err ErrNoManagerForTopic) s) ->
  (forall r s', reads_with [AdmitCall txid ((fun a => elements (OutputsToAdmit a)) <$> r)] s s' -> Q r s') ->
  wp t (identifyAdmissibleOutputs st beef txid coins) s Q.
Proof.
  intros Hno Hyes. unfold identifyAdmissibleOutputs. destruct (managers e !! Topic st); [|done].
  by apply wp_read.
Qed.

Definition is_admitted (o : Outpoint) (tr : list event) : Prop :=
  exists vouts, AdmitCall (Txid o) (Ok vouts) ∈ tr /\ Index o ∈ vouts.

Lemma is_admitted_app o tr1 tr2 : is_admitted o tr1 \/ is_admitted o tr2 -> is_admitted o (tr1 ++ tr2).
Proof. intros [(v & ? & ?)|(v & ? & ?)]; exists v; set_solver. Qed.

Lemma admitGraph_wp t st beefs coins graphBeefs s :
  wp t (admitGraph st beefs coins graphBeefs) s (fun r s' => exists tr, reads_with tr s s' /\
    forall coins', r = Ok coins' -> forall o, o ∈ coins' -> o ∈ coins \/ is_admitted o tr).
Proof.
  revert coins graphBeefs s. induction beefs as [|b beefs IH]; intros coins graphBeefs s; cbn [admitGraph].
  { apply wp_ret. exists []. split; [apply reads_nil|]. intros ? [= <-]. auto. }
  apply wp_bind, wp_lift. assert (Hnil := reads_nil s).
  destruct (ParseBeef b) as [[[beef tx] txid]|err|]; [|by exists []..].
  destruct tx as [tx|], txid as [txid|]; try (apply wp_lift; by exists []).
  apply wp_bind, wp_read; [done|]. intros r s1 H1'. destruct r as [outputs|err|]; [|by eexists..].
  apply wp_bind, wp_lift. destruct (mergeGraph _ _ _ _ _ _ _) as [[beef' coins1]|err|]; [|by eexists..].
  apply wp_bind, identifyAdmissibleOutputs_wp; [by eexists|].
  intros r s2 H2'. destruct r as [instr|err|]; [|eexists; split; [by eapply reads_app|done]..].
  eapply wp_mono; [apply IH|]. intros r s3 (tr & H3' & Hr).
  eexists. split; [eapply reads_app; [exact H1'|eapply reads_app; [exact H2'|exact H3']]|].
  intros coins' Er o Ho. destruct (Hr coins' Er o Ho) as [Hin|Hin].
  - apply elem_of_union in Hin as [Hin|?]; [|by left]. right.
    apply elem_of_list_to_set, list_elem_of_fmap in Hin as (v & -> & Hv).
    apply is_admitted_app. right. apply is_admitted_app. left. eexists. simpl. split; [by left|done].
  - right. by apply is_admitted_app; right; apply is_admitted_app; right.
Qed.

Lemma wp_beef t fuel graph o n s (Q : result (list byte) -> St -> Prop) :
  (t = true -> buildable fuel graph) -> nodes graph !! o = Some n ->
  (forall r, (forall b, r = Ok b -> beef_of fuel graph n b) -> Q r s) ->
  wp t (within (getBEEFForNode fuel graph (Some n))) s Q.
Proof.
  intros Hb Hn HQ. destruct t.
  - destruct (Hb eq_refl) as (rank & Hac & Hfuel). apply (within_beef_wp true rank fuel graph) with (o := o); [|done|auto].
    intros _ o' n' Hn'. split; [done|]. exists o'. split; [done|by apply (Hfuel o' n')].
  - apply (within_beef_wp false (fun _ => O) fuel graph) with (o := o); [done|done|auto].
Qed.

(** What a successful validation has established about the root: its BEEF is that of a
    transaction that passed the SPV check, and the topic manager admitted its output. *)
Definition validated (fuel : nat) (id : Outpoint) (graph : graphContext) (tr : list event) : Prop :=
  exists root beef tx rest, nodes graph !! id = Some root /\ beef_of fuel graph root beef /\
    NewTransactionFromBEEF beef = Ok tx /\ tr = VerifyCall tx (Ok true) :: rest /\ is_admitted id rest.

Lemma ValidateGraphAnchor_wp t fuel st id s :
  (t = true -> forall graph, graphs s !! id = Some graph -> buildable fuel graph) ->
  wp t (ValidateGraphAnchor fuel st (Some id)) s (fun r s' => exists tr, reads_with tr s s' /\
    (r = Ok tt -> exists graph, graphs s !! id = Some graph /\ validated fuel id graph tr)).
Proof.
  intros Hb. unfold wp, ValidateGraphAnchor. simpl. assert (Hnil := reads_nil s).
  destruct (graphs s !! id) as [graph|]; [|by exists []].
  assert (Hbuild : t = true -> buildable fuel graph) by auto. clear Hb.
  match goal with |- match ?m s with _ => _ end => change (wp t m s (fun r s' => exists tr, reads_with tr s s' /\
    (r = Ok tt -> exists g, Some graph = Some g /\ validated fuel id g tr))) end.
  destruct (nodes graph !! id) as [root|] eqn:Eroot; [|apply wp_lift; by exists []].
  apply wp_bind, (wp_beef _ _ _ id); [done|done|]. intros r Hbeef. destruct r as [beef|err|]; [|by exists []..].
  specialize (Hbeef beef eq_refl).
  apply wp_bind, wp_lift. destruct (NewTransactionFromBEEF beef) as [tx|err|] eqn:Etx; [|by exists []..].
  apply wp_bind, wp_read; [done|]. intros r s1 H1'. destruct r as [[]|err|]; cbn [negb]; [|by eexists..].
  apply wp_bind. eapply wp_mono; [by apply computeOrdered_wp|].
  intros r s2 [Hq%reads_quiet _]. pose proof (reads_app _ _ _ _ _ H1' Hq) as H2'.
  destruct r as [beefs|err|]; [|by eexists..].
  apply wp_bind. eapply wp_mono; [apply admitGraph_wp|]. intros r s3 (tr & H3' & Hr).
  pose proof (reads_app _ _ _ _ _ H2' H3') as H4'. destruct r as [coins|err|]; [|by eexists..].
  case_bool_decide as Hin; [|apply wp_lift; by eexists].
  apply wp_ret. eexists. split; [exact H4'|]. intros _. exists graph. split; [done|].
  exists root, beef, tx, tr. split_and!; try done. by destruct (Hr coins eq_refl id Hin) as [?|?]; [set_solver|].
Qed.

(** C15.  The validation of a graph whose transactions have no cycle ends.  It only reads,
    and it succeeds only for a graph that is there, whose root builds a BEEF of a
    transaction that passed the SPV check, and whose root output the topic manager admitted
    in the pass over the ordered transactions. *)
Theorem validation_is_sound fuel st id s :
  (forall graph, graphs s !! id = Some graph -> buildable fuel graph) ->
  exists r s' tr, ValidateGraphAnchor fuel st (Some id) s = Some (r, s') /\ reads_with tr s s' /\
    (r = Ok tt -> exists graph, graphs s !! id = Some graph /\ validated fuel id graph tr).
Proof.
  intros Hb. destruct (wp_returns _ _ _ (ValidateGraphAnchor_wp true fuel st id s (fun _ => Hb))) as (r & s' & E & tr & Hr). by exists r, s', tr.
Qed.

(** ** The graphs a storage can hold *)

Inductive graph_step (st : OverlayGASPStorage) : St -> St -> Prop :=
  | step_append gaspTx spentBy s r s' : AppendToGraph st gaspTx spentBy s = Some (r, s') -> graph_step st s s'
  | step_discard id s r s' : DiscardGraph id s = Some (r, s') -> graph_step st s s'
  | step_validate fuel id s r s' : ValidateGraphAnchor fuel st (Some id) s = Some (r, s') -> graph_step st s s'
  | step_finalize fuel id s r s' : FinalizeGraph fuel st id s = Some (r, s') -> graph_step st s s'.

(** C13.  Whatever is appended, discarded, validated and finalized in whatever order,
    every graph stays well-formed: its counter is the number of its nodes and within
    the limit, every node belongs to the traversal and is stored under the outpoint of
    the transaction it carries, every child is a node that has a parent, and the parent
    of a node is a node that has it among its children. *)
Theorem graphs_invariant st s0 s :
  graphs s0 = ∅ -> rtc (graph_step st) s0 s -> graphs_ok st s.
Proof.
  intros E0 Hsteps. assert (H0' : graphs_ok st s0) by (unfold graphs_ok; rewrite E0; apply map_Forall_empty).
  clear E0. induction Hsteps as [|s s1 s2 Hstep _ IH]; [done|]. apply IH. clear IH.
  destruct Hstep as [gaspTx spentBy s r s' Hr|id s r s' Hr|fuel id s r s' Hr|fuel id s r s' Hr].
  - pose proof (AppendToGraph_wp st gaspTx spentBy s H0') as Hwp. unfold wp in Hwp. rewrite Hr in Hwp.
    destruct (GraphID gaspTx) as [id|]; [|by destruct Hwp as [_ ->]].
    destruct Hwp as (g' & -> & Hg & _). by apply graphs_ok_insert.
  - unfold DiscardGraph in Hr. destruct id as [id|]; injection Hr as <- <-; [|done].
    by apply map_Forall_delete.
  - pose proof (ValidateGraphAnchor_wp false fuel st id s ltac:(done)) as Hwp. unfold wp in Hwp. rewrite Hr in Hwp.
    destruct Hwp as (tr & (Eg & _) & _). unfold graphs_ok. by rewrite Eg.
  - pose proof (FinalizeGraph_wp false fuel st id s ltac:(done)) as Hwp. unfold wp in Hwp. rewrite Hr in Hwp.
    destruct Hwp as [Eg _]. unfold graphs_ok. by rewrite Eg.
Qed.

(** The effect of [AppendToGraph].  It always returns; only the graph of its
    traversal changes (concurrent traversals cannot disturb each other), and
    [appended] says how. *)
Theorem AppendToGraph_spec st gaspTx spentBy s :
  graphs_ok st s ->
  exists r s', AppendToGraph st gaspTx spentBy s = Some (r, s') /\
    match GraphID gaspTx with
    | None => r = Err ErrMissingGraphID /\ s' = s
    | Some id => exists g', s' = withGraph id g' s /\
        appended gaspTx spentBy r (default (mkGraph ∅ 0) (graphs s !! id)) g'
    end.
Proof.
  intros Hs. pose proof (AppendToGraph_wp st gaspTx spentBy s Hs) as Hwp. unfold wp in Hwp.
  destruct (AppendToGraph st gaspTx spentBy s) as [[r s']|]; [|done]. exists r, s'. split; [done|].
  destruct (GraphID gaspTx); [|done]. destruct Hwp as (g' & ? & _ & ?). by exists g'.
Qed.

(** ** Needed inputs *)

Lemma stripLoop_wp t st l m s :
  NoDup l.*1 ->
  wp t (stripLoop st l m) s (fun r s' => exists tr, reads_with tr s s' /\
    (forall o b, FindOutputCall o b ∈ tr -> o ∈ l.*1) /\
    forall m', r = Ok m' -> forall o d, m' !! o = Some d <->
      m !! o = Some d /\ (o ∈ l.*1 -> FindOutputCall o false ∈ tr)).
Proof.
  revert m s. induction l as [|[o0 d0] l IH]; intros m s Hnd; cbn [stripLoop].
  - apply wp_ret. exists []. split_and!; [apply reads_nil|set_solver|]. intros ? [= <-] o d. simpl. set_solver.
  - simpl in Hnd. apply NoDup_cons in Hnd as [Hn Hnd]. apply wp_bind, wp_read; [done|].
    intros r s1 H1'. destruct r as [found|err|]; [|eexists; split_and!; [done|intros o b [= -> _]%list_elem_of_singleton; by left|done]..].
    eapply wp_mono; [by apply IH|]. intros r s2 (tr & H2' & Hin & Hr).
    eexists. split; [by eapply reads_app|]. split.
    { intros o b Hb. apply elem_of_app in Hb as [[= -> _]%list_elem_of_singleton|Hb]; [by left|right; by eapply Hin]. }
    intros m' Er o d. rewrite (Hr m' Er o d).
    assert (Hno : forall b, FindOutputCall o0 b ∉ tr) by (intros b Hb; by apply Hn, (Hin _ b)).
    destruct (decide (o = o0)) as [->|Ho].
    + split.
      * intros [Em _]. destruct found; [by rewrite lookup_delete_eq in Em|]. split; [done|]. intros _.
        apply elem_of_app. left. by apply list_elem_of_singleton.
      * intros [Em Hf]. specialize (Hf ltac:(simpl; by left)). apply elem_of_app in Hf as [Hf|Hf]; [|by destruct (Hno _ Hf)].
        apply list_elem_of_singleton in Hf. destruct found; [done|]. split; [done|]. intros Ho0. done.
    + assert (Em : (match found with Some _ => delete o0 m | None => m end) !! o = m !! o).
      { destruct found; [|done]. by rewrite lookup_delete_ne by done. }
      rewrite Em. simpl. split; intros [? Hf]; (split; [done|]); intros Ho'.
      * right. apply Hf. apply elem_of_cons in Ho' as [?|?]; done.
      * specialize (Hf ltac:(by right)). apply elem_of_cons in Hf as [Hf|?]; [congruence|done].
Qed.

(** The requests that are left are those that the storage did not find. *)
Lemma stripAlreadyKnowInputs_wp t st resp s :
  wp t (stripAlreadyKnowInputs st resp) s (fun r s' => exists tr, reads_with tr s s' /\
    forall resp', r = Ok resp' -> forall o d, RequestedInputs resp' !! o = Some d <->
      RequestedInputs resp !! o = Some d /\ FindOutputCall o false ∈ tr).
Proof.
  unfold stripAlreadyKnowInputs. apply wp_bind. unfold wp at 1, rangeMap. set (s1 := mkSt _ _ _ _).
  assert (Hq : reads_with [] s s1) by by apply reads_quiet.
  set (l := range _ _). assert (Hl : l ≡ₚ map_to_list (RequestedInputs resp)) by apply range_perm.
  assert (Hnd : NoDup l.*1) by (rewrite Hl; apply NoDup_fst_map_to_list).
  apply wp_bind. eapply wp_mono; [by apply stripLoop_wp|]. intros r s2 (tr & H2' & Hin & Hr).
  destruct r as [m|err|]; [|by exists tr; split; [apply (reads_app _ _ _ _ _ Hq H2')|]..].
  apply wp_ret. exists tr. split; [apply (reads_app _ _ _ _ _ Hq H2')|].
  intros resp' [= <-] o d. simpl. rewrite (Hr m eq_refl o d). split; intros [Em Hf]; (split; [done|]); [|done].
  apply Hf. rewrite Hl. apply list_elem_of_fmap. exists (o, d). split; [done|]. by apply elem_of_map_to_list.
Qed.

Lemma request_lookup metadata outpoints o d :
  RequestedInputs (request metadata outpoints) !! o = Some d <->
  o ∈ outpoints /\ d = Some (mkNodeResponseData metadata).
Proof.
  unfold request. simpl. induction outpoints as [|x l IH] using rev_ind; simpl.
  - rewrite lookup_empty. set_solver.
  - rewrite foldl_app. simpl. destruct (decide (x = o)) as [->|Hx].
    + rewrite lookup_insert_eq. set_solver.
    + rewrite lookup_insert_ne, IH by done. set_solver.
Qed.

(** What [FindNeededInputs] asks for: of an unproven transaction all inputs that the
    storage lacks; of a proven one nothing when the topic manager admits the output,
    and otherwise those of the manager's needed inputs that the storage lacks. *)
Definition needed_inputs (gaspTx : Node) (tx : Transaction) (resp : NodeResponse) (tr : list event) : Prop :=
  if len (Proof_ gaspTx) =? 0 then
    forall o d, RequestedInputs resp !! o = Some d <->
      o ∈ map inputOutpoint (txInputs tx) /\ FindOutputCall o false ∈ tr /\ d = Some (mkNodeResponseData false)
  else
    (RequestedInputs resp = ∅ /\ exists vouts txid, AdmitCall txid (Ok vouts) ∈ tr /\ nodeOutputIndex gaspTx ∈ vouts) \/
    (forall o d, RequestedInputs resp !! o = Some d ->
       FindOutputCall o false ∈ tr /\ d = Some (mkNodeResponseData true)).

(** [FindNeededInputs] only reads, fails when the transaction does not parse, and
    otherwise asks for what [needed_inputs] says. *)
Theorem FindNeededInputs_spec st gaspTx s :
  exists r s' tr, FindNeededInputs st gaspTx s = Some (r, s') /\ reads_with tr s s' /\
    forall resp, r = Ok resp -> exists tx, ParseTransaction (RawTx gaspTx) = Ok tx /\
      needed_inputs gaspTx tx resp tr.
Proof.
  enough (Hwp : wp true (FindNeededInputs st gaspTx) s (fun r s' => exists tr, reads_with tr s s' /\
    forall resp, r = Ok resp -> exists tx, ParseTransaction (RawTx gaspTx) = Ok tx /\ needed_inputs gaspTx tx resp tr)).
  { unfold wp in Hwp. destruct (FindNeededInputs st gaspTx s) as [[r s']|]; [|discriminate].
    destruct Hwp as (tr & ? & ?). exists r, s', tr. auto. }
  unfold FindNeededInputs, needed_inputs. assert (Hnil := reads_nil s). apply wp_bind, wp_lift.
  destruct (ParseTransaction (RawTx gaspTx)) as [tx|err|] eqn:Etx; [|by exists []..].
  destruct (len (Proof_ gaspTx) =? 0).
  { eapply wp_mono; [apply stripAlreadyKnowInputs_wp|]. intros r s' (tr & Hr & Hresp). exists tr. split; [done|].
    intros resp Er. exists tx. split; [done|]. intros o d. rewrite (Hresp resp Er), request_lookup. tauto. }
  apply wp_bind, wp_lift. destruct (NewMerklePathFromBinary _) as [path|err|]; [|by exists []..].
  apply wp_bind, wp_lift. destruct (NewBeefFromTransaction _) as [beef|err|]; [|by exists []..].
  apply wp_bind, wp_read; [done|]. intros r s1 H1'. destruct r as [outputs|err|]; [|by eexists..].
  apply wp_bind, wp_lift. destruct (mergeFound _ _ _ _) as [[beef' coins]|err|]; [|by eexists..].
  set (txid := txIDOf _). apply wp_bind.
  assert (Hidentify : wp true (ignoreError (identifyAdmissibleOutputs st beef' txid coins)) s1 (fun r s' =>
    exists tr, reads_with tr s1 s' /\ forall instr, r = Ok instr ->
      elements (OutputsToAdmit instr) = [] \/ AdmitCall txid (Ok (elements (OutputsToAdmit instr))) ∈ tr)).
  { unfold ignoreError, identifyAdmissibleOutputs, wp. destruct (managers e !! Topic st); simpl.
    - unfold observe. destruct (IdentifyAdmissibleOutputs _ _ _ _ _) as [r w].
      assert (Hev : forall ev, reading ev -> reads_with [ev] s1 (mkSt w (graphs s1) (tick s1) (trace s1 ++ [ev])))
        by (intros; split_and!; [done..|by repeat constructor]).
      destruct r as [instr|err|]; (eexists; split; [by apply Hev|]).
      + intros ? [= <-]. right. by left.
      + intros ? [= <-]. by left.
      + done.
    - exists []. split; [apply reads_nil|]. intros ? [= <-]. by left. }
  eapply wp_mono; [exact Hidentify|]. intros r s2 (tr2 & H2' & Hinstr). pose proof (reads_app _ _ _ _ _ H1' H2') as H12.
  destruct r as [instr|err|]; [|by eexists..]. case_bool_decide as Hadm.
  { apply wp_ret. eexists. split; [exact H12|]. intros resp [= <-]. exists tx. split; [done|]. left. split; [done|].
    exists (elements (OutputsToAdmit instr)), txid. split; [|done].
    destruct (Hinstr instr eq_refl) as [En|?]; [rewrite En in Hadm; by apply not_elem_of_nil in Hadm|set_solver]. }
  apply wp_bind. unfold identifyNeededInputs. destruct (managers e !! Topic st); [|apply wp_lift; by eexists].
  apply wp_read; [done|]. intros r s3 H3'. pose proof (reads_app _ _ _ _ _ H12 H3') as H13.
  destruct r as [needed|err|]; [|by eexists..].
  eapply wp_mono; [apply stripAlreadyKnowInputs_wp|]. intros r s4 (tr & H4' & Hresp).
  eexists. split; [exact (reads_app _ _ _ _ _ H13 H4')|]. intros resp Er. exists tx. split; [done|]. right.
  intros o d Hd. apply (Hresp resp Er) in Hd as [[_ ->]%request_lookup Hd]. split; [set_solver|done].
Qed.

End GaspStorage.

(** ** A graph of two transactions *)

Module Example.
Import EngineModel.

#[local] Instance treeGraph : GraphSDK Transaction := {|
  ParseTransaction := parse;
  NewMerklePathFromBinary _ := Ok (mkPath 0 [] []);
  NewBeefFromTransaction t := Ok t;
  NewTransactionFromBEEF := parse;
  MergeBeefBytes t _ := Ok t |}.

Abbreviation State := (St (W := unit)).

Definition st : OverlayGASPStorage := mkStorage (str "tm") (Some 2).

Definition root : Outpoint := mkOutpoint (nameOf [Byte.x02]) 0.
Definition origin : Outpoint := mkOutpoint (nameOf [Byte.x01]) 0.
Definition rootNode : Node := mkNode (Some root) [Byte.x02; Byte.x01] 0 [] [] [] ∅.
Definition originNode : Node := mkNode (Some root) [Byte.x01] 0 [Byte.x00] [] [] ∅.

Definition family : graphContext :=
  mkGraph {[ root := mkGraphNode rootNode (nameOf [Byte.x02]) {[ origin ]} None;
             origin := mkGraphNode originNode (nameOf [Byte.x01]) ∅ (Some root) ]} 2.

Definition start : State := mkSt tt ∅ 0 [].
Definition grown : State := mkSt tt {[ root := family ]} 0 [].

Definition grow : Runs.Run State unit :=
  AppendToGraph (Beef := Transaction) st rootNode None ≫= fun _ =>
  AppendToGraph (Beef := Transaction) st originNode (Some root).

(** The two appends build the graph; a third node is one too many. *)
Example family_grows : grow start = Some (Ok tt, grown).
Proof. vm_compute. reflexivity. Qed.

Example family_is_full :
  AppendToGraph (Beef := Transaction) st originNode None grown = Some (Err ErrGraphFull, grown).
Proof. vm_compute. reflexivity. Qed.

Definition generation (t : Hash) : nat := if bool_decide (t = nameOf [Byte.x02]) then 1 else 0.

Lemma family_nodes o n : nodes family !! o = Some n ->
  o = root /\ n = mkGraphNode rootNode (nameOf [Byte.x02]) {[ origin ]} None \/
  o = origin /\ n = mkGraphNode originNode (nameOf [Byte.x01]) ∅ (Some root).
Proof.
  cbn [nodes family]. rewrite lookup_insert_Some. intros [[<- <-]|[_ E]]; [by left|right].
  by apply lookup_singleton_Some in E as [<- <-].
Qed.

Lemma family_acyclic : acyclic (Beef := Transaction) generation family.
Proof.
  intros o n tx i [[-> ->]|[-> ->]]%family_nodes; simpl; intros [= <-] Hi; simpl in Hi.
  - apply list_elem_of_singleton in Hi as ->. vm_compute. lia.
  - by apply not_elem_of_nil in Hi.
Qed.

Lemma graph_order_witness :
  exists r s', computeOrderedBEEFsForGraph (Beef := Transaction) 2 family grown = Some (r, s') /\ quiet grown s' /\
    (nodes family = ∅ -> r = Err ErrUnableToFindRootNodeInGraph) /\
    (nodes family <> ∅ -> builds (Beef := Transaction) 2 family -> is_ok r = true) /\
    (forall beefs, r = Ok beefs -> exists chosen order,
       represents family chosen /\ topological (Beef := Transaction) chosen order /\
       Forall2 (fun t b => exists n, chosen !! t = Some n /\ beef_of (Beef := Transaction) 2 family n b) order beefs).
Proof.
  apply (graph_order (W := unit) (Beef := Transaction) generation 2 family grown).
  - intros o n [[-> ->]|[-> ->]]%family_nodes; reflexivity.
  - exact family_acyclic.
  - intros o n [[-> ->]|[-> ->]]%family_nodes; vm_compute; lia.
Defined.

(** The order it finds: the origin first. *)
Example family_order :
  fst <$> computeOrderedBEEFsForGraph (Beef := Transaction) 2 family grown =
  Some (Ok [[Byte.x01]; [Byte.x02; Byte.x01]]).
Proof. vm_compute. reflexivity. Qed.

(** Two transactions that spend each other, both with a proof, have no order. *)
Definition knot : graphContext :=
  mkGraph {[ root := mkGraphNode (mkNode (Some root) [Byte.x02; Byte.x01] 0 [Byte.x00] [] [] ∅) (nameOf [Byte.x02]) ∅ None;
             origin := mkGraphNode (mkNode (Some root) [Byte.x01; Byte.x02] 0 [Byte.x00] [] [] ∅) (nameOf [Byte.x01]) ∅ None ]} 2.

Example knot_is_reported :
  fst <$> computeOrderedBEEFsForGraph (Beef := Transaction) 2 knot grown = Some (Err ErrGraphDependencyCycle).
Proof. vm_compute. reflexivity. Qed.

Lemma AppendToGraph_spec_witness :
  exists r s', AppendToGraph (W := unit) (Beef := Transaction) st rootNode None start = Some (r, s') /\
    exists g', s' = withGraph root g' start /\
      appended (Beef := Transaction) rootNode None r (default (mkGraph ∅ 0) (graphs start !! root)) g'.
Proof.
  apply (AppendToGraph_spec (W := unit) (Beef := Transaction) st rootNode None start).
  - apply map_Forall_empty.
Defined.

Lemma graphs_invariant_witness : graphs_ok (Beef := Transaction) st grown.
Proof.
  apply (graphs_invariant (W := unit) (Beef := Transaction) config st start grown).
  - reflexivity.
  - eapply rtc_l; [by apply (step_append config st rootNode None start (Ok tt)); vm_compute|].
    eapply rtc_l; [|apply rtc_refl].
    apply (step_append config st originNode (Some root) _ (Ok tt)). vm_compute. reflexivity.
Defined.

Definition validation := ValidateGraphAnchor (W := unit) (Beef := Transaction) config 2 st (Some root) grown.

Lemma family_buildable graph : graphs grown !! root = Some graph -> buildable (Beef := Transaction) 2 graph.
Proof.
  intros [= <-]. exists generation. split; [exact family_acyclic|]. intros o n [[-> ->]|[-> ->]]%family_nodes; vm_compute; lia.
Qed.

Lemma validation_is_sound_witness :
  exists r s' tr, validation = Some (r, s') /\ reads_with tr grown s' /\
    (r = Ok tt -> exists graph, graphs grown !! root = Some graph /\
       validated (Beef := Transaction) 2 root graph tr).
Proof. exact (validation_is_sound (W := unit) (Beef := Transaction) config 2 st root grown family_buildable). Defined.

(** It succeeds. *)
Example validation_trace : (fun '(r, s) => (r, trace s)) <$> validation =
  Some (Ok tt, [VerifyCall (mkTransaction [Byte.x02; Byte.x01] None [spend Byte.x01] []) (Ok true); FindOutputsCall [];
    AdmitCall (nameOf [Byte.x01]) (Ok [0]); FindOutputsCall [origin]; AdmitCall (nameOf [Byte.x02]) (Ok [0])]).
Proof. vm_compute. reflexivity. Qed.

Definition finalization := FinalizeGraph (W := unit) (Beef := Transaction) config 2 st (Some root) grown.

Lemma submissions_end : engine_ends (W := unit) (Beef := Transaction) config 2.
Proof.
  exists (fun _ => 0%nat). split_and!; [|intros o; lia|done].
  split; intros; simpl in *; [discriminate|]. match goal with H : (Ok [], _) = (Ok _, _) |- _ => injection H as <- _ end. set_solver.
Qed.

Lemma finalization_order_witness :
  exists r s' tr, finalization = Some (r, s') /\ graphs s' = graphs grown /\ trace s' = trace grown ++ tr /\
    finalized (Beef := Transaction) 2 family r tr.
Proof.
  exact (finalization_order (W := unit) (Beef := Transaction) config 2 st (Some root) grown submissions_end family_buildable).
Defined.

Example finalization_trace :
  (trace ∘ snd) <$> finalization = Some [SubmitCall [Byte.x01] (Ok tt); SubmitCall [Byte.x02; Byte.x01] (Ok tt)].
Proof. vm_compute. reflexivity. Qed.

End Example.

End GaspStorage.
