(* ===== verification/Lookup.v ===== *)
(** * pkg/core/engine/engine.go: lookups, histories and the nodes served to peers

    [Lookup] answers a question with the outputs that a lookup service names, each
    with its history stitched into its BEEF; [ProvideForeignSyncResponse] and
    [ProvideForeignGASPNode] answer the synchronisation requests of other hosts.  An
    output that the storage returns is a value of its own.  The table of histories,
    which the code keys by the text of an outpoint, is keyed by the outpoint. *)

From S2P Require Import Prelude Bytes Runs Traced GaspTypes EngineTypes EngineModel GaspStorage.
Import Gasp.
Open Scope Z_scope.

(** [lookup.LookupFormula] and [lookup.LookupAnswer] of the SDK. *)
Record LookupFormula (Beef : Type) := mkFormula {
  fOutpoint : Outpoint; fHistory : option (option Beef -> Z -> Z -> bool) }.
Arguments mkFormula {Beef}.
Arguments fOutpoint {Beef}.
Arguments fHistory {Beef}.

Inductive AnswerType := AnswerTypeFreeform | AnswerTypeOutputList | AnswerTypeFormula.

Record OutputListItem := mkItem { itemBeef : list byte; itemIndex : Z }.

Record LookupAnswer (Beef : Type) := mkAnswer {
  ansType : AnswerType; ansOutputs : list OutputListItem; Formulas : list (LookupFormula Beef);
  ansResult : list byte }.
Arguments mkAnswer {Beef}.
Arguments ansType {Beef}.
Arguments ansOutputs {Beef}.
Arguments Formulas {Beef}.
Arguments ansResult {Beef}.

(** [LookupService.Lookup], by the name of the service. *)
Class LookupQueries (W Beef : Type) := {
  answerQuestion : list byte -> list byte -> Op W (LookupAnswer Beef) }.

Module Lookup.
Section Lookup.
Context {W Beef : Type} `{TransactionSDK Beef} `{EngineStorage W Beef} `{LookupQueries W Beef}.
Context (e : EngineConfig).

Local Abbreviation Output := (EngineOutput Beef).
Local Abbreviation Selector := (option Beef -> Z -> Z -> bool).

(** The calls of a lookup, the reads with what they gave. *)
Inductive event :=
  | QuestionCall (service : list byte)
  | FindOutputCall (outpoint : Outpoint) (r : result (option Output))
  | LoadAncillaryCall (o : Output) (r : result Output).

Local Abbreviation St := (Traced.St W event).
Local Abbreviation Run := (Runs.Run St).

(** ** Histories *)

Definition loadAncillaryBeef (o : Output) : Run Output :=
  observe (LoadAncillaryBeef o) (LoadAncillaryCall o).

(** [stitchSourceTransactions], on the inputs of the transaction. *)
Fixpoint stitchInputs (inputs : list TxInput) (childHistories : gmap Outpoint Output) : result (list TxInput) :=
  match inputs with
  | [] => Ok []
  | txin :: inputs' =>
      txin' ← match childHistories !! inputOutpoint txin with
              | None => Ok txin
              | Some input =>
                  match oBeef input with
                  | None => Err ErrMissingBeef
                  | Some beef =>
                      match FindTransactionForSigningByHash beef (Txid (inputOutpoint txin)) with
                      | None => Err ErrMissingBeef
                      | Some source => Ok (setSource txin source)
                      end
                  end
              end;
      rest ← stitchInputs inputs' childHistories;
      Ok (txin' :: rest)
  end.

Definition stitchSourceTransactions (tx : Transaction) (childHistories : gmap Outpoint Output) : result Transaction :=
  inputs ← stitchInputs (txInputs tx) childHistories; Ok (setInputs tx inputs).

(** The loop of [collectChildHistories]; [history] is [GetUTXOHistory] one level
    deeper. *)
Fixpoint collectChildHistories (history : Output -> Run (option Output)) (outputsConsumed : list Outpoint)
    (childHistories : gmap Outpoint Output) : Run (gmap Outpoint Output) :=
  match outputsConsumed with
  | [] => mret childHistories
  | outpoint :: rest =>
      childOutput ← observe (FindOutput outpoint None None true) (FindOutputCall outpoint);
      match childOutput with
      | None => collectChildHistories history rest childHistories
      | Some childOutput =>
          childOutput ← loadAncillaryBeef childOutput;
          child ← history childOutput;
          collectChildHistories history rest
            (match child with Some c => <[oOutpoint c := c]> childHistories | None => childHistories end)
      end
  end.

Fixpoint GetUTXOHistory (fuel : nat) (historySelector : option Selector) (currentDepth : Z) (output : Output)
    : Run (option Output) :=
  match historySelector with
  | None => mret (Some output)
  | Some selector =>
      if negb (selector (oBeef output) (Index (oOutpoint output)) currentDepth) then mret None
      else if bool_decide (OutputsConsumed output = []) then mret (Some output)
      else match fuel with
      | O => exhausted
      | S fuel' =>
          childHistories ← collectChildHistories
            (GetUTXOHistory fuel' historySelector (u32 (currentDepth + 1))) (OutputsConsumed output) ∅;
          match oBeef output with
          | None => lift Panic
          | Some beef =>
              match FindTransactionForSigningByHash beef (Txid (oOutpoint output)) with
              | None => lift (Err ErrMissingBeef)
              | Some tx =>
                  tx ← lift (stitchSourceTransactions tx childHistories);
                  beefBytes ← lift (BEEF tx);
                  '(beef, _, _) ← lift (ParseBeef beefBytes);
                  mret (Some (setBeef output (Some beef)))
              end
          end
      end
  end.

(** ** Lookups *)

Definition hydrateOneFormula (fuel : nat) (formula : LookupFormula Beef) : Run (option OutputListItem) :=
  output ← observe (FindOutput (fOutpoint formula) None None true) (FindOutputCall (fOutpoint formula));
  match output with
  | None => mret None
  | Some output =>
      match oBeef output with
      | None => mret None
      | Some _ =>
          output ← loadAncillaryBeef output;
          hydratedOutput ← GetUTXOHistory fuel (fHistory formula) 0 output;
          match hydratedOutput with
          | None => mret None
          | Some hydrated =>
              match oBeef hydrated with
              | None => mret None
              | Some beef =>
                  beefBytes ← lift (AtomicBytes beef (Txid (oOutpoint hydrated)));
                  mret (Some (mkItem beefBytes (Index (oOutpoint hydrated))))
              end
          end
      end
  end.

Fixpoint hydrateFormulas (fuel : nat) (formulas : list (LookupFormula Beef)) : Run (list OutputListItem) :=
  match formulas with
  | [] => mret []
  | formula :: formulas' =>
      item ← hydrateOneFormula fuel formula;
      rest ← hydrateFormulas fuel formulas';
      mret (match item with Some i => i :: rest | None => rest end)
  end.

Definition Lookup (fuel : nat) (service question : list byte) : Run (LookupAnswer Beef) :=
  match lookupServices e !! service with
  | None => lift (Err ErrUnknownTopic)
  | Some _ =>
      result ← invoke (answerQuestion service question) (QuestionCall service);
      match ansType result with
      | AnswerTypeFreeform | AnswerTypeOutputList => mret result
      | AnswerTypeFormula =>
          hydratedOutputs ← hydrateFormulas fuel (Formulas result);
          mret (mkAnswer AnswerTypeOutputList hydratedOutputs [] [])
      end
  end.

(** ** Answers to peers *)

Definition ProvideForeignSyncResponse (initialRequest : InitialRequest) (topic : list byte) : Op W InitialResponse := fun w =>
  let '(r, w) := FindUTXOsForTopic topic (reqSince initialRequest) (Limit initialRequest) false w in
  ((fun utxos => mkInitialResponse
      (map (fun u : Output => mkOutput (Txid (oOutpoint u)) (Index (oOutpoint u)) (oScore u)) utxos)
      (reqSince initialRequest)) <$> r, w).

Definition buildGASPNode (graphID outpoint : Outpoint) (tx : Transaction) : Node :=
  mkNode (Some graphID) (txBytes tx) (Index outpoint)
    (match txMerklePath tx with Some p => pathBytes p | None => [] end) [] [] ∅.

(** The loop of [hydrateGASPNode] over the consumed outputs: an error of one of them
    is the reason to try the next. *)
Fixpoint searchConsumed (hydrate : Output -> Run Node) (topic : list byte) (outputsConsumed : list Outpoint) : Run Node :=
  match outputsConsumed with
  | [] => lift (Err ErrMissingOutput)
  | consumedOutpoint :: rest => fun s =>
      match observe (FindOutput consumedOutpoint (Some topic) None true) (FindOutputCall consumedOutpoint) s with
      | Some (Ok (Some consumedOutput), s1) =>
          match hydrate consumedOutput s1 with
          | Some (Err _, s2) => searchConsumed hydrate topic rest s2
          | r => r
          end
      | Some (Ok None, s1) | Some (Err _, s1) => searchConsumed hydrate topic rest s1
      | Some (Panic, s1) => Some (Panic, s1)
      | None => None
      end
  end.

(** [hydrateGASPNode]; [deeper] is the recursive call, which the code makes at depth 0
    only. *)
Definition hydrateAt (deeper : option (Output -> Run Node)) (topic : list byte) (graphID outpoint : Outpoint)
    (output : Output) : Run Node :=
  match oBeef output with
  | None => lift (Err ErrMissingInput)
  | Some _ =>
      output ← loadAncillaryBeef output;
      match oBeef output with
      | None => lift Panic
      | Some beef =>
          match FindTransactionByHash beef (Txid outpoint) with
          | Some correctTx => mret (buildGASPNode graphID outpoint correctTx)
          | None =>
              match deeper with
              | None => lift (Err ErrMissingOutput)
              | Some hydrate => searchConsumed hydrate topic (OutputsConsumed output)
              end
          end
      end
  end.

Definition hydrateGASPNode (topic : list byte) (graphID outpoint : Outpoint) (output : Output) : Run Node :=
  hydrateAt (Some (hydrateAt None topic graphID outpoint)) topic graphID outpoint output.

Definition ProvideForeignGASPNode (graphID outpoint : Outpoint) (topic : list byte) : Run Node :=
  output ← observe (FindOutput graphID (Some topic) None true) (FindOutputCall graphID);
  match output with
  | None => lift (Err ErrMissingOutput)
  | Some output => hydrateGASPNode topic graphID outpoint output
  end.

(** ** What the storage promises *)

(** An output is found under its own outpoint, its history ends ([rank] decreases to
    the outputs that it consumed), and loading the ancillary BEEF touches nothing
    but the BEEF. *)
Definition histories_end (rank : Outpoint -> nat) : Prop :=
  forall o topic spent beef w out w', FindOutput o topic spent beef w = (Ok (Some out), w') ->
    oOutpoint out = o /\ forall c, c ∈ OutputsConsumed out -> (rank c < rank o)%nat.

Definition load_keeps : Prop :=
  forall o w o' w', LoadAncillaryBeef o w = (Ok o', w') ->
    oOutpoint o' = oOutpoint o /\ OutputsConsumed o' = OutputsConsumed o.

(** *** What a history is

    With the reads [tr] of a lookup: an output that was found at [o], with its ancillary
    BEEF loaded. *)
Definition loaded (tr : list event) (o : Outpoint) (out : Output) : Prop :=
  exists found, FindOutputCall o (Ok (Some found)) ∈ tr /\ LoadAncillaryCall found (Ok out) ∈ tr.

(** An input whose output has a history is linked to the transaction of that history; the
    others stay as they are. *)
Definition linked (histories : gmap Outpoint Output) (i i' : TxInput) : Prop :=
  match histories !! inputOutpoint i with
  | None => i' = i
  | Some h => exists beef source, oBeef h = Some beef /\
      FindTransactionForSigningByHash beef (Txid (inputOutpoint i)) = Some source /\ i' = setSource i source
  end.

(** The histories of the consumed outputs, by their outpoints. *)
Definition histories_of (children : list (option Output)) : gmap Outpoint Output :=
  foldl (fun m h => match h with Some h => <[oOutpoint h := h]> m | None => m end) ∅ children.

(** [history tr sel depth out h]: the selector [sel] makes [h] of the output [out] at
    [depth].  Without a selector it is the output as it is; an output that is refused has
    none; one that consumed no outputs is its own history; any other gets the BEEF of its
    transaction, linked with the histories, one level deeper, of all the outputs that it
    consumed and that are stored. *)
#[warnings="-register-all"]
Inductive history (tr : list event) (sel : option Selector) (depth : Z) (out : Output) : option Output -> Prop :=
  | history_whole : sel = None -> history tr sel depth out (Some out)
  | history_refused select : sel = Some select -> select (oBeef out) (Index (oOutpoint out)) depth = false ->
      history tr sel depth out None
  | history_origin select : sel = Some select -> select (oBeef out) (Index (oOutpoint out)) depth = true ->
      OutputsConsumed out = [] -> history tr sel depth out (Some out)
  | history_linked select children beef tx inputs bytes beef' subject txid :
      sel = Some select -> select (oBeef out) (Index (oOutpoint out)) depth = true -> OutputsConsumed out <> [] ->
      Forall2 (fun o child => FindOutputCall o (Ok None) ∈ tr /\ child = None \/
                 exists out', loaded tr o out' /\ history tr sel (u32 (depth + 1)) out' child) (OutputsConsumed out) children ->
      oBeef out = Some beef -> FindTransactionForSigningByHash beef (Txid (oOutpoint out)) = Some tx ->
      Forall2 (linked (histories_of children)) (txInputs tx) inputs ->
      BEEF (setInputs tx inputs) = Ok bytes -> ParseBeef bytes = Ok (beef', subject, txid) ->
      history tr sel depth out (Some (setBeef out (Some beef'))).

(** What a formula is answered with: nothing when its output is not stored, has no BEEF,
    or its history was refused; otherwise its index and the atomic BEEF of its history. *)
Definition hydrated (tr : list event) (f : LookupFormula Beef) (item : option OutputListItem) : Prop :=
  (item = None /\ exists found, FindOutputCall (fOutpoint f) (Ok found) ∈ tr /\ (found ≫= oBeef) = None) \/
  exists out h, loaded tr (fOutpoint f) out /\ history tr (fHistory f) 0 out h /\
    match h ≫= oBeef with
    | None => item = None
    | Some beef => exists bytes, AtomicBytes beef (Txid (fOutpoint f)) = Ok bytes /\ item = Some (mkItem bytes (Index (fOutpoint f)))
    end.

Lemma stitchInputs_linked inputs m inputs' : stitchInputs inputs m = Ok inputs' -> Forall2 (linked m) inputs inputs'.
Proof.
  revert inputs'. induction inputs as [|i inputs IH]; intros inputs' E; cbn [stitchInputs] in E; [injection E as <-; constructor|].
  apply bind_Ok in E as (i' & Ei & E). apply bind_Ok in E as (rest & Er & [= <-]). constructor; [|by apply IH].
  unfold linked. destruct (m !! inputOutpoint i) as [h|]; [|by injection Ei as <-].
  destruct (oBeef h) as [beef|]; [|done]. destruct (FindTransactionForSigningByHash _ _) as [source|] eqn:Es; [|done].
  injection Ei as <-. eauto.
Qed.

Section Histories.
Context (t : bool) (rank : Outpoint -> nat) (Hend : histories_end rank) (Hload : load_keeps).

(** A run that only adds calls, with a result that is right for all longer traces. *)
Definition yields {A} (m : Run A) (s : St) (P : list event -> A -> Prop) : Prop :=
  wp t m s (fun r s' => trace s ⊆ trace s' /\ forall a tr, r = Ok a -> trace s' ⊆ tr -> P tr a).

Lemma yields_ret {A} (a : A) s (P : list event -> A -> Prop) : (forall tr, trace s ⊆ tr -> P tr a) -> yields (mret a) s P.
Proof. clear rank Hend Hload. intros HP. apply wp_ret. split; [done|]. intros a' tr [= <-]. apply HP. Qed.

Lemma yields_lift {A} (r : result A) s (P : list event -> A -> Prop) :
  (forall a tr, r = Ok a -> trace s ⊆ tr -> P tr a) -> yields (lift r) s P.
Proof. clear rank Hend Hload. intros HP. by apply wp_lift. Qed.

Lemma yields_check {A B} (r : result A) (f : A -> Run B) s P : (forall a, r = Ok a -> yields (f a) s P) -> yields (lift r ≫= f) s P.
Proof. clear rank Hend Hload. intros Hf. apply wp_bind, wp_lift. destruct r as [a|e'|]; [by apply Hf|by split..]. Qed.

Lemma given_bind {A B} (m : Run A) (f : A -> Run B) s P Q :
  yields m s P -> (forall a s', trace s ⊆ trace s' -> (forall tr, trace s' ⊆ tr -> P tr a) -> yields (f a) s' Q) -> yields (m ≫= f) s Q.
Proof.
  clear rank Hend Hload. intros Hm Hf. apply wp_bind. eapply wp_mono; [apply Hm|]. intros r s' [Hs HP]. destruct r as [a|e'|]; [|by split..].
  eapply wp_mono; [by apply Hf; [|intros tr; apply HP]|]. intros r s'' [Hs' HQ]. split; [by trans (trace s')|done].
Qed.

Lemma yields_call {A B} (op : Op W A) ev (f : A -> Run B) s Q :
  (forall a w, op (world s) = (Ok a, w) -> yields (f a) (mkSt w (trace s ++ [ev (Ok a)])) Q) -> yields (observe op ev ≫= f) s Q.
Proof.
  clear rank Hend Hload. intros Hf. apply wp_bind, wp_observe. intros r w E. destruct r as [a|e'|]; [|cbn [trace]; split; [set_solver|done]..].
  eapply wp_mono; [by apply Hf|]. cbn [trace]. intros r s'' [Hs HQ]. split; [set_solver|done].
Qed.

Lemma called (ev : event) l tr : l ++ [ev] ⊆ tr -> ev ∈ tr.
Proof. clear rank Hend Hload. intros Hl. apply Hl, elem_of_app. right. by apply list_elem_of_singleton. Qed.

Lemma collectChildHistories_yields sel depth (hist : Output -> Run (option Output)) consumed m s :
  (forall out s, (forall c, c ∈ OutputsConsumed out -> (rank c < rank (oOutpoint out))%nat) -> oOutpoint out ∈ consumed ->
     yields (hist out) s (fun tr h => history tr sel depth out h)) ->
  yields (collectChildHistories hist consumed m) s (fun tr m' => exists children,
    Forall2 (fun o child => FindOutputCall o (Ok None) ∈ tr /\ child = None \/
               exists out', loaded tr o out' /\ history tr sel depth out' child) consumed children /\
    m' = foldl (fun m h => match h with Some h => <[oOutpoint h := h]> m | None => m end) m children).
Proof using Hend Hload.
  revert m s. induction consumed as [|o consumed IH]; intros m s Hhist; cbn [collectChildHistories].
  { apply yields_ret. intros tr _. exists []. split; [constructor|done]. }
  assert (IH' : forall m s child, (forall tr, trace s ⊆ tr -> FindOutputCall o (Ok None) ∈ tr /\ child = None \/
      exists out', loaded tr o out' /\ history tr sel depth out' child) ->
    yields (collectChildHistories hist consumed (match child with Some h => <[oOutpoint h := h]> m | None => m end)) s (fun tr m' => exists children,
      Forall2 (fun o child => FindOutputCall o (Ok None) ∈ tr /\ child = None \/
                 exists out', loaded tr o out' /\ history tr sel depth out' child) (o :: consumed) children /\
      m' = foldl (fun m h => match h with Some h => <[oOutpoint h := h]> m | None => m end) m children)).
  { intros m1 s1 child Hchild. eapply wp_mono; [apply (IH _ s1)|].
    - intros out s2 Hr Hin. apply Hhist; [done|by right].
    - intros r s2 [Hs HP]. split; [done|]. intros m' tr Er Htr. destruct (HP m' tr Er Htr) as (children & HF & ->).
      exists (child :: children). split; [|done]. constructor; [|done]. apply Hchild. by trans (trace s2). }
  apply yields_call. intros found w Ef. destruct found as [out|].
  - destruct (Hend _ _ _ _ _ _ _ Ef) as [Eo Hr]. unfold loadAncillaryBeef. apply yields_call. cbn [trace world]. intros out' w' El.
    destruct (Hload _ _ _ _ El) as [Eo' Ec']. eapply given_bind.
    { apply Hhist; [rewrite Ec', Eo', Eo; exact Hr|]. rewrite Eo', Eo. by left. }
    cbn [trace]. intros child s' Hs Hhistory. apply IH'. intros tr Htr. right. exists out'. split; [|by apply Hhistory].
    exists out. set_solver.
  - apply (IH' m _ None). cbn [trace]. intros tr Htr. left. split; [|done]. by eapply called.
Qed.

Lemma GetUTXOHistory_yields fuel sel depth out s :
  (t = true -> (rank (oOutpoint out) < fuel)%nat) ->
  (forall c, c ∈ OutputsConsumed out -> (rank c < rank (oOutpoint out))%nat) ->
  yields (GetUTXOHistory fuel sel depth out) s (fun tr h => history tr sel depth out h).
Proof using Hend Hload.
  revert depth out s. induction fuel as [|fuel IH]; intros depth out s Hfuel Hr; cbn [GetUTXOHistory];
    (destruct sel as [select|]; [|apply yields_ret; intros; by apply history_whole]);
    (destruct (select _ _ _) eqn:Es; cbn [negb]; [|apply yields_ret; intros; by eapply history_refused]);
    (case_bool_decide as Hc; [apply yields_ret; intros; by eapply history_origin|]).
  { unfold yields, wp, exhausted. destruct t; [|done]. specialize (Hfuel eq_refl). lia. }
  eapply given_bind.
  { apply (collectChildHistories_yields (Some select) (u32 (depth + 1))). intros out' s' Hout Hin. apply IH; [|done].
    intros Ht. specialize (Hfuel Ht). specialize (Hr _ Hin). lia. }
  intros m s' Hs Hm. destruct (oBeef out) as [beef|] eqn:Eb; [|by apply yields_lift].
  destruct (FindTransactionForSigningByHash _ _) as [tx|] eqn:Etx; [|by apply yields_lift].
  apply yields_check. intros tx' Estitch. unfold stitchSourceTransactions in Estitch.
  apply bind_Ok in Estitch as (inputs & Einputs%stitchInputs_linked & [= <-]).
  apply yields_check. intros bytes Ebytes. apply yields_check. intros [[beef' subject] txid] Eparse.
  apply yields_ret. intros tr Htr. destruct (Hm tr Htr) as (children & HF & ->).
  apply (history_linked tr _ depth out select children beef tx inputs bytes beef' subject txid); by rewrite ?Eb.
Qed.

(** A history is that of its output. *)
Lemma history_outpoint tr sel depth out h : history tr sel depth out (Some h) -> oOutpoint h = oOutpoint out.
Proof. by inversion 1. Qed.

Lemma hydrateOneFormula_yields fuel f s :
  (t = true -> forall o, (rank o < fuel)%nat) -> yields (hydrateOneFormula fuel f) s (fun tr item => hydrated tr f item).
Proof using Hend Hload.
  intros Hfuel. unfold hydrateOneFormula. apply yields_call. intros found w Ef. destruct found as [out|].
  2: { apply yields_ret. cbn [trace]. intros tr Htr. left. split; [done|]. exists None. split; [by eapply called|done]. }
  destruct (Hend _ _ _ _ _ _ _ Ef) as [Eo Hr]. destruct (oBeef out) as [beef0|] eqn:Eb0.
  2: { apply yields_ret. cbn [trace]. intros tr Htr. left. split; [done|]. exists (Some out). split; [by eapply called|done]. }
  unfold loadAncillaryBeef. apply yields_call. cbn [trace world]. intros out' w' El. destruct (Hload _ _ _ _ El) as [Eo' Ec'].
  eapply given_bind.
  { apply GetUTXOHistory_yields; [intros Ht; by apply Hfuel|]. rewrite Ec', Eo', Eo. exact Hr. }
  cbn [trace]. intros h s' Hs Hh.
  assert (Hloaded : forall tr, trace s' ⊆ tr -> loaded tr (fOutpoint f) out') by (intros tr Htr; exists out; set_solver).
  assert (Hnone : (h ≫= oBeef) = None -> yields (mret None) s' (fun tr item => hydrated tr f item)).
  { intros En. apply yields_ret. intros tr Htr. right. exists out', h. rewrite En. auto. }
  destruct h as [hyd|]; [|by apply Hnone]. destruct (oBeef hyd) as [beef|] eqn:Eb; [|apply Hnone; by cbn].
  apply yields_check. intros bytes Ebytes. apply yields_ret. intros tr Htr. right. exists out', (Some hyd). cbn. rewrite Eb.
  assert (Eh : oOutpoint hyd = fOutpoint f) by (rewrite <- Eo, <- Eo'; by eapply history_outpoint, Hh).
  rewrite Eh in *. split_and!; [by apply Hloaded|by apply Hh|]. by exists bytes.
Qed.

Lemma hydrateFormulas_yields fuel fs s :
  (t = true -> forall o, (rank o < fuel)%nat) ->
  yields (hydrateFormulas fuel fs) s (fun tr items => exists given, Forall2 (hydrated tr) fs given /\ items = omap id given).
Proof using Hend Hload.
  intros Hfuel. revert s. induction fs as [|f fs IH]; intros s; cbn [hydrateFormulas].
  { apply yields_ret. intros tr _. exists []. split; [constructor|done]. }
  eapply given_bind; [by apply hydrateOneFormula_yields|]. intros item s1 H1' Hitem.
  eapply given_bind; [apply IH|]. intros rest s2 H2' Hrest. apply yields_ret. intros tr Htr.
  destruct (Hrest tr Htr) as (given & HF & ->). exists (item :: given). split; [constructor; [|done]|by destruct item].
  apply Hitem. by trans (trace s2).
Qed.
End Histories.

(** C25.  A lookup.  With a storage whose histories end, every lookup returns: an unknown
    service is refused before anything is called; a freeform answer and a list of outputs
    are passed on unchanged; formulas become a list of outputs that answers every one of
    them, in their order, as [hydrated] says: with the atomic BEEF of the history that its
    selector makes of the output that the storage gave, and with nothing exactly when that
    output is missing, has no BEEF, or is refused by the selector. *)
Theorem lookup_spec rank fuel service question w :
  histories_end rank -> load_keeps -> (forall o, (rank o < fuel)%nat) ->
  exists r s', Lookup fuel service question (mkSt w []) = Some (r, s') /\
    match lookupServices e !! service with
    | None => r = Err ErrUnknownTopic /\ s' = mkSt w []
    | Some _ =>
        match fst (answerQuestion service question w) with
        | Ok a =>
            match ansType a with
            | AnswerTypeFormula => forall ans, r = Ok ans -> ansType ans = AnswerTypeOutputList /\
                exists given, Forall2 (hydrated (trace s')) (Formulas a) given /\ ansOutputs ans = omap id given
            | _ => r = Ok a
            end
        | Err err => r = Err err
        | Panic => r = Panic
        end
    end.
Proof.
  intros Hend Hload Hfuel. unfold Lookup. destruct (lookupServices e !! service); [|by eexists _, _].
  apply wp_returns.
  apply wp_bind, wp_invoke. intros r w' Ea. simpl in Ea. rewrite Ea. simpl.
  destruct r as [a|err|]; [|done..]. destruct (ansType a); [by apply wp_ret..|].
  apply wp_bind. eapply wp_mono; [by apply (hydrateFormulas_yields true rank)|]. intros r s' [_ Hr].
  destruct r as [items|err|]; [|done..]. apply wp_ret. intros ans [= <-]. split; [done|]. simpl. by apply Hr.
Qed.

(** ** Nodes for peers *)

(** The outpoints that a run searched. *)
Definition searched (tr : list event) : list Outpoint :=
  omap (fun ev => match ev with FindOutputCall o _ => Some o | _ => None end) tr.

(** The outputs that it loaded, with their ancillary BEEF. *)
Definition looked (tr : list event) : list Output :=
  omap (fun ev => match ev with LoadAncillaryCall _ (Ok out) => Some out | _ => None end) tr.

Lemma searched_app tr1 tr2 : searched (tr1 ++ tr2) = searched tr1 ++ searched tr2.
Proof. apply omap_app. Qed.

Lemma looked_app tr1 tr2 : looked (tr1 ++ tr2) = looked tr1 ++ looked tr2.
Proof. apply omap_app. Qed.

Lemma searched_find o r tr : searched (FindOutputCall o r :: tr) = o :: searched tr.
Proof. done. Qed.

(** The transaction that an output's BEEF lists under the requested identifier. *)
Definition lists (outpoint : Outpoint) (out : Output) : option Transaction :=
  oBeef out ≫= fun beef => FindTransactionByHash beef (Txid outpoint).

(** The node of a transaction in a graph: its bytes, its Merkle path when it has one, and
    the requested output; no metadata, and no inputs to ask for. *)
Definition describes (graphID outpoint : Outpoint) (tx : Transaction) (node : Node) : Prop :=
  GraphID node = Some graphID /\ RawTx node = txBytes tx /\ nodeOutputIndex node = Index outpoint /\
  (forall path, txMerklePath tx = Some path -> Proof_ node = pathBytes path) /\ (txMerklePath tx = None -> Proof_ node = []) /\
  TxMetadata node = [] /\ OutputMetadata node = [] /\ Inputs node = ∅.

Lemma build_describes graphID outpoint tx : describes graphID outpoint tx (buildGASPNode graphID outpoint tx).
Proof. unfold describes, buildGASPNode; cbn. split_and!; try done; [by intros path ->|by intros ->]. Qed.

(** What a search has found and where it has looked: a node is that of the first
    transaction found, which the last output that was loaded lists; an error means that no
    output that was loaded lists it, and when all [places] were to be searched they were. *)
Definition search (graphID outpoint : Outpoint) (places : list Outpoint) (tr : list event) (r : result Node) : Prop :=
  searched tr `prefix_of` places /\
  match r with
  | Ok node => exists before out tx, looked tr = before ++ [out] /\ Forall (fun out => lists outpoint out = None) before /\
      lists outpoint out = Some tx /\ describes graphID outpoint tx node
  | Err _ => Forall (fun out => lists outpoint out = None) (looked tr)
  | Panic => True
  end.

(** The steps of a run from [s]. *)
Definition since (s s' : St) (P : list event -> Prop) : Prop := exists tr, trace s' = trace s ++ tr /\ P tr.

Lemma searchConsumed_wp hydrate topic graphID outpoint consumed s :
  (forall out s, wp true (hydrate out) s (fun r s' => since s s' (fun tr => search graphID outpoint [] tr r))) ->
  wp true (searchConsumed hydrate topic consumed) s (fun r s' => since s s' (fun tr => search graphID outpoint consumed tr r /\
    (is_ok r = false -> r = Panic \/ searched tr = consumed))).
Proof.
  intros Hhyd. revert s. induction consumed as [|o consumed IH]; intros s; cbn [searchConsumed].
  { apply wp_lift. exists []. rewrite app_nil_r. split_and!; [done|split; [done|by constructor]|by right]. }
  unfold wp, observe. destruct (FindOutput o _ _ _ _) as [found w]. set (s1 := mkSt _ _).
  assert (Hcont : forall s2, since s1 s2 (fun tr => searched tr = [] /\ Forall (fun out => lists outpoint out = None) (looked tr)) ->
    wp true (searchConsumed hydrate topic consumed) s2 (fun r s' => since s s' (fun tr => search graphID outpoint (o :: consumed) tr r /\
      (is_ok r = false -> r = Panic \/ searched tr = o :: consumed)))).
  { intros s2 (tr & E2 & Es & Hl). eapply wp_mono; [apply IH|]. intros r s3 (tr' & E3 & [Hp Hr] & Hall).
    exists (FindOutputCall o found :: tr ++ tr'). split; [rewrite E3, E2; subst s1; cbn [trace]; by rewrite <- !app_assoc|].
    unfold search. rewrite searched_find, searched_app, Es. cbn [app].
    change (looked (FindOutputCall o found :: tr ++ tr')) with (looked (tr ++ tr')). rewrite looked_app.
    split_and!; [by apply prefix_cons| |intros Hr'; destruct (Hall Hr') as [?|<-]; auto].
    destruct r as [node|e'|]; [|by apply Forall_app|done]. destruct Hr as (before & out & tx & -> & Hb & Hx & Hn).
    exists (looked tr ++ before), out, tx. rewrite app_assoc. split_and!; [done|by apply Forall_app|done..]. }
  destruct found as [[out|]|e'|].
  - specialize (Hhyd out s1). unfold wp in Hhyd. destruct (hydrate out s1) as [[r s2]|]; [|done].
    destruct Hhyd as (tr & E2 & Hp & Hr). apply prefix_nil_inv in Hp.
    assert (Hs2 : forall P : list event -> Prop, P (FindOutputCall o (Ok (Some out)) :: tr) -> since s s2 P).
    { intros P HP. eexists. split; [|exact HP]. rewrite E2. subst s1. cbn [trace]. by rewrite <- app_assoc. }
    destruct r as [node|e'|]; [|apply Hcont; by exists tr|]; apply Hs2; (split; [|by intros; left || done]);
      unfold search; rewrite searched_find, Hp; (split; [apply prefix_cons, prefix_nil|exact Hr]).
  - apply Hcont. exists []. rewrite app_nil_r. split_and!; [done..|by constructor].
  - apply Hcont. exists []. rewrite app_nil_r. split_and!; [done..|by constructor].
  - exists [FindOutputCall o Panic]. split; [done|]. split; [split; [apply prefix_cons, prefix_nil|done]|by left].
Qed.

(** An output without BEEF, and one whose ancillary BEEF cannot be loaded, cannot be
    looked at. *)
Definition unreadable (output : Output) (tr : list event) : Prop :=
  oBeef output = None \/ exists r, LoadAncillaryCall output r ∈ tr /\ is_ok r = false.

Lemma hydrateAt_wp deeper topic graphID outpoint output s :
  load_keeps ->
  (forall hydrate out s, deeper = Some hydrate -> wp true (hydrate out) s (fun r s' => since s s' (fun tr => search graphID outpoint [] tr r))) ->
  wp true (hydrateAt deeper topic graphID outpoint output) s (fun r s' => since s s' (fun tr =>
    search graphID outpoint (match deeper with Some _ => OutputsConsumed output | None => [] end) tr r /\
    (is_ok r = false -> r = Panic \/ unreadable output tr \/
       searched tr = match deeper with Some _ => OutputsConsumed output | None => [] end))).
Proof.
  intros Hload Hdeep. unfold hydrateAt. set (places := match deeper with Some _ => _ | None => _ end).
  assert (Hnil : forall r tr, looked tr = [] -> searched tr = [] -> is_ok r = false -> search graphID outpoint places tr r).
  { intros r tr El Es Hr. split; [rewrite Es; apply prefix_nil|]. rewrite El. by destruct r. }
  destruct (oBeef output) eqn:Eb; [|apply wp_lift; exists []; rewrite app_nil_r; split_and!; [done|by apply Hnil|by right; left; left]].
  apply wp_bind. unfold loadAncillaryBeef. apply wp_observe. intros r w El.
  destruct r as [out'|e'|]; [|eexists; (split; [reflexivity|]); (split; [by apply Hnil|])..].
  2: { intros _. right. left. right. eexists. split; [by apply list_elem_of_singleton|done]. }
  2: { intros _. by left. }
  destruct (Hload _ _ _ _ El) as [_ Ec].
  destruct (oBeef out') as [beef|] eqn:Eb'; [|apply wp_lift; eexists; split; [reflexivity|]; split; [split; [apply prefix_nil|done]|by left]].
  assert (Elists : lists outpoint out' = FindTransactionByHash beef (Txid outpoint)) by (unfold lists; by rewrite Eb').
  destruct (FindTransactionByHash beef (Txid outpoint)) as [tx|] eqn:Etx.
  { apply wp_ret. eexists. split; [reflexivity|]. split; [|done]. split; [apply prefix_nil|]. exists [], out', tx. split_and!; [done|done|done|apply build_describes]. }
  assert (Hone : Forall (fun out => lists outpoint out = None) [out']) by (by constructor).
  destruct deeper as [hydrate|]; [|apply wp_lift; eexists; split; [reflexivity|]; split; [split; [apply prefix_nil|exact Hone]|by right; right]].
  subst places. rewrite Ec. eapply wp_mono; [apply searchConsumed_wp; intros; by apply Hdeep|].
  intros r s2 (tr & E2 & [Hp Hr] & Hall). exists (LoadAncillaryCall output (Ok out') :: tr).
  split; [rewrite E2; cbn [trace]; by rewrite <- app_assoc|].
  assert (Els : looked (LoadAncillaryCall output (Ok out') :: tr) = out' :: looked tr) by done.
  split; [split; [exact Hp|]|intros Hr'; destruct (Hall Hr'); auto]. rewrite Els. destruct r as [node|e'|]; [|by constructor|done].
  destruct Hr as (before & out & tx & -> & Hb & Hx & Hn). exists (out' :: before), out, tx. by split_and!; [|constructor| |].
Qed.


End Lookup.

(** ** An output and its parent *)

Module Example.
Import EngineModel.

Definition parent : Outpoint := mkOutpoint (nameOf [Byte.x01]) 0.
Definition child : Outpoint := mkOutpoint (nameOf [Byte.x02]) 0.

Definition stored (o : Outpoint) (consumed : list Outpoint) (bytes : list byte) : EngineOutput Transaction :=
  mkEngineOutput o (str "tm") false consumed [] 0 0 0
    (Some (mkTransaction bytes None (map spend (drop 1 bytes)) [])) [] MerkleStateUnmined None.

Definition content : Store Transaction :=
  {[ child := stored child [parent] [Byte.x02; Byte.x01]; parent := stored parent [] [Byte.x01] ]}.

#[local] Instance storage : EngineStorage unit Transaction := frozen content.

(** Every output, with its history down to depth 0. *)
#[local] Instance allOutputs : LookupQueries unit Transaction := {|
  answerQuestion _ _ w :=
    (Ok (mkAnswer AnswerTypeFormula []
           [mkFormula child (Some (fun _ _ depth => depth <? 1)); mkFormula (mkOutpoint zero_hash 9) None;
            mkFormula parent None] []), w) |}.

Definition rank (o : Outpoint) : nat := if bool_decide (o = child) then 1 else 0.

Lemma stored_histories_end : histories_end (W := unit) (Beef := Transaction) rank.
Proof.
  intros o topic spent beef w out w' Ef. assert (Hk : content !! o = Some out) by (injection Ef as Hk _; exact Hk).
  unfold content in Hk.
  apply lookup_insert_Some in Hk as [[<- <-]|[_ [<- <-]%lookup_singleton_Some]]; (split; [done|]); intros c Hc.
  - change (c ∈ [parent]) in Hc. apply list_elem_of_singleton in Hc. subst c. vm_compute. lia.
  - change (c ∈ []) in Hc. inversion Hc.
Qed.

Lemma load_ok : load_keeps (W := unit) (Beef := Transaction).
Proof. by intros o w o' w' [= <- _]. Qed.

Definition asked := Lookup (W := unit) (Beef := Transaction) config 2 (str "ls") [] (mkSt tt []).

Lemma lookup_spec_witness :
  exists r s', asked = Some (r, s') /\
    forall ans, r = Ok ans -> ansType ans = AnswerTypeOutputList /\
      exists given, Forall2 (hydrated (trace s')) [mkFormula child (Some (fun _ _ depth => depth <? 1));
                                 mkFormula (mkOutpoint zero_hash 9) None; mkFormula parent None] given /\
        ansOutputs ans = omap id given.
Proof.
  assert (Hrank : forall o, (rank o < 2)%nat) by (intros o; unfold rank; case_bool_decide; lia).
  exact (lookup_spec (W := unit) (Beef := Transaction) config rank 2 (str "ls") [] tt stored_histories_end load_ok Hrank).
Defined.

(** The second formula names nothing that is stored. *)
Example asked_answer : (fun '(r, _) => r) <$> asked =
  Some (Ok (mkAnswer AnswerTypeOutputList [mkItem [Byte.x02; Byte.x01] 0; mkItem [Byte.x01] 0] [] [])).
Proof. vm_compute. reflexivity. Qed.

Definition served := ProvideForeignGASPNode (W := unit) (Beef := Transaction) child parent (str "tm") (mkSt tt []).


Example served_node : (fun '(r, s) => (r, searched (trace s))) <$> served =
  Some (Ok (mkNode (Some child) [Byte.x01] 0 [] [] [] ∅), [child; parent]).
Proof. vm_compute. reflexivity. Qed.

End Example.

End Lookup.
