(* ===== verification/IdentityLookup.v ===== *)
(** * pkg/topics/identity/lookup.go: the index of identity certificates

    The lookup service keeps the projection of the host in step with the engine's
    notifications and answers queries from it with outpoints.  The projection and the
    parser of BEEFs are parameters; the context of a call is part of the world. *)

From S2P Require Import Prelude Bytes Json Runs Traced GaspTypes EngineTypes.
Import Gasp.
From S2P Require Import IdentityQuery IdentityOutput Lookup.
Import IdentityQuery IdentityOutput.
Open Scope Z_scope.

(** [Projection] (projection.go), the context, and whether the host gave a projection. *)
Class Projection (W : Type) := {
  Upsert : IdentityRecord -> Op W unit;
  Delete : Outpoint -> Op W unit;
  Find : Query -> Op W (list Outpoint);
  context : W -> Ctx;
  withContext : Ctx -> W -> W }.

(** [transaction.NewBeefFromAtomicBytes], which may panic. *)
Class AtomicParser := { NewBeefFromAtomicBytes : list byte -> result (option IdentityBeef * option Hash) }.

(** [engine.OutputAdmittedByTopic], [engine.OutputSpent] and [lookup.LookupQuestion]: the
    fields that the service reads. *)
Record AdmittedOutput := mkAdmittedOutput { admTopic : list byte; OutputIndex : Z; AtomicBEEF : list byte }.
Record Spent := mkSpentOutput { spentTopic : list byte; spentOutpoint : option Outpoint }.
Record Question := mkQuestion { qService : list byte; qQuery : list byte }.

(** What a projection promises: it holds records by outpoint; an acknowledged call has
    taken effect, one that fails may have; nothing else changes it, and a call keeps the
    context one. *)
Class ProjectionLaws (W : Type) `{Projection W} := {
  records : W -> gmap Outpoint IdentityRecord;
  records_context c w : records (withContext c w) = records w;
  context_context c w : context (withContext c w) = c;
  Upsert_law rec w r w' : Upsert rec w = (r, w') ->
    (records w' = <[recOutpoint rec := rec]> (records w) \/ (r <> Ok tt /\ records w' = records w)) /\
    absent (context w') = absent (context w);
  Delete_law o w r w' : Delete o w = (r, w') ->
    (records w' = delete o (records w) \/ (r <> Ok tt /\ records w' = records w)) /\ absent (context w') = absent (context w);
  Find_law q w r w' : Find q w = (r, w') -> records w' = records w /\ absent (context w') = absent (context w) }.

Module IdentityLookup.

(** [LookupService]; the projection is that of the world. *)
Record LookupService := mkLookupService { admissionPolicy : AdmissionPolicy; queryPolicy : QueryPolicy }.

(** [NewLookupServiceWithPolicies]; [nilProjection] of the projection that is given. *)
Definition NewLookupServiceWithPolicies (nilProjection : bool) (admission : AdmissionPolicy) (query : QueryPolicy)
    : result LookupService :=
  if nilProjection then Err ErrProjectionContract
  else validatePolicy admission ≫= fun _ => validateQueryPolicy query ≫= fun _ => Ok (mkLookupService admission query).

Definition NewLookupService (nilProjection : bool) : result LookupService :=
  NewLookupServiceWithPolicies nilProjection DefaultAdmissionPolicy DefaultQueryPolicy.

(** [parseNotificationBEEF]: a panic of the parser is recovered. *)
Definition parseNotificationBEEF `{AtomicParser} (raw : list byte) : result (option IdentityBeef * option Hash) :=
  match NewBeefFromAtomicBytes raw with Ok r => Ok r | _ => Err ErrInvalidNotification end.

Section Service.
Context {W Beef PublicKey Signature : Type} `{Projection W} `{AtomicParser} `{sdk : IdentitySDK PublicKey Signature}.
Context (s : LookupService).

Inductive event :=
  | UpsertCall (record : IdentityRecord) (r : result unit)
  | DeleteCall (outpoint : Outpoint) (r : result unit)
  | FindCall (query : Query) (r : result (list Outpoint)).

Local Abbreviation St := (Traced.St W event).
Local Abbreviation Run := (Runs.Run St).

(** A computation under the context of the call. *)
Definition polled {A} (m : Polling A) : Run A := fun st =>
  let '(r, c) := m (context (world st)) in Some (r, mkSt (withContext c (world st)) (trace st)).

(** [LookupService.OutputAdmittedByTopic] *)
Definition OutputAdmittedByTopic (payload : option AdmittedOutput) : Run unit :=
  match payload with
  | None => lift (Err ErrInvalidNotification)
  | Some payload =>
      if negb (bool_decide (admTopic payload = Topic)) then mret tt else
      polled poll ≫= fun _ =>
      if MaxNotificationBytes (admissionPolicy s) <? len (AtomicBEEF payload) then lift (Err ErrAdmissionBudget) else
      '(beef, txid) ← lift (parseNotificationBEEF (AtomicBEEF payload));
      tx ← lift (selectedTransaction beef txid (admissionPolicy s));
      if (len (Outputs tx) <=? OutputIndex payload) || bool_decide (Inputs tx = []) then lift (Err ErrInvalidNotification) else
      script ← lift (scriptOf (default None (Outputs tx !! Z.to_nat (OutputIndex payload))));
      record ← polled (ProjectOutput (mkOutpoint (default zero_hash txid) (OutputIndex payload)) script (admissionPolicy s));
      observe (Upsert record) (UpsertCall record)
  end.

(** [LookupService.OutputEvicted] *)
Definition OutputEvicted (outpoint : option Outpoint) : Run unit :=
  match outpoint with
  | None => lift (Err ErrInvalidNotification)
  | Some outpoint => polled poll ≫= fun _ => observe (Delete outpoint) (DeleteCall outpoint)
  end.

(** [LookupService.OutputSpent] *)
Definition OutputSpent (payload : option Spent) : Run unit :=
  match payload with
  | None => lift (Err ErrInvalidNotification)
  | Some payload => if negb (bool_decide (spentTopic payload = Topic)) then mret tt else OutputEvicted (spentOutpoint payload)
  end.

(** [LookupService.OutputNoLongerRetainedInHistory] *)
Definition OutputNoLongerRetainedInHistory : Run unit := polled poll.

(** [LookupService.OutputBlockHeightUpdated] *)
Definition OutputBlockHeightUpdated : Run unit := polled poll.

(** [LookupService.Lookup] *)
Definition Lookup (question : option Question) : Run (LookupAnswer Beef) :=
  polled poll ≫= fun _ =>
  match question with
  | None => lift (Err ErrInvalidQuery)
  | Some question =>
      if negb (bool_decide (qService question = Service)) then lift (Err ErrInvalidQuery) else
      query ← lift (CompileQuery (qQuery question) (queryPolicy s));
      if Empty query then mret (mkAnswer AnswerTypeFormula [] [] []) else
      outpoints ← observe (Find query) (FindCall query);
      polled poll ≫= fun _ =>
      if Unbounded (pagination query) && (ResultLimit (pagination query) <? len outpoints) then lift (Err ErrQueryBudget)
      else if Limit (pagination query) <? len outpoints then lift (Err ErrProjectionContract)
      else mret (mkAnswer AnswerTypeFormula [] (map (fun outpoint => mkFormula outpoint None) outpoints) [])
  end.

(** ** The engine's notifications *)

Inductive notification :=
  | NotifyAdmitted (payload : option AdmittedOutput)
  | NotifySpent (payload : option Spent)
  | NotifyEvicted (outpoint : option Outpoint)
  | NotifyNoLongerRetained
  | NotifyBlockHeight.

Definition notify (n : notification) : Run unit :=
  match n with
  | NotifyAdmitted payload => OutputAdmittedByTopic payload
  | NotifySpent payload => OutputSpent payload
  | NotifyEvicted outpoint => OutputEvicted outpoint
  | NotifyNoLongerRetained => OutputNoLongerRetainedInHistory
  | NotifyBlockHeight => OutputBlockHeightUpdated
  end.

(** The notifications of the engine, one after the other; each comes with a context of
    its own and is acknowledged or not.  A panic ends the process. *)
Fixpoint deliver (ns : list (Ctx * notification)) : Run (list (result unit)) :=
  match ns with
  | [] => mret []
  | (c, n) :: ns' => fun st =>
      match notify n (mkSt (withContext c (world st)) (trace st)) with
      | Some (Panic, st') => Some (Panic, st')
      | Some (r, st') => (rs ← deliver ns'; mret (r :: rs)) st'
      | None => None
      end
  end.

(** ** The index that the notifications describe *)

Context `{laws : !IdentityLaws sdk}.

(** The record of a notification, whatever happens to contexts. *)
Definition recordOf (payload : AdmittedOutput) : result IdentityRecord :=
  '(beef, txid) ← parseNotificationBEEF (AtomicBEEF payload);
  tx ← selectedTransaction beef txid (admissionPolicy s);
  script ← scriptOf (default None (Outputs tx !! Z.to_nat (OutputIndex payload)));
  project (mkOutpoint (default zero_hash txid) (OutputIndex payload)) script (admissionPolicy s).

Definition effect (n : notification) (index : gmap Outpoint IdentityRecord) : gmap Outpoint IdentityRecord :=
  match n with
  | NotifyAdmitted (Some payload) =>
      if bool_decide (admTopic payload = Topic)
      then match recordOf payload with Ok record => <[recOutpoint record := record]> index | _ => index end
      else index
  | NotifySpent (Some payload) =>
      if bool_decide (spentTopic payload = Topic)
      then match spentOutpoint payload with Some o => delete o index | None => index end
      else index
  | NotifyEvicted (Some o) => delete o index
  | _ => index
  end.

(** The records are those of verified outputs, under their own outpoints. *)
Definition index_ok (index : gmap Outpoint IdentityRecord) : Prop :=
  forall o record, index !! o = Some record ->
    recOutpoint record = o /\ exists script, project o script (admissionPolicy s) = Ok record.

Lemma project_outpoint o script policy record : project o script policy = Ok record -> recOutpoint record = o.
Proof.
  unfold project. intros E. repeat (apply bind_Ok in E as (? & _ & E); try (destruct x)). by injection E as <-.
Qed.

Lemma effect_ok n index : index_ok index -> index_ok (effect n index).
Proof.
  intros Hok. assert (Hdel : forall o, index_ok (delete o index)) by (intros o o' r Hr; apply lookup_delete_Some in Hr as [_ Hr]; by apply Hok).
  destruct n as [[p|]|[p|]|[o|]| |]; cbn [effect]; try done; case_bool_decide; try done.
  - destruct (recordOf p) as [record|e|] eqn:E; [|done..]. unfold recordOf in E. apply bind_Ok in E as ([beef txid] & _ & E).
    apply bind_Ok in E as (tx & _ & E). apply bind_Ok in E as (script & _ & E). pose proof (project_outpoint _ _ _ _ E) as Eo.
    intros o' r Hr. apply lookup_insert_Some in Hr as [[<- <-]|[_ Hr]]; [|by apply Hok]. split; [done|]. rewrite Eo. by exists script.
  - destruct (spentOutpoint p); [apply Hdel|done].
Qed.

Context `{plaws : !ProjectionLaws W}.

(** What a notification does to the state: [f] is its effect on the index. *)
Definition follows (f : gmap Outpoint IdentityRecord -> gmap Outpoint IdentityRecord) (st : St) (r : result unit) (st' : St) : Prop :=
  (records (world st') = f (records (world st)) \/ (r <> Ok tt /\ records (world st') = records (world st))).

Lemma wp_under_context {A} t (m : Polling A) st (Q : result A -> St -> Prop) :
  (forall r c, m (context (world st)) = (r, c) -> Q r (mkSt (withContext c (world st)) (trace st))) -> wp t (polled m) st Q.
Proof. unfold wp, polled. destruct (m (context (world st))) as [r c]. auto. Qed.

(** A failure, at another type. *)
Definition failure {A B} (v : result A) : result B := match v with Err e => Err e | _ => Panic end.

(** A computation that respects [r] under the context of the call, then [k]. *)
Lemma wp_respects {A B} t (m : Polling A) r (k : A -> Run B) st (Q : result B -> St -> Prop) :
  respects m r -> absent (context (world st)) = false ->
  (forall w, records w = records (world st) -> absent (context w) = false -> (live (context (world st)) -> context w = context (world st)) ->
     forall a, r = Ok a -> wp t (k a) (mkSt w (trace st)) Q) ->
  (forall w v, records w = records (world st) -> (live (context (world st)) -> v = r) -> is_ok v = false -> Q (failure v) (mkSt w (trace st))) ->
  wp t (polled m ≫= k) st Q.
Proof.
  intros Hm Hc Hk Hfail. apply wp_bind, wp_under_context. intros v c E. destruct (Hm _ Hc) as (Ha & _ & _ & Hv). rewrite E in *. cbn [fst snd] in *.
  assert (Hr : records (withContext c (world st)) = records (world st)) by apply records_context.
  destruct Hv as [[Hv Hlive]|(Hnl & Hno & _)].
  - subst v. destruct r as [a|e|].
    + apply Hk; [done|by rewrite context_context| |done]. intros Hl. rewrite context_context. auto.
    + by apply (Hfail _ (Err e)).
    + by apply (Hfail _ Panic).
  - destruct v as [a|e|]; [done| |]; [apply (Hfail _ (Err e))|apply (Hfail _ Panic)]; done.
Qed.

Lemma wp_lift_bind {A B} t (r : result A) (k : A -> Run B) st (Q : result B -> St -> Prop) :
  (forall a, r = Ok a -> wp t (k a) st Q) -> (is_ok r = false -> Q (failure r) st) -> wp t (lift r ≫= k) st Q.
Proof. intros Hk Hf. apply wp_bind, wp_lift. destruct r as [a|e|]; [by apply Hk|by apply Hf..]. Qed.

Lemma failure_not_ok {A} (v : result A) : (failure v : result unit) <> Ok tt.
Proof. by destruct v. Qed.

Lemma refused_follows t f e st st' : records (world st') = records (world st) -> wp t (lift (Err e) : Run unit) st' (follows f st).
Proof. intros Hr. apply wp_lift. right. by split. Qed.

Lemma OutputAdmitted_follows payload st :
  absent (context (world st)) = false -> wp true (OutputAdmittedByTopic payload) st (follows (effect (NotifyAdmitted payload)) st).
Proof.
  intros Hc. destruct payload as [p|]; cbn [OutputAdmittedByTopic effect]; [|by apply refused_follows].
  case_bool_decide as Ht; cbn [negb]; [|apply wp_ret; left; cbn [effect]; by rewrite bool_decide_false].
  apply (wp_respects _ _ (Ok tt)); [apply respects_poll|done| |intros w v Hr _ _; right; cbn [world]; rewrite Hr; split; [apply failure_not_ok|done]].
  intros w Hr Ha _ [] _. destruct (_ <? _); [by apply refused_follows|].
  apply wp_lift_bind; [|intros _; right; split; [apply failure_not_ok|done]]. intros [beef txid] Eb.
  apply wp_lift_bind; [|intros _; right; split; [apply failure_not_ok|done]]. intros tx Etx.
  destruct (_ || _); [by apply refused_follows|].
  apply wp_lift_bind; [|intros _; right; split; [apply failure_not_ok|done]]. intros script Es.
  apply (wp_respects _ _ _ _ _ _ (ProjectOutput_respects _ _ _)); [done| |].
  - intros w' Hr' Ha' _ record Erec. apply wp_observe. intros r w2 Eu. destruct (Upsert_law _ _ _ _ Eu) as [Hu _]. cbn [world] in *.
    unfold follows. cbn [world effect]. rewrite bool_decide_true by done. assert (recordOf p = Ok record) as Erecord by (unfold recordOf; rewrite Eb; cbn; rewrite Etx; cbn; by rewrite Es).
    rewrite Erecord, <- Hr, <- Hr'. naive_solver.
  - intros w' v Hr' _ _. right. cbn [world] in *. split; [apply failure_not_ok|congruence].
Qed.

Lemma OutputEvicted_follows outpoint st :
  absent (context (world st)) = false -> wp true (OutputEvicted outpoint) st (follows (effect (NotifyEvicted outpoint)) st).
Proof.
  intros Hc. destruct outpoint as [o|]; cbn [OutputEvicted effect]; [|by apply refused_follows].
  apply (wp_respects _ _ (Ok tt)); [apply respects_poll|done| |intros w v Hr _ _; right; cbn [world]; split; [apply failure_not_ok|done]].
  intros w Hr Ha _ [] _. apply wp_observe. intros r w2 Ed. destruct (Delete_law _ _ _ _ Ed) as [Hd _]. cbn [world] in *.
  unfold follows. cbn [world]. rewrite <- Hr. naive_solver.
Qed.

Lemma poll_follows st : absent (context (world st)) = false -> wp true (polled poll) st (follows id st).
Proof. intros Hc. apply wp_under_context. intros r c _. left. apply records_context. Qed.

Lemma notify_follows n st : absent (context (world st)) = false -> wp true (notify n) st (follows (effect n) st).
Proof.
  intros Hc. destruct n as [p|p|o| |]; cbn [notify].
  - by apply OutputAdmitted_follows.
  - destruct p as [p|]; cbn [OutputSpent effect]; [|by apply refused_follows]. case_bool_decide; cbn [negb]; [|apply wp_ret; left; cbn [effect]; by rewrite bool_decide_false].
    eapply wp_mono; [by apply OutputEvicted_follows|]. intros r st'. unfold follows. cbn [effect]. rewrite bool_decide_true by done. by destruct (spentOutpoint p).
  - by apply OutputEvicted_follows.
  - by apply poll_follows.
  - by apply poll_follows.
Qed.

(** What is in the index after notifications, if those marked have taken effect. *)
Fixpoint applied (ns : list (Ctx * notification)) (taken : list bool) (index : gmap Outpoint IdentityRecord) : gmap Outpoint IdentityRecord :=
  match ns, taken with
  | (_, n) :: ns', b :: taken' => applied ns' taken' (if b then effect n index else index)
  | _, _ => index
  end.

Lemma applied_ok ns taken index : index_ok index -> index_ok (applied ns taken index).
Proof.
  revert taken index. induction ns as [|[c n] ns IH]; intros taken index Hok; destruct taken as [|b taken]; cbn [applied]; try done.
  apply IH. destruct b; [by apply effect_ok|done].
Qed.

Lemma deliver_applied ns st r st' :
  Forall (fun cn => absent cn.1 = false) ns -> deliver ns st = Some (r, st') ->
  exists taken, records (world st') = applied ns taken (records (world st)).
Proof.
  intros Hns. revert st r. induction Hns as [|[c n] ns Hc _ IH]; intros st r; cbn [deliver]; [intros [= <- <-]; by exists []|].
  cbn [fst] in Hc. pose proof (notify_follows n (mkSt (withContext c (world st)) (trace st))) as Hn. cbn [world] in Hn. rewrite context_context in Hn.
  specialize (Hn Hc). unfold wp in Hn. destruct (notify n _) as [[v st1]|]; [|done]. unfold follows in Hn. cbn [world] in Hn. rewrite records_context in Hn.
  assert (exists b, records (world st1) = (if b : bool then effect n (records (world st)) else records (world st))) as (b & Hb).
  { destruct Hn as [Hn|[Hr Hn]]; [by exists true|by exists false]. }
  intros E. assert (st' = st1 \/ exists r', deliver ns st1 = Some (r', st')) as [->|[r' E']].
  { unfold mbind, run_bind in E. destruct v as [a|e|]; [| |left; congruence]; (destruct (deliver ns st1) as [[[rs|e'|] st2]|]; [| | |done]);
      right; eexists; injection E as _ <-; reflexivity. }
  - exists [b]. cbn [applied]. rewrite Hb. by destruct ns as [|[??]].
  - destruct (IH _ _ E') as [taken Ht]. exists (b :: taken). cbn [applied]. by rewrite Ht, Hb.
Qed.

(** The index only ever holds verified records.  If every record of the index
    stands under its own outpoint and is the projection of a script there, this is so
    after any notifications under any contexts, acknowledged or not, even if the
    process ends in a panic. *)
Theorem index_stays_verified ns st r st' :
  Forall (fun cn => absent cn.1 = false) ns -> index_ok (records (world st)) ->
  deliver ns st = Some (r, st') -> index_ok (records (world st')).
Proof. intros Hns Hok E. destruct (deliver_applied _ _ _ _ Hns E) as [taken ->]. by apply applied_ok. Qed.

(** C27.  The index refines the notifications.  Whatever contexts the notifications come
    under, delivering them ends; every notification either takes its whole effect on the
    index or none, in their order; those that were acknowledged have taken effect, so if
    all are acknowledged then the index is the one they describe.  In particular a
    notification that failed may be delivered again. *)
Theorem index_follows_notifications ns st :
  Forall (fun cn => absent cn.1 = false) ns ->
  exists r st', deliver ns st = Some (r, st') /\
  match r with
  | Ok rs => exists taken, length taken = length ns /\ Forall2 (fun r b => r = Ok tt -> b = true) rs taken /\
      records (world st') = applied ns taken (records (world st)) /\
      (Forall (fun r => r = Ok tt) rs -> records (world st') = foldl (fun index cn => effect cn.2 index) (records (world st)) ns)
  | Err _ => False
  | Panic => exists taken, (length taken <= length ns)%nat /\ records (world st') = applied ns taken (records (world st))
  end.
Proof.
  intros Hns. revert st. induction Hns as [|[c n] ns Hc _ IH]; intros st; cbn [deliver].
  { exists (Ok []), st. split; [done|]. exists []. by split_and!. }
  cbn [fst] in Hc. pose proof (notify_follows n (mkSt (withContext c (world st)) (trace st))) as Hn. cbn [world] in Hn. rewrite context_context in Hn.
  specialize (Hn Hc). unfold wp in Hn. destruct (notify n _) as [[r st1]|]; [|done]. unfold follows in Hn. cbn [world] in Hn. rewrite records_context in Hn.
  assert (exists b, records (world st1) = (if b : bool then effect n (records (world st)) else records (world st)) /\ (r = Ok tt -> b = true)) as (b & Hb & Hok).
  { destruct Hn as [Hn|[Hr Hn]]; [by exists true|by exists false]. }
  destruct (IH st1) as (rs & st' & Ed & Hd). unfold mbind, run_bind. rewrite Ed. destruct r as [[]|e|].
  - destruct rs as [rs|e|]; [|done|].
    + destruct Hd as (taken & Hl & Hall & Hrec & Hfold). exists (Ok (Ok tt :: rs)), st'. split; [done|]. exists (b :: taken). cbn [length applied foldl snd].
      rewrite <- Hb. split_and!; [by rewrite Hl|by constructor|done|]. intros [_ Hrs]%Forall_cons. rewrite (Hfold Hrs), Hb, Hok by done. done.
    + destruct Hd as (taken & Hl & Hrec). exists Panic, st'. split; [done|]. exists (b :: taken). cbn [length applied]. rewrite <- Hb. split; [lia|done].
  - destruct rs as [rs|e'|]; [|done|].
    + destruct Hd as (taken & Hl & Hall & Hrec & Hfold). exists (Ok (Err e :: rs)), st'. split; [done|]. exists (b :: taken). cbn [length applied].
      rewrite <- Hb. split_and!; [by rewrite Hl|by constructor|done|]. by intros [? _]%Forall_cons.
    + destruct Hd as (taken & Hl & Hrec). exists Panic, st'. split; [done|]. exists (b :: taken). cbn [length applied]. rewrite <- Hb. split; [lia|done].
  - exists Panic, st1. split; [done|]. exists [b]. cbn [length applied]. split; [lia|]. rewrite Hb. by destruct ns as [|[??]].
Qed.


(** ** The manager and the index *)

Lemma admitted_index policy beef txid instr i tx :
  admission policy beef txid = Ok instr -> selectedTransaction beef txid policy = Ok tx -> 0 <= i ->
  (i ∈ EngineTypes.elements (OutputsToAdmit instr) <->
   Inputs tx <> [] /\ exists o record, Outputs tx !! Z.to_nat i = Some (Some o) /\
     project (mkOutpoint (default zero_hash txid) i) (LockingScript o) policy = Ok record).
Proof.
  intros Ha Et Hi. pose proof (selectedTransaction_Ok _ _ _ _ Et) as (-> & _ & _ & Hlen & Hall). unfold admission in Ha. rewrite Et in Ha. cbn [mbind result_bind] in Ha.
  case_bool_decide as Hin; cbn [orb] in Ha; [injection Ha as <-; cbn; rewrite elem_of_nil; naive_solver|].
  case_bool_decide as Hout; cbn [orb] in Ha.
  { injection Ha as <-. cbn. rewrite elem_of_nil, Hout. split; [done|]. intros (_ & o & rec & Ho & _). by rewrite lookup_nil in Ho. }
  apply bind_Ok in Ha as (l & El & Ha). injection Ha as <-. cbn [default from_option id] in El.
  pose proof (admittedFrom_spec (TxID tx) policy (Outputs tx) 0 [] Hall ltac:(lia) ltac:(lia)) as Hspec. rewrite El in Hspec. destruct Hspec as (new & -> & _ & Hnew).
  cbn [OutputsToAdmit EngineTypes.elements default from_option id app]. rewrite Hnew. unfold admissible. rewrite Z.sub_0_r. split.
  - intros (_ & o & Ho & Hok). split; [done|]. destruct (project _ _ _) as [record|e|] eqn:E; [|done..]. by exists o, record.
  - intros (_ & o & record & Ho & E). split; [done|]. exists o. cbn in E. by rewrite E.
Qed.

(** What the manager admits is what gets indexed.  For the notification of an output
    of this topic under a live context, within the budget of notifications: if the
    manager, asked about the same BEEF, admits the output then the notification makes
    exactly one call of the projection, the upsert of the output's record, and has its
    outcome; otherwise the notification is refused, with no call.  So the engine, which
    only announces outputs that were admitted, never has a notification refused. *)
Theorem admitted_outputs_are_indexed payload beef txid instr st :
  context (world st) = background -> admTopic payload = Topic -> 0 <= OutputIndex payload ->
  len (AtomicBEEF payload) <= MaxNotificationBytes (admissionPolicy s) ->
  NewBeefFromAtomicBytes (AtomicBEEF payload) = Ok (beef, txid) -> admission (admissionPolicy s) beef txid = Ok instr ->
  exists r st', OutputAdmittedByTopic (Some payload) st = Some (r, st') /\
    if bool_decide (OutputIndex payload ∈ EngineTypes.elements (OutputsToAdmit instr))
    then exists record, trace st' = trace st ++ [UpsertCall record r] /\
           recOutpoint record = mkOutpoint (default zero_hash txid) (OutputIndex payload) /\ recordOf payload = Ok record
    else is_ok r = false /\ trace st' = trace st.
Proof using Type*.
  intros Hc Ht Hi Hb Hp Ha. apply wp_returns.
  assert (Hlive : live (context (world st))) by (by rewrite Hc). assert (Habs : absent (context (world st)) = false) by (by rewrite Hc).
  destruct (selectedTransaction beef txid (admissionPolicy s)) as [tx|e|] eqn:Et; [|by unfold admission in Ha; rewrite Et in Ha..].
  pose proof (admitted_index _ _ _ _ (OutputIndex payload) _ Ha Et Hi) as Hidx. pose proof (selectedTransaction_Ok _ _ _ _ Et) as (_ & _ & _ & _ & Hall).
  assert (Hparse : parseNotificationBEEF (AtomicBEEF payload) = Ok (beef, txid)) by (unfold parseNotificationBEEF; by rewrite Hp).
  cbn [OutputAdmittedByTopic]. rewrite bool_decide_true by done. cbn [negb].
  apply (wp_respects _ _ (Ok tt)); [apply respects_poll|done| |intros w v _ Hv Hno; by rewrite (Hv Hlive) in Hno].
  intros w Hr Habs' Hctx [] _. destruct (Z.ltb_spec (MaxNotificationBytes (admissionPolicy s)) (len (AtomicBEEF payload))); [lia|].
  rewrite Hparse. apply wp_bind, wp_lift. rewrite Et. apply wp_bind, wp_lift.
  destruct (Outputs tx !! Z.to_nat (OutputIndex payload)) as [o|] eqn:Eo.
  2: { destruct (Z.leb_spec (len (Outputs tx)) (OutputIndex payload)) as [|Hlt]; [|apply lookup_ge_None in Eo; unfold len in Hlt; lia]. cbn [orb]. apply wp_lift.
       rewrite bool_decide_false; [done|]. rewrite Hidx. naive_solver. }
  destruct (Z.leb_spec (len (Outputs tx)) (OutputIndex payload)) as [Hge|_]; [apply lookup_lt_Some in Eo; unfold len in Hge; lia|]. cbn [orb].
  case_bool_decide as Hin; [apply wp_lift; rewrite bool_decide_false; [done|]; rewrite Hidx; naive_solver|].
  pose proof (proj1 (Forall_lookup _ _) Hall _ _ Eo) as Hs. destruct o as [o|]; [|by destruct Hs]. cbn [default from_option id scriptOf]. apply wp_bind, wp_lift.
  assert (Hrec : recordOf payload = project (mkOutpoint (default zero_hash txid) (OutputIndex payload)) (LockingScript o) (admissionPolicy s)).
  { unfold recordOf. rewrite Hparse. cbn [mbind result_bind]. rewrite Et. cbn [mbind result_bind]. rewrite Eo. done. }
  apply (wp_respects _ _ _ _ _ _ (ProjectOutput_respects _ _ _)); [done| |].
  - intros w' _ _ _ record Erec. apply wp_observe. intros r w2 _. cbn [trace]. rewrite bool_decide_true by (rewrite Hidx; naive_solver).
    exists record. split_and!; [done|by eapply project_outpoint|by rewrite Hrec].
  - intros w' v _ Hv Hno. cbn [world] in *. rewrite (Hctx Hlive) in Hv. rewrite (Hv Hlive) in *. rewrite bool_decide_false; [split; [|done]|].
    + by destruct (project _ _ _).
    + rewrite Hidx. intros (_ & o' & record & [= <-] & E). by rewrite E in Hno.
Qed.

(** ** Answers *)

Lemma wp_poll {B} t (k : unit -> Run B) st (Q : result B -> St -> Prop) :
  absent (context (world st)) = false ->
  (forall w, records w = records (world st) -> absent (context w) = false -> wp t (k tt) (mkSt w (trace st)) Q) ->
  (forall w cause, records w = records (world st) -> Q (Err (ErrContext cause)) (mkSt w (trace st))) ->
  wp t (polled poll ≫= k) st Q.
Proof.
  intros Hc Hk Hq. apply wp_bind, wp_under_context. intros r c E. destruct (respects_poll _ Hc) as (Ha & _).
  assert (r = Ok tt \/ exists cause, r = Err (ErrContext cause)) as Hr.
  { revert E. unfold poll. rewrite Hc. destruct (left (context (world st))) as [[|n]|]; intros [= <- _]; eauto. }
  rewrite E in Ha. destruct Hr as [->|[cause ->]]; [|apply Hq, records_context].
  apply Hk; [apply records_context|by rewrite context_context].
Qed.

(** What becomes of what the projection found. *)
Definition outcome (query : Query) (found : result (list Outpoint)) (r : result (LookupAnswer Beef)) : Prop :=
  match found with
  | Err e => r = Err e
  | Panic => r = Panic
  | Ok l =>
      (exists cause, r = Err (ErrContext cause)) \/
      (r = Err ErrQueryBudget /\ Unbounded (pagination query) = true /\ MaxResults (queryPolicy s) < len l) \/
      (r = Err ErrProjectionContract /\ Limit (pagination query) < len l) \/
      (r = Ok (mkAnswer AnswerTypeFormula [] (map (fun o => mkFormula o None) l) []) /\ len l <= MaxResults (queryPolicy s) /\ len l <= Limit (pagination query))
  end.

(** An answer is complete, within the budget, and changes nothing.  Under any
    context a lookup ends and leaves the index alone.  Either it makes no call: the
    context was cancelled, the question is not one for this service or cannot be
    compiled, or the query cannot match and has no outpoints; or it makes one call, the
    search for the compiled query, and answers with all that was found, in its order,
    which is at most what the policy and the query allow.  A larger result is an error
    (of an unbounded query's budget, else of the projection), never a part of it. *)
Theorem lookup_never_truncates question st :
  absent (context (world st)) = false ->
  exists r st', Lookup question st = Some (r, st') /\ records (world st') = records (world st) /\
  let none := trace st' = trace st in
  let compiled query := exists q, question = Some q /\ qService q = Service /\ CompileQuery (qQuery q) (queryPolicy s) = Ok query in
  (none /\ exists cause, r = Err (ErrContext cause)) \/
  (none /\ (r = Err ErrInvalidQuery \/ r = Err ErrInvalidQueryPolicy) /\ forall query, ~ compiled query) \/
  (none /\ r = Ok (mkAnswer AnswerTypeFormula [] [] []) /\ exists query, compiled query /\ Empty query = true) \/
  exists query found, trace st' = trace st ++ [FindCall query found] /\ compiled query /\ Empty query = false /\ outcome query found r.
Proof using Type*.
  intros Hc. apply wp_returns. unfold Lookup. apply wp_poll; [done| |by eauto 10].
  intros w Hr Ha. destruct question as [q|]; [|apply wp_lift; split; [done|]; right; left; split_and!; [done|by left|by intros query (q & ? & _)]].
  case_bool_decide as Hs; cbn [negb].
  2: { apply wp_lift. split; [done|]. right; left. split_and!; [done|by left|]. by intros query (q' & [= <-] & ? & _). }
  pose proof (CompileQuery_safe (qQuery q) (queryPolicy s)) as Hq. apply wp_bind, wp_lift.
  destruct (CompileQuery (qQuery q) (queryPolicy s)) as [query|e|] eqn:Eq; [| |done].
  2: { split; [done|]. right; left. split_and!; [done|destruct Hq as [->|[-> _]]; auto|]. intros query (q' & [= <-] & _ & E). congruence. }
  assert (Hcomp : exists q0, Some q = Some q0 /\ qService q0 = Service /\ CompileQuery (qQuery q0) (queryPolicy s) = Ok query) by (by exists q).
  destruct (Empty query) eqn:Eempty; [apply wp_ret; split; [done|]; right; right; left; eauto|].
  destruct Hq as (_ & Hpage & _). apply wp_bind, wp_observe. intros found w2 Ef. destruct (Find_law _ _ _ _ Ef) as [Hf Hfa]. cbn [world] in *.
  destruct found as [l|e|]; [|split; [cbn; congruence|]; right; right; right; by exists query, (Err e)|split; [cbn; congruence|]; right; right; right; by exists query, Panic].
  destruct Hpage as (Hres & _ & Hlim). apply wp_poll; cbn [world trace]; [congruence| |].
  2: { intros w3 cause Hw3. split; [cbn; congruence|]. right; right; right. exists query, (Ok l). split_and!; [done..|]. left. by exists cause. }
  intros w3 Hw3 _. rewrite Hres. pose proof (len_nonneg l).
  enough (Hend : exists r, (if Unbounded (pagination query) && (MaxResults (queryPolicy s) <? len l) then lift (Err ErrQueryBudget)
     else if Limit (pagination query) <? len l then lift (Err ErrProjectionContract)
     else mret (mkAnswer AnswerTypeFormula [] (map (fun outpoint => mkFormula outpoint None) l) []) : Run (LookupAnswer Beef)) = lift r /\ outcome query (Ok l) r).
  { destruct Hend as (r & -> & Ho). apply wp_lift. split; [cbn; congruence|]. right; right; right. by exists query, (Ok l). }
  destruct (Unbounded (pagination query)) eqn:Eu, (Z.ltb_spec (MaxResults (queryPolicy s)) (len l)), (Z.ltb_spec (Limit (pagination query)) (len l)); cbn [andb];
    eexists; (split; [reflexivity|]); unfold outcome; cbn iota in Hlim; try lia;
    first [right; left; by split_and!|right; right; left; by split_and!|right; right; right; split_and!; (done || lia)].
Qed.
End Service.

(** ** An instance: an index that knows serial numbers; one BEEF can be parsed, another
    one makes the parser panic *)

Module Example.

#[local] Existing Instance IdentityOutput.Example.sdk.
#[local] Existing Instance IdentityOutput.Example.laws.

Record world := mkWorld { index : gmap Outpoint IdentityRecord; ctx : Ctx }.

#[local] Instance projection : Projection world := {
  Upsert record w := (Ok tt, mkWorld (<[recOutpoint record := record]> (index w)) (ctx w));
  Delete o w := (Ok tt, mkWorld (delete o (index w)) (ctx w));
  Find query w := (Ok (map fst (filter (fun p => Serial (recCertificate p.2) = SerialNumber query) (map_to_list (index w)))), w);
  context := ctx;
  withContext c w := mkWorld (index w) c }.

#[local] Instance projection_laws : ProjectionLaws world.
Proof.
  refine {| records := index |}; try done.
  - intros record w r w' [= <- <-]. split; [by left|done].
  - intros o w r w' [= <- <-]. split; [by left|done].
  - intros q w r w' [= <- <-]. done.
Defined.

#[local] Instance parser : AtomicParser := {
  NewBeefFromAtomicBytes raw := if bool_decide (raw = [Byte.x01]) then Ok (Some IdentityOutput.Example.beef, Some zero_hash) else Panic }.

Definition service : LookupService := mkLookupService DefaultAdmissionPolicy (mkQueryPolicy 1 10).

Definition st0 : Traced.St world event := mkSt (mkWorld ∅ background) [].

Definition payload (i : Z) : AdmittedOutput := mkAdmittedOutput Topic i [Byte.x01].

Definition at_index (i : Z) : Outpoint := mkOutpoint zero_hash i.

(** Two admissions, one that is refused, one with a malformed BEEF, one under a cancelled
    context, and an eviction. *)
Definition notifications : list (Ctx * notification) :=
  [(background, NotifyAdmitted (Some (payload 0))); (background, NotifyAdmitted (Some (payload 1)));
   (background, NotifyAdmitted (Some (payload 2))); (background, NotifyAdmitted (Some (mkAdmittedOutput Topic 0 [])));
   (mkCtx false (Some O) Canceled, NotifySpent (Some (mkSpentOutput Topic (Some (at_index 2)))));
   (background, NotifyEvicted (Some (at_index 0)))].

Definition question : Question :=
  mkQuestion Service (Json.render (Json.JObject [(str "serialNumber", Json.JString IdentityOutput.Example.encoded)])).

(** The outcomes and the outpoints of the index. *)
Definition delivery (ns : list (Ctx * notification)) : option (result (list (result unit)) * list Outpoint) :=
  (fun p => (p.1, map fst (map_to_list (index (Traced.world p.2))))) <$> deliver service ns st0.

Example delivered : delivery notifications =
  Some (Ok [Ok tt; Err ErrInvalidOutput; Ok tt; Err ErrInvalidNotification; Err (ErrContext Canceled); Ok tt], [at_index 2]).
Proof. vm_compute. reflexivity. Qed.

Lemma index_follows_notifications_witness :
  exists r st', deliver service notifications st0 = Some (r, st') /\
  match r with
  | Ok rs => exists taken, length taken = length notifications /\ Forall2 (fun r b => r = Ok tt -> b = true) rs taken /\
      records (Traced.world st') = applied service notifications taken (records (Traced.world st0)) /\
      (Forall (fun r => r = Ok tt) rs -> records (Traced.world st') = foldl (fun index cn => effect service cn.2 index) (records (Traced.world st0)) notifications)
  | Err _ => False
  | Panic => exists taken, (length taken <= length notifications)%nat /\ records (Traced.world st') = applied service notifications taken (records (Traced.world st0))
  end.
Proof. apply (index_follows_notifications service notifications st0). repeat constructor. Defined.

Definition after (ns : list (Ctx * notification)) : Traced.St world event := match deliver service ns st0 with Some (_, st) => st | None => st0 end.

Lemma index_stays_verified_witness : index_ok service (records (Traced.world (after notifications))).
Proof.
  unfold after. assert (E : bool_decide (is_Some (deliver service notifications st0)) = true) by (vm_compute; reflexivity). revert E.
  pose proof (index_stays_verified service notifications st0) as H.
  destruct (deliver service notifications st0) as [[r st']|]; [|discriminate]. intros _. apply (H r st').
  - repeat constructor.
  - intros o record Hl. change ((∅ : gmap Outpoint IdentityRecord) !! o = Some record) in Hl. by rewrite lookup_empty in Hl.
  - reflexivity.
Defined.

Lemma admitted_outputs_are_indexed_witness :
  exists r st', OutputAdmittedByTopic service (Some (payload 2)) st0 = Some (r, st') /\
    if bool_decide (2 ∈ EngineTypes.elements (Some [0; 2]))
    then exists record, trace st' = trace st0 ++ [UpsertCall record r] /\
           recOutpoint record = mkOutpoint zero_hash 2 /\ recordOf service (payload 2) = Ok record
    else is_ok r = false /\ trace st' = trace st0.
Proof.
  apply (admitted_outputs_are_indexed service (payload 2) (Some IdentityOutput.Example.beef) (Some zero_hash) (mkAdmit (Some [0; 2]) (Some []) [] []) st0).
  - reflexivity.
  - reflexivity.
  - cbn. lia.
  - vm_compute. discriminate.
  - reflexivity.
  - vm_compute. reflexivity.
Defined.

(** Before the eviction there are two certificates of the number, one more than the
    policy allows. *)
Lemma lookup_never_truncates_witness :
  fst <$> Lookup (Beef := unit) service (Some question) (after (take 3 notifications)) = Some (Err ErrQueryBudget) /\
  exists r st', Lookup (Beef := unit) service (Some question) (after notifications) = Some (r, st') /\
    records (Traced.world st') = records (Traced.world (after notifications)) /\
    r = Ok (mkAnswer AnswerTypeFormula [] [mkFormula (at_index 2) None] []).
Proof.
  split; [vm_compute; reflexivity|].
  destruct (lookup_never_truncates (Beef := unit) service (Some question) (after notifications)) as (r & st' & E & Hr & _); [vm_compute; reflexivity|].
  exists r, st'. split; [exact E|]. split; [exact Hr|]. apply (f_equal (fmap fst)) in E. cbn [fmap option_fmap option_map fst] in E.
  enough (Some r = Some (Ok (mkAnswer AnswerTypeFormula [] [mkFormula (at_index 2) None] []))) as [= ->] by done. rewrite <- E. vm_compute. reflexivity.
Defined.

End Example.

End IdentityLookup.
