(* ===== verification/Advertise.v ===== *)
(** * pkg/core/engine/engine.go: construction, registration, advertisements

    [NewEngine] and its merging of trackers into the peers, the registries of topic
    managers and lookup services, and [SyncAdvertisements], which brings the SHIP and
    SLAP advertisements of the host in line with what it has registered. *)

From S2P Require Import Prelude Bytes Runs Traced GaspTypes EngineTypes AdmissionPlan EngineModel Submit.
Import Gasp.
Open Scope Z_scope.

(** [advertiser.Advertisement], the fields the engine reads, and
    [advertiser.AdvertisementData]. *)
Record Advertisement := mkAd { adProtocol : list byte; Domain : list byte; TopicOrService : list byte }.
Record AdvertisementData := mkAdData { dataProtocol : list byte; TopicOrServiceName : list byte }.

(** [overlay.TaggedBEEF] *)
Record TaggedBEEF := mkTagged { tagBeef : list byte; tagTopics : list (list byte); tagOffChain : list byte }.

#[global] Instance Advertisement_eq_dec : EqDecision Advertisement.
Proof. solve_decision. Defined.

(** [advertiser.Advertiser] *)
Class Advertisers (W : Type) := {
  CreateAdvertisements : list AdvertisementData -> Op W TaggedBEEF;
  FindAllAdvertisements : list byte -> Op W (list Advertisement);
  RevokeAdvertisements : list Advertisement -> Op W TaggedBEEF;
  ParseAdvertisement : list byte -> result (option Advertisement) }.

Inductive SyncConfigurationType := SyncConfigurationPeers | SyncConfigurationSHIP | SyncConfigurationNone.

#[global] Instance SyncConfigurationType_eq_dec : EqDecision SyncConfigurationType.
Proof. solve_decision. Defined.

Record SyncConfiguration := mkSync {
  syncType : SyncConfigurationType; Peers : list (list byte); Concurrency : Z }.

(** The zero value, which Go returns for a key that is not in the map. *)
Definition zeroSync : SyncConfiguration := mkSync SyncConfigurationPeers [] 0.

Module Advertise.

(** ** Registries *)

Section Registries.
Context (e : EngineConfig).

Definition withManagers (m : gmap (list byte) unit) : EngineConfig :=
  mkConfig m (lookupServices e) (HostingURL e) (hasBroadcaster e) (hasAdvertiser e) (hasOnAdmission e) (hasAdmission e).
Definition withServices (m : gmap (list byte) unit) : EngineConfig :=
  mkConfig (managers e) m (HostingURL e) (hasBroadcaster e) (hasAdvertiser e) (hasOnAdmission e) (hasAdmission e).

Definition RegisterTopicManager (name : list byte) : EngineConfig := withManagers (<[name := tt]> (managers e)).
Definition UnregisterTopicManager (name : list byte) : EngineConfig := withManagers (delete name (managers e)).
Definition HasTopicManager (name : list byte) : bool := bool_decide (is_Some (managers e !! name)).
Definition RegisterLookupService (name : list byte) : EngineConfig := withServices (<[name := tt]> (lookupServices e)).
Definition UnregisterLookupService (name : list byte) : EngineConfig := withServices (delete name (lookupServices e)).
Definition HasLookupService (name : list byte) : bool := bool_decide (is_Some (lookupServices e !! name)).
End Registries.

Section Advertise.
Context {W Beef : Type} `{TransactionSDK Beef} `{EngineStorage W Beef} `{TopicManagers W Beef}
  `{LookupServices W} `{Network W} `{MapRange W} `{Advertisers W} `{AdmissionHost W}.

(** ** Construction *)

(** The fields of [Config] that [NewEngine] works on; a manager may be nil, which is
    [false]. *)
Record Config := mkCfg {
  cfgManagers : gmap (list byte) bool; SHIPTrackers : list (list byte); SLAPTrackers : list (list byte);
  cfgSync : gmap (list byte) SyncConfiguration }.

(** [mergePeers]: the keys of a map, in the order of its enumeration. *)
Definition mergePeers (trackers existing : list (list byte)) (w : W) : list (list byte) :=
  let combined : gmap (list byte) unit := foldl (fun m peer => <[peer := tt]> m) ∅ (trackers ++ existing) in
  (range combined w).*1.

(** The body of the loop of [NewEngine] over the managers. *)
Definition configureSync (cfg : Config) (w : W) (sync : gmap (list byte) SyncConfiguration)
    (nm : list byte * bool) : gmap (list byte) SyncConfiguration :=
  let '(name, manager) := nm in
  let config := default zeroSync (sync !! name) in
  if negb manager || negb (bool_decide (syncType config = SyncConfigurationPeers)) then sync
  else if bool_decide (name = str "tm_ship") && negb (bool_decide (SHIPTrackers cfg = [])) then
    <[name := mkSync (syncType config) (mergePeers (SHIPTrackers cfg) (Peers config) w) (Concurrency config)]> sync
  else if bool_decide (name = str "tm_slap") && negb (bool_decide (SLAPTrackers cfg = [])) then
    <[name := mkSync (syncType config) (mergePeers (SLAPTrackers cfg) (Peers config) w) (Concurrency config)]> sync
  else sync.

(** The synchronisation that [NewEngine] configures. *)
Definition NewEngine (cfg : Config) (w : W) : gmap (list byte) SyncConfiguration :=
  foldl (configureSync cfg w) (cfgSync cfg) (range (cfgManagers cfg) w).

(** ** Advertisements *)

Inductive event :=
  | FindAdsCall (protocol : list byte) (r : result (list Advertisement))
  | CreateCall (data : list AdvertisementData)
  | RevokeCall (ads : list Advertisement)
  | SubmitCall (topics : list (list byte)) (beef : list byte).

Local Abbreviation St := (Traced.St W event).
Local Abbreviation Run := (Runs.Run St).

Context (e : EngineConfig).

Definition advertised (current : list Advertisement) (name : list byte) : bool :=
  existsb (fun ad => bool_decide (TopicOrService ad = name) && bool_decide (Domain ad = HostingURL e)) current.

(** The loops that compute what to create and what to revoke. *)
Definition toCreate (required : list (list byte)) (current : list Advertisement) : list (list byte) :=
  filter (fun name => advertised current name = false) required.

Definition toRevoke (required : gmap (list byte) unit) (current : list Advertisement) : list Advertisement :=
  filter (fun ad => required !! TopicOrService ad = None) current.

(** [Engine.Submit] of a tagged BEEF, in the mode for current transactions. *)
Definition engineSubmit (fuel : nat) (t : TaggedBEEF) : Run unit := fun s =>
  match Submit.Submit e fuel (tagTopics t) (tagBeef t) (tagOffChain t) SubmitModeCurrent false (mkSt (world s) []) with
  | Some (r, s') => Some ((fun _ => tt) <$> r, mkSt (world s') (trace s ++ [SubmitCall (tagTopics t) (tagBeef t)]))
  | None => None
  end.

(** Creating or revoking, then submitting; the errors of both are logged. *)
Definition publish (fuel : nat) (op : Op W TaggedBEEF) (ev : event) : Run unit :=
  dropError (invoke op ev ≫= engineSubmit fuel).

Definition SyncAdvertisements (fuel : nat) : Run unit :=
  if negb (hasAdvertiser e) then mret tt else
  requiredSHIP ← rangeMap (managers e);
  requiredSLAP ← rangeMap (lookupServices e);
  currentSHIP ← observe (FindAllAdvertisements (str "SHIP")) (FindAdsCall (str "SHIP"));
  let shipsToCreate := toCreate requiredSHIP.*1 currentSHIP in
  let shipsToRevoke := toRevoke (managers e) currentSHIP in
  currentSLAP ← observe (FindAllAdvertisements (str "SLAP")) (FindAdsCall (str "SLAP"));
  let slapsToCreate := toCreate requiredSLAP.*1 currentSLAP in
  let slapsToRevoke := toRevoke (lookupServices e) currentSLAP in
  let advertisementData :=
    map (mkAdData (str "SHIP")) shipsToCreate ++ map (mkAdData (str "SLAP")) slapsToCreate in
  (if bool_decide (advertisementData = []) then mret tt
   else publish fuel (CreateAdvertisements advertisementData) (CreateCall advertisementData)) ≫= fun _ =>
  let revokeData := shipsToRevoke ++ slapsToRevoke in
  (if bool_decide (revokeData = []) then mret tt
   else publish fuel (RevokeAdvertisements revokeData) (RevokeCall revokeData)).

(** ** What [NewEngine] configures *)

Lemma mergePeers_spec trackers existing w :
  NoDup (mergePeers trackers existing w) /\
  forall p, p ∈ mergePeers trackers existing w <-> p ∈ trackers \/ p ∈ existing.
Proof.
  unfold mergePeers. set (m := foldl _ _ _).
  assert (Hm : forall p, is_Some (m !! p) <-> p ∈ trackers ++ existing).
  { intros p. subst m. induction (trackers ++ existing) as [|x l IH] using rev_ind; simpl.
    - rewrite lookup_empty. split; [by intros [? ?]|intros Hp; by apply not_elem_of_nil in Hp].
    - rewrite foldl_app, elem_of_app, <- IH, list_elem_of_singleton. simpl. rewrite lookup_insert_is_Some'. naive_solver. }
  split; [rewrite range_perm; apply NoDup_fst_map_to_list|]. intros p. rewrite <- elem_of_app, <- Hm, list_elem_of_fmap. split.
  - intros ([q x] & -> & Hq). rewrite range_perm in Hq. apply elem_of_map_to_list in Hq. eauto.
  - intros [x Hx]. exists (p, x). split; [done|]. rewrite range_perm. by apply elem_of_map_to_list.
Qed.

Definition trackersOf (cfg : Config) (name : list byte) : list (list byte) :=
  if bool_decide (name = str "tm_ship") then SHIPTrackers cfg
  else if bool_decide (name = str "tm_slap") then SLAPTrackers cfg else [].

(** The synchronisation of a new engine.  The topics of the SHIP and SLAP managers,
    when their manager is there, they synchronise with fixed peers (the default) and
    there are trackers, get the union of the trackers and the configured peers without
    duplicates; every other topic keeps its configuration, or has none. *)
Theorem NewEngine_spec cfg w name :
  let config := default zeroSync (cfgSync cfg !! name) in
  if bool_decide (cfgManagers cfg !! name = Some true) && bool_decide (syncType config = SyncConfigurationPeers) &&
     negb (bool_decide (trackersOf cfg name = []))
  then exists peers, NewEngine cfg w !! name = Some (mkSync (syncType config) peers (Concurrency config)) /\
         NoDup peers /\ forall p, p ∈ peers <-> p ∈ trackersOf cfg name \/ p ∈ Peers config
  else NewEngine cfg w !! name = cfgSync cfg !! name.
Proof.
  intros config.
  set (f := fun (name : list byte) (manager : bool) (entry : option SyncConfiguration) =>
    let config := default zeroSync entry in
    if manager && bool_decide (syncType config = SyncConfigurationPeers) && negb (bool_decide (trackersOf cfg name = []))
    then Some (mkSync (syncType config) (mergePeers (trackersOf cfg name) (Peers config) w) (Concurrency config))
    else entry).
  assert (Hstep : forall sync nm, configureSync cfg w sync nm = partial_alter (f nm.1 nm.2) nm.1 sync).
  { assert (Hss : str "tm_ship" <> str "tm_slap") by (by vm_compute).
    intros sync [n m]. apply map_eq. intros k. cbn [fst snd]. unfold configureSync, f, trackersOf.
    destruct (decide (k = n)) as [->|Hk];
      [rewrite lookup_partial_alter_eq|rewrite lookup_partial_alter_ne by done];
      destruct m; simpl; repeat (case_bool_decide; simpl);
      rewrite ?lookup_insert_eq, ?lookup_insert_ne by done; congruence. }
  assert (Hperm : range (cfgManagers cfg) w ≡ₚ map_to_list (cfgManagers cfg)) by apply range_perm.
  assert (Hnd : NoDup (range (cfgManagers cfg) w).*1) by (rewrite Hperm; apply NoDup_fst_map_to_list).
  assert (Hlook : NewEngine cfg w !! name =
    match cfgManagers cfg !! name with Some m => f name m (cfgSync cfg !! name) | None => cfgSync cfg !! name end).
  { unfold NewEngine. rewrite <- (list_to_map_to_list (cfgManagers cfg)), <- (list_to_map_proper _ _ Hnd Hperm).
    rewrite <- (foldl_partial_alter f) by done. f_equal.
    rewrite (list_to_map_proper _ _ Hnd Hperm), list_to_map_to_list.
    generalize (cfgSync cfg). clear Hperm Hnd. induction (range (cfgManagers cfg) w) as [|nm l IH]; intros m; [done|].
    simpl. rewrite Hstep. apply IH. }
  rewrite Hlook. unfold f. fold config. destruct (cfgManagers cfg !! name) as [[]|]; simpl; [|done..].
  destruct (bool_decide (syncType config = _)); simpl; [|done].
  destruct (bool_decide (trackersOf cfg name = [])); simpl; [done|].
  eexists. split; [done|]. apply mergePeers_spec.
Qed.

(** ** What [SyncAdvertisements] publishes *)

(** The calls of [publish]: creation or revocation, and a submission if it succeeded. *)
Definition published (ev : event) (tr : list event) : Prop :=
  tr = [ev] \/ exists topics beef, tr = [ev; SubmitCall topics beef].

(** The names that are required and not advertised for this host. *)
Definition missing (required : gmap (list byte) unit) (current : list Advertisement) (names : list (list byte)) : Prop :=
  NoDup names /\ forall n, n ∈ names <-> is_Some (required !! n) /\
    ~ exists ad, ad ∈ current /\ TopicOrService ad = n /\ Domain ad = HostingURL e.

Lemma toCreate_missing required l current :
  l ≡ₚ map_to_list required -> missing required current (toCreate l.*1 current).
Proof.
  intros Hl. unfold toCreate. split.
  - apply NoDup_filter. rewrite Hl. apply NoDup_fst_map_to_list.
  - intros n. rewrite list_elem_of_filter. rewrite <- not_true_iff_false. unfold advertised. rewrite existsb_exists.
    assert (Hn : n ∈ l.*1 <-> is_Some (required !! n)).
    { rewrite Hl, list_elem_of_fmap. split.
      - intros ([n' x] & -> & Hx%elem_of_map_to_list). eauto.
      - intros [x Hx]. exists (n, x). split; [done|]. by apply elem_of_map_to_list. }
    rewrite Hn. setoid_rewrite <- list_elem_of_In. setoid_rewrite andb_true_iff. setoid_rewrite bool_decide_eq_true. tauto.
Qed.

Context (rank : Outpoint -> nat) (fuel : nat).
Context (Hends : Submit.history_ends (W := W) (Beef := Beef) rank) (Hfuel : forall o, (S (rank o) < fuel)%nat)
  (Hadmission : hasAdmission e = false).

Lemma publish_wp op ev s :
  wp true (publish fuel op ev) s (fun r s' => exists tr, trace s' = trace s ++ tr /\ published ev tr /\
    match r with Err _ => False | _ => True end).
Proof using Hends Hfuel Hadmission.
  unfold publish. apply wp_dropError, wp_bind, wp_invoke. intros r w _.
  assert (Hone : exists tr, trace (mkSt w (trace s ++ [ev])) = trace s ++ tr /\ published ev tr /\ True)
    by (eexists; split_and!; [done|by left|done]).
  destruct r as [t|err|]; [|exact Hone..].
  pose proof (Submit.Submit_wp e rank fuel (tagTopics t) (tagBeef t) (tagOffChain t) SubmitModeCurrent false w Hends Hfuel Hadmission) as Hsub.
  unfold wp, engineSubmit in *. cbn [world] in *.
  destruct (Submit.Submit _ _ _ _ _ _ _ _) as [[r s']|]; [clear Hsub|done].
  assert (Htwo : exists tr, trace (mkSt (world s') ((trace s ++ [ev]) ++ [SubmitCall (tagTopics t) (tagBeef t)])) = trace s ++ tr /\
    published ev tr /\ True).
  { eexists. simpl. rewrite <- app_assoc. split_and!; [done|right; by eexists _, _|done]. }
  destruct r as [steak|err|]; simpl; exact Htwo.
Qed.

(** The calls of a synchronisation of the advertisements and its result. *)
Definition synchronises (tr : list event) (r : result unit) : Prop :=
  (exists f, tr = [FindAdsCall (str "SHIP") f] /\ is_ok f = false /\ is_ok r = false) \/
  (exists ship f, tr = [FindAdsCall (str "SHIP") (Ok ship); FindAdsCall (str "SLAP") f] /\
     is_ok f = false /\ is_ok r = false) \/
  exists ship slap topics services creates revokes,
    tr = FindAdsCall (str "SHIP") (Ok ship) :: FindAdsCall (str "SLAP") (Ok slap) :: creates ++ revokes /\
    missing (managers e) ship topics /\ missing (lookupServices e) slap services /\
    (let data := map (mkAdData (str "SHIP")) topics ++ map (mkAdData (str "SLAP")) services in
     (data = [] /\ creates = []) \/ (data <> [] /\ published (CreateCall data) creates)) /\
    (let stale := filter (fun ad => managers e !! TopicOrService ad = None) ship ++
                  filter (fun ad => lookupServices e !! TopicOrService ad = None) slap in
     (revokes = [] /\ (stale = [] \/ r = Panic)) \/ (stale <> [] /\ published (RevokeCall stale) revokes)) /\
    (r = Ok tt \/ r = Panic).

Lemma SyncAdvertisements_wp s :
  hasAdvertiser e = true ->
  wp true (SyncAdvertisements fuel) s (fun r s' => exists tr, trace s' = trace s ++ tr /\ synchronises tr r).
Proof using Hends Hfuel Hadmission.
  intros Hadv. unfold SyncAdvertisements. rewrite Hadv. cbn [negb].
  apply wp_bind, wp_rangeMap. intros required1 Hreq1. apply wp_bind, wp_rangeMap. intros required2 Hreq2.
  apply wp_bind, wp_observe. intros f1 w1 _.
  destruct f1 as [ship|err|]; [|eexists; (split; [done|]); left; by eexists..].
  apply wp_bind, wp_observe. intros f2 w2 _. cbn [trace].
  destruct f2 as [slap|err|];
    [|eexists; rewrite <- app_assoc; (split; [done|]); right; left; by eexists _, _..].
  set (data := map _ _ ++ map _ _). set (stale := toRevoke _ _ ++ toRevoke _ _).
  set (s2 := mkSt _ _). assert (E2 : trace s2 = trace s ++ [FindAdsCall (str "SHIP") (Ok ship); FindAdsCall (str "SLAP") (Ok slap)])
    by (subst s2; simpl; by rewrite <- app_assoc).
  apply wp_bind. apply wp_mono with (Q := fun r s3 => exists creates, trace s3 = trace s2 ++ creates /\
    ((data = [] /\ creates = []) \/ (data <> [] /\ published (CreateCall data) creates)) /\
    match r with Err _ => False | _ => True end).
  { case_bool_decide as Hd.
    - apply wp_ret. exists []. rewrite app_nil_r. split_and!; auto.
    - eapply wp_mono; [by apply publish_wp|]. intros r s3 (tr & ? & ? & ?). exists tr. auto. }
  intros r s3 (creates & E3 & Hc & Hr3).
  assert (Hfinish : forall revokes r' (s4 : St), trace s4 = trace s3 ++ revokes ->
    ((revokes = [] /\ (stale = [] \/ r' = Panic)) \/ (stale <> [] /\ published (RevokeCall stale) revokes)) ->
    (r' = Ok tt \/ r' = Panic) -> exists tr, trace s4 = trace s ++ tr /\ synchronises tr r').
  { intros revokes r' s4 E4 Hv Hr'. eexists. rewrite E4, E3, E2, <- !app_assoc. split; [done|]. right. right.
    exists ship, slap, (toCreate required1.*1 ship), (toCreate required2.*1 slap), creates, revokes.
    split_and!; [done|by apply toCreate_missing..|done|done|done]. }
  destruct r as [[]|err|]; [|done|].
  - case_bool_decide as Hd.
    + apply wp_ret. apply (Hfinish []); [by rewrite app_nil_r|by left; auto|by auto].
    + eapply wp_mono; [by apply publish_wp|]. intros r s4 (tr & E4 & Hp & Hr4). apply (Hfinish tr); [done|auto|].
      destruct r as [[]|err|]; [by left|done|by right].
  - apply (Hfinish []); [by rewrite app_nil_r|by left; auto|by auto].
Qed.

(** C29.  The synchronisation of the advertisements ends (under the assumptions with which
    a submission ends).  Without an advertiser nothing is called.  Otherwise the host's
    advertisements are found first, and a failure to do so is its error; then one call
    creates the advertisements that are missing, of exactly the registered topics (SHIP)
    and services (SLAP) that are not advertised under the URL of the host, and one call
    revokes exactly those whose topic or service is not registered, whatever host they
    are for; neither is made when there is nothing to do.  Each is followed by at most
    one submission; their errors are not errors of the synchronisation. *)
Theorem SyncAdvertisements_spec w :
  exists r s', SyncAdvertisements fuel (mkSt w []) = Some (r, s') /\
    if hasAdvertiser e then synchronises (trace s') r else r = Ok tt /\ s' = mkSt w [].
Proof using Hends Hfuel Hadmission.
  apply wp_returns. destruct (hasAdvertiser e) eqn:Hadv.
  - eapply wp_mono; [by apply SyncAdvertisements_wp|]. by intros r s' (tr & -> & ?).
  - unfold SyncAdvertisements. rewrite Hadv. by apply wp_ret.
Qed.

End Advertise.

(** ** A host with one advertisement of its own *)

Module Example.
Import EngineModel.

(** The host advertises its topic; its service is not advertised, and there is an
    advertisement of a service it no longer has. *)
#[local] Instance oneAdvertisement : Advertisers unit := {|
  CreateAdvertisements _ w := (Ok (mkTagged [Byte.x01] [str "tm"] []), w);
  FindAllAdvertisements protocol w :=
    (Ok (if bool_decide (protocol = str "SHIP") then [mkAd protocol (str "https://host") (str "tm")]
         else [mkAd protocol (str "https://host") (str "old")]), w);
  RevokeAdvertisements _ w := (Ok (mkTagged [] [] []), w);
  ParseAdvertisement _ := Ok None |}.

Definition synced := SyncAdvertisements (W := unit) (Beef := Transaction) config 2 (mkSt tt []).

Lemma noHistory : Submit.history_ends (W := unit) (Beef := Transaction) (fun _ => 0%nat).
Proof.
  split; intros; simpl in *; [discriminate|].
  match goal with H : (Ok [], _) = (Ok _, _) |- _ => injection H as <- _ end. set_solver.
Qed.

Lemma SyncAdvertisements_spec_witness :
  exists r s', synced = Some (r, s') /\ synchronises config (trace s') r.
Proof.
  assert (Hrank : forall o : Outpoint, (S ((fun _ => 0) o) < 2)%nat) by (intros o; lia).
  exact (SyncAdvertisements_spec (W := unit) (Beef := Transaction) config (fun _ => 0%nat) 2 noHistory Hrank eq_refl tt).
Defined.

Example synced_calls : (fun '(r, s) => (r, trace s)) <$> synced =
  Some (Ok tt, [FindAdsCall (str "SHIP") (Ok [mkAd (str "SHIP") (str "https://host") (str "tm")]);
    FindAdsCall (str "SLAP") (Ok [mkAd (str "SLAP") (str "https://host") (str "old")]);
    CreateCall [mkAdData (str "SLAP") (str "ls")]; SubmitCall [str "tm"] [Byte.x01];
    RevokeCall [mkAd (str "SLAP") (str "https://host") (str "old")]; SubmitCall [] []]).
Proof. vm_compute. reflexivity. Qed.

End Example.
End Advertise.
