(* ===== verification/PeerSync.v ===== *)
(** * pkg/core/engine/engine.go: the synchronisation with peers

    [StartGASPSync], with the discovery of peers through SHIP advertisements and the
    loop over the pages of a peer, and [SyncInvalidatedOutputs], which asks peers for
    the proofs that a reorganisation of the chain invalidated.  The remotes
    ([NewOverlayGASPRemote]) and the temporary storages ([NewOverlayGASPStorage]) are
    given by peer and topic. *)

From S2P Require Import Prelude Bytes Runs Traced GaspTypes GaspSync EngineTypes EngineModel MerkleProof Lookup Advertise.
Import Gasp.
Open Scope Z_scope.

(** What [StartGASPSync] and [SyncInvalidatedOutputs] use of the outside. *)
Class PeerNetwork (W Beef : Type) := {
  (* [LookupResolver.Query] of ls_ship for a topic, with the SLAP trackers *)
  QueryPeers : list (list byte) -> list byte -> Op W (LookupAnswer Beef);
  remoteOf : list byte -> list byte -> Remote W;
  storageOf : list byte -> Storage W;
  NewMerklePathFromBinary : list byte -> result MerklePath }.

Module PeerSync.

Definition DefaultGASPSyncLimit : Z := 1000.

Section PeerSync.
Context {W Beef Tx : Type} `{TransactionSDK Beef} `{EngineStorage W Beef} `{LookupServices W} `{Network W}
  `{MapRange W} `{Advertisers W} `{SDK Tx} `{PeerNetwork W Beef}.
Context (e : EngineConfig) (slapTrackers : list (list byte)) (syncs : gmap (list byte) SyncConfiguration).

Inductive event :=
  | QueryCall (topic : list byte) (r : result (LookupAnswer Beef))
  | GetLastCall (peer topic : list byte) (r : result Z)
  | PageCall (peer topic : list byte) (since : Z) (r : result unit)
  | UpdateLastCall (peer topic : list byte) (last : Z)
  | InvalidatedCall (topic : list byte) (r : result (list Outpoint))
  | AskProofCall (peer : list byte) (outpoint : Outpoint)
  | NewProofCall (txid : Hash) (r : result unit).

Local Abbreviation St := (Traced.St W event).
Local Abbreviation Run := (Runs.Run St).

(** ** Discovery *)

Definition expectedProtocolForTopic (topic : list byte) : option (list byte) :=
  if bool_decide (topic = str "tm_ship") then Some (str "SHIP")
  else if bool_decide (topic = str "tm_slap") then Some (str "SLAP") else None.

(** [None] is the empty string of the code; an empty domain is dropped too. *)
Definition parseAdvertisementDomain (output : OutputListItem) (expectedProto : list byte) : result (option (list byte)) :=
  match ParseBeef (itemBeef output) with
  | Panic => Panic
  | Err _ | Ok (_, _, None) => Ok None
  | Ok (beef, _, Some txID) =>
      match FindTransactionByHash beef txID with
      | None => Ok None
      | Some tx =>
          match txOutputs tx !! Z.to_nat (itemIndex output) with
          | Some (Some (_, Some lockingScript)) =>
              if negb (hasAdvertiser e) then Ok None else
              match ParseAdvertisement lockingScript with
              | Panic => Panic
              | Err _ | Ok None => Ok None
              | Ok (Some advertisement) =>
                  Ok (if bool_decide (adProtocol advertisement = expectedProto) &&
                         negb (bool_decide (Domain advertisement = []))
                      then Some (Domain advertisement) else None)
              end
          | _ => Ok None
          end
      end
  end.

Fixpoint collectEndpoints (expectedProto : list byte) (outputs : list OutputListItem)
    (endpointSet : gmap (list byte) unit) : result (gmap (list byte) unit) :=
  match outputs with
  | [] => Ok endpointSet
  | output :: outputs' =>
      domain ← parseAdvertisementDomain output expectedProto;
      collectEndpoints expectedProto outputs'
        (match domain with Some d => <[d := tt]> endpointSet | None => endpointSet end)
  end.

Definition extractPeerEndpoints (topic : list byte) (outputs : list OutputListItem) : result (gmap (list byte) unit) :=
  match expectedProtocolForTopic topic with
  | None => Ok ∅
  | Some expectedProto => collectEndpoints expectedProto outputs ∅
  end.

Definition discoverSHIPPeers (topic : list byte) : Run (list (list byte)) :=
  lookupAnswer ← observe (QueryPeers slapTrackers topic) (QueryCall topic);
  match ansType lookupAnswer with
  | AnswerTypeOutputList =>
      endpointSet ← lift (extractPeerEndpoints topic (ansOutputs lookupAnswer));
      endpoints ← rangeMap endpointSet;
      mret (filter (fun endpoint => endpoint <> HostingURL e) endpoints.*1)
  | _ => mret []
  end.

(** ** Pages *)

(** [gaspProvider.Sync], with the goroutine's own fuel; the calls of the protocol are
    not part of the record. *)
Definition syncPage (pageFuel : nat) (peer topic : list byte) (last : Z) : St -> option (result unit * Z * St) := fun s =>
  match GaspSync.Sync (W := W) (Tx := Tx) (H := storageOf topic) (H0 := remoteOf peer topic) pageFuel
          (GaspSync.mkGASP 1 last true) DefaultGASPSyncLimit (GaspSync.mkSt (world s) ∅ []) with
  | Some (r, last', g) => Some (r, last', mkSt (GaspSync.world g) (trace s ++ [PageCall peer topic last r]))
  | None => None
  end.

(** The loop of [syncWithPeer]. *)
Fixpoint syncPages (fuel pageFuel : nat) (topic peer : list byte) (last : Z) : Run unit := fun s =>
  match fuel with
  | O => None
  | S fuel' =>
      match syncPage pageFuel peer topic last s with
      | None => None
      | Some (Panic, _, s) => Some (Panic, s)
      | Some (Err _, _, s) => Some (Ok tt, s)
      | Some (Ok _, last', s) =>
          if float_gt last' last then
            (dropError (invoke (UpdateLastInteraction peer topic last') (UpdateLastCall peer topic last')) ≫= fun _ =>
             syncPages fuel' pageFuel topic peer last') s
          else Some (Ok tt, s)
      end
  end.

Definition syncWithPeer (fuel pageFuel : nat) (topic peer : list byte) : Run unit :=
  lastInteraction ← observe (GetLastInteraction peer topic) (GetLastCall peer topic);
  syncPages fuel pageFuel topic peer lastInteraction.

(** The body of the loop of [StartGASPSync]. *)
Definition syncTopic (fuel pageFuel : nat) (entry : list byte * SyncConfiguration) : Run unit :=
  let '(topic, syncEndpoints) := entry in
  peers ← (if bool_decide (syncType syncEndpoints = SyncConfigurationSHIP) then discoverSHIPPeers topic
           else mret (Peers syncEndpoints));
  forEach (syncWithPeer fuel pageFuel topic) peers.

Definition StartGASPSync (fuel pageFuel : nat) : Run unit :=
  entries ← rangeMap syncs;
  forEach (syncTopic fuel pageFuel) entries.

(** ** Invalidated outputs *)

Definition groupOutpointsByTxid (outpoints : list Outpoint) : gmap Hash Outpoint :=
  foldl (fun result outpoint =>
    match result !! Txid outpoint with Some _ => result | None => <[Txid outpoint := outpoint]> result end) ∅ outpoints.

(** [Engine.HandleNewMerkleProof]. *)
Definition handleNewMerkleProof (fuel : nat) (txid : Hash) (proof : MerklePath) : Run unit := fun s =>
  match MerkleProof.HandleNewMerkleProof e fuel txid proof (mkSt (world s) []) with
  | Some (r, s') => Some (r, mkSt (world s') (trace s ++ [NewProofCall txid r]))
  | None => None
  end.

(** A remote returns a node when it returns no error. *)
Fixpoint syncMerkleProofFromPeers (fuel : nat) (topic : list byte) (txid : Hash) (outpoint : Outpoint)
    (peers : list (list byte)) : Run bool := 
  match peers with
  | [] => mret false
  | peer :: peers' =>
      let next := syncMerkleProofFromPeers fuel topic txid outpoint peers' in
      if bool_decide (peer = HostingURL e) then next else fun s =>
      match invoke (rRequestNode (Remote := remoteOf peer topic) (Some outpoint) outpoint true) (AskProofCall peer outpoint) s with
      | None => None
      | Some (Panic, s) | Some (Ok None, s) => Some (Panic, s)
      | Some (Err _, s) => next s
      | Some (Ok (Some node), s) =>
          if bool_decide (Proof_ node = []) then next s else
          match NewMerklePathFromBinary (Proof_ node) with
          | Panic => Some (Panic, s)
          | Err _ => next s
          | Ok merklePath =>
              match handleNewMerkleProof fuel txid merklePath s with
              | None => None
              | Some (Panic, s) => Some (Panic, s)
              | Some (Err _, s) => next s
              | Some (Ok _, s) => Some (Ok true, s)
              end
          end
      end
  end.

Definition SyncInvalidatedOutputs (fuel : nat) (topic : list byte) : Run unit :=
  invalidatedOutpoints ← observe (FindOutpointsByMerkleState topic MerkleStateInvalidated 1000) (InvalidatedCall topic);
  if bool_decide (invalidatedOutpoints = []) then mret tt else
  match syncs !! topic with
  | None => mret tt
  | Some syncConfig =>
      if bool_decide (Peers syncConfig = []) then mret tt else
      txidsToUpdate ← rangeMap (groupOutpointsByTxid invalidatedOutpoints);
      forEach (fun '(txid, outpoint) =>
        syncMerkleProofFromPeers fuel topic txid outpoint (Peers syncConfig) ≫= fun _ => mret tt) txidsToUpdate
  end.

(** ** The pages of a peer *)

Section Sessions.
Context (U : gset Outpoint) (pageFuel : nat).
Context (Hdelivers : forall peer topic,
  GaspSync.delivers (W := W) (Tx := Tx) (H0 := remoteOf peer topic) U)
  (Hpage : (size U < pageFuel)%nat).

(** The calls of a loop over pages that starts at [last]: every page but the last one
    succeeded and moved the cursor forward, and only then the new cursor was stored. *)
Inductive pages (peer topic : list byte) (last : Z) : list event -> Prop :=
  | pages_last r : pages peer topic last [PageCall peer topic last r]
  | pages_stored last' : float_gt last' last = true ->
      pages peer topic last [PageCall peer topic last (Ok tt); UpdateLastCall peer topic last']
  | pages_next last' tr : float_gt last' last = true -> pages peer topic last' tr ->
      pages peer topic last (PageCall peer topic last (Ok tt) :: UpdateLastCall peer topic last' :: tr).

(** The cursors that are left above [last]. *)
Definition above (last : Z) : nat := Z.to_nat (2 ^ 63 - float_key last).

Lemma syncPages_wp fuel peer topic last s :
  (above last < fuel)%nat ->
  wp true (syncPages fuel pageFuel topic peer last) s (fun r s' =>
    (r = Ok tt \/ r = Panic) /\ exists tr, trace s' = trace s ++ tr /\ pages peer topic last tr).
Proof using Hdelivers Hpage.
  revert last s. induction fuel as [|fuel IH]; intros last s Hfuel; [lia|]. unfold wp. cbn [syncPages]. unfold syncPage.
  destruct (GaspSync.Sync_ends (H := storageOf topic) (H0 := remoteOf peer topic) U pageFuel
    (GaspSync.mkGASP 1 last true) DefaultGASPSyncLimit (GaspSync.mkSt (world s) ∅ []) (Hdelivers _ _) Hpage eq_refl)
    as (r & last' & g & -> & _).
  destruct r as [[]|err|];
    [|(split; [by auto|]); eexists; (split; [done|]); apply pages_last..].
  destruct (float_gt last' last) eqn:Egt; [|split; [by left|]; eexists; (split; [done|]); apply pages_last].
  match goal with |- context [match ?m ?s0 with Some _ => _ | None => _ end] => change (wp true m s0 (fun r s' =>
    (r = Ok tt \/ r = Panic) /\ exists tr, trace s' = trace s ++ tr /\ pages peer topic last tr)) end.
  assert (Hless : (above last' < fuel)%nat).
  { pose proof (float_gt_key _ _ Egt). pose proof (float_key_bounds last). pose proof (float_key_bounds last').
    unfold above in *. lia. }
  apply wp_bind, wp_dropError, wp_invoke. intros r w _. cbn [trace].
  assert (Hnext : wp true (syncPages fuel pageFuel topic peer last')
    (mkSt w ((trace s ++ [PageCall peer topic last (Ok tt)]) ++ [UpdateLastCall peer topic last'])) (fun r s' =>
    (r = Ok tt \/ r = Panic) /\ exists tr, trace s' = trace s ++ tr /\ pages peer topic last tr)).
  { eapply wp_mono; [by apply IH|]. intros r' s' (Hr & tr & E & Hp). split; [done|]. cbn [trace] in E. eexists.
    rewrite E, <- !app_assoc. split; [done|]. by apply pages_next. }
  destruct r as [[]|err|]; [exact Hnext..|]. split; [by right|]. eexists. rewrite <- app_assoc. split; [done|].
  by apply pages_stored.
Qed.

(** The calls of a session with a peer and its result; the errors of a page end the
    session, but they are not its errors. *)
Definition session (peer topic : list byte) (r : result unit) (tr : list event) : Prop :=
  (exists e, tr = [GetLastCall peer topic (Err e)] /\ r = Err e) \/
  (tr = [GetLastCall peer topic Panic] /\ r = Panic) \/
  exists last rest, tr = GetLastCall peer topic (Ok last) :: rest /\ pages peer topic last rest /\
    (r = Ok tt \/ r = Panic).

Lemma syncWithPeer_wp fuel peer topic s :
  (Z.to_nat (2 ^ 64) <= fuel)%nat ->
  wp true (syncWithPeer fuel pageFuel topic peer) s (fun r s' =>
    exists tr, trace s' = trace s ++ tr /\ session peer topic r tr).
Proof using Hdelivers Hpage.
  intros Hfuel. apply wp_bind, wp_observe. intros r w _. destruct r as [last|err|].
  - eapply wp_mono; [apply syncPages_wp|].
    + pose proof (float_key_bounds last). unfold above. lia.
    + intros r s' (Hr & tr & E & Hp). eexists. rewrite E. cbn [trace]. rewrite <- app_assoc. split; [done|].
      right. right. by eexists _, _.
  - eexists. split; [done|]. left. by eexists.
  - eexists. split; [done|]. right. by left.
Qed.

(** C17.  A session with a peer ends.  The peer may answer every page as it likes, as
    long as the nodes it can deliver are finitely many (a cursor is a double, so that
    2^64 pages are enough): the cursor of each page is above the one before.  The
    calls are: the stored cursor is read; each page starts at the cursor that the page
    before it returned; a cursor is stored only after the page that returned it
    succeeded, and it is always above the cursor before it; the session ends with the
    first page that fails or does not move the cursor. *)
Theorem syncWithPeer_ends fuel peer topic w :
  (Z.to_nat (2 ^ 64) <= fuel)%nat ->
  exists r s', syncWithPeer fuel pageFuel topic peer (mkSt w []) = Some (r, s') /\ session peer topic r (trace s').
Proof using Hdelivers Hpage.
  intros Hfuel. apply wp_returns. eapply wp_mono; [by apply syncWithPeer_wp|]. by intros r s' (tr & -> & Hs).
Qed.

End Sessions.

(** ** Who is contacted *)

Definition advertises (topic peer : list byte) : Prop :=
  exists w answer w' output proto, QueryPeers slapTrackers topic w = (Ok answer, w') /\
    output ∈ ansOutputs answer /\ expectedProtocolForTopic topic = Some proto /\
    parseAdvertisementDomain output proto = Ok (Some peer).

(** The peers of a topic: the configured ones or, for SHIP, the other hosts that
    advertise the topic. *)
Definition wanted (topic peer : list byte) : Prop :=
  exists config, syncs !! topic = Some config /\
    (syncType config <> SyncConfigurationSHIP /\ peer ∈ Peers config \/
     syncType config = SyncConfigurationSHIP /\ peer <> HostingURL e /\ advertises topic peer).

Definition contact (ev : event) : Prop :=
  match ev with
  | QueryCall topic _ => exists config, syncs !! topic = Some config /\ syncType config = SyncConfigurationSHIP
  | GetLastCall peer topic _ | PageCall peer topic _ _ | UpdateLastCall peer topic _ => wanted topic peer
  | _ => False
  end.

Lemma pages_contact peer topic last tr : wanted topic peer -> pages peer topic last tr -> Forall contact tr.
Proof. intros Hw. induction 1; repeat constructor; done. Qed.

Lemma session_contact peer topic r tr : wanted topic peer -> session peer topic r tr -> Forall contact tr.
Proof.
  intros Hw [(err & -> & _)|[[-> _]|(last & rest & -> & Hp & _)]]; [by repeat constructor..|].
  constructor; [done|by eapply pages_contact].
Qed.

Lemma collectEndpoints_ok proto outputs m m' p :
  collectEndpoints proto outputs m = Ok m' -> is_Some (m' !! p) ->
  is_Some (m !! p) \/ exists output, output ∈ outputs /\ parseAdvertisementDomain output proto = Ok (Some p).
Proof.
  revert m. induction outputs as [|output outputs IH]; intros m E Hp; cbn [collectEndpoints] in E; [injection E as <-; by left|].
  apply bind_Ok in E as (domain & Ed & E). destruct (IH _ E Hp) as [Hm|(o & Ho & Eo)].
  - destruct domain as [d|]; [|by left]. apply lookup_insert_is_Some' in Hm as [->|Hm]; [|by left].
    right. exists output. split; [by left|done].
  - right. exists o. split; [by right|done].
Qed.

Lemma discoverSHIPPeers_wp topic s :
  wp true (discoverSHIPPeers topic) s (fun r s' => exists answer, trace s' = trace s ++ [QueryCall topic answer] /\
    forall peers, r = Ok peers -> NoDup peers /\ forall p, p ∈ peers -> p <> HostingURL e /\ advertises topic p).
Proof.
  apply wp_bind, wp_observe. intros r w Eq. destruct r as [answer|err|]; [|by eexists..].
  assert (Hnone : exists a, trace s ++ [QueryCall topic (Ok answer)] = trace s ++ [QueryCall topic a] /\
    forall peers, Ok [] = Ok peers -> NoDup peers /\ forall p, p ∈ peers -> p <> HostingURL e /\ advertises topic p).
  { eexists. split; [done|]. intros peers [= <-]. split; [constructor|]. intros p Hp. by apply not_elem_of_nil in Hp. }
  destruct (ansType answer); [by apply wp_ret| |by apply wp_ret].
  apply wp_bind, wp_lift. destruct (extractPeerEndpoints topic (ansOutputs answer)) as [set_|err|] eqn:Ex; [|by eexists..].
  apply wp_bind, wp_rangeMap. intros l Hl. apply wp_ret. eexists. split; [done|]. intros peers [= <-]. split.
  - apply NoDup_filter. rewrite Hl. apply NoDup_fst_map_to_list.
  - intros p [Hp ([p' x] & -> & Hin)%list_elem_of_fmap]%list_elem_of_filter. split; [done|].
    rewrite Hl in Hin. apply elem_of_map_to_list in Hin. unfold extractPeerEndpoints in Ex.
    destruct (expectedProtocolForTopic topic) as [proto|] eqn:Eproto; [|by injection Ex as <-].
    destruct (collectEndpoints_ok _ _ _ _ p' Ex ltac:(by eexists)) as [[? Hm]|(output & Ho & Eo)]; [done|].
    by exists (world s), answer, w, output, proto.
Qed.

(** ** The whole synchronisation *)

Lemma syncTopic_wp U fuel pageFuel topic config s :
  (forall peer topic, GaspSync.delivers (W := W) (Tx := Tx) (H0 := remoteOf peer topic) U) ->
  (size U < pageFuel)%nat -> (Z.to_nat (2 ^ 64) <= fuel)%nat -> syncs !! topic = Some config ->
  wp true (syncTopic fuel pageFuel (topic, config)) s (fun r s' => emits contact s s' /\
    (r = Ok tt -> syncType config <> SyncConfigurationSHIP -> forall peer, peer ∈ Peers config ->
       exists last, GetLastCall peer topic (Ok last) ∈ trace s')).
Proof.
  intros HU Hpage Hfuel Hc. unfold syncTopic.
  assert (Hall : forall peers s1, (forall p, p ∈ peers -> wanted topic p) ->
    wp true (forEach (syncWithPeer fuel pageFuel topic) peers) s1 (fun r s2 => emits contact s1 s2 /\
      (r = Ok tt -> forall p, p ∈ peers -> exists last, GetLastCall p topic (Ok last) ∈ trace s2))).
  { intros peers s1 Hw. apply wp_forEach_all; [apply emits_refl|apply emits_trans| |].
    - intros p s2 s3 [last Hin] Hs3. exists last. by eapply emits_any.
    - intros p s2 Hp. eapply wp_mono; [by apply (syncWithPeer_wp U)|]. intros r s3 (tr & E & Hs). split.
      + exists tr. split; [done|]. eapply session_contact; [by apply Hw|done].
      + intros ->. destruct Hs as [(? & _ & [=])|[[_ [=]]|(last & rest & -> & _)]]. exists last. rewrite E.
        apply elem_of_app. right. by left. }
  case_bool_decide as Ht.
  - apply wp_bind. eapply wp_mono; [apply discoverSHIPPeers_wp|]. intros r s1 (answer & E & Hr).
    assert (Hs1 : emits contact s s1) by (eexists; split; [done|]; repeat constructor; by eexists).
    destruct r as [peers|err|]; [|by split..]. destruct (Hr peers eq_refl) as [_ Hp].
    eapply wp_mono; [apply Hall|].
    + intros p Hin. exists config. split; [done|]. right. destruct (Hp p Hin). auto.
    + intros r s2 [Hs2 _]. split; [by eapply emits_trans|done].
  - apply wp_bind, wp_ret. eapply wp_mono; [apply Hall|].
    + intros p Hin. exists config. split; [done|]. left. auto.
    + intros r s2 [Hs2 Hr]. split; [done|]. intros Hok _. by apply Hr.
Qed.

(** The synchronisation of the engine ends, under the assumption of
    [syncWithPeer_ends] for every peer.  It only contacts peers that are wanted: the
    configured peers of a configured topic, or, for a topic that is configured for SHIP,
    other hosts than this one that an answer of the lookup resolver advertises for that
    topic; and only for such topics the resolver is asked.  When it succeeds, the session
    with every configured peer was begun. *)
Theorem StartGASPSync_spec U fuel pageFuel w :
  (forall peer topic, GaspSync.delivers (W := W) (Tx := Tx) (H0 := remoteOf peer topic) U) ->
  (size U < pageFuel)%nat -> (Z.to_nat (2 ^ 64) <= fuel)%nat ->
  exists r s', StartGASPSync fuel pageFuel (mkSt w []) = Some (r, s') /\ Forall contact (trace s') /\
    (r = Ok tt -> forall topic config peer, syncs !! topic = Some config ->
       syncType config <> SyncConfigurationSHIP -> peer ∈ Peers config ->
       exists last, GetLastCall peer topic (Ok last) ∈ trace s').
Proof.
  intros HU Hpage Hfuel. apply wp_returns. apply wp_bind, wp_rangeMap. intros l Hl.
  eapply wp_mono; [apply (wp_forEach_all true _ _ _ (emits contact) (fun tc s' =>
    syncType tc.2 <> SyncConfigurationSHIP -> forall peer, peer ∈ Peers tc.2 ->
      exists last, GetLastCall peer tc.1 (Ok last) ∈ trace s'))|].
  - apply emits_refl.
  - apply emits_trans.
  - intros tc s1 s2 Hv Hs2 Ht p Hp. destruct (Hv Ht p Hp) as [last Hin]. exists last. by eapply emits_any.
  - intros [topic config] s1 Hin. rewrite Hl in Hin. apply elem_of_map_to_list in Hin. by apply (syncTopic_wp U).
  - intros r s' [(tr & E & Hc) Hall]. simpl in E. rewrite E. split; [done|].
    intros Hok topic config peer Hsync Ht Hp. rewrite <- E. apply (Hall Hok (topic, config)); [|done..].
    rewrite Hl. by apply elem_of_map_to_list.
Qed.

(** SHIP discovery finds nothing for any topic but tm_ship and tm_slap: whatever the
    lookup resolver answers, a topic of another name gets no peers, although its
    configuration asks for discovery through SHIP. *)
Theorem ship_discovery_only_for_trackers topic s r s' :
  topic <> str "tm_ship" -> topic <> str "tm_slap" ->
  discoverSHIPPeers topic s = Some (Ok r, s') -> r = [].
Proof.
  intros Hship Hslap Er.
  assert (Hwp : wp false (discoverSHIPPeers topic) s (fun r _ => forall peers, r = Ok peers -> peers = []))
    ; [|unfold wp in Hwp; rewrite Er in Hwp; by apply Hwp].
  apply wp_bind, wp_observe. intros [answer|err|] w _; [|done..].
  destruct (ansType answer); [apply wp_ret; by intros ? [= <-]| |apply wp_ret; by intros ? [= <-]].
  unfold extractPeerEndpoints, expectedProtocolForTopic. rewrite !bool_decide_eq_false_2 by done.
  apply wp_bind, wp_lift, wp_bind, wp_rangeMap. intros l Hl. rewrite map_to_list_empty in Hl.
  apply Permutation_nil_r in Hl as ->. apply wp_ret. by intros ? [= <-].
Qed.

(** ** Invalidated proofs *)

Lemma groupOutpointsByTxid_lookup outpoints txid :
  groupOutpointsByTxid outpoints !! txid = head (filter (fun o => Txid o = txid) outpoints).
Proof.
  unfold groupOutpointsByTxid. induction outpoints as [|o outpoints IH] using rev_ind; [done|].
  rewrite foldl_app, filter_app. cbn [foldl].
  set (m := foldl _ ∅ outpoints) in *. destruct (decide (Txid o = txid)) as [<-|Hne].
  - rewrite filter_cons_True by done. change (filter _ []) with (@nil Outpoint).
    destruct (m !! Txid o) as [o'|] eqn:Em.
    + rewrite Em, IH. by destruct (filter _ outpoints).
    + rewrite lookup_insert_eq. destruct (filter _ outpoints); [done|discriminate].
  - rewrite filter_cons_False by done. change (filter _ []) with (@nil Outpoint). rewrite app_nil_r, <- IH.
    destruct (m !! Txid o); [done|]. by apply lookup_insert_ne.
Qed.

(** The search of a proof of [txid] among [peers]: this host is passed over, the others
    are asked in order, and the search ends with the first proof that is accepted. *)
Inductive proof_search (txid : Hash) (outpoint : Outpoint) : list (list byte) -> list event -> bool -> Prop :=
  | search_exhausted : proof_search txid outpoint [] [] false
  | search_own peers tr found :
      proof_search txid outpoint peers tr found -> proof_search txid outpoint (HostingURL e :: peers) tr found
  | search_without peer peers tr found :
      peer <> HostingURL e -> proof_search txid outpoint peers tr found ->
      proof_search txid outpoint (peer :: peers) (AskProofCall peer outpoint :: tr) found
  | search_refused peer peers err tr found :
      peer <> HostingURL e -> proof_search txid outpoint peers tr found ->
      proof_search txid outpoint (peer :: peers) (AskProofCall peer outpoint :: NewProofCall txid (Err err) :: tr) found
  | search_accepted peer peers :
      peer <> HostingURL e ->
      proof_search txid outpoint (peer :: peers) [AskProofCall peer outpoint; NewProofCall txid (Ok tt)] true.

Lemma syncMerkleProofFromPeers_wp rank fuel topic txid outpoint peers s :
  MerkleProof.consumers_end (W := W) (Beef := Beef) rank -> (rank txid < fuel)%nat ->
  wp true (syncMerkleProofFromPeers fuel topic txid outpoint peers) s (fun r s' =>
    r = Panic \/ exists found tr, r = Ok found /\ trace s' = trace s ++ tr /\ proof_search txid outpoint peers tr found).
Proof.
  intros Hend Hfuel. revert s. induction peers as [|peer peers IH]; intros s; cbn [syncMerkleProofFromPeers].
  { apply wp_ret. right. exists false, []. rewrite app_nil_r. split_and!; [done..|constructor]. }
  set (next := syncMerkleProofFromPeers fuel topic txid outpoint peers) in *.
  case_bool_decide as Hpeer.
  { eapply wp_mono; [apply IH|]. intros r s' [->|(found & tr & -> & E & Hs)]; [by left|].
    right. exists found, tr. split_and!; [done..|]. subst peer. by constructor. }
  unfold wp, invoke, observe. destruct (rRequestNode _ _ _ _) as [r w].
  set (s1 := mkSt w (trace s ++ [AskProofCall peer outpoint])).
  assert (Hwithout : wp true next s1 (fun r s' => r = Panic \/ exists found tr, r = Ok found /\
    trace s' = trace s ++ tr /\ proof_search txid outpoint (peer :: peers) tr found)).
  { eapply wp_mono; [apply IH|]. intros r' s' [->|(found & tr & -> & E & Hs)]; [by left|]. right.
    eexists found, _. rewrite E. cbn [trace s1]. rewrite <- app_assoc. split_and!; [done..|]. by constructor. }
  destruct r as [[node|]|err|]; [|by left|exact Hwithout|by left].
  case_bool_decide; [exact Hwithout|].
  destruct (NewMerklePathFromBinary (Proof_ node)) as [merklePath|err|]; [|exact Hwithout|by left].
  unfold handleNewMerkleProof.
  pose proof (MerkleProof.HandleNewMerkleProof_wp e rank fuel txid merklePath (world s1) Hend Hfuel) as Hp.
  unfold wp in Hp. destruct (MerkleProof.HandleNewMerkleProof e fuel txid merklePath _) as [[r s2]|]; [clear Hp|done].
  destruct r as [[]|err|]; [|..|by left].
  - right. eexists true, _. cbn [trace s1]. rewrite <- app_assoc. split_and!; [done..|]. by apply search_accepted.
  - match goal with |- context [match next ?s0 with _ => _ end] => specialize (IH s0) end.
    eapply wp_mono in IH; [exact IH|]. intros r' s' [->|(found & tr & -> & E & Hs)]; [by left|]. right.
    eexists found, _. rewrite E. cbn [trace s1]. rewrite <- !app_assoc. split_and!; [done..|]. by apply (search_refused _ _ _ _ err).
Qed.

(** The searches for the transactions of [groups], one after the other. *)
Inductive searches (peers : list (list byte)) : list (Hash * Outpoint) -> list event -> Prop :=
  | searches_nil : searches peers [] []
  | searches_cons txid outpoint groups tr1 tr2 found :
      proof_search txid outpoint peers tr1 found -> searches peers groups tr2 ->
      searches peers ((txid, outpoint) :: groups) (tr1 ++ tr2).

Lemma searches_wp rank fuel topic peers groups s :
  MerkleProof.consumers_end (W := W) (Beef := Beef) rank -> (forall txid, rank txid < fuel)%nat ->
  wp true (forEach (fun '(txid, outpoint) =>
      syncMerkleProofFromPeers fuel topic txid outpoint peers ≫= fun _ => mret tt) groups) s
    (fun r s' => r = Panic \/ (r = Ok tt /\ exists tr, trace s' = trace s ++ tr /\ searches peers groups tr)).
Proof.
  intros Hend Hfuel. revert s. induction groups as [|[txid outpoint] groups IH]; intros s; cbn [forEach].
  { apply wp_ret. right. split; [done|]. exists []. rewrite app_nil_r. split; [done|constructor]. }
  apply wp_bind, wp_bind. eapply wp_mono; [by apply (syncMerkleProofFromPeers_wp rank)|].
  intros r s1 [->|(found & tr1 & -> & E1 & Hs1)]; [by left|]. apply wp_ret.
  eapply wp_mono; [apply IH|]. intros r s2 [->|[-> (tr2 & E2 & Hs2)]]; [by left|].
  right. split; [done|]. exists (tr1 ++ tr2). rewrite E2, E1, app_assoc. split; [done|]. by eapply searches_cons.
Qed.

(** C18.  The repair of invalidated proofs ends (when no chain of consumers is infinite).
    An error is an error of the storage.  Otherwise, if there are invalidated outputs and
    peers, then for each transaction of such an output, once and for the first of its
    outputs that was reported, the peers are asked in order, never this host itself,
    until a proof is accepted; a proof that is refused does not end the search. *)
Theorem SyncInvalidatedOutputs_spec rank fuel topic w :
  MerkleProof.consumers_end (W := W) (Beef := Beef) rank -> (forall txid, rank txid < fuel)%nat ->
  exists r s', SyncInvalidatedOutputs fuel topic (mkSt w []) = Some (r, s') /\
    (r = Panic \/ exists found rest, trace s' = InvalidatedCall topic found :: rest /\
      match found with
      | Ok outpoints =>
          r = Ok tt /\ exists groups, searches (default [] (Peers <$> syncs !! topic)) groups rest /\ NoDup groups.*1 /\
            (forall txid outpoint, (txid, outpoint) ∈ groups ->
               head (filter (fun o => Txid o = txid) outpoints) = Some outpoint) /\
            (default [] (Peers <$> syncs !! topic) <> [] -> forall o, o ∈ outpoints -> Txid o ∈ groups.*1)
      | Err err => r = Err err /\ rest = []
      | Panic => False
      end).
Proof.
  intros Hend Hfuel. apply wp_returns. apply wp_bind, wp_observe. intros found w1 _.
  destruct found as [outpoints|err|]; [|by right; eexists _, _|by left].
  assert (Hnone : forall peers : list (list byte), (peers <> [] -> outpoints = []) -> Ok tt = Ok tt /\
    exists groups, searches peers groups [] /\ NoDup groups.*1 /\
      (forall txid outpoint, (txid, outpoint) ∈ groups -> head (filter (fun o => Txid o = txid) outpoints) = Some outpoint) /\
      (peers <> [] -> forall o, o ∈ outpoints -> Txid o ∈ groups.*1)).
  { intros peers Hp. split; [done|]. exists []. split_and!; [constructor..| |].
    - intros ? ? Hin. by apply not_elem_of_nil in Hin.
    - intros Hne o Ho. rewrite (Hp Hne) in Ho. by apply not_elem_of_nil in Ho. }
  case_bool_decide as Ho.
  { apply wp_ret. right. eexists _, _. split; [done|]. by apply Hnone. }
  destruct (syncs !! topic) as [syncConfig|]; [|apply wp_ret; right; eexists _, _; split; [done|]; by apply Hnone].
  cbn [fmap option_fmap option_map default]. case_bool_decide as Hpeers.
  { apply wp_ret. right. eexists _, _. split; [done|]. by apply Hnone. }
  apply wp_bind, wp_rangeMap. intros l Hl. eapply wp_mono; [by apply (searches_wp rank)|].
  intros r s' [->|[-> (tr & E & Hs)]]; [by left|]. right. eexists _, _. rewrite E. split; [done|]. split; [done|].
  exists l. split_and!; [done|rewrite Hl; apply NoDup_fst_map_to_list| |].
  - intros txid outpoint Hin. rewrite Hl in Hin. apply elem_of_map_to_list in Hin. by rewrite groupOutpointsByTxid_lookup in Hin.
  - intros _ o Hin. rewrite Hl. apply list_elem_of_fmap.
    destruct (groupOutpointsByTxid outpoints !! Txid o) as [o'|] eqn:Eg.
    + exists (Txid o, o'). split; [done|]. by apply elem_of_map_to_list.
    + rewrite groupOutpointsByTxid_lookup in Eg. assert (Hf : o ∈ filter (fun o' => Txid o' = Txid o) outpoints)
        by (by apply list_elem_of_filter).
      destruct (filter _ outpoints); [by apply not_elem_of_nil in Hf|discriminate].
Qed.

End PeerSync.

(** ** Two peers *)

Module Example.
Import EngineModel.

#[local] Instance txs : SDK Transaction := {| NewTransactionFromBytes := parse; TxID := treeID |}.

(** A peer that always announces the same output, which the storage has. *)
Definition announced : Output := mkOutput (nameOf [Byte.x01]) 0 0x4014000000000000.

#[local] Instance peer : Remote unit := {|
  rGetInitialResponse req w := (Ok (Some (mkInitialResponse [announced] (reqSince req))), w);
  rGetInitialReply _ w := (Err ErrNotImplemented, w);
  rRequestNode g o _ w :=
    (Ok (Some (mkNode g [Byte.x01] 0 (if bool_decide (Index o = 0) then [Byte.x01] else []) [] [] ∅)), w);
  rSubmitNode _ w := (Err ErrNotImplemented, w) |}.

#[local] Instance full : Storage unit := {|
  FindKnownUTXOs _ _ w := (Ok [], w);
  HasOutputs os w := (Ok (map (fun _ => true) os), w);
  HydrateGASPNode _ _ _ w := (Err ErrMissingInput, w);
  FindNeededInputs _ w := (Ok None, w);
  AppendToGraph _ _ w := (Ok tt, w);
  ValidateGraphAnchor _ w := (Ok tt, w);
  DiscardGraph _ w := (Ok tt, w);
  FinalizeGraph _ w := (Ok tt, w) |}.

(** The resolver names one advertisement of a host, in output 0 of a transaction. *)
Definition advertisement : OutputListItem := mkItem [Byte.x07] 0.

#[local] Instance peers : PeerNetwork unit Transaction := {|
  QueryPeers _ _ w := (Ok (mkAnswer AnswerTypeOutputList [advertisement] [] []), w);
  remoteOf _ _ := peer;
  storageOf _ := full;
  NewMerklePathFromBinary _ := Ok (mkPath 7 [mkElement (Some (nameOf [Byte.x01])) 0] []) |}.

#[local] Instance ads : Advertisers unit := {|
  CreateAdvertisements _ w := (Err ErrNotImplemented, w);
  FindAllAdvertisements _ w := (Ok [], w);
  RevokeAdvertisements _ w := (Err ErrNotImplemented, w);
  ParseAdvertisement script := Ok (Some (mkAd (str "SHIP") script (str "tm_ship"))) |}.

(** A transaction of one output, whose script is the address of a host. *)
#[local] Instance scripts : TransactionSDK Transaction := {|
  txIDOf := treeID;
  ParseBeef b := Ok (mkTransaction b None [] [Some (1, Some (str "https://other"))], None, Some (nameOf b));
  FindTransactionForSigningByHash t h := Some t;
  FindTransactionByHash t h := Some t;
  MergeBeef t _ := Ok t;
  AtomicBytes t _ := Ok (txBytes t);
  AtomicBEEF t := Ok (txBytes t);
  BEEF t := Ok (txBytes t);
  ComputeRoot _ h := Ok h;
  pathBytes _ := [] |}.

(** One invalidated output, and nothing else, is stored. *)
#[local] Instance invalidated : EngineStorage unit Transaction := {|
  InsertOutputs _ _ _ _ _ _ w := (Ok tt, w);
  FindOutput o _ _ _ w := (Ok None, w);
  FindOutputs os _ _ _ w := (Ok [], w);
  FindOutputsForTransaction _ _ w := (Ok [], w);
  FindUTXOsForTopic _ _ _ _ w := (Ok [], w);
  DeleteOutput o _ w := (Ok tt, w);
  MarkUTXOsAsSpent _ _ _ w := (Ok tt, w);
  UpdateConsumedBy o _ l w := (Ok tt, w);
  UpdateTransactionBEEF _ _ w := (Ok tt, w);
  UpdateOutputBlockHeight _ _ _ _ w := (Ok tt, w);
  InsertAppliedTransaction _ _ w := (Ok tt, w);
  DoesAppliedTransactionExist _ _ w := (Ok false, w);
  UpdateLastInteraction _ _ _ w := (Ok tt, w);
  GetLastInteraction _ _ w := (Ok 0, w);
  FindOutpointsByMerkleState _ _ _ w :=
    (Ok [mkOutpoint (nameOf [Byte.x01]) 0; mkOutpoint (nameOf [Byte.x01]) 1; mkOutpoint (nameOf [Byte.x02]) 1], w);
  LoadAncillaryBeef o w := (Ok o, w) |}.

Definition syncs : gmap (list byte) SyncConfiguration :=
  {[ str "tm" := mkSync SyncConfigurationPeers [str "https://host"; str "https://peer"] 1;
     str "tm_ship" := mkSync SyncConfigurationSHIP [] 1 ]}.

Lemma delivers_one (p topic : list byte) :
  GaspSync.delivers (W := unit) (Tx := Transaction) (H0 := remoteOf p topic) {[ mkOutpoint (nameOf [Byte.x01]) 0 ]}.
Proof.
  intros g o m w n w' txid E Etx. change (rRequestNode g o m w) with (rRequestNode (Remote := peer) g o m w) in E.
  cbn [rRequestNode peer] in E. injection E as <- _. vm_compute in Etx. discriminate.
Qed.

Lemma one_page : (size ({[ mkOutpoint (nameOf [Byte.x01]) 0 ]} : gset Outpoint) < 2)%nat.
Proof. rewrite size_singleton. lia. Qed.

Definition floats : nat := Z.to_nat (2 ^ 64).

Lemma syncWithPeer_ends_witness :
  exists r s', syncWithPeer (W := unit) (Beef := Transaction) (Tx := Transaction) floats 2 (str "tm") (str "https://peer") (mkSt tt []) =
      Some (r, s') /\ session (Beef := Transaction) (str "https://peer") (str "tm") r (trace s').
Proof.
  exact (syncWithPeer_ends (W := unit) (Beef := Transaction) (Tx := Transaction) _ 2 delivers_one one_page floats
    (str "https://peer") (str "tm") tt (le_n _)).
Defined.

(** The second page does not move the cursor. *)
Example two_pages :
  (fun '(r, s) => (r, trace s)) <$>
    syncWithPeer (W := unit) (Beef := Transaction) (Tx := Transaction) 3 2 (str "tm") (str "https://peer") (mkSt tt []) =
  Some (Ok tt, [GetLastCall (str "https://peer") (str "tm") (Ok 0); PageCall (str "https://peer") (str "tm") 0 (Ok tt);
    UpdateLastCall (str "https://peer") (str "tm") 0x4014000000000000;
    PageCall (str "https://peer") (str "tm") 0x4014000000000000 (Ok tt)]).
Proof. vm_compute. reflexivity. Qed.

Lemma StartGASPSync_spec_witness :
  exists r s', StartGASPSync (W := unit) (Beef := Transaction) (Tx := Transaction) config [] syncs floats 2 (mkSt tt []) = Some (r, s') /\
    Forall (contact (Beef := Transaction) config [] syncs) (trace s').
Proof.
  destruct (StartGASPSync_spec (W := unit) (Beef := Transaction) (Tx := Transaction) config [] syncs _ floats 2 tt
    delivers_one one_page (le_n _)) as (r & s' & E & Hc & _).
  exact (ex_intro _ r (ex_intro _ s' (conj E Hc))).
Defined.

(** The host contacts itself when it is among the configured peers; a host that
    advertises tm_ship is found for that topic. *)
Example contacted :
  (fun '(r, s) => (r, List.filter (fun ev => match ev with GetLastCall _ _ _ => true | _ => false end) (trace s))) <$>
    StartGASPSync (W := unit) (Beef := Transaction) (Tx := Transaction) config [] syncs 3 2 (mkSt tt []) =
  Some (Ok tt, [GetLastCall (str "https://other") (str "tm_ship") (Ok 0);
    GetLastCall (str "https://host") (str "tm") (Ok 0); GetLastCall (str "https://peer") (str "tm") (Ok 0)]).
Proof. vm_compute. reflexivity. Qed.

Lemma ship_discovery_only_for_trackers_witness :
  exists s', discoverSHIPPeers (W := unit) (Beef := Transaction) config [] (str "tm_hello") (mkSt tt []) = Some (Ok [], s').
Proof.
  destruct (discoverSHIPPeers (W := unit) (Beef := Transaction) config [] (str "tm_hello") (mkSt tt [])) as [[[r|err|] s']|] eqn:E;
    [|vm_compute in E; discriminate..].
  exists s'. f_equal. f_equal. f_equal.
  exact (ship_discovery_only_for_trackers (W := unit) (Beef := Transaction) config [] (str "tm_hello") (mkSt tt []) r s'
    ltac:(by vm_compute) ltac:(by vm_compute) E).
Defined.

(** A topic that is configured for no synchronisation is synchronised with the
    peers of its configuration. *)
Theorem none_is_synchronised :
  (fun '(r, s) => (r, trace s)) <$>
    StartGASPSync (W := unit) (Beef := Transaction) (Tx := Transaction) config []
      {[ str "tm" := mkSync SyncConfigurationNone [str "https://peer"] 1 ]} 3 2 (mkSt tt []) =
  Some (Ok tt, [GetLastCall (str "https://peer") (str "tm") (Ok 0); PageCall (str "https://peer") (str "tm") 0 (Ok tt);
    UpdateLastCall (str "https://peer") (str "tm") 0x4014000000000000;
    PageCall (str "https://peer") (str "tm") 0x4014000000000000 (Ok tt)]).
Proof. vm_compute. reflexivity. Qed.

Lemma no_consumers : MerkleProof.consumers_end (W := unit) (Beef := Transaction) (fun _ => 0%nat).
Proof. intros txid b w outs w' o c [= <- _] Ho. by apply not_elem_of_nil in Ho. Qed.

Definition repaired := SyncInvalidatedOutputs (W := unit) (Beef := Transaction) config syncs 1 (str "tm") (mkSt tt []).

Lemma SyncInvalidatedOutputs_spec_witness :
  exists r s', repaired = Some (r, s') /\
    (r = Panic \/ exists found rest, trace s' = InvalidatedCall (str "tm") found :: rest).
Proof.
  assert (Hrank : forall txid : Hash, ((fun _ => 0) txid < 1)%nat) by (intros; lia).
  destruct (SyncInvalidatedOutputs_spec (W := unit) (Beef := Transaction) config syncs (fun _ => 0%nat) 1 (str "tm") tt
    no_consumers Hrank) as (r & s' & E & [Hr|(found & rest & Et & _)]).
  - exact (ex_intro _ r (ex_intro _ s' (conj E (or_introl Hr)))).
  - exact (ex_intro _ r (ex_intro _ s' (conj E (or_intror (ex_intro _ found (ex_intro _ rest Et)))))).
Defined.

(** Two of the three invalidated outputs are of one transaction; the node of output 1
    comes without a proof. *)
Example repaired_trace : (fun '(r, s) => (r, trace s)) <$> repaired =
  Some (Ok tt, [InvalidatedCall (str "tm") (Ok [mkOutpoint (nameOf [Byte.x01]) 0; mkOutpoint (nameOf [Byte.x01]) 1; mkOutpoint (nameOf [Byte.x02]) 1]);
    AskProofCall (str "https://peer") (mkOutpoint (nameOf [Byte.x02]) 1);
    AskProofCall (str "https://peer") (mkOutpoint (nameOf [Byte.x01]) 0); NewProofCall (nameOf [Byte.x01]) (Ok tt)]).
Proof. vm_compute. reflexivity. Qed.

End Example.

End PeerSync.
