(* ===== verification/MongoEncoding.v ===== *)
(** * pkg/storage/mongodb: encodings, identifiers and configuration

    encoding.go, the configuration of store.go, and the identifiers of documents of
    admission.go, payload.go and operation.go.  Numbers are stored as text of a fixed
    width, whose order is that of the numbers; the identifier of a document is a hash of
    its framed key. *)

From S2P Require Import Prelude Bytes Sha256 Utf8 Decimal Admission.
Import Admission.
Open Scope Z_scope.

Module MongoEncoding.

(** ** Numbers *)

(** [fmt.Sprintf("%020d", n)] *)
Definition fixed20 (n : Z) : list byte :=
  replicate (20 - length (FormatUint n)) (digit 0) ++ FormatUint n.

Definition EncodeUint64 (value : StorageUint64) : result (list byte) :=
  n ← ParseStorageUint64 value; Ok (fixed20 n).

Definition DecodeUint64 (value : list byte) : result StorageUint64 :=
  if negb (len value =? 20) then Err ErrInvalidStorageUint64
  else if negb (forallb is_digit value) then Err ErrInvalidStorageUint64
  else match ParseUint value with
  | None => Err ErrInvalidStorageUint64
  | Some n => Ok (FormatUint n)
  end.

Definition encodeOutpointIndex (value : StorageUint64) : result (list byte) :=
  _ ← ParseStorageOutputIndex value; EncodeUint64 value.

Definition mustEncodeUint64 (value : StorageUint64) : list byte :=
  match EncodeUint64 value with Ok encoded => encoded | _ => value end.

(** The token of the attempt after that of [token]. *)
Definition nextToken (token : list byte) : result (list byte) :=
  value ← DecodeUint64 token;
  match ParseStorageUint64 value with
  | Ok parsed => if parsed =? MaxUint64 then Err ErrConflict else EncodeUint64 (FormatUint (parsed + 1))
  | _ => Err ErrConflict
  end.

(** ** Text and keys *)

Definition tupleID (fields : list (list byte)) : list byte :=
  hex_encode (hbytes (SHA256.Sum256 (frame fields))).

Definition validText (value : list byte) : bool :=
  (0 <? len value) && (len value <=? 1024) && Utf8.Valid value && negb (existsb (fun b => bool_decide (b = Byte.x00)) value).

Definition validHash (value : list byte) : bool := (len value =? 64) && forallb lower_hex value.

Definition validateScope (scope : StorageScope) : result unit :=
  if negb (validText (Network scope)) || negb (validText (NodeID scope)) || negb (validHash (GenesisHash scope))
  then Err ErrInvalidConfig else Ok tt.

(** ** Configuration; durations in nanoseconds *)

Definition Millisecond : Z := 10 ^ 6.
Definition Second : Z := 10 ^ 9.
Definition Minute : Z := 60 * Second.
Definition Hour : Z := 60 * Minute.

Record Config := mkConfig {
  Database : list byte; cfgScope : StorageScope; InlineLimit : Z; MaxPayloadBytes : Z;
  TransactionTimeout : Z; CommitTimeout : Z; LeaseDuration : Z; MaxBodyAttempts : Z; MaxCommitAttempts : Z }.

(** The characters that MongoDB refuses in the name of a database. *)
Definition forbidden : list byte :=
  [Byte.x20; Byte.x2f; Byte.x5c; Byte.x2e; Byte.x22; Byte.x24; Byte.x2a; Byte.x3c; Byte.x3e; Byte.x3a; Byte.x7c; Byte.x3f; Byte.x00].

(** A limit that is zero takes its default. *)
Definition orDefault (d n : Z) : Z := if n =? 0 then d else n.

Definition withDefaults (c : Config) : Config :=
  mkConfig (Database c) (cfgScope c) (orDefault (Z.shiftl 256 10) (InlineLimit c)) (orDefault (Z.shiftl 64 20) (MaxPayloadBytes c))
    (orDefault (20 * Second) (TransactionTimeout c)) (orDefault (10 * Second) (CommitTimeout c))
    (orDefault (2 * Minute) (LeaseDuration c)) (orDefault 3 (MaxBodyAttempts c)) (orDefault 3 (MaxCommitAttempts c)).

(** The bounds of a configuration; the sum of two timeouts of at most 30 seconds does
    not overflow. *)
Definition outOfBounds (c : Config) : bool :=
  (InlineLimit c <? 1) || (Z.shiftl 1 20 <? InlineLimit c) || (MaxPayloadBytes c <? InlineLimit c) || (Z.shiftl 1 40 <? MaxPayloadBytes c) ||
  (TransactionTimeout c <? Millisecond) || (30 * Second <? TransactionTimeout c) ||
  (CommitTimeout c <? Millisecond) || (30 * Second <? CommitTimeout c) ||
  (LeaseDuration c <=? TransactionTimeout c + CommitTimeout c) || (24 * Hour <? LeaseDuration c) ||
  (MaxBodyAttempts c <? 1) || (10 <? MaxBodyAttempts c) || (MaxCommitAttempts c <? 1) || (10 <? MaxCommitAttempts c).

Definition normalizeConfig (c : Config) : result Config :=
  match validateScope (cfgScope c) with
  | Ok _ =>
      if bool_decide (Database c = []) || (63 <? len (Database c)) || existsb (fun b => bool_decide (b ∈ forbidden)) (Database c)
      then Err ErrInvalidConfig
      else if outOfBounds (withDefaults c) then Err ErrInvalidConfig else Ok (withDefaults c)
  | _ => Err ErrInvalidConfig
  end.

(** [Store], without the client; [projector] says whether a projection that is
    configured can be replayed. *)
Record Store := mkStore {
  config : Config; chainID : list byte; scopeID : list byte; ownerID : list byte; projector : option bool }.

(** The store of [New] for a configuration. *)
Definition newStore (normalized : Config) (owner : list byte) : Store :=
  let scope := cfgScope normalized in
  mkStore normalized (tupleID [str "chain"; Network scope; GenesisHash scope])
    (tupleID [str "scope"; Network scope; GenesisHash scope; NodeID scope]) owner None.

(** [ReferenceOwner] *)
Inductive ReferenceOwnerKind :=
  | ReferenceTransaction | ReferenceAppliedHistory | ReferenceOutput | ReferenceGASPGraph | ReferenceGASPNode
  | ReferenceBASMJob | ReferenceLookupOutbox | ReferencePropagationOutbox | ReferenceManifest | ReferencePin
  | ReferenceOther (s : list byte).

Record ReferenceOwner := mkOwner { ownerKind : ReferenceOwnerKind; ownerKey : list byte }.

Definition ownerKindText (k : ReferenceOwnerKind) : list byte :=
  match k with
  | ReferenceTransaction => str "transaction" | ReferenceAppliedHistory => str "applied-history"
  | ReferenceOutput => str "output" | ReferenceGASPGraph => str "gasp-graph" | ReferenceGASPNode => str "gasp-node"
  | ReferenceBASMJob => str "basm-job" | ReferenceLookupOutbox => str "lookup-outbox"
  | ReferencePropagationOutbox => str "propagation-outbox" | ReferenceManifest => str "manifest" | ReferencePin => str "pin"
  | ReferenceOther s => s
  end.

Definition payloadKindText (k : AdmissionPayloadKind) : list byte :=
  match k with
  | AdmissionPayloadRawTransaction => str "raw-transaction" | AdmissionPayloadMerklePath => str "merkle-path"
  | AdmissionPayloadBEEFManifest => str "beef-manifest" | AdmissionPayloadLockingScript => str "locking-script"
  | AdmissionPayloadOutboxData => str "outbox-data" | AdmissionPayloadOther s => s
  end.

Definition validOwner (owner : ReferenceOwner) : bool :=
  validText (ownerKey owner) && match ownerKind owner with ReferenceOther _ => false | _ => true end.

Section Store.
Context (s : Store).

(** ** The identifiers of documents *)

Definition outputID (topic : list byte) (outpoint : AdmissionOutpoint) : list byte :=
  let index := match encodeOutpointIndex (opOutputIndex outpoint) with Ok i => i | _ => opOutputIndex outpoint end in
  tupleID [str "output"; scopeID s; topic; opTxID outpoint; index].

Definition edgeID (topic : list byte) (edge : AdmissionEdge) : list byte :=
  let encoded i := match encodeOutpointIndex i with Ok t => t | _ => [] end in
  tupleID [str "edge"; scopeID s; topic; opTxID (Source edge); encoded (opOutputIndex (Source edge));
           opTxID (Consumer edge); encoded (opOutputIndex (Consumer edge))].

Definition appliedID (topic txid : list byte) : list byte := tupleID [str "applied"; scopeID s; topic; txid].
Definition outboxID (eventID : list byte) : list byte := tupleID [str "outbox"; scopeID s; eventID].
Definition readID (topic key : list byte) : list byte := tupleID [str "read"; scopeID s; topic; key].
Definition fenceID (topic : list byte) : list byte := tupleID [str "fence"; scopeID s; topic].
Definition leaseID (lease : RecoveryLease) : list byte :=
  tupleID [str "lease"; scopeID s; lTopic lease; PeerID lease; JobID lease].
Definition cursorID (host topic : list byte) : list byte := tupleID [str "cursor"; scopeID s; host; topic].
Definition transactionID (txid : list byte) : list byte := tupleID [str "transaction"; chainID s; txid].
Definition clockID : list byte := tupleID [str "clock"; scopeID s].
Definition payloadID (ref : AdmissionPayloadRef) : list byte := tupleID [str "payload"; chainID s; Digest ref].
Definition referenceID (ref : AdmissionPayloadRef) (owner : ReferenceOwner) : list byte :=
  tupleID [str "reference"; scopeID s; ownerKindText (ownerKind owner); ownerKey owner; Digest ref; payloadKindText (Kind ref)].
Definition operationID (key : AdmissionOperationKey) : list byte := tupleID [str "operation"; scopeID s; OperationID key].

Definition validatePayload (ref : AdmissionPayloadRef) : result Z :=
  if negb (validHash (Digest ref)) then Err ErrInvalidPayload
  else match Kind ref with
  | AdmissionPayloadOther _ => Err ErrInvalidPayload
  | _ =>
      match ParseStorageUint64 (ByteLength ref) with
      | Ok length => if MaxPayloadBytes (config s) <? length then Err ErrInvalidPayload else Ok length
      | _ => Err ErrInvalidPayload
      end
  end.

End Store.

(** ** Numbers of a fixed width *)

Lemma value_cons b s : forallb is_digit s = true -> value (b :: s) = digit_value b * 10 ^ len s + value s.
Proof.
  induction s as [|c s IH] using rev_ind; intros Hs; [change (value [b]) with (0 * 10 + digit_value b); change (len (@nil byte)) with 0; change (value []) with 0; lia|].
  rewrite forallb_app, andb_true_iff in Hs. destruct Hs as [Hs _].
  rewrite app_comm_cons, !value_snoc, IH, len_app by done. change (len [c]) with 1. rewrite Z.pow_add_r by (try apply len_nonneg; lia). lia.
Qed.

Lemma value_zeros k s : forallb is_digit s = true -> value (replicate k (digit 0) ++ s) = value s.
Proof.
  intros Hs. induction k as [|k IH]; [done|]. cbn [replicate app]. rewrite value_cons, IH; [done|].
  rewrite forallb_app, Hs, andb_true_r. apply forallb_forall. intros b Hb%list_elem_of_In. by apply elem_of_replicate in Hb as [-> _].
Qed.

Lemma fixed20_spec n : is_u64 n -> length (fixed20 n) = 20%nat /\ forallb is_digit (fixed20 n) = true /\ value (fixed20 n) = n.
Proof.
  intros Hn. destruct (FormatUint_spec n Hn) as [Hv (Hd & _)]. pose proof (format_length 20 n) as Hl. fold (FormatUint n) in Hl. unfold fixed20.
  split_and!; [rewrite length_app, length_replicate; lia| |by rewrite value_zeros].
  rewrite forallb_app, Hd, andb_true_r. apply forallb_forall. intros b Hb%list_elem_of_In. by apply elem_of_replicate in Hb as [-> _].
Qed.

(** Strings of digits of one width are ordered as their values. *)
Lemma digits_order s t :
  length s = length t -> forallb is_digit s = true -> forallb is_digit t = true -> bytes_leb s t = true <-> value s <= value t.
Proof.
  revert t. induction s as [|a s IH]; intros [|b t] Hl Hs Ht; try done. cbn [forallb] in *. apply andb_true_iff in Hs as [Ha Hs], Ht as [Hb Ht].
  injection Hl as Hl. rewrite !value_cons by done. replace (len t) with (len s) by (unfold len; lia).
  pose proof (value_bound s Hs) as Vs. pose proof (value_bound t Ht) as Vt. replace (len t) with (len s) in Vt by (unfold len; lia).
  destruct (digit_digit_value a Ha) as [_ Da], (digit_digit_value b Hb) as [_ Db]. specialize (IH t Hl Hs Ht). unfold digit_value in *.
  cbn [bytes_leb]. destruct (Z.ltb_spec (val a) (val b)), (Z.ltb_spec (val b) (val a)).
  - lia.
  - split; [intros _; nia|done].
  - split; [done|nia].
  - rewrite IH. replace (val a) with (val b) by lia. lia.
Qed.

Lemma digits_inj s t :
  length s = length t -> forallb is_digit s = true -> forallb is_digit t = true -> value s = value t -> s = t.
Proof. intros Hl Hs Ht E. apply bytes_leb_antisym; apply digits_order; (done || lia). Qed.

Lemma EncodeUint64_Ok v t : EncodeUint64 v = Ok t <-> exists n, is_u64 n /\ v = FormatUint n /\ t = fixed20 n.
Proof.
  unfold EncodeUint64. rewrite bind_Ok. split.
  - intros (n & [Hn ->]%ParseStorageUint64_Ok & [= <-]). by exists n.
  - intros (n & Hn & -> & ->). exists n. by rewrite ParseStorageUint64_Ok.
Qed.

Lemma EncodeUint64_Err v e : EncodeUint64 v = Err e -> e = ErrInvalidStorageUint64.
Proof. unfold EncodeUint64. destruct (ParseStorageUint64_cases v) as [->|[n ->]]; [by intros [= <-]|done]. Qed.

Lemma DecodeUint64_Ok t v : DecodeUint64 t = Ok v <-> exists n, is_u64 n /\ v = FormatUint n /\ t = fixed20 n.
Proof.
  unfold DecodeUint64, ParseUint. split.
  - destruct (Z.eqb_spec (len t) 20) as [Hl|]; [|done]. cbn [negb]. destruct (forallb is_digit t) eqn:Hd; [|done]. cbn [negb].
    rewrite Hl. cbn [Z.eqb orb]. destruct (Z.ltb_spec MaxUint64 (value t)) as [|Hv]; [done|]. intros [= <-]. exists (value t).
    assert (Hn : is_u64 (value t)) by (pose proof (value_bound t Hd); unfold is_u64; lia).
    destruct (fixed20_spec _ Hn) as (Hl' & Hd' & Hv'). split_and!; [done..|]. apply digits_inj; (done || unfold len in Hl; lia).
  - intros (n & Hn & -> & ->). destruct (fixed20_spec n Hn) as (Hl & Hd & Hv). unfold len. rewrite Hl, Hd, Hv. cbn.
    destruct (Z.ltb_spec MaxUint64 n); [unfold is_u64 in Hn; lia|done].
Qed.

Lemma fixed20_inj n m : is_u64 n -> is_u64 m -> fixed20 n = fixed20 m -> n = m.
Proof. intros Hn Hm E. destruct (fixed20_spec n Hn) as (_ & _ & <-), (fixed20_spec m Hm) as (_ & _ & <-). by rewrite E. Qed.

Lemma fixed20_order n m : is_u64 n -> is_u64 m -> bytes_leb (fixed20 n) (fixed20 m) = true <-> n <= m.
Proof.
  intros Hn Hm. destruct (fixed20_spec n Hn) as (Ln & Dn & Vn), (fixed20_spec m Hm) as (Lm & Dm & Vm). rewrite digits_order by (done || lia). by rewrite Vn, Vm.
Qed.

(** Numbers survive storage and keep their order.  The stored texts are in bijection
    with the canonical numbers: a text decodes to a number exactly when the number encodes
    to the text, and the encoding is total on the canonical numbers of 64 bits, the
    largest included.  Stored texts have 20 digits, and the bytewise order that the
    database sorts and compares them by is the order of the numbers. *)
Theorem stored_numbers :
  (forall v t, EncodeUint64 v = Ok t <-> DecodeUint64 t = Ok v) /\
  (forall v, is_ok (EncodeUint64 v) = is_ok (ParseStorageUint64 v)) /\
  (forall n m tn tm, is_u64 n -> is_u64 m -> EncodeUint64 (FormatUint n) = Ok tn -> EncodeUint64 (FormatUint m) = Ok tm ->
     length tn = 20%nat /\ (bytes_leb tn tm = true <-> n <= m)).
Proof.
  split_and!.
  - intros v t. by rewrite EncodeUint64_Ok, DecodeUint64_Ok.
  - intros v. unfold EncodeUint64. by destruct (ParseStorageUint64 v).
  - intros n m tn tm Hn Hm (n' & Hn' & En & ->)%EncodeUint64_Ok (m' & Hm' & Em & ->)%EncodeUint64_Ok.
    apply FormatUint_inj in En as <-; [|done..]. apply FormatUint_inj in Em as <-; [|done..].
    split; [apply (fixed20_spec n Hn)|by apply fixed20_order].
Qed.

(** A token is followed by the next number, until the numbers are exhausted. *)
Lemma nextToken_spec n : is_u64 n -> nextToken (fixed20 n) = if n =? MaxUint64 then Err ErrConflict else Ok (fixed20 (n + 1)).
Proof.
  intros Hn. unfold nextToken. replace (DecodeUint64 (fixed20 n)) with (Ok (FormatUint n)) by (symmetry; apply DecodeUint64_Ok; by exists n).
  cbn [mbind result_bind]. replace (ParseStorageUint64 (FormatUint n)) with (Ok n) by (symmetry; by apply ParseStorageUint64_Ok).
  destruct (Z.eqb_spec n MaxUint64); [done|]. apply EncodeUint64_Ok. exists (n + 1). unfold is_u64 in *. split_and!; [lia..|done|done].
Qed.

(** ** Identifiers *)

(** Keys with the same identifier are equal, or exhibit a collision of SHA-256. *)
Lemma tupleID_inj l1 l2 : Forall addressable l1 -> Forall addressable l2 ->
  tupleID l1 = tupleID l2 -> l1 = l2 \/ (frame l1 <> frame l2 /\ SHA256.Sum256 (frame l1) = SHA256.Sum256 (frame l2)).
Proof.
  intros H1 H2 E%hex_encode_inj%Hash_eq. destruct (decide (frame l1 = frame l2)) as [Ef|]; [left|by right]. by apply frame_inj.
Qed.

(** ** Configurations *)

Lemma orDefault_twice d n : d <> 0 -> orDefault d (orDefault d n) = orDefault d n.
Proof. intros Hd. unfold orDefault. destruct (Z.eqb_spec n 0); [by destruct (Z.eqb_spec d 0)|]. by destruct (Z.eqb_spec n 0). Qed.

Lemma outOfBounds_false c : outOfBounds c = false ->
  1 <= InlineLimit c <= MaxPayloadBytes c /\ MaxPayloadBytes c <= 2 ^ 40 /\
  0 < TransactionTimeout c /\ 0 < CommitTimeout c /\ TransactionTimeout c + CommitTimeout c < LeaseDuration c <= 24 * Hour /\
  1 <= MaxBodyAttempts c <= 10 /\ 1 <= MaxCommitAttempts c <= 10.
Proof.
  unfold outOfBounds. rewrite !orb_false_iff, !Z.ltb_ge, !Z.leb_gt. change (Z.shiftl 1 40) with (2 ^ 40). unfold Millisecond. lia.
Qed.

(** A configuration that is accepted is complete and within its bounds: the defaults
    have replaced the limits that were zero, a lease outlasts the two timeouts of a
    transaction together, at least one and at most ten attempts are made of each kind, and
    normalising again changes nothing; a limit that was given is kept; the scope is text and
    a hash, and the name of the database has no forbidden character. *)
Theorem normalized_config (c c' : Config) : normalizeConfig c = Ok c' ->
  normalizeConfig c' = Ok c' /\
  1 <= InlineLimit c' <= MaxPayloadBytes c' /\ MaxPayloadBytes c' <= 2 ^ 40 /\
  0 < TransactionTimeout c' /\ 0 < CommitTimeout c' /\ TransactionTimeout c' + CommitTimeout c' < LeaseDuration c' <= 24 * Hour /\
  1 <= MaxBodyAttempts c' <= 10 /\ 1 <= MaxCommitAttempts c' <= 10 /\
  validateScope (cfgScope c') = Ok tt /\ Database c' <> [] /\ (forall b, b ∈ Database c' -> b ∉ forbidden) /\
  (forall limit, limit ∈ [InlineLimit; MaxPayloadBytes; TransactionTimeout; CommitTimeout; LeaseDuration; MaxBodyAttempts; MaxCommitAttempts] ->
     limit c <> 0 -> limit c' = limit c).
Proof.
  unfold normalizeConfig. destruct (validateScope (cfgScope c)) as [[]|e|] eqn:Escope; [|done..].
  destruct (_ || _ || _) eqn:Edb; [done|]. destruct (outOfBounds (withDefaults c)) eqn:Eb; [done|]. intros [= <-].
  assert (Hid : withDefaults (withDefaults c) = withDefaults c).
  { unfold withDefaults. cbn. f_equal; apply orDefault_twice; by vm_compute. }
  change (cfgScope (withDefaults c)) with (cfgScope c). change (Database (withDefaults c)) with (Database c). rewrite Escope, Edb, Hid, Eb.
  apply orb_false_iff in Edb as [[Ename _]%orb_false_iff Eforbid]. apply bool_decide_eq_false in Ename.
  split; [done|]. apply outOfBounds_false in Eb. destruct Eb as (? & ? & ? & ? & ? & ? & ?). split_and!; try done; try lia.
  - intros b Hb Hf. eapply eq_true_false_abs; [|exact Eforbid]. apply existsb_exists. exists b. by rewrite <- list_elem_of_In, bool_decide_eq_true.
  - intros limit Hl. repeat (apply elem_of_cons in Hl as [->|Hl]; [unfold withDefaults, orDefault; cbn; intros ?; by case_match; [lia|]|]). by apply elem_of_nil in Hl.
Qed.

Module Example.

(** Everything is left to the defaults but the number of commits. *)
Definition given : Config := mkConfig (str "overlay") (mkScope (str "main") (replicate 64 Byte.x61) (str "node")) 0 0 0 0 0 0 5.

Lemma normalized_config_witness :
  match normalizeConfig given with Ok c => normalizeConfig c = Ok c /\ MaxCommitAttempts c = 5 /\ InlineLimit c = 262144 | _ => False end.
Proof.
  destruct (normalizeConfig given) as [c|e|] eqn:E; [|exfalso; revert E; vm_compute; discriminate|exfalso; revert E; vm_compute; discriminate].
  pose proof (normalized_config given c E) as (Hn & _). split; [exact Hn|]. revert E. vm_compute. intros [= <-]. split; reflexivity.
Defined.

End Example.

End MongoEncoding.
