(* ===== verification/MongoReceipt.v ===== *)
(** * pkg/storage/mongodb/operation.go: receipts and their JSON

    A receipt is stored as JSON in the row of its operation, and is checked when it is
    written and again when it is read. *)

From S2P Require Import Prelude Bytes Utf8 Decimal Json Text Unmarshal Admission AdmissionPlan MongoEncoding.
Import Json Text Unmarshal Admission AdmissionPlan MongoEncoding.
Open Scope Z_scope.

Module MongoReceipt.

Definition maxReceiptBytes : Z := Z.shiftl 1 20.

(** ** The adapter types *)

Record receiptIndexDocument := mkReceiptIndex { ridTarget : list byte; ridState : AdmissionIndexState }.

Record receiptDocument := mkReceiptDocument {
  rcOperationID : list byte; rcDigest : list byte; rcDurability : AdmissionDurability; rcSteak : list byte;
  rcIndexes : option (list receiptIndexDocument); rcPropagation : AdmissionPropagationState }.

Definition newReceiptDocument (r : AdmissionReceipt) : receiptDocument :=
  mkReceiptDocument (recOperationID r) (recDigest r) (Durability r) (Steak r)
    (map (fun i => mkReceiptIndex (indexTarget i) (indexState i)) <$> Indexes r) (Propagation r).

Definition receipt (saved : receiptDocument) : AdmissionReceipt :=
  mkReceipt (rcOperationID saved) (rcDigest saved) (rcDurability saved) (rcSteak saved)
    (map (fun i => mkIndexStatus (ridTarget i) (ridState i)) <$> rcIndexes saved) (rcPropagation saved).

(** ** JSON *)

Definition indexJSON (i : receiptIndexDocument) : json :=
  JObject [(str "target", JString (ridTarget i)); (str "state", JString (ridState i))].

Definition receiptMembers (d : receiptDocument) : list (list byte * json) :=
  [(str "operationId", JString (rcOperationID d)); (str "semanticDigest", JString (rcDigest d));
   (str "durability", JString (rcDurability d)); (str "steak", JString (rcSteak d));
   (str "indexes", match rcIndexes d with Some l => JArray (map indexJSON l) | None => JNull end);
   (str "propagation", JString (rcPropagation d))].

Definition receiptJSON (d : receiptDocument) : json := JObject (receiptMembers d).

(** A value into a string; null leaves what was there. *)
Definition decodeText (old v : list byte) : result (list byte) := if isNull v then Ok old else UnmarshalString v.

Fixpoint decodeIndexMembers (l : list (list byte * list byte)) (i : receiptIndexDocument) : result receiptIndexDocument :=
  match l with
  | [] => Ok i
  | (key, v) :: l' =>
      i ← (if named (str "target") key then t ← decodeText (ridTarget i) v; Ok (mkReceiptIndex t (ridState i))
           else if named (str "state") key then t ← decodeText (ridState i) v; Ok (mkReceiptIndex (ridTarget i) t)
           else Ok i);
      decodeIndexMembers l' i
  end.

(** The elements of the array of indexes, into what is in memory. *)
Fixpoint decodeIndexes (els : list (list byte)) (memory : list receiptIndexDocument) : result (list receiptIndexDocument) :=
  match els with
  | [] => Ok []
  | el :: els' =>
      let old := default (mkReceiptIndex [] []) (head memory) in
      i ← (if isNull el then Ok old else match objectMembers el with Some l => decodeIndexMembers l old | None => Err ErrJSON end);
      rest ← decodeIndexes els' (tail memory); Ok (i :: rest)
  end.

(** The receipt being decoded, and what its slice has left in memory beyond its elements. *)
Definition decodeReceiptMember (key v : list byte) (d : receiptDocument) (stale : list receiptIndexDocument) :
    result (receiptDocument * list receiptIndexDocument) :=
  let '(mkReceiptDocument operation digest durability steak indexes propagation) := d in
  if named (str "operationId") key then t ← decodeText operation v; Ok (mkReceiptDocument t digest durability steak indexes propagation, stale)
  else if named (str "semanticDigest") key then t ← decodeText digest v; Ok (mkReceiptDocument operation t durability steak indexes propagation, stale)
  else if named (str "durability") key then t ← decodeText durability v; Ok (mkReceiptDocument operation digest t steak indexes propagation, stale)
  else if named (str "steak") key then t ← decodeText steak v; Ok (mkReceiptDocument operation digest durability t indexes propagation, stale)
  else if named (str "indexes") key then
    if isNull v then Ok (mkReceiptDocument operation digest durability steak None propagation, [])
    else match arrayElements v with
    | None => Err ErrJSON
    | Some [] => Ok (mkReceiptDocument operation digest durability steak (Some []) propagation, [])
    | Some els =>
        let memory := default [] indexes ++ stale in
        l ← decodeIndexes els memory; Ok (mkReceiptDocument operation digest durability steak (Some l) propagation, drop (length l) memory)
    end
  else if named (str "propagation") key then t ← decodeText propagation v; Ok (mkReceiptDocument operation digest durability steak indexes t, stale)
  else Ok (d, stale).

Fixpoint decodeReceiptMembers (l : list (list byte * list byte)) (d : receiptDocument) (stale : list receiptIndexDocument) : result receiptDocument :=
  match l with
  | [] => Ok d
  | (key, v) :: l' => '(d, stale) ← decodeReceiptMember key v d stale; decodeReceiptMembers l' d stale
  end.

Definition emptyReceipt : receiptDocument := mkReceiptDocument [] [] [] [] None [].

(** [json.Unmarshal] into a receipt *)
Definition decodeReceipt (data : list byte) : result receiptDocument :=
  v ← document data;
  if isNull v then Ok emptyReceipt
  else match objectMembers v with Some l => decodeReceiptMembers l emptyReceipt [] | None => Err ErrJSON end.

(** ** Checks *)

Fixpoint validIndexes (l : list AdmissionIndexStatus) (targets : gset (list byte)) : bool :=
  match l with
  | [] => true
  | i :: l' =>
      validText (indexTarget i) && negb (bool_decide (indexTarget i ∈ targets)) &&
      (bool_decide (indexState i = AdmissionIndexVisible) || bool_decide (indexState i = AdmissionIndexPending)) &&
      validIndexes l' ({[ indexTarget i ]} ∪ targets)
  end.

Definition validReceipt (key : AdmissionOperationKey) (r : AdmissionReceipt) : bool :=
  bool_decide (recOperationID r = OperationID key) && bool_decide (recDigest r = SemanticDigest key) &&
  bool_decide (Durability r = AdmissionDurabilityAtomicLocal) && Utf8.Valid (Steak r) && (len (Steak r) <=? maxReceiptBytes) &&
  (len (default [] (Indexes r)) <=? 1024) &&
  (bool_decide (Propagation r = AdmissionPropagationNotRequested) || bool_decide (Propagation r = AdmissionPropagationPending)) &&
  validIndexes (default [] (Indexes r)) ∅.

Definition encodeReceipt (key : AdmissionOperationKey) (r : AdmissionReceipt) : result (list byte) :=
  if negb (validReceipt key r) then Err ErrInvalidOperation else
  let encoded := render (receiptJSON (newReceiptDocument r)) in
  if maxReceiptBytes <? len encoded then Err ErrInvalidOperation else Ok encoded.

(** The receipt of a row, as [operationResult] reads it. *)
Definition savedReceipt (key : AdmissionOperationKey) (data : option (list byte)) : result AdmissionReceipt :=
  match data with
  | None => Err ErrInvalidOperation
  | Some data =>
      if maxReceiptBytes <? len data then Err ErrInvalidOperation else
      saved ← decodeReceipt data;
      _ ← encodeReceipt key (receipt saved);
      Ok (receipt saved)
  end.

(** ** What is written is read *)

Lemma receipt_newReceiptDocument r : receipt (newReceiptDocument r) = r.
Proof.
  destruct r as [o d du st [l|] p]; [|done]. unfold receipt, newReceiptDocument. cbn. rewrite map_map. do 2 f_equal.
  transitivity (map id l); [|by rewrite list_fmap_id]. apply map_ext. by intros [].
Qed.

Lemma decodeText_quote old s : Utf8.Valid s = true -> decodeText old (quote s) = Ok s.
Proof. intros Hs. unfold decodeText. change (isNull (quote s)) with false. cbv iota. by apply UnmarshalString_quote. Qed.

Definition index_ok (i : receiptIndexDocument) : Prop := Utf8.Valid (ridTarget i) = true /\ Utf8.Valid (ridState i) = true.

Lemma indexJSON_ok i : index_ok i -> wf 1 (indexJSON i).
Proof. intros [H1 H2]. by repeat constructor. Qed.

Lemma decodeIndex_saved i old :
  index_ok i -> match objectMembers (render (indexJSON i)) with Some l => decodeIndexMembers l old | None => Err ErrJSON end = Ok i.
Proof.
  intros Hi. change (render (indexJSON i)) with (object (rendered [(str "target", JString (ridTarget i)); (str "state", JString (ridState i))])).
  destruct Hi as [H1 H2]. rewrite (objectMembers_render 0); [|apply rendered_ok; by repeat constructor|done].
  cbn [map decodeIndexMembers fst snd render]. change (named (str "target") (str "target")) with true. change (named (str "target") (str "state")) with false.
  change (named (str "state") (str "state")) with true. cbv iota.
  rewrite decodeText_quote by done. cbn [mbind result_bind ridTarget ridState]. rewrite decodeText_quote by done. by destruct i.
Qed.

Lemma decodeIndexes_saved l memory : Forall index_ok l -> decodeIndexes (map render (map indexJSON l)) memory = Ok l.
Proof.
  intros Hl. revert memory. induction Hl as [|i l Hi Hl IH]; intros memory; [done|]. cbn [map decodeIndexes].
  change (isNull (render (indexJSON i))) with false. cbv iota. rewrite decodeIndex_saved by done. cbn [mbind result_bind]. by rewrite IH.
Qed.

Record receipt_ok (d : receiptDocument) : Prop := {
  ro_operation : Utf8.Valid (rcOperationID d) = true; ro_digest : Utf8.Valid (rcDigest d) = true;
  ro_durability : Utf8.Valid (rcDurability d) = true; ro_steak : Utf8.Valid (rcSteak d) = true;
  ro_indexes : Forall index_ok (default [] (rcIndexes d)); ro_propagation : Utf8.Valid (rcPropagation d) = true }.

Lemma receiptMembers_ok d : receipt_ok d -> membersOk 2 (receiptMembers d).
Proof.
  intros [H1 H2 H3 H4 H5 H6]. unfold membersOk, receiptMembers. rewrite !Forall_cons. split_and!; try done. cbn [snd].
  destruct (rcIndexes d) as [l|]; [|done]. apply Forall_map. eapply Forall_impl; [exact H5|]. intros i. apply indexJSON_ok.
Qed.

(** Evaluates the comparisons of names. *)
Ltac names := repeat match goal with |- context [named ?a ?b] => let v := eval vm_compute in (named a b) in change (named a b) with v end; cbv iota beta.

Lemma decodeIndexes_member o dg du st pr l :
  Forall index_ok (default [] l) ->
  decodeReceiptMember (str "indexes") (render match l with Some l => JArray (map indexJSON l) | None => JNull end) (mkReceiptDocument o dg du st None pr) [] =
    Ok (mkReceiptDocument o dg du st l pr, []).
Proof.
  intros Hl. unfold decodeReceiptMember. names. destruct l as [l|]; [|done]. cbn [default] in Hl.
  change (isNull (render (JArray (map indexJSON l)))) with false. cbv iota. cbn [render].
  rewrite (arrayElements_render 1); [|apply Forall_map, Forall_map; eapply Forall_impl; [exact Hl|]; intros i Hi; by apply (render_value 1), indexJSON_ok|done].
  destruct l as [|i l]; [done|]. cbn [map]. cbv iota. change (render (indexJSON i) :: map render (map indexJSON l)) with (map render (map indexJSON (i :: l))).
  cbn [default app]. rewrite decodeIndexes_saved by done. cbn [mbind result_bind]. by rewrite drop_nil.
Qed.

(** Decodes the next member, a text. *)
Ltac member :=
  lazymatch goal with
  | |- context [decodeReceiptMember ?k (quote ?t) (mkReceiptDocument ?o ?dg ?du ?st ?ix ?pr) ?s] =>
      let E := fresh in
      eassert (E : decodeReceiptMember k (quote t) (mkReceiptDocument o dg du st ix pr) s = Ok _)
        by (unfold decodeReceiptMember; names; rewrite decodeText_quote by done; cbn [mbind result_bind]; reflexivity);
      rewrite E; clear E; cbn [mbind result_bind]
  end.

Lemma decodeReceipt_saved d : receipt_ok d -> decodeReceipt (render (receiptJSON d)) = Ok d.
Proof.
  intros Hd. pose proof (receiptMembers_ok d Hd) as Hm. unfold decodeReceipt.
  rewrite (document_value 3) by (try apply (render_value 3 (JObject _)); done). cbn [mbind result_bind].
  change (render (receiptJSON d)) with (object (rendered (receiptMembers d))). change (isNull (object _)) with false. cbv iota.
  rewrite (objectMembers_render 2) by (done || by apply rendered_ok). destruct Hd as [H1 H2 H3 H4 H5 H6]. destruct d as [o dg du st ix pr].
  unfold receiptMembers. cbn [map fst snd rcOperationID rcDigest rcDurability rcSteak rcIndexes rcPropagation decodeReceiptMembers] in *.
  cbn [render] in *. unfold emptyReceipt. do 4 member. rewrite decodeIndexes_member by done. cbn [mbind result_bind]. by member.
Qed.

(** ** What is encoded is in order *)

Lemma validText_valid t : validText t = true -> Utf8.Valid t = true.
Proof. unfold validText. rewrite !andb_true_iff. tauto. Qed.

Lemma validHash_valid t : validHash t = true -> Utf8.Valid t = true.
Proof.
  unfold validHash. rewrite andb_true_iff. intros [_ Ht]. apply Utf8.Valid_ascii. rewrite forallb_forall in Ht. apply Forall_forall.
  intros b Hb%list_elem_of_In%Ht. revert Hb. unfold lower_hex. destruct b; by vm_compute.
Qed.

Lemma validIndexes_ok l targets : validIndexes l targets = true -> Forall index_ok (map (fun i => mkReceiptIndex (indexTarget i) (indexState i)) l).
Proof.
  revert targets. induction l as [|i l IH]; intros targets; [constructor|]. cbn [validIndexes map]. rewrite !andb_true_iff, orb_true_iff, !bool_decide_eq_true.
  intros [[[Ht _] Hs] Hl]. constructor; [|by eapply IH]. split; [by apply validText_valid|]. cbn. by destruct Hs as [-> | ->].
Qed.

Lemma encodeReceipt_ok key r data :
  validText (OperationID key) = true -> validHash (SemanticDigest key) = true -> encodeReceipt key r = Ok data ->
  receipt_ok (newReceiptDocument r) /\ data = render (receiptJSON (newReceiptDocument r)) /\ len data <= maxReceiptBytes.
Proof.
  intros Hop Hdig. unfold encodeReceipt. destruct (validReceipt key r) eqn:Ev; [|done]. cbn [negb]. cbv zeta.
  destruct (Z.ltb_spec maxReceiptBytes (len (render (receiptJSON (newReceiptDocument r))))); [done|]. intros [= <-]. split_and!; [|done..].
  unfold validReceipt in Ev. rewrite !andb_true_iff, orb_true_iff, !bool_decide_eq_true in Ev. destruct Ev as [[[[[[[Eo Ed] Edu] Es] _] _] Ep] Ei].
  destruct r as [o dg du st ix pr]. cbn in *. subst o dg du. constructor; cbn; [by apply validText_valid|by apply validHash_valid|done|done| |by destruct Ep as [-> | ->]].
  destruct ix as [l|]; [|constructor]. by eapply validIndexes_ok.
Qed.

Lemma savedReceipt_encoded key r data :
  validText (OperationID key) = true -> validHash (SemanticDigest key) = true -> encodeReceipt key r = Ok data -> savedReceipt key (Some data) = Ok r.
Proof.
  intros Hop Hdig He. destruct (encodeReceipt_ok key r data Hop Hdig He) as (Hok & Edata & Hlen). unfold savedReceipt.
  destruct (Z.ltb_spec maxReceiptBytes (len data)); [lia|]. rewrite Edata, decodeReceipt_saved by done. cbn [mbind result_bind].
  by rewrite receipt_newReceiptDocument, He.
Qed.

(** A receipt survives its storage.  Whatever receipt is accepted for the key of an
    operation (its operation and its digest are those of the key, the steak is UTF-8, and
    its targets are different), the bytes that are stored are read back as the same
    receipt, with its steak and its indexes, and pass the checks that are made of what is
    read. *)
Theorem receipt_roundtrip key r data :
  validText (OperationID key) = true -> validHash (SemanticDigest key) = true -> encodeReceipt key r = Ok data -> savedReceipt key (Some data) = Ok r.
Proof. apply savedReceipt_encoded. Qed.

Module Example.

Definition key : AdmissionOperationKey := mkKey (mkScope (str "main") (replicate 64 Byte.x61) (str "node")) (str "operation") (replicate 64 Byte.x62).
Definition saved : AdmissionReceipt :=
  mkReceipt (str "operation") (replicate 64 Byte.x62) AdmissionDurabilityAtomicLocal (map (fun c => if isb Byte.x27 c then Byte.x22 else c) (str "{'tm_<a>':{}}"))
    (Some [mkIndexStatus (str "ls_a") AdmissionIndexPending; mkIndexStatus (str "ls_b") AdmissionIndexVisible]) AdmissionPropagationPending.

Lemma receipt_roundtrip_witness :
  match encodeReceipt key saved with Ok data => savedReceipt key (Some data) = Ok saved | _ => False end.
Proof.
  destruct (encodeReceipt key saved) as [data|e|] eqn:E; [|exfalso; revert E; by vm_compute..].
  apply receipt_roundtrip; [by vm_compute|by vm_compute|exact E].
Defined.

End Example.

End MongoReceipt.
