(* ===== verification/MongoDriver.v ===== *)
(** * The documents of pkg/storage/mongodb, and the driver

    The document structs of admission.go, operation.go, payload.go and storage.go, and
    what the store uses of go.mongodb.org/mongo-driver: collections, sessions and error
    labels are a class.  A filter is the predicate that its BSON says, an update the
    function; both are given the time of the server ([$$NOW]).  [MongoLaws] states the
    documented behaviour of the driver against the state that a majority read sees and
    that of the open transaction. *)

From stdpp Require Import sorting.
From S2P Require Import Prelude Bytes Decimal Runs Admission MongoEncoding.
Import Admission MongoEncoding.
Open Scope Z_scope.

(** A date, in milliseconds; the empty string and the zero are fields that are omitted. *)
Definition Time : Type := Z.
Definition ObjectID : Type := Z.

Record outputDocument := mkOutputDocument {
  od_ID : list byte; odScope : list byte; odTopic : list byte; odTxID : list byte; odOutputIndex : list byte;
  odSatoshis : list byte; odScore : list byte; EngineScore : Z; Spent : bool; Serving : bool; SpendVersion : list byte;
  SpentBy : list byte; odMerkleState : list byte; ScriptDigest : list byte; ScriptKind : list byte;
  ScriptOffset : list byte; ScriptLength : list byte; odBlockHeight : list byte; odBlockIndex : list byte;
  odMerkleRoot : list byte; odAncillary : list (list byte); odCreatedAt : Time; odUpdatedAt : Time }.

Record edgeDocument := mkEdgeDocument {
  ed_ID : list byte; edScope : list byte; edTopic : list byte; SourceTxID : list byte; SourceIndex : list byte;
  ConsumerTxID : list byte; ConsumerIndex : list byte; edCreatedAt : Time }.

Record appliedDocument := mkAppliedDocument {
  ad_ID : list byte; adScope : list byte; adTopic : list byte; adTxID : list byte; Proven : bool;
  FirstSeenHeight : list byte; ProofDigest : list byte; ProofKind : list byte; ProofLength : list byte;
  adBlockHeight : list byte; adBlockHash : list byte; adBlockIndex : list byte; adMerkleRoot : list byte;
  adCreatedAt : Time; adUpdatedAt : Time }.

Record fenceDocument := mkFenceDocument {
  fd_ID : list byte; fdScope : list byte; fdTopic : list byte; fdChainEpoch : list byte; fdGeneration : list byte;
  fdAffectedFromHeight : list byte; fdCheckpoint : list byte; fdCreatedAt : Time; fdUpdatedAt : Time }.

Record leaseDocument := mkLeaseDocument {
  ld_ID : list byte; ldScope : list byte; ldTopic : list byte; ldPeerID : list byte; ldJobID : list byte;
  ldChainEpoch : list byte; ldGeneration : list byte; ldToken : list byte; ldExpiresAtMS : list byte;
  ldCreatedAt : Time; ldUpdatedAt : Time }.

Record readDocument := mkReadDocument {
  rd_ID : list byte; rdScope : list byte; rdTopic : list byte; rdKey : list byte; ReadVersion : list byte;
  rdCreatedAt : Time; rdUpdatedAt : Time }.

Record payloadRefDocument := mkPayloadRefDocument { prDigest : list byte; prByteLength : list byte; prKind : list byte }.

Record outboxDocument := mkOutboxDocument {
  xd_ID : list byte; xdScope : list byte; xdEventID : list byte; xdKind : AdmissionOutboxKind; xdTarget : list byte;
  xdState : list byte; xdOperationID : list byte; xdPayloads : list payloadRefDocument; xdCreatedAt : Time; xdUpdatedAt : Time }.

Record operationDocument := mkOperationDocument {
  pd_ID : list byte; pdVersion : Z; pdScope : list byte; pdOperationID : list byte; pdDigest : list byte; pdState : list byte;
  Attempt : list byte; Owner : list byte; Token : list byte; LeaseUntil : Time; Guard : ObjectID;
  pdCreatedAt : Time; pdUpdatedAt : Time; pdReceipt : option (list byte) }.

Record payloadDocument := mkPayloadDocument {
  yd_ID : list byte; ydChain : list byte; ydDigest : list byte; ydLength : list byte; ydState : list byte;
  ydOwner : list byte; ydToken : list byte; ydLeaseUntil : Time; ydGuard : ObjectID; ydCreatedAt : Time;
  ydUpdatedAt : Time; FileID : ObjectID; Inline : option (list byte); BlobOwner : list byte; BlobToken : list byte }.

Record referenceDocument := mkReferenceDocument {
  nd_ID : list byte; ndChain : list byte; ndScope : list byte; ndDigest : list byte; ndLength : list byte;
  ndKind : AdmissionPayloadKind; ndOwnerKind : ReferenceOwnerKind; ndOwnerID : list byte; ndCreatedAt : Time }.

Record transactionDocument := mkTransactionDocument {
  td_ID : list byte; tdChain : list byte; tdTxID : list byte; BeefDigest : list byte; BeefLength : list byte;
  BeefKind : list byte; tdAncillary : list (list byte); tdCreatedAt : Time; tdUpdatedAt : Time }.

(** A cursor's [since] is a float64, by its bits. *)
Record cursorDocument := mkCursorDocument {
  cd_ID : list byte; cdScope : list byte; cdHost : list byte; cdTopic : list byte; Since : Z; cdCreatedAt : Time; cdUpdatedAt : Time }.

(** The clock that may be kept in the schema collection. *)
Record clockDocument := mkClockDocument { kd_ID : list byte; NowMS : list byte }.

(** The file of a payload in GridFS, and what its metadata say. *)
Record blobMetadata := mkBlobMetadata {
  bmChainID : list byte; bmDigest : list byte; bmByteLength : list byte; bmOwnerID : list byte; bmToken : list byte; bmState : list byte }.

Record storedBlobFile := mkStoredFile { sbLength : Z; sbChunkSize : Z; sbMetadata : blobMetadata }.

(** ** Collections *)

Inductive collection :=
  | payloads | references | operations | schema | outputs | edges | applied | transactions | outbox
  | reads | fences | leases | cursors.

#[global] Instance collection_eq_dec : EqDecision collection.
Proof. solve_decision. Defined.

Definition document (c : collection) : Type :=
  match c with
  | payloads => payloadDocument | references => referenceDocument | operations => operationDocument | schema => clockDocument
  | outputs => outputDocument | edges => edgeDocument | applied => appliedDocument | transactions => transactionDocument
  | outbox => outboxDocument | reads => readDocument | fences => fenceDocument | leases => leaseDocument | cursors => cursorDocument
  end.

Definition docID {c : collection} : document c -> list byte :=
  match c with
  | payloads => yd_ID | references => nd_ID | operations => pd_ID | schema => kd_ID | outputs => od_ID | edges => ed_ID
  | applied => ad_ID | transactions => td_ID | outbox => xd_ID | reads => rd_ID | fences => fd_ID | leases => ld_ID | cursors => cd_ID
  end.

(** The state of the database: the documents of each collection under their [_id], and
    the files of GridFS with the bytes of their chunks. *)
Record DB := mkDB {
  dbPayloads : gmap (list byte) payloadDocument; dbReferences : gmap (list byte) referenceDocument;
  dbOperations : gmap (list byte) operationDocument; dbSchema : gmap (list byte) clockDocument;
  dbOutputs : gmap (list byte) outputDocument; dbEdges : gmap (list byte) edgeDocument;
  dbApplied : gmap (list byte) appliedDocument; dbTransactions : gmap (list byte) transactionDocument;
  dbOutbox : gmap (list byte) outboxDocument; dbReads : gmap (list byte) readDocument;
  dbFences : gmap (list byte) fenceDocument; dbLeases : gmap (list byte) leaseDocument;
  dbCursors : gmap (list byte) cursorDocument;
  dbFiles : gmap ObjectID storedBlobFile; dbChunks : gmap ObjectID (list byte) }.

Definition docs (c : collection) (db : DB) : gmap (list byte) (document c) :=
  match c with
  | payloads => dbPayloads db | references => dbReferences db | operations => dbOperations db | schema => dbSchema db
  | outputs => dbOutputs db | edges => dbEdges db | applied => dbApplied db | transactions => dbTransactions db
  | outbox => dbOutbox db | reads => dbReads db | fences => dbFences db | leases => dbLeases db | cursors => dbCursors db
  end.

Definition put (c : collection) (m : gmap (list byte) (document c)) (db : DB) : DB :=
  let '(mkDB py rf op sc ou ed ap tr ob rd fe le cu fi ch) := db in
  match c return gmap (list byte) (document c) -> DB with
  | payloads => fun m => mkDB m rf op sc ou ed ap tr ob rd fe le cu fi ch
  | references => fun m => mkDB py m op sc ou ed ap tr ob rd fe le cu fi ch
  | operations => fun m => mkDB py rf m sc ou ed ap tr ob rd fe le cu fi ch
  | schema => fun m => mkDB py rf op m ou ed ap tr ob rd fe le cu fi ch
  | outputs => fun m => mkDB py rf op sc m ed ap tr ob rd fe le cu fi ch
  | edges => fun m => mkDB py rf op sc ou m ap tr ob rd fe le cu fi ch
  | applied => fun m => mkDB py rf op sc ou ed m tr ob rd fe le cu fi ch
  | transactions => fun m => mkDB py rf op sc ou ed ap m ob rd fe le cu fi ch
  | outbox => fun m => mkDB py rf op sc ou ed ap tr m rd fe le cu fi ch
  | reads => fun m => mkDB py rf op sc ou ed ap tr ob m fe le cu fi ch
  | fences => fun m => mkDB py rf op sc ou ed ap tr ob rd m le cu fi ch
  | leases => fun m => mkDB py rf op sc ou ed ap tr ob rd fe m cu fi ch
  | cursors => fun m => mkDB py rf op sc ou ed ap tr ob rd fe le m fi ch
  end m.

Lemma docs_put c m db : docs c (put c m db) = m.
Proof. by destruct db, c. Qed.

Lemma docs_put_other c c' m db : c <> c' -> docs c (put c' m db) = docs c db.
Proof. destruct db, c, c'; done. Qed.

Lemma put_put c m m' db : put c m (put c m' db) = put c m db.
Proof. by destruct db, c. Qed.

(** What is not in a collection of documents. *)
Definition files (db : DB) : gmap ObjectID storedBlobFile * gmap ObjectID (list byte) := (dbFiles db, dbChunks db).

Lemma files_put c m db : files (put c m db) = files db.
Proof. by destruct db, c. Qed.

Lemma put_docs c db : put c (docs c db) db = db.
Proof. by destruct db, c. Qed.

(** ** The driver *)

(** Whether a [context.Context] carries a session.  Deadlines and cancellation are part of
    the world: any call may fail. *)
Inductive Context := Plain | InSession.

Inductive label := TransientTransactionError | UnknownTransactionCommitResult.

#[global] Instance label_eq_dec : EqDecision label.
Proof. solve_decision. Defined.

(** Calls by [_id]: the identifier, and what else the filter asks of the document.  An
    upsert gives the update no document when there was none. *)
Class Mongo (W : Type) := {
  FindOne : Context -> forall c : collection, list byte -> (Time -> document c -> bool) -> Op W (document c);
  InsertOne : Context -> forall c : collection, document c -> Op W unit;
  UpdateOne : Context -> forall c : collection, list byte -> (Time -> document c -> bool) -> (Time -> document c -> document c) -> Op W Z;
  Upsert : Context -> forall c : collection, list byte -> (Time -> option (document c) -> document c) -> Op W unit;
  FindOneAndUpdate : Context -> forall c : collection, list byte -> (Time -> document c -> bool) ->
    (Time -> option (document c) -> document c) -> bool -> Op W (document c);
  DeleteOne : Context -> forall c : collection, list byte -> Op W Z;
  (* of other filters *)
  FindFirst : Context -> forall c : collection, (document c -> bool) -> Op W (document c);
  (* with the order of a sort, and a limit when it is positive *)
  Find : Context -> forall c : collection, (document c -> bool) -> option (document c -> document c -> bool) -> Z -> Op W (list (document c));
  DeleteMany : Context -> forall c : collection, (document c -> bool) -> Op W unit;
  CountDocuments : Context -> forall c : collection, (document c -> bool) -> Op W Z;
  (* sessions *)
  StartSession : Op W unit; StartTransaction : Op W unit; AbortTransaction : Op W unit; CommitTransaction : Op W unit;
  EndSession : bool -> Op W unit;
  (* the deadlines of a transaction and of its commit, time.Now, fresh identifiers *)
  WorkErr : Op W unit; CommitBudgetErr : Op W unit;
  Now : Op W Time; NewObjectID : Op W ObjectID; NewUUID : Op W (list byte);
  (* errors of the driver: their labels, if they carry labels *)
  ErrorLabels : error -> option (list label); IsTimeout : error -> bool; IsNetworkError : error -> bool }.

(** [errors.Is] and [errors.As] walk through joined and wrapped errors. *)
Fixpoint errorIs (e target : error) : bool :=
  match e with
  | ErrJoin e1 e2 => errorIs e1 target || errorIs e2 target
  | ErrBlobWriter e' => bool_decide (e = target) || errorIs e' target
  | _ => bool_decide (e = target)
  end.

(** [hasErrorLabel]: the labels of the first error that carries labels. *)
Fixpoint labelsOf (labels : error -> option (list label)) (e : error) : option (list label) :=
  match e with
  | ErrJoin e1 e2 => match labelsOf labels e1 with Some l => Some l | None => labelsOf labels e2 end
  | ErrBlobWriter e => labelsOf labels e
  | _ => labels e
  end.

Definition hasErrorLabel `{Mongo W} (e : error) (l : label) : bool :=
  match labelsOf ErrorLabels e with Some labels => bool_decide (l ∈ labels) | None => false end.

(** ** What is assumed of it *)

(** What a majority read sees, and the state of the open transaction; a transaction that
    the server has aborted has none. *)
Class MongoState (W : Type) := { durable : W -> DB; session : W -> option DB }.

(** The document of an identifier, if it satisfies the rest of a filter. *)
Definition matching {A} (cond : Time -> A -> bool) (now : Time) (o : option A) : option A :=
  match o with Some d => if cond now d then Some d else None | None => None end.

(** The first documents of an answer, when there is a limit. *)
Definition limited {A} (limit : Z) (l : list A) : list A := if 0 <? limit then take (Z.to_nat limit) l else l.

(** The effects of the calls: the answer and the state after it, if there is one. *)
Section Effects.
Context (c : collection).

Definition effect (A : Type) : Type := DB -> Time -> option (A * DB).

Definition store (id : list byte) (d : document c) (db : DB) : DB := put c (<[id := d]> (docs c db)) db.

Definition insertEffect (d : document c) : effect unit := fun db _ =>
  match docs c db !! docID d with None => Some (tt, store (docID d) d db) | Some _ => None end.

Definition updateEffect (id : list byte) (cond : Time -> document c -> bool) (u : Time -> document c -> document c) : effect Z := fun db now =>
  match matching cond now (docs c db !! id) with Some d => Some (1, store id (u now d) db) | None => Some (0, db) end.

Definition upsertEffect (id : list byte) (u : Time -> option (document c) -> document c) : effect unit := fun db now =>
  Some (tt, store id (u now (docs c db !! id)) db).

Definition findAndUpdateEffect (id : list byte) (cond : Time -> document c -> bool) (u : Time -> option (document c) -> document c) (upsert : bool) :
    effect (document c) := fun db now =>
  match matching cond now (docs c db !! id), docs c db !! id with
  | Some d, _ => Some (u now (Some d), store id (u now (Some d)) db)
  | None, None => if upsert then Some (u now None, store id (u now None) db) else None
  | None, Some _ => None
  end.

Definition deleteEffect (id : list byte) : effect Z := fun db _ =>
  match docs c db !! id with Some _ => Some (1, put c (delete id (docs c db)) db) | None => Some (0, db) end.

Definition deleteManyEffect (pred : document c -> bool) : effect unit := fun db _ =>
  Some (tt, put c (filter (fun p => pred p.2 = false) (docs c db)) db).

(** The effects are on documents. *)
Lemma store_files id d db : files (store id d db) = files db.
Proof. apply files_put. Qed.

Lemma insertEffect_files d db now a db' : insertEffect d db now = Some (a, db') -> files db' = files db.
Proof. unfold insertEffect. destruct (docs c db !! docID d); [done|]. intros [= _ <-]. apply store_files. Qed.

Lemma updateEffect_files id cond u db now a db' : updateEffect id cond u db now = Some (a, db') -> files db' = files db.
Proof. unfold updateEffect. destruct (matching _ _ _); intros [= _ <-]; [apply store_files|done]. Qed.

Lemma upsertEffect_files id u db now a db' : upsertEffect id u db now = Some (a, db') -> files db' = files db.
Proof. intros [= _ <-]. apply store_files. Qed.

Lemma findAndUpdateEffect_files id cond u b db now a db' : findAndUpdateEffect id cond u b db now = Some (a, db') -> files db' = files db.
Proof.
  unfold findAndUpdateEffect. destruct (matching _ _ _); [intros [= _ <-]; apply store_files|]. destruct (docs c db !! id); [done|].
  destruct b; [|done]. intros [= _ <-]. apply store_files.
Qed.

Lemma deleteEffect_files id db now a db' : deleteEffect id db now = Some (a, db') -> files db' = files db.
Proof. unfold deleteEffect. destruct (docs c db !! id); intros [= _ <-]; [apply files_put|done]. Qed.

Lemma deleteManyEffect_files pred db now a db' : deleteManyEffect pred db now = Some (a, db') -> files db' = files db.
Proof. intros [= _ <-]. apply files_put. Qed.

End Effects.

Section State.
Context {W : Type} `{MongoState W}.

Definition view (ctx : Context) (w : W) : option DB :=
  match ctx with Plain => Some (durable w) | InSession => session w end.

Definition same (w w' : W) : Prop := durable w' = durable w /\ session w' = session w.

(** The errors that the driver returns; they are not those of the store. *)
Definition foreign (e : error) : Prop :=
  match e with ErrExternal _ | ErrNoDocuments | ErrDuplicateKey | ErrContext _ => True | _ => False end.

(** A transaction that is still alive; its calls are not of GridFS. *)
Definition alive (w w' : W) : Prop := forall db', session w' = Some db' -> exists db, session w = Some db /\ files db' = files db.

(** A call that failed without an effect outside the transaction. *)
Definition untouched (ctx : Context) (w w' : W) : Prop :=
  durable w' = durable w /\ (ctx = Plain -> session w' = session w) /\ alive w w'.

Lemma same_alive w w' : session w' = session w -> alive w w'.
Proof. intros E db'. rewrite E. by exists db'. Qed.

Definition becomes (ctx : Context) (w w' : W) (db : DB) : Prop :=
  match ctx with
  | Plain => durable w' = db /\ session w' = session w
  | InSession => session w' = Some db /\ durable w' = durable w
  end.

Definition reading {A} (ctx : Context) (w w' : W) (r : result A) (answer : DB -> Time -> option A -> Prop) : Prop :=
  match r with
  | Ok a => same w w' /\ exists db now, view ctx w = Some db /\ answer db now (Some a)
  | Err ErrNoDocuments => same w w' /\ exists db now, view ctx w = Some db /\ answer db now None
  | Err e => foreign e /\ untouched ctx w w'
  | Panic => untouched ctx w w'
  end.

(** A write.  An error in a transaction leaves what is durable, and that of a duplicate
    key aborts the transaction; an error outside leaves open whether the write happened. *)
Definition writing {A} (ctx : Context) (w w' : W) (r : result A) (f : effect A) : Prop :=
  match r with
  | Ok a => exists db db' now, view ctx w = Some db /\ f db now = Some (a, db') /\ becomes ctx w w' db'
  | Err ErrNoDocuments => same w w'
  | Err e => foreign e /\
      match ctx with
      | InSession => untouched InSession w w' /\ (e = ErrDuplicateKey -> session w' = None)
      | Plain => session w' = session w /\
          (durable w' = durable w \/ (e <> ErrDuplicateKey /\ exists now a, f (durable w) now = Some (a, durable w')))
      end
  | Panic => untouched ctx w w'
  end.

End State.

(** The documented behaviour, as a single client sees it: nothing else writes between two
    calls of a run. *)
Class MongoLaws (W : Type) `{Mongo W, MongoState W} : Prop := {
  FindOne_law : forall ctx c id cond w r w', FindOne ctx c id cond w = (r, w') ->
    reading ctx w w' r (fun db now o => matching cond now (docs c db !! id) = o);
  FindFirst_law : forall ctx c pred w r w', FindFirst ctx c pred w = (r, w') ->
    reading ctx w w' r (fun db _ o => match o with
      | Some d => exists id, docs c db !! id = Some d /\ pred d = true
      | None => forall id d, docs c db !! id = Some d -> pred d = false end);
  Find_law : forall ctx c pred sort limit w r w', Find ctx c pred sort limit w = (r, w') ->
    reading ctx w w' r (fun db _ o => forall l, o = Some l -> exists all,
      all ≡ₚ filter (fun d => pred d = true) (map_to_list (docs c db)).*2 /\ l = limited limit all /\
      forall le, sort = Some le -> (forall a b, le a b || le b a = true) -> Sorted (fun a b => le a b = true) all);
  CountDocuments_law : forall ctx c pred w r w', CountDocuments ctx c pred w = (r, w') ->
    reading ctx w w' r (fun db _ o => forall n, o = Some n -> 0 <= n /\ (n = 0 <-> forall id d, docs c db !! id = Some d -> pred d = false));
  InsertOne_law : forall ctx c d w r w', InsertOne ctx c d w = (r, w') -> writing ctx w w' r (insertEffect c d);
  UpdateOne_law : forall ctx c id cond u w r w', UpdateOne ctx c id cond u w = (r, w') -> writing ctx w w' r (updateEffect c id cond u);
  Upsert_law : forall ctx c id u w r w', Upsert ctx c id u w = (r, w') -> writing ctx w w' r (upsertEffect c id u);
  FindOneAndUpdate_law : forall ctx c id cond u upsert w r w', FindOneAndUpdate ctx c id cond u upsert w = (r, w') ->
    writing ctx w w' r (findAndUpdateEffect c id cond u upsert);
  DeleteOne_law : forall ctx c id w r w', DeleteOne ctx c id w = (r, w') -> writing ctx w w' r (deleteEffect c id);
  DeleteMany_law : forall ctx c pred w r w', DeleteMany ctx c pred w = (r, w') -> writing ctx w w' r (deleteManyEffect c pred);
  StartSession_law : forall w r w', StartSession w = (r, w') -> durable w' = durable w /\ forall e, r = Err e -> foreign e;
  StartTransaction_law : forall w r w', StartTransaction w = (r, w') ->
    durable w' = durable w /\ (r = Ok tt -> session w' = Some (durable w)) /\ forall e, r = Err e -> foreign e;
  AbortTransaction_law : forall w r w', AbortTransaction w = (r, w') -> durable w' = durable w /\ forall e, r = Err e -> foreign e;
  (* an error leaves open whether the transaction was committed, unless its label says so *)
  CommitTransaction_law : forall w r w', CommitTransaction w = (r, w') ->
    session w' = session w /\
    match r with
    | Ok _ => session w = Some (durable w')
    | Err e => foreign e /\ (durable w' = durable w \/ session w = Some (durable w') /\ hasErrorLabel e TransientTransactionError = false)
    | Panic => durable w' = durable w
    end;
  EndSession_law : forall b w r w', EndSession b w = (r, w') -> durable w' = durable w;
  WorkErr_law : forall w r w', WorkErr w = (r, w') -> same w w' /\ forall e, r = Err e -> foreign e;
  CommitBudgetErr_law : forall w r w', CommitBudgetErr w = (r, w') -> same w w';
  Now_law : forall w r w', Now w = (r, w') -> same w w' /\ forall e, r <> Err e;
  NewObjectID_law : forall w r w', NewObjectID w = (r, w') -> same w w' /\ forall e, r <> Err e;
  (* an identifier is new: no payload has it *)
  NewObjectID_fresh : forall w u w', NewObjectID w = (Ok u, w') -> u <> 0 /\ forall id d, docs payloads (durable w) !! id = Some d -> FileID d <> u;
  NewUUID_law : forall w r w', NewUUID w = (r, w') -> same w w' /\ (forall e, r <> Err e) /\ forall u, r = Ok u -> validText u = true }.
