(* ===== verification/MongoModel.v ===== *)
(** * A small database

    A concrete driver on which the witnesses of the MongoDB files run: one client, a
    counter for identifiers, and a script of what goes wrong with the next commits. *)

From stdpp Require Import sorting.
From S2P Require Import Prelude Bytes Utf8 Decimal Runs Traced Admission MongoEncoding MongoDriver.
Open Scope Z_scope.

Import MongoEncoding.

Module MongoModel.

(** What happens to a commit: it is applied, and the error of the list is returned, or it is not applied. *)
Inductive fault := Applied (code : Z) | Dropped (code : Z).

(** With the uploads that are open, and how far each file was read. *)
Record world := mkWorld { wDurable : DB; wSession : option DB; wNext : Z; wFaults : list fault;
  wUploads : gmap ObjectID (blobMetadata * list byte); wPositions : gmap ObjectID nat }.

Definition setState (db : DB) (session : option DB) (w : world) : world := mkWorld db session (wNext w) (wFaults w) (wUploads w) (wPositions w).
Definition setNext (n : Z) (w : world) : world := mkWorld (wDurable w) (wSession w) n (wFaults w) (wUploads w) (wPositions w).
Definition setFaults (fs : list fault) (w : world) : world := mkWorld (wDurable w) (wSession w) (wNext w) fs (wUploads w) (wPositions w).

Definition emptyDB : DB := mkDB ∅ ∅ ∅ ∅ ∅ ∅ ∅ ∅ ∅ ∅ ∅ ∅ ∅ ∅ ∅.

#[global] Instance modelState : MongoState world := {| durable := wDurable; session := wSession |}.

(** The clock of the server. *)
Definition now : Time := 1000.

Definition at_view (ctx : Context) (w : world) : option DB := match ctx with Plain => Some (wDurable w) | InSession => wSession w end.

Definition write_view (ctx : Context) (db : DB) (w : world) : world :=
  match ctx with
  | Plain => setState db (wSession w) w
  | InSession => setState (wDurable w) (Some db) w
  end.

(** The server aborts a transaction on the error of a duplicate key. *)
Definition doom (ctx : Context) (w : world) : world :=
  match ctx with Plain => w | InSession => setState (wDurable w) None w end.

Definition noTransaction : error := ErrExternal 1.

Definition labels (e : error) : option (list label) :=
  if bool_decide (e = noTransaction) then Some [TransientTransactionError] else None.

Definition transient (e : error) : bool :=
  match labelsOf labels e with Some l => bool_decide (TransientTransactionError ∈ l) | None => false end.

Definition reader {A} (answer : DB -> option A) (ctx : Context) : Op world A := fun w =>
  match at_view ctx w with
  | None => (Err noTransaction, w)
  | Some db => (match answer db with Some a => Ok a | None => Err ErrNoDocuments end, w)
  end.

Definition writer {A} (f : effect A) (missing : error) (ctx : Context) : Op world A := fun w =>
  match at_view ctx w with
  | None => (Err noTransaction, w)
  | Some db =>
      match f db now with
      | Some (a, db') => (Ok a, write_view ctx db' w)
      | None => (Err missing, if bool_decide (missing = ErrDuplicateKey) then doom ctx w else w)
      end
  end.

Definition fine : Op world unit := fun w => (Ok tt, w).

(** An identifier that no payload has. *)
Definition freshID (w : world) : ObjectID := 1 + foldr Z.max (Z.max 0 (wNext w)) (FileID <$> (map_to_list (dbPayloads (wDurable w))).*2).

Lemma foldr_max_le n l x : x ∈ n :: l -> x <= foldr Z.max n l.
Proof. intros [->|Hx]%elem_of_cons; induction l as [|y l IH]; cbn [foldr]; [lia|lia|by apply elem_of_nil in Hx|]. apply elem_of_cons in Hx as [->|Hx]; [lia|specialize (IH Hx); lia]. Qed.

Lemma freshID_fresh w : freshID w <> 0 /\ forall id d, docs payloads (wDurable w) !! id = Some d -> FileID d <> freshID w.
Proof.
  unfold freshID. split.
  - pose proof (foldr_max_le (Z.max 0 (wNext w)) (FileID <$> (map_to_list (dbPayloads (wDurable w))).*2) (Z.max 0 (wNext w)) ltac:(by left)). lia.
  - intros id d Hd E. assert (Hin : FileID d ∈ Z.max 0 (wNext w) :: (FileID <$> (map_to_list (dbPayloads (wDurable w))).*2)).
    { right. apply list_elem_of_fmap. exists d. split; [done|]. apply list_elem_of_fmap. exists (id, d). split; [done|]. by apply elem_of_map_to_list. }
    apply foldr_max_le in Hin. lia.
Qed.

Definition comes {A} (le : A -> A -> bool) : relation A := fun a b => le a b = true.

#[local] Instance comes_dec {A} (le : A -> A -> bool) : RelDecision (comes le).
Proof. intros a b. unfold comes. solve_decision. Defined.

Definition ordered {A} (sort : option (A -> A -> bool)) (l : list A) : list A :=
  match sort with Some le => merge_sort (comes le) l | None => l end.

Lemma ordered_perm {A} sort (l : list A) : ordered sort l ≡ₚ l.
Proof. destruct sort; [apply merge_sort_Permutation|done]. Qed.

Lemma ordered_sorted {A} (le : A -> A -> bool) l : (forall a b, le a b || le b a = true) -> Sorted (comes le) (ordered (Some le) l).
Proof.
  intros Ht. assert (Total (comes le)) by (intros a b; unfold comes; specialize (Ht a b); apply orb_true_iff in Ht; tauto).
  by apply Sorted_merge_sort.
Qed.

#[global] Instance model : Mongo world := {|
  FindOne ctx c id cond := reader (fun db => matching cond now (docs c db !! id)) ctx;
  FindFirst ctx c pred := reader (fun db => head (List.filter pred (map_to_list (docs c db)).*2)) ctx;
  Find ctx c pred sort limit := reader (fun db => Some (limited limit (ordered sort (filter (fun d => pred d = true) (map_to_list (docs c db)).*2)))) ctx;
  CountDocuments ctx c pred := reader (fun db => Some (Z.of_nat (length (List.filter pred (map_to_list (docs c db)).*2)))) ctx;
  InsertOne ctx c d := writer (insertEffect c d) ErrDuplicateKey ctx;
  UpdateOne ctx c id cond u := writer (updateEffect c id cond u) ErrNoDocuments ctx;
  Upsert ctx c id u := writer (upsertEffect c id u) ErrNoDocuments ctx;
  FindOneAndUpdate ctx c id cond u upsert := writer (findAndUpdateEffect c id cond u upsert) (if upsert then ErrDuplicateKey else ErrNoDocuments) ctx;
  DeleteOne ctx c id := writer (deleteEffect c id) ErrNoDocuments ctx;
  DeleteMany ctx c pred := writer (deleteManyEffect c pred) ErrNoDocuments ctx;
  StartSession := fine;
  StartTransaction := fun w => (Ok tt, setState (wDurable w) (Some (wDurable w)) w);
  AbortTransaction := fun w => (Ok tt, setState (wDurable w) None w);
  CommitTransaction := fun w =>
    match wSession w, wFaults w with
    | None, _ => (Err noTransaction, w)
    | Some db, [] => (Ok tt, setState db (wSession w) w)
    | Some db, Applied n :: fs =>
        (Err (ErrExternal n), setFaults fs (setState (if transient (ErrExternal n) then wDurable w else db) (wSession w) w))
    | Some db, Dropped n :: fs => (Err (ErrExternal n), setFaults fs w)
    end;
  EndSession _ := fun w => (Ok tt, setState (wDurable w) None w);
  WorkErr := fine; CommitBudgetErr := fine;
  Now := fun w => (Ok now, w);
  NewObjectID := fun w => (Ok (freshID w), setNext (freshID w) w);
  NewUUID := fun w => (Ok (str "uuid-" ++ fixed20 (u64 (wNext w))), setNext (wNext w + 1) w);
  ErrorLabels := labels;
  IsTimeout e := false; IsNetworkError e := bool_decide (e = ErrExternal 2) |}.

Lemma uuid_text n : validText (str "uuid-" ++ fixed20 (u64 n)) = true.
Proof.
  assert (Hn : is_u64 (u64 n)) by (unfold is_u64, u64, MaxUint64; pose proof (Z.mod_pos_bound n (2 ^ 64)); lia).
  destruct (fixed20_spec _ Hn) as (Hl & Hd & _). rewrite forallb_forall in Hd. assert (E : len (str "uuid-" ++ fixed20 (u64 n)) = 25) by (rewrite len_app; unfold len; by rewrite Hl).
  unfold validText. rewrite E. change (0 <? 25) with true. change (25 <=? 1024) with true. cbn [andb].
  assert (Hall : forall b, b ∈ str "uuid-" ++ fixed20 (u64 n) -> val b < 0x80 /\ b <> Byte.x00).
  { intros b [Hb|Hb%list_elem_of_In%Hd]%elem_of_app.
    - revert b Hb. apply Forall_forall. by repeat constructor.
    - revert Hb. unfold is_digit. destruct b; by vm_compute. }
  rewrite Utf8.Valid_ascii by (apply Forall_forall; intros b Hb; by apply Hall). cbn [andb]. destruct (existsb _ _) eqn:He; [|done].
  apply existsb_exists in He as (b & Hb%list_elem_of_In & Eb%bool_decide_eq_true). by apply Hall in Hb as [_ Hne].
Qed.

Lemma same_refl w : same w w.
Proof. done. Qed.

Lemma reader_law {A} (f : DB -> option A) ctx (answer : DB -> Time -> option A -> Prop) w r w' :
  (forall db, answer db now (f db)) -> reader f ctx w = (r, w') -> reading ctx w w' r answer.
Proof.
  intros Hf. unfold reader. destruct (at_view ctx w) as [db|] eqn:Ev; intros [= <- <-]; [|split; [done|split_and!; [done|done|by apply same_alive]]].
  assert (Hv : view ctx w = Some db) by (by destruct ctx). specialize (Hf db). destruct (f db); (split; [apply same_refl|]); by exists db, now.
Qed.

Lemma writer_law {A} (f : effect A) missing ctx w r w' :
  missing = ErrNoDocuments \/ missing = ErrDuplicateKey -> writer f missing ctx w = (r, w') -> writing ctx w w' r f.
Proof.
  intros Hm. unfold writer. destruct (at_view ctx w) as [db|] eqn:Ev.
  - assert (Hv : view ctx w = Some db) by (by destruct ctx). destruct (f db now) as [[a db']|] eqn:Ef; intros [= <- <-].
    + exists db, db', now. split_and!; [done|done|]. by destruct ctx.
    + destruct Hm as [->| ->]; [done|]. cbn. split; [done|]. destruct ctx; cbn; [by split; [|left]|]. by split; [split_and!|].
  - intros [= <- <-]. destruct ctx; [done|]. cbn. split; [done|]. split; [|done]. split_and!; [done|done|by apply same_alive].
Qed.

#[global] Instance laws : MongoLaws world.
Proof.
  constructor.
  - intros *. by apply reader_law.
  - intros *. apply reader_law. intros db. destruct (List.filter pred _) as [|d l] eqn:El; cbn.
    + intros id d Hd. destruct (pred d) eqn:Ep; [|done]. exfalso. assert (Hin : In d []); [|done]. rewrite <- El. apply filter_In. split; [|done].
      apply list_elem_of_In, list_elem_of_fmap. exists (id, d). split; [done|]. by apply elem_of_map_to_list.
    + assert (Hin : In d (d :: l)) by (by left). rewrite <- El in Hin. apply filter_In in Hin as [Hin Hp]. apply list_elem_of_In, list_elem_of_fmap in Hin as ([id d'] & -> & Hin).
      exists id. split; [by apply elem_of_map_to_list in Hin|done].
  - intros *. apply reader_law. intros db l [= <-]. eexists. split_and!; [apply ordered_perm|done|]. intros le -> Ht. by apply ordered_sorted.
  - intros *. apply reader_law. intros db n [= <-]. split; [lia|]. destruct (List.filter pred _) as [|d l] eqn:El.
    + split; [|done]. intros _ id d Hd. destruct (pred d) eqn:Ep; [|done]. exfalso. assert (Hin : In d []); [|done]. rewrite <- El. apply filter_In. split; [|done].
      apply list_elem_of_In, list_elem_of_fmap. exists (id, d). split; [done|]. by apply elem_of_map_to_list.
    + split; [done|]. intros Hall. exfalso. assert (Hin : In d (d :: l)) by (by left). rewrite <- El in Hin. apply filter_In in Hin as [Hin Hp]. apply list_elem_of_In, list_elem_of_fmap in Hin as ([id d'] & -> & Hin).
      apply elem_of_map_to_list in Hin. apply Hall in Hin. cbn in Hp. congruence.
  - intros *. apply writer_law. by right.
  - intros *. apply writer_law. by left.
  - intros *. apply writer_law. by left.
  - intros *. apply writer_law. destruct upsert; [by right|by left].
  - intros *. apply writer_law. by left.
  - intros *. apply writer_law. by left.
  - intros w r w' [= <- <-]. by split.
  - intros w r w' [= <- <-]. by split_and!.
  - intros w r w' [= <- <-]. by split.
  - intros w r w'. cbn. destruct (wSession w) as [db|] eqn:Es; [|intros [= <- <-]; split; [done|by split; [|left]]].
    destruct (wFaults w) as [|[n|n] fs]; intros [= <- <-]; cbn; rewrite ?Es; split; try done; (split; [done|]); [|by left].
    destruct (transient (ErrExternal n)) eqn:Eb; [by left|]. right. split; [done|]. exact Eb.
  - by intros b w r w' [= <- <-].
  - intros w r w' [= <- <-]. by split.
  - by intros w r w' [= <- <-].
  - intros w r w' [= <- <-]. by split.
  - intros w r w' [= <- <-]. by split.
  - intros w u w' [= <- <-]. apply freshID_fresh.
  - intros w r w' [= <- <-]. split_and!; [done|done|]. intros u [= <-]. apply uuid_text.
Qed.

End MongoModel.
