(* ===== verification/MongoTransaction.v ===== *)
(** * pkg/storage/mongodb/transaction.go: bodies, commits and their outcome

    The body of a transaction may be run again only when the transaction before it is known
    to be aborted; a commit whose result is unknown leaves the transaction pending.  The
    trace records the ends of bodies, aborts and attempts to commit. *)

From S2P Require Import Prelude Bytes Runs Traced Admission MongoEncoding MongoDriver MongoModel.
Open Scope Z_scope.

(** The bytes of payloads that are read, and those that a writer accepts, are on it too. *)
Inductive tevent :=
  | BodyDone (ok : bool) | AbortTried (r : result unit) | CommitTried (r : result unit)
  | Consumed (data : list byte) | Delivered (data : list byte).

Section Calls.
Context {W : Type}.
Local Abbreviation St := (St W tevent).
Local Abbreviation Run := (Runs.Run St).

(** A call that is not recorded. *)
Definition call {A} (op : Op W A) : Run A := fun s =>
  let '(r, w) := op (world s) in Some (r, mkSt w (trace s)).

(** The error of a call, to be looked at; a panic is not caught. *)
Definition attempt {A} (m : Run A) : Run (result A) := fun s =>
  match m s with
  | Some (Panic, s') => Some (Panic, s')
  | Some (r, s') => Some (Ok r, s')
  | None => None
  end.

(** [defer]: the rest runs however the body ends, and cannot change how it ended. *)
Definition deferred {A} (m : Run A) (rest : result A -> Run unit) : Run A := fun s =>
  match m s with
  | Some (r, s') => match rest r s' with Some (_, s'') => Some (r, s'') | None => None end
  | None => None
  end.

Lemma wp_driver {A} t (op : Op W A) s (Q : result A -> St -> Prop) :
  (forall r w, op (world s) = (r, w) -> Q r (mkSt w (trace s))) -> wp t (call op) s Q.
Proof. unfold wp, call. destruct (op (world s)) as [r w]. auto. Qed.

Lemma wp_attempted {A} t (m : Run A) s (Q : result (result A) -> St -> Prop) :
  wp t m s (fun r s' => match r with Panic => Q Panic s' | _ => Q (Ok r) s' end) -> wp t (attempt m) s Q.
Proof. unfold wp, attempt. destruct (m s) as [[[a|e|] s']|]; auto. Qed.

Lemma wp_afterwards {A} t (m : Run A) rest s (Q : result A -> St -> Prop) :
  wp t m s (fun r s' => wp t (rest r) s' (fun _ s'' => Q r s'')) -> wp t (deferred m rest) s Q.
Proof. unfold wp, deferred. destruct (m s) as [[r s']|]; [|auto]. by destruct (rest r s') as [[u s'']|]. Qed.

End Calls.

Module MongoTransaction.

Inductive transactionOutcome := transactionAborted | transactionCommitted | transactionPending.

#[global] Instance transactionOutcome_eq_dec : EqDecision transactionOutcome.
Proof. solve_decision. Defined.

Section Transaction.
Context {W : Type} `{Mongo W} (s : MongoEncoding.Store).
Local Abbreviation Run := (Runs.Run (St W tevent)).

Definition unknownCommitResult (err : error) : bool :=
  hasErrorLabel err UnknownTransactionCommitResult || IsTimeout err || errorIs err (ErrContext Canceled) || IsNetworkError err.

(** [errors.Join] with an error that may be nil. *)
Definition joinLast (e : error) (last : option error) : error :=
  match last with Some e' => ErrJoin e e' | None => e end.

(** The outcome, whether the body may be run again, and the error. *)
Fixpoint commitAttempts (n : nat) (ambiguous : bool) (lastErr : option error) : Run (transactionOutcome * bool * option error) :=
  match n with
  | O => mret (transactionPending, false, Some (joinLast ErrCommitPending lastErr))
  | S n' =>
      r ← attempt (observe CommitTransaction CommitTried);
      match r with
      | Ok _ => mret (transactionCommitted, false, None)
      | Err commitErr =>
          let ambiguous := ambiguous || unknownCommitResult commitErr in
          if negb ambiguous && hasErrorLabel commitErr TransientTransactionError
          then mret (transactionAborted, true, Some commitErr)
          else
            budget ← attempt (call CommitBudgetErr);
            match budget with
            | Err _ => mret (transactionPending, false, Some (joinLast ErrCommitPending (Some commitErr)))
            | _ => commitAttempts n' true (Some commitErr)
            end
      | Panic => lift Panic
      end
  end.

Definition commitTransactionAttempt : Run (transactionOutcome * bool * option error) :=
  commitAttempts (Z.to_nat (MongoEncoding.MaxCommitAttempts (MongoEncoding.config s))) false None.

(** [handleBodyFailure] and [abortTransactionAttempt] *)
Definition handleBodyFailure (bodyErr : error) : Run (bool * error) :=
  r ← attempt (observe AbortTransaction AbortTried);
  mret match r with
       | Err abortErr => (false, ErrJoin bodyErr abortErr)
       | _ => (hasErrorLabel bodyErr TransientTransactionError, bodyErr)
       end.

(** [runTransactionBody], with the end of the body on the trace. *)
Definition runTransactionBody {A} (body : Context -> Run A) : Run (result A) :=
  r ← attempt (body InSession);
  emit (BodyDone (is_ok r)) ≫= fun _ => mret r.

(** The attempts of [runTransaction]; the value is what the last body has assigned. *)
Fixpoint bodyAttempts {A} (n : nat) (body : Context -> Run A) (lastErr : option error) : Run (transactionOutcome * result A) :=
  match n with
  | O => mret (transactionAborted, Err (joinLast ErrRetryBudget lastErr))
  | S n' =>
      work ← attempt (call WorkErr);
      match work with
      | Ok _ =>
          start ← attempt (call StartTransaction);
          match start with
          | Ok _ =>
              r ← runTransactionBody body;
              match r with
              | Ok a =>
                  '(outcome, retry, commitErr) ← commitTransactionAttempt;
                  if (retry : bool) then bodyAttempts n' body commitErr
                  else mret (outcome, match commitErr with None => Ok a | Some e => Err e end)
              | Err bodyErr =>
                  '(retry, failErr) ← handleBodyFailure bodyErr;
                  if (retry : bool) then bodyAttempts n' body (Some failErr) else mret (transactionAborted, Err failErr)
              | Panic => lift Panic
              end
          | Err e => mret (transactionAborted, Err e)
          | Panic => lift Panic
          end
      | Err e => mret (transactionAborted, Err e)
      | Panic => lift Panic
      end
  end.

(** [endTransactionSession]: a pending transaction is ended without an abort. *)
Definition endTransactionSession {A} (r : result (transactionOutcome * A)) : Run unit :=
  call (EndSession (match r with Ok (transactionPending, _) => true | _ => false end)).

Definition runTransaction {A} (ctx : Context) (body : Context -> Run A) : Run (transactionOutcome * result A) :=
  match ctx with
  | InSession => mret (transactionAborted, Err ErrNestedTransaction)
  | Plain =>
      started ← attempt (call StartSession);
      match started with
      | Ok _ => deferred (bodyAttempts (Z.to_nat (MongoEncoding.MaxBodyAttempts (MongoEncoding.config s))) body None) endTransactionSession
      | Err e => mret (transactionAborted, Err e)
      | Panic => lift Panic
      end
  end.

(** ** The history of a transaction *)

(** An error of a commit that proves that the transaction was aborted. *)
Definition quiet (e : error) : bool := negb (unknownCommitResult e) && hasErrorLabel e TransientTransactionError.

Definition failures (es : list error) : list tevent := map (fun e => CommitTried (Err e)) es.

(** Attempts to commit after the first of them left the result open. *)
Definition open_result (es : list error) : Prop := match es with [] => True | e :: _ => quiet e = false end.

(** What [n] attempts may do, and their outcome; [m] bounds the attempts to commit. *)
Inductive history (m : nat) : nat -> list tevent -> transactionOutcome -> Prop :=
  | history_given_up n : history m n [] transactionAborted
  | history_body_failed n r : history m (S n) [BodyDone false; AbortTried r] transactionAborted
  | history_body_again n tr o : history m n tr o -> history m (S n) (BodyDone false :: AbortTried (Ok tt) :: tr) o
  | history_commit_again n e tr o : quiet e = true -> history m n tr o ->
      history m (S n) (BodyDone true :: CommitTried (Err e) :: tr) o
  | history_committed n es : open_result es -> (length es < m)%nat ->
      history m (S n) (BodyDone true :: failures es ++ [CommitTried (Ok tt)]) transactionCommitted
  | history_pending n es : open_result es -> es <> [] -> (length es <= m)%nat ->
      history m (S n) (BodyDone true :: failures es) transactionPending.

Local Abbreviation maxCommits := (Z.to_nat (MongoEncoding.MaxCommitAttempts (MongoEncoding.config s))).
Local Abbreviation maxBodies := (Z.to_nat (MongoEncoding.MaxBodyAttempts (MongoEncoding.config s))).

(** What the attempts to commit report, after the earlier ones [es]. *)
Definition commits (st st' : St W tevent) (es : list error) (r : result (transactionOutcome * bool * option error)) (n : nat) : Prop :=
  exists es', (length es' <= n)%nat /\ open_result (es ++ es') /\
  match r with
  | Ok (transactionCommitted, false, None) => trace st' = trace st ++ failures es' ++ [CommitTried (Ok tt)] /\ (length es' < n)%nat
  | Ok (transactionPending, false, Some e) => trace st' = trace st ++ failures es' /\ errorIs e ErrCommitPending = true /\ es ++ es' <> []
  | Panic => True
  | _ => False
  end.

Lemma pending_error last : errorIs (joinLast ErrCommitPending last) ErrCommitPending = true.
Proof. by destruct last. Qed.

Lemma commits_failed n e es st w st' r :
  commits (mkSt w (trace st ++ [CommitTried (Err e)])) st' (es ++ [e]) r n -> commits st st' es r (S n).
Proof.
  intros (es' & Hl & Ho & Hr). rewrite <- app_assoc in Ho, Hr. exists (e :: es'). split_and!; [cbn; lia|done|].
  destruct r as [[[[] []] []]|?|]; try done; cbn [trace] in Hr; rewrite <- app_assoc in Hr; destruct Hr as [Hr1 Hr2]; rewrite Hr1; (split; [done|]);
    [cbn; lia|done].
Qed.

Lemma commits_given_up n e es (st st' : St W tevent) :
  open_result (es ++ [e]) -> trace st' = trace st ++ [CommitTried (Err e)] ->
  commits st st' es (Ok (transactionPending, false, Some (joinLast ErrCommitPending (Some e)))) (S n).
Proof. intros Ho Et. exists [e]. split_and!; [cbn; lia|done|done|apply pending_error|by destruct es]. Qed.

Lemma commits_done n es st st' :
  open_result es -> trace st' = trace st ++ [CommitTried (Ok tt)] -> commits st st' es (Ok (transactionCommitted, false, None)) (S n).
Proof. intros Ho Et. exists []. rewrite app_nil_r. split_and!; [cbn; lia|done|done|cbn; lia]. Qed.

Lemma commits_panic n es st st' : open_result es -> commits st st' es Panic n.
Proof. intros Ho. exists []. rewrite app_nil_r. split_and!; [cbn; lia|done..]. Qed.

Lemma commitAttempts_open n e es st :
  open_result (es ++ [e]) -> wp true (commitAttempts n true (Some e)) st (fun r st' => commits st st' (es ++ [e]) r n).
Proof.
  revert e es st. induction n as [|n IH]; intros e es st Hopen; cbn [commitAttempts].
  - apply wp_ret. exists []. rewrite !app_nil_r. split_and!; [cbn; lia|done|done|apply pending_error|by destruct es].
  - apply wp_bind, wp_attempted, wp_observe. intros [[]|e'|] w _; [apply wp_ret; by apply commits_done| |by apply commits_panic].
    assert (Hopen' : open_result ((es ++ [e]) ++ [e'])) by (by destruct es).
    rewrite orb_true_l. cbn [negb andb]. apply wp_bind, wp_attempted, wp_driver. intros b w' _. cbn [world trace].
    assert (Hmore : wp true (commitAttempts n true (Some e')) (mkSt w' (trace st ++ [CommitTried (Err e')])) (fun r st' => commits st st' (es ++ [e]) r (S n))).
    { eapply wp_mono; [by apply IH|]. intros r st'. apply commits_failed. }
    destruct b as [[]|b|]; [exact Hmore|apply wp_ret; by apply commits_given_up|by apply commits_panic].
Qed.

(** The attempts of one transaction; the first is the only one that may ask for another body. *)
Definition concluded (m : nat) (st st' : St W tevent) (r : result (transactionOutcome * bool * option error)) : Prop :=
  commits st st' [] r m \/
  exists e, quiet e = true /\ r = Ok (transactionAborted, true, Some e) /\ trace st' = trace st ++ [CommitTried (Err e)].

Lemma commitTransactionAttempt_wp st : (0 < maxCommits)%nat -> wp true commitTransactionAttempt st (fun r st' => concluded maxCommits st st' r).
Proof.
  unfold commitTransactionAttempt. generalize maxCommits. intros [|n]; [lia|]. intros _. cbn [commitAttempts].
  apply wp_bind, wp_attempted, wp_observe. intros [[]|e|] w _; [apply wp_ret; left; by apply commits_done| |left; by apply commits_panic].
  rewrite orb_false_l. destruct (negb (unknownCommitResult e) && hasErrorLabel e TransientTransactionError) eqn:Eq.
  { apply wp_ret. right. by exists e. }
  apply wp_bind, wp_attempted, wp_driver. intros b w' _. cbn [world trace].
  assert (Hmore : wp true (commitAttempts n true (Some e)) (mkSt w' (trace st ++ [CommitTried (Err e)])) (fun r st' => concluded (S n) st st' r)).
  { eapply wp_mono; [by apply (commitAttempts_open n e [])|]. intros r st' Hc. left. eapply commits_failed; exact Hc. }
  destruct b as [[]|b|]; [exact Hmore|apply wp_ret; left; by apply commits_given_up|left; by apply commits_panic].
Qed.

Section Body.
Context {A : Type} (body : Context -> Run A).
(** The body makes no transaction of its own. *)
Hypothesis plain_body : forall st, wp true (body InSession) st (fun _ st' => trace st' = trace st).

Definition consistent (o : transactionOutcome) (res : result A) : Prop :=
  match o, res with
  | transactionCommitted, Ok _ => True
  | transactionPending, Err e => errorIs e ErrCommitPending = true
  | transactionAborted, Err _ => True
  | _, _ => False
  end.

Definition ends_as (n : nat) (st st' : St W tevent) (r : result (transactionOutcome * result A)) : Prop :=
  match r with
  | Ok (o, res) => exists tr, trace st' = trace st ++ tr /\ history maxCommits n tr o /\ consistent o res
  | Err _ => False
  | Panic => True
  end.

Lemma ends_as_step n tr0 st st1 st' r (Hstep : forall tr o, history maxCommits n tr o -> history maxCommits (S n) (tr0 ++ tr) o) :
  trace st1 = trace st ++ tr0 -> ends_as n st1 st' r -> ends_as (S n) st st' r.
Proof.
  intros E1. unfold ends_as. destruct r as [[o res]|e|]; [|done..]. intros (tr & E & Hh & Hc). exists (tr0 ++ tr).
  split_and!; [by rewrite E, E1, app_assoc|by apply Hstep|done].
Qed.

Lemma bodyAttempts_wp n lastErr st : (0 < maxCommits)%nat -> wp true (bodyAttempts n body lastErr) st (fun r st' => ends_as n st st' r).
Proof using plain_body.
  intros Hmax. revert lastErr st. induction n as [|n IH]; intros lastErr st; cbn [bodyAttempts].
  { apply wp_ret. exists []. rewrite app_nil_r. split_and!; [done|constructor|done]. }
  assert (Hgive : forall w e, ends_as (S n) st (mkSt w (trace st)) (Ok (transactionAborted, Err e))).
  { intros w e. exists []. rewrite app_nil_r. split_and!; [done|constructor|done]. }
  apply wp_bind, wp_attempted, wp_driver. intros [[]|e|] w _; [|by apply wp_ret|done].
  apply wp_bind, wp_attempted, wp_driver. intros [[]|e|] w' _; cbn [world trace]; [|by apply wp_ret|done].
  apply wp_bind. unfold runTransactionBody. apply wp_bind, wp_attempted. eapply wp_mono; [apply plain_body|]. cbn [trace].
  intros [a|e|] st1 E1; [| |done]; cbn [world trace].
  - apply wp_bind. cbn [wp emit]. apply wp_ret. apply wp_bind. eapply wp_mono; [by apply commitTransactionAttempt_wp|].
    intros r st2 [(es & Hl & Ho & Hr)|(e & Hq & -> & Et)].
    + destruct r as [[[[] []] []]|e|]; try done; cbn [trace] in Hr; destruct Hr as [Hr1 Hr2]; apply wp_ret.
      * exists (BodyDone true :: failures es ++ [CommitTried (Ok tt)]). rewrite Hr1, E1, <- app_assoc. split_and!; [done|by constructor|done].
      * exists (BodyDone true :: failures es). rewrite Hr1, E1, <- app_assoc. destruct Hr2. split_and!; [done|by constructor|done].
    + eapply wp_mono; [apply IH|]. intros r st3. apply (ends_as_step n [BodyDone true; CommitTried (Err e)]); [intros tr o Hh; by constructor|].
      cbn [trace] in Et. by rewrite Et, E1, <- app_assoc.
  - apply wp_bind. cbn [wp emit]. apply wp_ret. unfold handleBodyFailure. apply wp_bind, wp_bind, wp_attempted, wp_observe. intros ra w2 _. cbn [world trace].
    assert (Hab : forall e', ends_as (S n) st (mkSt w2 ((trace st1 ++ [BodyDone false]) ++ [AbortTried ra])) (Ok (transactionAborted, Err e'))).
    { intros e'. exists [BodyDone false; AbortTried ra]. rewrite <- app_assoc. cbn [trace]. rewrite E1. split_and!; [done|constructor|done]. }
    destruct ra as [[]|e'|]; [|by apply wp_ret, wp_ret|done]. apply wp_ret. cbn [mbind]. destruct (hasErrorLabel e TransientTransactionError); [|by apply wp_ret].
    eapply wp_mono; [apply IH|]. intros r st3. apply (ends_as_step n [BodyDone false; AbortTried (Ok tt)]); [intros tr o Hh; by constructor|].
    cbn [trace]. by rewrite <- app_assoc, E1.
Qed.

End Body.

(** ** What a history says *)

Definition is_body (ev : tevent) : bool := match ev with BodyDone _ => true | _ => false end.
Definition is_commit (ev : tevent) : bool := match ev with CommitTried _ => true | _ => false end.
Definition count (p : tevent -> bool) (tr : list tevent) : nat := length (List.filter p tr).

Lemma count_app p tr1 tr2 : count p (tr1 ++ tr2) = (count p tr1 + count p tr2)%nat.
Proof. unfold count. by rewrite List.filter_app, length_app. Qed.

Lemma count_cons p ev tr : count p (ev :: tr) = ((if p ev then 1 else 0) + count p tr)%nat.
Proof. unfold count. cbn. by destruct (p ev). Qed.

Lemma count_failures es : count is_body (failures es) = 0%nat /\ count is_commit (failures es) = length es.
Proof. induction es as [|e es [IH1 IH2]]; [done|]. cbn [failures map]. rewrite !count_cons. fold (failures es). by rewrite IH1, IH2. Qed.

Lemma history_counts m n tr o : history m n tr o -> (0 < m)%nat -> (count is_body tr <= n)%nat /\ (count is_commit tr <= n * m)%nat.
Proof.
  intros Hh Hm. induction Hh as [n|n r|n tr o _ [IH1 IH2]|n e tr o _ _ [IH1 IH2]|n es _ Hl|n es _ _ Hl]; rewrite ?count_cons, ?count_app;
    try (destruct (count_failures es) as [-> ->]); cbn; lia.
Qed.

(** An attempt whose error does not prove an abort is followed by attempts of the same commit only. *)
Lemma history_open m n tr o tr1 e tr2 : history m n tr o -> tr = tr1 ++ CommitTried (Err e) :: tr2 -> quiet e = false ->
  count is_body tr2 = 0%nat /\ o <> transactionAborted.
Proof.
  intros Hh. revert tr1. induction Hh as [n|n r|n tr o _ IH|n e' tr o Hq _ IH|n es Ho Hl|n es Ho Hne Hl]; intros tr1 E Hq'.
  - by destruct tr1.
  - by destruct tr1 as [|? [|? []]].
  - destruct tr1 as [|? [|? tr1]]; [done..|]. injection E as _ _ E. by eapply IH.
  - destruct tr1 as [|? [|? tr1]]; [done|injection E as _ E; congruence|]. injection E as _ _ E. by eapply IH.
  - split; [|done]. destruct tr1 as [|ev tr1]; [done|]. injection E as <- E. apply (f_equal (count is_body)) in E. revert E.
    rewrite !count_app, !count_cons. destruct (count_failures es) as [-> _]. cbn. lia.
  - split; [|done]. destruct tr1 as [|ev tr1]; [done|]. injection E as <- E. apply (f_equal (count is_body)) in E. revert E.
    rewrite !count_app, !count_cons. destruct (count_failures es) as [-> _]. cbn. lia.
Qed.

(** The commit succeeded exactly in the outcome that says so, and then it was the last call. *)
Lemma history_outcome m n tr o : history m n tr o ->
  (o = transactionCommitted <-> last tr = Some (CommitTried (Ok tt))) /\
  (o = transactionCommitted <-> CommitTried (Ok tt) ∈ tr).
Proof.
  assert (Hf : forall es, CommitTried (Ok tt) ∉ failures es).
  { intros es Hin. apply list_elem_of_fmap in Hin as (e & ? & _). done. }
  induction 1 as [n|n r|n tr o _ [IH1 IH2]|n e tr o _ _ [IH1 IH2]|n es Ho Hl|n es Ho Hne Hl].
  - split; split; try done; set_solver.
  - split; split; try done. set_solver.
  - rewrite IH1 at 1. rewrite IH2 at 1. split; [destruct tr; [|done]|set_solver]. cbn. split; [done|by intros [=]].
  - rewrite IH1 at 1. rewrite IH2 at 1. split; [destruct tr; [|done]|set_solver]. cbn. split; [done|by intros [=]].
  - split; split; try done; intros _; [|set_solver]. change (BodyDone true :: failures es ++ [CommitTried (Ok tt)]) with ((BodyDone true :: failures es) ++ [CommitTried (Ok tt)]).
    apply last_snoc.
  - split; split; try done; [|by intros [[=]|?%Hf]%elem_of_cons].
    intros Hlast. exfalso. apply last_Some_elem_of in Hlast. apply elem_of_cons in Hlast as [[=]|Hin]. by eapply Hf.
Qed.

(** A body that is not the first follows what proves that the transaction before it was aborted. *)
Definition proves_abort (ev : tevent) : Prop :=
  match ev with AbortTried (Ok _) => True | CommitTried (Err e) => quiet e = true | _ => False end.

Lemma history_bodies m n tr o tr1 b tr2 : history m n tr o -> tr = tr1 ++ BodyDone b :: tr2 ->
  tr1 = [] \/ exists ev, last tr1 = Some ev /\ proves_abort ev.
Proof.
  intros Hh. revert tr1.
  assert (Hcut : forall x y tr1 l, y <> BodyDone b -> x :: y :: l = tr1 ++ BodyDone b :: tr2 ->
    tr1 = [] \/ exists tr1', tr1 = x :: y :: tr1' /\ l = tr1' ++ BodyDone b :: tr2).
  { intros x y [|x' [|y' tr1']] l Hy E; [by left|injection E as _ E _; congruence|]. injection E as <- <- ->. right. by exists tr1'. }
  assert (Hlast : forall (x y : tevent) tr1, proves_abort y -> tr1 = [] \/ (exists ev, last tr1 = Some ev /\ proves_abort ev) ->
    exists ev, last (x :: y :: tr1) = Some ev /\ proves_abort ev).
  { intros x y tr1 Hy [->|(ev & E & Hev)]; [by exists y|]. exists ev. by destruct tr1. }
  assert (Hone : forall es l tr1, count is_body l = 0%nat -> BodyDone true :: failures es ++ l = tr1 ++ BodyDone b :: tr2 -> tr1 = []).
  { intros es l [|ev tr1] Hl E; [done|]. exfalso. injection E as _ E. apply (f_equal (count is_body)) in E. revert E.
    rewrite !count_app, count_cons, Hl. destruct (count_failures es) as [-> _]. cbn. lia. }
  induction Hh as [n|n r|n tr o _ IH|n e tr o Hq _ IH|n es Ho Hl|n es Ho Hne Hl]; intros tr1 E.
  - by destruct tr1.
  - apply Hcut in E as [->|(tr1' & -> & E)]; [by left| |done]. by destruct tr1'.
  - apply Hcut in E as [->|(tr1' & -> & E)]; [by left| |done]. right. apply Hlast; [done|by apply IH].
  - apply Hcut in E as [->|(tr1' & -> & E)]; [by left| |done]. right. apply Hlast; [done|by apply IH].
  - left. eapply (Hone es [CommitTried (Ok tt)]); [done|exact E].
  - left. eapply (Hone es []); [done|]. rewrite app_nil_r. exact E.
Qed.

(** C10.  A body is never run twice to effect.  Whatever the driver answers, a transaction
    ends, within the configured numbers of bodies and of attempts to commit.  A body is
    run again only directly after an acknowledged abort, or after an error of the first
    attempt to commit that is labelled as a transient abort and is not a timeout, a
    cancellation, a network error or an unknown result.  After any other error of a
    commit there is no further body and the transaction is not reported as aborted: it is
    committed, which is reported exactly when the last call was a commit that succeeded,
    or it is pending, with an error that says so. *)
Theorem body_runs_only_after_abort {A} (body : Context -> Run A) (st : St W tevent)
    (Hbody : forall st, wp true (body InSession) st (fun _ st' => trace st' = trace st)) (Hcommits : (0 < maxCommits)%nat) :
  exists r st', runTransaction Plain body st = Some (r, st') /\
  match r with
  | Err _ => False
  | Panic => True
  | Ok (o, res) => exists tr, trace st' = trace st ++ tr /\ consistent o res /\
      (count is_body tr <= maxBodies)%nat /\ (count is_commit tr <= maxBodies * maxCommits)%nat /\
      (forall tr1 b tr2, tr = tr1 ++ BodyDone b :: tr2 -> tr1 = [] \/ exists ev, last tr1 = Some ev /\ proves_abort ev) /\
      (forall tr1 e tr2, tr = tr1 ++ CommitTried (Err e) :: tr2 -> quiet e = false -> count is_body tr2 = 0%nat /\ o <> transactionAborted) /\
      (o = transactionCommitted <-> last tr = Some (CommitTried (Ok tt))) /\
      (o = transactionCommitted <-> CommitTried (Ok tt) ∈ tr)
  end.
Proof.
  apply wp_returns. unfold runTransaction. apply wp_bind, wp_attempted, wp_driver. intros r w _. cbn [world].
  assert (Hnone : forall e : error, exists tr, trace st = trace st ++ tr /\ history maxCommits maxBodies tr transactionAborted).
  { intros _. exists []. rewrite app_nil_r. split; [done|constructor]. }
  destruct r as [[]|e|]; [|apply wp_ret|done].
  - apply wp_afterwards. eapply wp_mono; [by apply bodyAttempts_wp|]. intros r st1 Hr. unfold endTransactionSession. apply wp_driver. intros r' w' _.
    destruct r as [[o res]|e|]; [|done..]. cbn [trace]. destruct Hr as (tr & E & Hh & Hc). exists tr. destruct (history_counts _ _ _ _ Hh Hcommits).
    split_and!; try done; [intros tr1 b tr2; by apply (history_bodies _ _ _ _ _ _ _ Hh)|intros tr1 e tr2; by apply (history_open _ _ _ _ _ _ _ Hh)|apply (history_outcome _ _ _ _ Hh)..].
  - exists []. rewrite app_nil_r. split_and!; [done|done|unfold count; cbn; lia|unfold count; cbn; lia|by intros []|by intros []|by split|split; [done|set_solver]].
Qed.

(** ** A transaction happens or does not *)

Section Atomic.
Context `{!MongoState W, !MongoLaws W}.
Local Abbreviation St := (St W tevent).

Context {A : Type} (body : Context -> Run A) (D : DB) (Q : A -> DB -> Prop).
(** On the state [D], the body leaves in the transaction a state that satisfies [Q]. *)
Hypothesis body_spec : forall st : St, durable (world st) = D -> session (world st) = Some D ->
  wp true (body InSession) st (fun r st' => durable (world st') = D /\
    forall a db, r = Ok a -> session (world st') = Some db -> Q a db).

(** Nothing has become durable, or what the body left. *)
Definition perhaps (d : DB) : Prop := d = D \/ exists a, Q a d.

(** The error of a transaction that is pending: with the last error of the driver, if any. *)
Definition unresolved (e : error) : Prop := e = ErrCommitPending \/ exists e', foreign e' /\ e = ErrJoin ErrCommitPending e'.

Lemma unresolved_join last : (forall e, last = Some e -> foreign e) -> unresolved (joinLast ErrCommitPending last).
Proof. intros Hl. destruct last as [e|]; [right|by left]. exists e. split; [by apply Hl|done]. Qed.

Definition settled (d : DB) (r : result (transactionOutcome * result A)) : Prop :=
  match r with
  | Ok (transactionCommitted, Ok a) => Q a d
  | Ok (transactionAborted, Err _) => d = D
  | Ok (transactionPending, Err e) => unresolved e /\ perhaps d
  | Panic => perhaps d
  | _ => False
  end.

(** What the attempts to commit report when the transaction would make durable what [Q] says. *)
Definition decided (d : DB) (r : result (transactionOutcome * bool * option error)) : Prop :=
  match r with
  | Ok (transactionCommitted, false, None) => exists a, Q a d
  | Ok (transactionPending, false, Some e) => unresolved e /\ perhaps d
  | Ok (transactionAborted, true, Some e) => d = D
  | Panic => perhaps d
  | _ => False
  end.

Lemma commitAttempts_durable a n ambiguous lastErr (st : St) :
  perhaps (durable (world st)) -> (forall db, session (world st) = Some db -> Q a db) -> (ambiguous = false -> durable (world st) = D) ->
  (forall e, lastErr = Some e -> foreign e) ->
  wp true (commitAttempts n ambiguous lastErr) st (fun r st' => decided (durable (world st')) r /\ (r = Ok (transactionCommitted, false, None) -> Q a (durable (world st')))).
Proof using MongoLaws0.
  revert ambiguous lastErr st. induction n as [|n IH]; intros ambiguous lastErr st Hd Hs Ha Hl; cbn [commitAttempts].
  { apply wp_ret. split; [|done]. split; [by apply unresolved_join|done]. }
  apply wp_bind, wp_attempted, wp_observe. intros r w Ec. apply CommitTransaction_law in Ec as [Es Ec].
  assert (Hd' : perhaps (durable w)).
  { destruct r as [[]|e|]; [right; exists a; by apply Hs| |by rewrite Ec]. destruct Ec as [_ [->|[E _]]]; [done|]. right. exists a. by apply Hs. }
  destruct r as [[]|e|]; [apply wp_ret; split; [exists a|intros _]; by apply Hs| |by split].
  destruct (negb (ambiguous || unknownCommitResult e) && hasErrorLabel e TransientTransactionError) eqn:Eq.
  { apply wp_ret. split; [|done]. apply andb_true_iff in Eq as [Eamb Eq]. apply negb_true_iff, orb_false_iff in Eamb as [Eamb _].
    cbn. destruct Ec as [_ [->|[_ E]]]; [by apply Ha|congruence]. }
  apply wp_bind, wp_attempted, wp_driver. intros b w' Eb. apply CommitBudgetErr_law in Eb as [Eb Es']. cbn [world trace] in *.
  destruct b as [[]|b|]; [|apply wp_ret; split; [|done]; split; [apply unresolved_join; by intros e' [= <-]; apply Ec|cbn; by rewrite Eb]|split; [cbn; by rewrite Eb|done]].
  apply (IH true); cbn [world]; rewrite ?Eb, ?Es', ?Es; try done. intros e' [= <-]. apply Ec.
Qed.

Lemma bodyAttempts_durable n lastErr (st : St) :
  durable (world st) = D -> wp true (bodyAttempts n body lastErr) st (fun r st' => settled (durable (world st')) r).
Proof using MongoLaws0 body_spec.
  revert lastErr st. induction n as [|n IH]; intros lastErr st HD; cbn [bodyAttempts]; [by apply wp_ret|].
  apply wp_bind, wp_attempted, wp_driver. intros r w [[Ew _] _]%WorkErr_law. cbn [world] in *.
  destruct r as [[]|e|]; [|apply wp_ret; cbn; congruence|left; cbn; congruence].
  apply wp_bind, wp_attempted, wp_driver. intros r w' (Ew' & Es & _)%StartTransaction_law. cbn [world trace] in *.
  destruct r as [[]|e|]; [|apply wp_ret; cbn; congruence|left; cbn; congruence]. specialize (Es eq_refl).
  apply wp_bind. unfold runTransactionBody. apply wp_bind, wp_attempted. eapply wp_mono; [apply body_spec; cbn [world]; congruence|].
  intros r st1 [E1 HQ]. destruct r as [a|e|]; [| |by left].
  - apply wp_bind. cbn [wp emit]. apply wp_ret, wp_bind. eapply wp_mono; [apply (commitAttempts_durable a); cbn [world]; [by left|intros db Hdb; by apply HQ|done|done]|].
    intros r st2 [Hdec Hc]. destruct r as [[[[] []] []]|e|]; try done; [by apply IH|by apply wp_ret, Hc].
  - apply wp_bind. cbn [wp emit]. apply wp_ret. unfold handleBodyFailure. apply wp_bind, wp_bind, wp_attempted, wp_observe. intros ra w2 [E2 _]%AbortTransaction_law. cbn [world] in *.
    destruct ra as [[]|e'|]; [|apply wp_ret; cbn; congruence|left; cbn; congruence]. apply wp_ret.
    destruct (hasErrorLabel e TransientTransactionError); [apply IH; cbn; congruence|apply wp_ret; cbn; congruence].
Qed.

(** Whatever the driver answers, a transaction ends; what is durable afterwards is what
    was, or what the body left, and the outcome says which when it is not pending. *)
Lemma runTransaction_atomic (st : St) :
  durable (world st) = D -> wp true (runTransaction Plain body) st (fun r st' => settled (durable (world st')) r).
Proof using MongoLaws0 body_spec.
  intros HD. unfold runTransaction. apply wp_bind, wp_attempted, wp_driver. intros r w [E _]%StartSession_law. cbn [world] in *.
  destruct r as [[]|e|]; [|apply wp_ret; cbn; congruence|left; cbn; congruence].
  apply wp_afterwards. eapply wp_mono; [apply bodyAttempts_durable; cbn; congruence|]. intros r st1 Hr.
  unfold endTransactionSession. apply wp_driver. intros r' w' E'%EndSession_law. cbn [world]. by rewrite E'.
Qed.

End Atomic.

End Transaction.

Module Example.
Import MongoEncoding MongoModel.

Definition cfg : Config :=
  mkConfig (str "overlay") (Admission.mkScope (str "main") (replicate 64 Byte.x61) (str "node")) 1024 4096 Second Second Minute 3 3.
Definition s : Store := newStore cfg (str "owner").

(** A body that writes a cursor. *)
Definition body (ctx : Context) : Runs.Run (St world tevent) Z :=
  _ ← call (Upsert ctx cursors (str "c") (fun now _ => mkCursorDocument (str "c") [] [] [] 7 now now)); mret 7.

(** The first commit is aborted, the second is applied but its answer is lost. *)
Definition start : St world tevent := mkSt (mkWorld emptyDB None 1 [Dropped 1; Applied 2] ∅ ∅) [].

Lemma body_runs_only_after_abort_witness :
  match runTransaction s Plain body start with
  | Some (Ok (o, res), st') => o = transactionCommitted /\ res = Ok 7 /\ count is_body (trace st') = 2%nat /\ count is_commit (trace st') = 3%nat /\
      exists tr, trace st' = trace start ++ tr /\ (o = transactionCommitted <-> last tr = Some (CommitTried (Ok tt)))
  | _ => False
  end.
Proof.
  destruct (body_runs_only_after_abort s body start) as (r & st' & E & H).
  - intros st. unfold body. apply wp_bind, wp_driver. intros r w _. by destruct r.
  - vm_compute. lia.
  - rewrite E. assert (Ev : runTransaction s Plain body start = Some (r, st')) by exact E. vm_compute in Ev. injection Ev as <- <-.
    destruct H as (tr & Et & _ & _ & _ & _ & _ & Hlast & _). split_and!; [reflexivity..|]. by exists tr.
Defined.

End Example.

End MongoTransaction.
