(* ===== verification/MongoRules.v ===== *)
(** * Rules for what the body of a transaction does

    [inside m]: the program [m] only works in the open transaction.  [tx db m P]: run in a
    transaction that holds [db], [m] ends, and if the transaction still is alive then [P]
    holds of the outcome and of what it holds. *)

From S2P Require Import Prelude Bytes Runs Traced MongoEncoding MongoDriver MongoTransaction.
Open Scope Z_scope.

Section Rules.
Context {W : Type} `{!Mongo W, !MongoState W} {laws : MongoLaws W}.
#[local] Set Default Proof Using "Type laws".
Local Abbreviation St := (St W tevent).
Local Abbreviation Run := (Runs.Run St).

Definition remains (st st' : St) : Prop :=
  durable (world st') = durable (world st) /\ trace st' = trace st /\ alive (world st) (world st').

Definition inside {A} (m : Run A) : Prop := forall st, wp true m st (fun _ st' => remains st st').

Definition tx {A} (db : DB) (m : Run A) (P : result A -> DB -> Prop) : Prop :=
  inside m /\ forall st, session (world st) = Some db -> wp true m st (fun r st' => forall db', session (world st') = Some db' -> P r db').

Lemma alive_trans (w1 w2 w3 : W) : alive w1 w2 -> alive w2 w3 -> alive w1 w3.
Proof using Type. intros A1 A2 db3 H3. destruct (A2 _ H3) as (db2 & H2 & ->). by apply A1. Qed.

Lemma alive_none (w w' : W) : alive w w' -> session w = None -> session w' = None.
Proof using Type. intros Ha Hn. destruct (session w') as [db|] eqn:E; [|done]. destruct (Ha _ E) as (? & ? & _). congruence. Qed.

Lemma remains_trans st1 st2 st3 : remains st1 st2 -> remains st2 st3 -> remains st1 st3.
Proof using Type. intros (D1 & T1 & S1) (D2 & T2 & S2). split_and!; [by rewrite D2|by rewrite T2|by eapply alive_trans]. Qed.

Lemma remains_refl st : remains st st.
Proof using Type. split_and!; [done|done|by apply same_alive]. Qed.

Lemma inside_ret {A} (a : A) : inside (mret a).
Proof using Type. intros st. apply wp_ret. apply remains_refl. Qed.

Lemma inside_lift {A} (r : result A) : inside (lift r).
Proof using Type. intros st. apply wp_lift, remains_refl. Qed.

Lemma inside_bind {A B} (m : Run A) (f : A -> Run B) : inside m -> (forall a, inside (f a)) -> inside (m ≫= f).
Proof using Type.
  intros Hm Hf st. apply wp_bind. eapply wp_mono; [apply Hm|]. intros [a|e|] st' Hr; [|done..].
  eapply wp_mono; [apply Hf|]. intros r st''. by apply remains_trans.
Qed.

Lemma inside_attempt {A} (m : Run A) : inside m -> inside (attempt m).
Proof using Type. intros Hm st. apply wp_attempted. eapply wp_mono; [apply Hm|]. by intros [a|e|]. Qed.

Lemma inside_forEach {A} (f : A -> Run unit) xs : (forall x, inside (f x)) -> inside (forEach f xs).
Proof using Type. intros Hf. induction xs as [|x xs IH]; [apply inside_ret|]. apply inside_bind; [done|]. intros _. exact IH. Qed.

Lemma same_remains (st : St) w' : same (world st) w' -> remains st (mkSt w' (trace st)).
Proof using Type. intros [E1 E2]. split_and!; [done|done|by apply same_alive]. Qed.

Lemma inside_call {A} (op : Op W A) : (forall w r w', op w = (r, w') -> durable w' = durable w /\ alive w w') -> inside (call op).
Proof using Type. intros Hop st. apply wp_driver. intros r w E. destruct (Hop _ _ _ E) as [E1 E2]. by split_and!. Qed.

(** What the laws say of calls in a session. *)
Lemma inside_reading {A} (op : Op W A) answer :
  (forall w r w', op w = (r, w') -> reading InSession w w' r (answer w)) -> inside (call op).
Proof using Type.
  intros Hop. apply inside_call. intros w r w' E. specialize (Hop _ _ _ E). unfold reading in Hop.
  assert (Hsame : same w w' -> durable w' = durable w /\ alive w w') by (intros [? ?]; split; [done|by apply same_alive]).
  destruct r as [a|e|]; [by apply Hsame, Hop| |by destruct Hop as (? & _ & ?)]. destruct e; try (by destruct Hop as (_ & ? & _ & ?)). by apply Hsame, Hop.
Qed.

(** An effect on documents. *)
Definition keeps_files {A} (f : effect A) : Prop := forall db now a db', f db now = Some (a, db') -> files db' = files db.

Lemma inside_writing {A} (op : Op W A) f : keeps_files f -> (forall w r w', op w = (r, w') -> writing InSession w w' r f) -> inside (call op).
Proof using Type.
  intros Hf Hop. apply inside_call. intros w r w' E. specialize (Hop _ _ _ E). unfold writing in Hop.
  destruct r as [a|e|]; [destruct Hop as (db & db' & now & Hv & E' & Hs & Hd); split; [done|]; intros db1 H1; exists db; rewrite Hs in H1; injection H1 as <-; split; [done|by eapply Hf]| |by destruct Hop as (? & _ & ?)].
  destruct e; try (by destruct Hop as (_ & (? & _ & ?) & _)). destruct Hop as [? E']. split; [done|by apply same_alive].
Qed.

Lemma inside_same {A} (op : Op W A) : (forall w r w', op w = (r, w') -> same w w') -> inside (call op).
Proof using Type. intros Hop. apply inside_call. intros w r w' E. destruct (Hop _ _ _ E) as [? E']. split; [done|by apply same_alive]. Qed.

Lemma inside_FindOne c id cond : inside (call (FindOne InSession c id cond)).
Proof. eapply (inside_reading _ (fun _ => _)). intros. by apply FindOne_law. Qed.
Lemma inside_FindFirst c pred : inside (call (FindFirst InSession c pred)).
Proof. eapply (inside_reading _ (fun _ => _)). intros. by apply FindFirst_law. Qed.
Lemma inside_Find c pred sort limit : inside (call (Find InSession c pred sort limit)).
Proof. eapply (inside_reading _ (fun _ => _)). intros. by apply Find_law. Qed.
Lemma inside_CountDocuments c pred : inside (call (CountDocuments InSession c pred)).
Proof. eapply (inside_reading _ (fun _ => _)). intros. by apply CountDocuments_law. Qed.
Lemma inside_InsertOne c d : inside (call (InsertOne InSession c d)).
Proof. eapply inside_writing; [|intros; by apply InsertOne_law]. intros db now a db'. apply insertEffect_files. Qed.
Lemma inside_UpdateOne c id cond u : inside (call (UpdateOne InSession c id cond u)).
Proof. eapply inside_writing; [|intros; by apply UpdateOne_law]. intros db now a db'. apply updateEffect_files. Qed.
Lemma inside_Upsert c id u : inside (call (Upsert InSession c id u)).
Proof. eapply inside_writing; [|intros; by apply Upsert_law]. intros db now a db'. apply upsertEffect_files. Qed.
Lemma inside_FindOneAndUpdate c id cond u b : inside (call (FindOneAndUpdate InSession c id cond u b)).
Proof. eapply inside_writing; [|intros; by apply FindOneAndUpdate_law]. intros db now a db'. apply findAndUpdateEffect_files. Qed.
Lemma inside_DeleteOne c id : inside (call (DeleteOne InSession c id)).
Proof. eapply inside_writing; [|intros; by apply DeleteOne_law]. intros db now a db'. apply deleteEffect_files. Qed.
Lemma inside_DeleteMany c pred : inside (call (DeleteMany InSession c pred)).
Proof. eapply inside_writing; [|intros; by apply DeleteMany_law]. intros db now a db'. apply deleteManyEffect_files. Qed.
Lemma inside_Now : inside (call Now).
Proof. apply inside_same. intros * E. by apply Now_law in E as [? _]. Qed.
Lemma inside_NewObjectID : inside (call NewObjectID).
Proof. apply inside_same. intros * E. by apply NewObjectID_law in E as [? _]. Qed.
Lemma inside_NewUUID : inside (call NewUUID).
Proof. apply inside_same. intros * E. by apply NewUUID_law in E as [? _]. Qed.

(** ** What a live transaction holds *)

Lemma tx_mono {A} db (m : Run A) (P P' : result A -> DB -> Prop) : tx db m P -> (forall r db', P r db' -> P' r db') -> tx db m P'.
Proof using Type. intros [Hi Hm] HP. split; [done|]. intros st Hs. eapply wp_mono; [by apply Hm|]. intros r st' Hr db' Hdb'. by apply HP, Hr. Qed.

Lemma tx_lift {A} db (r : result A) (P : result A -> DB -> Prop) : P r db -> tx db (lift r) P.
Proof using Type. intros HP. split; [apply inside_lift|]. intros st Hs. apply wp_lift. intros db'. rewrite Hs. by intros [= <-]. Qed.

Lemma tx_ret {A} db (a : A) (P : result A -> DB -> Prop) : P (Ok a) db -> tx db (mret a) P.
Proof using Type. apply (tx_lift db (Ok a)). Qed.

Lemma tx_bind {A B} db (m : Run A) (f : A -> Run B) (P : result B -> DB -> Prop) :
  (forall a, inside (f a)) ->
  tx db m (fun r db' => match r with Ok a => tx db' (f a) P | Err e => P (Err e) db' | Panic => P Panic db' end) ->
  tx db (m ≫= f) P.
Proof using Type.
  intros Hf [Hi Hm]. split; [by apply inside_bind|]. intros st Hs. apply wp_bind. eapply wp_mono; [by apply Hm|].
  intros [a|e|] st' Hr; [|done..]. destruct (session (world st')) as [db'|] eqn:Es; [by apply (Hr db')|].
  eapply wp_mono; [apply Hf|]. intros r st'' (_ & _ & Hn) db'' Hs''. by rewrite (alive_none _ _ Hn Es) in Hs''.
Qed.

Lemma tx_attempt {A} db (m : Run A) (P : result (result A) -> DB -> Prop) :
  tx db m (fun r db' => match r with Panic => P Panic db' | _ => P (Ok r) db' end) -> tx db (attempt m) P.
Proof using Type.
  intros [Hi Hm]. split; [by apply inside_attempt|]. intros st Hs. apply wp_attempted. eapply wp_mono; [by apply Hm|]. by intros [a|e|].
Qed.

(** [P] holds of the outcomes that say nothing of the transaction. *)
Definition tolerates {A} (P : result A -> DB -> Prop) : Prop :=
  forall db', P Panic db' /\ forall e, foreign e -> e <> ErrNoDocuments -> e <> ErrDuplicateKey -> P (Err e) db'.

Lemma tx_reading {A} db (op : Op W A) (answer : DB -> Time -> option A -> Prop) (P : result A -> DB -> Prop) :
  (forall w r w', op w = (r, w') -> reading InSession w w' r answer) -> tolerates P ->
  (forall now a, answer db now (Some a) -> P (Ok a) db) -> (forall now, answer db now None -> P (Err ErrNoDocuments) db) ->
  (forall db', P (Err ErrDuplicateKey) db') -> tx db (call op) P.
Proof using Type.
  intros Hop Htol Hok Hnone Hdup. split; [by apply (inside_reading _ (fun _ => answer))|]. intros st Hs. apply wp_driver. intros r w E db' Hdb'. cbn [world] in Hdb'.
  specialize (Hop _ _ _ E). unfold reading in Hop. destruct (Htol db') as [Hpanic Herr].
  destruct r as [a|e|]; [| |done].
  - destruct Hop as ([_ E2] & db1 & now & Hv & Ha). cbn in Hv. rewrite E2 in Hdb'. simplify_eq. by eapply Hok.
  - destruct e; try (destruct Hop as [Hf _]; apply Herr; done); try apply Hdup.
    destruct Hop as ([_ E2] & db1 & now & Hv & Ha). cbn in Hv. rewrite E2 in Hdb'. simplify_eq. by eapply Hnone.
Qed.

Lemma tx_writing {A} db (op : Op W A) (f : effect A) (P : result A -> DB -> Prop) :
  inside (call op) -> (forall w r w', op w = (r, w') -> writing InSession w w' r f) -> tolerates P ->
  (forall now a db', f db now = Some (a, db') -> P (Ok a) db') -> (forall db', P (Err ErrNoDocuments) db') -> tx db (call op) P.
Proof using Type.
  intros Hi Hop Htol Hok Hnone. split; [done|]. intros st Hs. apply wp_driver. intros r w E db' Hdb'. cbn [world] in Hdb'.
  specialize (Hop _ _ _ E). unfold writing in Hop. destruct (Htol db') as [Hpanic Herr].
  destruct r as [a|e|]; [| |done].
  - destruct Hop as (db1 & db2 & now & Hv & Ha & Hb). cbn in Hv, Hb. destruct Hb as [Hb _]. simplify_eq. by eapply Hok.
  - destruct e; try apply Hnone; try (destruct Hop as [Hf _]; apply Herr; done). destruct Hop as (_ & _ & Hd). rewrite Hd in Hdb' by done. done.
Qed.

Lemma tx_FindOne db c id cond (P : result (document c) -> DB -> Prop) :
  tolerates P -> (forall now d, matching cond now (docs c db !! id) = Some d -> P (Ok d) db) ->
  (forall now, matching cond now (docs c db !! id) = None -> P (Err ErrNoDocuments) db) -> (forall db', P (Err ErrDuplicateKey) db') ->
  tx db (call (FindOne InSession c id cond)) P.
Proof. intros Ht Hok Hnone Hdup. eapply tx_reading; [intros; by apply FindOne_law|done|eauto|eauto|done]. Qed.

Lemma tx_InsertOne db c d (P : result unit -> DB -> Prop) :
  tolerates P -> (docs c db !! docID d = None -> P (Ok tt) (store c (docID d) d db)) -> (forall db', P (Err ErrNoDocuments) db') ->
  tx db (call (InsertOne InSession c d)) P.
Proof.
  intros Ht Hok Hnone. eapply tx_writing; [apply inside_InsertOne|intros; by apply InsertOne_law|done| |done]. intros now [] db'. unfold insertEffect.
  destruct (docs c db !! docID d) eqn:E; [done|]. intros [= <-]. by apply Hok.
Qed.

Lemma tx_UpdateOne db c id cond u (P : result Z -> DB -> Prop) :
  tolerates P -> (forall now d, docs c db !! id = Some d -> cond now d = true -> P (Ok 1) (store c id (u now d) db)) ->
  (forall now, matching cond now (docs c db !! id) = None -> P (Ok 0) db) -> (forall db', P (Err ErrNoDocuments) db') ->
  tx db (call (UpdateOne InSession c id cond u)) P.
Proof.
  intros Ht Hok Hzero Hnone. eapply tx_writing; [apply inside_UpdateOne|intros; by apply UpdateOne_law|done| |done]. intros now n db'. unfold updateEffect, matching.
  destruct (docs c db !! id) as [d|] eqn:E; [destruct (cond now d) eqn:Ec|]; intros [= <- <-]; [by apply Hok|apply (Hzero now); cbn; by rewrite Ec|by apply (Hzero now)].
Qed.

Lemma tx_Upsert db c id u (P : result unit -> DB -> Prop) :
  tolerates P -> (forall now, P (Ok tt) (store c id (u now (docs c db !! id)) db)) -> (forall db', P (Err ErrNoDocuments) db') ->
  tx db (call (Upsert InSession c id u)) P.
Proof. intros Ht Hok Hnone. eapply tx_writing; [apply inside_Upsert|intros; by apply Upsert_law|done| |done]. by intros now [] db' [= <-]. Qed.

Lemma tx_DeleteOne db c id (P : result Z -> DB -> Prop) :
  tolerates P -> (forall d, docs c db !! id = Some d -> P (Ok 1) (put c (delete id (docs c db)) db)) ->
  (docs c db !! id = None -> P (Ok 0) db) -> (forall db', P (Err ErrNoDocuments) db') ->
  tx db (call (DeleteOne InSession c id)) P.
Proof.
  intros Ht Hok Hzero Hnone. eapply tx_writing; [apply inside_DeleteOne|intros; by apply DeleteOne_law|done| |done]. intros now n db'. unfold deleteEffect.
  destruct (docs c db !! id) as [d|] eqn:E; intros [= <- <-]; [by eapply Hok|by apply Hzero].
Qed.

Lemma tx_same {A} db (op : Op W A) (P : result A -> DB -> Prop) :
  (forall w r w', op w = (r, w') -> same w w' /\ forall e, r <> Err e) -> (forall a, P (Ok a) db) -> P Panic db -> tx db (call op) P.
Proof using Type.
  intros Hop HP Hpanic. split; [apply inside_same; intros * E; by apply Hop in E as [? _]|]. intros st Hs. apply wp_driver. intros r w E db' Hdb'. cbn [world] in Hdb'.
  destruct (Hop _ _ _ E) as [[_ E2] He]. rewrite E2, Hs in Hdb'. simplify_eq. destruct r as [a|e|]; [apply HP|by destruct (He e)|done].
Qed.

(** A loop of writes that succeeds has the effects of its steps, one after the other. *)
Lemma tx_forEach {A} db (f : A -> Run unit) (g : DB -> A -> DB) xs :
  (forall x, inside (f x)) -> (forall x db, x ∈ xs -> tx db (f x) (fun r db' => r = Ok tt -> db' = g db x)) ->
  tx db (forEach f xs) (fun r db' => r = Ok tt -> db' = foldl g db xs).
Proof using Type.
  intros Hi. revert db. induction xs as [|x xs IH]; intros db Hf; cbn [forEach foldl]; [by apply tx_ret|].
  apply tx_bind; [intros _; by apply inside_forEach|]. eapply tx_mono; [apply Hf; by left|]. intros [[]|e|] db' Hr; [|done..].
  rewrite <- (Hr eq_refl). apply IH. intros y db1 Hy. apply Hf. by right.
Qed.

(** A loop of checks that succeeds has found what each of them looks for, and nothing is changed. *)
Lemma tx_checks {A} db (f : A -> Run unit) (V : A -> Prop) xs :
  (forall x, inside (f x)) -> (forall x, x ∈ xs -> tx db (f x) (fun r db' => r = Ok tt -> db' = db /\ V x)) ->
  tx db (forEach f xs) (fun r db' => r = Ok tt -> db' = db /\ forall x, x ∈ xs -> V x).
Proof using Type.
  intros Hi. induction xs as [|x xs IH]; intros Hf; cbn [forEach]; [apply tx_ret; split; [done|by intros x ?%elem_of_nil]|].
  apply tx_bind; [intros _; by apply inside_forEach|]. eapply tx_mono; [apply Hf; by left|]. intros [[]|e|] db' Hr; [|done..].
  destruct (Hr eq_refl) as [-> Hx]. eapply tx_mono; [apply IH; intros y Hy; apply Hf; by right|]. intros r db1 H1 E.
  destruct (H1 E) as [-> Hall]. split; [done|]. intros y [->|Hy]%elem_of_cons; [done|by apply Hall].
Qed.

End Rules.

(** ** Calls outside of a transaction

    [plain db m P]: when [db] is durable, [m] ends, does not touch the trace, and [P] holds
    of the outcome and of what is durable then. *)

Section Plain.
Context {W : Type} `{!Mongo W, !MongoState W} {laws : MongoLaws W}.
#[local] Set Default Proof Using "Type laws".
Local Abbreviation St := (St W tevent).
Local Abbreviation Run := (Runs.Run St).

Definition plain {A} (db : DB) (m : Run A) (P : result A -> DB -> Prop) : Prop :=
  forall st, durable (world st) = db -> wp true m st (fun r st' => trace st' = trace st /\ P r (durable (world st'))).

Lemma plain_mono {A} db (m : Run A) (P P' : result A -> DB -> Prop) : plain db m P -> (forall r db', P r db' -> P' r db') -> plain db m P'.
Proof using Type. intros Hm HP st Hd. eapply wp_mono; [by apply Hm|]. intros r st' [Ht Hr]. split; [done|by apply HP]. Qed.

Lemma plain_lift {A} db (r : result A) (P : result A -> DB -> Prop) : P r db -> plain db (lift r) P.
Proof using Type. intros HP st <-. by apply wp_lift. Qed.

Lemma plain_ret {A} db (a : A) (P : result A -> DB -> Prop) : P (Ok a) db -> plain db (mret a) P.
Proof using Type. apply (plain_lift db (Ok a)). Qed.

Lemma plain_bind {A B} db (m : Run A) (f : A -> Run B) (P : result B -> DB -> Prop) :
  plain db m (fun r db' => match r with Ok a => plain db' (f a) P | Err e => P (Err e) db' | Panic => P Panic db' end) -> plain db (m ≫= f) P.
Proof using Type.
  intros Hm st Hd. apply wp_bind. eapply wp_mono; [by apply Hm|]. intros [a|e|] st' [Ht Hr]; [|done..].
  eapply wp_mono; [by apply Hr|]. intros r st'' [Ht' Hr']. by rewrite Ht'.
Qed.

Lemma plain_attempt {A} db (m : Run A) (P : result (result A) -> DB -> Prop) :
  plain db m (fun r db' => match r with Panic => P Panic db' | _ => P (Ok r) db' end) -> plain db (attempt m) P.
Proof using Type. intros Hm st Hd. apply wp_attempted. eapply wp_mono; [by apply Hm|]. by intros [a|e|] st' [? ?]. Qed.

Lemma plain_same {A} db (op : Op W A) (P : result A -> DB -> Prop) :
  (forall w r w', op w = (r, w') -> same w w' /\ forall e, r <> Err e) -> (forall a, P (Ok a) db) -> P Panic db -> plain db (call op) P.
Proof using Type.
  intros Hop HP Hpanic st Hd. apply wp_driver. intros r w E. destruct (Hop _ _ _ E) as [[E1 _] He]. cbn [world trace]. rewrite E1, Hd.
  split; [done|]. destruct r as [a|e|]; [apply HP|by destruct (He e)|done].
Qed.

Lemma plain_FindOne db c id cond (P : result (document c) -> DB -> Prop) :
  (forall now d, matching cond now (docs c db !! id) = Some d -> P (Ok d) db) ->
  (forall now, matching cond now (docs c db !! id) = None -> P (Err ErrNoDocuments) db) ->
  (forall e, foreign e -> e <> ErrNoDocuments -> P (Err e) db) -> P Panic db -> plain db (call (FindOne Plain c id cond)) P.
Proof.
  intros Hok Hnone Herr Hpanic st Hd. apply wp_driver. intros r w E%FindOne_law. unfold reading in E. cbn [world trace]. split; [done|].
  destruct r as [d|e|].
  - destruct E as ([E1 _] & db1 & now & Hv & Ha). cbn in Hv. rewrite E1, Hd. simplify_eq. by eapply Hok.
  - destruct e; try (by destruct E as [Hf (E1 & _)]; rewrite E1, Hd; by apply Herr).
    destruct E as ([E1 _] & db1 & now & Hv & Ha). cbn in Hv. rewrite E1, Hd. simplify_eq. by eapply Hnone.
  - destruct E as (E1 & _). by rewrite E1, Hd.
Qed.

(** A write that fails may have happened, unless its error says that it has not. *)
Lemma plain_writing {A} db (op : Op W A) (f : effect A) (P : result A -> DB -> Prop) :
  (forall w r w', op w = (r, w') -> writing Plain w w' r f) ->
  (forall now a db', f db now = Some (a, db') -> P (Ok a) db') -> (forall e, foreign e -> P (Err e) db) ->
  (forall e now a db', foreign e -> e <> ErrNoDocuments -> e <> ErrDuplicateKey -> f db now = Some (a, db') -> P (Err e) db') ->
  P Panic db -> plain db (call op) P.
Proof using Type.
  intros Hop Hok Herr Hlost Hpanic st Hd. apply wp_driver. intros r w E%Hop. unfold writing in E. cbn [world trace]. split; [done|].
  destruct r as [a|e|]; [| |destruct E as (E1 & _); by rewrite E1, Hd].
  - destruct E as (db1 & db2 & now & Hv & Ha & E1 & _). cbn in Hv. simplify_eq. by eapply Hok.
  - destruct e; try (by destruct E as [Hf [_ [E1|[Hne (now & a & Ha)]]]]; [rewrite E1, Hd; by apply Herr|rewrite Hd in Ha; by eapply Hlost]).
    destruct E as [E1 _]. rewrite E1, Hd. by apply Herr.
Qed.

End Plain.

Create HintDb inside.
#[export] Hint Resolve inside_ret inside_lift inside_Now inside_NewObjectID inside_NewUUID : inside.
(* the type of a document is that of its collection *)
Ltac inside_call :=
  lazymatch goal with
  | |- @inside _ _ _ (@call _ _ (FindOne _ ?c _ _)) => apply (inside_FindOne c)
  | |- @inside _ _ _ (@call _ _ (FindFirst _ ?c _)) => apply (inside_FindFirst c)
  | |- @inside _ _ _ (@call _ _ (Find _ ?c _ _ _)) => apply (inside_Find c)
  | |- @inside _ _ _ (@call _ _ (CountDocuments _ ?c _)) => apply (inside_CountDocuments c)
  | |- @inside _ _ _ (@call _ _ (InsertOne _ ?c _)) => apply (inside_InsertOne c)
  | |- @inside _ _ _ (@call _ _ (UpdateOne _ ?c _ _ _)) => apply (inside_UpdateOne c)
  | |- @inside _ _ _ (@call _ _ (Upsert _ ?c _ _)) => apply (inside_Upsert c)
  | |- @inside _ _ _ (@call _ _ (FindOneAndUpdate _ ?c _ _ _ _)) => apply (inside_FindOneAndUpdate c)
  | |- @inside _ _ _ (@call _ _ (DeleteOne _ ?c _)) => apply (inside_DeleteOne c)
  | |- @inside _ _ _ (@call _ _ (DeleteMany _ ?c _)) => apply (inside_DeleteMany c)
  end.
#[export] Hint Extern 2 (inside _) => inside_call : inside.

(** Proves [inside] of a program by its structure. *)
Ltac inside_step :=
  lazymatch goal with
  | |- inside (_ ≫= _) => apply inside_bind; [|intros ?]
  | |- inside (attempt _) => apply inside_attempt
  | |- inside (forEach _ _) => apply inside_forEach; intros ?
  | |- inside (match _ with _ => _ end) => case_match
  | |- inside _ => solve [auto with inside]
  end.
