(* ===== verification/MongoPlan.v ===== *)
(** * pkg/storage/mongodb/admission.go: which plans are well-formed

    The checks of a plan that do not look at the database, and the parts of a plan that the
    store derives: its payloads, its ancillary transactions and its receipt. *)

From S2P Require Import Prelude Bytes Decimal Admission EngineTypes AdmissionPlan MongoEncoding.
Import Admission MongoEncoding.
Open Scope Z_scope.

Module MongoPlan.

Definition parses (value : StorageUint64) : bool := is_ok (ParseStorageUint64 value).

(** [planIdentityTopics]: the set of topics, unless one is repeated or is not text. *)
Fixpoint planTopics (l : list AdmissionTopic) (topics : gset (list byte)) : option (gset (list byte)) :=
  match l with
  | [] => Some topics
  | t :: l' =>
      if bool_decide (Topic t ∈ topics) || negb (validText (Topic t)) || negb (validText (PolicyID t)) then None
      else planTopics l' ({[ Topic t ]} ∪ topics)
  end.

Definition planIdentityTopics (plan : AdmissionCommit) : option (gset (list byte)) := planTopics (Topics (comIdentity plan)) ∅.

Fixpoint decisionsMatch (decisions : list AdmissionTopicDecision) (topics seen : gset (list byte)) : bool :=
  match decisions with
  | [] => true
  | d :: decisions' =>
      negb (bool_decide (decTopic d ∈ seen)) && validText (decTopic d) && bool_decide (decTopic d ∈ topics) &&
      decisionsMatch decisions' topics ({[ decTopic d ]} ∪ seen)
  end.

Definition planDecisionsMatch (decisions : list AdmissionTopicDecision) (topics : gset (list byte)) : bool :=
  (len decisions =? Z.of_nat (size topics)) && decisionsMatch decisions topics ∅.

Definition outboxIntentValid (intent : AdmissionOutboxIntent) (mode : AdmissionMode) (eventIDs : gset (list byte)) : bool :=
  negb (bool_decide (EventID intent ∈ eventIDs)) && validText (EventID intent) && validText (Target intent) &&
  match intentKind intent with
  | AdmissionOutboxLookup => true
  | AdmissionOutboxPropagation => negb (bool_decide (mode = AdmissionModeHistorical))
  | AdmissionOutboxOther _ => false
  end.

Fixpoint intentsValid (intents : list AdmissionOutboxIntent) (mode : AdmissionMode) (eventIDs : gset (list byte)) : bool :=
  match intents with
  | [] => true
  | i :: intents' => outboxIntentValid i mode eventIDs && intentsValid intents' mode ({[ EventID i ]} ∪ eventIDs)
  end.

Definition planOutboxValid (plan : AdmissionCommit) : bool := intentsValid (Outbox plan) (Mode (comIdentity plan)) ∅.

Definition validHistoryFence (fence : HistoryFence) : bool :=
  parses (ChainEpoch fence) && parses (TopicHistoryGeneration fence).

Definition validOutpoint (outpoint : AdmissionOutpoint) : bool :=
  validHash (opTxID outpoint) && is_ok (ParseStorageOutputIndex (opOutputIndex outpoint)).

Definition validDecisionSpends (spends : list AdmissionSpend) (txid : list byte) : bool :=
  forallb (fun spend => validOutpoint (spendOutpoint spend) && bool_decide (Spender spend = txid) && validText (ExpectedVersion spend)) spends.

Definition validOutpoints (outpoints : list AdmissionOutpoint) : bool := forallb validOutpoint outpoints.

(** The value of a number, or zero with the error dropped. *)
Definition parsed (value : StorageUint64) : Z := match ParseStorageUint64 value with Ok n => n | _ => 0 end.

(** [validAdmissionOutput]; the sum is that of uint64. *)
Definition validAdmissionOutput (output : AdmissionOutput) : bool :=
  validOutpoint (outOutpoint output) &&
  forallb parses [Satoshis output; outScore output; Offset (Script output); rangeLength (Script output)] &&
  parses (ByteLength (Payload (Script output))) && validHash (Digest (Payload (Script output))) &&
  (u64 (parsed (Offset (Script output)) + parsed (rangeLength (Script output))) <=? parsed (ByteLength (Payload (Script output)))).

Definition validDecisionOutputs (outputs : list AdmissionOutput) (txid : list byte) : bool :=
  forallb (fun output => bool_decide (opTxID (outOutpoint output) = txid) && validAdmissionOutput output) outputs.

Definition validDecisionEdges (edges : list AdmissionEdge) : bool :=
  forallb (fun edge => validOutpoint (Source edge) && validOutpoint (Consumer edge)) edges.

Definition validApplied (applied : AdmissionAppliedTransaction) (txid : list byte) : bool :=
  bool_decide (appliedTxID applied = txid) && validHash (appliedTxID applied) &&
  match appliedFirstSeen applied with Some h => parses h | None => true end &&
  match appliedProof applied with Some proof => validHash (Digest proof) && parses (ByteLength proof) | None => true end &&
  match appliedBlock applied with
  | None => true
  | Some b => validHash (blkHash b) && validHash (blkMerkleRoot b) && parses (blkHeight b) && parses (blkIndex b)
  end.

Definition validHistoryUpdate (update : AdmissionHistoryUpdate) (expected : HistoryFence) : bool :=
  match ParseStorageUint64 (NextTopicHistoryGeneration update), ParseStorageUint64 (TopicHistoryGeneration expected) with
  | Ok next, Ok current =>
      (current <? next) && parses (AffectedFromHeight update) &&
      match Handoff update with Some h => validText (Checkpoint h) | None => true end
  | _, _ => false
  end.

Definition decisionEffectsValid (decision : AdmissionTopicDecision) (txid : list byte) : bool :=
  validHistoryFence (ExpectedHistory decision) && validDecisionSpends (Spends decision) txid && validOutpoints (Evictions decision) &&
  validDecisionOutputs (decOutputs decision) txid && validDecisionEdges (Edges decision) && validApplied (Applied decision) txid &&
  match HistoryUpdate decision with Some update => validHistoryUpdate update (ExpectedHistory decision) | None => true end.

(** [steakBound]: the steak of the plan is that of its decisions. *)
Fixpoint indexesMatch (outputs : list AdmissionOutput) (entry : list Z) : bool :=
  match outputs, entry with
  | [], [] => true
  | o :: outputs', n :: entry' =>
      bool_decide (ParseStorageOutputIndex (opOutputIndex (outOutpoint o)) = Ok n) && indexesMatch outputs' entry'
  | _, _ => false
  end.

Definition entryBound (steak : gmap (list byte) AdmissionPlan.entrySlices) (decision : AdmissionTopicDecision) : bool :=
  match steak !! decTopic decision with
  | None => false
  | Some entry =>
      match AdmissionPlan.slice (AdmissionPlan.eOutputs entry), AdmissionPlan.slice (AdmissionPlan.eRetain entry), AdmissionPlan.slice (AdmissionPlan.eRemoved entry) with
      | Some indexes, Some _, Some _ => indexesMatch (decOutputs decision) indexes
      | _, _, _ => false
      end
  end.

Definition steakBound (plan : AdmissionCommit) : bool :=
  match AdmissionPlan.decodeSteak (comSteak plan) with
  | Ok steak => (Z.of_nat (size steak) =? len (Decisions plan)) && forallb (entryBound steak) (Decisions plan)
  | _ => false
  end.

Section Store.
Context (s : Store).

(** Every payload a plan refers to. *)
Definition references (plan : AdmissionCommit) : list AdmissionPayloadRef :=
  Payloads plan ++
  flat_map (fun d => map (fun o => Payload (Script o)) (decOutputs d) ++ option_list (appliedProof (Applied d))) (Decisions plan) ++
  flat_map intentPayloads (Outbox plan).

(** [admissionReferences]; a slice to which nothing was appended is nil, too. *)
Definition admissionReferences (plan : AdmissionCommit) : option (list AdmissionPayloadRef) :=
  let refs := references plan in
  if bool_decide (refs = []) || negb (forallb (fun ref => is_ok (validatePayload s ref)) refs) then None else Some refs.

Definition planEffectsValid (plan : AdmissionCommit) : bool :=
  match admissionReferences plan with
  | None => false
  | Some _ => forallb (fun d => decisionEffectsValid d (idTxID (comIdentity plan))) (Decisions plan)
  end.

Definition planShapeValid (plan : AdmissionCommit) : bool :=
  match planIdentityTopics plan with
  | None => false
  | Some topics => planDecisionsMatch (Decisions plan) topics && planOutboxValid plan && planEffectsValid plan && steakBound plan
  end.

Definition prevalidateAdmission (plan : AdmissionCommit) : rejection_code :=
  if negb (bool_decide (keyScope (comKey plan) = cfgScope (config s))) || negb (bool_decide (Scope (comIdentity plan) = keyScope (comKey plan)))
  then AdmissionRejectionDigestMismatch
  else match AdmissionSemanticDigest (comIdentity plan) with
  | Ok digest =>
      if negb (bool_decide (digest = SemanticDigest (comKey plan))) then AdmissionRejectionDigestMismatch
      else match projector s with
      | Some false => AdmissionRejectionUnsupportedProjection
      | _ => NoRejection
      end
  | _ => AdmissionRejectionDigestMismatch
  end.

End Store.

(** ** What is derived from a plan *)

Definition payloadKey (ref : AdmissionPayloadRef) : list byte := Digest ref ++ payloadKindText (Kind ref) ++ ByteLength ref.

Fixpoint uniqueFrom (refs : list AdmissionPayloadRef) (seen : gset (list byte)) : list AdmissionPayloadRef :=
  match refs with
  | [] => []
  | ref :: refs' =>
      if bool_decide (payloadKey ref ∈ seen) then uniqueFrom refs' seen else ref :: uniqueFrom refs' ({[ payloadKey ref ]} ∪ seen)
  end.

Definition uniquePayloads (refs : list AdmissionPayloadRef) : list AdmissionPayloadRef := uniqueFrom refs ∅.

Fixpoint uniqueHashes (txids : list (list byte)) (seen : gset (list byte)) : list (list byte) :=
  match txids with
  | [] => []
  | txid :: txids' =>
      if negb (validHash txid) then uniqueHashes txids' seen
      else if bool_decide (txid ∈ seen) then uniqueHashes txids' seen
      else txid :: uniqueHashes txids' ({[ txid ]} ∪ seen)
  end.

Definition planAncillaryTxids (plan : AdmissionCommit) : list (list byte) :=
  uniqueHashes (flat_map (fun d => flat_map Ancillary (decOutputs d)) (Decisions plan)) ∅.

Fixpoint receiptIndexes (intents : list AdmissionOutboxIntent) (seen : gset (list byte)) : list AdmissionIndexStatus :=
  match intents with
  | [] => []
  | i :: intents' =>
      match intentKind i with
      | AdmissionOutboxLookup =>
          if bool_decide (Target i ∈ seen) then receiptIndexes intents' seen
          else mkIndexStatus (Target i) AdmissionIndexPending :: receiptIndexes intents' ({[ Target i ]} ∪ seen)
      | _ => receiptIndexes intents' seen
      end
  end.

Definition is_propagation (i : AdmissionOutboxIntent) : bool := match intentKind i with AdmissionOutboxPropagation => true | _ => false end.

Definition makeAdmissionReceipt (plan : AdmissionCommit) : AdmissionReceipt :=
  mkReceipt (OperationID (comKey plan)) (SemanticDigest (comKey plan)) AdmissionDurabilityAtomicLocal (comSteak plan)
    (Some (receiptIndexes (Outbox plan) ∅))
    (if existsb is_propagation (Outbox plan) then AdmissionPropagationPending else AdmissionPropagationNotRequested).

(** ** Well-formed plans *)

Lemma planTopics_spec l topics :
  match planTopics l topics with
  | Some topics' => NoDup (map Topic l) /\ (forall x, x ∈ map Topic l -> x ∉ topics) /\ topics' = list_to_set (map Topic l) ∪ topics /\
      (forall t, t ∈ l -> validText (Topic t) = true /\ validText (PolicyID t) = true)
  | None => ~ (NoDup (map Topic l) /\ (forall x, x ∈ map Topic l -> x ∉ topics) /\ (forall t, t ∈ l -> validText (Topic t) = true /\ validText (PolicyID t) = true))
  end.
Proof.
  revert topics. induction l as [|t l IH]; intros topics; cbn [planTopics map].
  { split_and!; [constructor|set_solver|set_solver|set_solver]. }
  destruct (bool_decide (Topic t ∈ topics)) eqn:Ein; cbn [orb].
  { apply bool_decide_eq_true in Ein. intros (_ & Hn & _). apply (Hn (Topic t)); [by left|done]. }
  apply bool_decide_eq_false in Ein. destruct (validText (Topic t)) eqn:Et; cbn [negb orb].
  2: { intros (_ & _ & Hv). destruct (Hv t); [by left|congruence]. }
  destruct (validText (PolicyID t)) eqn:Ep; cbn [negb orb].
  2: { intros (_ & _ & Hv). destruct (Hv t); [by left|congruence]. }
  specialize (IH ({[ Topic t ]} ∪ topics)). destruct (planTopics l _) as [topics'|].
  - destruct IH as (Hnd & Hnot & -> & Hval). split_and!.
    + constructor; [|done]. intros Hin. apply (Hnot _ Hin). set_solver.
    + intros x [->|Hx]%elem_of_cons; [done|]. specialize (Hnot x Hx). set_solver.
    + cbn [list_to_set]. set_solver.
    + by intros t' [->|Ht]%elem_of_cons; [|apply Hval].
  - intros ([Hnt Hnd]%NoDup_cons & Hnot & Hval). apply IH. split_and!; [done| |by intros t' Ht; apply Hval; right].
    intros x Hx [->%elem_of_singleton|Hin]%elem_of_union; [done|]. apply (Hnot x); [by right|done].
Qed.

Lemma decisionsMatch_spec ds topics seen :
  decisionsMatch ds topics seen = true <->
  NoDup (map decTopic ds) /\ (forall x, x ∈ map decTopic ds -> (x ∉ seen) /\ x ∈ topics /\ validText x = true).
Proof.
  revert seen. induction ds as [|d ds IH]; intros seen; cbn [decisionsMatch map].
  { split; [intros _; split; [constructor|set_solver]|done]. }
  rewrite !andb_true_iff, negb_true_iff, bool_decide_eq_false, bool_decide_eq_true, IH, NoDup_cons. split.
  - intros [[[Hs Hv] Ht] [Hnd Hall]]. split_and!; [intros Hin; destruct (Hall _ Hin) as [Hn _]; set_solver|done|].
    intros x [->|Hx]%elem_of_cons; [done|]. destruct (Hall x Hx) as (Hn & Hx' & Hv'). split_and!; [set_solver|done|done].
  - intros [[Hn Hnd] Hall]. destruct (Hall (decTopic d)) as (Hs & Ht & Hv); [by left|]. split_and!; try done.
    intros x Hx. destruct (Hall x) as (? & ? & ?); [by right|]. split_and!; [|done|done]. intros [->%elem_of_singleton|?]%elem_of_union; done.
Qed.

Lemma planDecisionsMatch_spec ds topics :
  planDecisionsMatch ds topics = true <-> NoDup (map decTopic ds) /\ list_to_set (map decTopic ds) = topics /\ (forall d, d ∈ ds -> validText (decTopic d) = true).
Proof.
  unfold planDecisionsMatch. rewrite andb_true_iff, Z.eqb_eq, decisionsMatch_spec.
  assert (Hsize : NoDup (map decTopic ds) -> len ds = Z.of_nat (size (list_to_set (map decTopic ds) : gset (list byte)))).
  { intros Hnd. rewrite size_list_to_set by done. unfold len. by rewrite length_map. }
  assert (Hin : forall d, d ∈ ds -> decTopic d ∈ map decTopic ds) by (intros d Hd; apply list_elem_of_fmap; by exists d).
  split.
  - intros (Hlen & Hnd & Hall). split_and!; [done| |intros d Hd; by apply Hall, Hin].
    apply set_subseteq_size_eq; [|rewrite Hsize in Hlen by done; lia]. intros x Hx%elem_of_list_to_set. by apply Hall.
  - intros (Hnd & <- & Hv). split_and!; [by apply Hsize|done|]. intros x Hx. split_and!; [set_solver|by apply elem_of_list_to_set|].
    apply list_elem_of_fmap in Hx as (d & -> & Hd). by apply Hv.
Qed.

Definition intent_ok (mode : AdmissionMode) (i : AdmissionOutboxIntent) : Prop :=
  validText (EventID i) = true /\ validText (Target i) = true /\
  (intentKind i = AdmissionOutboxLookup \/ intentKind i = AdmissionOutboxPropagation /\ mode <> AdmissionModeHistorical).

Lemma intentsValid_spec l mode seen :
  intentsValid l mode seen = true <->
  NoDup (map EventID l) /\ (forall x, x ∈ map EventID l -> x ∉ seen) /\ Forall (intent_ok mode) l.
Proof.
  revert seen. induction l as [|i l IH]; intros seen; cbn [intentsValid map].
  { split; [intros _; split_and!; [constructor|set_solver|constructor]|done]. }
  unfold outboxIntentValid. rewrite !andb_true_iff, negb_true_iff, bool_decide_eq_false, IH, NoDup_cons, Forall_cons.
  assert (Hk : match intentKind i with
               | AdmissionOutboxLookup => true
               | AdmissionOutboxPropagation => negb (bool_decide (mode = AdmissionModeHistorical))
               | AdmissionOutboxOther _ => false
               end = true <-> intentKind i = AdmissionOutboxLookup \/ intentKind i = AdmissionOutboxPropagation /\ mode <> AdmissionModeHistorical).
  { destruct (intentKind i); rewrite ?negb_true_iff, ?bool_decide_eq_false; intuition discriminate. }
  unfold intent_ok at 2. rewrite Hk. split.
  - intros ((([Hs Hv] & Ht) & Hkind) & Hnd & Hall & Hok). split_and!; try done; [intros Hin; specialize (Hall _ Hin); set_solver|].
    intros x [->|Hx]%elem_of_cons; [done|]. specialize (Hall x Hx). set_solver.
  - intros ([Hn Hnd] & Hall & (Hv & Ht & Hkind) & Hok). split_and!; try done; [apply Hall; by left|].
    intros x Hx [->%elem_of_singleton|Hin]%elem_of_union; [done|]. apply (Hall x); [by right|done].
Qed.

Lemma indexesMatch_spec outputs entry :
  indexesMatch outputs entry = true <-> Forall2 (fun o n => ParseStorageOutputIndex (opOutputIndex (outOutpoint o)) = Ok n) outputs entry.
Proof.
  revert entry. induction outputs as [|o outputs IH]; intros [|n entry]; cbn [indexesMatch].
  - split; [constructor|done].
  - split; [done|by inversion 1].
  - split; [done|by inversion 1].
  - rewrite andb_true_iff, bool_decide_eq_true, IH, Forall2_cons. done.
Qed.

(** The entry of a steak has its slices, and the indices of the outputs. *)
Definition entry_of (d : AdmissionTopicDecision) (e : AdmissionPlan.entrySlices) : Prop :=
  is_Some (AdmissionPlan.slice (AdmissionPlan.eRetain e)) /\ is_Some (AdmissionPlan.slice (AdmissionPlan.eRemoved e)) /\
  exists indexes, AdmissionPlan.slice (AdmissionPlan.eOutputs e) = Some indexes /\
    Forall2 (fun o n => ParseStorageOutputIndex (opOutputIndex (outOutpoint o)) = Ok n) (decOutputs d) indexes.

Lemma entryBound_spec steak d : entryBound steak d = true <-> exists e, steak !! decTopic d = Some e /\ entry_of d e.
Proof.
  unfold entryBound, entry_of. destruct (steak !! decTopic d) as [e|]; [|split; [done|by intros (e & ? & _)]]. split.
  - destruct (AdmissionPlan.slice (AdmissionPlan.eOutputs e)) as [l|] eqn:E1, (AdmissionPlan.slice (AdmissionPlan.eRetain e)) as [l2|] eqn:E2,
      (AdmissionPlan.slice (AdmissionPlan.eRemoved e)) as [l3|] eqn:E3; try done. intros Hm%indexesMatch_spec.
    exists e. rewrite E1, E2, E3. eauto 10.
  - intros (e' & [= <-] & [l2 E2] & [l3 E3] & l & E1 & Hm). rewrite E1, E2, E3. by apply indexesMatch_spec.
Qed.

(** What a plan is, apart from the state of the database. *)
Record well_formed (s : Store) (plan : AdmissionCommit) : Prop := {
  wf_topics : NoDup (map Topic (Topics (comIdentity plan))) /\
    (forall t, t ∈ Topics (comIdentity plan) -> validText (Topic t) = true /\ validText (PolicyID t) = true);
  wf_decisions : map decTopic (Decisions plan) ≡ₚ map Topic (Topics (comIdentity plan));
  wf_intents : NoDup (map EventID (Outbox plan)) /\ Forall (intent_ok (Mode (comIdentity plan))) (Outbox plan);
  wf_payloads : references plan <> [] /\ forall ref, ref ∈ references plan -> is_ok (validatePayload s ref) = true;
  wf_effects : forall d, d ∈ Decisions plan -> decisionEffectsValid d (idTxID (comIdentity plan)) = true;
  wf_steak : exists steak, AdmissionPlan.decodeSteak (comSteak plan) = Ok steak /\ dom steak = list_to_set (map decTopic (Decisions plan)) /\
    forall d, d ∈ Decisions plan -> exists e, steak !! decTopic d = Some e /\ entry_of d e }.

Lemma steakBound_spec plan : NoDup (map decTopic (Decisions plan)) ->
  steakBound plan = true <->
  exists steak, AdmissionPlan.decodeSteak (comSteak plan) = Ok steak /\ dom steak = list_to_set (map decTopic (Decisions plan)) /\
    forall d, d ∈ Decisions plan -> exists e, steak !! decTopic d = Some e /\ entry_of d e.
Proof.
  intros Hnd. unfold steakBound. destruct (AdmissionPlan.decodeSteak (comSteak plan)) as [steak|e|]; [|split; [done|by intros (? & ? & _)]..].
  rewrite andb_true_iff, Z.eqb_eq, forallb_forall.
  assert (Hsize : len (Decisions plan) = Z.of_nat (size (list_to_set (map decTopic (Decisions plan)) : gset (list byte)))).
  { rewrite size_list_to_set by done. unfold len. by rewrite length_map. }
  split.
  - intros [Hlen Hall]. exists steak.
    assert (Hb : forall d, d ∈ Decisions plan -> exists e, steak !! decTopic d = Some e /\ entry_of d e).
    { intros d Hd. by apply entryBound_spec, Hall, list_elem_of_In. }
    split_and!; [done| |done]. symmetry. apply set_subseteq_size_eq; [|rewrite size_dom; lia].
    intros x Hx%elem_of_list_to_set. apply list_elem_of_fmap in Hx as (d & -> & Hd). destruct (Hb d Hd) as (e & He & _). by apply elem_of_dom.
  - intros (steak' & [= <-] & Hdom & Hall). split; [by rewrite <- size_dom, Hdom, Hsize|].
    intros d Hd%list_elem_of_In. by apply entryBound_spec, Hall.
Qed.

Lemma admissionReferences_spec s plan refs :
  admissionReferences s plan = Some refs <->
  refs = references plan /\ references plan <> [] /\ forall ref, ref ∈ references plan -> is_ok (validatePayload s ref) = true.
Proof.
  unfold admissionReferences. destruct (bool_decide (references plan = [])) eqn:E; cbn [orb].
  { apply bool_decide_eq_true in E. split; [done|by intros (_ & ? & _)]. }
  apply bool_decide_eq_false in E. destruct (forallb _ (references plan)) eqn:Ef; cbn [negb].
  - rewrite forallb_forall in Ef. split; [intros [= <-]|by intros (-> & _)]. split_and!; [done..|]. intros ref Hr. by apply Ef, list_elem_of_In.
  - split; [done|]. intros (_ & _ & Hall). assert (Ht : forallb (fun ref => is_ok (validatePayload s ref)) (references plan) = true); [|congruence].
    apply forallb_forall. intros ref Hr. by apply Hall, list_elem_of_In.
Qed.

Lemma accepted_plans_iff (s : Store) (plan : AdmissionCommit) : planShapeValid s plan = true <-> well_formed s plan.
Proof.
  unfold planShapeValid, planIdentityTopics, planEffectsValid. pose proof (planTopics_spec (Topics (comIdentity plan)) ∅) as Ht.
  destruct (planTopics _ _) as [topics|].
  - destruct Ht as (Hnd & _ & -> & Hval). rewrite union_empty_r_L. rewrite !andb_true_iff, planDecisionsMatch_spec. unfold planOutboxValid. rewrite intentsValid_spec. split.
    + intros [[[(Hdd & Heq & Hdv) (Hie & _ & Hok)] He] Hs]. destruct (admissionReferences s plan) as [refs|] eqn:Er; [|done].
      apply admissionReferences_spec in Er as (_ & Hne & Hrefs). rewrite forallb_forall in He. constructor; try done.
      * apply NoDup_Permutation; [done..|]. intros x. rewrite <- !(elem_of_list_to_set (C := gset (list byte))). by rewrite Heq.
      * intros d Hd. by apply He, list_elem_of_In.
      * by apply steakBound_spec.
    + intros [[_ _] Hperm [Hie Hok] [Hne Hrefs] He Hs]. assert (Hdd : NoDup (map decTopic (Decisions plan))) by (by rewrite Hperm). split_and!; try done.
      * apply list_to_set_perm_L. exact Hperm.
      * intros d Hd. assert (Hin : decTopic d ∈ map Topic (Topics (comIdentity plan))) by (rewrite <- Hperm; apply list_elem_of_fmap; by exists d).
        apply list_elem_of_fmap in Hin as (t & -> & Hin). by apply Hval.
      * assert (Er : admissionReferences s plan = Some (references plan)) by (by apply admissionReferences_spec). rewrite Er.
        apply forallb_forall. intros d Hd. by apply He, list_elem_of_In.
      * by apply steakBound_spec.
  - split; [done|]. intros [[Hnd Hv] _ _ _ _ _]. exfalso. apply Ht. split_and!; [done|set_solver|done].
Qed.

Lemma accepted_plans_wf s plan : planShapeValid s plan = true -> well_formed s plan.
Proof. apply accepted_plans_iff. Qed.

(** The plans that are accepted before the database is asked are the well-formed
    ones.  A plan passes exactly if: its topics are distinct and its decisions are for
    these topics, one each; its events are distinct, go to named targets, and propagate
    only in a mode that is not historical; it refers to at least one payload, and to no
    payload that is malformed or too large; the effects of every decision are those of its
    transaction, with hashes, canonical numbers and a history that advances; and its steak
    is JSON with exactly one entry per decision, whose outputs are those of the decision,
    in order. *)
Theorem accepted_plans (s : Store) (plan : AdmissionCommit) : planShapeValid s plan = true <-> well_formed s plan.
Proof. apply accepted_plans_iff. Qed.

(** ** The range of a script *)

(** The range of an output's script is checked modulo 2^64.  An output with valid
    numbers and hashes is accepted exactly if the sum of the offset and the length of its
    script, wrapped around, is within the payload; so a range within the payload is
    accepted, and every range that ends at 2^64 or beyond is accepted, too, if the excess
    is at most the length of the payload, although it lies outside the payload. *)
Theorem script_range_wraps (txid digest : list byte) (index satoshis score offset length total : Z) (kind : AdmissionPayloadKind) :
  validHash txid = true -> validHash digest = true -> is_u32 index -> is_u64 satoshis -> is_u64 score -> is_u64 offset -> is_u64 length -> is_u64 total ->
  let output := mkAdmissionOutput (mkAdmissionOutpoint txid (FormatUint index)) (FormatUint satoshis) (FormatUint score)
                  (mkRange (mkPayloadRef digest (FormatUint total) kind) (FormatUint offset) (FormatUint length)) [] in
  (validAdmissionOutput output = true <-> u64 (offset + length) <= total) /\
  (offset + length <= total -> validAdmissionOutput output = true) /\
  (2 ^ 64 <= offset + length <= 2 ^ 64 + total -> validAdmissionOutput output = true /\ total < offset + length).
Proof.
  intros Htx Hdig Hi Hsat Hsc Hoff Hlen Htot output.
  assert (Hp : forall n, is_u64 n -> ParseStorageUint64 (FormatUint n) = Ok n) by (intros n Hn; by apply ParseStorageUint64_Ok).
  assert (Hiff : validAdmissionOutput output = true <-> u64 (offset + length) <= total).
  { unfold validAdmissionOutput, validOutpoint, parses, parsed, output. cbn [outOutpoint opTxID opOutputIndex Satoshis outScore Script Offset rangeLength Payload ByteLength Digest forallb].
    unfold ParseStorageOutputIndex. assert (Hi64 : is_u64 index) by (unfold is_u32, is_u64, MaxUint32, MaxUint64 in *; lia).
    rewrite !Hp by done. rewrite Htx, Hdig. cbn [mbind result_bind is_ok andb]. destruct (Z.ltb_spec MaxUint32 index); [unfold is_u32 in Hi; lia|].
    cbn [is_ok andb]. apply Z.leb_le. }
  unfold is_u64, MaxUint64 in *. split_and!; [done|..]; intros Hr; rewrite Hiff; unfold u64; [rewrite Z.mod_small; lia|].
  split; [|lia]. replace (offset + length) with ((offset + length - 2 ^ 64) + 1 * 2 ^ 64) by lia. rewrite Z.mod_add, Z.mod_small; lia.
Qed.

Module Example.

(** A script of four bytes that starts at 2^64 - 2, in a payload of ten bytes. *)
Lemma script_range_wraps_witness :
  let output := mkAdmissionOutput (mkAdmissionOutpoint (replicate 64 Byte.x61) (FormatUint 0)) (FormatUint 1) (FormatUint 0)
                  (mkRange (mkPayloadRef (replicate 64 Byte.x62) (FormatUint 10) AdmissionPayloadRawTransaction) (FormatUint (2 ^ 64 - 2)) (FormatUint 4)) [] in
  validAdmissionOutput output = true.
Proof.
  assert (Hh : validHash (replicate 64 Byte.x61) = true /\ validHash (replicate 64 Byte.x62) = true) by (split; vm_compute; reflexivity).
  destruct Hh as [H1 H2]. unfold is_u32, is_u64, MaxUint32, MaxUint64 in *.
  apply (script_range_wraps (replicate 64 Byte.x61) (replicate 64 Byte.x62) 0 1 0 (2 ^ 64 - 2) 4 10 AdmissionPayloadRawTransaction H1 H2); unfold is_u32, is_u64, MaxUint32, MaxUint64; lia.
Defined.

End Example.

(** ** Payloads are told apart by their keys *)

Lemma payloadKey_inj s r1 r2 :
  is_ok (validatePayload s r1) = true -> is_ok (validatePayload s r2) = true -> payloadKey r1 = payloadKey r2 -> r1 = r2.
Proof.
  assert (Hv : forall r, is_ok (validatePayload s r) = true -> length (Digest r) = 64%nat /\ match Kind r with AdmissionPayloadOther _ => False | _ => True end).
  { intros r. unfold validatePayload. destruct (validHash (Digest r)) eqn:Eh; [|done]. apply andb_true_iff in Eh as [El _]. apply Z.eqb_eq in El.
    intros Hr. split; [unfold len in El; lia|]. cbn [negb] in Hr. by destruct (Kind r). }
  intros [L1 K1]%Hv [L2 K2]%Hv. unfold payloadKey. intros E. apply app_inj_1 in E as [Ed E]; [|lia].
  destruct r1 as [d1 l1 k1], r2 as [d2 l2 k2]. cbn in *. subst d2. destruct k1, k2; try done; cbn in E; try (injection E as ->; done); discriminate E.
Qed.

Lemma uniqueFrom_spec s refs seen : (forall r, r ∈ refs -> is_ok (validatePayload s r) = true) ->
  NoDup (uniqueFrom refs seen) /\ forall r, r ∈ uniqueFrom refs seen <-> r ∈ refs /\ payloadKey r ∉ seen.
Proof.
  revert seen. induction refs as [|ref refs IH]; intros seen Hv; cbn [uniqueFrom].
  { split; [constructor|]. intros r. rewrite elem_of_nil. tauto. }
  assert (Hv' : forall r, r ∈ refs -> is_ok (validatePayload s r) = true) by (intros r Hr; apply Hv; by right).
  destruct (bool_decide (payloadKey ref ∈ seen)) eqn:Eb; [apply bool_decide_eq_true in Eb|apply bool_decide_eq_false in Eb].
  - destruct (IH seen Hv') as [Hnd Hin]. split; [done|]. intros r. rewrite Hin, elem_of_cons. split; [intros [? ?]; split; [by right|done]|].
    intros [[->|Hr] Hn]; [done|by split].
  - destruct (IH ({[ payloadKey ref ]} ∪ seen) Hv') as [Hnd Hin]. split.
    + constructor; [|done]. rewrite Hin. intros [_ Hn]. set_solver.
    + intros r. rewrite !elem_of_cons, Hin. split; [intros [->|[Hr Hn]]; [by split; [left|]|split; [by right|set_solver]]|].
      intros [[->|Hr] Hn]; [by left|]. destruct (decide (payloadKey r = payloadKey ref)) as [E|Hne].
      * left. apply (payloadKey_inj s); [apply Hv; by right|apply Hv; by left|done].
      * right. split; [done|set_solver].
Qed.

(** The payloads without repetitions: the key distinguishes valid references. *)
Lemma uniquePayloads_spec s refs : (forall r, r ∈ refs -> is_ok (validatePayload s r) = true) ->
  NoDup (uniquePayloads refs) /\ forall r, r ∈ uniquePayloads refs <-> r ∈ refs.
Proof. intros Hv. destruct (uniqueFrom_spec s refs ∅ Hv) as [Hnd Hin]. split; [done|]. intros r. rewrite Hin. set_solver. Qed.

End MongoPlan.
