(* ===== verification/MongoBlob.v ===== *)
(** * pkg/storage/mongodb/blob.go: verified streams

    Payloads that are too large for a document are streamed to and from GridFS.  A stream
    is copied in chunks, and accepted only when it has the declared length and digest.
    Readers and writers are the interfaces of io: what they answer is unconstrained.  The
    trace records the bytes that are taken from readers and accepted by writers. *)

From S2P Require Import Prelude Bytes Sha256 Decimal Runs Traced Admission MongoEncoding MongoDriver MongoTransaction.
Import Admission MongoEncoding.
Open Scope Z_scope.

Module MongoBlob.

Definition blobChunkSize : Z := 255 * 1024.
Definition blobMaxBytes : Z := Z.shiftl 1 40.
Definition blobStateStaged : list byte := str "staged".
Definition blobStatePublished : list byte := str "published".

#[global] Instance blobMetadata_eq_dec : EqDecision blobMetadata.
Proof. solve_decision. Defined.

(** [mongo.GridFSFile]: a file, with metadata that may not decode. *)
Record GridFSFile := mkGridFSFile { gfLength : Z; gfChunkSize : Z; gfMetadata : option blobMetadata }.

Definition setBlobState (state : list byte) (m : blobMetadata) : blobMetadata :=
  mkBlobMetadata (bmChainID m) (bmDigest m) (bmByteLength m) (bmOwnerID m) (bmToken m) state.

Definition validateBlobMetadata (metadata : blobMetadata) : result Z :=
  if negb (validText (bmChainID metadata)) || negb (validHash (bmDigest metadata)) || negb (validText (bmOwnerID metadata)) || negb (validText (bmToken metadata))
  then Err ErrBlobMetadata
  else match ParseStorageUint64 (bmByteLength metadata) with
  | Ok length => if (blobMaxBytes <? length) || (2 ^ 63 - 1 <? length) then Err ErrBlobMetadata else Ok length
  | _ => Err ErrBlobMetadata
  end.

Definition sameBlobIdentity (left right : blobMetadata) : bool :=
  bool_decide (bmChainID left = bmChainID right) && bool_decide (bmDigest left = bmDigest right) &&
  bool_decide (bmByteLength left = bmByteLength right) && bool_decide (bmOwnerID left = bmOwnerID right) && bool_decide (bmToken left = bmToken right).

(** [strconv.ParseInt] of base ten and 64 bits: a sign, and digits. *)
Definition ParseInt (value : list byte) : option Z :=
  let '(negative, digits) := match value with
    | b :: rest => if bool_decide (b = Byte.x2d) then (true, rest) else if bool_decide (b = Byte.x2b) then (false, rest) else (false, value)
    | [] => (false, [])
    end in
  match ParseUint digits with
  | Some n => if negative : bool then (if 2 ^ 63 <? n then None else Some (- n)) else (if 2 ^ 63 - 1 <? n then None else Some n)
  | None => None
  end.

(** A length that is no number is none that is stored. *)
Definition blobLengthBSON (value : list byte) : Z := default (-1) (ParseInt value).

Definition sha256Hex (data : list byte) : list byte := hex_encode (hbytes (SHA256.Sum256 data)).

(** ** GridFS, and the context of the caller *)

(** The streams of a file are named by its identifier.  What a read leaves in the buffer
    is given by index. *)
Class GridFS (W : Type) := {
  CtxErr : Op W unit;
  OpenUploadStreamWithID : ObjectID -> blobMetadata -> Op W unit;
  UploadWrite : ObjectID -> list byte -> Op W (Z * option error);
  UploadClose : ObjectID -> Op W unit;
  UploadAbort : ObjectID -> Op W unit;
  OpenDownloadStream : ObjectID -> Op W (option GridFSFile);
  DownloadRead : ObjectID -> Z -> Op W (Z * (nat -> byte) * option error);
  DownloadClose : ObjectID -> Op W unit;
  FilesFindOne : ObjectID -> Op W storedBlobFile;
  FilesUpdateOne : ObjectID -> (storedBlobFile -> bool) -> (storedBlobFile -> storedBlobFile) -> Op W Z;
  FilesDeleteOne : ObjectID -> Op W unit;
  ChunksDeleteMany : ObjectID -> Op W unit }.

(** [io.Reader] and [io.Writer].  A read is given the length of its buffer; it answers a
    count, the buffer and an error that may be nil. *)
Definition Reader (W : Type) : Type := Z -> Run (St W tevent) (Z * (nat -> byte) * option error).
Definition Writer (W : Type) : Type := list byte -> Run (St W tevent) (Z * option error).

(** A reader that may also be read as a whole: [ReadLimited n] is what [io.ReadAll] makes
    of its [io.LimitReader] for [n] bytes. *)
Record Source (W : Type) := mkSource { Read : Reader W; ReadLimited : Z -> Run (St W tevent) (list byte) }.
Arguments mkSource {W}.
Arguments Read {W}.
Arguments ReadLimited {W}.

(** The first bytes of a buffer. *)
Definition slice (buffer : nat -> byte) (n : Z) : list byte := map buffer (seq 0 (Z.to_nat n)).

(** The bytes on a trace. *)
Definition consumed (tr : list tevent) : list byte := concat (map (fun ev => match ev with Consumed d => d | _ => [] end) tr).
Definition delivered (tr : list tevent) : list byte := concat (map (fun ev => match ev with Delivered d => d | _ => [] end) tr).

Section Readers.
Context {W : Type}.
Local Abbreviation St := (St W tevent).
Local Abbreviation Run := (Runs.Run St).

(** [bytes.NewReader]: what was read of it is what the trace says since it was made. *)
Definition bytesReader (data : list byte) : Run (Source W) := fun st =>
  let start := length (trace st) in
  let rest (st : St) := drop (length (consumed (drop start (trace st)))) data in
  Some (Ok (mkSource
    (fun n st => match rest st with
       | [] => Some (Ok (0, fun _ => Byte.x00, Some ErrEOF), st)
       | rest => Some (Ok (Z.min n (len rest), fun i => nth i rest Byte.x00, None), st)
       end)
    (fun n st => Some (Ok (take (Z.to_nat n) (rest st)), st))), st).

(** [bytes.Buffer]: it takes every byte, and its contents are on the trace. *)
Definition bufferWriter : Writer W := fun data => mret (len data, None).

End Readers.

Section Streams.
Context {W : Type} `{GridFS W}.
Local Abbreviation Run := (Runs.Run (St W tevent)).

(** ** Copying a stream *)

Fixpoint writeBlobBytes (fuel : nat) (writer : Writer W) (data : list byte) : Run unit :=
  match data, fuel with
  | [], _ => mret tt
  | _, O => exhausted
  | _, S fuel =>
      '(n, err) ← writer data;
      if (n <? 0) || (len data <? n) then lift (Err ErrShortWrite) else
      emit (Delivered (take (Z.to_nat n) data)) ≫= fun _ =>
      match err with
      | Some e => lift (Err e)
      | None => if n =? 0 then lift (Err ErrShortWrite) else writeBlobBytes fuel writer (drop (Z.to_nat n) data)
      end
  end.

(** The state of the hash is what was written to it. *)
Definition commitBlobChunk (writer : Writer W) (digest data : list byte) : Run (list byte) :=
  r ← attempt (writeBlobBytes (length data) writer data);
  match r with
  | Err e => lift (Err (ErrBlobWriter e))
  | _ => mret (digest ++ data)
  end.

(** The bytes written so far, whether to stop, and the hash. *)
Definition applyBlobChunk (writer : Writer W) (digest data : list byte) (n : Z) (readErr : option error) (written expected : Z) : Run (Z * bool * list byte) :=
  digest ← (if 0 <? n then commitBlobChunk writer digest data else mret digest);
  let written := if 0 <? n then written + n else written in
  match readErr with
  | Some e => if errorIs e ErrEOF && (written =? expected) then mret (written, true, digest) else lift (Err e)
  | None => if n =? 0 then lift (Err ErrNoProgress) else mret (written, false, digest)
  end.

Definition bufferSize : Z := Z.shiftl 32 10.

Definition readBlobChunk (reader : Reader W) (expected written : Z) : Run (Z * list byte * option error) :=
  _ ← call CtxErr;
  let remaining := expected - written in
  let wanted := if remaining <? bufferSize then remaining else bufferSize in
  '(n, buffer, readErr) ← reader wanted;
  if (n <? 0) || (wanted <? n) || ((0 <? n) && (remaining <? n)) then lift (Err ErrBlobCorrupt) else
  emit (Consumed (slice buffer n)) ≫= fun _ => mret (n, slice buffer n, readErr).

Fixpoint copyBlobBytes (fuel : nat) (reader : Reader W) (expected : Z) (writer : Writer W) (digest : list byte) (written : Z) : Run (Z * list byte) :=
  if negb (written <? expected) then mret (written, digest) else
  match fuel with
  | O => exhausted
  | S fuel =>
      '(n, data, readErr) ← readBlobChunk reader expected written;
      '(next, stop, digest) ← applyBlobChunk writer digest data n readErr written expected;
      if stop : bool then mret (next, digest) else copyBlobBytes fuel reader expected writer digest next
  end.

Definition finishBlobStream (reader : Reader W) (digest : list byte) (written : Z) : Run (list byte * Z) :=
  _ ← call CtxErr;
  '(n, _, readErr) ← reader 1;
  if 0 <? n then lift (Err ErrBlobCorrupt) else
  match readErr with
  | Some e => if bool_decide (e = ErrEOF) then mret (sha256Hex digest, written) else lift (Err e)
  | None => mret (sha256Hex digest, written)
  end.

Definition streamBlob (reader : Reader W) (expected : Z) (writer : Writer W) : Run (list byte * Z) :=
  '(written, digest) ← copyBlobBytes (Z.to_nat expected) reader expected writer [] 0;
  finishBlobStream reader digest written.

(** ** Files *)

Definition checkContext (ctx : Context) : Run unit :=
  match ctx with InSession => lift (Err ErrBlobContext) | Plain => call CtxErr end.

(** [errors.Join] of errors that may be nil. *)
Definition join (e1 e2 : option error) : option error :=
  match e1, e2 with Some a, Some b => Some (ErrJoin a b) | Some a, None => Some a | None, e => e end.

Definition errOf {A} (r : result A) : option error := match r with Err e => Some e | _ => None end.

Definition fail (e : option error) : Run unit := match e with Some e => lift (Err e) | None => mret tt end.

Definition publish (id : ObjectID) (metadata : blobMetadata) : Run unit :=
  matched ← call (FilesUpdateOne id
    (fun f => (sbLength f =? blobLengthBSON (bmByteLength metadata)) && (sbChunkSize f =? blobChunkSize) &&
              sameBlobIdentity (sbMetadata f) metadata && bool_decide (bmState (sbMetadata f) = blobStateStaged))
    (fun f => mkStoredFile (sbLength f) (sbChunkSize f) (setBlobState blobStatePublished (sbMetadata f))));
  if matched =? 1 then mret tt else lift (Err ErrBlobUnavailable).

(** [cleanup], after the stream was aborted: only chunks are deleted. *)
Definition uploadFailed (id : ObjectID) (err : error) : Run unit :=
  aborted ← attempt (call (UploadAbort id));
  cleaned ← attempt (call (ChunksDeleteMany id));
  fail (join (Some err) (join (errOf aborted) (errOf cleaned))).

Definition upload (ctx : Context) (id : ObjectID) (metadata : blobMetadata) (reader : option (Reader W)) : Run unit :=
  _ ← checkContext ctx;
  match reader with
  | None => lift (Err ErrBlobMetadata)
  | Some reader =>
      expected ← lift (validateBlobMetadata metadata);
      let metadata := setBlobState blobStateStaged metadata in
      _ ← call (OpenUploadStreamWithID id metadata);
      r ← attempt (
        '(digest, length) ← streamBlob reader expected (fun data => call (UploadWrite id data));
        if negb (length =? expected) || negb (bool_decide (digest = bmDigest metadata)) then lift (Err ErrBlobCorrupt) else call (UploadClose id));
      match r with
      | Err e => uploadFailed id e
      | _ => publish id metadata
      end
  end.

Definition loadPublishedBlob (id : ObjectID) (metadata : blobMetadata) (expected : Z) : Run storedBlobFile :=
  found ← attempt (call (FilesFindOne id));
  match found with
  | Err ErrNoDocuments => lift (Err ErrBlobUnavailable)
  | Ok stored =>
      if (sbLength stored <? 0) || negb (sbLength stored =? expected) || negb (sbChunkSize stored =? blobChunkSize) ||
         negb (bool_decide (bmState (sbMetadata stored) = blobStatePublished)) || negb (sameBlobIdentity (sbMetadata stored) metadata)
      then lift (Err ErrBlobUnavailable) else mret stored
  | r => lift r
  end.

Definition openDownloadStream (id : ObjectID) : Run (option GridFSFile) :=
  r ← attempt (call (OpenDownloadStream id));
  match r with
  | Err e => lift (Err (if errorIs e ErrFileNotFound then ErrBlobUnavailable else e))
  | _ => lift r
  end.

Definition verifyStreamedBlobFile (file : option GridFSFile) (stored : storedBlobFile) (metadata : blobMetadata) (expected : Z) : result unit :=
  match file with
  | None => Err ErrBlobUnavailable
  | Some file =>
      if negb (gfLength file =? sbLength stored) || negb (gfChunkSize file =? blobChunkSize) || (gfLength file <? 0) || negb (gfLength file =? expected)
      then Err ErrBlobUnavailable
      else match gfMetadata file with
      | None => Err ErrBlobUnavailable
      | Some m => if negb (bool_decide (bmState m = blobStatePublished)) || negb (sameBlobIdentity m metadata) then Err ErrBlobUnavailable else Ok tt
      end
  end.

(** [errors.As] of a [blobWriterError] *)
Fixpoint fromWriter (e : error) : bool :=
  match e with ErrBlobWriter _ => true | ErrJoin e1 e2 => fromWriter e1 || fromWriter e2 | _ => false end.

Definition copyVerifiedBlob (stream : Reader W) (expected : Z) (digest : list byte) (writer : Writer W) : Run unit :=
  r ← attempt (streamBlob stream expected writer);
  match r with
  | Err e =>
      if fromWriter e || errorIs e (ErrContext Canceled) || errorIs e (ErrContext DeadlineExceeded) then lift (Err e)
      else lift (Err (ErrJoin ErrBlobCorrupt e))
  | Ok (gotDigest, length) => if negb (length =? expected) || negb (bool_decide (gotDigest = digest)) then lift (Err ErrBlobCorrupt) else mret tt
  | Panic => lift Panic
  end.


Definition copy (ctx : Context) (id : ObjectID) (metadata : blobMetadata) (writer : option (Writer W)) : Run unit :=
  _ ← checkContext ctx;
  match writer with
  | None => lift (Err ErrBlobMetadata)
  | Some writer =>
      expected ← lift (validateBlobMetadata metadata);
      stored ← loadPublishedBlob id metadata expected;
      file ← openDownloadStream id;
      r ← attempt (_ ← lift (verifyStreamedBlobFile file stored metadata expected); copyVerifiedBlob (fun n => call (DownloadRead id n)) expected (bmDigest metadata) writer);
      closed ← attempt (call (DownloadClose id));
      fail (match errOf r with Some e => Some e | None => errOf closed end)
  end.

Definition remove (ctx : Context) (id : ObjectID) : Run unit :=
  _ ← checkContext ctx;
  file ← attempt (call (FilesDeleteOne id));
  chunks ← attempt (call (ChunksDeleteMany id));
  fail (join (errOf file) (errOf chunks)).

End Streams.

(** ** What a copy has done *)

Lemma consumed_app t1 t2 : consumed (t1 ++ t2) = consumed t1 ++ consumed t2.
Proof. unfold consumed. by rewrite map_app, concat_app. Qed.

Lemma delivered_app t1 t2 : delivered (t1 ++ t2) = delivered t1 ++ delivered t2.
Proof. unfold delivered. by rewrite map_app, concat_app. Qed.

Lemma length_slice buffer n : 0 <= n -> len (slice buffer n) = n.
Proof. intros Hn. unfold len, slice. rewrite length_map, length_seq. lia. Qed.

Lemma wp_regroup {S A B C} t (m : Runs.Run S A) (g : A -> Runs.Run S B) (k : B -> Runs.Run S C) (g' : A -> Runs.Run S C) s Q :
  (forall x, g' x = g x ≫= k) -> wp t ((m ≫= g) ≫= k) s Q -> wp t (m ≫= g') s Q.
Proof. intros E. unfold wp, mbind, run_bind. destruct (m s) as [[[a|e|] s']|]; [by rewrite E|done..]. Qed.

Section Rules.
Context {W : Type} `{GridFS W}.
Local Abbreviation St := (St W tevent).
Local Abbreviation Run := (Runs.Run St).

(** What a copy keeps: [F] of the world in any case, and as long as nothing fails [J d]
    when the writer has taken the bytes [d]. *)
Context (F : W -> Prop) (J : list byte -> W -> Prop).

Record stream_rules (reader : Reader W) (writer : Writer W) : Prop := {
  rule_weaken : forall d w, J d w -> F w;
  rule_ctx : forall d w r w', J d w -> CtxErr w = (r, w') -> F w' /\ (r = Ok tt -> J d w');
  rule_read : forall n d st, J d (world st) ->
    wp true (reader n) st (fun r st' => trace st' = trace st /\ F (world st') /\ (is_ok r = true -> J d (world st')));
  rule_write : forall data d st, J d (world st) -> wp true (writer data) st (fun r st' => trace st' = trace st /\ F (world st') /\
    forall n err, r = Ok (n, err) -> 0 <= n <= len data -> J (d ++ take (Z.to_nat n) data) (world st')) }.

Context (reader : Reader W) (writer : Writer W) (rules : stream_rules reader writer).
#[local] Set Default Proof Using "rules".

Lemma writeBlobBytes_wp fuel data d st : (length data <= fuel)%nat -> J d (world st) ->
  wp true (writeBlobBytes fuel writer data) st (fun r st' => F (world st') /\ exists tr, trace st' = trace st ++ tr /\
    consumed tr = [] /\ delivered tr `prefix_of` data /\ (r = Ok tt -> delivered tr = data /\ J (d ++ data) (world st'))).
Proof.
  revert data d st. induction fuel as [|fuel IH]; intros [|b data] d st Hl HJ; try (cbn in Hl; lia).
  1,2: apply wp_ret; split; [by eapply rule_weaken|]; exists []; rewrite !app_nil_r; by split_and!.
  cbn [writeBlobBytes]. apply wp_bind. eapply wp_mono; [by apply (rule_write _ _ rules (b :: data) d)|].
  assert (Hnone : forall st' : St, trace st' = trace st -> exists tr, trace st' = trace st ++ tr /\ consumed tr = [] /\ delivered tr `prefix_of` b :: data).
  { intros st' Et. exists []. rewrite app_nil_r. split_and!; [done|done|]. apply prefix_nil. }
  intros [[n err]|e|] st1 (Et & HF & HJ1); [|split; [done|]; destruct (Hnone _ Et) as (tr & ? & ? & ?); by exists tr..].
  destruct ((n <? 0) || (len (b :: data) <? n)) eqn:En; [apply wp_lift; split; [done|]; destruct (Hnone _ Et) as (tr & ? & ? & ?); by exists tr|].
  apply orb_false_iff in En as [En1%Z.ltb_ge En2%Z.ltb_ge]. specialize (HJ1 n err eq_refl (conj En1 En2)).
  apply wp_bind. cbn [wp emit]. set (k := Z.to_nat n) in *. set (part := take k (b :: data)) in *.
  assert (Hone : exists tr, trace st1 ++ [Delivered part] = trace st ++ tr /\ consumed tr = [] /\ delivered tr `prefix_of` b :: data).
  { exists [Delivered part]. split_and!; [by rewrite Et|done|]. cbn. rewrite app_nil_r. apply prefix_take. }
  destruct err as [e|]; [apply wp_lift; split; [done|]; destruct Hone as (tr & ? & ? & ?); by exists tr|].
  destruct (Z.eqb_spec n 0) as [|Hn0]; [apply wp_lift; split; [done|]; destruct Hone as (tr & ? & ? & ?); by exists tr|].
  eapply wp_mono; [apply (IH _ (d ++ part)); [rewrite length_drop; cbn [length] in *; lia|exact HJ1]|].
  intros r st' (HF' & tr & Et' & Ec & Hp & Hok). split; [done|]. exists (Delivered part :: tr). cbn [trace world] in *.
  assert (Ed : delivered (Delivered part :: tr) = part ++ delivered tr) by done. rewrite Ed. split_and!; [by rewrite Et', Et, <- app_assoc|exact Ec| |].
  - rewrite <- (take_drop k (b :: data)). by apply prefix_app.
  - intros Er. destruct (Hok Er) as [-> HJ']. unfold part. rewrite take_drop. split; [done|]. unfold part in HJ'. by rewrite <- app_assoc, take_drop in HJ'.
Qed.

Lemma commitBlobChunk_wp digest data n st : len data = n -> J digest (world st) ->
  wp true (if 0 <? n then commitBlobChunk writer digest data else mret digest) st (fun r st' => F (world st') /\ exists tr, trace st' = trace st ++ tr /\
    consumed tr = [] /\ delivered tr `prefix_of` data /\ forall d, r = Ok d -> d = digest ++ data /\ delivered tr = data /\ J d (world st')).
Proof.
  intros Hn HJ. destruct (Z.ltb_spec 0 n) as [Hpos|Hpos].
  - unfold commitBlobChunk. apply wp_bind, wp_attempted. eapply wp_mono; [by apply (writeBlobBytes_wp _ data digest)|].
    intros r st' (HF & tr & Et & E1 & E2 & E3).
    destruct r as [[]|e|]; [apply wp_ret|apply wp_lift|]; (split; [done|]; exists tr; split_and!; [done..|]); try done.
    destruct (E3 eq_refl) as [Hd HJ']. by intros d [= <-].
  - assert (data = []) as -> by (apply nil_length_inv; unfold len in Hn; lia). apply wp_ret. split; [by eapply rule_weaken|]. exists []. rewrite !app_nil_r.
    split_and!; [done..|]. by intros d [= <-].
Qed.

(** What a part of a copy does: the writer has taken what was read, or a prefix of it. *)
Definition moved (digest : list byte) (room : Z) (st st' : St) (Q : option (Z * list byte) -> Prop) : Prop :=
  F (world st') /\ exists tr, trace st' = trace st ++ tr /\ delivered tr `prefix_of` consumed tr /\ len (consumed tr) <= room /\
    (Q None \/ Q (Some (len (consumed tr), digest ++ consumed tr)) /\ delivered tr = consumed tr /\ J (digest ++ consumed tr) (world st')).

Lemma moved_none digest room st st' (Q : option (Z * list byte) -> Prop) :
  0 <= room -> F (world st') -> trace st' = trace st -> Q None -> moved digest room st st' Q.
Proof. intros Hr HF Et HQ. split; [done|]. exists []. rewrite app_nil_r. split_and!; [done|done|done|by left]. Qed.

(** One turn of the loop: a chunk is read and given to the writer. *)
Lemma chunk_wp expected written digest st : 0 <= written < expected -> J digest (world st) ->
  wp true ('(n, data, readErr) ← readBlobChunk reader expected written; applyBlobChunk writer digest data n readErr written expected) st
    (fun r st' => moved digest (expected - written) st st' (fun o =>
      match r, o with
      | Ok (next, stop, digest'), Some (n, d) => next = written + n /\ digest' = d /\ (if stop : bool then next = expected else 0 < n)
      | Ok _, None => False
      | _, o => o = None
      end)).
Proof.
  intros Hw HJ. assert (Hroom : 0 <= expected - written) by lia.
  apply wp_bind. unfold readBlobChunk. apply wp_bind, wp_driver. intros r w Ec. destruct (rule_ctx _ _ rules _ _ _ _ HJ Ec) as [HF HJ1].
  destruct r as [[]|e|]; [specialize (HJ1 eq_refl)|by apply moved_none..].
  apply wp_bind. eapply wp_mono; [apply (rule_read _ _ rules _ digest); exact HJ1|]. cbn [world trace]. intros [[[n buffer] readErr]|e|] st1 (Et & HF1 & HJ2); [|by apply moved_none..].
  specialize (HJ2 eq_refl). set (wanted := if expected - written <? bufferSize then _ else _).
  assert (Hwanted : wanted <= expected - written) by (unfold wanted; destruct (Z.ltb_spec (expected - written) bufferSize); lia).
  destruct ((n <? 0) || (wanted <? n) || ((0 <? n) && (expected - written <? n))) eqn:En; [by apply moved_none|].
  apply orb_false_iff in En as [[En1%Z.ltb_ge En2%Z.ltb_ge]%orb_false_iff _]. apply wp_bind. cbn [wp emit]. apply wp_ret.
  pose proof (length_slice buffer n En1) as Hlen. set (data := slice buffer n) in *.
  unfold applyBlobChunk. apply wp_bind. eapply wp_mono; [by apply commitBlobChunk_wp|]. cbn [trace]. intros r st2 (HF2 & tr & Et2 & E1 & E2 & E3).
  assert (Ec' : consumed (Consumed data :: tr) = data) by (unfold consumed; cbn; fold (consumed tr); by rewrite E1, app_nil_r).
  assert (Hmoved : forall Q : option (Z * list byte) -> Prop, (Q None \/ Q (Some (n, digest ++ data)) /\ delivered tr = data /\ J (digest ++ data) (world st2)) ->
    moved digest (expected - written) st st2 Q).
  { intros Q HQ. split; [done|]. exists (Consumed data :: tr). rewrite Ec', Hlen. split_and!; [by rewrite Et2, Et, <- app_assoc|exact E2|lia|exact HQ]. }
  destruct r as [d|e|]; [|by apply Hmoved; left..]. destruct (E3 d eq_refl) as (-> & Ed & HJ3). cbv zeta.
  replace (if 0 <? n then written + n else written) with (written + n) by (destruct (Z.ltb_spec 0 n); lia).
  destruct readErr as [e|].
  - destruct (errorIs e ErrEOF && (written + n =? expected)) eqn:Eeof; [|by apply wp_lift, Hmoved; left]. apply andb_true_iff in Eeof as [_ Eeof%Z.eqb_eq].
    apply wp_ret, Hmoved. by right.
  - destruct (Z.eqb_spec n 0); [by apply wp_lift, Hmoved; left|]. apply wp_ret, Hmoved. right. split_and!; (done || lia).
Qed.

Lemma moved_trans digest room (st st1 st2 : St) n d Q1 (Q2 Q : option (Z * list byte) -> Prop) :
  moved digest room st st1 Q1 -> ~ Q1 None -> (forall n' d', Q1 (Some (n', d')) -> n' = n /\ d' = d) -> moved d (room - n) st1 st2 Q2 ->
  (Q2 None -> Q None) -> (forall n' d', Q2 (Some (n', d')) -> Q (Some (n + n', d'))) -> moved digest room st st2 Q.
Proof using Type.
  intros (HF1 & t1 & E1 & P1 & L1 & H1) Hno Hd (HF2 & t2 & E2 & P2 & L2 & H2) Hn Hs. destruct H1 as [?|(H1 & D1 & J1)]; [done|].
  destruct (Hd _ _ H1) as [<- <-]. split; [done|]. exists (t1 ++ t2). rewrite delivered_app, consumed_app, D1. split_and!.
  - by rewrite E2, E1, app_assoc.
  - by apply prefix_app.
  - rewrite len_app. lia.
  - destruct H2 as [H2|(H2 & D2 & J2)]; [left; by apply Hn|right]. rewrite D2, len_app, app_assoc. split_and!; [by apply Hs|done|done].
Qed.

Lemma copyBlobBytes_wp fuel expected digest written st :
  (Z.to_nat (expected - written) <= fuel)%nat -> 0 <= written <= expected -> J digest (world st) ->
  wp true (copyBlobBytes fuel reader expected writer digest written) st (fun r st' => moved digest (expected - written) st st' (fun o =>
    match r, o with
    | Ok (next, digest'), Some (n, d) => next = written + n /\ digest' = d /\ next = expected
    | Ok _, None => False
    | _, o => o = None
    end)).
Proof.
  revert digest written st. induction fuel as [|fuel IH]; intros digest written st Hfuel Hw HJ; cbn [copyBlobBytes]; destruct (Z.ltb_spec written expected) as [Hlt|Hge]; cbn [negb].
  1: lia.
  1,3: apply wp_ret; split; [by eapply rule_weaken|]; exists []; rewrite !app_nil_r; change (len (consumed [])) with 0; split_and!; [done|done|lia|];
    right; split_and!; (done || lia).
  eapply (wp_regroup true (readBlobChunk reader expected written) (fun '(n, data, readErr) => applyBlobChunk writer digest data n readErr written expected)
    (fun '(next, stop, digest) => if stop : bool then mret (next, digest) else copyBlobBytes fuel reader expected writer digest next));
    [by intros [[n data] readErr]|].
  apply wp_bind. eapply wp_mono; [apply chunk_wp; [lia|done]|]. intros [[[next stop] d]|e|] st1 Hm; [|done..].
  pose proof Hm as (HF & tr & _ & _ & Hl & [|((En & Ed & Hstop) & _ & HJ1)]); [done|]. subst next d. set (n := len (consumed tr)) in *. destruct stop.
  - apply wp_ret. eapply (moved_trans _ _ st st1 st1 n (digest ++ consumed tr) _ (fun o => o = Some (0, digest ++ consumed tr))); [exact Hm|by intros []|intros n' d' (E & <- & _); split; [clear -E; unfold n; lia|done]| | |].
    + split; [done|]. exists []. rewrite !app_nil_r. change (len (consumed [])) with 0. split_and!; [done|done|lia|]. right.
      by split_and!.
    + done.
    + intros n' d' [= -> ->]. split_and!; (done || lia).
  - eapply wp_mono; [apply (IH (digest ++ consumed tr) (written + n)); [lia|lia|exact HJ1]|]. intros r st2 Hm2.
    eapply (moved_trans _ _ st st1 st2 n (digest ++ consumed tr)); [exact Hm|by intros []|intros n' d' (E & <- & _); split; [clear -E; unfold n; lia|done]| | |].
    + replace (expected - written - n) with (expected - (written + n)) by lia. exact Hm2.
    + done.
    + intros n' d' Hr. destruct r as [[next' digest']|e|]; [|done..]. destruct Hr as (-> & -> & ?). split_and!; (done || lia).
Qed.

(** A stream is copied: it ends, the writer takes a prefix of what is read, of at most
    [expected] bytes; on success these are [expected] bytes and the digest is theirs. *)
Lemma streamBlob_wp expected st : 0 <= expected -> J [] (world st) ->
  wp true (streamBlob reader expected writer) st (fun r st' => F (world st') /\ exists tr, trace st' = trace st ++ tr /\
    delivered tr `prefix_of` consumed tr /\ len (consumed tr) <= expected /\
    forall digest n, r = Ok (digest, n) -> n = expected /\ len (consumed tr) = expected /\ delivered tr = consumed tr /\
      digest = sha256Hex (consumed tr) /\ J (consumed tr) (world st')).
Proof.
  intros He HJ. unfold streamBlob. apply wp_bind. eapply wp_mono; [apply (copyBlobBytes_wp _ expected [] 0); [lia|lia|exact HJ]|].
  intros r st1 (HF1 & tr & Et & Hp & Hl & Hr). rewrite Z.sub_0_r in Hl.
  destruct r as [[written digest]|e|]; [|split; [done|]; by exists tr..]. destruct Hr as [|((-> & -> & E) & Ed & HJ1)]; [done|]. cbn [app] in *.
  assert (Hfail : forall (r : result (list byte * Z)) (st' : St), F (world st') -> trace st' = trace st1 -> (forall x, r <> Ok x) -> F (world st') /\ exists tr, trace st' = trace st ++ tr /\
    delivered tr `prefix_of` consumed tr /\ len (consumed tr) <= expected /\
    forall digest n, r = Ok (digest, n) -> n = expected /\ len (consumed tr) = expected /\ delivered tr = consumed tr /\
      digest = sha256Hex (consumed tr) /\ J (consumed tr) (world st')).
  { intros r st' HF Et' Hr. split; [done|]. exists tr. rewrite Et'. split_and!; [done..|]. intros digest n Er. by destruct (Hr _ Er). }
  unfold finishBlobStream. apply wp_bind, wp_driver. intros r w Ec. destruct (rule_ctx _ _ rules _ _ _ _ HJ1 Ec) as [HF HJ2].
  destruct r as [[]|e|]; [specialize (HJ2 eq_refl)|by apply Hfail..].
  apply wp_bind. eapply wp_mono; [apply (rule_read _ _ rules 1); exact HJ2|]. cbn [world trace]. intros [[[n buffer] readErr]|e|] st2 (Et2 & HF2 & HJ3); [|by apply Hfail..].
  specialize (HJ3 eq_refl). destruct (0 <? n); [by apply Hfail|].
  assert (Hdone : wp true (mret (sha256Hex (consumed tr), 0 + len (consumed tr))) st2 (fun r st' => F (world st') /\ exists tr, trace st' = trace st ++ tr /\
    delivered tr `prefix_of` consumed tr /\ len (consumed tr) <= expected /\
    forall digest n, r = Ok (digest, n) -> n = expected /\ len (consumed tr) = expected /\ delivered tr = consumed tr /\
      digest = sha256Hex (consumed tr) /\ J (consumed tr) (world st'))).
  { apply wp_ret. split; [done|]. exists tr. rewrite Et2. split_and!; [done..|]. intros digest n' [= <- <-]. by split_and!. }
  destruct readErr as [e|]; [|exact Hdone]. destruct (bool_decide (e = ErrEOF)); [exact Hdone|by apply Hfail].
Qed.

End Rules.

(** ** What is assumed of GridFS

    A file is under its identifier; what an upload does to it while it fails is left open.
    [pendingUpload]: the metadata and the bytes of the stream that is open for an
    identifier. *)

Definition fileAt (db : DB) (id : ObjectID) : option storedBlobFile * option (list byte) := (dbFiles db !! id, dbChunks db !! id).

(** Nothing is changed but the file of an identifier. *)
Definition apart (id : ObjectID) (db db' : DB) : Prop :=
  (forall c, docs c db' = docs c db) /\ forall j, j <> id -> fileAt db' j = fileAt db j.

Lemma apart_refl id db : apart id db db.
Proof. done. Qed.

Lemma apart_trans id db1 db2 db3 : apart id db1 db2 -> apart id db2 db3 -> apart id db1 db3.
Proof. intros [D1 F1] [D2 F2]. split; [intros c; by rewrite D2|intros j Hj; by rewrite F2, F1]. Qed.

Class GridFSState (W : Type) := { pendingUpload : W -> ObjectID -> option (blobMetadata * list byte) }.

Section Beside.
Context {W : Type} `{MongoState W, GridFSState W}.

Definition inert (w w' : W) : Prop := same w w' /\ pendingUpload w' = pendingUpload w.
Definition beside (id : ObjectID) (w w' : W) : Prop := session w' = session w /\ apart id (durable w) (durable w').

Lemma same_beside id w w' : same w w' -> beside id w w'.
Proof. intros [E1 E2]. split; [done|]. by rewrite E1. Qed.

Lemma beside_trans id w1 w2 w3 : beside id w1 w2 -> beside id w2 w3 -> beside id w1 w3.
Proof. intros [S1 E1] [S2 E2]. split; [by rewrite S2|by eapply apart_trans]. Qed.

(** A published file with the bytes that its metadata promise. *)
Definition holds (metadata : blobMetadata) (data : list byte) : Prop :=
  sha256Hex data = bmDigest metadata /\ bmByteLength metadata = FormatUint (len data) /\ is_u64 (len data).

Definition published (db : DB) (id : ObjectID) (metadata : blobMetadata) : Prop :=
  exists data, fileAt db id = (Some (mkStoredFile (len data) blobChunkSize (setBlobState blobStatePublished metadata)), Some data) /\ holds metadata data.

End Beside.

Class GridFSLaws (W : Type) `{GridFS W, MongoState W, GridFSState W} : Prop := {
  CtxErr_law : forall w r w', CtxErr w = (r, w') -> inert w w';
  OpenUploadStreamWithID_law : forall id metadata w r w', OpenUploadStreamWithID id metadata w = (r, w') ->
    beside id w w' /\ (r = Ok tt -> pendingUpload w' id = Some (metadata, []));
  UploadWrite_law : forall id data w r w', UploadWrite id data w = (r, w') ->
    beside id w w' /\ forall n err metadata d, r = Ok (n, err) -> 0 <= n <= len data -> pendingUpload w id = Some (metadata, d) ->
      pendingUpload w' id = Some (metadata, d ++ take (Z.to_nat n) data);
  UploadClose_law : forall id w r w', UploadClose id w = (r, w') ->
    beside id w w' /\ forall metadata d, r = Ok tt -> pendingUpload w id = Some (metadata, d) ->
      fileAt (durable w') id = (Some (mkStoredFile (len d) blobChunkSize metadata), Some d);
  UploadAbort_law : forall id w r w', UploadAbort id w = (r, w') -> beside id w w';
  OpenDownloadStream_law : forall id w r w', OpenDownloadStream id w = (r, w') -> same w w';
  DownloadRead_law : forall id n w r w', DownloadRead id n w = (r, w') -> same w w';
  DownloadClose_law : forall id w r w', DownloadClose id w = (r, w') -> same w w';
  FilesFindOne_law : forall id w r w', FilesFindOne id w = (r, w') -> same w w';
  FilesUpdateOne_law : forall id cond u w r w', FilesUpdateOne id cond u w = (r, w') ->
    beside id w w' /\ (r = Ok 1 -> exists f, dbFiles (durable w) !! id = Some f /\ cond f = true /\
      fileAt (durable w') id = (Some (u f), dbChunks (durable w) !! id));
  FilesDeleteOne_law : forall id w r w', FilesDeleteOne id w = (r, w') -> beside id w w';
  ChunksDeleteMany_law : forall id w r w', ChunksDeleteMany id w = (r, w') -> beside id w w' }.

(** A reader of the caller ends, and does not use the store. *)
Definition outside {W A} `{MongoState W, GridFSState W} (m : Runs.Run (St W tevent) A) : Prop :=
  forall st, wp true m st (fun _ st' => trace st' = trace st /\ inert (world st) (world st')).

Section Files.
Context {W : Type} `{!GridFS W, !MongoState W, !GridFSState W} {laws : GridFSLaws W}.
Local Abbreviation St := (St W tevent).
Local Abbreviation Run := (Runs.Run St).
#[local] Set Default Proof Using "Type laws".

Lemma inert_refl (w : W) : inert w w.
Proof using Type. done. Qed.

Lemma inert_trans (w1 w2 w3 : W) : inert w1 w2 -> inert w2 w3 -> inert w1 w3.
Proof using Type. intros [[D1 S1] P1] [[D2 S2] P2]. split; [split; [by rewrite D2|by rewrite S2]|by rewrite P2]. Qed.

Lemma checkContext_wp ctx (st : St) : wp true (checkContext ctx) st (fun r st' => trace st' = trace st /\ inert (world st) (world st') /\ (r = Ok tt -> ctx = Plain)).
Proof. destruct ctx; [|by apply wp_lift]. apply wp_driver. intros r w E%CtxErr_law. by split_and!. Qed.

Lemma validateBlobMetadata_Ok (m : blobMetadata) n : validateBlobMetadata m = Ok n -> is_u64 n /\ bmByteLength m = FormatUint n /\ n <= blobMaxBytes.
Proof using Type.
  unfold validateBlobMetadata. destruct (_ || _); [done|]. destruct (ParseStorageUint64 _) as [k|e|] eqn:E; [|done..].
  apply ParseStorageUint64_Ok in E as [Hk ->]. destruct ((blobMaxBytes <? k) || _) eqn:Eb; [done|]. apply orb_false_iff in Eb as [Eb%Z.ltb_ge _]. by intros [= <-].
Qed.

(** The reader of bytes in memory. *)
Lemma bytesReader_wp data (st : St) : wp true (bytesReader data) st (fun r st' => st' = st /\
  exists reader, r = Ok reader /\ (forall k, outside (Read reader k)) /\ (forall k, outside (ReadLimited reader k))).
Proof using Type.
  split; [done|]. eexists. split; [done|]. split; intros k st'; cbn [Read ReadLimited wp]; [|by split].
  unfold wp. by destruct (drop _ data).
Qed.

(** *** Copies *)

Lemma same_trans (w1 w2 w3 : W) : same w1 w2 -> same w2 w3 -> same w1 w3.
Proof using Type. intros [D1 S1] [D2 S2]. split; [by rewrite D2|by rewrite S2]. Qed.

(** What a copy that ends with [r] has delivered. *)
Definition copied (m : blobMetadata) (st st' : St) (r : result unit) : Prop :=
  same (world st) (world st') /\ exists tr, trace st' = trace st ++ tr /\ delivered tr `prefix_of` consumed tr /\ len (consumed tr) <= blobMaxBytes /\
    (r = Ok tt -> holds m (delivered tr)).

Lemma copied_none m (st st' : St) r : same (world st) (world st') -> trace st' = trace st -> r <> Ok tt -> copied m st st' r.
Proof using Type. intros Hs Et Hr. split; [done|]. exists []. rewrite app_nil_r. split_and!; [done|done|by vm_compute|done]. Qed.

Lemma wp_fail (o : option error) t (st : St) (Q : result unit -> St -> Prop) : Q (match o with Some e => Err e | None => Ok tt end) st -> wp t (fail o) st Q.
Proof using Type. by destruct o. Qed.

(** The bytes that a verified copy has delivered. *)
Lemma copyVerifiedBlob_wp (stream : Reader W) m expected (writer : Writer W) (st : St) :
  (forall n w r w', stream n w = Some (r, w') -> trace w' = trace w /\ same (world w) (world w')) -> (forall n w, stream n w <> None) ->
  (forall data, outside (writer data)) -> is_u64 expected -> bmByteLength m = FormatUint expected -> expected <= blobMaxBytes ->
  wp true (copyVerifiedBlob stream expected (bmDigest m) writer) st (fun r st' => copied m st st' r).
Proof.
  intros Hstream Hends Hw Hu Em Hmax. unfold copyVerifiedBlob. apply wp_bind, wp_attempted. eapply wp_mono.
  { apply (streamBlob_wp (same (world st)) (fun _ => same (world st))); [|by unfold is_u64 in Hu; lia|done]. constructor.
    - done.
    - intros d w r w' HJ [E _]%CtxErr_law. assert (same (world st) w') by (by eapply same_trans). by split.
    - intros n d st' HJ. unfold wp. destruct (stream n st') as [[r st'']|] eqn:E; [|by destruct (Hends n st')]. destruct (Hstream _ _ _ _ E) as [Et Hs].
      assert (same (world st) (world st'')) by (by eapply same_trans). by split_and!.
    - intros data d st' HJ. eapply wp_mono; [apply Hw|]. intros r st'' [Et [Hs _]]. assert (same (world st) (world st'')) by (by eapply same_trans). by split_and!. }
  intros r st' (Hs & tr & Et & Hp & Hl & Hok).
  assert (Hc : forall r' : result unit, (r' = Ok tt -> holds m (delivered tr)) -> copied m st st' r').
  { intros r' Hr'. split; [done|]. exists tr. split_and!; [done|done|lia|done]. }
  destruct r as [[digest n]|e|]; [|destruct (_ || _); by apply wp_lift, Hc|by apply Hc]. destruct (Hok _ _ eq_refl) as (-> & Hlen & Ed & -> & _).
  destruct (negb (expected =? expected) || negb (bool_decide (sha256Hex (consumed tr) = bmDigest m))) eqn:Eb; [by apply wp_lift, Hc|].
  apply wp_ret, Hc. intros _. apply orb_false_iff in Eb as [_ Eb%negb_false_iff%bool_decide_eq_true]. unfold holds. rewrite Ed, Hlen. by split_and!.
Qed.

Lemma copied_then m (st st1 st2 : St) r r' : copied m st st1 r -> same (world st1) (world st2) -> trace st2 = trace st1 -> (r' = Ok tt -> r = Ok tt) -> copied m st st2 r'.
Proof using Type.
  intros (Hs & tr & Et & Hp & Hl & Hr) Hs' Et' Hr'. split; [by eapply same_trans|]. exists tr. rewrite Et'. split_and!; [done..|]. intros E. by apply Hr, Hr'.
Qed.

Lemma copied_after m (st st1 st2 : St) r : same (world st) (world st1) -> trace st1 = trace st -> copied m st1 st2 r -> copied m st st2 r.
Proof using Type. intros Hs Et (Hs' & tr & Et' & H). split; [by eapply same_trans|]. exists tr. by rewrite Et', Et. Qed.

(** Whatever GridFS and the writer answer, a copy ends; a prefix of at most the allowed
    bytes was delivered, and on success the bytes that the metadata promise. *)
Lemma copy_wp ctx id m (writer : Writer W) (st : St) :
  (forall data, outside (writer data)) -> wp true (copy ctx id m (Some writer)) st (fun r st' => copied m st st' r).
Proof.
  intros Hw. unfold copy. apply wp_bind. eapply wp_mono; [apply checkContext_wp|]. intros [[]|e|] st1 (Et1 & [Hs1 _] & _); [|by apply copied_none..].
  apply wp_bind, wp_lift. destruct (validateBlobMetadata m) as [expected|e|] eqn:Em; [|by apply copied_none..]. apply validateBlobMetadata_Ok in Em as (Hu & Em & Hmax).
  apply wp_bind. unfold loadPublishedBlob. apply wp_bind, wp_attempted, wp_driver. intros found w2 E2%FilesFindOne_law.
  assert (Hs2 : same (world st) w2) by (by eapply same_trans). destruct found as [stored|e|]; [|destruct e; apply wp_lift; by apply copied_none|by apply copied_none].
  match goal with |- wp _ (if ?b then _ else _) _ _ => destruct b end; [by apply wp_lift, copied_none|]. apply wp_ret. cbn [world trace].
  apply wp_bind. unfold openDownloadStream. apply wp_bind, wp_attempted, wp_driver. intros file w3 E3%OpenDownloadStream_law. cbn [world] in *.
  assert (Hs3 : same (world st) w3) by (by eapply same_trans). destruct file as [file|e|]; [|by apply wp_lift, copied_none|by apply copied_none]. apply wp_lift. cbn [trace].
  apply wp_bind, wp_attempted. apply wp_bind, wp_lift.
  assert (Hclose : forall (r : result unit) st4, r <> Panic -> copied m (mkSt w3 (trace st1)) st4 r ->
    wp true (closed ← attempt (call (DownloadClose id)); fail (match errOf r with Some e => Some e | None => errOf closed end)) st4 (fun r' st' => copied m st st' r')).
  { intros r st4 Hnp Hc. apply wp_bind, wp_attempted, wp_driver. intros closed w5 E5%DownloadClose_law.
    assert (Hlast : forall r', (r' = Ok tt -> r = Ok tt) -> copied m st (mkSt w5 (trace st4)) r').
    { intros r' Hr'. eapply (copied_then _ _ st4); [by eapply (copied_after _ _ (mkSt w3 (trace st1)))|done|done|exact Hr']. }
    destruct closed as [[]|e|]; [apply wp_fail, Hlast..|by apply Hlast]; by destruct r as [[]|e'|]. }
  destruct (verifyStreamedBlobFile file stored m expected) as [[]|e|]; [|by apply Hclose; [|apply copied_none]|by apply copied_none].
  eapply wp_mono; [apply (copyVerifiedBlob_wp _ m); try done|].
  - intros n w r w'. unfold call. destruct (DownloadRead id n (world w)) as [r' w''] eqn:E. intros [= <- <-]. by apply DownloadRead_law in E.
  - intros n w. unfold call. by destruct (DownloadRead id n (world w)) as [? ?].
  - intros r st4 Hc. destruct r as [[]|e|]; [by apply Hclose..|]. by eapply (copied_after _ _ (mkSt w3 (trace st1))).
Qed.

(** *** Uploads *)

(** What is done to a file. *)
Definition filing (id : ObjectID) (st st' : St) : Prop := beside id (world st) (world st') /\ exists tr, trace st' = trace st ++ tr.

Lemma filing_silent id (st : St) w : beside id (world st) w -> filing id st (mkSt w (trace st)).
Proof using Type. intros Hb. split; [done|]. exists []. by rewrite app_nil_r. Qed.

Lemma filing_trans id (st1 st2 st3 : St) : filing id st1 st2 -> filing id st2 st3 -> filing id st1 st3.
Proof using Type. intros [B1 [t1 E1]] [B2 [t2 E2]]. split; [by eapply beside_trans|]. exists (t1 ++ t2). by rewrite E2, E1, app_assoc. Qed.

Lemma ParseInt_format n : 0 <= n <= blobMaxBytes -> ParseInt (FormatUint n) = Some n.
Proof using Type.
  intros Hn. assert (Hu : is_u64 n) by (unfold is_u64, MaxUint64; change blobMaxBytes with (2 ^ 40) in Hn; lia).
  assert (Hd : forallb is_digit (FormatUint n) = true) by apply (FormatUint_spec n Hu).
  unfold ParseInt. pose proof (ParseUint_format n Hu) as Hp. destruct (FormatUint n) as [|b rest]; [done|].
  cbn [forallb] in Hd. apply andb_true_iff in Hd as [Hb _]. rewrite !bool_decide_false by (intros ->; by vm_compute in Hb). rewrite Hp.
  destruct (Z.ltb_spec (2 ^ 63 - 1) n); [change blobMaxBytes with (2 ^ 40) in Hn; lia|done].
Qed.

Lemma sameBlobIdentity_spec (a b : blobMetadata) state : sameBlobIdentity a b = true -> setBlobState state a = setBlobState state b.
Proof using Type. unfold sameBlobIdentity. rewrite !andb_true_iff, !bool_decide_eq_true. destruct a, b. cbn. by intros [[[[-> ->] ->] ->] ->]. Qed.

Lemma publish_file_wp id m (st : St) : wp true (publish id m) st (fun r st' => filing id st st' /\ (r = Ok tt -> forall f c,
  fileAt (durable (world st)) id = (Some f, Some c) ->
  fileAt (durable (world st')) id = (Some (mkStoredFile (sbLength f) (sbChunkSize f) (setBlobState blobStatePublished m)), Some c))).
Proof.
  unfold publish. apply wp_bind, wp_driver. intros r w [Hb Hok]%FilesUpdateOne_law. destruct r as [n|e|]; [|by split; [apply filing_silent|]..].
  destruct (Z.eqb_spec n 1) as [->|Hn]; [apply wp_ret|apply wp_lift]; (split; [by apply filing_silent|]); [|done].
  intros _ f c [= Hf Hc]. destruct (Hok eq_refl) as (f' & Hf' & Hcond & E). simplify_eq. cbn [world]. rewrite E, Hc.
  rewrite !andb_true_iff in Hcond. destruct Hcond as [[_ Hsame] _]. by rewrite (sameBlobIdentity_spec _ _ _ Hsame).
Qed.

Lemma uploadFailed_wp id e (st : St) : wp true (uploadFailed id e) st (fun r st' => filing id st st' /\ r <> Ok tt).
Proof.
  unfold uploadFailed. apply wp_bind, wp_attempted, wp_driver. intros aborted w Ea%UploadAbort_law.
  assert (Hdel : forall (o : option error), wp true (cleaned ← attempt (call (ChunksDeleteMany id)); fail (join (Some e) (join o (errOf cleaned)))) (mkSt w (trace st))
    (fun r st' => filing id st st' /\ r <> Ok tt)).
  { intros o. apply wp_bind, wp_attempted, wp_driver. intros cleaned w' Ec%ChunksDeleteMany_law. cbn [world trace] in *.
    assert (Hf : filing id st (mkSt w' (trace st))) by (by apply filing_silent; eapply beside_trans).
    destruct cleaned as [[]|e'|]; [apply wp_fail..|]; (split; [done|]); by destruct o. }
  destruct aborted as [[]|e'|]; [apply (Hdel None)|apply (Hdel (Some e'))|by split; [apply filing_silent|]].
Qed.

Lemma uploadStream_wp id m expected (reader : Reader W) (st : St) : (forall n, outside (reader n)) -> is_u64 expected ->
  bmByteLength m = FormatUint expected -> pendingUpload (world st) id = Some (m, []) ->
  wp true ('(digest, length) ← streamBlob reader expected (fun data => call (UploadWrite id data));
           if negb (length =? expected) || negb (bool_decide (digest = bmDigest m)) then lift (Err ErrBlobCorrupt) else call (UploadClose id)) st
    (fun r st' => filing id st st' /\ (r = Ok tt -> exists d, fileAt (durable (world st')) id = (Some (mkStoredFile (len d) blobChunkSize m), Some d) /\ holds m d)).
Proof.
  intros Hr Hu Em Hp. apply wp_bind. eapply wp_mono.
  { apply (streamBlob_wp (beside id (world st)) (fun d w => beside id (world st) w /\ pendingUpload w id = Some (m, d)));
      [|by unfold is_u64 in Hu; lia|by split; [apply same_beside|]]. constructor.
    - by intros d w [? _].
    - intros d w r w' [HJ HP] [Es Ep]%CtxErr_law. assert (beside id (world st) w') by (eapply beside_trans; [done|by apply same_beside]). split; [done|].
      intros _. split; [done|]. by rewrite Ep.
    - intros n d st' [HJ HP]. eapply wp_mono; [apply Hr|]. intros r st'' [Et [Hs Ep]].
      assert (beside id (world st) (world st'')) by (eapply beside_trans; [done|by apply same_beside]). split_and!; [done|done|]. intros _. split; [done|]. by rewrite Ep.
    - intros data d st' [HJ HP]. apply wp_driver. intros r w [Eb Ew]%UploadWrite_law. assert (beside id (world st) w) by (by eapply beside_trans).
      split_and!; [done|done|]. intros n err -> Hn. split; [done|]. by eapply Ew. }
  intros r st1 (Hb & tr & Et & _ & _ & Hok). assert (Hf : filing id st st1) by (split; [done|by exists tr]).
  destruct r as [[digest n]|e|]; [|by split..]. destruct (Hok _ _ eq_refl) as (-> & Hlen & _ & -> & _ & HP).
  destruct (negb (expected =? expected) || negb (bool_decide (sha256Hex (consumed tr) = bmDigest m))) eqn:Eb; [by split|].
  apply orb_false_iff in Eb as [_ Eb%negb_false_iff%bool_decide_eq_true]. apply wp_driver. intros r w [Hb' Hclose]%UploadClose_law.
  split; [eapply filing_trans; [done|by apply filing_silent]|]. intros ->. exists (consumed tr). split; [by apply Hclose|].
  unfold holds. rewrite Hlen. by split_and!.
Qed.

(** An upload ends; only the file of its identifier is touched, and on success it is
    published with the bytes that the metadata promise. *)
Lemma upload_wp ctx id m (reader : option (Reader W)) (st : St) : (forall r n, reader = Some r -> outside (r n)) ->
  wp true (upload ctx id m reader) st (fun r st' => filing id st st' /\ (r = Ok tt -> published (durable (world st')) id m)).
Proof.
  intros Hr. unfold upload. apply wp_bind. eapply wp_mono; [apply checkContext_wp|]. intros r st1 (Et1 & [Hs1 _] & _).
  assert (Hf1 : filing id st st1) by (split; [by apply same_beside|exists []; by rewrite app_nil_r]).
  destruct r as [[]|e|]; [|by split..]. destruct reader as [reader|]; [|by split].
  apply wp_bind, wp_lift. destruct (validateBlobMetadata m) as [expected|e|] eqn:Em; [|by split..]. apply validateBlobMetadata_Ok in Em as (Hu & Em & Hmax).
  set (staged := setBlobState blobStateStaged m). apply wp_bind, wp_driver. intros r w2 [Hb2 Hp2]%OpenUploadStreamWithID_law.
  assert (Hf2 : filing id st (mkSt w2 (trace st1))) by (eapply filing_trans; [exact Hf1|by apply filing_silent]).
  destruct r as [[]|e|]; [|by split..]. apply wp_bind, wp_attempted.
  eapply wp_mono; [apply (uploadStream_wp id staged expected); [intros n; by eapply Hr|done|done|by apply Hp2]|].
  intros r st3 [Hf3 Hok]. assert (Hf : filing id st st3) by (by eapply filing_trans).
  destruct r as [[]|e|]; [| |by split].
  - destruct (Hok eq_refl) as (d & Hd & Hh). eapply wp_mono; [apply publish_file_wp|]. intros r st4 [Hf4 Hpub]. split; [by eapply filing_trans|].
    intros Er. exists d. split; [|exact Hh]. exact (Hpub Er _ _ Hd).
  - eapply wp_mono; [apply uploadFailed_wp|]. intros r st4 [Hf4 Hne]. split; [by eapply filing_trans|done].
Qed.

Lemma remove_wp ctx id (st : St) : wp true (remove ctx id) st (fun r st' => beside id (world st) (world st') /\ trace st' = trace st).
Proof.
  unfold remove. apply wp_bind. eapply wp_mono; [apply checkContext_wp|]. intros r st1 (Et1 & [Hs1 _] & _). apply (same_beside id) in Hs1.
  destruct r as [[]|e|]; [|by split..]. apply wp_bind, wp_attempted, wp_driver. intros r w Ef%FilesDeleteOne_law.
  assert (H2 : beside id (world st) w) by (by eapply beside_trans).
  assert (Hdel : forall o : option error, wp true (chunks ← attempt (call (ChunksDeleteMany id)); fail (join o (errOf chunks))) (mkSt w (trace st1))
    (fun _ st' => beside id (world st) (world st') /\ trace st' = trace st)).
  { intros o. apply wp_bind, wp_attempted, wp_driver. intros r' w' Ec%ChunksDeleteMany_law. cbn [world trace] in *.
    assert (beside id (world st) w') by (by eapply beside_trans). destruct r' as [[]|e|]; [apply wp_fail; by split..|by split]. }
  destruct r as [[]|e|]; [apply (Hdel None)|apply (Hdel (Some e))|by split].
Qed.

End Files.

End MongoBlob.
