(* ===== verification/MongoBlobModel.v ===== *)
(** * A small GridFS

    The bucket on which the witnesses run: uploads and downloads proceed by at most eight
    bytes at a time. *)

From S2P Require Import Prelude Bytes Runs Traced MongoEncoding MongoDriver MongoModel MongoTransaction MongoBlob.
Import MongoBlob MongoModel.
Open Scope Z_scope.

Module MongoBlobModel.

Definition putFiles (fi : gmap ObjectID storedBlobFile) (ch : gmap ObjectID (list byte)) (db : DB) : DB :=
  let '(mkDB py rf op sc ou ed ap tr ob rd fe le cu _ _) := db in mkDB py rf op sc ou ed ap tr ob rd fe le cu fi ch.

Definition setUploads (u : gmap ObjectID (blobMetadata * list byte)) (w : world) : world :=
  mkWorld (wDurable w) (wSession w) (wNext w) (wFaults w) u (wPositions w).
Definition setPositions (p : gmap ObjectID nat) (w : world) : world :=
  mkWorld (wDurable w) (wSession w) (wNext w) (wFaults w) (wUploads w) p.
Definition setDurable (db : DB) (w : world) : world := setState db (wSession w) w.

Definition missing : error := ErrExternal 3.
Definition step : nat := 8.

#[global] Instance modelFiles : GridFSState world := {| pendingUpload w id := wUploads w !! id |}.

Definition position (w : world) (id : ObjectID) : nat := default 0%nat (wPositions w !! id).

Definition downloadRead (id : ObjectID) (n : Z) : Op world (Z * (nat -> byte) * option error) := fun w =>
  match drop (position w id) (default [] (dbChunks (wDurable w) !! id)) with
  | [] => (Ok (0, fun _ => Byte.x00, Some ErrEOF), w)
  | rest =>
      let k := Nat.min (Nat.min step (Z.to_nat n)) (length rest) in
      (Ok (Z.of_nat k, fun i => nth i rest Byte.x00, None), setPositions (<[id := (position w id + k)%nat]> (wPositions w)) w)
  end.

#[global] Instance bucket : GridFS world := {|
  CtxErr := fine;
  OpenUploadStreamWithID id metadata := fun w => (Ok tt, setUploads (<[id := (metadata, [])]> (wUploads w)) w);
  UploadWrite id data := fun w =>
    match wUploads w !! id with
    | Some (metadata, d) =>
        let k := Nat.min step (length data) in
        (Ok (Z.of_nat k, None), setUploads (<[id := (metadata, d ++ take k data)]> (wUploads w)) w)
    | None => (Ok (0, Some missing), w)
    end;
  UploadClose id := fun w =>
    match wUploads w !! id with
    | Some (metadata, d) =>
        (Ok tt, setDurable (putFiles (<[id := mkStoredFile (len d) blobChunkSize metadata]> (dbFiles (wDurable w))) (<[id := d]> (dbChunks (wDurable w))) (wDurable w)) w)
    | None => (Err missing, w)
    end;
  UploadAbort id := fun w => (Ok tt, setUploads (delete id (wUploads w)) w);
  OpenDownloadStream id := fun w =>
    match dbFiles (wDurable w) !! id with
    | Some f => (Ok (Some (mkGridFSFile (sbLength f) (sbChunkSize f) (Some (sbMetadata f)))), setPositions (<[id := 0%nat]> (wPositions w)) w)
    | None => (Err ErrFileNotFound, w)
    end;
  DownloadRead := downloadRead;
  DownloadClose id := fine;
  FilesFindOne id := fun w => (match dbFiles (wDurable w) !! id with Some f => Ok f | None => Err ErrNoDocuments end, w);
  FilesUpdateOne id cond u := fun w =>
    match dbFiles (wDurable w) !! id with
    | Some f => if cond f then (Ok 1, setDurable (putFiles (<[id := u f]> (dbFiles (wDurable w))) (dbChunks (wDurable w)) (wDurable w)) w) else (Ok 0, w)
    | None => (Ok 0, w)
    end;
  FilesDeleteOne id := fun w => (Ok tt, setDurable (putFiles (delete id (dbFiles (wDurable w))) (dbChunks (wDurable w)) (wDurable w)) w);
  ChunksDeleteMany id := fun w => (Ok tt, setDurable (putFiles (dbFiles (wDurable w)) (delete id (dbChunks (wDurable w))) (wDurable w)) w) |}.

Lemma putFiles_docs fi ch db c : docs c (putFiles fi ch db) = docs c db.
Proof. by destruct db, c. Qed.

Lemma putFiles_at fi ch db id : fileAt (putFiles fi ch db) id = (fi !! id, ch !! id).
Proof. by destruct db. Qed.

Lemma beside_files id fi ch (w : world) : (forall j, j <> id -> (fi !! j, ch !! j) = fileAt (wDurable w) j) -> beside id w (setDurable (putFiles fi ch (wDurable w)) w).
Proof. intros H. split; [done|]. split; [intros c; apply putFiles_docs|]. intros j Hj. cbn [durable modelState setDurable setState wDurable]. by rewrite putFiles_at, H. Qed.

#[global] Instance bucketLaws : GridFSLaws world.
Proof.
  constructor.
  - by intros w r w' [= <- <-].
  - intros id metadata w r w' [= <- <-]. split; [done|]. intros _. apply lookup_insert_eq.
  - intros id data w r w'. cbn [UploadWrite bucket pendingUpload modelFiles]. destruct (wUploads w !! id) as [[metadata d]|] eqn:E; intros [= <- <-]; (split; [done|]); intros n err m d' [= <- <-] Hn Hp; [|congruence].
    simplify_eq. cbn [wUploads setUploads]. by rewrite lookup_insert_eq, Nat2Z.id.
  - intros id w r w'. cbn [UploadClose bucket pendingUpload modelFiles]. destruct (wUploads w !! id) as [[metadata d]|] eqn:E; intros [= <- <-]; [|by split].
    split; [apply beside_files; intros j Hj; by rewrite !lookup_insert_ne|]. intros m d' _ [= <- <-]. cbn [durable modelState setDurable setState wDurable]. by rewrite putFiles_at, !lookup_insert_eq.
  - by intros id w r w' [= <- <-].
  - intros id w r w'. cbn [OpenDownloadStream bucket]. by destruct (dbFiles (wDurable w) !! id); intros [= <- <-].
  - intros id n w r w'. cbn [DownloadRead bucket]. unfold downloadRead. by destruct (drop _ _); intros [= <- <-].
  - by intros id w r w' [= <- <-].
  - by intros id w r w' [= <- <-].
  - intros id cond u w r w'. cbn [FilesUpdateOne bucket]. destruct (dbFiles (wDurable w) !! id) as [f|] eqn:E; [|by intros [= <- <-]]. destruct (cond f) eqn:Ec; intros [= <- <-]; [|by split].
    split; [apply beside_files; intros j Hj; by rewrite lookup_insert_ne|]. intros _. exists f. split_and!; [done|done|]. cbn [durable modelState setDurable setState wDurable]. by rewrite putFiles_at, lookup_insert_eq.
  - intros id w r w' [= <- <-]. apply beside_files. intros j Hj. by rewrite lookup_delete_ne.
  - intros id w r w' [= <- <-]. apply beside_files. intros j Hj. by rewrite lookup_delete_ne.
Qed.

End MongoBlobModel.
