(* ===== verification/MongoPayload.v ===== *)
(** * pkg/storage/mongodb/payload.go: references to published payloads

    What an admission does with payloads: it touches the guard of a payload that is ready
    and keeps a reference to it.  Both happen in the transaction of the caller. *)

From S2P Require Import Prelude Bytes Runs Traced Admission MongoEncoding MongoDriver MongoTransaction MongoRules.
Import Admission MongoEncoding MongoTransaction.
Open Scope Z_scope.

Module MongoPayload.

Definition payloadStateReady : list byte := str "ready".

Definition setGuard (g : ObjectID) (d : payloadDocument) : payloadDocument :=
  mkPayloadDocument (yd_ID d) (ydChain d) (ydDigest d) (ydLength d) (ydState d) (ydOwner d) (ydToken d) (ydLeaseUntil d) g
    (ydCreatedAt d) (ydUpdatedAt d) (FileID d) (Inline d) (BlobOwner d) (BlobToken d).

Section Payload.
Context {W : Type} `{Mongo W} (s : Store).
Local Abbreviation Run := (Runs.Run (St W tevent)).

(** The payload of a reference, if it is ready. *)
Definition readyPayload (ref : AdmissionPayloadRef) (length : list byte) (_ : Time) (d : payloadDocument) : bool :=
  bool_decide (ydChain d = chainID s) && bool_decide (ydDigest d = Digest ref) && bool_decide (ydLength d = length) &&
  bool_decide (ydState d = payloadStateReady).

Definition touchReadyPayload (ctx : Context) (ref : AdmissionPayloadRef) : Run unit :=
  length ← lift (EncodeUint64 (ByteLength ref));
  guard ← call NewObjectID;
  matched ← call (UpdateOne ctx payloads (payloadID s ref) (readyPayload ref length) (fun _ => setGuard guard));
  if matched =? 1 then mret tt else lift (Err ErrPayloadUnavailable).

(** The update keeps the date of a reference that there was. *)
Definition keepReference (document : Time -> referenceDocument) (now : Time) (old : option referenceDocument) : referenceDocument :=
  document match old with Some d => ndCreatedAt d | None => now end.

Definition referenceFor (ref : AdmissionPayloadRef) (owner : ReferenceOwner) (length : list byte) (created : Time) : referenceDocument :=
  mkReferenceDocument (referenceID s ref owner) (chainID s) (scopeID s) (Digest ref) length (Kind ref) (ownerKind owner) (ownerKey owner) created.

Definition pinPayload (ctx : Context) (ref : AdmissionPayloadRef) (owner : ReferenceOwner) : Run unit :=
  touchReadyPayload ctx ref ≫= fun _ =>
  length ← lift (EncodeUint64 (ByteLength ref));
  call (Upsert ctx references (referenceID s ref owner) (keepReference (referenceFor ref owner length))).

Definition PinPayload (ctx : Context) (ref : AdmissionPayloadRef) (owner : ReferenceOwner) : Run unit :=
  _ ← lift (validatePayload s ref);
  if negb (validOwner owner) then lift (Err ErrInvalidPayload) else
  '(_, r) ← runTransaction s ctx (fun ctx => pinPayload ctx ref owner);
  lift r.

Definition anyDocument {A} (_ : Time) (_ : A) : bool := true.

Definition ReleasePayload (ctx : Context) (ref : AdmissionPayloadRef) (owner : ReferenceOwner) : Run unit :=
  _ ← lift (validatePayload s ref);
  if negb (validOwner owner) then lift (Err ErrInvalidPayload) else
  '(_, r) ← runTransaction s ctx (fun ctx =>
    found ← attempt (call (FindOne ctx references (referenceID s ref owner) anyDocument));
    match found with
    | Err ErrNoDocuments => mret tt
    | Err e => lift (Err e)
    | Panic => lift Panic
    | Ok document =>
        touchReadyPayload ctx ref ≫= fun _ =>
        _ ← call (DeleteOne ctx references (nd_ID document)); mret tt
    end);
  lift r.

End Payload.

Section Pure.
Context (s : Store).

(** The database apart from the guards of payloads: payloads without them. *)
Definition unguarded (db : DB) : DB := put payloads (setGuard 0 <$> docs payloads db) db.

Lemma unguarded_docs c db : c <> payloads -> docs c (unguarded db) = docs c db.
Proof. intros Hc. unfold unguarded. by rewrite docs_put_other. Qed.

(** A payload is ready: its bytes were published under the digest and the length. *)
Definition is_ready (db : DB) (ref : AdmissionPayloadRef) : Prop :=
  exists d : document payloads, docs payloads db !! payloadID s ref = Some d /\ ydChain d = chainID s /\ ydDigest d = Digest ref /\
    EncodeUint64 (ByteLength ref) = Ok (ydLength d) /\ ydState d = payloadStateReady.

Lemma unguarded_touch db id d g :
  docs payloads db !! id = Some d -> unguarded (store payloads id (setGuard g d) db) = unguarded db.
Proof.
  intros Hd. unfold unguarded, store. rewrite docs_put, put_put. f_equal. apply map_eq. intros i. rewrite !lookup_fmap.
  destruct (decide (i = id)) as [->|Hne]; [|by rewrite lookup_insert_ne]. rewrite lookup_insert_eq.
  change (docs payloads db !! id) with (dbPayloads db !! id) in *. by rewrite Hd.
Qed.

(** The identifier of the payload of a digest in a chain. *)
Definition keyID (chain digest : list byte) : list byte := tupleID [str "payload"; chain; digest].

(** The payload of a reference is ready. *)
Definition readyRow (db : DB) (n : referenceDocument) : Prop :=
  exists p : document payloads, docs payloads db !! keyID (ndChain n) (ndDigest n) = Some p /\
    ydChain p = ndChain n /\ ydDigest p = ndDigest n /\ ydState p = payloadStateReady.

(** A row, but for its guard. *)
Lemma guards_row db db' id (p' : document payloads) : setGuard 0 <$> docs payloads db' = setGuard 0 <$> docs payloads db ->
  docs payloads db' !! id = Some p' -> exists p : document payloads, docs payloads db !! id = Some p /\ setGuard 0 p' = setGuard 0 p.
Proof.
  intros E Hp'. apply (f_equal (lookup id)) in E. rewrite !lookup_fmap in E. cbn [docs document] in *. rewrite Hp' in E.
  destruct (dbPayloads db !! id) as [p|]; [|done]. exists p. split; [done|]. by apply (inj Some).
Qed.

Lemma guards_readyRow db db' n : setGuard 0 <$> docs payloads db' = setGuard 0 <$> docs payloads db -> readyRow db' n -> readyRow db n.
Proof.
  intros E (p' & Hp' & H1 & H2 & H3). destruct (guards_row _ _ _ _ E Hp') as (p & Hp & Ep). exists p. split; [done|].
  destruct p, p'. cbn in *. by simplify_eq.
Qed.

(** What payloads are pinned in leaves the rest as it is: guards of payloads are written,
    and references are added. *)
Record kept (db db' : DB) : Prop := {
  kept_payloads : setGuard 0 <$> docs payloads db' = setGuard 0 <$> docs payloads db;
  kept_references : forall id, is_Some (docs references db !! id) -> is_Some (docs references db' !! id);
  kept_added : forall id n, docs references db' !! id = Some n -> docs references db !! id = Some n \/ readyRow db n;
  kept_files : files db' = files db;
  kept_docs : forall c, c <> payloads -> c <> references -> c <> transactions -> docs c db' = docs c db }.

Lemma kept_refl db : kept db db.
Proof. constructor; auto. Qed.

Lemma kept_trans db1 db2 db3 : kept db1 db2 -> kept db2 db3 -> kept db1 db3.
Proof.
  intros [P1 R1 A1 F1 D1] [P2 R2 A2 F2 D2]. constructor; [by rewrite P2|auto| |by rewrite F2|intros c ???; by rewrite D2, D1].
  intros id n Hn. destruct (A2 id n Hn) as [Hn1|Hr]; [by apply A1|right]. by eapply guards_readyRow.
Qed.

Lemma unguarded_kept db db' : unguarded db' = unguarded db -> kept db db'.
Proof.
  intros E. assert (Ed : forall c, c <> payloads -> docs c db' = docs c db) by (intros c Hc; by rewrite <- (unguarded_docs c db'), <- (unguarded_docs c db), E by done).
  constructor; [|intros id; by rewrite Ed|intros id n; rewrite Ed by done; by left|apply (f_equal files) in E; unfold unguarded in E; by rewrite !files_put in E|intros c ???; by apply Ed].
  apply (f_equal (docs payloads)) in E. unfold unguarded in E. by rewrite !docs_put in E.
Qed.

Lemma kept_ready db db' ref : kept db db' -> is_ready db' ref -> is_ready db ref.
Proof.
  intros Hk (d' & Hd' & H1 & H2 & H3 & H4). destruct (guards_row _ _ _ _ (kept_payloads _ _ Hk) Hd') as (d & Hd & E).
  exists d. split; [done|]. destruct d, d'. cbn in *. by simplify_eq.
Qed.

Lemma is_ready_row db (ref : AdmissionPayloadRef) n : ndChain n = chainID s -> ndDigest n = Digest ref -> is_ready db ref -> readyRow db n.
Proof. intros Ec Ed (d & Hd & H1 & H2 & _ & H4). exists d. rewrite Ec, Ed. by split_and!. Qed.

Lemma unguarded_ready db db' ref : unguarded db' = unguarded db -> is_ready db' ref -> is_ready db ref.
Proof. intros E. by apply kept_ready, unguarded_kept. Qed.

End Pure.

Section Rules.
Context {W : Type} `{!Mongo W, !MongoState W} {laws : MongoLaws W} (s : Store).
#[local] Set Default Proof Using "Type laws".

Lemma inside_touch (ref : AdmissionPayloadRef) : inside (touchReadyPayload s InSession ref).
Proof. unfold touchReadyPayload. repeat inside_step. Qed.

Lemma inside_pin (ref : AdmissionPayloadRef) (owner : ReferenceOwner) : inside (pinPayload s InSession ref owner).
Proof. unfold pinPayload. repeat first [apply inside_touch | inside_step]. Qed.

Lemma touch_tx (ref : AdmissionPayloadRef) db :
  tx db (touchReadyPayload s InSession ref) (fun r db' =>
    match r with
    | Ok _ => unguarded db' = unguarded db /\ is_ready s db ref
    | Err ErrPayloadUnavailable => db' = db /\ ~ is_ready s db ref
    | Err (ErrRejection _) => False
    | _ => True
    end).
Proof.
  unfold touchReadyPayload. apply tx_bind; [intros; repeat inside_step|]. apply tx_lift.
  destruct (EncodeUint64 (ByteLength ref)) as [length|e|] eqn:El; [|by apply EncodeUint64_Err in El as ->|done].
  apply tx_bind; [intros; repeat inside_step|]. apply tx_same; [intros; by eapply NewObjectID_law| |done]. intros g.
  apply tx_bind; [intros; repeat inside_step|]. apply tx_UpdateOne.
  - intros db'. split; [done|]. intros e Hf _ _. by destruct e.
  - intros now d Hd Hc. change (1 =? 1) with true. apply tx_ret. split; [by apply unguarded_touch|].
    unfold readyPayload in Hc. rewrite !andb_true_iff, !bool_decide_eq_true in Hc. destruct Hc as [[[? ?] Hl] ?]. exists d. by rewrite Hl.
  - intros now Hn. change (0 =? 1) with false. apply tx_lift. split; [done|]. intros (d & Hd & H1 & H2 & H3 & H4). rewrite Hd in Hn. cbn in Hn.
    unfold readyPayload in Hn. rewrite El in H3. injection H3 as H3. by rewrite !bool_decide_true in Hn by done.
  - done.
Qed.

Lemma pin_tx (ref : AdmissionPayloadRef) (owner : ReferenceOwner) db :
  tx db (pinPayload s InSession ref owner) (fun r db' => r = Ok tt ->
    kept db db' /\ is_ready s db ref /\ is_Some (docs references db' !! referenceID s ref owner)).
Proof.
  unfold pinPayload. apply tx_bind; [intros; repeat inside_step|]. eapply tx_mono; [apply touch_tx|]. intros [[]|e|] db1 Hr; [|done..].
  destruct Hr as [Eu Hready]. apply tx_bind; [intros; repeat inside_step|]. apply tx_lift. destruct (EncodeUint64 _) as [length|e|]; [|done..].
  apply (tx_Upsert db1 references); [by intros db'; split| |done]. intros now _. split_and!; [|done|].
  - eapply kept_trans; [by apply unguarded_kept|]. unfold store. constructor.
    + by rewrite docs_put_other.
    + intros id Hid. rewrite docs_put. destruct (decide (id = referenceID s ref owner)) as [->|Hne]; [by rewrite lookup_insert_eq|by rewrite lookup_insert_ne].
    + intros id n. rewrite docs_put. destruct (decide (id = referenceID s ref owner)) as [->|Hne]; [|rewrite lookup_insert_ne by done; by left].
      rewrite lookup_insert_eq. intros [= <-]. right. apply (is_ready_row s db1 ref); [done..|]. by apply (unguarded_ready s db1 db); [symmetry|].
    + by rewrite files_put.
    + intros c ???. by rewrite docs_put_other.
  - unfold store. rewrite docs_put, lookup_insert_eq. by eexists.
Qed.

(** A loop of pins. *)
Lemma pins_tx refs (owner : ReferenceOwner) db :
  tx db (forEach (fun ref => pinPayload s InSession ref owner) refs) (fun r db' => r = Ok tt ->
    kept db db' /\ forall ref, ref ∈ refs -> is_ready s db ref /\ is_Some (docs references db' !! referenceID s ref owner)).
Proof.
  revert db. induction refs as [|ref refs IH]; intros db; cbn [forEach]; [apply tx_ret; intros _; split; [apply kept_refl|by intros ref ?%elem_of_nil]|].
  apply tx_bind; [intros _; apply inside_forEach; intros x; apply inside_pin|]. eapply tx_mono; [apply pin_tx|]. intros [[]|e|] db1 Hr; [|done..].
  destruct (Hr eq_refl) as (Hk & Hready & Hpin). eapply tx_mono; [apply IH|]. intros r db2 H2 E. destruct (H2 E) as [Hk2 Hall]. split; [by eapply kept_trans|].
  intros ref' [->|Hin]%elem_of_cons; [split; [done|by apply (kept_references _ _ Hk2)]|]. destruct (Hall ref' Hin) as [? ?]. split; [by eapply kept_ready|done].
Qed.

End Rules.

End MongoPayload.
