(* ===== verification/MongoAdmission.v ===== *)
(** * pkg/storage/mongodb/admission.go: the transaction of an admission

    The body that [CommitAdmission] runs: payloads are touched, every predicate of the plan
    is checked against the transaction, payloads are pinned, and the effects are written.
    A predicate that does not hold rejects the plan with a code. *)

From S2P Require Import Prelude Bytes Decimal Runs Traced Admission EngineTypes AdmissionPlan.
From S2P Require Import MongoEncoding MongoDriver MongoTransaction MongoRules MongoPlan MongoPayload.
Import Admission MongoEncoding MongoTransaction MongoPlan MongoPayload.
Open Scope Z_scope.

Module MongoAdmission.

Definition reject {S A} (code : rejection_code) : Runs.Run S A := lift (Err (ErrRejection code)).

(** A float64 of an integer of at most 53 bits, by its bits. *)
Definition float64 (n : Z) : Z :=
  if n <=? 0 then 0 else let e := Z.log2 n in (1023 + e) * 2 ^ 52 + Z.shiftl (n - 2 ^ e) (52 - e).

Definition engineScoreFromUint (value : StorageUint64) : Z :=
  match ParseStorageUint64 value with
  | Ok parsed => if Z.shiftl 1 53 <? parsed then 0 else float64 parsed
  | _ => 0
  end.

Definition fenceEquals (actual expected : HistoryFence) : bool :=
  bool_decide (ChainEpoch actual = ChainEpoch expected) && bool_decide (TopicHistoryGeneration actual = TopicHistoryGeneration expected).

Definition orEmpty (r : result (list byte)) : list byte := match r with Ok v => v | _ => [] end.

Definition fenceFromLease (doc : leaseDocument) : HistoryFence :=
  mkFence (orEmpty (DecodeUint64 (ldChainEpoch doc))) (orEmpty (DecodeUint64 (ldGeneration doc))).

Definition leaseFromDocument (doc : leaseDocument) (scope : StorageScope) : RecoveryLease :=
  mkLease (fenceFromLease doc) scope (ldTopic doc) (ldPeerID doc) (ldJobID doc)
    (orEmpty (DecodeUint64 (ldToken doc))) (orEmpty (DecodeUint64 (ldExpiresAtMS doc))).

(** ** What updates do to documents *)

Definition setSpent (spender : list byte) (now : Time) (d : outputDocument) : outputDocument :=
  mkOutputDocument (od_ID d) (odScope d) (odTopic d) (odTxID d) (odOutputIndex d) (odSatoshis d) (odScore d) (EngineScore d) true (Serving d)
    (SpendVersion d) spender (odMerkleState d) (ScriptDigest d) (ScriptKind d) (ScriptOffset d) (ScriptLength d) (odBlockHeight d) (odBlockIndex d)
    (odMerkleRoot d) (odAncillary d) (odCreatedAt d) now.

Definition setFence (generation affected : list byte) (checkpoint : option (list byte)) (now : Time) (d : fenceDocument) : fenceDocument :=
  mkFenceDocument (fd_ID d) (fdScope d) (fdTopic d) (fdChainEpoch d) generation affected (default (fdCheckpoint d) checkpoint) (fdCreatedAt d) now.

Definition setLease (generation : list byte) (now : Time) (d : leaseDocument) : leaseDocument :=
  mkLeaseDocument (ld_ID d) (ldScope d) (ldTopic d) (ldPeerID d) (ldJobID d) (ldChainEpoch d) generation (ldToken d) (ldExpiresAtMS d) (ldCreatedAt d) now.

Definition outboxStatePending : list byte := str "pending".
Definition spendVersionInitial : list byte := str "1".
Definition merkleStateUnmined : list byte := str "unmined".

Definition encodePayloadRefs (refs : list AdmissionPayloadRef) : result (list payloadRefDocument) :=
  foldr (fun ref rest =>
    match EncodeUint64 (ByteLength ref) with
    | Ok length => docs ← rest; Ok (mkPayloadRefDocument (Digest ref) length (payloadKindText (Kind ref)) :: docs)
    | _ => Err (ErrRejection AdmissionRejectionInvalidPlan)
    end) (Ok []) refs.

(** A number of the plan to be stored; the plan is invalid if it is none. *)
Definition stored (r : result (list byte)) : result (list byte) :=
  match r with Err _ => Err (ErrRejection AdmissionRejectionInvalidPlan) | _ => r end.

Definition storedOr (o : option StorageUint64) : result (list byte) :=
  match o with Some v => stored (EncodeUint64 v) | None => Ok [] end.

Section Documents.
Context (s : Store).

(** The documents that are inserted. *)
Definition outputDocumentOf (topic : list byte) (output : AdmissionOutput) (now : Time) : result outputDocument :=
  index ← stored (encodeOutpointIndex (opOutputIndex (outOutpoint output)));
  satoshis ← stored (EncodeUint64 (Satoshis output));
  score ← stored (EncodeUint64 (outScore output));
  offset ← stored (EncodeUint64 (Offset (Script output)));
  length ← stored (EncodeUint64 (rangeLength (Script output)));
  let engineScore := engineScoreFromUint (outScore output) in
  Ok (mkOutputDocument (outputID s topic (outOutpoint output)) (scopeID s) topic (opTxID (outOutpoint output)) index satoshis score
        (if engineScore =? 0 then float64 now else engineScore) false true spendVersionInitial [] merkleStateUnmined
        (Digest (Payload (Script output))) (payloadKindText (Kind (Payload (Script output)))) offset length [] [] []
        (List.filter validHash (Ancillary output)) now now).

Definition edgeDocumentOf (topic : list byte) (edge : AdmissionEdge) (now : Time) : result edgeDocument :=
  sourceIndex ← stored (encodeOutpointIndex (opOutputIndex (Source edge)));
  consumerIndex ← stored (encodeOutpointIndex (opOutputIndex (Consumer edge)));
  Ok (mkEdgeDocument (edgeID s topic edge) (scopeID s) topic (opTxID (Source edge)) sourceIndex (opTxID (Consumer edge)) consumerIndex now).

Definition appliedDocumentOf (topic : list byte) (applied : AdmissionAppliedTransaction) (now : Time) : result appliedDocument :=
  firstSeen ← storedOr (appliedFirstSeen applied);
  proofLength ← storedOr (ByteLength <$> appliedProof applied);
  height ← storedOr (blkHeight <$> appliedBlock applied);
  index ← storedOr (blkIndex <$> appliedBlock applied);
  Ok (mkAppliedDocument (appliedID s topic (appliedTxID applied)) (scopeID s) topic (appliedTxID applied)
        (match appliedBlock applied with Some _ => true | None => false end) firstSeen
        (default [] (Digest <$> appliedProof applied)) (default [] ((fun p => payloadKindText (Kind p)) <$> appliedProof applied)) proofLength
        height (default [] (blkHash <$> appliedBlock applied)) index (default [] (blkMerkleRoot <$> appliedBlock applied)) now now).

Definition outboxDocumentOf (operation : list byte) (intent : AdmissionOutboxIntent) (refs : list payloadRefDocument) (now : Time) : outboxDocument :=
  mkOutboxDocument (outboxID s (EventID intent)) (scopeID s) (EventID intent) (intentKind intent) (Target intent) outboxStatePending operation refs now now.

End Documents.

Section Admission.
Context {W : Type} `{Mongo W} (s : Store).
Local Abbreviation Run := (Runs.Run (St W tevent)).

(** ** Reads *)

Definition loadFence (ctx : Context) (topic : list byte) : Run HistoryFence :=
  doc ← call (FindOne ctx fences (fenceID s topic) anyDocument);
  epoch ← lift (DecodeUint64 (fdChainEpoch doc));
  generation ← lift (DecodeUint64 (fdGeneration doc));
  mret (mkFence epoch generation).

Definition loadLease (ctx : Context) (lease : RecoveryLease) : Run leaseDocument :=
  call (FindOne ctx leases (leaseID s lease) anyDocument).

(** The clock of the database, or that of the host. *)
Definition admissionNowMS (ctx : Context) : Run StorageUint64 :=
  clock ← attempt (call (FindOne ctx schema (clockID s) anyDocument));
  match clock with
  | Err ErrNoDocuments => now ← call Now; mret (FormatUint (u64 now))
  | Err e => lift (Err e)
  | Ok doc => lift (DecodeUint64 (NowMS doc))
  | Panic => lift Panic
  end.

(** ** Predicates *)

(** A document that must not exist. *)
Definition mustBeAbsent (ctx : Context) (c : collection) (id : list byte) : Run unit :=
  found ← attempt (call (FindOne ctx c id anyDocument));
  match found with
  | Ok _ => reject AdmissionRejectionInvalidPlan
  | Err ErrNoDocuments => mret tt
  | Err e => lift (Err e)
  | Panic => lift Panic
  end.

Definition validateDecisionFence (ctx : Context) (decision : AdmissionTopicDecision) : Run unit :=
  fence ← attempt (loadFence ctx (decTopic decision));
  match fence with
  | Err ErrNoDocuments => reject AdmissionRejectionReadConflict
  | Err e => lift (Err e)
  | Ok fence => if fenceEquals fence (ExpectedHistory decision) then mret tt else reject AdmissionRejectionReadConflict
  | Panic => lift Panic
  end.

Definition validateRead (ctx : Context) (topic : list byte) (read : AdmissionReadPredicate) : Run unit :=
  if negb (validText (readKey read)) then reject AdmissionRejectionInvalidPlan else
  current ← attempt (call (FindOne ctx reads (readID s topic (readKey read)) anyDocument));
  match current with
  | Err ErrNoDocuments => match readVersion read with Some _ => reject AdmissionRejectionReadConflict | None => mret tt end
  | Err e => lift (Err e)
  | Ok current => if bool_decide (readVersion read = Some (ReadVersion current)) then mret tt else reject AdmissionRejectionReadConflict
  | Panic => lift Panic
  end.

Definition validateSpend (ctx : Context) (topic : list byte) (spend : AdmissionSpend) : Run unit :=
  current ← attempt (call (FindOne ctx outputs (outputID s topic (spendOutpoint spend)) anyDocument));
  match current with
  | Err ErrNoDocuments => reject AdmissionRejectionSpendConflict
  | Err e => lift (Err e)
  | Ok current =>
      if negb (bool_decide (SpendVersion current = ExpectedVersion spend)) || Spent current || negb (bool_decide (SpentBy current = []))
      then reject AdmissionRejectionSpendConflict else mret tt
  | Panic => lift Panic
  end.

Definition validateEviction (ctx : Context) (topic : list byte) (eviction : AdmissionOutpoint) : Run unit :=
  found ← attempt (call (FindOne ctx outputs (outputID s topic eviction) anyDocument));
  match found with
  | Ok _ => mret tt
  | Err ErrNoDocuments => reject AdmissionRejectionInvalidPlan
  | Err e => lift (Err e)
  | Panic => lift Panic
  end.

Definition validateHandoff (ctx : Context) (topic : list byte) (expected : HistoryFence) (handoff : HistoryRevisionHandoff) : Run unit :=
  nowMS ← admissionNowMS ctx;
  current ← attempt (loadLease ctx (Expected handoff));
  match current with
  | Err ErrNoDocuments => reject AdmissionRejectionReadConflict
  | Err e => lift (Err e)
  | Ok current =>
      if negb (bool_decide (ldScope current = scopeID s)) || negb (bool_decide (ldTopic current = topic)) ||
         negb (fenceEquals (fenceFromLease current) expected)
      then reject AdmissionRejectionReadConflict else
      ok ← lift (IsRecoveryLeaseCurrent (Expected handoff) (leaseFromDocument current (cfgScope (config s))) nowMS);
      if (ok : bool) then mret tt else reject AdmissionRejectionReadConflict
  | Panic => lift Panic
  end.

Definition validateDecisionHandoff (ctx : Context) (decision : AdmissionTopicDecision) : Run unit :=
  match HistoryUpdate decision with
  | Some update =>
      match Handoff update with
      | Some handoff => validateHandoff ctx (decTopic decision) (ExpectedHistory decision) handoff
      | None => mret tt
      end
  | None => mret tt
  end.

Definition validateDecisionState (ctx : Context) (txid : list byte) (decision : AdmissionTopicDecision) : Run unit :=
  validateDecisionFence ctx decision ≫= fun _ =>
  forEach (validateRead ctx (decTopic decision)) (Reads decision) ≫= fun _ =>
  forEach (validateSpend ctx (decTopic decision)) (Spends decision) ≫= fun _ =>
  forEach (validateEviction ctx (decTopic decision)) (Evictions decision) ≫= fun _ =>
  forEach (fun output => mustBeAbsent ctx outputs (outputID s (decTopic decision) (outOutpoint output))) (decOutputs decision) ≫= fun _ =>
  mustBeAbsent ctx applied (appliedID s (decTopic decision) txid) ≫= fun _ =>
  validateDecisionHandoff ctx decision.

Definition validateAdmissionState (ctx : Context) (plan : AdmissionCommit) : Run unit :=
  forEach (fun intent => mustBeAbsent ctx outbox (outboxID s (EventID intent))) (Outbox plan) ≫= fun _ =>
  forEach (validateDecisionState ctx (idTxID (comIdentity plan))) (Decisions plan).

(** ** Effects *)

(** An insert that must not meet a document. *)
Definition insertNew (ctx : Context) (c : collection) (doc : document c) : Run unit :=
  r ← attempt (call (InsertOne ctx c doc));
  match r with
  | Ok _ => mret tt
  | Err ErrDuplicateKey => reject AdmissionRejectionInvalidPlan
  | Err e => lift (Err e)
  | Panic => lift Panic
  end.

Definition spendOutput (ctx : Context) (topic : list byte) (now : Time) (spend : AdmissionSpend) : Run unit :=
  matched ← call (UpdateOne ctx outputs (outputID s topic (spendOutpoint spend))
    (fun _ d => bool_decide (SpendVersion d = ExpectedVersion spend) && negb (Spent d)) (fun _ => setSpent (Spender spend) now));
  if matched =? 1 then mret tt else reject AdmissionRejectionSpendConflict.

Definition evictOutput (ctx : Context) (topic : list byte) (eviction : AdmissionOutpoint) : Run unit :=
  deleted ← call (DeleteOne ctx outputs (outputID s topic eviction));
  if deleted =? 1 then mret tt else reject AdmissionRejectionInvalidPlan.

Definition insertAdmissionOutput (ctx : Context) (topic : list byte) (now : Time) (output : AdmissionOutput) : Run unit :=
  doc ← lift (outputDocumentOf s topic output now);
  insertNew ctx outputs doc.

(** An edge that exists is kept. *)
Definition insertAdmissionEdge (ctx : Context) (topic : list byte) (now : Time) (edge : AdmissionEdge) : Run unit :=
  doc ← lift (edgeDocumentOf s topic edge now);
  r ← attempt (call (InsertOne ctx edges doc));
  match r with
  | Ok _ | Err ErrDuplicateKey => mret tt
  | Err e => lift (Err e)
  | Panic => lift Panic
  end.

Definition insertApplied (ctx : Context) (topic : list byte) (a : AdmissionAppliedTransaction) (now : Time) : Run unit :=
  doc ← lift (appliedDocumentOf s topic a now);
  insertNew ctx applied doc.

(** [applyHistoryUpdate]: the fence advances by a compare-and-swap, and the lease of a
    handoff with it. *)
Definition fenceFilter (epoch generation : list byte) (_ : Time) (d : fenceDocument) : bool :=
  bool_decide (fdChainEpoch d = epoch) && bool_decide (fdGeneration d = generation).

Definition leaseFilter (lease : RecoveryLease) (encodedNowMS : list byte) (_ : Time) (d : leaseDocument) : bool :=
  bool_decide (ldToken d = mustEncodeUint64 (LeaseToken lease)) && bool_decide (ldChainEpoch d = mustEncodeUint64 (ChainEpoch (lFence lease))) &&
  bool_decide (ldGeneration d = mustEncodeUint64 (TopicHistoryGeneration (lFence lease))) && negb (bytes_leb (ldExpiresAtMS d) encodedNowMS).

Definition advanceLease (ctx : Context) (handoff : HistoryRevisionHandoff) (nextGen : list byte) (now : Time) : Run unit :=
  nowMS ← admissionNowMS ctx;
  encodedNowMS ← lift (EncodeUint64 nowMS);
  matched ← call (UpdateOne ctx leases (leaseID s (Expected handoff)) (leaseFilter (Expected handoff) encodedNowMS) (fun _ => setLease nextGen now));
  if matched =? 1 then mret tt else reject AdmissionRejectionReadConflict.

Definition applyHistoryUpdate (ctx : Context) (topic : list byte) (expected : HistoryFence) (update : AdmissionHistoryUpdate) (now : Time) : Run unit :=
  if match Handoff update with Some handoff => negb (fenceEquals (lFence (Expected handoff)) expected) | None => false end
  then reject AdmissionRejectionReadConflict else
  expectedEpoch ← lift (stored (EncodeUint64 (ChainEpoch expected)));
  expectedGen ← lift (stored (EncodeUint64 (TopicHistoryGeneration expected)));
  nextGen ← lift (stored (EncodeUint64 (NextTopicHistoryGeneration update)));
  affected ← lift (stored (EncodeUint64 (AffectedFromHeight update)));
  matched ← call (UpdateOne ctx fences (fenceID s topic) (fenceFilter expectedEpoch expectedGen)
    (fun _ => setFence nextGen affected (Checkpoint <$> Handoff update) now));
  if negb (matched =? 1) then reject AdmissionRejectionReadConflict else
  match Handoff update with
  | None => mret tt
  | Some handoff => advanceLease ctx handoff nextGen now
  end.

Definition writeDecisionEffects (ctx : Context) (now : Time) (decision : AdmissionTopicDecision) : Run unit :=
  forEach (spendOutput ctx (decTopic decision) now) (Spends decision) ≫= fun _ =>
  forEach (evictOutput ctx (decTopic decision)) (Evictions decision) ≫= fun _ =>
  forEach (insertAdmissionOutput ctx (decTopic decision) now) (decOutputs decision) ≫= fun _ =>
  forEach (insertAdmissionEdge ctx (decTopic decision) now) (Edges decision) ≫= fun _ =>
  insertApplied ctx (decTopic decision) (Applied decision) now ≫= fun _ =>
  match HistoryUpdate decision with
  | Some update => applyHistoryUpdate ctx (decTopic decision) (ExpectedHistory decision) update now
  | None => mret tt
  end.

(** [upsertTransaction] of storage.go: the document is replaced, its first date kept. *)
Definition transactionFor (txID : list byte) (beefRef : option AdmissionPayloadRef) (length : list byte) (ancillary : list (list byte)) (created updated : Time)
    : transactionDocument :=
  mkTransactionDocument (transactionID s txID) (chainID s) txID (default [] (Digest <$> beefRef)) length
    (default [] ((fun r => payloadKindText (Kind r)) <$> beefRef)) ancillary created updated.

Definition upsertTransaction (ctx : Context) (txID : list byte) (beefRef : option AdmissionPayloadRef) (ancillary : list (list byte)) (now : Time) : Run unit :=
  length ← lift (match beefRef with Some ref => EncodeUint64 (ByteLength ref) | None => Ok [] end);
  call (Upsert ctx transactions (transactionID s txID)
    (fun _ old => transactionFor txID beefRef length ancillary (match old with Some d => tdCreatedAt d | None => now end) now)).

Definition is_transaction (ref : AdmissionPayloadRef) : bool :=
  match Kind ref with AdmissionPayloadBEEFManifest | AdmissionPayloadRawTransaction => true | _ => false end.

(** The payload that represents the transaction: the last manifest, or else the first raw transaction. *)
Fixpoint selectTransaction (refs : list AdmissionPayloadRef) (txRef : option AdmissionPayloadRef) : option AdmissionPayloadRef :=
  match refs with
  | [] => txRef
  | ref :: refs' =>
      selectTransaction refs'
        (match txRef, Kind ref with None, _ | _, AdmissionPayloadBEEFManifest => Some ref | _, _ => txRef end)
  end.

Definition writeAdmissionTransactions (ctx : Context) (plan : AdmissionCommit) (now : Time) : Run unit :=
  let refs := List.filter is_transaction (uniquePayloads (default [] (admissionReferences s plan))) in
  forEach (fun ref => pinPayload s ctx ref (mkOwner ReferenceTransaction (idTxID (comIdentity plan)))) refs ≫= fun _ =>
  match selectTransaction refs None with
  | None => mret tt
  | Some txRef => upsertTransaction ctx (idTxID (comIdentity plan)) (Some txRef) (planAncillaryTxids plan) now
  end.

Definition writeOutbox (ctx : Context) (plan : AdmissionCommit) (now : Time) (intent : AdmissionOutboxIntent) : Run unit :=
  refs ← lift (encodePayloadRefs (intentPayloads intent));
  insertNew ctx outbox (outboxDocumentOf s (OperationID (comKey plan)) intent refs now).

Definition writeAdmissionEffects (ctx : Context) (plan : AdmissionCommit) : Run unit :=
  now ← call Now;
  writeAdmissionTransactions ctx plan now ≫= fun _ =>
  forEach (writeDecisionEffects ctx now) (Decisions plan) ≫= fun _ =>
  forEach (writeOutbox ctx plan now) (Outbox plan).

(** A payload that is not ready rejects the plan. *)
Definition touchReference (ctx : Context) (ref : AdmissionPayloadRef) : Run unit :=
  r ← attempt (touchReadyPayload s ctx ref);
  match r with
  | Err ErrPayloadUnavailable => reject AdmissionRejectionPayloadNotReady
  | _ => lift r
  end.

(** [applyAdmission] *)
Definition applyAdmission (ctx : Context) (plan : AdmissionCommit) : Run AdmissionReceipt :=
  if negb (planShapeValid s plan) then reject AdmissionRejectionInvalidPlan else
  match admissionReferences s plan with
  | None => reject AdmissionRejectionInvalidPlan
  | Some refs =>
      forEach (touchReference ctx) (uniquePayloads refs) ≫= fun _ =>
      validateAdmissionState ctx plan ≫= fun _ =>
      forEach (fun ref => pinPayload s ctx ref (mkOwner ReferencePin (OperationID (comKey plan)))) (uniquePayloads refs) ≫= fun _ =>
      writeAdmissionEffects ctx plan ≫= fun _ =>
      mret (makeAdmissionReceipt plan)
  end.

(** ** Fences *)

Definition CurrentHistoryFence (ctx : Context) (topic : list byte) : Run HistoryFence :=
  fence ← attempt (loadFence ctx topic);
  match fence with
  | Err ErrNoDocuments => mret (mkFence (str "0") (str "0"))
  | _ => lift fence
  end.

Definition EnsureHistoryFence (ctx : Context) (topic : list byte) (fence : HistoryFence) : Run unit :=
  if negb (validText topic) then lift (Err ErrInvalidConfig) else
  epoch ← lift (EncodeUint64 (ChainEpoch fence));
  generation ← lift (EncodeUint64 (TopicHistoryGeneration fence));
  now ← call Now;
  r ← attempt (call (Upsert ctx fences (fenceID s topic)
    (fun _ old => default (mkFenceDocument (fenceID s topic) (scopeID s) topic epoch generation [] [] now now) old)));
  match r with
  | Err ErrDuplicateKey => mret tt
  | _ => lift r
  end.

End Admission.

End MongoAdmission.
