(* ===== verification/MongoContent.v ===== *)
(** * pkg/storage/mongodb/payload.go: publishing, copying and collecting payloads

    A payload is uploaded outside of transactions and becomes ready when its bytes were
    verified; a reader pins it while it is copied; it is deleted only when no reference to
    it is left.  A row moves from uploading to ready, deleting and deleted, and from
    deleted to uploading again with the next token. *)

From S2P Require Import Prelude Bytes Sha256 Decimal Runs Traced Admission MongoEncoding MongoDriver MongoTransaction MongoRules MongoBlob MongoPayload MongoAdmission.
Import Admission MongoEncoding MongoTransaction MongoBlob MongoPayload MongoAdmission.
Open Scope Z_scope.

Module MongoContent.

Definition payloadStateUploading : list byte := str "uploading".
Definition payloadStateDeleting : list byte := str "deleting".
Definition payloadStateDeleted : list byte := str "deleted".
Definition firstToken : list byte := str "00000000000000000001".

(** ** Rows *)

(** [bson.ObjectID] is zero when there is no file. *)
Definition noFile : ObjectID := 0.

Definition serverLease (lease : Z) (now : Time) : Time := now + lease / Millisecond.

Definition payloadLeaseCurrent (now : Time) (d : payloadDocument) : bool := now <? ydLeaseUntil d.
Definition payloadLeaseExpired (now : Time) (d : payloadDocument) : bool := ydLeaseUntil d <=? now.

(** [replaceWithServerDates] *)
Definition datedPayload (d : payloadDocument) (lease : Z) (now : Time) : payloadDocument :=
  mkPayloadDocument (yd_ID d) (ydChain d) (ydDigest d) (ydLength d) (ydState d) (ydOwner d) (ydToken d) (serverLease lease now) (ydGuard d)
    now now (FileID d) (Inline d) (BlobOwner d) (BlobToken d).

(** The updates: of a state, with the inline data that are set; of a lease; of a claim for
    deletion; of a deletion. *)
Definition readied (inline : option (list byte)) (lease : Z) (guard : ObjectID) (now : Time) (d : payloadDocument) : payloadDocument :=
  mkPayloadDocument (yd_ID d) (ydChain d) (ydDigest d) (ydLength d) payloadStateReady (ydOwner d) (ydToken d) (serverLease lease now) guard
    (ydCreatedAt d) now (FileID d) (match inline with Some b => Some b | None => Inline d end) (BlobOwner d) (BlobToken d).

Definition resumedUpload (lease : Z) (guard : ObjectID) (now : Time) (d : payloadDocument) : payloadDocument :=
  mkPayloadDocument (yd_ID d) (ydChain d) (ydDigest d) (ydLength d) (ydState d) (ydOwner d) (ydToken d) (serverLease lease now) guard
    (ydCreatedAt d) now (FileID d) (Inline d) (BlobOwner d) (BlobToken d).

Definition claimedForDeletion (owner token : list byte) (lease : Z) (guard : ObjectID) (now : Time) (d : payloadDocument) : payloadDocument :=
  mkPayloadDocument (yd_ID d) (ydChain d) (ydDigest d) (ydLength d) payloadStateDeleting owner token (serverLease lease now) guard
    (ydCreatedAt d) now (FileID d) (Inline d) (BlobOwner d) (BlobToken d).

Definition erased (guard : ObjectID) (now : Time) (d : payloadDocument) : payloadDocument :=
  mkPayloadDocument (yd_ID d) (ydChain d) (ydDigest d) (ydLength d) payloadStateDeleted (ydOwner d) (ydToken d) (ydLeaseUntil d) guard
    (ydCreatedAt d) now (FileID d) None (BlobOwner d) (BlobToken d).

(** The filter of a row in a state with a token. *)
Definition inState (state token : list byte) (_ : Time) (d : payloadDocument) : bool :=
  bool_decide (ydState d = state) && bool_decide (ydToken d = token).

Section Content.
Context {W : Type} `{Mongo W, GridFS W} (s : Store).
Local Abbreviation Run := (Runs.Run (St W tevent)).
Local Abbreviation leaseDuration := (LeaseDuration (config s)).

Definition blobMetadataOf (payload : payloadDocument) (ref : AdmissionPayloadRef) : blobMetadata :=
  mkBlobMetadata (chainID s) (Digest ref) (ByteLength ref) (BlobOwner payload) (BlobToken payload) blobStatePublished.

(** ** Publishing *)

Definition readInlinePayload (readLimited : Z -> Run (list byte)) (ref : AdmissionPayloadRef) (length : Z) : Run (list byte) :=
  if Z.shiftl 1 20 <? length then lift (Err ErrInvalidPayload) else
  _ ← call CtxErr;
  data ← readLimited (length + 1);
  _ ← call CtxErr;
  if negb (len data =? length) || negb (bool_decide (sha256Hex data = Digest ref)) then lift (Err ErrInvalidPayload) else mret data.

Definition payloadMatchesRef (existing : payloadDocument) (ref : AdmissionPayloadRef) : result unit :=
  if negb (bool_decide (ydChain existing = chainID s)) || negb (bool_decide (ydDigest existing = Digest ref)) then Err ErrInvalidPayload
  else if negb (bool_decide (ydLength existing = MongoAdmission.orEmpty (EncodeUint64 (ByteLength ref)))) then Err ErrInvalidPayload
  else Ok tt.

Definition conflictOr {A} (r : result A) : Run A :=
  match r with Err ErrDuplicateKey | Err ErrNoDocuments => lift (Err ErrConflict) | _ => lift r end.

Definition insertUploadingPayload (ctx : Context) (ref : AdmissionPayloadRef) (length : Z) (id token : list byte)
    (matches : Time -> payloadDocument -> bool) (upsert : bool) : Run payloadDocument :=
  encoded ← lift (EncodeUint64 (ByteLength ref));
  guard ← call NewObjectID;
  let large := InlineLimit (config s) <? length in
  file ← (if large then call NewObjectID else mret noFile);
  let payload := mkPayloadDocument id (chainID s) (Digest ref) encoded payloadStateUploading (ownerID s) token 0 guard 0 0 file None
    (if large then ownerID s else []) (if large then token else []) in
  r ← attempt (call (FindOneAndUpdate ctx payloads id matches (fun now _ => datedPayload payload leaseDuration now) upsert));
  conflictOr r.

(** The owner writes on under the token that it has. *)
Definition resumeUpload (ctx : Context) (existing : payloadDocument) : Run payloadDocument :=
  guard ← call NewObjectID;
  r ← attempt (call (FindOneAndUpdate ctx payloads (yd_ID existing)
    (fun now d => inState payloadStateUploading (ydToken existing) now d && bool_decide (ydOwner d = ownerID s))
    (fun now old => match old with Some d => resumedUpload leaseDuration guard now d | None => existing end) false));
  match r with Err ErrNoDocuments => lift (Err ErrConflict) | _ => lift r end.

Definition reuseOrRecyclePayload (ctx : Context) (existing : payloadDocument) (ref : AdmissionPayloadRef) (length : Z) : Run payloadDocument :=
  _ ← lift (payloadMatchesRef existing ref);
  if bool_decide (ydState existing = payloadStateReady) then mret existing
  else if bool_decide (ydState existing = payloadStateUploading) && bool_decide (ydOwner existing = ownerID s) then resumeUpload ctx existing
  else if negb (bool_decide (ydState existing = payloadStateDeleted)) then lift (Err ErrConflict)
  else
    token ← lift (nextToken (ydToken existing));
    insertUploadingPayload ctx ref length (yd_ID existing) token (inState payloadStateDeleted (ydToken existing)) false.

(** Every row has a version, so that the filter of the insertion matches none. *)
Definition reservePayload (ctx : Context) (ref : AdmissionPayloadRef) (length : Z) : Run payloadDocument :=
  let id := payloadID s ref in
  existing ← attempt (call (FindOne ctx payloads id anyDocument));
  match existing with
  | Ok existing => reuseOrRecyclePayload ctx existing ref length
  | Err ErrNoDocuments => insertUploadingPayload ctx ref length id firstToken (fun _ _ => false) true
  | r => lift r
  end.

(** The bytes of an upload: read into the row, or streamed to the file of the row. *)
Definition uploadContent (ctx : Context) (payload : payloadDocument) (ref : AdmissionPayloadRef) (length : Z) (reader : Source W) : Run (option (list byte)) :=
  if length <=? InlineLimit (config s) then
    data ← readInlinePayload (ReadLimited reader) ref length; mret (Some data)
  else
    _ ← remove ctx (FileID payload);
    _ ← upload ctx (FileID payload) (blobMetadataOf payload ref) (Some (Read reader));
    mret None.

Definition PublishPayload (ctx : Context) (ref : AdmissionPayloadRef) (reader : option (Source W)) : Run unit :=
  match ctx with
  | InSession => lift (Err ErrNestedTransaction)
  | Plain =>
      length ← lift (validatePayload s ref);
      match reader with
      | None => lift (Err ErrInvalidPayload)
      | Some reader =>
          payload ← reservePayload ctx ref length;
          if bool_decide (ydState payload = payloadStateReady) then mret tt else
          inline ← uploadContent ctx payload ref length reader;
          guard ← call NewObjectID;
          matched ← call (UpdateOne ctx payloads (yd_ID payload)
            (fun now d => inState payloadStateUploading (ydToken payload) now d && bool_decide (ydOwner d = ownerID s) && payloadLeaseCurrent now d)
            (readied inline leaseDuration guard));
          if matched =? 1 then mret tt else lift (Err ErrConflict)
      end
  end.

(** ** Copying *)

(** What the writer makes of the bytes of an inline payload. *)
Definition writeInline (writer : Writer W) (verified : list byte) : Run unit :=
  '(written, writeErr) ← writer verified;
  emit (Delivered (take (Z.to_nat written) verified)) ≫= fun _ =>
  match writeErr with
  | Some e => lift (Err e)
  | None => if negb (written =? len verified) then lift (Err ErrShortWrite) else mret tt
  end.

Definition copyPinned (ctx : Context) (ref : AdmissionPayloadRef) (writer : Writer W) : Run unit :=
  payload ← call (FindOne ctx payloads (payloadID s ref) (fun _ d => bool_decide (ydState d = payloadStateReady)));
  match Inline payload with
  | Some data =>
      length ← lift (validatePayload s ref);
      reader ← bytesReader data;
      verified ← readInlinePayload (ReadLimited reader) ref length;
      writeInline writer verified
  | None => copy ctx (FileID payload) (blobMetadataOf payload ref) (Some writer)
  end.

Definition readOwner (uuid : list byte) : ReferenceOwner := mkOwner ReferencePin (str "read:" ++ ownerID s ++ str ":" ++ uuid).

Definition CopyPayload (ctx : Context) (ref : AdmissionPayloadRef) (writer : option (Writer W)) : Run unit :=
  match writer with
  | None => lift (Err ErrInvalidPayload)
  | Some writer =>
      uuid ← call NewUUID;
      _ ← PinPayload s ctx ref (readOwner uuid);
      copied ← attempt (copyPinned ctx ref writer);
      released ← attempt (ReleasePayload s ctx ref (readOwner uuid));
      fail (join (errOf copied) (errOf released))
  end.

(** ** Collecting *)

(** The row to collect, if anything is left to do. *)
Definition loadCollectablePayload (ctx : Context) (ref : AdmissionPayloadRef) : Run (option payloadDocument) :=
  found ← attempt (call (FindOne ctx payloads (payloadID s ref) anyDocument));
  match found with
  | Err ErrNoDocuments => mret None
  | Err e => lift (Err e)
  | Panic => lift Panic
  | Ok candidate =>
      if negb (bool_decide (ydLength candidate = MongoAdmission.orEmpty (EncodeUint64 (ByteLength ref)))) then lift (Err ErrInvalidPayload)
      else if bool_decide (ydState candidate = payloadStateDeleted) then mret None else mret (Some candidate)
  end.

(** The references that keep the bytes of a digest, of every scope of the chain. *)
Definition refersTo (ref : AdmissionPayloadRef) (n : referenceDocument) : bool :=
  bool_decide (ndChain n = chainID s) && bool_decide (ndDigest n = Digest ref).

Definition claimExpiredPayloadTx (ctx : Context) (ref : AdmissionPayloadRef) (old : payloadDocument) (next : list byte) : Run payloadDocument :=
  guard ← call NewObjectID;
  claimed ← call (FindOneAndUpdate ctx payloads (yd_ID old)
    (fun now d => inState (ydState old) (ydToken old) now d && payloadLeaseExpired now d)
    (fun now d => match d with Some d => claimedForDeletion (ownerID s) next leaseDuration guard now d | None => old end) false);
  count ← call (CountDocuments ctx references (refersTo ref));
  if negb (count =? 0) then lift (Err ErrConflict) else mret claimed.

(** After a commit with an unknown result, only a claim that is found again counts. *)
Definition claimExpiredPayload (ctx : Context) (ref : AdmissionPayloadRef) (old : payloadDocument) : Run payloadDocument :=
  next ← lift (nextToken (ydToken old));
  '(outcome, r) ← runTransaction s ctx (fun ctx => claimExpiredPayloadTx ctx ref old next);
  match r with
  | Ok claimed => mret claimed
  | Panic => lift Panic
  | Err claimErr =>
      if negb (bool_decide (outcome = transactionPending)) then lift (Err claimErr) else
      found ← attempt (call (FindOne ctx payloads (yd_ID old)
        (fun now d => inState payloadStateDeleting next now d && bool_decide (ydOwner d = ownerID s))));
      match found with
      | Ok claimed => mret claimed
      | _ => lift (Err claimErr)
      end
  end.

Definition finishPayloadDeletion (ctx : Context) (candidate : payloadDocument) : Run unit :=
  _ ← (if negb (FileID candidate =? noFile) then remove ctx (FileID candidate) else mret tt);
  guard ← call NewObjectID;
  matched ← call (UpdateOne ctx payloads (yd_ID candidate) (inState payloadStateDeleting (ydToken candidate)) (erased guard));
  if matched =? 1 then mret tt else lift (Err ErrConflict).

Definition CollectPayload (ctx : Context) (ref : AdmissionPayloadRef) : Run unit :=
  match ctx with
  | InSession => lift (Err ErrNestedTransaction)
  | Plain =>
      _ ← lift (validatePayload s ref);
      found ← loadCollectablePayload ctx ref;
      match found with
      | None => mret tt
      | Some candidate =>
          candidate ← (if negb (bool_decide (ydState candidate = payloadStateDeleting)) then claimExpiredPayload ctx ref candidate else mret candidate);
          finishPayloadDeletion ctx candidate
      end
  end.

End Content.

End MongoContent.
