(* ===== verification/MongoEffects.v ===== *)
(** * What an admission checks and writes

    The body of an admission, as predicates on the state of its transaction and as a pure
    function of it. *)

From S2P Require Import Prelude Bytes Decimal Runs Traced Admission EngineTypes AdmissionPlan.
From S2P Require Import MongoEncoding MongoDriver MongoTransaction MongoRules MongoPlan MongoPayload MongoAdmission.
Import Admission MongoEncoding MongoTransaction MongoPlan MongoPayload MongoAdmission.
Open Scope Z_scope.

Module MongoEffects.

(** ** Predicates of a plan *)

Section Predicates.
Context (s : Store) (db : DB).

Definition absent (c : collection) (id : list byte) : Prop := docs c db !! id = None.

Definition found (c : collection) (id : list byte) : option (document c) := docs c db !! id.

Definition fence_is (topic : list byte) (fence : HistoryFence) : Prop :=
  exists d : document fences, docs fences db !! fenceID s topic = Some d /\
    DecodeUint64 (fdChainEpoch d) = Ok (ChainEpoch fence) /\ DecodeUint64 (fdGeneration d) = Ok (TopicHistoryGeneration fence).

Definition read_holds (topic : list byte) (read : AdmissionReadPredicate) : Prop :=
  match found reads (readID s topic (readKey read)) with
  | Some d => readVersion read = Some (ReadVersion d)
  | None => readVersion read = None
  end.

Lemma read_holds_found topic read (d : document reads) :
  docs reads db !! readID s topic (readKey read) = Some d -> readVersion read = Some (ReadVersion d) -> read_holds topic read.
Proof. intros Hd E. unfold read_holds, found. by rewrite Hd. Qed.

Lemma read_holds_missing topic read :
  docs reads db !! readID s topic (readKey read) = None -> readVersion read = None -> read_holds topic read.
Proof. intros Hd E. unfold read_holds, found. by rewrite Hd. Qed.

(** The output is unspent, in the version that the plan expects. *)
Definition spendable (topic : list byte) (spend : AdmissionSpend) : Prop :=
  exists d : document outputs, docs outputs db !! outputID s topic (spendOutpoint spend) = Some d /\
    SpendVersion d = ExpectedVersion spend /\ Spent d = false /\ SpentBy d = [].

(** The lease of a handoff is held, on the fence that the decision expects. *)
Definition lease_held (topic : list byte) (expected : HistoryFence) (handoff : HistoryRevisionHandoff) : Prop :=
  exists (d : document leases) nowMS, docs leases db !! leaseID s (Expected handoff) = Some d /\ ldScope d = scopeID s /\ ldTopic d = topic /\
    fenceFromLease d = expected /\ IsRecoveryLeaseCurrent (Expected handoff) (leaseFromDocument d (cfgScope (config s))) nowMS = Ok true.

Record decision_holds (txid : list byte) (d : AdmissionTopicDecision) : Prop := {
  dh_fence : fence_is (decTopic d) (ExpectedHistory d);
  dh_reads : forall read, read ∈ Reads d -> validText (readKey read) = true /\ read_holds (decTopic d) read;
  dh_spends : forall spend, spend ∈ Spends d -> spendable (decTopic d) spend;
  dh_evictions : forall o, o ∈ Evictions d -> is_Some (docs outputs db !! outputID s (decTopic d) o);
  dh_outputs : forall o, o ∈ decOutputs d -> absent outputs (outputID s (decTopic d) (outOutpoint o));
  dh_applied : absent applied (appliedID s (decTopic d) txid);
  dh_handoff : forall u h, HistoryUpdate d = Some u -> Handoff u = Some h -> lease_held (decTopic d) (ExpectedHistory d) h }.

Definition plan_holds (plan : AdmissionCommit) : Prop :=
  (forall i, i ∈ Outbox plan -> absent outbox (outboxID s (EventID i))) /\
  (forall d, d ∈ Decisions plan -> decision_holds (idTxID (comIdentity plan)) d).

End Predicates.

(** ** Effects of a plan *)

Section Effects.
Context (s : Store).

Definition inserted (c : collection) (r : result (document c)) (db : DB) : DB :=
  match r with Ok d => store c (docID d) d db | _ => db end.

Definition altered (c : collection) (id : list byte) (f : document c -> document c) (db : DB) : DB :=
  put c (alter f id (docs c db)) db.

Definition spendEffect (topic : list byte) (now : Time) (db : DB) (spend : AdmissionSpend) : DB :=
  altered outputs (outputID s topic (spendOutpoint spend)) (setSpent (Spender spend) now) db.

Definition evictEffect (topic : list byte) (db : DB) (o : AdmissionOutpoint) : DB :=
  put outputs (delete (outputID s topic o) (docs outputs db)) db.

Definition outputEffect (topic : list byte) (now : Time) (db : DB) (o : AdmissionOutput) : DB := inserted outputs (outputDocumentOf s topic o now) db.
Definition edgeEffect (topic : list byte) (now : Time) (db : DB) (e : AdmissionEdge) : DB := inserted edges (edgeDocumentOf s topic e now) db.
Definition appliedEffect (topic : list byte) (now : Time) (a : AdmissionAppliedTransaction) (db : DB) : DB :=
  inserted applied (appliedDocumentOf s topic a now) db.

(** The fence advances, and the lease of a handoff with it. *)
Definition historyEffect (topic : list byte) (now : Time) (u : AdmissionHistoryUpdate) (db : DB) : DB :=
  let nextGen := orEmpty (EncodeUint64 (NextTopicHistoryGeneration u)) in
  let affected := orEmpty (EncodeUint64 (AffectedFromHeight u)) in
  let db := altered fences (fenceID s topic) (setFence nextGen affected (Checkpoint <$> Handoff u) now) db in
  match Handoff u with Some h => altered leases (leaseID s (Expected h)) (setLease nextGen now) db | None => db end.

Definition decisionEffect (now : Time) (db : DB) (d : AdmissionTopicDecision) : DB :=
  let topic := decTopic d in
  let db := foldl (spendEffect topic now) db (Spends d) in
  let db := foldl (evictEffect topic) db (Evictions d) in
  let db := foldl (outputEffect topic now) db (decOutputs d) in
  let db := foldl (edgeEffect topic now) db (Edges d) in
  let db := appliedEffect topic now (Applied d) db in
  match HistoryUpdate d with Some u => historyEffect topic now u db | None => db end.

Definition outboxEffect (operation : list byte) (now : Time) (db : DB) (i : AdmissionOutboxIntent) : DB :=
  match encodePayloadRefs (intentPayloads i) with
  | Ok refs => inserted outbox (Ok (outboxDocumentOf s operation i refs now)) db
  | _ => db
  end.

Definition planEffect (now : Time) (plan : AdmissionCommit) (db : DB) : DB :=
  foldl (outboxEffect (OperationID (comKey plan)) now) (foldl (decisionEffect now) db (Decisions plan)) (Outbox plan).

(** *** Effects are local: they change collections of the ledger, as functions of themselves *)

Definition ledger (c : collection) : bool :=
  match c with outputs | edges | applied | outbox | fences | leases => true | _ => false end.

Record local (f : DB -> DB) : Prop := {
  local_congr : forall db db', (forall c, ledger c = true -> docs c db = docs c db') -> forall c, ledger c = true -> docs c (f db) = docs c (f db');
  local_frame : forall db c, ledger c = false -> docs c (f db) = docs c db;
  local_files : forall db, files (f db) = files db }.

Lemma local_id : local (fun db => db).
Proof. by constructor; auto. Qed.

Lemma local_compose f g : local f -> local g -> local (fun db => g (f db)).
Proof. intros [Cf Ff Gf] [Cg Fg Gg]. constructor; [intros; by apply Cg; [apply Cf|]|intros; by rewrite Fg, Ff|intros; by rewrite Gg, Gf]. Qed.

Lemma local_put c (F : gmap (list byte) (document c) -> gmap (list byte) (document c)) : ledger c = true -> local (fun db => put c (F (docs c db)) db).
Proof.
  intros Hc. constructor.
  - intros db db' Hd c' Hc'. destruct (decide (c' = c)) as [->|Hne]; [by rewrite !docs_put, Hd|rewrite !docs_put_other by done; by apply Hd].
  - intros db c' Hc'. rewrite docs_put_other; [done|]. intros ->. congruence.
  - intros db. apply files_put.
Qed.

Lemma local_inserted c r : ledger c = true -> local (inserted c r).
Proof. intros Hc. unfold inserted. destruct r as [d|e|]; [by apply (local_put c (fun m => <[docID d := d]> m))|apply local_id..]. Qed.

Lemma local_altered c id f : ledger c = true -> local (altered c id f).
Proof. intros Hc. by apply (local_put c (alter f id)). Qed.

Lemma local_foldl {A} (f : DB -> A -> DB) xs : (forall x, local (fun db => f db x)) -> local (fun db => foldl f db xs).
Proof.
  intros Hf. induction xs as [|x xs IH]; cbn [foldl]; [apply local_id|]. apply (local_compose (fun db => f db x) (fun db => foldl f db xs)); [apply Hf|done].
Qed.

Lemma local_decision now d : local (fun db => decisionEffect now db d).
Proof.
  assert (Hhist : local (fun db => match HistoryUpdate d with Some u => historyEffect (decTopic d) now u db | None => db end)).
  { destruct (HistoryUpdate d) as [u|]; [|apply local_id]. unfold historyEffect. destruct (Handoff u) as [h|]; [|by apply local_altered].
    by apply (local_compose (altered fences _ _) (altered leases _ _)); apply local_altered. }
  assert (Hspend : local (fun db => foldl (spendEffect (decTopic d) now) db (Spends d))) by (apply local_foldl; intros x; by apply local_altered).
  assert (Hevict : local (fun db => foldl (evictEffect (decTopic d)) db (Evictions d))).
  { apply local_foldl. intros x. by apply (local_put outputs (delete (outputID s (decTopic d) x))). }
  assert (Hout : local (fun db => foldl (outputEffect (decTopic d) now) db (decOutputs d))) by (apply local_foldl; intros x; by apply local_inserted).
  assert (Hedge : local (fun db => foldl (edgeEffect (decTopic d) now) db (Edges d))) by (apply local_foldl; intros x; by apply local_inserted).
  assert (Happ : local (appliedEffect (decTopic d) now (Applied d))) by by apply local_inserted.
  exact (local_compose _ _ (local_compose _ _ (local_compose _ _ (local_compose _ _ (local_compose _ _ Hspend Hevict) Hout) Hedge) Happ) Hhist).
Qed.

Lemma local_plan now plan : local (planEffect now plan).
Proof.
  apply (local_compose (fun db => foldl (decisionEffect now) db _) (fun db => foldl _ db _)); apply local_foldl; intros x; [apply local_decision|].
  unfold outboxEffect. destruct (encodePayloadRefs (intentPayloads x)) as [refs|e|]; [by apply local_inserted|apply local_id..].
Qed.

End Effects.

Section Rules.
Context {W : Type} `{!Mongo W, !MongoState W} {laws : MongoLaws W} (s : Store).
#[local] Set Default Proof Using "Type laws".
Local Abbreviation Run := (Runs.Run (St W tevent)).

Lemma inside_admissionNowMS : inside (admissionNowMS s InSession).
Proof. unfold admissionNowMS. repeat inside_step. Qed.
Hint Resolve inside_admissionNowMS : inside.

Lemma inside_reject {A} (code : rejection_code) : inside (reject code : Run A).
Proof using Type. apply inside_lift. Qed.
Hint Resolve inside_reject : inside.

Lemma inside_loadFence topic : inside (loadFence s InSession topic).
Proof. unfold loadFence. repeat inside_step. Qed.
Hint Resolve inside_loadFence : inside.

Lemma inside_mustBeAbsent c id : inside (mustBeAbsent InSession c id).
Proof. unfold mustBeAbsent. repeat inside_step. Qed.
Hint Resolve inside_mustBeAbsent : inside.

Lemma inside_fence d : inside (validateDecisionFence s InSession d).
Proof. unfold validateDecisionFence. repeat inside_step. Qed.
Lemma inside_read topic r : inside (validateRead s InSession topic r).
Proof. unfold validateRead. repeat inside_step. Qed.
Lemma inside_spend topic r : inside (validateSpend s InSession topic r).
Proof. unfold validateSpend. repeat inside_step. Qed.
Lemma inside_eviction topic r : inside (validateEviction s InSession topic r).
Proof. unfold validateEviction. repeat inside_step. Qed.
Lemma inside_handoff d : inside (validateDecisionHandoff s InSession d).
Proof. unfold validateDecisionHandoff, validateHandoff, loadLease. repeat inside_step. Qed.
Hint Resolve inside_fence inside_read inside_spend inside_eviction inside_handoff : inside.

Lemma inside_decisionState txid d : inside (validateDecisionState s InSession txid d).
Proof. unfold validateDecisionState. repeat inside_step. Qed.
Hint Resolve inside_decisionState : inside.

Lemma inside_state plan : inside (validateAdmissionState s InSession plan).
Proof. unfold validateAdmissionState. repeat inside_step. Qed.
Hint Resolve inside_state : inside.

(** A document is looked up, and its absence is an answer. *)
Lemma tx_lookup {A} db c id (k : result (document c) -> Run A) (P : result A -> DB -> Prop) :
  (forall r, inside (k r)) -> (forall db', P Panic db') ->
  (forall d, docs c db !! id = Some d -> tx db (k (Ok d)) P) ->
  (docs c db !! id = None -> tx db (k (Err ErrNoDocuments)) P) ->
  (forall e db', foreign e -> e <> ErrNoDocuments -> tx db' (k (Err e)) P) ->
  tx db (attempt (call (FindOne InSession c id anyDocument)) ≫= k) P.
Proof.
  intros Hk Hpanic Hsome Hnone Herr. apply tx_bind; [done|]. apply tx_attempt, tx_FindOne.
  - intros db'. split; [done|]. intros e Hf Hn _. by apply Herr.
  - intros now d Hd. apply Hsome. unfold matching in Hd. by destruct (docs c db !! id); simplify_eq.
  - intros now Hn. apply Hnone. unfold matching in Hn. by destruct (docs c db !! id).
  - intros db'. by apply Herr.
Qed.

(** A check: it changes nothing, and when it succeeds then [V]. *)
Definition check (db : DB) (m : Run unit) (V : Prop) : Prop := tx db m (fun r db' => r = Ok tt -> db' = db /\ V).

Lemma check_fail db e (V : Prop) : check db (lift (Err e)) V.
Proof using Type. by apply tx_lift. Qed.

Lemma check_pass db (V : Prop) : V -> check db (mret tt) V.
Proof using Type. intros HV. by apply tx_ret. Qed.

Lemma check_then db m1 m2 (V1 V2 : Prop) : inside m2 -> check db m1 V1 -> check db m2 V2 -> check db (m1 ≫= fun _ => m2) (V1 /\ V2).
Proof using Type.
  intros Hi H1 H2. apply tx_bind; [done|]. eapply tx_mono; [exact H1|]. intros [[]|e|] db' Hr; [|done..].
  destruct (Hr eq_refl) as [-> HV]. eapply tx_mono; [exact H2|]. intros r db1 H E. destruct (H E) as [-> HV2]. by split.
Qed.

Lemma check_lookup db c id (k : result (document c) -> Run unit) (V : Prop) :
  (forall r, inside (k r)) -> (forall e, e <> ErrNoDocuments -> k (Err e) = lift (Err e)) ->
  (forall d, docs c db !! id = Some d -> check db (k (Ok d)) V) -> (docs c db !! id = None -> check db (k (Err ErrNoDocuments)) V) ->
  check db (attempt (call (FindOne InSession c id anyDocument)) ≫= k) V.
Proof.
  intros Hk He Hsome Hnone. apply tx_lookup; [done|done|done|done|]. intros e db' _ Hne. rewrite (He e Hne). by apply tx_lift.
Qed.

Lemma mustBeAbsent_check db c id : check db (mustBeAbsent InSession c id) (absent db c id).
Proof.
  apply check_lookup; [intros r; repeat inside_step|by intros [] ?|intros d _; apply check_fail|intros Hn; by apply check_pass].
Qed.

Lemma read_check db topic r : check db (validateRead s InSession topic r) (validText (readKey r) = true /\ read_holds s db topic r).
Proof.
  unfold validateRead. destruct (validText (readKey r)); cbn [negb]; [|apply check_fail].
  apply (check_lookup db reads); [intros r'; repeat inside_step|by intros [] ?| |].
  - intros d Hd. case_bool_decide as E; [|apply check_fail]. apply check_pass. split; [done|]. by eapply read_holds_found.
  - intros Hn. destruct (readVersion r) eqn:E; [apply check_fail|]. apply check_pass. split; [done|]. by apply read_holds_missing.
Qed.

Lemma spend_check db topic sp : check db (validateSpend s InSession topic sp) (spendable s db topic sp).
Proof.
  apply (check_lookup db outputs); [intros r; repeat inside_step|by intros [] ?| |intros _; apply check_fail].
  intros d Hd. case_bool_decide as E1; [|apply check_fail]. destruct (Spent d) eqn:E2; [apply check_fail|]. case_bool_decide as E3; [|apply check_fail].
  apply check_pass. by exists d.
Qed.

Lemma eviction_check db topic o : check db (validateEviction s InSession topic o) (is_Some (docs outputs db !! outputID s topic o)).
Proof.
  apply (check_lookup db outputs); [intros r; repeat inside_step|by intros [] ?| |intros _; apply check_fail]. intros d Hd. apply check_pass. by exists d.
Qed.

(** A value that is read: nothing is changed, and [V] holds of it. *)
Definition reads_value {A} (db : DB) (m : Run A) (V : A -> Prop) : Prop := tx db m (fun r db' => forall a, r = Ok a -> db' = db /\ V a).

Lemma find_value db c id : reads_value db (call (FindOne InSession c id anyDocument)) (fun d => docs c db !! id = Some d).
Proof.
  apply tx_FindOne; [by intros db'; split|..|done|done]. intros now d Hd a [= <-]. split; [done|].
  unfold matching in Hd. by destruct (docs c db !! id); simplify_eq.
Qed.

Lemma lift_value {A} db (r : result A) : reads_value db (lift r) (fun a => r = Ok a).
Proof using Type. apply tx_lift. intros a ->. done. Qed.

Lemma value_bind {A B} db (m : Run A) (f : A -> Run B) V V' :
  (forall a, inside (f a)) -> reads_value db m V -> (forall a, V a -> reads_value db (f a) V') -> reads_value db (m ≫= f) V'.
Proof using Type.
  intros Hi Hm Hf. apply tx_bind; [done|]. eapply tx_mono; [exact Hm|]. intros [a|e|] db' Hr; [|done..].
  destruct (Hr a eq_refl) as [-> HV]. by apply Hf.
Qed.

Lemma value_ret {A} db (a : A) (V : A -> Prop) : V a -> reads_value db (mret a) V.
Proof using Type. intros HV. apply tx_ret. by intros a' [= <-]. Qed.

Lemma value_mono {A} db (m : Run A) (V V' : A -> Prop) : reads_value db m V -> (forall a, V a -> V' a) -> reads_value db m V'.
Proof using Type. intros Hm HV. eapply tx_mono; [exact Hm|]. intros r db' Hr a Ea. destruct (Hr a Ea). split; [done|by apply HV]. Qed.

(** A check of a value that may be missing. *)
Lemma check_value {A} db (m : Run A) (k : result A -> Run unit) V (V' : Prop) :
  (forall r, inside (k r)) -> reads_value db m V -> (forall a, V a -> check db (k (Ok a)) V') ->
  (forall e, exists e', k (Err e) = lift (Err e')) -> check db (attempt m ≫= k) V'.
Proof using Type.
  intros Hi Hm Hk He. apply tx_bind; [done|]. apply tx_attempt. eapply tx_mono; [exact Hm|]. intros [a|e|] db' Hr; [| |done].
  - destruct (Hr a eq_refl) as [-> HV]. by apply Hk.
  - destruct (He e) as [e' ->]. by apply tx_lift.
Qed.

Lemma loadFence_value db topic : reads_value db (loadFence s InSession topic) (fence_is s db topic).
Proof.
  unfold loadFence. eapply value_bind; [intros; repeat inside_step|apply (find_value db fences)|]. intros d Hd.
  eapply value_bind; [intros; repeat inside_step|apply lift_value|]. intros epoch E1.
  eapply value_bind; [intros; repeat inside_step|apply lift_value|]. intros generation E2. apply value_ret. by exists d.
Qed.

Lemma fenceEquals_true a b : fenceEquals a b = true -> a = b.
Proof using Type. destruct a, b. unfold fenceEquals. cbn. rewrite andb_true_iff, !bool_decide_eq_true. by intros [-> ->]. Qed.

Lemma fence_check db d : check db (validateDecisionFence s InSession d) (fence_is s db (decTopic d) (ExpectedHistory d)).
Proof.
  eapply check_value; [intros; repeat inside_step|apply loadFence_value| |intros []; by eexists].
  intros f Hf. destruct (fenceEquals f (ExpectedHistory d)) eqn:E; [|apply check_fail]. apply fenceEquals_true in E as <-. by apply check_pass.
Qed.

Lemma nowMS_value db : reads_value db (admissionNowMS s InSession) (fun _ => True).
Proof.
  unfold admissionNowMS. apply (tx_lookup db schema); [intros; repeat inside_step|done| | |].
  - intros d _. by apply tx_lift.
  - intros _. apply tx_bind; [intros; repeat inside_step|]. apply tx_same; [intros; by eapply Now_law| |done]. intros now. by apply tx_ret.
  - intros e db' _ Hne. by destruct e; try apply tx_lift.
Qed.

Lemma handoff_check db topic expected h : check db (validateHandoff s InSession topic expected h) (lease_held s db topic expected h).
Proof.
  unfold validateHandoff, loadLease. apply tx_bind; [intros; repeat inside_step|]. eapply tx_mono; [apply nowMS_value|].
  intros [nowMS|e|] db' Hr; [|done..]. destruct (Hr nowMS eq_refl) as [-> _].
  apply (check_lookup db leases); [intros; repeat inside_step|by intros [] ?| |intros _; apply check_fail].
  intros d Hd. case_bool_decide as E1; [|apply check_fail]. case_bool_decide as E2; [|apply check_fail]. cbn [negb orb].
  destruct (fenceEquals (fenceFromLease d) expected) eqn:E3; [|apply check_fail]. cbn [negb]. apply fenceEquals_true in E3.
  apply tx_bind; [intros; repeat inside_step|]. apply tx_lift.
  destruct (IsRecoveryLeaseCurrent _ _ _) as [[]|e|] eqn:E4; [|by apply check_fail|done..]. apply check_pass. exists d, nowMS. by split_and!.
Qed.

Lemma forEach_check {A} db (f : A -> Run unit) (V : A -> Prop) xs :
  (forall x, inside (f x)) -> (forall x, x ∈ xs -> check db (f x) (V x)) -> check db (forEach f xs) (forall x, x ∈ xs -> V x).
Proof using Type. apply tx_checks. Qed.

Lemma decisionHandoff_check db d :
  check db (validateDecisionHandoff s InSession d) (forall u h, HistoryUpdate d = Some u -> Handoff u = Some h -> lease_held s db (decTopic d) (ExpectedHistory d) h).
Proof.
  unfold validateDecisionHandoff. destruct (HistoryUpdate d) as [u|]; [|by apply check_pass].
  destruct (Handoff u) as [h|] eqn:Eh; [|by apply check_pass; intros ? ? [= <-] ?; congruence].
  eapply tx_mono; [apply handoff_check|]. intros r db' Hr E. destruct (Hr E) as [-> Hl]. split; [done|]. intros u' h' [= <-] E'. congruence.
Qed.

Lemma decision_check db txid d : check db (validateDecisionState s InSession txid d) (decision_holds s db txid d).
Proof.
  eapply tx_mono.
  - eapply (check_then db); [repeat inside_step|apply fence_check|].
    eapply (check_then db); [repeat inside_step|apply forEach_check; [intros; apply inside_read|intros; apply read_check]|].
    eapply (check_then db); [repeat inside_step|apply forEach_check; [intros; apply inside_spend|intros; apply spend_check]|].
    eapply (check_then db); [repeat inside_step|apply forEach_check; [intros; apply inside_eviction|intros; apply eviction_check]|].
    eapply (check_then db); [repeat inside_step|apply forEach_check; [intros; apply inside_mustBeAbsent|intros; apply mustBeAbsent_check]|].
    eapply (check_then db); [repeat inside_step|apply mustBeAbsent_check|apply decisionHandoff_check].
  - intros r db' Hr E. destruct (Hr E) as (-> & ? & ? & ? & ? & ? & ? & ?). split; [done|]. by constructor.
Qed.

Lemma plan_check db plan : check db (validateAdmissionState s InSession plan) (plan_holds s db plan).
Proof.
  eapply (check_then db); [repeat inside_step|apply forEach_check; [intros; apply inside_mustBeAbsent|intros; apply mustBeAbsent_check]|].
  apply forEach_check; [intros; apply inside_decisionState|intros; apply decision_check].
Qed.

(** *** Writes *)

Lemma inside_insertNew c d : inside (insertNew InSession c d).
Proof. unfold insertNew. repeat inside_step. Qed.
Hint Resolve inside_insertNew : inside.
Lemma inside_spendOutput topic now sp : inside (spendOutput s InSession topic now sp).
Proof. unfold spendOutput. repeat inside_step. Qed.
Lemma inside_evictOutput topic o : inside (evictOutput s InSession topic o).
Proof. unfold evictOutput. repeat inside_step. Qed.
Lemma inside_insertOutput topic now o : inside (insertAdmissionOutput s InSession topic now o).
Proof. unfold insertAdmissionOutput. repeat inside_step. Qed.
Lemma inside_insertEdge topic now o : inside (insertAdmissionEdge s InSession topic now o).
Proof. unfold insertAdmissionEdge. repeat inside_step. Qed.
Lemma inside_insertApplied topic a now : inside (insertApplied s InSession topic a now).
Proof. unfold insertApplied. repeat inside_step. Qed.
Lemma inside_advanceLease h g now : inside (advanceLease s InSession h g now).
Proof. unfold advanceLease. repeat inside_step. Qed.
Hint Resolve inside_advanceLease : inside.
Lemma inside_history topic f u now : inside (applyHistoryUpdate s InSession topic f u now).
Proof. unfold applyHistoryUpdate. repeat inside_step. Qed.
Hint Resolve inside_spendOutput inside_evictOutput inside_insertOutput inside_insertEdge inside_insertApplied inside_history : inside.
Lemma inside_decisionEffects now d : inside (writeDecisionEffects s InSession now d).
Proof. unfold writeDecisionEffects. repeat inside_step. Qed.
Lemma inside_writeOutbox plan now i : inside (writeOutbox s InSession plan now i).
Proof. unfold writeOutbox. repeat inside_step. Qed.
Hint Resolve inside_decisionEffects inside_writeOutbox : inside.

(** [m] succeeds only with the effect that leaves [after]. *)
Definition does (db : DB) (m : Run unit) (after : DB) : Prop := tx db m (fun r db' => r = Ok tt -> db' = after).

Lemma does_then db db1 db2 m1 m2 : inside m2 -> does db m1 db1 -> does db1 m2 db2 -> does db (m1 ≫= fun _ => m2) db2.
Proof using Type.
  intros Hi H1 H2. apply tx_bind; [done|]. eapply tx_mono; [exact H1|]. intros [[]|e|] db' Hr; [|done..]. by rewrite (Hr eq_refl).
Qed.

Lemma does_fail db e after : does db (lift (Err e)) after.
Proof using Type. by apply tx_lift. Qed.

Lemma does_lift {A} db (r : result A) (k : A -> Run unit) after :
  (forall a, inside (k a)) -> (forall a, r = Ok a -> does db (k a) after) -> does db (lift r ≫= k) after.
Proof using Type. intros Hi Hk. apply tx_bind; [done|]. apply tx_lift. destruct r as [a|e|]; [by apply Hk|done..]. Qed.

Lemma does_forEach {A} db (f : A -> Run unit) (g : DB -> A -> DB) xs :
  (forall x, inside (f x)) -> (forall x db, does db (f x) (g db x)) -> does db (forEach f xs) (foldl g db xs).
Proof using Type. intros Hi Hf. apply tx_forEach; [done|]. intros x db' _. apply Hf. Qed.

Lemma insertNew_does db c (d : document c) : does db (insertNew InSession c d) (store c (docID d) d db).
Proof.
  unfold insertNew. apply tx_bind; [intros; repeat inside_step|]. apply tx_attempt, tx_InsertOne.
  - intros db'. split; [done|]. intros e Hf _ _. by destruct e; try apply tx_lift.
  - intros _. by apply tx_ret.
  - intros db'. by apply tx_lift.
Qed.

Lemma updated_does db c id cond u code : 
  does db (matched ← call (UpdateOne InSession c id cond (fun _ => u)); if matched =? 1 then mret tt else reject code) (altered c id u db).
Proof.
  apply tx_bind; [intros; repeat inside_step|]. apply tx_UpdateOne; [by intros db'; split| | |done].
  - intros now d Hd _. apply tx_ret. intros _. unfold store, altered. f_equal. symmetry. by apply alter_alt_Some.
  - intros now _. by apply tx_lift.
Qed.

Lemma evict_does db topic o : does db (evictOutput s InSession topic o) (evictEffect s topic db o).
Proof.
  unfold evictOutput. apply tx_bind; [intros; repeat inside_step|]. apply tx_DeleteOne; [by intros db'; split| | |done].
  - intros d _. by apply tx_ret.
  - intros _. by apply tx_lift.
Qed.

Lemma insert_does db c (r : result (document c)) :
  does db (doc ← lift r; insertNew InSession c doc) (inserted c r db).
Proof. apply does_lift; [intros; repeat inside_step|]. intros d ->. apply insertNew_does. Qed.

Lemma edge_does db topic now e : does db (insertAdmissionEdge s InSession topic now e) (edgeEffect s topic now db e).
Proof.
  unfold insertAdmissionEdge, edgeEffect. apply does_lift; [intros; repeat inside_step|]. intros d ->.
  apply tx_bind; [intros; repeat inside_step|]. apply tx_attempt, (tx_InsertOne db edges).
  - intros db'. split; [done|]. intros e' Hf _ Hd. by destruct e'; try apply tx_lift.
  - intros _. by apply tx_ret.
  - intros db'. by apply tx_lift.
Qed.

Lemma stored_Ok r t : stored r = Ok t -> r = Ok t.
Proof using Type. by destruct r. Qed.

Lemma lease_does db h nextGen now :
  does db (advanceLease s InSession h nextGen now) (altered leases (leaseID s (Expected h)) (setLease nextGen now) db).
Proof.
  unfold advanceLease. apply tx_bind; [intros; repeat inside_step|]. eapply tx_mono; [apply nowMS_value|].
  intros [nowMS|e|] db' Hr; [|done..]. destruct (Hr nowMS eq_refl) as [-> _].
  apply does_lift; [intros; repeat inside_step|]. intros encoded _. apply (updated_does db leases).
Qed.

Lemma history_does db topic f u now : does db (applyHistoryUpdate s InSession topic f u now) (historyEffect s topic now u db).
Proof.
  unfold applyHistoryUpdate, historyEffect. destruct (match Handoff u with Some _ => _ | None => _ end); [apply does_fail|].
  apply does_lift; [intros; repeat inside_step|]. intros epoch _.
  apply does_lift; [intros; repeat inside_step|]. intros gen _.
  apply does_lift; [intros; repeat inside_step|]. intros nextGen ->%stored_Ok.
  apply does_lift; [intros; repeat inside_step|]. intros affected ->%stored_Ok. cbn [orEmpty].
  apply tx_bind; [intros; repeat inside_step|]. apply (tx_UpdateOne db fences); [by intros db'; split| | |done].
  - intros n d Hd _. change (negb (1 =? 1)) with false. cbv iota.
    assert (E : store fences (fenceID s topic) (setFence nextGen affected (Checkpoint <$> Handoff u) now d) db =
      altered fences (fenceID s topic) (setFence nextGen affected (Checkpoint <$> Handoff u) now) db).
    { unfold store, altered. f_equal. symmetry. by apply alter_alt_Some. }
    rewrite E. destruct (Handoff u) as [h|]; [apply lease_does|by apply tx_ret].
  - intros n _. by apply tx_lift.
Qed.

Lemma decision_does db now d : does db (writeDecisionEffects s InSession now d) (decisionEffect s now db d).
Proof.
  unfold writeDecisionEffects, decisionEffect. cbv zeta.
  eapply does_then; [repeat inside_step|apply does_forEach; [intros; apply inside_spendOutput|intros; apply (updated_does _ outputs)]|].
  eapply does_then; [repeat inside_step|apply does_forEach; [intros; apply inside_evictOutput|intros; apply evict_does]|].
  eapply does_then; [repeat inside_step|apply does_forEach; [intros; apply inside_insertOutput|intros; apply (insert_does _ outputs)]|].
  eapply does_then; [repeat inside_step|apply does_forEach; [intros; apply inside_insertEdge|intros; apply edge_does]|].
  eapply does_then; [repeat inside_step|apply (insert_does _ applied)|].
  destruct (HistoryUpdate d) as [u|]; [apply history_does|by apply tx_ret].
Qed.

Lemma outbox_does db plan now i : does db (writeOutbox s InSession plan now i) (outboxEffect s (OperationID (comKey plan)) now db i).
Proof.
  unfold writeOutbox, outboxEffect. apply does_lift; [intros; repeat inside_step|]. intros refs ->. apply (insertNew_does _ outbox).
Qed.

(** *** The body of an admission *)

Lemma inside_transactions plan now : inside (writeAdmissionTransactions s InSession plan now).
Proof. unfold writeAdmissionTransactions, upsertTransaction. repeat first [apply inside_pin | inside_step]. Qed.
Hint Resolve inside_transactions inside_pin : inside.

Lemma inside_effects plan : inside (writeAdmissionEffects s InSession plan).
Proof. unfold writeAdmissionEffects. repeat inside_step. Qed.
Hint Resolve inside_effects : inside.

Lemma inside_touchReference ref : inside (touchReference s InSession ref).
Proof. unfold touchReference. repeat first [apply inside_touch | inside_step]. Qed.
Hint Resolve inside_touchReference : inside.

Definition transactionRefs (plan : AdmissionCommit) : list AdmissionPayloadRef :=
  List.filter is_transaction (uniquePayloads (default [] (admissionReferences s plan))).

(** The transaction is stored with the payload that was selected for it. *)
Definition transaction_stored (db : DB) (plan : AdmissionCommit) : Prop :=
  forall ref, selectTransaction (transactionRefs plan) None = Some ref ->
    exists d : document transactions, docs transactions db !! transactionID s (idTxID (comIdentity plan)) = Some d /\ BeefDigest d = Digest ref /\ BeefKind d = payloadKindText (Kind ref) /\ tdAncillary d = planAncillaryTxids plan.

Lemma transactions_tx plan now db :
  tx db (writeAdmissionTransactions s InSession plan now) (fun r db' => r = Ok tt -> kept db db' /\ transaction_stored db' plan).
Proof.
  unfold writeAdmissionTransactions, transaction_stored. fold (transactionRefs plan). apply tx_bind; [intros; unfold upsertTransaction; repeat inside_step|].
  eapply tx_mono; [apply pins_tx|]. intros [[]|e|] db1 Hr; [|done..]. destruct (Hr eq_refl) as [Hk _].
  destruct (selectTransaction (transactionRefs plan) None) as [ref|]; [|by apply tx_ret].
  unfold upsertTransaction. apply tx_bind; [intros; repeat inside_step|]. apply tx_lift. destruct (EncodeUint64 _) as [length|e|]; [|done..].
  apply (tx_Upsert db1 transactions); [by intros db'; split| |done]. intros t _. split.
  - eapply kept_trans; [exact Hk|]. unfold store. constructor; [by rewrite docs_put_other|intros id; by rewrite docs_put_other|intros id n; rewrite docs_put_other by done; by left|by rewrite files_put|intros c ???; by rewrite docs_put_other].
  - intros ref' [= <-]. eexists. unfold store. rewrite docs_put, lookup_insert_eq. split; [done|]. done.
Qed.

(** What a body that succeeds has found in [db], and leaves in [db']. *)
Record admits (plan : AdmissionCommit) (db db' : DB) : Prop := {
  ad_shape : well_formed s plan;
  ad_ready : forall ref, ref ∈ references plan -> is_ready s db ref;
  ad_holds : plan_holds s db plan;
  ad_ledger : exists now, forall c, ledger c = true -> docs c db' = docs c (planEffect s now plan db);
  ad_frame : forall c, c ∈ [operations; reads; schema; cursors] -> docs c db' = docs c db;
  ad_content : exists db1, kept db db1 /\ docs payloads db' = docs payloads db1 /\ docs MongoDriver.references db' = docs MongoDriver.references db1 /\ files db' = files db1;
  ad_pins : forall ref, ref ∈ references plan -> is_Some (docs MongoDriver.references db' !! referenceID s ref (mkOwner ReferencePin (OperationID (comKey plan))));
  ad_transaction : transaction_stored db' plan }.

Lemma touches_tx refs db :
  tx db (forEach (touchReference s InSession) refs) (fun r db' => r = Ok tt -> kept db db' /\ forall ref, ref ∈ refs -> is_ready s db ref).
Proof.
  revert db. induction refs as [|ref refs IH]; intros db; cbn [forEach]; [apply tx_ret; intros _; split; [apply kept_refl|by intros ref ?%elem_of_nil]|].
  apply tx_bind; [intros _; repeat inside_step|]. unfold touchReference at 1. apply tx_bind; [intros; repeat inside_step|]. apply tx_attempt.
  eapply tx_mono; [apply touch_tx|]. intros [[]|e|] db1 Hr; [|by destruct e; apply tx_lift|done]. destruct Hr as [Eu Hready]. apply unguarded_kept in Eu.
  apply tx_lift. eapply tx_mono; [apply IH|]. intros r db2 H2 E. destruct (H2 E) as [Hk2 Hall]. split; [by eapply kept_trans|].
  intros ref' [->|Hin]%elem_of_cons; [done|]. eapply kept_ready; [done|by apply Hall].
Qed.

Lemma kept_plan_holds db db1 plan : kept db db1 -> plan_holds s db1 plan -> plan_holds s db plan.
Proof using Type.
  intros [_ _ _ _ Hd] [Ho Hdec]. split; [intros i Hi; unfold absent; rewrite <- (Hd outbox) by done; by apply Ho|].
  intros d Hin. destruct (Hdec d Hin) as [F R Sp Ev Ou Ap Hf].
  constructor.
  - unfold fence_is in *. by rewrite <- (Hd fences).
  - intros r Hr. unfold read_holds, found. rewrite <- (Hd reads) by done. by apply R.
  - intros sp Hsp. unfold spendable. rewrite <- (Hd outputs) by done. by apply Sp.
  - intros o Hov. rewrite <- (Hd outputs) by done. by apply Ev.
  - intros o Hov. unfold absent. rewrite <- (Hd outputs) by done. by apply Ou.
  - unfold absent. rewrite <- (Hd applied) by done. apply Ap.
  - intros u h Hu Hh. unfold lease_held. rewrite <- (Hd leases) by done. by eapply Hf.
Qed.

Lemma applyAdmission_tx plan db :
  tx db (applyAdmission s InSession plan) (fun r db' => forall receipt, r = Ok receipt -> receipt = makeAdmissionReceipt plan /\ admits plan db db').
Proof.
  unfold applyAdmission. destruct (planShapeValid s plan) eqn:Eshape; cbn [negb]; [|by apply tx_lift].
  destruct (admissionReferences s plan) as [refs|] eqn:Erefs; [|by apply tx_lift]. apply accepted_plans_wf in Eshape.
  apply admissionReferences_spec in Erefs as (-> & _ & Hvalid). destruct (uniquePayloads_spec s (references plan) Hvalid) as [_ Hin].
  apply tx_bind; [intros; repeat inside_step|]. eapply tx_mono; [apply touches_tx|]. intros [[]|e|] db1 Hr; [|done..]. destruct (Hr eq_refl) as [Hk1 Hready].
  apply tx_bind; [intros; repeat inside_step|]. eapply tx_mono; [apply plan_check|]. intros [[]|e|] db1' Hr'; [|done..]. destruct (Hr' eq_refl) as [-> Hholds].
  apply tx_bind; [intros; repeat inside_step|]. eapply tx_mono; [apply pins_tx|]. intros [[]|e|] db2 Hr2; [|done..]. destruct (Hr2 eq_refl) as [Hk2 Hpins].
  apply tx_bind; [intros; repeat inside_step|]. unfold writeAdmissionEffects.
  apply tx_bind; [intros; repeat inside_step|]. apply tx_same; [intros; by eapply Now_law| |done]. intros now.
  apply tx_bind; [intros; repeat inside_step|]. eapply tx_mono; [apply transactions_tx|]. intros [[]|e|] db3 Hr3; [|done..]. destruct (Hr3 eq_refl) as [Hk3 Htx].
  eapply tx_mono; [eapply does_then; [repeat inside_step|apply does_forEach; [intros; apply inside_decisionEffects|intros; apply decision_does]|
    apply does_forEach; [intros; apply inside_writeOutbox|intros; apply outbox_does]]|].
  intros [[]|e|] db4 Hr4; [|done..]. assert (E4 : db4 = planEffect s now plan db3) by exact (Hr4 eq_refl). apply tx_ret. intros receipt [= <-]. split; [done|].
  assert (Hk : kept db db3) by (eapply kept_trans; [exact Hk1|by eapply kept_trans]). destruct (local_plan s now plan) as [Hcongr Hframe Hfiles].
  constructor.
  - done.
  - intros ref Hrefin. by apply Hready, Hin.
  - exact (kept_plan_holds _ _ _ Hk1 Hholds).
  - exists now. intros c Hc. rewrite E4. apply Hcongr; [|done]. intros c' Hc'. apply (kept_docs _ _ Hk); by intros ->.
  - intros c Hc. assert (Hc' : ledger c = false /\ c <> payloads /\ c <> MongoDriver.references /\ c <> transactions).
    { repeat (apply elem_of_cons in Hc as [->|Hc]; [done|]). by apply elem_of_nil in Hc. }
    destruct Hc' as (? & ? & ? & ?). rewrite E4, Hframe by done. by apply (kept_docs _ _ Hk).
  - exists db3. rewrite E4, !Hframe, Hfiles by done. by split_and!.
  - intros ref Hrefin. rewrite E4, Hframe by done. apply (kept_references _ _ Hk3). by apply Hpins, Hin.
  - intros ref Hsel. rewrite E4, Hframe by done. by apply Htx.
Qed.

End Rules.

End MongoEffects.
