(* ===== verification/MongoOperation.v ===== *)
(** * pkg/storage/mongodb/operation.go: operations and their rows

    An operation has one row.  A claim makes the row pending for an attempt; the body of
    the attempt and the receipt become durable in one transaction that also writes the
    row, or the attempt is fenced.  [CommitAdmission] runs the body of an admission so. *)

From S2P Require Import Prelude Bytes Utf8 Runs Traced Admission EngineTypes AdmissionPlan.
From S2P Require Import MongoEncoding MongoReceipt MongoDriver MongoTransaction MongoRules MongoPlan MongoPayload MongoAdmission MongoEffects.
Import Admission MongoEncoding MongoReceipt MongoTransaction MongoPlan MongoPayload MongoAdmission.
Open Scope Z_scope.

Module MongoOperation.

Definition schemaVersion : Z := 1.
Definition statePending : list byte := str "pending".
Definition stateAborted : list byte := str "aborted".
Definition stateCommitted : list byte := str "committed".
Definition firstToken : list byte := str "00000000000000000001".

(** ** Results *)

Definition noResult : AdmissionCommitResult := mkCommitResult AdmissionCommitStateOther None [] NoRejection.
Definition committed (r : AdmissionReceipt) : AdmissionCommitResult := mkCommitResult AdmissionCommitStateCommitted (Some r) [] NoRejection.
Definition pendingOperation (attempt : list byte) : AdmissionCommitResult := mkCommitResult AdmissionCommitStatePending None attempt NoRejection.
Definition aborted : AdmissionCommitResult := mkCommitResult AdmissionCommitStateAborted None [] NoRejection.
Definition rejected (code : rejection_code) : AdmissionCommitResult := mkCommitResult AdmissionCommitStateRejected None [] code.

(** A result and an error, which may be nil. *)
Abbreviation outcome := (AdmissionCommitResult * option error)%type.

(** [errors.As] of a rejection: the first one among joined errors. *)
Fixpoint rejectionOf (e : error) : option rejection_code :=
  match e with
  | ErrRejection code => Some code
  | ErrJoin e1 e2 => match rejectionOf e1 with Some code => Some code | None => rejectionOf e2 end
  | ErrBlobWriter e => rejectionOf e
  | _ => None
  end.

(** ** Rows *)

Definition setState (state : list byte) (receipt : option (list byte)) (guard : ObjectID) (now : Time) (d : operationDocument) : operationDocument :=
  mkOperationDocument (pd_ID d) (pdVersion d) (pdScope d) (pdOperationID d) (pdDigest d) state (Attempt d) (Owner d) (Token d) (LeaseUntil d)
    guard (pdCreatedAt d) now (match receipt with Some r => Some r | None => pdReceipt d end).

Definition setRowGuard (guard : ObjectID) (d : operationDocument) : operationDocument :=
  mkOperationDocument (pd_ID d) (pdVersion d) (pdScope d) (pdOperationID d) (pdDigest d) (pdState d) (Attempt d) (Owner d) (Token d) (LeaseUntil d)
    guard (pdCreatedAt d) (pdUpdatedAt d) (pdReceipt d).

(** A lease, in the milliseconds of the server's clock. *)
Definition replaceWithServerDates (operation : operationDocument) (lease : Z) (now : Time) : operationDocument :=
  mkOperationDocument (pd_ID operation) (pdVersion operation) (pdScope operation) (pdOperationID operation) (pdDigest operation) (pdState operation)
    (Attempt operation) (Owner operation) (Token operation) (now + lease / Millisecond) (Guard operation) now now (pdReceipt operation).

Definition leaseCurrent (now : Time) (d : operationDocument) : bool := now <? LeaseUntil d.
Definition leaseExpired (now : Time) (d : operationDocument) : bool := LeaseUntil d <=? now.

(** The zero value, into which nothing was decoded. *)
Definition noOperation : operationDocument := mkOperationDocument [] 0 [] [] [] [] [] [] [] 0 0 0 0 None.

Definition operationPredicate (operation d : operationDocument) : bool :=
  bool_decide (pd_ID d = pd_ID operation) && bool_decide (pdScope d = pdScope operation) && bool_decide (pdDigest d = pdDigest operation) &&
  bool_decide (pdState d = statePending) && bool_decide (Attempt d = Attempt operation) && bool_decide (Owner d = Owner operation) &&
  bool_decide (Token d = Token operation).

Definition errorOf {A} (r : result A) : option error := match r with Err e => Some e | _ => None end.

(** [errors.Join], where the first error may be nil. *)
Definition joinErrors (first : option error) (e : error) : error := match first with Some f => ErrJoin f e | None => e end.

Section Operation.
Context {W : Type} `{Mongo W} (s : Store).
Local Abbreviation Run := (Runs.Run (St W tevent)).

Definition validateOperation (key : AdmissionOperationKey) : result unit :=
  if negb (bool_decide (keyScope key = cfgScope (config s))) || negb (validText (OperationID key)) || negb (validHash (SemanticDigest key))
  then Err ErrInvalidOperation else Ok tt.

Definition validOperationDocument (operation : operationDocument) (key : AdmissionOperationKey) : bool :=
  bool_decide (pd_ID operation = operationID s key) && bool_decide (pdScope operation = scopeID s) &&
  bool_decide (pdOperationID operation = OperationID key) && (pdVersion operation =? schemaVersion) &&
  validHash (pdDigest operation) && validText (Attempt operation) && is_ok (DecodeUint64 (Token operation)).

Definition operationResult (operation : operationDocument) (key : AdmissionOperationKey) : outcome :=
  if negb (validOperationDocument operation key) then (noResult, Some ErrInvalidOperation)
  else if negb (bool_decide (pdDigest operation = SemanticDigest key)) then (rejected AdmissionRejectionDigestMismatch, None)
  else if bool_decide (pdState operation = statePending) then (pendingOperation (Attempt operation), None)
  else if bool_decide (pdState operation = stateAborted) then (aborted, None)
  else if bool_decide (pdState operation = stateCommitted) then
    match savedReceipt key (pdReceipt operation) with
    | Ok receipt => (committed receipt, None)
    | Err e => (noResult, Some e)
    | Panic => (noResult, Some ErrInvalidOperation)
    end
  else (noResult, Some ErrInvalidOperation).

Definition unclaimedOperationResult (operation : operationDocument) (key : AdmissionOperationKey) : outcome :=
  if bool_decide (pdState operation = stateAborted) && bool_decide (pdDigest operation = SemanticDigest key)
  then (noResult, Some ErrConflict) else operationResult operation key.

(** The row that is read, or what was there before the error. *)
Definition decodedOr (old : operationDocument) (r : result operationDocument) : operationDocument * option error :=
  match r with Ok d => (d, None) | Err e => (old, Some e) | Panic => (old, None) end.

Definition findOperation (ctx : Context) (id : list byte) : Run (result operationDocument) := attempt (call (FindOne ctx operations id anyDocument)).

(** The write of a claim: over the aborted row that was read, or as a new row; every row
    has a version, so that without one the filter matches no row. *)
Definition claimRow (ctx : Context) (key : AdmissionOperationKey) (existing : option operationDocument) (token : list byte) :
    Run (operationDocument * bool * option error) :=
  let id := operationID s key in
  attemptID ← call NewUUID;
  guard ← call NewObjectID;
  let operation := mkOperationDocument id schemaVersion (scopeID s) (OperationID key) (SemanticDigest key) statePending attemptID (ownerID s) token 0 guard 0 0 None in
  let matches (_ : Time) (d : operationDocument) := match existing with
    | Some old => bool_decide (pdState d = stateAborted) && bool_decide (Attempt d = Attempt old) && bool_decide (Token d = Token old) &&
                  bool_decide (pdDigest d = SemanticDigest key)
    | None => false
    end in
  r ← attempt (call (FindOneAndUpdate ctx operations id matches (fun now _ => replaceWithServerDates operation (LeaseDuration (config s)) now)
                       (match existing with Some _ => false | None => true end)));
  match r with
  | Err ErrDuplicateKey | Err ErrNoDocuments =>
      again ← findOperation ctx id;
      let '(found, err) := decodedOr (default noOperation existing) again in
      mret (found, false, err)
  | _ => let '(found, err) := decodedOr operation r in mret (found, match err with None => true | Some _ => false end, err)
  end.

Definition claimOperation (ctx : Context) (key : AdmissionOperationKey) : Run (operationDocument * bool * option error) :=
  r ← findOperation ctx (operationID s key);
  match r with
  | Ok existing =>
      if negb (validOperationDocument existing key) then mret (existing, false, Some ErrInvalidOperation)
      else if negb (bool_decide (pdDigest existing = SemanticDigest key)) || negb (bool_decide (pdState existing = stateAborted))
      then mret (existing, false, None)
      else match nextToken (Token existing) with
      | Ok token => claimRow ctx key (Some existing) token
      | Err e => mret (existing, false, Some e)
      | Panic => lift Panic
      end
  | Err ErrNoDocuments => claimRow ctx key None firstToken
  | Err e => mret (noOperation, false, Some e)
  | Panic => lift Panic
  end.

(** ** Bodies *)

(** The filter of the writes of a body: the row is that of the attempt, and its lease runs. *)
Definition claimed (operation : operationDocument) (now : Time) (d : operationDocument) : bool := operationPredicate operation d && leaseCurrent now d.

Definition applyOperationBody (ctx : Context) (operation : operationDocument) (key : AdmissionOperationKey)
    (body : Context -> Run AdmissionReceipt) : Run AdmissionReceipt :=
  guard ← call NewObjectID;
  guarded ← call (UpdateOne ctx operations (pd_ID operation) (claimed operation) (fun _ => setRowGuard guard));
  if negb (guarded =? 1) then lift (Err ErrConflict) else
  generated ← body ctx;
  encoded ← lift (encodeReceipt key generated);
  guard ← call NewObjectID;
  saved ← call (UpdateOne ctx operations (pd_ID operation) (claimed operation) (fun now d => setState stateCommitted (Some encoded) guard now d));
  if negb (saved =? 1) then lift (Err ErrConflict) else
  mret (receipt (newReceiptDocument generated)).

(** The row of the attempt becomes aborted. *)
Definition fenceRow (ctx : Context) (operation : operationDocument) (cond : Time -> operationDocument -> bool) : Run (result Z) :=
  guard ← call NewObjectID;
  attempt (call (UpdateOne ctx operations (pd_ID operation) (fun now d => operationPredicate operation d && cond now d) (setState stateAborted None guard))).

Definition fenceAbortedOperation (ctx : Context) (key : AdmissionOperationKey) (operation : operationDocument) (transactionErr : option error) : Run outcome :=
  let pending e := (pendingOperation (Attempt operation), Some (joinErrors transactionErr e)) in
  fenced ← fenceRow ctx operation (fun _ _ => true);
  match fenced with
  | Err fenceErr => mret (pending fenceErr)
  | Panic => lift Panic
  | Ok n =>
      if n =? 1 then mret (noResult, transactionErr) else
      current ← findOperation ctx (pd_ID operation);
      match current with
      | Err readErr => mret (pending readErr)
      | Panic => lift Panic
      | Ok current =>
          match operationResult current key with
          | (_, Some resultErr) => mret (pending resultErr)
          | (result, None) =>
              match State result with
              | AdmissionCommitStatePending => mret (result, transactionErr)
              | AdmissionCommitStateAborted => mret (noResult, transactionErr)
              | AdmissionCommitStateCommitted | AdmissionCommitStateRejected => mret (result, None)
              | AdmissionCommitStateOther => mret (pendingOperation (Attempt operation), transactionErr)
              end
          end
      end
  end.

(** The receipt is what the body has assigned; a commit comes with it. *)
Definition commitOperationBody (ctx : Context) (key : AdmissionOperationKey) (operation : operationDocument)
    (body : Context -> Run AdmissionReceipt) : Run outcome :=
  '(o, r) ← runTransaction s ctx (fun ctx => applyOperationBody ctx operation key body);
  match o with
  | transactionCommitted => match r with Ok receipt => mret (committed receipt, None) | _ => lift Panic end
  | transactionPending => mret (pendingOperation (Attempt operation), errorOf r)
  | transactionAborted => fenceAbortedOperation Plain key operation (errorOf r)
  end.

Definition ExecuteOperation (ctx : Context) (key : AdmissionOperationKey) (body : option (Context -> Run AdmissionReceipt)) : Run outcome :=
  match ctx with
  | InSession => mret (noResult, Some ErrNestedTransaction)
  | Plain =>
      match validateOperation key, body with
      | Ok _, Some body =>
          '(operation, claimed, err) ← claimOperation ctx key;
          match err with
          | Some e => if bool_decide (Attempt operation = []) then mret (noResult, Some e) else mret (pendingOperation (Attempt operation), Some e)
          | None => if negb claimed then mret (unclaimedOperationResult operation key) else commitOperationBody ctx key operation body
          end
      | _, _ => mret (noResult, Some ErrInvalidOperation)
      end
  end.

(** ** Reconciliation *)

Definition insertOperationTombstone (ctx : Context) (key : AdmissionOperationKey) (attemptID : list byte) : Run (operationDocument * option error) :=
  let id := operationID s key in
  guard ← call NewObjectID;
  let tombstone := mkOperationDocument id schemaVersion (scopeID s) (OperationID key) (SemanticDigest key) stateAborted attemptID (ownerID s) firstToken 0 guard 0 0 None in
  r ← attempt (call (FindOneAndUpdate ctx operations id (fun _ _ => false) (fun now _ => replaceWithServerDates tombstone (LeaseDuration (config s)) now) true));
  match r with
  | Err ErrDuplicateKey => again ← findOperation ctx id; mret (decodedOr noOperation again)
  | _ => mret (decodedOr noOperation r)
  end.

Definition loadOrTombstoneOperation (ctx : Context) (key : AdmissionOperationKey) (attemptID : option (list byte)) : Run (operationDocument * option error) :=
  r ← findOperation ctx (operationID s key);
  match r, attemptID with
  | Err ErrNoDocuments, None => mret (noOperation, Some ErrInvalidOperation)
  | Err ErrNoDocuments, Some a => insertOperationTombstone ctx key a
  | _, _ => mret (decodedOr noOperation r)
  end.

Definition otherAttempt (attemptID : option (list byte)) (operation : operationDocument) : bool :=
  match attemptID with Some a => negb (bool_decide (a = Attempt operation)) | None => false end.

Definition fenceExpiredPendingOperation (ctx : Context) (key : AdmissionOperationKey) (attemptID : option (list byte)) (operation : operationDocument) : Run outcome :=
  fenced ← fenceRow ctx operation leaseExpired;
  match fenced with
  | Err e => mret (pendingOperation (Attempt operation), Some e)
  | Panic => lift Panic
  | Ok n =>
      if n =? 1 then mret (aborted, None) else
      current ← findOperation ctx (pd_ID operation);
      match current with
      | Err e => mret (pendingOperation (Attempt operation), Some e)
      | Panic => lift Panic
      | Ok current => if otherAttempt attemptID current then mret (noResult, Some ErrConflict) else mret (operationResult current key)
      end
  end.

Definition reconcileLoadedOperation (ctx : Context) (key : AdmissionOperationKey) (attemptID : option (list byte)) (operation : operationDocument) : Run outcome :=
  if negb (validOperationDocument operation key) then mret (noResult, Some ErrInvalidOperation)
  else if negb (bool_decide (pdDigest operation = SemanticDigest key)) then mret (operationResult operation key)
  else if otherAttempt attemptID operation then mret (noResult, Some ErrConflict)
  else if negb (bool_decide (pdState operation = statePending)) then mret (operationResult operation key)
  else fenceExpiredPendingOperation ctx key attemptID operation.

Definition ReconcileOperation (ctx : Context) (key : AdmissionOperationKey) (attemptID : option (list byte)) : Run outcome :=
  match ctx with
  | InSession => mret (noResult, Some ErrNestedTransaction)
  | Plain =>
      match validateOperation key with
      | Ok _ =>
          if match attemptID with Some a => negb (validText a) | None => false end then mret (noResult, Some ErrInvalidOperation) else
          '(operation, err) ← loadOrTombstoneOperation ctx key attemptID;
          match err, attemptID with
          | Some e, Some a => mret (pendingOperation a, Some e)
          | Some e, None => mret (noResult, Some e)
          | None, _ => reconcileLoadedOperation ctx key attemptID operation
          end
      | _ => mret (noResult, Some ErrInvalidOperation)
      end
  end.

(** ** Admissions *)

Definition CommitAdmission (ctx : Context) (plan : AdmissionCommit) : Run outcome :=
  match ctx with
  | InSession => mret (noResult, Some ErrNestedTransaction)
  | Plain =>
      match prevalidateAdmission s plan with
      | NoRejection =>
          '(result, err) ← ExecuteOperation ctx (comKey plan) (Some (fun ctx => applyAdmission s ctx plan));
          mret match err with
               | Some e => match rejectionOf e with Some code => (rejected code, None) | None => (result, err) end
               | None => (result, None)
               end
      | code => mret (rejected code, None)
      end
  end.

Definition ReconcileAdmission (ctx : Context) (key : AdmissionOperationKey) (attemptID : option (list byte)) : Run outcome :=
  ReconcileOperation ctx key attemptID.

End Operation.
End MongoOperation.
