(* ===== verification/MongoCommit.v ===== *)
(** * What operations make durable

    The rows of operations follow a protocol, and the effects of a body become durable
    with the committed row or not at all.  For a body that meets its contract in a
    transaction, whatever the driver answers. *)

From S2P Require Import Prelude Bytes Utf8 Decimal Runs Traced Admission EngineTypes AdmissionPlan.
From S2P Require Import MongoEncoding MongoReceipt MongoDriver MongoModel MongoTransaction MongoRules MongoPlan MongoPayload MongoAdmission MongoEffects MongoOperation.
Import Admission AdmissionPlan MongoEncoding MongoReceipt MongoTransaction MongoPlan MongoPayload MongoAdmission MongoEffects MongoOperation.
Open Scope Z_scope.

Module MongoCommit.

(** ** The protocol of a row *)

(** The claim of a row: who works on what. *)
Definition claim (d : operationDocument) : list (list byte) := [pd_ID d; pdScope d; pdOperationID d; pdDigest d; Attempt d; Owner d; Token d].

Section Protocol.
Context (s : Store) (key : AdmissionOperationKey).

Definition fresh (state token : list byte) (d : operationDocument) : Prop :=
  pd_ID d = operationID s key /\ pdVersion d = schemaVersion /\ pdScope d = scopeID s /\ pdOperationID d = OperationID key /\
  pdDigest d = SemanticDigest key /\ pdState d = state /\ Owner d = ownerID s /\ Token d = token /\ pdReceipt d = None /\ validText (Attempt d) = true.

(** The steps of a row: it is claimed when there is none, or when its last attempt is
    aborted, with the next token; a claim is fenced, or committed with a receipt. *)
Inductive row_step : option operationDocument -> option operationDocument -> Prop :=
  | row_claimed d : fresh statePending firstToken d -> row_step None (Some d)
  | row_tombstone d : fresh stateAborted firstToken d -> row_step None (Some d)
  | row_reclaimed old d token : pdState old = stateAborted -> pdDigest old = SemanticDigest key -> nextToken (Token old) = Ok token ->
      fresh statePending token d -> row_step (Some old) (Some d)
  | row_fenced old d : pdState old = statePending -> claim d = claim old -> pdState d = stateAborted -> row_step (Some old) (Some d)
  | row_committed old d data r : pdState old = statePending -> claim d = claim old -> pdState d = stateCommitted ->
      pdReceipt d = Some data -> savedReceipt key (Some data) = Ok r -> row_step (Some old) (Some d).

Definition row (db : DB) : option operationDocument := docs operations db !! operationID s key.

(** Only the row of the operation may differ. *)
Record elsewhere (db db' : DB) : Prop := {
  elsewhere_docs : forall c, c <> operations -> docs c db' = docs c db;
  elsewhere_rows : forall id, id <> operationID s key -> docs operations db' !! id = docs operations db !! id;
  elsewhere_files : files db' = files db }.

Lemma elsewhere_refl db : elsewhere db db.
Proof. done. Qed.

Lemma elsewhere_trans db1 db2 db3 : elsewhere db1 db2 -> elsewhere db2 db3 -> elsewhere db1 db3.
Proof. intros [D1 R1 F1] [D2 R2 F2]. constructor; intros; [by rewrite D2, D1|by rewrite R2, R1|by rewrite F2]. Qed.

Lemma elsewhere_store db d : elsewhere db (store operations (operationID s key) d db).
Proof. unfold store. constructor; intros; [by rewrite docs_put_other|by rewrite docs_put, lookup_insert_ne|by rewrite files_put]. Qed.

Lemma row_store db d : row (store operations (operationID s key) d db) = Some d.
Proof. unfold row, store. by rewrite docs_put, lookup_insert_eq. Qed.

(** Nothing was done but to the row, and the row is not committed by it. *)
Definition unapplied (db db' : DB) : Prop := elsewhere db db' /\ rtc row_step (row db) (row db') /\
  forall d, row db' = Some d -> pdState d = stateCommitted -> db' = db.

Lemma unapplied_refl db : unapplied db db.
Proof. split_and!; [apply elsewhere_refl|apply rtc_refl|done]. Qed.

(** A body has run in a transaction, on [B], and the row is committed with its receipt. *)
Definition applied (B : AdmissionReceipt -> DB -> DB -> Prop) (db db' : DB) (r : AdmissionReceipt) : Prop :=
  exists db1 db2, elsewhere db db1 /\ B r db1 db2 /\ elsewhere db2 db' /\ rtc row_step (row db) (row db') /\
    exists d data, row db' = Some d /\ validOperationDocument s d key = true /\ pdState d = stateCommitted /\ pdDigest d = SemanticDigest key /\ pdReceipt d = Some data /\
      savedReceipt key (Some data) = Ok r.

End Protocol.

(** ** Operations *)

Section Operation.
Context {W : Type} `{!Mongo W, !MongoState W} {laws : MongoLaws W} (s : Store) (key : AdmissionOperationKey).
#[local] Set Default Proof Using "Type laws".
Local Abbreviation Run := (Runs.Run (St W tevent)).
Local Abbreviation id := (operationID s key).
Local Abbreviation row := (row s key).
Local Abbreviation row_step := (row_step s key).
Local Abbreviation elsewhere := (elsewhere s key).
Local Abbreviation unapplied := (unapplied s key).

Lemma plain_findOperation db i (P : result (result operationDocument) -> DB -> Prop) :
  (forall d, docs operations db !! i = Some d -> P (Ok (Ok d)) db) -> (docs operations db !! i = None -> P (Ok (Err ErrNoDocuments)) db) ->
  (forall e, foreign e -> e <> ErrNoDocuments -> P (Ok (Err e)) db) -> P Panic db -> plain db (findOperation Plain i) P.
Proof.
  intros Hok Hnone Herr Hpanic. apply plain_attempt, (plain_FindOne db operations); [| |done..].
  - intros now d Hd. apply Hok. unfold matching in Hd. by destruct (docs operations db !! i); simplify_eq.
  - intros now Hn. apply Hnone. unfold matching in Hn. by destruct (docs operations db !! i).
Qed.

Lemma plain_uuid db (P : result (list byte) -> DB -> Prop) : (forall u, validText u = true -> P (Ok u) db) -> P Panic db -> plain db (call NewUUID) P.
Proof.
  intros HP Hpanic st Hd. apply wp_driver. intros r w E%NewUUID_law. destruct E as ([E1 _] & He & Hu). cbn [world trace]. rewrite E1, Hd.
  split; [done|]. destruct r as [u|e|]; [by apply HP, Hu|by destruct (He e)|done].
Qed.

(** What a claim reports. *)
Definition claims (db db' : DB) (r : result (operationDocument * bool * option error)) : Prop :=
  match r with
  | Ok (d, true, err) => err = None /\ row db' = Some d /\ validOperationDocument s d key = true /\ pd_ID d = id /\ pdState d = statePending /\
      pdDigest d = SemanticDigest key /\ row_step (row db) (row db') /\ elsewhere db db'
  | Ok (d, false, None) => db' = db /\ row db = Some d
  | Ok (d, false, Some e) => rejectionOf e = None /\ elsewhere db db' /\
      (db' = db \/ (row_step (row db) (row db') /\ exists d, row db' = Some d /\ pdState d = statePending))
  | Panic => db' = db
  | Err _ => False
  end.

Lemma foreign_rejection e : foreign e -> rejectionOf e = None.
Proof using Type. by destruct e. Qed.

Lemma nextToken_error token e : nextToken token = Err e -> e = ErrInvalidStorageUint64 \/ e = ErrConflict.
Proof using Type.
  unfold nextToken. destruct (DecodeUint64 token) as [v|e'|] eqn:Ed; [|intros [= <-]|done].
  - cbn [mbind result_bind]. destruct (ParseStorageUint64 v); [|intros [= <-]; by right..]. case_match; [intros [= <-]; by right|]. intros ?%EncodeUint64_Err. by left.
  - revert Ed. unfold DecodeUint64. repeat case_match; try done; intros [= <-]; by left.
Qed.

Hypothesis Hkey : is_ok (validateOperation s key) = true.

Lemma key_valid : validateOperation s key = Ok tt.
Proof using Hkey. revert Hkey. by destruct (validateOperation s key) as [[]|e|]. Qed.

Lemma key_text : validText (OperationID key) = true /\ validHash (SemanticDigest key) = true.
Proof using Hkey.
  revert Hkey. unfold validateOperation. destruct (validText (OperationID key)); [|by rewrite orb_true_r].
  destruct (validHash (SemanticDigest key)); [done|by rewrite orb_true_r].
Qed.

Lemma fresh_valid state token d : fresh s key state token d -> is_ok (DecodeUint64 token) = true -> validOperationDocument s d key = true.
Proof using Hkey.
  intros (E1 & E2 & E3 & E4 & E5 & _ & _ & E6 & _ & Ht) Htok. unfold validOperationDocument. rewrite E1, E2, E3, E4, E5, E6, !bool_decide_true, Htok, Ht by done.
  destruct key_text as [_ ->]. done.
Qed.

Lemma nextToken_valid old token : nextToken old = Ok token -> is_ok (DecodeUint64 token) = true.
Proof using Type.
  unfold nextToken. destruct (DecodeUint64 old) as [v|e|]; [|done..]. cbn [mbind result_bind]. destruct (ParseStorageUint64 v) as [n|e|]; [|done..]. case_match; [done|].
  intros (m & Hm & _ & ->)%EncodeUint64_Ok. replace (DecodeUint64 (fixed20 m)) with (Ok (FormatUint m)); [done|]. symmetry. apply DecodeUint64_Ok. by exists m.
Qed.

Lemma claimRow_plain db existing token :
  row db = existing ->
  match existing with
  | Some old => pdState old = stateAborted /\ pdDigest old = SemanticDigest key /\ nextToken (Token old) = Ok token
  | None => token = firstToken
  end ->
  plain db (claimRow s Plain key existing token) (fun r db' => claims db db' r).
Proof using laws Hkey.
  intros Hrow Hold. unfold claimRow.
  apply plain_bind, plain_uuid; [intros attemptID Htext|done].
  apply plain_bind, plain_same; [intros *; apply NewObjectID_law|intros guard|done]. cbv zeta.
  set (operation := mkOperationDocument _ _ _ _ _ _ _ _ _ _ _ _ _ _).
  assert (Hf : forall now, fresh s key statePending token (replaceWithServerDates operation (LeaseDuration (config s)) now)) by (intros now; by split_and!).
  assert (Hvalid : forall now, validOperationDocument s (replaceWithServerDates operation (LeaseDuration (config s)) now) key = true).
  { intros now. eapply fresh_valid; [apply Hf|]. destruct existing; [destruct Hold as (_ & _ & ?); by eapply nextToken_valid|by subst token]. }
  assert (Hstep : forall now, row_step (row db) (Some (replaceWithServerDates operation (LeaseDuration (config s)) now))).
  { intros now. rewrite Hrow. destruct existing as [old|]; [destruct Hold as (? & ? & ?); by eapply row_reclaimed|subst token; by apply row_claimed]. }
  assert (Hclaims : forall now db' d, findAndUpdateEffect operations id (fun _ d => match existing with
      | Some old => bool_decide (pdState d = stateAborted) && bool_decide (Attempt d = Attempt old) && bool_decide (Token d = Token old) &&
                    bool_decide (pdDigest d = SemanticDigest key)
      | None => false end) (fun now _ => replaceWithServerDates operation (LeaseDuration (config s)) now)
      (match existing with Some _ => false | None => true end) db now = Some (d, db') ->
      db' = store operations id d db /\ d = replaceWithServerDates operation (LeaseDuration (config s)) now).
  { intros now db' d. unfold findAndUpdateEffect. destruct (matching _ now (docs operations db !! id)); [by intros [= <- <-]|].
    destruct (docs operations db !! id); [done|]. destruct existing; [done|]. by intros [= <- <-]. }
  assert (Hagain : plain db (again ← findOperation Plain id; let '(found, err) := decodedOr (default noOperation existing) again in mret (found, false, err))
      (fun r db' => claims db db' r)).
  { apply plain_bind, plain_findOperation; [intros d Hd|intros Hn|intros e He Hne|done]; apply plain_ret; [by split|..].
    - split_and!; [done|apply elsewhere_refl|by left].
    - split_and!; [by apply foreign_rejection|apply elsewhere_refl|by left]. }
  apply plain_bind, plain_attempt. eapply (plain_writing db _ (findAndUpdateEffect operations id _ _ _)); [intros *; apply FindOneAndUpdate_law|..|done].
  - intros now d db' Hd. apply Hclaims in Hd as [-> ->]. apply plain_ret. split_and!; [done|apply row_store|apply Hvalid|done..|by rewrite row_store|apply elsewhere_store].
  - intros e He. destruct e; try done; try exact Hagain; apply plain_ret; (split_and!; [done|apply elsewhere_refl|by left]).
  - intros e now d db' He Hn1 Hn2 Hd. apply Hclaims in Hd as [-> ->].
    destruct e; try done; apply plain_ret; (split_and!; [done|apply elsewhere_store|right; rewrite row_store; split; [done|by eexists]]).
Qed.

Lemma claimOperation_plain db : plain db (claimOperation s Plain key) (fun r db' => claims db db' r).
Proof using laws Hkey.
  unfold claimOperation. apply plain_bind, plain_findOperation; [intros old Hold|intros Hnone|intros e He Hne|done].
  - destruct (validOperationDocument s old key) eqn:Ev; cbn [negb]; [|by apply plain_ret; split_and!; [|apply elsewhere_refl|left]].
    destruct (decide (pdDigest old = SemanticDigest key)) as [Ed|Hne]; [rewrite (bool_decide_true _ Ed)|rewrite (bool_decide_false _ Hne); by apply plain_ret].
    destruct (decide (pdState old = stateAborted)) as [Es|Hne]; [rewrite (bool_decide_true _ Es)|rewrite (bool_decide_false _ Hne); by apply plain_ret]. cbn [negb orb].
    destruct (nextToken (Token old)) as [token|e|] eqn:Et; [by apply claimRow_plain| |by apply plain_lift].
    apply plain_ret. split_and!; [by apply nextToken_error in Et as [->| ->]|apply elsewhere_refl|by left].
  - by apply claimRow_plain.
  - destruct e; try done; (apply plain_ret; split_and!; [done|apply elsewhere_refl|by left]).
Qed.

(** *** Bodies *)

Context (body : Context -> Run AdmissionReceipt) (B : AdmissionReceipt -> DB -> DB -> Prop).
(** In a transaction on [db], the body leaves what [B] says, and not in the rows of operations. *)
Hypothesis body_tx : forall db, tx db (body InSession) (fun r db' => forall receipt, r = Ok receipt -> B receipt db db').
Hypothesis body_rows : forall r db db', B r db db' -> docs operations db' = docs operations db.

(** The state [db'] of a transaction that has run the body from the claimed row [op] in [db]. *)
Definition completed (op : operationDocument) (db : DB) (r : AdmissionReceipt) (db' : DB) : Prop :=
  exists guard guard' now data db1 db2, db1 = store operations id (setRowGuard guard op) db /\ B r db1 db2 /\ encodeReceipt key r = Ok data /\
    db' = store operations id (setState stateCommitted (Some data) guard' now (setRowGuard guard op)) db2.

Lemma tx_guard db c i cond (u : Time -> document c -> document c) (k : Z -> Run AdmissionReceipt) P :
  (forall n, inside (k n)) -> (forall e db', P (Err e) db') -> (forall db', P Panic db') ->
  (forall now d, docs c db !! i = Some d -> cond now d = true -> tx (store c i (u now d) db) (k 1) P) -> (tx db (k 0) P) ->
  tx db (call (UpdateOne InSession c i cond u) ≫= k) P.
Proof using laws.
  intros Hk He Hp Hone Hzero. apply tx_bind; [done|]. apply tx_UpdateOne; [intros db'; split; [apply Hp|intros; apply He]|intros; by apply Hone|intros _ _; exact Hzero|intros db'; apply He].
Qed.

Lemma applyOperationBody_tx op db :
  row db = Some op -> pd_ID op = id ->
  tx db (applyOperationBody InSession op key body) (fun r db' => forall receipt, r = Ok receipt -> completed op db receipt db').
Proof using laws body_tx body_rows.
  intros Hrow Hid. assert (Hb : inside (body InSession)) by (destruct (body_tx db) as [Hb _]; exact Hb).
  unfold applyOperationBody. rewrite Hid. apply tx_bind; [intros; repeat first [exact Hb | inside_step]|]. apply tx_same; [intros *; apply NewObjectID_law|intros guard|done].
  apply (tx_guard db operations); [intros; repeat first [exact Hb | inside_step]|done|done| |by apply tx_lift]. intros now d Hd _.
  unfold row in Hrow. cbn [document] in *. rewrite Hrow in Hd. injection Hd as <-. change (negb (1 =? 1)) with false. cbv iota.
  apply tx_bind; [intros; repeat inside_step|]. eapply tx_mono; [apply body_tx|]. intros [r|e|] db2 HB; [|done..]. specialize (HB r eq_refl).
  apply tx_bind; [intros; repeat inside_step|]. apply tx_lift. destruct (encodeReceipt key r) as [data|e|] eqn:Ee; [|done..].
  apply tx_bind; [intros; repeat inside_step|]. apply tx_same; [intros *; apply NewObjectID_law|intros guard'|done].
  apply (tx_guard db2 operations); [intros; repeat inside_step|done|done| |by apply tx_lift]. intros now' d Hd _. change (negb (1 =? 1)) with false. cbv iota.
  rewrite (body_rows _ _ _ HB) in Hd. unfold store in Hd. rewrite docs_put, lookup_insert_eq in Hd. injection Hd as <-.
  apply tx_ret. intros receipt' [= <-]. rewrite receipt_newReceiptDocument. by eexists guard, guard', now', data, _, db2.
Qed.

(** What an operation that was claimed leaves, and what it reports. *)
Definition finishes (db db' : DB) (r : result outcome) : Prop :=
  match r with
  | Ok (res, err) =>
      match State res with
      | AdmissionCommitStateCommitted => err = None /\ exists rc, res = committed rc /\ applied s key B db db' rc
      | AdmissionCommitStatePending => unapplied db db' \/ (exists rc, applied s key B db db' rc) /\ exists e, err = Some e /\ unresolved e
      | AdmissionCommitStateOther => unapplied db db' /\ err <> None
      | _ => False
      end
  | Panic => unapplied db db' \/ exists rc, applied s key B db db' rc
  | Err _ => False
  end.

(** The row is fenced, or nothing is changed. *)
Definition fenced (op : operationDocument) (db db' : DB) : Prop :=
  db' = db \/ exists guard now, db' = store operations id (setState stateAborted None guard now op) db.

Lemma fenceRow_plain op cond db (P : result (result Z) -> DB -> Prop) :
  row db = Some op -> pd_ID op = id -> pdState op = statePending ->
  (forall guard now, P (Ok (Ok 1)) (store operations id (setState stateAborted None guard now op) db)) -> ((exists now, cond now op = false) -> P (Ok (Ok 0)) db) ->
  (forall e db', fenced op db db' -> foreign e -> P (Ok (Err e)) db') -> P Panic db -> plain db (fenceRow Plain op cond) P.
Proof using laws.
  intros Hrow Hid Hs Hone Hzero Herr Hpanic. unfold fenceRow. apply plain_bind, plain_same; [intros *; apply NewObjectID_law|intros guard|done]. rewrite Hid.
  assert (Hp : operationPredicate op op = true) by (unfold operationPredicate; rewrite Hs, !bool_decide_true by done; done).
  assert (Heff : forall now n db', updateEffect operations id (fun now d => operationPredicate op d && cond now d) (setState stateAborted None guard) db now = Some (n, db') ->
    (n = 1 /\ db' = store operations id (setState stateAborted None guard now op) db) \/ (n = 0 /\ db' = db /\ cond now op = false)).
  { intros now n db'. unfold updateEffect, matching. unfold row in Hrow. cbn [document] in *. rewrite Hrow, Hp. cbn [andb]. destruct (cond now op) eqn:Ec; intros [= <- <-]; [by left|by right]. }
  apply plain_attempt. eapply (plain_writing db _ (updateEffect operations id _ _)); [intros *; apply UpdateOne_law|..|done].
  - intros now n db' [(-> & Hf)|(-> & -> & Hc)]%Heff; [subst db'; apply Hone|apply Hzero; by exists now].
  - intros e He. apply Herr; [by left|done].
  - intros e now n db' He _ _ [(-> & Hf)|(-> & -> & _)]%Heff; [apply Herr; [right; by exists guard, now|done]|apply Herr; [by left|done]].
Qed.

Lemma fenceAborted_plain op err db :
  row db = Some op -> pd_ID op = id -> pdState op = statePending ->
  plain db (fenceAbortedOperation s Plain key op err) (fun r db' => fenced op db db' /\
    match r with
    | Ok (res, err') => (res = noResult /\ err' = err) \/ (res = pendingOperation (Attempt op) /\ err' <> None)
    | Panic => True | Err _ => False
    end).
Proof using laws.
  intros Hrow Hid Hs. unfold fenceAbortedOperation. cbv zeta. apply plain_bind, fenceRow_plain; try done.
  - intros guard now. apply plain_ret. split; [right; by exists guard, now|by left].
  - intros [now ?]. done.
  - intros e db' Hf _. apply plain_ret. split; [done|]. right. split; [done|]. by destruct err.
  - split; [by left|done].
Qed.

Lemma fenced_unapplied op db0 db db' :
  elsewhere db0 db -> row_step (row db0) (row db) -> row db = Some op -> pdState op = statePending -> fenced op db db' -> unapplied db0 db'.
Proof using Type.
  intros He Hst Hrow Hs [-> |(guard & now & ->)].
  - split_and!; [done|by apply rtc_once|]. intros d Hd Hc. rewrite Hrow in Hd. injection Hd as <-. by rewrite Hs in Hc.
  - assert (Hr : row (store operations id (setState stateAborted None guard now op) db) = Some (setState stateAborted None guard now op)) by apply row_store.
    split_and!; [eapply elsewhere_trans; [exact He|apply elsewhere_store]| |].
    + rewrite Hr. eapply rtc_l; [exact Hst|]. rewrite Hrow. apply rtc_once. by apply row_fenced.
    + intros d Hd Hc. rewrite Hr in Hd. by injection Hd as <-.
Qed.

Lemma completed_applied op db0 db db' r :
  elsewhere db0 db -> row_step (row db0) (row db) -> row db = Some op -> validOperationDocument s op key = true -> pdState op = statePending ->
  pdDigest op = SemanticDigest key -> completed op db r db' -> applied s key B db0 db' r.
Proof using body_rows Hkey.
  intros He Hst Hrow Hv Hs Hdig (guard & guard' & now & data & db1 & db2 & -> & HB & Eenc & ->).
  assert (Hsaved : savedReceipt key (Some data) = Ok r) by (destruct key_text; by apply savedReceipt_encoded).
  exists (store operations id (setRowGuard guard op) db), db2. split_and!; [eapply elsewhere_trans; [exact He|apply elsewhere_store]|done|apply elsewhere_store| |].
  - rewrite row_store. eapply rtc_l; [exact Hst|]. rewrite Hrow. apply rtc_once. by eapply row_committed.
  - eexists _, data. rewrite row_store. by split_and!.
Qed.

Lemma commitOperationBody_wp op db0 (st : St W tevent) :
  let db := durable (world st) in
  elsewhere db0 db -> row_step (row db0) (row db) -> row db = Some op -> validOperationDocument s op key = true -> pd_ID op = id -> pdState op = statePending -> pdDigest op = SemanticDigest key ->
  wp true (commitOperationBody s Plain key op body) st (fun r st' => finishes db0 (durable (world st')) r).
Proof using All.
  intros db He Hst Hrow Hv Hid Hs Hdig. unfold commitOperationBody. apply wp_bind.
  assert (Hperhaps : forall d, perhaps db (completed op db) d -> unapplied db0 d \/ exists rc, applied s key B db0 d rc).
  { intros d [->|[rc Hc]]; [left; by eapply fenced_unapplied; [..|left]|right; exists rc; by eapply completed_applied]. }
  eapply wp_mono; [apply (runTransaction_atomic s (fun ctx => applyOperationBody ctx op key body) db (completed op db)); [|done]|].
  - intros st1 Hd Hses. destruct (applyOperationBody_tx op db Hrow Hid) as [Hin Htx].
    eapply wp_mono; [eapply wp_and; [apply Hin|apply (wp_partial true), Htx; exact Hses]|]. intros r st2 [(Hdur & _) HP]. split; [by rewrite Hdur|]. intros rc db' Er Hdb'. by eapply HP.
  - intros r st1 Hset. destruct r as [[o r]|e|]; [|done|by apply Hperhaps]. destruct o; cbn [settled] in Hset.
    + destruct r as [rc|e|]; [done| |done]. subst. cbn [errorOf].
      eapply wp_mono; [by apply fenceAborted_plain|]. intros r' st2 [_ [Hf Hr]].
      assert (Hu : unapplied db0 (durable (world st2))) by (eapply fenced_unapplied; eassumption).
      destruct r' as [[res err]|e'|]; [|done|by left]. destruct Hr as [[-> ->]|[-> Hne]]; [by split|by left].
    + destruct r as [rc|e|]; [|done..]. apply wp_ret. split; [done|]. exists rc. split; [done|by eapply completed_applied].
    + destruct r as [rc|e|]; [done| |done]. destruct Hset as [Hu Hp]. apply wp_ret. cbn. destruct (Hperhaps _ Hp) as [?|?]; [by left|right]. split; [done|]. by exists e.
Qed.

(** The row of [db] is committed with the receipt [rc] for the digest of the key. *)
Definition saved (db : DB) (rc : AdmissionReceipt) : Prop :=
  exists d, row db = Some d /\ validOperationDocument s d key = true /\ pdState d = stateCommitted /\ pdDigest d = SemanticDigest key /\
    savedReceipt key (pdReceipt d) = Ok rc.

(** What [operationResult] reports of the row of [db]. *)
Definition reports (db : DB) (r : outcome) : Prop :=
  match r with
  | (res, Some _) => res = noResult
  | (res, None) =>
      match State res with
      | AdmissionCommitStateCommitted => exists rc, res = committed rc /\ saved db rc
      | AdmissionCommitStateRejected => res = rejected AdmissionRejectionDigestMismatch /\ exists d, row db = Some d /\ pdDigest d <> SemanticDigest key
      | AdmissionCommitStateAborted => exists d, row db = Some d /\ pdState d = stateAborted /\ pdDigest d = SemanticDigest key
      | AdmissionCommitStatePending => exists d, row db = Some d /\ pdState d = statePending
      | AdmissionCommitStateOther => False
      end
  end.

Lemma operationResult_reports d db : row db = Some d -> reports db (operationResult s d key).
Proof using Type.
  intros Hrow. unfold operationResult. destruct (validOperationDocument s d key) eqn:Ev; cbn [negb]; [|done].
  case_bool_decide as Ed; cbn [negb]; [|split; [done|by exists d]].
  case_bool_decide as E1; [by exists d|]. case_bool_decide as E2; [by exists d|]. case_bool_decide as E3; [|done].
  destruct (savedReceipt key (pdReceipt d)) as [rc|e|] eqn:Er; [|done..]. exists rc. split; [done|]. by exists d.
Qed.

(** What [ExecuteOperation] leaves, and what it reports. *)
Definition executes (db db' : DB) (r : result outcome) : Prop :=
  match r with
  | Ok (res, err) =>
      match State res with
      | AdmissionCommitStateCommitted => err = None /\ exists rc, res = committed rc /\ (applied s key B db db' rc \/ db' = db /\ saved db rc)
      | AdmissionCommitStatePending => unapplied db db' \/ (exists rc, applied s key B db db' rc) /\ exists e, err = Some e /\ unresolved e
      | AdmissionCommitStateRejected => db' = db /\ res = rejected AdmissionRejectionDigestMismatch /\ err = None /\
          exists d, row db = Some d /\ pdDigest d <> SemanticDigest key
      | AdmissionCommitStateAborted => False
      | AdmissionCommitStateOther => unapplied db db' /\ err <> None
      end
  | Panic => unapplied db db' \/ exists rc, applied s key B db db' rc
  | Err _ => False
  end.

Lemma unclaimed_executes d db : row db = Some d -> executes db db (Ok (unclaimedOperationResult s d key)).
Proof using Type.
  intros Hrow. unfold unclaimedOperationResult. destruct (bool_decide (pdState d = stateAborted) && bool_decide (pdDigest d = SemanticDigest key)) eqn:E.
  { split; [apply unapplied_refl|done]. }
  pose proof (operationResult_reports d db Hrow) as Hr. destruct (operationResult s d key) as [res [e|]]; cbn in Hr |- *.
  { subst res. split; [apply unapplied_refl|done]. }
  destruct (State res) eqn:Es.
  - destruct Hr as (rc & -> & Hrc). split; [done|]. exists rc. split; [done|by right].
  - left. apply unapplied_refl.
  - by destruct Hr as [-> Hr].
  - destruct Hr as (d' & Hrow' & Hs & Hd). rewrite Hrow in Hrow'. injection Hrow' as <-. by rewrite !bool_decide_true in E.
  - done.
Qed.

Lemma step_unapplied db db' : elsewhere db db' -> db' = db \/ (row_step (row db) (row db') /\ exists d, row db' = Some d /\ pdState d = statePending) -> unapplied db db'.
Proof using Type.
  intros He [->|(Hst & d & Hrow & Hs)]; [apply unapplied_refl|]. split_and!; [done|by apply rtc_once|]. intros d' Hd' Hc. rewrite Hrow in Hd'. injection Hd' as <-. by rewrite Hs in Hc.
Qed.

(** The body may have been run only if the row was claimed. *)
Lemma ExecuteOperation_wp (st : St W tevent) :
  let db := durable (world st) in
  wp true (ExecuteOperation s Plain key (Some body)) st (fun r st' => executes db (durable (world st')) r /\
    (trace st' = trace st \/ exists d, row_step (row db) (Some d) /\ pdState d = statePending)).
Proof using All.
  intros db. unfold ExecuteOperation. rewrite key_valid.
  apply wp_bind. eapply wp_mono; [by apply claimOperation_plain|]. intros r st1 [Ht Hr]. fold db in Hr.
  destruct r as [[[d []] err]|e|]; [| |done|by split; [left; rewrite Hr; apply unapplied_refl|left]].
  - destruct Hr as (-> & Hrow & Hv & Hid & Hs & Hdig & Hst & He). cbn [negb].
    eapply wp_mono; [by apply (commitOperationBody_wp d db)|]. intros r st2 Hf. split; [|right; exists d; by rewrite <- Hrow].
    destruct r as [[res err]|e|]; [|done..]. cbn in Hf |- *. destruct (State res); try done.
    destruct Hf as (-> & rc & Hrc & Ha). split; [done|]. exists rc. split; [done|by left].
  - destruct err as [e|].
    + destruct Hr as (_ & He & Hr). pose proof (step_unapplied _ _ He Hr) as Hu.
      case_bool_decide; apply wp_ret; (split; [|by left]); cbn; [by split|by left].
    + destruct Hr as [E Hrow]. cbn [negb]. apply wp_ret. split; [|by left]. rewrite E. by apply unclaimed_executes.
Qed.

(** *** Retries *)

(** The body is not run again when the receipt is saved. *)
Lemma ExecuteOperation_saved rc (st : St W tevent) :
  saved (durable (world st)) rc ->
  wp true (ExecuteOperation s Plain key (Some body)) st (fun r st' => trace st' = trace st /\ durable (world st') = durable (world st) /\
    match r with
    | Ok (res, None) => res = committed rc
    | Ok (res, Some e) => res = noResult /\ foreign e
    | Panic => True | Err _ => False
    end).
Proof using laws Hkey.
  intros (d & Hrow & Hv & Hs & Hdig & Hrc). unfold ExecuteOperation. rewrite key_valid.
  revert st Hrow. enough (Hp : forall db, row db = Some d -> plain db ('(operation, claimed, err) ← claimOperation s Plain key;
    match err with
    | Some e => if bool_decide (Attempt operation = []) then mret (noResult, Some e) else mret (pendingOperation (Attempt operation), Some e)
    | None => if negb claimed then mret (unclaimedOperationResult s operation key) else commitOperationBody s Plain key operation body
    end) (fun r db' => db' = db /\ match r with Ok (res, None) => res = committed rc | Ok (res, Some e) => res = noResult /\ foreign e | Panic => True | Err _ => False end)).
  { intros st Hrow. eapply wp_mono; [by apply (Hp (durable (world st)))|]. intros r st' (? & ? & ?). by split_and!. }
  intros db Hrow. unfold claimOperation. apply plain_bind, plain_bind, plain_findOperation.
  - intros d' Hd'. unfold MongoCommit.row in Hrow. cbn [document] in *. rewrite Hrow in Hd'. injection Hd' as <-. rewrite Hv. cbn [negb].
    rewrite (bool_decide_true _ Hdig), Hs. cbn [negb orb]. rewrite bool_decide_false by done. cbn [negb].
    apply plain_ret, plain_ret. split; [done|]. unfold unclaimedOperationResult. rewrite Hs, bool_decide_false by done. cbn [andb].
    unfold operationResult. rewrite Hv, Hs. cbn [negb]. rewrite (bool_decide_true _ Hdig). cbn [negb]. rewrite !bool_decide_false, bool_decide_true by done.
    by rewrite Hrc.
  - intros Hn. unfold MongoCommit.row in Hrow. cbn [document] in *. congruence.
  - intros e He Hne. destruct e; try done; apply plain_ret; rewrite bool_decide_true by done; by apply plain_ret.
  - done.
Qed.

Lemma applied_saved db db' rc : applied s key B db db' rc -> saved db' rc.
Proof using Type. intros (db1 & db2 & _ & _ & _ & _ & d & data & Hrow & Hv & Hs & Hdig & Hd & Hrc). exists d. split_and!; try done. by rewrite Hd. Qed.

(** *** Reconciliation *)

(** What [ReconcileOperation] leaves, and what it reports. *)
Definition reconciles (attemptID : option (list byte)) (db db' : DB) (r : result outcome) : Prop :=
  unapplied db db' /\
  match r with
  | Ok (res, err) =>
      match State res with
      | AdmissionCommitStateCommitted => err = None /\ db' = db /\ exists rc, res = committed rc /\ saved db' rc
      | AdmissionCommitStateAborted => err = None /\ exists d, row db' = Some d /\ pdState d = stateAborted /\ pdDigest d = SemanticDigest key /\
          otherAttempt attemptID d = false
      | AdmissionCommitStateRejected => err = None /\ exists d, row db' = Some d /\ pdDigest d <> SemanticDigest key
      | AdmissionCommitStatePending => True
      | AdmissionCommitStateOther => err <> None
      end
  | Panic => True
  | Err _ => False
  end.

Lemma reports_reconciles attemptID d db0 db :
  unapplied db0 db -> row db = Some d -> otherAttempt attemptID d = false \/ pdDigest d <> SemanticDigest key ->
  reconciles attemptID db0 db (Ok (operationResult s d key)).
Proof using Type.
  intros Hu Hrow Ho. split; [done|]. pose proof (operationResult_reports d db Hrow) as Hr. destruct (operationResult s d key) as [res [e|]]; cbn in Hr |- *; [by subst res|].
  assert (Hsame : forall d', row db = Some d' -> d' = d) by (intros d' E; congruence).
  destruct (State res) eqn:Es; [|done| | |done].
  - destruct Hr as (rc & -> & Hrc). split; [done|]. split; [|exists rc; by split]. destruct Hrc as (d' & Hrow' & _ & Hc & _). destruct Hu as (_ & _ & Hu). exact (Hu _ Hrow' Hc).
  - destruct Hr as [-> Hr]. done.
  - destruct Hr as (d' & Hrow' & Hs & Hd). split; [done|]. exists d'. split_and!; try done. rewrite (Hsame _ Hrow') in Hd |- *. destruct Ho as [?|Hne]; [done|by destruct (Hne Hd)].
Qed.

Lemma reconciles_error attemptID db db' res e :
  State res = AdmissionCommitStatePending \/ State res = AdmissionCommitStateOther -> unapplied db db' -> reconciles attemptID db db' (Ok (res, Some e)).
Proof using Type. intros Hres Hu. split; [done|]. by destruct Hres as [-> | ->]. Qed.

Lemma fenceExpired_plain attemptID db d :
  row db = Some d -> pd_ID d = id -> pdState d = statePending -> pdDigest d = SemanticDigest key -> otherAttempt attemptID d = false ->
  plain db (fenceExpiredPendingOperation s Plain key attemptID d) (fun r db' => reconciles attemptID db db' r).
Proof using laws.
  intros Hrow Hid Hs Hdig Ho. assert (Hf : forall db', fenced d db db' -> unapplied db db').
  { intros db' [-> |(guard & now & ->)]; [apply unapplied_refl|]. split_and!; [apply elsewhere_store| |].
    - rewrite row_store, Hrow. apply rtc_once. by apply row_fenced.
    - intros d' Hd' Hc. rewrite row_store in Hd'. by injection Hd' as <-. }
  unfold fenceExpiredPendingOperation. apply plain_bind, fenceRow_plain; try done.
  - intros guard now. apply plain_ret. split; [apply Hf; right; by exists guard, now|]. split; [done|].
    exists (setState stateAborted None guard now d). by rewrite row_store.
  - intros _. change (0 =? 1) with false. cbv iota. rewrite Hid. apply plain_bind, plain_findOperation.
    + intros d' Hd'. assert (d' = d) as -> by (unfold MongoCommit.row in Hrow; cbn [document] in *; congruence). rewrite Ho.
      apply plain_ret, reports_reconciles; [apply unapplied_refl|done|by left].
    + intros _. apply plain_ret, reconciles_error; [by left|apply unapplied_refl].
    + intros e _ _. apply plain_ret, reconciles_error; [by left|apply unapplied_refl].
    + split; [apply unapplied_refl|done].
  - intros e db' Hfe _. apply plain_ret, reconciles_error; [by left|by apply Hf].
Qed.

Lemma loaded_plain attemptID db0 db d :
  unapplied db0 db -> row db = Some d -> (db = db0 \/ pdState d = stateAborted) ->
  plain db (reconcileLoadedOperation s Plain key attemptID d) (fun r db' => reconciles attemptID db0 db' r).
Proof using laws.
  intros Hu Hrow Hdb. unfold reconcileLoadedOperation. destruct (validOperationDocument s d key) eqn:Ev; cbn [negb]; [|by apply plain_ret, reconciles_error; [right|]].
  case_bool_decide as Ed; cbn [negb]; [|by apply plain_ret, reports_reconciles; [..|right]].
  destruct (otherAttempt attemptID d) eqn:Eo; [by apply plain_ret, reconciles_error; [right|]|].
  case_bool_decide as Es; cbn [negb]; [|by apply plain_ret, reports_reconciles; [..|left]].
  destruct Hdb as [->|Ha]; [|by rewrite Es in Ha]. apply fenceExpired_plain; try done.
  revert Ev. unfold validOperationDocument. rewrite !andb_true_iff, !bool_decide_eq_true. tauto.
Qed.

Lemma tombstone_plain a db (P : result (operationDocument * option error) -> DB -> Prop) :
  row db = None -> validText a = true ->
  (forall d, fresh s key stateAborted firstToken d -> Attempt d = a -> P (Ok (d, None)) (store operations id d db)) ->
  (forall e db', unapplied db db' -> P (Ok (noOperation, Some e)) db') -> P Panic db -> plain db (insertOperationTombstone s Plain key a) P.
Proof using laws.
  intros Hrow Ha Hok Herr Hpanic. unfold insertOperationTombstone. apply plain_bind, plain_same; [intros *; apply NewObjectID_law|intros guard|done]. cbv zeta.
  set (tombstone := mkOperationDocument _ _ _ _ _ _ _ _ _ _ _ _ _ _).
  assert (Hf : forall now, fresh s key stateAborted firstToken (replaceWithServerDates tombstone (LeaseDuration (config s)) now)) by (intros now; by split_and!).
  assert (Heff : forall now db' d, findAndUpdateEffect operations id (fun _ _ => false) (fun now _ => replaceWithServerDates tombstone (LeaseDuration (config s)) now) true db now = Some (d, db') ->
      db' = store operations id d db /\ d = replaceWithServerDates tombstone (LeaseDuration (config s)) now).
  { intros now db' d. unfold findAndUpdateEffect. unfold MongoCommit.row in Hrow. cbn [document] in *. rewrite Hrow. by intros [= <- <-]. }
  apply plain_bind, plain_attempt. eapply (plain_writing db _ (findAndUpdateEffect operations id _ _ _)); [intros *; apply FindOneAndUpdate_law|..|done].
  - intros now d db' Hd. apply Heff in Hd as [-> ->]. by apply plain_ret, Hok.
  - intros e He. destruct e; try done; try (by apply plain_ret, Herr, unapplied_refl).
    apply plain_bind, plain_findOperation; [|intros _|intros e _ _|done]; try (by apply plain_ret, Herr, unapplied_refl).
    intros d Hd. unfold MongoCommit.row in Hrow. cbn [document] in *. congruence.
  - intros e now d db' He Hn1 Hn2 Hd. apply Heff in Hd as [-> ->].
    assert (Hu : unapplied db (store operations id (replaceWithServerDates tombstone (LeaseDuration (config s)) now) db)).
    { split_and!; [apply elsewhere_store|rewrite row_store, Hrow; apply rtc_once; by apply row_tombstone|]. intros d' Hd' Hc. rewrite row_store in Hd'. by injection Hd' as <-. }
    destruct e; try done; by apply plain_ret, Herr.
Qed.

(** The row was not there, or is as it was. *)
Lemma ReconcileOperation_plain attemptID db : plain db (ReconcileOperation s Plain key attemptID) (fun r db' => reconciles attemptID db db' r).
Proof using laws Hkey.
  unfold ReconcileOperation. rewrite key_valid.
  destruct (match attemptID with Some a => negb (validText a) | None => false end) eqn:Ea; [apply plain_ret, reconciles_error; [by right|apply unapplied_refl]|].
  apply plain_bind. unfold loadOrTombstoneOperation. apply plain_bind, plain_findOperation.
  - intros d Hd. destruct attemptID; apply plain_ret; cbn [decodedOr]; (apply loaded_plain; [apply unapplied_refl|exact Hd|by left]).
  - intros Hn. destruct attemptID as [a|]; [|apply plain_ret, plain_ret, reconciles_error; [by right|apply unapplied_refl]].
    apply negb_false_iff in Ea. apply tombstone_plain; [done..| | |].
    + intros d Hd _. cbv iota beta. apply loaded_plain; [|apply row_store|right; apply Hd].
      split_and!; [apply elsewhere_store|rewrite row_store; unfold MongoCommit.row; cbn [document] in *; rewrite Hn; apply rtc_once; by apply row_tombstone|].
      intros d' Hd' Hc. rewrite row_store in Hd'. injection Hd' as <-. destruct Hd as (_ & _ & _ & _ & _ & Hs & _). by rewrite Hs in Hc.
    + intros e db' Hu. apply plain_ret, reconciles_error; [by left|done].
    + split; [apply unapplied_refl|done].
  - intros e He Hne. destruct e; try done; destruct attemptID; apply plain_ret, plain_ret, reconciles_error; try apply unapplied_refl; by (left + right).
  - split; [apply unapplied_refl|done].
Qed.

End Operation.
End MongoCommit.
