(* ===== verification/MongoAtomic.v ===== *)
(** * What the storage promises of an admission

    The theorems on [CommitAdmission] and [ReconcileAdmission]: an admission happens once,
    as a whole and under all of its predicates, or not at all, and a row follows its
    protocol. *)

From S2P Require Import Prelude Bytes Utf8 Decimal Runs Traced Admission EngineTypes AdmissionPlan.
From S2P Require Import MongoEncoding MongoReceipt MongoDriver MongoModel MongoTransaction MongoRules MongoPlan MongoPayload MongoAdmission MongoEffects MongoOperation MongoCommit.
Import Admission AdmissionPlan MongoEncoding MongoReceipt MongoTransaction MongoPlan MongoPayload MongoAdmission MongoEffects MongoOperation MongoCommit.
Open Scope Z_scope.

Module MongoAtomic.

Section Admissions.
Context {W : Type} `{!Mongo W, !MongoState W} {laws : MongoLaws W} (s : Store) (plan : AdmissionCommit).
Local Abbreviation Run := (Runs.Run (St W tevent)).
Local Abbreviation key := (comKey plan).

(** What the body of the admission does in its transaction. *)
Definition admission (rc : AdmissionReceipt) (db db' : DB) : Prop := rc = makeAdmissionReceipt plan /\ admits s plan db db'.

(** The admission has happened between two states of the database. *)
Definition admitted (db db' : DB) : Prop := applied s key admission db db' (makeAdmissionReceipt plan).

Lemma admission_tx db : tx db (applyAdmission s InSession plan) (fun r db' => forall rc, r = Ok rc -> admission rc db db').
Proof using laws. apply applyAdmission_tx. Qed.

Lemma admission_rows rc db db' : admission rc db db' -> docs operations db' = docs operations db.
Proof using Type. intros [_ Ha]. apply (ad_frame _ _ _ _ Ha). by left. Qed.

Lemma applied_admission db db' rc : applied s key admission db db' rc -> rc = makeAdmissionReceipt plan /\ admitted db db'.
Proof using Type.
  intros Ha. assert (rc = makeAdmissionReceipt plan) as -> by (by destruct Ha as (? & ? & _ & [-> _] & _)). done.
Qed.

Lemma unresolved_rejection e : unresolved e -> rejectionOf e = None.
Proof using Type. intros [->|(e' & He & ->)]; [done|]. by destruct e'. Qed.

(** What [CommitAdmission] leaves, and what it reports. *)
Definition commits (db db' : DB) (r : result outcome) : Prop :=
  match r with
  | Ok (res, err) =>
      match State res with
      | AdmissionCommitStateCommitted =>
          err = None /\ exists rc, res = committed rc /\ (rc = makeAdmissionReceipt plan /\ admitted db db' \/ db' = db /\ saved s key db rc)
      | AdmissionCommitStateRejected => err = None /\ unapplied s key db db'
      | AdmissionCommitStatePending => unapplied s key db db' \/ admitted db db' /\ exists e, err = Some e /\ unresolved e
      | AdmissionCommitStateOther => err <> None /\ unapplied s key db db'
      | AdmissionCommitStateAborted => False
      end
  | Panic => unapplied s key db db' \/ admitted db db'
  | Err _ => False
  end.

Lemma CommitAdmission_wp (st : St W tevent) :
  wp true (CommitAdmission s Plain plan) st (fun r st' => commits (durable (world st)) (durable (world st')) r).
Proof using laws.
  unfold CommitAdmission. destruct (prevalidateAdmission s plan); try (apply wp_ret; split; [done|apply unapplied_refl]).
  apply wp_bind. destruct (validateOperation s key) as [[]|e|] eqn:Ev.
  - eapply wp_mono; [apply (ExecuteOperation_wp s key ltac:(by rewrite Ev) (fun ctx => applyAdmission s ctx plan) admission);
      [intros db; apply admission_tx|intros rc db db'; apply admission_rows]|].
    intros r st1 [Hr _]. destruct r as [[res err]|e|]; [|done|destruct Hr as [Hu|[rc Ha]]; [by left|right; by apply applied_admission in Ha as [_ ?]]].
    apply wp_ret. cbn [executes] in Hr. destruct err as [e|].
    + destruct (rejectionOf e) as [code|] eqn:Er; cbn.
      * split; [done|]. destruct (State res); [by destruct Hr| |by destruct Hr as (_ & _ & ? & _)|done|by destruct Hr].
        destruct Hr as [Hu|(_ & e' & [= <-] & Hun)]; [done|]. apply unresolved_rejection in Hun. congruence.
      * destruct (State res); [by destruct Hr| |by destruct Hr as (_ & _ & ? & _)|done|by destruct Hr].
        destruct Hr as [Hu|([rc Ha] & e' & [= <-] & Hun)]; [by left|right]. apply applied_admission in Ha as [_ Ha]. split; [done|by exists e].
    + cbn. destruct (State res); try done.
      * destruct Hr as (_ & rc & -> & [Ha|Hs]); (split; [done|]); exists rc; (split; [done|]); [left; by apply applied_admission|by right].
      * destruct Hr as [Hu|(_ & e' & ? & _)]; [by left|done].
      * destruct Hr as (-> & _). split; [done|]. apply unapplied_refl.
      * by destruct Hr.
  - unfold ExecuteOperation. rewrite Ev. apply wp_ret, wp_ret. split; [done|apply unapplied_refl].
  - unfold ExecuteOperation. rewrite Ev. apply wp_ret, wp_ret. split; [done|apply unapplied_refl].
Qed.

(** *** The body of an attempt that no longer holds the row *)

Lemma unclaimed_body op d db (body : Context -> Run AdmissionReceipt) :
  row s key db = Some d -> operationPredicate op d = false -> pd_ID op = operationID s key -> inside (body InSession) ->
  tx db (applyOperationBody InSession op key body) (fun r _ => forall rc, r <> Ok rc).
Proof using laws.
  intros Hrow Hp Hid Hb. unfold applyOperationBody. rewrite Hid. apply tx_bind; [intros; repeat first [exact Hb | inside_step]|].
  apply tx_same; [intros *; apply NewObjectID_law|intros guard|done].
  apply (tx_guard db operations); [intros; repeat first [exact Hb | inside_step]|done|done| |by apply tx_lift]. intros now d' Hd' Hc.
  unfold row in Hrow. cbn [document] in *. assert (d' = d) as -> by congruence. unfold claimed in Hc. by rewrite Hp in Hc.
Qed.

Lemma not_pending op d : pdState d <> statePending -> operationPredicate op d = false.
Proof using Type. intros Hne. unfold operationPredicate. rewrite (bool_decide_false (pdState d = statePending)) by done. by rewrite !andb_false_r. Qed.

(** *** Rows *)

Lemma bytes_leb_refl t : bytes_leb t t = true.
Proof using Type. by destruct (bytes_leb_total t t). Qed.

Lemma nextToken_order t t' : nextToken t = Ok t' -> bytes_leb t t' = true.
Proof using Type.
  intros Hn. destruct (DecodeUint64 t) as [v|e|] eqn:Ed; [|by unfold nextToken in Hn; rewrite Ed in Hn..].
  apply DecodeUint64_Ok in Ed as (n & Hu & _ & ->). rewrite nextToken_spec in Hn by done. destruct (Z.eqb_spec n MaxUint64); [done|]. injection Hn as <-.
  apply fixed20_order; unfold is_u64 in *; lia.
Qed.

(** What holds of a row for good. *)
Definition follows (a b : operationDocument) : Prop :=
  pdDigest b = pdDigest a /\ bytes_leb (Token a) (Token b) = true /\ (pdState a = stateCommitted -> b = a).

Lemma row_step_follows a x : row_step s key (Some a) x -> exists b, x = Some b /\ follows a b.
Proof using Type.
  intros Hst. inversion Hst as [| |old d token Hs Hdig Ht Hf|old d Hs Hc Hs'|old d data r Hs Hc Hs' Hr Hrc]; subst; exists d; (split; [done|]).
  - destruct Hf as (_ & _ & _ & _ & E & _ & _ & Et & _). split_and!; [congruence|rewrite Et; by apply nextToken_order|]. intros E'. by rewrite E' in Hs.
  - unfold claim in Hc. injection Hc as _ _ _ E1 _ _ E2. split_and!; [done|rewrite E2; apply bytes_leb_refl|]. intros E'. by rewrite E' in Hs.
  - unfold claim in Hc. injection Hc as _ _ _ E1 _ _ E2. split_and!; [done|rewrite E2; apply bytes_leb_refl|]. intros E'. by rewrite E' in Hs.
Qed.

Lemma rows_follow a x : rtc (row_step s key) (Some a) x -> exists b, x = Some b /\ follows a b.
Proof using Type.
  intros Hr. remember (Some a) as y eqn:Ey. revert a Ey. induction Hr as [y|y z x Hst _ IH]; intros a ->.
  { exists a. split; [done|]. split_and!; [done|apply bytes_leb_refl|done]. }
  apply row_step_follows in Hst as (b & -> & Hd1 & Ht1 & Hc1). destruct (IH b eq_refl) as (c & -> & Hd2 & Ht2 & Hc2). exists c. split; [done|].
  split_and!; [congruence|by eapply bytes_leb_trans|]. intros Hc. assert (b = a) as -> by auto. auto.
Qed.

Lemma commits_rows db db' r : commits db db' r -> rtc (row_step s key) (row s key db) (row s key db').
Proof using Type.
  assert (Hu : unapplied s key db db' -> rtc (row_step s key) (row s key db) (row s key db')) by (intros (_ & Hr & _); exact Hr).
  assert (Ha : admitted db db' -> rtc (row_step s key) (row s key db) (row s key db')) by (intros (? & ? & _ & _ & _ & Hr & _); exact Hr).
  unfold commits. destruct r as [[res err]|e|]; [|done|by intros [?|?]; auto]. destruct (State res); [|intros [?|[? _]]; auto|by intros [_ ?]; auto|done|by intros [_ ?]; auto].
  intros (_ & rc & _ & [[_ ?]|[-> _]]); [auto|apply rtc_refl].
Qed.

Lemma ReconcileAdmission_wp attemptID (st : St W tevent) :
  wp true (ReconcileAdmission s Plain key attemptID) st (fun r st' => trace st' = trace st /\
    reconciles s key attemptID (durable (world st)) (durable (world st')) r).
Proof using laws.
  destruct (validateOperation s key) as [[]|e|] eqn:Ev; [|unfold ReconcileAdmission, ReconcileOperation; rewrite Ev; apply wp_ret; split; [done|apply reconciles_error; [by right|apply unapplied_refl]]..].
  by apply (ReconcileOperation_plain s key ltac:(by rewrite Ev) attemptID (durable (world st))).
Qed.

Lemma committed_receipt (st st' : St W tevent) res :
  CommitAdmission s Plain plan st = Some (Ok (res, None), st') -> State res = AdmissionCommitStateCommitted -> exists rc, res = committed rc.
Proof using laws.
  intros E Es. pose proof (CommitAdmission_wp st) as Hw. unfold wp in Hw. rewrite E in Hw. unfold commits in Hw. rewrite Es in Hw.
  destruct Hw as (_ & rc & -> & _). by exists rc.
Qed.

(** ** Theorems *)

(** C4.  An admission happens as a whole or not at all.  Whatever the driver answers,
    [CommitAdmission] ends (or the driver panics), and then: if it reports that the plan is
    committed, the admission has happened between the state before and the state after
    (the plan is well formed, every payload was ready, every fence, read, spend, eviction,
    absence and lease that the plan expects was found, the documents of the ledger are
    those that the effects of the plan make of them, nothing else was touched but payload
    references and the transaction, and the row of the operation is committed with the
    receipt of the plan), or the state is the same and that receipt was saved before.  If
    it reports a rejection or an error without a state, nothing but the row has changed,
    and the row is not committed.  Only a pending result leaves open which of the two it
    is, and then the admission can have happened only if the error says that the commit
    is pending. *)
Theorem admission_atomic (st : St W tevent) :
  exists r st', CommitAdmission s Plain plan st = Some (r, st') /\ commits (durable (world st)) (durable (world st')) r.
Proof using laws. apply wp_returns, CommitAdmission_wp. Qed.

(** A committed admission is not run again.  When a call of [CommitAdmission] has
    returned a receipt, then a later call for the plan, on the state that it left, returns
    the same receipt, or an error of the driver; no transaction is run and nothing is
    changed. *)
Theorem admission_once (st st1 st2 : St W tevent) rc :
  CommitAdmission s Plain plan st = Some (Ok (committed rc, None), st1) -> durable (world st2) = durable (world st1) ->
  exists r st3, CommitAdmission s Plain plan st2 = Some (r, st3) /\ trace st3 = trace st2 /\ durable (world st3) = durable (world st1) /\
  match r with
  | Ok (res, None) => res = committed rc
  | Ok (res, Some e) => res = noResult /\ foreign e
  | Panic => True | Err _ => False
  end.
Proof using laws.
  intros Hrun Hd. pose proof (CommitAdmission_wp st) as Hw. unfold wp in Hw. rewrite Hrun in Hw. destruct Hw as (_ & rc' & [= <-] & Hcase).
  assert (Hs : saved s key (durable (world st2)) rc).
  { rewrite Hd. destruct Hcase as [[-> Ha]|[-> Hs]]; [by eapply applied_saved|done]. }
  apply wp_returns. unfold CommitAdmission in *. destruct (prevalidateAdmission s plan); try done. apply wp_bind.
  destruct (validateOperation s key) as [[]|e|] eqn:Ev; [|unfold ExecuteOperation in Hrun; rewrite Ev in Hrun; done..].
  eapply wp_mono; [by apply (ExecuteOperation_saved s key ltac:(by rewrite Ev) (fun ctx => applyAdmission s ctx plan) rc)|].
  intros r st3 (Ht & Hd3 & Hr). rewrite <- Hd. destruct r as [[res [e|]]|e|]; [| |done|by split_and!].
  - destruct Hr as [-> Hf]. apply wp_ret. split_and!; [done|done|]. by destruct e.
  - subst res. by apply wp_ret.
Qed.

(** C5.  What is reported as aborted cannot be committed.  [ReconcileAdmission] ends
    without running a body, and changes nothing but the row, which it never commits; a
    receipt that it reports is the one that is saved.  When it reports that the operation
    is aborted, then the row is aborted, for the attempt that was asked for if there was
    one, and on that state no body of any attempt of the operation can succeed in a
    transaction: the first write of a body does not find its row. *)
Theorem reconcile_fences (attemptID : option (list byte)) (st : St W tevent) :
  exists r st', ReconcileAdmission s Plain key attemptID st = Some (r, st') /\ trace st' = trace st /\
    reconciles s key attemptID (durable (world st)) (durable (world st')) r /\
    forall res err op (body : Context -> Run AdmissionReceipt), r = Ok (res, err) -> State res = AdmissionCommitStateAborted ->
      pd_ID op = operationID s key -> inside (body InSession) ->
      tx (durable (world st')) (applyOperationBody InSession op key body) (fun r' _ => forall rc, r' <> Ok rc).
Proof using laws.
  destruct (wp_returns _ _ _ (ReconcileAdmission_wp attemptID st)) as (r & st' & Hrun & Ht & Hr). exists r, st'. split_and!; [done..|].
  intros res err op body -> Hs Hid Hb. destruct Hr as [_ Hr]. rewrite Hs in Hr. destruct Hr as (_ & d & Hrow & Ha & _).
  eapply unclaimed_body; [done|apply not_pending; by rewrite Ha|done|done].
Qed.

(** Calls for an operation, one after the other. *)
Inductive operationCall := Commits | Reconciles (attemptID : option (list byte)).

Definition perform (c : operationCall) : Runs.Run (St W tevent) outcome :=
  match c with
  | Commits => CommitAdmission s Plain plan
  | Reconciles attemptID => ReconcileAdmission s Plain key attemptID
  end.

Lemma perform_rows cs (st : St W tevent) :
  wp true (mapM perform cs) st (fun _ st' => rtc (row_step s key) (row s key (durable (world st))) (row s key (durable (world st')))).
Proof using laws.
  revert st. induction cs as [|c cs IH]; intros st; cbn [mapM]; [apply wp_ret, rtc_refl|]. apply wp_bind.
  eapply wp_mono with (Q := fun _ st1 => rtc (row_step s key) (row s key (durable (world st))) (row s key (durable (world st1)))).
  - destruct c as [|attemptID]; cbn [perform].
    + eapply wp_mono; [apply CommitAdmission_wp|]. intros r st'. apply commits_rows.
    + eapply wp_mono; [apply ReconcileAdmission_wp|]. by intros r st' (_ & (_ & Hw & _) & _).
  - intros [a|e|] st1 H1; [|done..]. apply wp_bind. eapply wp_mono; [apply IH|]. intros [as_|e|] st2 H2; by eapply rtc_trans.
Qed.

(** The row of an operation follows its protocol.  Whatever the driver answers, and
    however calls of [CommitAdmission] for a plan and of [ReconcileAdmission] for its
    operation follow each other, they end (or the driver panics), and take the row of the
    operation through the steps of [row_step] only: a claim of a row that is not there, or
    of an aborted one for the same digest and with the next token; a fence; a commit of a
    pending row.  So a row is never removed, keeps its digest, its tokens never decrease,
    and once it is committed it stays as it is. *)
Theorem rows_follow_protocol (cs : list operationCall) (st : St W tevent) :
  exists r st', mapM perform cs st = Some (r, st') /\
  rtc (row_step s key) (row s key (durable (world st))) (row s key (durable (world st'))) /\
  forall a, row s key (durable (world st)) = Some a -> exists b, row s key (durable (world st')) = Some b /\
    pdDigest b = pdDigest a /\ bytes_leb (Token a) (Token b) = true /\ (pdState a = stateCommitted -> b = a).
Proof using laws.
  destruct (wp_returns _ _ _ (perform_rows cs st)) as (r & st' & E & Hr). exists r, st'. split_and!; [done..|].
  intros a Ha. rewrite Ha in Hr. by apply rows_follow.
Qed.

End Admissions.

(** ** An admission *)

Module Example.
Import MongoModel.

Definition s : Store := MongoTransaction.Example.s.
Definition txid : list byte := replicate 64 Byte.x62.
Definition raw : AdmissionPayloadRef := mkPayloadRef (replicate 64 Byte.x63) (str "10") AdmissionPayloadRawTransaction.
Definition identity : AdmissionIdentity := mkIdentity (cfgScope (config s)) txid AdmissionModeLive (replicate 64 Byte.x64) [mkTopic (str "tm_a") (str "policy")].
Definition digest : list byte := Eval vm_compute in match AdmissionSemanticDigest identity with Ok d => d | _ => [] end.
Definition fence : HistoryFence := mkFence (str "0") (str "0").
Definition outpoint : AdmissionOutpoint := mkAdmissionOutpoint txid (str "0").

Definition plan : AdmissionCommit :=
  mkAdmissionCommit (mkKey (cfgScope (config s)) (str "operation") digest) identity [raw]
    [mkDecision (str "tm_a") fence [] [mkSpend (mkAdmissionOutpoint (replicate 64 Byte.x61) (str "1")) (str "1") txid] []
       [mkAdmissionOutput outpoint (str "1000") (str "0") (mkRange raw (str "0") (str "3")) []] []
       (mkApplied txid None None None) None]
    [mkIntent (str "event") AdmissionOutboxLookup (str "ls_a") []]
    (AdmissionPlan.encodeSteakJSON {[ str "tm_a" := mkAdmit (Some [0]) None [] [] ]}).

(** The payload is ready, the fence is set, and the output that the plan spends is unspent. *)
Definition payload : payloadDocument :=
  mkPayloadDocument (payloadID s raw) (chainID s) (Digest raw) (fixed20 10) payloadStateReady [] [] 0 0 0 0 0 None [] [].
Definition fenceRow : fenceDocument := mkFenceDocument (fenceID s (str "tm_a")) (scopeID s) (str "tm_a") (fixed20 0) (fixed20 0) [] [] 0 0.
Definition coin : AdmissionOutpoint := mkAdmissionOutpoint (replicate 64 Byte.x61) (str "1").
Definition unspent : outputDocument :=
  mkOutputDocument (outputID s (str "tm_a") coin) (scopeID s) (str "tm_a") (opTxID coin) (fixed20 1) (fixed20 500) (fixed20 0) 0 false true (str "1") [] merkleStateUnmined
    [] [] [] [] [] [] [] [] 0 0.

Definition ledgerDB : DB :=
  store outputs (od_ID unspent) unspent (store fences (fd_ID fenceRow) fenceRow (store payloads (yd_ID payload) payload emptyDB)).

(** The answer to the first commit is lost: it was not applied; the second is applied. *)
Definition start : St world tevent := mkSt (mkWorld ledgerDB None 1 [Dropped 2] ∅ ∅) [].

(** What is left after a call, and after another one. *)
Definition after (st : St world tevent) : St world tevent := match CommitAdmission s Plain plan st with Some (_, st') => st' | None => st end.

Definition is_state (state : AdmissionCommitState) (r : option (result outcome * St world tevent)) : bool :=
  match r with
  | Some (Ok (res, None), _) =>
      match State res, state with
      | AdmissionCommitStateCommitted, AdmissionCommitStateCommitted | AdmissionCommitStateAborted, AdmissionCommitStateAborted => true
      | _, _ => false
      end
  | _ => false
  end.

(** The output is spent by the transaction, which is stored with its raw form. *)
Lemma admission_atomic_witness :
  exists r st', CommitAdmission s Plain plan start = Some (r, st') /\ commits s plan (durable (Traced.world start)) (durable (Traced.world st')) r /\
    is_state AdmissionCommitStateCommitted (Some (r, st')) = true /\
    SpentBy <$> docs outputs (durable (Traced.world st')) !! od_ID unspent = Some txid /\
    BeefDigest <$> docs transactions (durable (Traced.world st')) !! transactionID s txid = Some (Digest raw).
Proof.
  destruct (admission_atomic s plan start) as (r & st' & E & Hr). exists r, st'. split_and!; [exact E|exact Hr|rewrite <- E; vm_compute; reflexivity|..].
  - assert (Ht : (SpentBy <$> docs outputs (durable (Traced.world (after start))) !! od_ID unspent) = Some txid) by (vm_compute; reflexivity).
    unfold after in Ht. rewrite E in Ht. exact Ht.
  - assert (Ht : (BeefDigest <$> docs transactions (durable (Traced.world (after start))) !! transactionID s txid) = Some (Digest raw)) by (vm_compute; reflexivity).
    unfold after in Ht. rewrite E in Ht. exact Ht.
Defined.

Lemma is_state_committed x : is_state AdmissionCommitStateCommitted x = true -> exists res st', x = Some (Ok (res, None), st') /\ State res = AdmissionCommitStateCommitted.
Proof. destruct x as [[[[res [e|]]|e|] st']|]; try done. cbn. intros E. exists res, st'. split; [done|]. by destruct (State res). Qed.

Lemma first_commits : is_state AdmissionCommitStateCommitted (CommitAdmission s Plain plan start) = true.
Proof. vm_compute. reflexivity. Qed.

(** The second call, on whatever state the first one left. *)
Definition twice (first : option (result outcome * St world tevent)) : option (result outcome * St world tevent) :=
  match first with Some (_, st') => CommitAdmission s Plain plan st' | None => None end.

Lemma second_commits : is_state AdmissionCommitStateCommitted (twice (CommitAdmission s Plain plan start)) = true.
Proof. vm_compute. reflexivity. Qed.

Lemma admission_once_witness :
  exists rc st1, CommitAdmission s Plain plan start = Some (Ok (committed rc, None), st1) /\
  exists r st3, CommitAdmission s Plain plan st1 = Some (r, st3) /\ trace st3 = trace st1 /\
    durable (Traced.world st3) = durable (Traced.world st1) /\ is_state AdmissionCommitStateCommitted (Some (r, st3)) = true.
Proof.
  destruct (is_state_committed _ first_commits) as (res & st1 & E & Hs). destruct (committed_receipt s plan start st1 res E Hs) as [rc ->].
  exists rc, st1. split; [exact E|]. pose proof second_commits as H2. rewrite E in H2.
  destruct (admission_once s plan start st1 st1 rc E eq_refl) as (r & st3 & E3 & Ht & Hd & _). exists r, st3.
  assert (H3 : is_state AdmissionCommitStateCommitted (CommitAdmission s Plain plan st1) = true) by exact H2. rewrite E3 in H3.
  split; [exact E3|]. split; [exact Ht|]. split; [exact Hd|exact H3].
Defined.

(** There is no row: the operation is aborted by a tombstone, and a claim of the attempt finds it. *)
Lemma reconcile_fences_witness :
  exists r st', ReconcileAdmission s Plain (comKey plan) (Some (str "attempt")) start = Some (r, st') /\
    is_state AdmissionCommitStateAborted (Some (r, st')) = true /\ pdState <$> row s (comKey plan) (durable (Traced.world st')) = Some stateAborted.
Proof.
  destruct (reconcile_fences s plan (Some (str "attempt")) start) as (r & st' & E & _ & [_ Hr] & _). exists r, st'.
  assert (Ha : is_state AdmissionCommitStateAborted (Some (r, st')) = true) by (rewrite <- E; vm_compute; reflexivity).
  split_and!; [exact E|exact Ha|]. destruct r as [[res [e|]]|e|]; try discriminate Ha. cbn in Ha. destruct (State res); try discriminate Ha.
  destruct Hr as (_ & d & Hrow & Hs & _). rewrite Hrow. cbn. by rewrite Hs.
Defined.

(** The state that a call leaves, and the token of the row there. *)
Definition left_by (r : option (result outcome * St world tevent)) : option (St world tevent) := snd <$> r.
Definition tokenAt (st : option (St world tevent)) : option (list byte) :=
  st ← st; Token <$> row s (comKey plan) (durable (Traced.world st)).
Definition buried : option (St world tevent) := left_by (ReconcileAdmission s Plain (comKey plan) (Some (str "attempt")) start).

Lemma reclaimed : tokenAt buried = Some (fixed20 1) /\ tokenAt (st ← buried; left_by (CommitAdmission s Plain plan st)) = Some (fixed20 2).
Proof. vm_compute. by split. Qed.

(** The operation is claimed again after a tombstone, with the next token. *)
Lemma rows_follow_protocol_witness :
  exists st r st', buried = Some st /\ CommitAdmission s Plain plan st = Some (r, st') /\
    rtc (row_step s (comKey plan)) (row s (comKey plan) (durable (Traced.world st))) (row s (comKey plan) (durable (Traced.world st'))) /\
    tokenAt (Some st) = Some (fixed20 1) /\ tokenAt (Some st') = Some (fixed20 2).
Proof.
  destruct reclaimed as [H1 H2]. destruct buried as [st|]; [|discriminate H1].
  destruct (CommitAdmission s Plain plan st) as [[r st']|] eqn:E; [|unfold left_by in H2; cbn [mbind option_bind] in H2; rewrite E in H2; discriminate H2].
  exists st, r, st'. split; [reflexivity|]. split; [exact E|].
  destruct (rows_follow_protocol s plan [Commits] st) as (rs & st2 & E2 & Hr & _).
  assert (st2 = st') as ->.
  { cbn [mapM perform] in E2. unfold mbind, run_bind in E2. rewrite E in E2. destruct r; cbn in E2; by inversion E2. }
  split; [exact Hr|]. split; [exact H1|]. unfold left_by in H2. cbn [mbind option_bind] in H2. rewrite E in H2. exact H2.
Defined.

End Example.
End MongoAtomic.
