(* ===== verification/MongoRetention.v ===== *)
(** * Referenced payloads are kept, with their bytes

    An invariant of the payloads, their references and their files: every reference is to a
    payload that is ready, and the bytes of a payload that is ready are stored and have its
    digest and its length.  Every operation of payload.go and every admission preserves it,
    whatever the driver, GridFS, readers and writers answer. *)

From S2P Require Import Prelude Bytes Sha256 Decimal Runs Traced Admission EngineTypes AdmissionPlan.
From S2P Require Import MongoEncoding MongoDriver MongoModel MongoTransaction MongoRules MongoBlob MongoPlan MongoPayload MongoAdmission MongoContent.
From S2P Require Import MongoEffects MongoOperation MongoCommit MongoAtomic.
Import Admission MongoEncoding MongoTransaction MongoBlob MongoPayload MongoContent.
Open Scope Z_scope.

Module MongoRetention.

(** ** Runs and what they leave durable *)

Section Leaves.
Context {W : Type} `{!Mongo W, !MongoState W} {laws : MongoLaws W}.
Local Abbreviation St := (St W tevent).
Local Abbreviation Run := (Runs.Run St).
#[local] Set Default Proof Using "Type laws".

Definition leaves {A} (db : DB) (m : Run A) (P : result A -> DB -> Prop) : Prop :=
  forall st, durable (world st) = db -> wp true m st (fun r st' => P r (durable (world st'))).

Lemma leaves_mono {A} db (m : Run A) (P P' : result A -> DB -> Prop) : leaves db m P -> (forall r db', P r db' -> P' r db') -> leaves db m P'.
Proof using Type. intros Hm HP st Hd. eapply wp_mono; [by apply Hm|]. intros r st'. apply HP. Qed.

Lemma leaves_lift {A} db (r : result A) (P : result A -> DB -> Prop) : P r db -> leaves db (lift r) P.
Proof using Type. intros HP st <-. by apply wp_lift. Qed.

Lemma leaves_ret {A} db (a : A) (P : result A -> DB -> Prop) : P (Ok a) db -> leaves db (mret a) P.
Proof using Type. apply (leaves_lift db (Ok a)). Qed.

Lemma leaves_bind {A B} db (m : Run A) (f : A -> Run B) (P : result B -> DB -> Prop) :
  leaves db m (fun r db' => match r with Ok a => leaves db' (f a) P | Err e => P (Err e) db' | Panic => P Panic db' end) -> leaves db (m ≫= f) P.
Proof using Type. intros Hm st Hd. apply wp_bind. eapply wp_mono; [by apply Hm|]. intros [a|e|] st' Hr; [by apply Hr|done..]. Qed.

Lemma leaves_attempt {A} db (m : Run A) (P : result (result A) -> DB -> Prop) :
  leaves db m (fun r db' => match r with Panic => P Panic db' | _ => P (Ok r) db' end) -> leaves db (attempt m) P.
Proof using Type. intros Hm st Hd. apply wp_attempted. eapply wp_mono; [by apply Hm|]. by intros [a|e|]. Qed.

Lemma leaves_plain {A} db (m : Run A) (P : result A -> DB -> Prop) : plain db m P -> leaves db m P.
Proof using Type. intros Hm st Hd. eapply wp_mono; [by apply Hm|]. by intros r st' [_ ?]. Qed.

(** A transaction leaves what was, or what its body leaves. *)
Lemma leaves_transaction {A} (s : Store) db (body : Context -> Run A) (Q : A -> DB -> Prop) :
  tx db (body InSession) (fun r db' => forall a, r = Ok a -> Q a db') ->
  leaves db (runTransaction s Plain body) (fun r db' => settled db Q db' r).
Proof.
  intros [Hin Htx] st Hd. apply (runTransaction_atomic s body db Q); [|exact Hd]. intros st1 Hd1 Hs1.
  eapply wp_mono; [eapply wp_and; [apply Hin|by apply (wp_partial true), Htx]|]. intros r st2 [(Hdur & _) HP]. split; [by rewrite Hdur|].
  intros a db' -> Hs. by apply (HP db').
Qed.

(** When what was satisfies [P] too, then so does what is durable in any case. *)
Lemma settled_always {A} db db' (Q : A -> DB -> Prop) (P : DB -> Prop) r :
  settled db Q db' r -> P db -> (forall a d, Q a d -> P d) -> P db'.
Proof using Type.
  intros Hs Hdb HQ. assert (Hp : perhaps db Q db' -> P db') by (intros [->|[a Ha]]; [done|by eapply HQ]).
  destruct r as [[o r]|e|]; [|done|by apply Hp]. destruct o, r; cbn in Hs; try done; [by subst|by eapply HQ|by apply Hp, Hs].
Qed.

(** A call of the driver whose answer does not matter. *)
Lemma leaves_same {A} db (op : Op W A) (P : result A -> DB -> Prop) :
  (forall w r w', op w = (r, w') -> same w w') -> (forall r, P r db) -> leaves db (call op) P.
Proof using Type. intros Hop HP st Hd. apply wp_driver. intros r w E. destruct (Hop _ _ _ E) as [E1 _]. cbn [world]. by rewrite E1, Hd. Qed.

End Leaves.

(** ** The invariant *)

Section Invariant.
(** The digests that are in use, with the chains, and the limit of inline data. *)
Context (K : list (list byte * list byte)) (limit : Z).

Definition has_content (db : DB) (p : payloadDocument) : Prop :=
  match Inline p with
  | Some data => is_u64 (len data) /\ ydLength p = fixed20 (len data) /\ sha256Hex data = ydDigest p
  | None => FileID p <> noFile /\ exists n, is_u64 n /\ ydLength p = fixed20 n /\
      published db (FileID p) (mkBlobMetadata (ydChain p) (ydDigest p) (FormatUint n) (BlobOwner p) (BlobToken p) blobStatePublished)
  end.

Record row_ok (db : DB) (id : list byte) (p : payloadDocument) : Prop := {
  ok_known : (ydChain p, ydDigest p) ∈ K;
  ok_key : id = keyID (ydChain p) (ydDigest p);
  ok_id : yd_ID p = id;
  ok_ready : ydState p = payloadStateReady -> has_content db p;
  ok_inline : ydState p = payloadStateUploading -> Inline p = None;
  ok_file : forall n, ydState p = payloadStateUploading -> is_u64 n -> ydLength p = fixed20 n -> limit < n -> FileID p <> noFile }.

Record whole (db : DB) : Prop := {
  wh_references : forall id n, docs references db !! id = Some n -> readyRow db n;
  wh_rows : forall id p, docs payloads db !! id = Some p -> row_ok db id p;
  wh_files : forall id1 p1 id2 p2, docs payloads db !! id1 = Some p1 -> docs payloads db !! id2 = Some p2 ->
    FileID p1 = FileID p2 -> FileID p1 <> noFile -> id1 = id2 }.

(** No two of the digests in use have the same identifier. *)
Definition no_collision : Prop := forall c1 d1 c2 d2, (c1, d1) ∈ K -> (c2, d2) ∈ K -> keyID c1 d1 = keyID c2 d2 -> c1 = c2 /\ d1 = d2.

Lemma has_content_file db db' p : (Inline p = None -> fileAt db' (FileID p) = fileAt db (FileID p)) -> has_content db p -> has_content db' p.
Proof. intros E. unfold has_content, published. destruct (Inline p); [done|]. by rewrite E. Qed.

Lemma row_ok_file db db' id p : (ydState p = payloadStateReady -> Inline p = None -> fileAt db' (FileID p) = fileAt db (FileID p)) -> row_ok db id p -> row_ok db' id p.
Proof. intros E [H1 H2 H3 H4 H5 H6]. constructor; try done. intros Hr. eapply has_content_file; [by apply E|by apply H4]. Qed.

Lemma files_at db db' id : files db' = files db -> fileAt db' id = fileAt db id.
Proof. unfold files, fileAt. by intros [= -> ->]. Qed.

(** The invariant is about payloads, references and files. *)
Lemma whole_proper db db' : docs payloads db' = docs payloads db -> docs references db' = docs references db -> files db' = files db -> whole db -> whole db'.
Proof.
  intros Ep Er Ef [H1 H2 H3]. constructor.
  - intros id n. rewrite Er. unfold readyRow. rewrite Ep. apply H1.
  - intros id p. rewrite Ep. intros Hp. apply (row_ok_file db); [|by apply H2]. intros _ _. by apply files_at.
  - by rewrite Ep.
Qed.

Lemma guards_row_ok db db' id (p p' : document payloads) : files db' = files db -> setGuard 0 p' = setGuard 0 p -> row_ok db id p -> row_ok db' id p'.
Proof.
  intros Ef E Hok. apply (row_ok_file db); [by intros; apply files_at|]. destruct p, p'. cbn in E. simplify_eq. destruct Hok. by constructor.
Qed.

Lemma guards_back db db' id (p : document payloads) : setGuard 0 <$> docs payloads db' = setGuard 0 <$> docs payloads db ->
  docs payloads db !! id = Some p -> exists p' : document payloads, docs payloads db' !! id = Some p' /\ setGuard 0 p' = setGuard 0 p.
Proof. intros E Hp. destruct (guards_row db' db id p (eq_sym E) Hp) as (p' & ? & ?). by exists p'. Qed.

(** Pins. *)
Lemma whole_kept db db' : kept db db' -> whole db -> whole db'.
Proof.
  intros [Hg _ Ha Hf _] [H1 H2 H3]. constructor.
  - intros id n Hn. assert (Hr : readyRow db n) by (destruct (Ha id n Hn); [by eapply H1|done]). by apply (guards_readyRow db' db).
  - intros id p' Hp'. destruct (guards_row _ _ _ _ Hg Hp') as (p & Hp & E). eapply guards_row_ok; [done|exact E|by apply H2].
  - intros id1 p1' id2 p2' Hp1 Hp2. destruct (guards_row _ _ _ _ Hg Hp1) as (p1 & Hp1' & E1), (guards_row _ _ _ _ Hg Hp2) as (p2 & Hp2' & E2).
    apply (f_equal FileID) in E1, E2. cbn in E1, E2. rewrite E1, E2. by eapply H3.
Qed.

(** A reference is removed. *)
Lemma whole_release db id : whole db -> whole (put references (delete id (docs references db)) db).
Proof.
  intros [H1 H2 H3]. constructor.
  - intros id' n. rewrite docs_put. intros [_ Hn]%lookup_delete_Some. unfold readyRow. rewrite docs_put_other by done. by eapply H1.
  - intros id' p. rewrite docs_put_other by done. intros Hp. eapply row_ok_file; [|by apply H2]. intros _ _. apply files_at, files_put.
  - by rewrite docs_put_other.
Qed.

(** A row is written. *)
Lemma whole_store db id (p : document payloads) : whole db -> row_ok db id p ->
  ((exists old : document payloads, docs payloads db !! id = Some old /\ ydChain p = ydChain old /\ ydDigest p = ydDigest old /\ ydState p = payloadStateReady) \/
   (forall j n, docs references db !! j = Some n -> keyID (ndChain n) (ndDigest n) <> id)) ->
  (FileID p = noFile \/ (exists old : document payloads, docs payloads db !! id = Some old /\ FileID p = FileID old) \/
   (forall j (q : document payloads), docs payloads db !! j = Some q -> FileID q <> FileID p)) ->
  whole (store payloads id p db).
Proof.
  intros [H1 H2 H3] Hok Href Hfile. unfold store. constructor.
  - intros j n. rewrite docs_put_other by done. intros Hn. destruct (H1 j n Hn) as (q & Hq & E1 & E2 & E3). unfold readyRow. rewrite docs_put.
    destruct (decide (keyID (ndChain n) (ndDigest n) = id)) as [E|Hne]; [|exists q; by rewrite lookup_insert_ne].
    destruct Href as [(old & Hold & F1 & F2 & F3)|Hno]; [|by destruct (Hno j n Hn)]. subst id. simplify_eq. exists p. rewrite lookup_insert_eq. split_and!; congruence.
  - intros j q. rewrite docs_put. intros [[<- <-]|[Hne Hq]]%lookup_insert_Some; (eapply row_ok_file; [intros _ _; apply files_at, files_put|]); [done|by apply H2].
  - assert (Hnew : forall j (q : document payloads), docs payloads db !! j = Some q -> FileID p = FileID q -> FileID p <> noFile -> id = j).
    { intros j q Hq E Hne. destruct Hfile as [?|[(old & Hold & E')|Hfresh]]; [done|by eapply H3; [exact Hold|exact Hq|congruence|congruence]|by destruct (Hfresh j q Hq)]. }
    intros j1 q1 j2 q2. rewrite docs_put. intros [[<- <-]|[Hne1 Hq1]]%lookup_insert_Some [[<- <-]|[Hne2 Hq2]]%lookup_insert_Some E Hn; [done|by eapply Hnew| |by eapply H3].
    symmetry. eapply Hnew; [exact Hq1|done|congruence].
Qed.

(** A file that is not that of a payload that is ready. *)
Lemma whole_apart db db' id : apart id db db' ->
  (forall j (q : document payloads), docs payloads db !! j = Some q -> ydState q = payloadStateReady -> Inline q = None -> FileID q <> id) -> whole db -> whole db'.
Proof.
  intros [Hd Hf] Hno [H1 H2 H3]. constructor.
  - intros j n. rewrite (Hd references). unfold readyRow. rewrite (Hd payloads). apply H1.
  - intros j q. rewrite (Hd payloads). intros Hq. eapply row_ok_file; [|by apply H2]. intros Hr Hi. apply Hf. by eapply Hno.
  - by rewrite (Hd payloads).
Qed.

(** A payload that is not ready is not referred to. *)
Lemma unready_unreferenced db id : whole db -> (forall p : document payloads, docs payloads db !! id = Some p -> ydState p <> payloadStateReady) ->
  forall j n, docs references db !! j = Some n -> keyID (ndChain n) (ndDigest n) <> id.
Proof. intros Hw Hno j n Hn <-. destruct (wh_references _ Hw j n Hn) as (p & Hp & _ & _ & Hr). by apply (Hno p). Qed.

(** The file of a payload that is not ready is not that of one that is. *)
Lemma unready_file db id (p : document payloads) : whole db -> docs payloads db !! id = Some p -> ydState p <> payloadStateReady -> FileID p <> noFile ->
  forall j (q : document payloads), docs payloads db !! j = Some q -> ydState q = payloadStateReady -> Inline q = None -> FileID q <> FileID p.
Proof. intros Hw Hp Hs Hne j q Hq Hr _ E. assert (id = j) as -> by (eapply (wh_files _ Hw); [exact Hp|exact Hq|congruence|done]). congruence. Qed.

End Invariant.

(** ** Operations keep it *)

Section Operations.
Context {W : Type} `{!Mongo W, !MongoState W, !GridFS W, !GridFSState W} {laws : MongoLaws W} {blobLaws : GridFSLaws W}.
Context (K : list (list byte * list byte)) (limit : Z) (distinct : no_collision K) (s : Store).
Local Abbreviation St := (St W tevent).
Local Abbreviation Run := (Runs.Run St).
Local Abbreviation whole := (whole K limit).
Local Abbreviation row_ok := (row_ok K limit).
#[local] Set Default Proof Using "Type laws blobLaws".

(** [m] keeps the invariant, and [V] holds of what it returns. *)
Definition safe {A} (db : DB) (m : Run A) (V : A -> DB -> Prop) : Prop :=
  leaves db m (fun r db' => whole db' /\ forall a, r = Ok a -> V a db').

Lemma safe_mono {A} db (m : Run A) (V V' : A -> DB -> Prop) : safe db m V -> (forall a db', whole db' -> V a db' -> V' a db') -> safe db m V'.
Proof using Type. intros Hm HV. eapply leaves_mono; [exact Hm|]. intros r db' [Hw Hr]. split; [done|]. intros a E. by apply HV, Hr. Qed.

Lemma safe_lift {A} db (r : result A) (V : A -> DB -> Prop) : whole db -> (forall a, r = Ok a -> V a db) -> safe db (lift r) V.
Proof using Type. intros Hw HV. by apply leaves_lift. Qed.

Lemma safe_fail {A} db e (V : A -> DB -> Prop) : whole db -> safe db (lift (Err e)) V.
Proof using Type. intros Hw. by apply safe_lift. Qed.

Lemma safe_ret {A} db (a : A) (V : A -> DB -> Prop) : whole db -> V a db -> safe db (mret a) V.
Proof using Type. intros Hw HV. apply safe_lift; [done|]. by intros a' [= <-]. Qed.

Lemma safe_then {A B} db (m : Run A) (f : A -> Run B) (V : A -> DB -> Prop) (V' : B -> DB -> Prop) :
  safe db m V -> (forall a db', whole db' -> V a db' -> safe db' (f a) V') -> safe db (m ≫= f) V'.
Proof using Type.
  intros Hm Hf. apply leaves_bind. eapply leaves_mono; [exact Hm|]. intros [a|e|] db' [Hw Hr]; [by apply Hf, Hr|by split..].
Qed.

Lemma safe_stop {A B} db e (f : A -> Run B) (V : B -> DB -> Prop) : whole db -> safe db (lift (Err e) ≫= f) V.
Proof using Type. intros Hw. apply leaves_bind, leaves_lift. by split. Qed.

(** A value that is computed. *)
Lemma safe_value {A B} db (r : result A) (f : A -> Run B) (V : B -> DB -> Prop) :
  whole db -> (forall a, r = Ok a -> safe db (f a) V) -> safe db (lift r ≫= f) V.
Proof using Type. intros Hw Hf. apply leaves_bind, leaves_lift. destruct r as [a|e|]; [by apply Hf|by split..]. Qed.

Lemma safe_attempt {A} db (m : Run A) (V : A -> DB -> Prop) : safe db m V -> safe db (attempt m) (fun r db' => forall a, r = Ok a -> V a db').
Proof using Type.
  intros Hm. apply leaves_attempt. eapply leaves_mono; [exact Hm|]. intros [a|e|] db' [Hw Hr]; (split; [done|]); [|by intros r [= <-]|done].
  intros r [= <-] a' [= <-]. by apply Hr.
Qed.

Lemma safe_same {A} db (op : Op W A) (V : A -> DB -> Prop) :
  (forall w r w', op w = (r, w') -> same w w') -> whole db -> (forall a, V a db) -> safe db (call op) V.
Proof. intros Hop Hw HV. apply leaves_same; [done|]. intros r. by split. Qed.

(** A write: it happens or not, whatever is answered. *)
Lemma safe_write {A} db (op : Op W A) (f : effect A) (V : A -> DB -> Prop) :
  (forall w r w', op w = (r, w') -> writing Plain w w' r f) -> whole db ->
  (forall now a db', f db now = Some (a, db') -> whole db' /\ V a db') -> safe db (call op) V.
Proof.
  intros Hop Hw Hf. apply leaves_plain, (plain_writing db op f); [done| | | |].
  - intros now a db' E. destruct (Hf _ _ _ E). split; [done|]. by intros a' [= <-].
  - by intros e _.
  - intros e now a db' _ _ _ E. by destruct (Hf _ _ _ E).
  - by split.
Qed.

Lemma safe_ObjectID db : whole db -> safe db (call NewObjectID)
  (fun u db' => db' = db /\ u <> noFile /\ forall id (d : document payloads), docs payloads db !! id = Some d -> FileID d <> u).
Proof.
  intros Hw st Hd. apply wp_driver. intros r w E. destruct (NewObjectID_law _ _ _ E) as [[E1 _] _]. cbn [world]. rewrite E1, Hd. split; [done|].
  intros u ->. destruct (NewObjectID_fresh _ _ _ E) as [Hne Hfresh]. rewrite Hd in Hfresh. by split_and!.
Qed.

Lemma safe_FindOne db c id cond : whole db ->
  leaves db (call (FindOne Plain c id cond)) (fun r db' => db' = db /\
    match r with Ok d => docs c db !! id = Some d /\ exists now, cond now d = true | Err ErrNoDocuments => exists now, matching cond now (docs c db !! id) = None | _ => True end).
Proof.
  intros Hw. apply leaves_plain, plain_FindOne.
  - intros now d Hm. split; [done|]. unfold matching in Hm. destruct (docs c db !! id) as [d'|]; [|done]. destruct (cond now d') eqn:E; [|done].
    injection Hm as <-. split; [done|by exists now].
  - intros now Hm. split; [done|by exists now].
  - intros e Hf Hne. split; [done|]. by destruct e.
  - done.
Qed.

(** *** Publishing *)

Lemma validatePayload_Ok (ref : AdmissionPayloadRef) n : validatePayload s ref = Ok n ->
  validHash (Digest ref) = true /\ is_u64 n /\ ByteLength ref = FormatUint n /\ n <= MaxPayloadBytes (config s).
Proof using Type.
  unfold validatePayload. destruct (validHash (Digest ref)); [|done]. cbn [negb].
  assert (H : match ParseStorageUint64 (ByteLength ref) with Ok length => if MaxPayloadBytes (config s) <? length then Err ErrInvalidPayload else Ok length | _ => Err ErrInvalidPayload end = Ok n ->
    true = true /\ is_u64 n /\ ByteLength ref = FormatUint n /\ n <= MaxPayloadBytes (config s)); [|by destruct (Kind ref)].
  destruct (ParseStorageUint64 (ByteLength ref)) as [k|e|] eqn:E; [|done..]. apply ParseStorageUint64_Ok in E as [Hk ->].
  destruct (Z.ltb_spec (MaxPayloadBytes (config s)) k); [done|]. by intros [= <-].
Qed.

(** The row of a reference. *)
Record row_of (ref : AdmissionPayloadRef) (n : Z) (p : payloadDocument) : Prop := {
  ro_id : yd_ID p = payloadID s ref;
  ro_chain : ydChain p = chainID s;
  ro_digest : ydDigest p = Digest ref;
  ro_length : ydLength p = fixed20 n }.

Definition reserved (ref : AdmissionPayloadRef) (n : Z) (p : document payloads) (db : DB) : Prop :=
  docs payloads db !! payloadID s ref = Some p /\ row_of ref n p /\ (ydState p = payloadStateReady \/ ydState p = payloadStateUploading).

Context (ref : AdmissionPayloadRef) (n : Z) (Hvalid : validatePayload s ref = Ok n) (Hknown : (chainID s, Digest ref) ∈ K) (Hlimit : InlineLimit (config s) = limit).
#[local] Set Default Proof Using "Type laws blobLaws distinct Hvalid Hknown Hlimit".

Lemma encoded_length : EncodeUint64 (ByteLength ref) = Ok (fixed20 n).
Proof using Hvalid. destruct (validatePayload_Ok _ _ Hvalid) as (_ & Hn & E & _). apply EncodeUint64_Ok. by exists n. Qed.

Lemma insert_safe db token cond upsert : whole db ->
  (forall old : document payloads, docs payloads db !! payloadID s ref = Some old -> ydState old = payloadStateDeleted \/ forall now, cond now old = false) ->
  safe db (insertUploadingPayload s Plain ref n (payloadID s ref) token cond upsert) (reserved ref n).
Proof.
  intros Hw Hold. unfold insertUploadingPayload. rewrite encoded_length. apply safe_value; [done|]. intros encoded [= <-].
  eapply safe_then; [by apply safe_ObjectID|]. intros guard db' _ (-> & _ & _). cbv zeta. rewrite Hlimit.
  eapply (safe_then _ _ _ (fun file db' => db' = db /\ (if limit <? n then file <> noFile /\ forall id (d : document payloads), docs payloads db !! id = Some d -> FileID d <> file else file = noFile))).
  { destruct (limit <? n); [by apply safe_ObjectID|by apply safe_ret]. }
  intros file db' _ [-> Hfile]. set (row := mkPayloadDocument _ _ _ _ _ _ _ _ _ _ _ _ _ _ _).
  assert (Hrow : forall now, (forall p : document payloads, docs payloads db !! payloadID s ref = Some p -> ydState p <> payloadStateReady) ->
    whole (store payloads (payloadID s ref) (datedPayload row (LeaseDuration (config s)) now) db) /\
    reserved ref n (datedPayload row (LeaseDuration (config s)) now) (store payloads (payloadID s ref) (datedPayload row (LeaseDuration (config s)) now) db)).
  { intros now Hno. split.
    - apply whole_store; [done| |right; by eapply unready_unreferenced|].
      + constructor; [done|done|done|done|done|]. intros m _ Hm El Hlt. cbn in El. apply fixed20_inj in El as <-; [|by apply (validatePayload_Ok _ _ Hvalid)|done].
        destruct (Z.ltb_spec limit n); [by apply Hfile|lia].
      + cbn. destruct (limit <? n); [right; right; apply Hfile|by left].
    - unfold reserved, store. rewrite docs_put, lookup_insert_eq. split_and!; [done|by constructor|by right]. }
  eapply safe_then; [eapply safe_attempt, (safe_write _ _ _ (reserved ref n)); [intros; by eapply (FindOneAndUpdate_law Plain payloads)|done|]|].
  - intros now d db'. unfold findAndUpdateEffect, matching. destruct (docs payloads db !! payloadID s ref) as [old|] eqn:Eo.
    + destruct (cond now old) eqn:Ec; [|done]. intros [= <- <-]. apply Hrow. intros p [= <-]. destruct (Hold old eq_refl) as [E|E]; [by rewrite E|congruence].
    + destruct upsert; [|done]. intros [= <- <-]. by apply Hrow.
  - intros r db' Hw' Hr. unfold conflictOr. destruct r as [p|e|]; [apply safe_lift; [done|intros a [= <-]; by apply Hr]| |by apply safe_lift].
    destruct e; by apply safe_fail.
Qed.

Lemma resume_safe db (p : document payloads) : whole db -> reserved ref n p db -> ydState p = payloadStateUploading ->
  safe db (resumeUpload s Plain p) (reserved ref n).
Proof.
  intros Hw (Hp & [I1 I2 I3 I4] & _) Hup. unfold resumeUpload. eapply safe_then; [by apply safe_ObjectID|]. intros guard db' _ (-> & _ & _).
  eapply safe_then; [eapply safe_attempt, (safe_write _ _ _ (reserved ref n)); [intros; by eapply (FindOneAndUpdate_law Plain payloads)|done|]|].
  - intros now d db'. unfold findAndUpdateEffect, matching. rewrite I1, Hp. destruct (_ && _); [|done]. intros [= <- <-].
    set (p' := resumedUpload _ _ _ _). pose proof (wh_rows _ _ _ Hw _ _ Hp) as [R1 R2 R3 R4 R5 R6]. split.
    + apply whole_store; [done| | |right; left; by exists p].
      * by constructor.
      * right. eapply unready_unreferenced; [done|]. intros q Hq. simplify_eq. by rewrite Hup.
    + unfold reserved, store. rewrite docs_put, lookup_insert_eq. split_and!; [done|by constructor|by right].
  - intros r db' Hw' Hr. destruct r as [q|e|]; [apply safe_lift; [done|intros a [= <-]; by apply Hr]| |by apply safe_lift]. destruct e; by apply safe_fail.
Qed.

Lemma payloadMatchesRef_Ok (p : payloadDocument) : payloadMatchesRef s p ref = Ok tt -> yd_ID p = payloadID s ref -> row_of ref n p.
Proof using Hvalid.
  unfold payloadMatchesRef. rewrite encoded_length. cbn [MongoAdmission.orEmpty]. destruct (decide (ydChain p = chainID s)), (decide (ydDigest p = Digest ref));
    [|by rewrite ?(bool_decide_true (ydChain p = _)), ?(bool_decide_false (ydDigest p = _)), ?(bool_decide_false (ydChain p = _)) by done..].
  rewrite !bool_decide_true by done. cbn [negb orb]. case_bool_decide; [|done]. by constructor.
Qed.

Lemma reserve_safe db : whole db -> safe db (reservePayload s Plain ref n) (reserved ref n).
Proof.
  intros Hw. unfold reservePayload. apply leaves_bind, leaves_attempt. eapply leaves_mono; [by apply (safe_FindOne db payloads)|].
  intros [p|e|] db' [-> Hr]; [| |by split].
  - destruct Hr as [Hp _]. pose proof (wh_rows _ _ _ Hw _ _ Hp) as [R1 R2 R3 R4 R5 R6]. unfold reuseOrRecyclePayload.
    apply safe_value; [done|]. intros [] Em. assert (Hrow : row_of ref n p) by by apply payloadMatchesRef_Ok.
    case_bool_decide as Er; [apply safe_ret; [done|]; split_and!; [done|done|by left]|]. destruct (bool_decide _ && bool_decide _) eqn:Eu.
    { apply andb_true_iff in Eu as [Eu%bool_decide_eq_true _]. apply resume_safe; [done| |done]. split_and!; [done|done|by right]. }
    clear Eu. case_bool_decide as Edel; [|by apply safe_fail]. cbn [negb]. apply safe_value; [done|]. intros token _.
    rewrite (ro_id _ _ _ Hrow). apply insert_safe; [done|]. intros old Hold. simplify_eq. by left.
  - destruct e; try by apply safe_fail. apply insert_safe; [done|]. intros old _. by right.
Qed.

(** What an upload has verified. *)
Definition content_of (p : payloadDocument) (inline : option (list byte)) (db : DB) : Prop :=
  match inline with
  | Some data => len data = n /\ sha256Hex data = Digest ref
  | None => limit < n /\ published db (FileID p) (blobMetadataOf s p ref)
  end.

Lemma leaves_inert {A} db (m : Run A) (P : result A -> DB -> Prop) : outside m -> (forall r, P r db) -> leaves db m P.
Proof using Type. intros Hm HP st Hd. eapply wp_mono; [apply Hm|]. intros r st' [_ [[E _] _]]. by rewrite E, Hd. Qed.

Lemma CtxErr_safe db : whole db -> safe db (call CtxErr) (fun _ db' => db' = db).
Proof. intros Hw. apply safe_same; [|done|done]. intros w r w' [E _]%CtxErr_law. done. Qed.

Lemma inline_safe db readLimited : whole db -> (forall k, outside (readLimited k)) ->
  safe db (readInlinePayload readLimited ref n) (fun data db' => db' = db /\ len data = n /\ sha256Hex data = Digest ref).
Proof.
  intros Hw Hout. unfold readInlinePayload. destruct (_ <? n); [by apply safe_fail|]. eapply safe_then; [by apply CtxErr_safe|]. intros _ db' _ ->.
  apply safe_then with (V := fun _ db' => db' = db); [by apply leaves_inert|]. intros data db' _ ->. eapply safe_then; [by apply CtxErr_safe|]. intros _ db' _ ->.
  destruct (Z.eqb_spec (len data) n) as [El|]; [|by apply safe_fail]. case_bool_decide as Es; [|by apply safe_fail]. by apply safe_ret.
Qed.

(** Nothing but the file of a payload that is not ready is touched. *)
Lemma filing_safe {A} db id (m : Run A) (V : A -> DB -> Prop) : whole db ->
  (forall j (q : document payloads), docs payloads db !! j = Some q -> ydState q = payloadStateReady -> Inline q = None -> FileID q <> id) ->
  (forall st, wp true m st (fun r st' => beside id (world st) (world st') /\ forall a, r = Ok a -> V a (durable (world st')))) ->
  safe db m (fun a db' => apart id db db' /\ V a db').
Proof using Type.
  intros Hw Hno Hm st Hd. eapply wp_mono; [apply Hm|]. intros r st' [[_ Hb] HV]. rewrite Hd in Hb. split; [by eapply whole_apart|]. intros a E. split; [done|by apply HV].
Qed.

Lemma upload_safe db (p : document payloads) (reader : Source W) : whole db -> reserved ref n p db -> ydState p = payloadStateUploading ->
  (forall k, outside (Read reader k)) -> (forall k, outside (ReadLimited reader k)) ->
  safe db (uploadContent s Plain p ref n reader) (fun inline db' => docs payloads db' = docs payloads db /\ content_of p inline db').
Proof.
  intros Hw (Hp & Hrow & _) Hup Hr1 Hr2. pose proof (wh_rows _ _ _ Hw _ _ Hp) as Hok. unfold uploadContent. rewrite Hlimit. destruct (Z.leb_spec n limit) as [|Hlt].
  - eapply safe_then; [by apply inline_safe|]. intros data db' Hw' (-> & ? & ?). by apply safe_ret.
  - assert (Hfile : FileID p <> noFile) by (apply (ok_file _ _ _ _ _ Hok n); [done|by apply (validatePayload_Ok _ _ Hvalid)|apply Hrow|done]).
    assert (Hno := unready_file K limit db _ p Hw Hp ltac:(by rewrite Hup) Hfile).
    eapply safe_then; [eapply (filing_safe db (FileID p) _ (fun _ _ => True)); [done|exact Hno|]|].
    { intros st. eapply wp_mono; [apply remove_wp|]. intros r st' [? _]. by split. }
    intros [] db1 Hw1 [[Hd1 _] _].
    assert (Hno1 : forall j (q : document payloads), docs payloads db1 !! j = Some q -> ydState q = payloadStateReady -> Inline q = None -> FileID q <> FileID p).
    { intros j q. rewrite (Hd1 payloads). apply Hno. }
    eapply safe_then; [eapply (filing_safe db1 (FileID p) _ (fun (_ : unit) db' => published db' (FileID p) (blobMetadataOf s p ref))); [done|exact Hno1|]|].
    { intros st. eapply wp_mono; [apply upload_wp|]; [intros r k [= <-]; apply Hr1|]. intros r st' [[? _] Hpub]. split; [done|]. intros [] ->. by apply Hpub. }
    intros [] db2 Hw2 [[Hd2 _] Hpub]. apply safe_ret; [done|]. split; [|done]. by rewrite (Hd2 payloads), (Hd1 payloads).
Qed.

Lemma publish_safe db (reader : option (Source W)) : whole db -> (forall r, reader = Some r -> forall k, outside (Read r k) /\ outside (ReadLimited r k)) ->
  safe db (PublishPayload s Plain ref reader) (fun _ db' => is_ready s db' ref).
Proof.
  intros Hw Hr. unfold PublishPayload. rewrite Hvalid. apply safe_value; [done|]. intros _ [= <-].
  destruct reader as [reader|]; [|by apply safe_fail]. assert (Hr1 : forall k, outside (Read reader k)) by (intros k; by apply (Hr reader)).
  assert (Hr2 : forall k, outside (ReadLimited reader k)) by (intros k; by apply (Hr reader)).
  eapply safe_then; [by apply reserve_safe|]. intros p db1 Hw1 (Hp & Hrow & Hst).
  assert (Hready : forall q db2, row_of ref n q -> docs payloads db2 !! payloadID s ref = Some q -> ydState q = payloadStateReady -> is_ready s db2 ref).
  { intros q db2 [] Hq Hs. exists q. split_and!; try done. rewrite encoded_length. by f_equal. }
  case_bool_decide as Es; [apply safe_ret; [done|by eapply Hready]|]. destruct Hst as [?|Hup]; [done|].
  eapply safe_then; [apply upload_safe; [done| |done..]; split_and!; [done|done|by right]|]. intros inline db2 Hw2 [Hd2 Hc].
  eapply safe_then; [by apply safe_ObjectID|]. intros guard db' _ (-> & _ & _). rewrite <- Hd2 in Hp. pose proof (wh_rows _ _ _ Hw2 _ _ Hp) as Hok.
  eapply safe_then; [eapply (safe_write _ _ _ (fun k db' => k = 1 -> is_ready s db' ref)); [intros; by eapply (UpdateOne_law Plain payloads)|done|]|].
  - intros now k db'. unfold updateEffect, matching. rewrite (ro_id _ _ _ Hrow), Hp. destruct (_ && _); intros [= <- <-]; [|done]. set (p' := readied _ _ _ _ _).
    assert (Hrow' : row_of ref n p') by (destruct Hrow; by constructor). split.
    + apply whole_store; [done| | |right; left; by exists p].
      * destruct Hok as [R1 R2 R3 R4 R5 R6]. constructor; try done. intros _. unfold has_content, p', readied. cbn. rewrite (R5 Hup).
        destruct (validatePayload_Ok _ _ Hvalid) as (_ & Hn & El & _). destruct Hrow as [_ Ec Ed Elen]. destruct inline as [data|].
        -- destruct Hc as [Hlen Hsha]. rewrite Hlen, Hsha. by split_and!.
        -- destruct Hc as [Hlt Hpub]. split; [by apply (R6 n)|]. exists n. split_and!; [done|done|]. unfold blobMetadataOf in Hpub. rewrite El in Hpub. rewrite Ec, Ed. exact Hpub.
      * right. eapply unready_unreferenced; [done|]. intros q Hq. simplify_eq. by rewrite Hup.
    + intros _. eapply Hready; [exact Hrow'| |done]. unfold store. by rewrite docs_put, lookup_insert_eq.
  - intros k db3 Hw3 Hk. destruct (Z.eqb_spec k 1); [by apply safe_ret; [|apply Hk]|by apply safe_fail].
Qed.

(** *** Pinning, releasing and copying *)

Lemma safe_transaction {A} db (body : Context -> Run A) (Q : A -> DB -> Prop) : whole db ->
  tx db (body InSession) (fun r db' => forall a, r = Ok a -> Q a db') -> (forall a d, Q a d -> whole d) ->
  safe db ('(_, r) ← runTransaction s Plain body; lift r) Q.
Proof.
  intros Hw Htx HQ. apply leaves_bind. eapply leaves_mono; [by apply leaves_transaction|]. intros r db' Hs.
  assert (Hw' : whole db') by (eapply (settled_always db db' Q whole); [exact Hs|done|exact HQ]). destruct r as [[o r]|e|]; [|by split..]. apply leaves_lift. split; [done|]. intros a ->.
  by destruct o.
Qed.

Lemma pin_safe db owner : whole db -> safe db (PinPayload s Plain ref owner) (fun _ db' => is_ready s db ref).
Proof.
  intros Hw. unfold PinPayload. apply safe_value; [done|]. intros _ _. destruct (validOwner owner); [|by apply safe_fail]. cbn [negb].
  eapply safe_mono; [apply (safe_transaction db (fun ctx => pinPayload s ctx ref owner) (fun _ db' => kept db db' /\ is_ready s db ref)); [done| |]|].
  - eapply tx_mono; [apply pin_tx|]. intros r db' Hr [] E. by destruct (Hr E) as (? & ? & _).
  - intros _ d [Hk _]. by eapply whole_kept.
  - by intros _ db' _ [_ ?].
Qed.

Lemma release_safe db owner : whole db -> safe db (ReleasePayload s Plain ref owner) (fun _ _ => True).
Proof.
  intros Hw. unfold ReleasePayload. apply safe_value; [done|]. intros _ _. destruct (validOwner owner); [|by apply safe_fail]. cbn [negb].
  eapply safe_mono; [apply (safe_transaction db _ (fun _ db' => whole db')); [done| |done]|done].
  apply (MongoEffects.tx_lookup db references); [intros []; repeat first [apply inside_touch | inside_step]|done| | |].
  - intros d _. apply tx_bind; [intros; repeat inside_step|]. eapply tx_mono; [apply touch_tx|]. intros [[]|e|] db1 Hr; [|done..].
    destruct Hr as [Eu _]. assert (Hw1 : whole db1) by (eapply whole_kept; [by apply unguarded_kept|done]).
    apply tx_bind; [intros; repeat inside_step|]. apply (tx_DeleteOne db1 references); [by intros db'; split| | |done].
    + intros d' _. apply tx_ret. intros [] _. by apply whole_release.
    + intros _. by apply tx_ret.
  - intros _. by apply tx_ret.
  - intros e db' _ Hne. destruct e; try done; by apply tx_lift.
Qed.

Lemma copyPinned_safe db (writer : Writer W) : whole db -> (forall data, outside (writer data)) -> safe db (copyPinned s Plain ref writer) (fun _ _ => True).
Proof.
  intros Hw Hout. unfold copyPinned. apply leaves_bind. eapply leaves_mono; [by apply (safe_FindOne db payloads)|]. intros [p|e|] db' [-> _]; [|by split..].
  destruct (Inline p) as [data|].
  - apply safe_value; [done|]. intros m Em. assert (m = n) as -> by (clear -Em Hvalid; congruence).
    apply safe_then with (V := fun reader db' => db' = db /\ forall k, outside (ReadLimited reader k)).
    { intros st Hd. eapply wp_mono; [apply bytesReader_wp|]. intros r st' (E & reader & -> & _ & Hr). subst st'. split; [by subst db|]. intros a [= <-]. by subst db. }
    intros reader db' _ [-> Hr]. eapply safe_then; [by apply inline_safe|]. intros verified db' _ (-> & _).
    unfold writeInline. apply safe_then with (V := fun _ db' => db' = db); [by apply leaves_inert|]. intros [written err] db' _ ->.
    apply safe_then with (V := fun _ db' => db' = db); [intros st <-; by split|]. intros _ db' _ ->.
    destruct err; [by apply safe_fail|]. destruct (negb _); [by apply safe_fail|by apply safe_ret].
  - intros st Hd. eapply wp_mono; [by apply copy_wp|]. intros r st' [[E _] _]. by rewrite E, Hd.
Qed.

Lemma safe_errors db (o : option error) : whole db -> safe db (fail o) (fun _ _ => True).
Proof using Type. intros Hw. destruct o; [by apply safe_fail|by apply safe_ret]. Qed.

Lemma copy_safe db (writer : option (Writer W)) : whole db -> (forall w, writer = Some w -> forall data, outside (w data)) ->
  safe db (CopyPayload s Plain ref writer) (fun _ _ => True).
Proof.
  intros Hw Hout. unfold CopyPayload. destruct writer as [writer|]; [|by apply safe_fail].
  apply safe_then with (V := fun _ db' => db' = db); [apply safe_same; [|done|done]; intros w r w' E; by apply NewUUID_law in E as [? _]|]. intros uuid db' _ ->.
  eapply safe_then; [by apply pin_safe|]. intros [] db1 Hw1 _.
  eapply safe_then; [eapply safe_attempt, copyPinned_safe; [done|by apply Hout]|]. intros copied db2 Hw2 _.
  eapply safe_then; [by eapply safe_attempt, release_safe|]. intros released db3 Hw3 _. by apply safe_errors.
Qed.

(** *** Collecting *)

(** A payload whose deletion is claimed. *)
Definition doomed (p : document payloads) (db : DB) : Prop :=
  docs payloads db !! payloadID s ref = Some p /\ ydState p = payloadStateDeleting.

Lemma claim_tx db (old : document payloads) next : whole db -> docs payloads db !! payloadID s ref = Some old ->
  tx db (claimExpiredPayloadTx s InSession ref old next) (fun r db' => forall p, r = Ok p -> whole db' /\ doomed p db').
Proof.
  intros Hw Hold. pose proof (wh_rows _ _ _ Hw _ _ Hold) as Hok. unfold claimExpiredPayloadTx. rewrite (ok_id _ _ _ _ _ Hok).
  apply tx_bind; [intros; repeat inside_step|]. apply tx_same; [intros; by eapply NewObjectID_law|intros guard|done].
  apply tx_bind; [intros; repeat inside_step|]. eapply tx_writing; [apply (inside_FindOneAndUpdate payloads)|intros; by eapply (FindOneAndUpdate_law InSession payloads)|by intros db'; split| |done].
  intros now p db1. unfold findAndUpdateEffect, matching. rewrite Hold. destruct (_ && _); [|done]. intros [= <- <-]. set (p := claimedForDeletion _ _ _ _ _ _).
  apply tx_bind; [intros; repeat inside_step|]. eapply (tx_reading _ (CountDocuments InSession references (refersTo s ref)));
    [intros w r w' E; exact (CountDocuments_law InSession references _ _ _ _ E)|by intros db'; split| |done|done].
  intros now' k Hk. destruct (Z.eqb_spec k 0) as [->|]; [|by apply tx_lift]. apply tx_ret. intros p' [= <-].
  destruct (Hk 0 eq_refl) as [_ [Hzero _]]. specialize (Hzero eq_refl). unfold store in Hzero. rewrite docs_put_other in Hzero by done. split.
  - apply whole_store; [done| | |right; left; by exists old].
    + destruct Hok. by constructor.
    + right. intros j m Hm E. destruct (wh_references _ _ _ Hw j m Hm) as (q & Hq & E1 & E2 & _). rewrite E in Hq. assert (q = old) as -> by congruence.
      specialize (Hzero j m Hm). unfold refersTo in Hzero. rewrite <- E1, <- E2 in Hzero.
      assert (ydChain old = chainID s /\ ydDigest old = Digest ref) as [F1 F2] by (apply distinct; [apply Hok|done|symmetry; apply Hok]).
      by rewrite F1, F2, !bool_decide_true in Hzero by done.
  - unfold doomed, store. by rewrite docs_put, lookup_insert_eq.
Qed.

Lemma claim_safe db (old : document payloads) : whole db -> docs payloads db !! payloadID s ref = Some old ->
  safe db (claimExpiredPayload s Plain ref old) doomed.
Proof.
  intros Hw Hold. assert (Hid : yd_ID old = payloadID s ref) by apply (wh_rows _ _ _ Hw _ _ Hold). unfold claimExpiredPayload. apply safe_value; [done|]. intros next _.
  apply leaves_bind. eapply leaves_mono; [apply (leaves_transaction s db _ (fun p db' => whole db' /\ doomed p db')); by apply claim_tx|].
  intros r db' Hs. assert (Hw' : whole db') by (eapply (settled_always db db' _ whole); [exact Hs|done|by intros p d [? _]]).
  destruct r as [[o r]|e|]; [|by split..]. destruct r as [p|e|]; [by destruct o; try done; destruct Hs; apply safe_ret| |by apply safe_lift].
  case_bool_decide; [|by apply safe_fail]. cbn [negb]. apply leaves_bind, leaves_attempt. rewrite Hid. eapply leaves_mono; [by apply (safe_FindOne db' payloads)|].
  intros [p|e'|] db'' [-> Hr]; [|by apply safe_fail|by split]. destruct Hr as [Hp [now Hc]]. apply safe_ret; [done|]. split; [done|].
  unfold inState in Hc. rewrite !andb_true_iff, !bool_decide_eq_true in Hc. apply Hc.
Qed.

Lemma finish_safe db (p : document payloads) : whole db -> doomed p db ->
  safe db (finishPayloadDeletion Plain p) (fun _ db' => exists p' : document payloads, docs payloads db' !! payloadID s ref = Some p' /\ ydState p' = payloadStateDeleted).
Proof.
  intros Hw [Hp Hd]. assert (Hid : yd_ID p = payloadID s ref) by apply (wh_rows _ _ _ Hw _ _ Hp). unfold finishPayloadDeletion.
  apply safe_then with (V := fun _ db' => docs payloads db' = docs payloads db).
  { destruct (Z.eqb_spec (FileID p) noFile) as [|Hne]; [by apply safe_ret|]. cbn [negb].
    eapply safe_mono; [eapply (filing_safe db (FileID p) _ (fun _ _ => True)); [done|eapply unready_file; [done|exact Hp|by rewrite Hd|done]|]|].
    - intros st. eapply wp_mono; [apply remove_wp|]. intros r st' [? _]. by split.
    - intros _ db' _ [[E _] _]. apply (E payloads). }
  intros _ db1 Hw1 E1. rewrite <- E1 in Hp. eapply safe_then; [by apply safe_ObjectID|]. intros guard db' _ (-> & _ & _).
  eapply safe_then; [eapply (safe_write _ _ _ (fun k db' => k = 1 -> exists p' : document payloads, docs payloads db' !! payloadID s ref = Some p' /\ ydState p' = payloadStateDeleted));
    [intros; by eapply (UpdateOne_law Plain payloads)|done|]|].
  - intros now k db'. unfold updateEffect, matching. rewrite Hid, Hp. destruct (inState _ _ _ _); intros [= <- <-]; [|done]. pose proof (wh_rows _ _ _ Hw1 _ _ Hp) as Hok. split.
    + apply whole_store; [done| | |right; left; by exists p].
      * destruct Hok. by constructor.
      * right. eapply unready_unreferenced; [done|]. intros q Hq. assert (q = p) as -> by congruence. by rewrite Hd.
    + intros _. eexists. unfold store. by rewrite docs_put, lookup_insert_eq.
  - intros k db3 Hw3 Hk. destruct (Z.eqb_spec k 1); [by apply safe_ret; [|apply Hk]|by apply safe_fail].
Qed.

Lemma collect_safe db : whole db -> safe db (CollectPayload s Plain ref) (fun _ db' =>
  forall p : document payloads, docs payloads db' !! payloadID s ref = Some p -> ydState p = payloadStateDeleted).
Proof.
  intros Hw. unfold CollectPayload. apply safe_value; [done|]. intros _ _. unfold loadCollectablePayload.
  apply safe_then with (V := fun o db' => db' = db /\ match o with
    | Some p => docs payloads db !! payloadID s ref = Some p
    | None => forall p : document payloads, docs payloads db !! payloadID s ref = Some p -> ydState p = payloadStateDeleted end).
  { apply leaves_bind, leaves_attempt. eapply leaves_mono; [by apply (safe_FindOne db payloads)|]. intros [p|e|] db' [-> Hr]; [| |by split].
    - destruct Hr as [Hp _]. case_bool_decide; [|by apply safe_fail]. cbn [negb]. case_bool_decide; apply safe_ret; try done. split; [done|]. intros q Hq. congruence.
    - destruct e; try by apply safe_fail. destruct Hr as [now Hr]. apply safe_ret; [done|]. split; [done|]. intros p Hp. unfold matching in Hr. cbn [document] in *. by rewrite Hp in Hr. }
  intros [p|] db' _ [-> Hp]; [|by apply safe_ret].
  eapply safe_then; [|intros q db1 Hw1 Hq; eapply safe_mono; [by apply finish_safe|]].
  - case_bool_decide as E; cbn [negb]; [by apply safe_ret|by apply claim_safe].
  - intros _ db2 _ (p' & Hp' & Hs) q' Hq'. congruence.
Qed.

End Operations.

End MongoRetention.
