(* ===== verification/MongoPayloads.v ===== *)
(** * What payloads promise

    A copy that succeeds has delivered the bytes of its reference; what is referenced stays
    stored, across the operations of any nodes of a chain. *)

From S2P Require Import Prelude Bytes Sha256 Decimal Runs Traced Admission EngineTypes AdmissionPlan.
From S2P Require Import MongoEncoding MongoDriver MongoModel MongoTransaction MongoRules MongoBlob MongoBlobModel MongoPlan MongoPayload MongoAdmission MongoContent.
From S2P Require Import MongoEffects MongoOperation MongoCommit MongoAtomic MongoRetention.
Import Admission MongoEncoding MongoTransaction MongoBlob MongoPayload MongoContent MongoRetention.
Open Scope Z_scope.

Module MongoPayloads.

(** ** What a copy delivers *)

Section Delivery.
Context {W : Type} `{!Mongo W, !MongoState W, !GridFS W, !GridFSState W} {laws : MongoLaws W} {blobLaws : GridFSLaws W}.
Context (s : Store) (ref : AdmissionPayloadRef).
Local Abbreviation St := (St W tevent).
Local Abbreviation Run := (Runs.Run St).
#[local] Set Default Proof Using "Type laws blobLaws".

Definition silent (ev : tevent) : Prop := match ev with Consumed _ | Delivered _ => False | _ => True end.

Lemma silent_bytes tr : Forall silent tr -> delivered tr = [].
Proof using Type. induction 1 as [|ev tr Hev _ IH]; [done|]. unfold delivered. cbn. fold (delivered tr). rewrite IH. by destruct ev. Qed.

Lemma emits_still (st st' : St) : trace st' = trace st -> emits silent st st'.
Proof using Type. intros E. exists []. by rewrite app_nil_r. Qed.

Lemma commits_silent k ambiguous lastErr (st : St) : wp true (commitAttempts k ambiguous lastErr) st (fun _ st' => emits silent st st').
Proof using Type.
  revert ambiguous lastErr st. induction k as [|k IH]; intros ambiguous lastErr st; cbn [commitAttempts]; [apply wp_ret, emits_refl|].
  apply wp_bind, wp_attempted, wp_observe. intros r w _. assert (H1 : emits silent st (mkSt w (trace st ++ [CommitTried r]))) by (exists [CommitTried r]; split; [done|by repeat constructor]).
  destruct r as [[]|e|]; [by apply wp_ret| |done]. destruct (negb _ && _); [by apply wp_ret|].
  apply wp_bind, wp_attempted, wp_driver. intros b w' _. cbn [world trace].
  assert (H2 : emits silent st (mkSt w' (trace st ++ [CommitTried (Err e)]))) by exact H1.
  destruct b as [[]|b|]; [eapply wp_mono; [apply IH|intros ? ?; by apply emits_trans]|by apply wp_ret|done].
Qed.

Lemma bodies_silent {A} k (body : Context -> Run A) lastErr (st : St) :
  (forall st, wp true (body InSession) st (fun _ st' => trace st' = trace st)) -> wp true (bodyAttempts s k body lastErr) st (fun _ st' => emits silent st st').
Proof using Type.
  intros Hbody. revert lastErr st. induction k as [|k IH]; intros lastErr st; cbn [bodyAttempts]; [apply wp_ret, emits_refl|].
  apply wp_bind, wp_attempted, wp_driver. intros r w _. destruct r as [[]|e|]; [|by apply wp_ret, emits_still|by apply emits_still].
  apply wp_bind, wp_attempted, wp_driver. intros r w' _. cbn [world trace]. destruct r as [[]|e|]; [|by apply wp_ret, emits_still|by apply emits_still].
  apply wp_bind. unfold runTransactionBody. apply wp_bind, wp_attempted. eapply wp_mono; [apply Hbody|]. cbn [trace]. intros r st1 Et.
  assert (H1 : forall b, emits silent st (mkSt (world st1) (trace st1 ++ [BodyDone b]))) by (intros b; rewrite Et; exists [BodyDone b]; split; [done|by repeat constructor]).
  assert (H0 : emits silent st st1) by (exists []; by rewrite app_nil_r).
  destruct r as [a|e|]; [| |exact H0]; apply wp_bind; cbn [wp emit]; apply wp_ret.
  - apply wp_bind. unfold commitTransactionAttempt. eapply wp_mono; [apply commits_silent|]. intros r st2 H2. assert (H3 : emits silent st st2) by (eapply emits_trans; [apply (H1 true)|exact H2]).
    destruct r as [[[o []] err]|e|]; [|by apply wp_ret|done..]. eapply wp_mono; [apply IH|]. intros ? ?. by apply emits_trans.
  - unfold handleBodyFailure. apply wp_bind, wp_bind, wp_attempted, wp_observe. intros ra w2 _. cbn [world trace].
    assert (H2 : emits silent st (mkSt w2 ((trace st1 ++ [BodyDone false]) ++ [AbortTried ra]))) by (eapply emits_trans; [apply (H1 false)|]; exists [AbortTried ra]; split; [done|by repeat constructor]).
    destruct ra as [[]|e'|]; [| |done]; apply wp_ret; [destruct (hasErrorLabel e _)|]; [|by apply wp_ret..].
    eapply wp_mono; [apply IH|]. intros ? ?. by apply emits_trans.
Qed.

Lemma transaction_silent {A} (body : Context -> Run A) (st : St) : inside (body InSession) -> wp true (runTransaction s Plain body) st (fun _ st' => emits silent st st').
Proof using Type.
  intros Hin. unfold runTransaction. apply wp_bind, wp_attempted, wp_driver. intros r w _. destruct r as [[]|e|]; [|by apply wp_ret, emits_still|by apply emits_still].
  apply wp_afterwards. eapply wp_mono; [apply (bodies_silent _ body)|]; [intros st'; eapply wp_mono; [apply Hin|by intros ? ? (_ & ? & _)]|].
  intros r st1 H1. unfold endTransactionSession. apply wp_driver. intros r' w' _. exact H1.
Qed.

Lemma pin_silent owner (st : St) : wp true (PinPayload s Plain ref owner) st (fun _ st' => emits silent st st').
Proof.
  unfold PinPayload. apply wp_bind, wp_lift. destruct (validatePayload s ref); [|apply emits_refl..]. destruct (negb _); [apply wp_lift, emits_refl|].
  apply wp_bind. eapply wp_mono; [by apply (transaction_silent (fun ctx => pinPayload s ctx ref owner)), inside_pin|]. by intros [[o r]|e|] st' Hs; [apply wp_lift|..].
Qed.

Lemma release_silent owner (st : St) : wp true (ReleasePayload s Plain ref owner) st (fun _ st' => emits silent st st').
Proof.
  unfold ReleasePayload. apply wp_bind, wp_lift. destruct (validatePayload s ref); [|apply emits_refl..]. destruct (negb _); [apply wp_lift, emits_refl|].
  apply wp_bind. eapply wp_mono; [apply transaction_silent; repeat first [apply inside_touch | inside_step]|]. by intros [[o r]|e|] st' Hs; [apply wp_lift|..].
Qed.

(** What a copy that ends with [r] has given to its writer. *)
Definition gives (st st' : St) (r : result unit) : Prop := exists tr, trace st' = trace st ++ tr /\ len (delivered tr) <= blobMaxBytes /\
  (r = Ok tt -> sha256Hex (delivered tr) = Digest ref /\ ByteLength ref = FormatUint (len (delivered tr))).

Lemma gives_nothing (st st' : St) r : trace st' = trace st -> r <> Ok tt -> gives st st' r.
Proof using Type. intros Et Hr. exists []. rewrite app_nil_r. split_and!; [done|by vm_compute|done]. Qed.

Lemma prefix_len {A} (l k : list A) : l `prefix_of` k -> len l <= len k.
Proof using Type. intros Hp%prefix_length. unfold len. lia. Qed.

Lemma inline_wp n readLimited (st : St) : (forall k, outside (readLimited k)) -> wp true (readInlinePayload readLimited ref n) st
  (fun r st' => trace st' = trace st /\ forall data, r = Ok data -> len data = n /\ n <= Z.shiftl 1 20 /\ sha256Hex data = Digest ref).
Proof.
  intros Hout. unfold readInlinePayload. destruct (Z.ltb_spec (Z.shiftl 1 20) n) as [|Hn]; [by apply wp_lift|]. apply wp_bind, wp_driver. intros r w _. destruct r as [[]|e|]; [|done..].
  apply wp_bind. eapply wp_mono; [apply Hout|]. cbn [trace]. intros [data|e|] st1 [Et _]; [|done..]. apply wp_bind, wp_driver. intros r w' _. destruct r as [[]|e|]; [|done..].
  destruct (Z.eqb_spec (len data) n) as [El|]; [|by apply wp_lift]. case_bool_decide; [|by apply wp_lift]. apply wp_ret. split; [done|]. by intros data' [= <-].
Qed.

Lemma copyPinned_wp n (writer : Writer W) (st : St) : validatePayload s ref = Ok n -> (forall data, outside (writer data)) -> wp true (copyPinned s Plain ref writer) st (fun r st' => gives st st' r).
Proof.
  intros Hvalid Hout. unfold copyPinned. apply wp_bind, wp_driver. intros r w _. destruct r as [p|e|]; [|by apply gives_nothing..].
  destruct (validatePayload_Ok s _ _ Hvalid) as (_ & Hn & El & _). destruct (Inline p) as [data|].
  - rewrite Hvalid. apply wp_bind, wp_lift, wp_bind. eapply wp_mono; [apply bytesReader_wp|]. intros r st1 (-> & reader & -> & _ & Hr).
    apply wp_bind. eapply wp_mono; [by apply inline_wp|]. cbn [trace]. intros [verified|e|] st2 [Et2 Hv]; [|by apply gives_nothing..].
    destruct (Hv verified eq_refl) as (Hlen & Hmax & Hsha). unfold writeInline. apply wp_bind. eapply wp_mono; [apply Hout|]. intros r st3 [Et3 _].
    assert (Et : trace st3 = trace st) by congruence. destruct r as [[written err]|e|]; [|by apply gives_nothing..]. apply wp_bind. cbn [wp emit].
    assert (Hgive : forall r, (r = Ok tt -> written = len verified) -> gives st (mkSt (world st3) (trace st3 ++ [Delivered (take (Z.to_nat written) verified)])) r).
    { intros r Hw. exists [Delivered (take (Z.to_nat written) verified)]. cbn [trace]. rewrite Et. change (delivered [Delivered (take (Z.to_nat written) verified)]) with (take (Z.to_nat written) verified ++ []).
      rewrite app_nil_r. pose proof (prefix_len (take (Z.to_nat written) verified) verified (prefix_take _ _)) as Hp. assert (Z.shiftl 1 20 <= blobMaxBytes) by (by vm_compute).
      split_and!; [done|lia|]. intros E. rewrite (Hw E). replace (Z.to_nat (len verified)) with (length verified) by (unfold len; lia). rewrite firstn_all. split; [done|by rewrite Hlen]. }
    destruct err as [e|]; [by apply wp_lift, Hgive|]. destruct (Z.eqb_spec written (len verified)); [apply wp_ret|apply wp_lift]; by apply Hgive.
  - eapply wp_mono; [by apply copy_wp|]. intros r st' (_ & tr & Et & Hp & Hl & Hok). exists tr. apply prefix_len in Hp. split_and!; [done|lia|].
    intros E. destruct (Hok E) as (? & ? & _). done.
Qed.

Lemma gives_silent (st st1 st2 st' : St) r r' : emits silent st st1 -> gives st1 st2 r -> emits silent st2 st' -> (r' = Ok tt -> r = Ok tt) -> gives st st' r'.
Proof using Type.
  intros (t1 & E1 & S1%silent_bytes) (t2 & E2 & Hl & Hr) (t3 & E3 & S3%silent_bytes) Hr'. exists (t1 ++ t2 ++ t3).
  rewrite !delivered_app, S1, S3, app_nil_l, app_nil_r. split_and!; [by rewrite E3, E2, E1, !app_assoc|done|auto].
Qed.

Lemma join_none (e1 e2 : option error) : join e1 e2 = None -> e1 = None /\ e2 = None.
Proof using Type. by destruct e1, e2. Qed.

Lemma fail_Ok (o : option error) (Q : result unit -> St -> Prop) st : Q (match o with Some e => Err e | None => Ok tt end) st -> wp true (fail o) st Q.
Proof using Type. by destruct o. Qed.

Lemma CopyPayload_wp (writer : option (Writer W)) (st : St) : (forall w, writer = Some w -> forall data, outside (w data)) ->
  wp true (CopyPayload s Plain ref writer) st (fun r st' => gives st st' r).
Proof.
  intros Hout. unfold CopyPayload. destruct writer as [writer|]; [|by apply gives_nothing]. specialize (Hout writer eq_refl).
  apply wp_bind, wp_driver. intros uuid w _. destruct uuid as [uuid|e|]; [|by apply gives_nothing..].
  assert (H0 : forall st' : St, emits silent (mkSt w (trace st)) st' -> emits silent st st') by (intros st'; by apply (emits_trans silent st (mkSt w (trace st)) st'), emits_still).
  assert (Hstop : forall (r : result unit) (st' : St), emits silent st st' -> r <> Ok tt -> gives st st' r).
  { intros r st' H1 Hr. eapply (gives_silent st st' st' st' r); [done|by apply gives_nothing|apply emits_refl|done]. }
  destruct (validatePayload s ref) as [n|e|] eqn:Hvalid.
  2,3: apply wp_bind; unfold PinPayload; rewrite Hvalid; apply wp_bind, wp_lift, Hstop; [by apply emits_still|done].
  apply wp_bind. eapply wp_mono; [apply pin_silent|]. intros r st1 H1%H0. destruct r as [[]|e|]; [|by apply Hstop..].
  apply wp_bind, wp_attempted. eapply wp_mono; [by eapply copyPinned_wp|]. intros r st2 H2.
  assert (Hrel : forall o : option error, (o = None -> r = Ok tt) -> wp true (released ← attempt (ReleasePayload s Plain ref (readOwner s uuid)); fail (join o (errOf released))) st2 (fun r' st' => gives st st' r')).
  { intros o Ho. apply wp_bind, wp_attempted. eapply wp_mono; [apply release_silent|]. intros released st3 H3.
    assert (Hend : forall r' : result unit, (r' = Ok tt -> o = None) -> gives st st3 r') by (intros r' Hr'; eapply gives_silent; [exact H1|exact H2|exact H3|by intros E%Hr'%Ho]).
    destruct released as [[]|e|]; [apply fail_Ok, Hend..|by apply Hend]; intros E; [destruct o; done|by destruct o]. }
  destruct r as [[]|e|]; [by apply (Hrel None)|by apply (Hrel (Some e))|]. eapply gives_silent; [exact H1|exact H2|apply emits_refl|done].
Qed.

End Delivery.

(** ** What is referenced stays *)

Section Nodes.
Context {W : Type} `{!Mongo W, !MongoState W, !GridFS W, !GridFSState W} {laws : MongoLaws W} {blobLaws : GridFSLaws W}.
Context (K : list (list byte * list byte)) (limit : Z).
Local Abbreviation Run := (Runs.Run (St W tevent)).
Local Abbreviation whole := (whole K limit).

(** The calls that touch payloads; each is made by some node of a chain. *)
Inductive payloadCall :=
  | Publish (ref : AdmissionPayloadRef) (reader : option (Source W))
  | Pin (ref : AdmissionPayloadRef) (owner : ReferenceOwner)
  | Release (ref : AdmissionPayloadRef) (owner : ReferenceOwner)
  | Copy (ref : AdmissionPayloadRef) (writer : option (Writer W))
  | Collect (ref : AdmissionPayloadRef)
  | Commit (plan : AdmissionCommit)
  | Reconcile (key : AdmissionOperationKey) (attemptID : option (list byte)).

Definition perform (s : Store) (c : payloadCall) : Run unit :=
  match c with
  | Publish ref reader => PublishPayload s Plain ref reader
  | Pin ref owner => PinPayload s Plain ref owner
  | Release ref owner => ReleasePayload s Plain ref owner
  | Copy ref writer => CopyPayload s Plain ref writer
  | Collect ref => CollectPayload s Plain ref
  | Commit plan => MongoOperation.CommitAdmission s Plain plan ≫= fun _ => mret tt
  | Reconcile key attemptID => MongoOperation.ReconcileAdmission s Plain key attemptID ≫= fun _ => mret tt
  end.

(** One call after the other, whatever each of them reports. *)
Definition performAll (cs : list (Store * payloadCall)) : Run unit :=
  forEach (fun c => attempt (perform c.1 c.2) ≫= fun _ => mret tt) cs.

(** The digests are among those in use; readers and writers do not use the store. *)
Definition proper (c : Store * payloadCall) : Prop :=
  InlineLimit (config c.1) = limit /\
  match c.2 with
  | Publish ref reader => (chainID c.1, Digest ref) ∈ K /\ forall r, reader = Some r -> forall k, outside (Read r k) /\ outside (ReadLimited r k)
  | Pin ref _ | Release ref _ | Collect ref => (chainID c.1, Digest ref) ∈ K
  | Copy ref writer => (chainID c.1, Digest ref) ∈ K /\ forall w, writer = Some w -> forall data, outside (w data)
  | Commit _ | Reconcile _ _ => True
  end.

Lemma whole_elsewhere s key db db' : MongoCommit.elsewhere s key db db' -> whole db -> whole db'.
Proof using Type. intros [Hd _ Hf]. by apply whole_proper; [apply Hd|apply Hd|]. Qed.

Lemma whole_admitted s plan db db' : MongoAtomic.admitted s plan db db' -> whole db -> whole db'.
Proof using Type.
  intros (db1 & db2 & H1 & [_ Ha] & H2 & _) Hw. eapply whole_elsewhere; [exact H2|].
  destruct (MongoEffects.ad_content _ _ _ _ Ha) as (db3 & Hk & Ep & Er & Ef). eapply whole_proper; [exact Ep|exact Er|exact Ef|].
  eapply whole_kept; [exact Hk|]. by eapply whole_elsewhere.
Qed.

Lemma commit_safe s plan db : whole db -> safe K limit db (MongoOperation.CommitAdmission s Plain plan) (fun _ _ => True).
Proof using laws.
  intros Hw st <-. eapply wp_mono; [apply MongoAtomic.CommitAdmission_wp|]. intros r st' Hc. split; [|done].
  assert (Hu : forall db', MongoCommit.unapplied s (comKey plan) (durable (world st)) db' -> whole db') by (intros db' [He _]; by eapply whole_elsewhere).
  assert (Ha : forall db', MongoAtomic.admitted s plan (durable (world st)) db' -> whole db') by (intros db' He; by eapply whole_admitted).
  unfold MongoAtomic.commits in Hc. destruct r as [[res err]|e|]; [|done|destruct Hc; auto].
  destruct (State res); [|destruct Hc as [?|[? _]]; auto|destruct Hc; auto|done|destruct Hc; auto].
  destruct Hc as (_ & rc & _ & [[_ ?]|[E _]]); [auto|by rewrite E].
Qed.

Lemma reconcile_safe s key attemptID db : whole db -> safe K limit db (MongoOperation.ReconcileAdmission s Plain key attemptID) (fun _ _ => True).
Proof using laws.
  intros Hw st <-.
  eapply wp_mono; [apply (MongoAtomic.ReconcileAdmission_wp s (mkAdmissionCommit key (mkIdentity (keyScope key) [] AdmissionModeLive [] []) [] [] [] []))|]. intros r st' [_ Hc]. split; [|done].
  destruct Hc as [[He _] _]. by eapply whole_elsewhere.
Qed.

Lemma perform_safe c db : no_collision K -> proper c -> whole db -> safe K limit db (perform c.1 c.2) (fun _ _ => True).
Proof using laws blobLaws.
  intros Hk [Hl Hc] Hw. destruct c as [s c]. cbn [fst snd] in *.
  destruct c as [ref reader|ref owner|ref owner|ref writer|ref|plan|key attemptID]; cbn [perform].
  - destruct Hc as [Hin Hr]. destruct (validatePayload s ref) as [n|e|] eqn:Hv; [by eapply safe_mono; [eapply publish_safe|]|unfold PublishPayload; rewrite Hv; by apply safe_value..].
  - destruct (validatePayload s ref) as [n|e|] eqn:Hv; [by eapply safe_mono; [eapply pin_safe|]|unfold PinPayload; rewrite Hv; by apply safe_value..].
  - destruct (validatePayload s ref) as [n|e|] eqn:Hv; [by eapply release_safe|unfold ReleasePayload; rewrite Hv; by apply safe_value..].
  - destruct Hc as [Hin Hr]. destruct (validatePayload s ref) as [n|e|] eqn:Hv; [by eapply copy_safe|unfold CopyPayload, PinPayload; rewrite Hv..];
      (destruct writer as [writer|]; [|by apply safe_fail]);
      (apply safe_then with (V := fun _ db' => db' = db); [apply safe_same; [|done|done]; intros w r w' E; by apply NewUUID_law in E as [? _]|]);
      intros uuid db' _ ->; apply safe_then with (V := fun _ _ => False); [by apply safe_value|by intros|by apply safe_value|by intros].
  - destruct (validatePayload s ref) as [n|e|] eqn:Hv; [by eapply safe_mono; [eapply collect_safe|]|unfold CollectPayload; rewrite Hv; by apply safe_value..].
  - eapply safe_then; [by apply commit_safe|]. intros. by apply safe_ret.
  - eapply safe_then; [by apply reconcile_safe|]. intros. by apply safe_ret.
Qed.

(** The bytes of a payload that is ready: in its row, or in its file. *)
Definition bytes_of (db : DB) (p : payloadDocument) (data : list byte) : Prop :=
  match Inline p with Some d => d = data | None => exists f, fileAt db (FileID p) = (Some f, Some data) /\ bmState (sbMetadata f) = blobStatePublished end.

Lemma whole_bytes db id n : whole db -> docs references db !! id = Some n -> exists (p : document payloads) data,
  docs payloads db !! keyID (ndChain n) (ndDigest n) = Some p /\ ydState p = payloadStateReady /\ bytes_of db p data /\
  sha256Hex data = ndDigest n /\ ydLength p = fixed20 (len data).
Proof using Type.
  intros Hw Hn. destruct (wh_references _ _ _ Hw id n Hn) as (p & Hp & _ & Ed & Hr). exists p. pose proof (ok_ready _ _ _ _ _ (wh_rows _ _ _ Hw _ _ Hp) Hr) as Hc.
  unfold has_content, bytes_of in *. destruct (Inline p) as [d|].
  - destruct Hc as (_ & El & Es). exists d. split_and!; [done|done|done|by rewrite <- Ed|done].
  - destruct Hc as (_ & m & Hm & El & data & Hf & Hsha & Hlen & Hu). exists data. cbn in Hsha, Hlen. apply FormatUint_inj in Hlen as ->; [|done..].
    split_and!; [done|done|by eexists|by rewrite <- Ed|done].
Qed.

(** C6.  What is referenced stays.  Nodes publish, pin, release, copy and collect
    payloads and commit and reconcile admissions, in any order, and the driver, GridFS,
    readers and writers answer what they like; no two digests in use have the same
    identifier.  When the payloads were in order before, then the calls end (or a
    component panics), and in the end too every reference is to a payload that is ready,
    whose bytes are stored, in its row or in its published file, with the digest of the
    reference and the length of the payload.  So nothing is collected that is referred
    to, and nothing is ready that was not verified. *)
Theorem referenced_payloads_stay (cs : list (Store * payloadCall)) (st : St W tevent)
    (Hkeys : no_collision K) (Hcalls : forall c, c ∈ cs -> proper c) (Hwhole : whole (durable (world st))) :
  exists r st', performAll cs st = Some (r, st') /\ whole (durable (world st')) /\
  forall id n, docs references (durable (world st')) !! id = Some n -> exists (p : document payloads) data,
    docs payloads (durable (world st')) !! keyID (ndChain n) (ndDigest n) = Some p /\ ydState p = payloadStateReady /\
    bytes_of (durable (world st')) p data /\ sha256Hex data = ndDigest n /\ ydLength p = fixed20 (len data).
Proof using laws blobLaws.
  assert (Hall : safe K limit (durable (world st)) (performAll cs) (fun _ _ => True)).
  { generalize dependent (durable (world st)). unfold performAll. induction cs as [|c cs IH]; intros db Hw; cbn [forEach]; [by apply safe_ret|].
    apply safe_then with (V := fun _ _ => True); [eapply safe_then; [eapply safe_attempt, perform_safe; [done|apply Hcalls; by left|done]|intros; by apply safe_ret]|].
    intros _ db' Hw' _. apply IH; [|done]. intros c' Hc'. apply Hcalls. by right. }
  apply wp_returns. eapply wp_mono; [by apply Hall|]. intros r st' [Hw _]. split; [done|]. intros id n. by apply whole_bytes.
Qed.

(** What was delivered is the payload: bytes with the digest and the length of the reference. *)
Definition copy_of (ref : AdmissionPayloadRef) (tr : list tevent) : Prop :=
  sha256Hex (delivered tr) = Digest ref /\ ByteLength ref = FormatUint (len (delivered tr)).

(** C7.  A copy is verified.  Whatever the driver, GridFS and the writer answer,
    [CopyPayload] ends (or a component panics), and has given its writer no more than the
    largest payload that is allowed; when it reports no error, then what it has given is
    the payload: bytes with the digest and the length of the reference. *)
Theorem copies_are_verified (s : Store) (ref : AdmissionPayloadRef) (writer : option (Writer W)) (st : St W tevent)
    (Hwriter : forall w, writer = Some w -> forall data, outside (w data)) :
  exists r st', CopyPayload s Plain ref writer st = Some (r, st') /\ exists tr, trace st' = trace st ++ tr /\
    len (delivered tr) <= blobMaxBytes /\
    (r = Ok tt -> copy_of ref tr).
Proof using laws blobLaws. apply wp_returns. by apply CopyPayload_wp. Qed.

(** Publishing and collecting do what they report.  On payloads that are in order,
    [PublishPayload] ends, and when it reports no error then the payload of the reference
    is ready, with bytes that have the digest and the length; [CollectPayload] ends, and
    when it reports no error then there is no payload, or its deletion is complete, and
    nothing refers to it. *)
Theorem publish_and_collect (s : Store) (ref : AdmissionPayloadRef) (reader : option (Source W)) (st : St W tevent)
    (Hkeys : no_collision K) (Hpublish : proper (s, Publish ref reader)) (Hwhole : whole (durable (world st))) :
  (exists r st', PublishPayload s Plain ref reader st = Some (r, st') /\ (r = Ok tt -> exists (p : document payloads) data,
     docs payloads (durable (world st')) !! payloadID s ref = Some p /\ ydState p = payloadStateReady /\ bytes_of (durable (world st')) p data /\
     sha256Hex data = Digest ref /\ ByteLength ref = FormatUint (len data))) /\
  (exists r st', CollectPayload s Plain ref st = Some (r, st') /\ (r = Ok tt ->
     (forall p : document payloads, docs payloads (durable (world st')) !! payloadID s ref = Some p -> ydState p = payloadStateDeleted) /\
     forall id n, docs references (durable (world st')) !! id = Some n -> ndChain n = chainID s -> ndDigest n <> Digest ref)).
Proof using laws blobLaws.
  destruct Hpublish as [Hl [Hin Hr]]. cbn [fst snd] in *. split; apply wp_returns.
  - destruct (validatePayload s ref) as [n|e|] eqn:Hv; [|unfold PublishPayload; rewrite Hv; by apply wp_bind, wp_lift..].
    eapply wp_mono; [by eapply publish_safe|]. intros r st' [Hw Hok] E. destruct (Hok tt E) as (p & Hp & _ & Ed & El & Hs).
    pose proof (ok_ready _ _ _ _ _ (wh_rows _ _ _ Hw _ _ Hp) Hs) as Hc. exists p. unfold has_content, bytes_of in *. apply EncodeUint64_Ok in El as (m & Hm & -> & El).
    destruct (Inline p) as [d|].
    + destruct Hc as (Hu & El' & Es). exists d. rewrite El' in El. apply fixed20_inj in El as <-; [|done..]. by rewrite <- Ed.
    + destruct Hc as (_ & k & Hk & El' & data & Hf & Hsha & Hlen & Hu). rewrite El' in El. apply fixed20_inj in El as <-; [|done..]. exists data. cbn in Hsha, Hlen.
      rewrite <- Ed. split_and!; [done|done| |done|done]. by eexists.
  - destruct (validatePayload s ref) as [n|e|] eqn:Hv; [|unfold CollectPayload; rewrite Hv; by apply wp_bind, wp_lift..].
    eapply wp_mono; [by eapply collect_safe|]. intros r st' [Hw Hok] E. split; [exact (Hok tt E)|]. intros id m Hm Ec Ed.
    destruct (wh_references _ _ _ Hw id m Hm) as (p & Hp & _ & _ & Hs). rewrite Ec, Ed in Hp. pose proof (Hok tt E p Hp) as Hdel. by rewrite Hs in Hdel.
Qed.

End Nodes.

(** ** Two nodes, a payload in a file and one in its row *)

Module Example.
Import MongoModel MongoBlobModel.

Definition cfg : Config :=
  mkConfig (str "overlay") (mkScope (str "main") (replicate 64 Byte.x61) (str "node")) 4 4096 Second Second Minute 3 3.
Definition s1 : Store := newStore cfg (str "owner-1").
Definition s2 : Store := newStore cfg (str "owner-2").

Definition large : list byte := str "twenty bytes of data".
Definition small : list byte := str "abc".
Definition digestL : list byte := Eval vm_compute in sha256Hex large.
Definition digestS : list byte := Eval vm_compute in sha256Hex small.
Definition refL : AdmissionPayloadRef := mkPayloadRef digestL (str "20") AdmissionPayloadBEEFManifest.
Definition refS : AdmissionPayloadRef := mkPayloadRef digestS (str "3") AdmissionPayloadRawTransaction.
Definition chain : list byte := Eval vm_compute in chainID s1.
Definition K : list (list byte * list byte) := [(chain, digestL); (chain, digestS)].

Definition start : St world tevent := mkSt (mkWorld emptyDB None 1 [] ∅ ∅) [].

Definition sourceOf (data : list byte) : Source world :=
  match bytesReader data start with Some (Ok r, _) => r | _ => mkSource (fun _ => lift Panic) (fun _ => lift Panic) end.

Lemma source_outside data k : outside (Read (sourceOf data) k) /\ outside (ReadLimited (sourceOf data) k).
Proof. destruct (bytesReader_wp data start) as [_ (r & E & H1 & H2)]. injection E as <-. by split. Qed.

Lemma buffer_outside data : outside (bufferWriter (W := world) data).
Proof. intros st. by apply wp_ret. Qed.

Definition owner : ReferenceOwner := mkOwner ReferencePin (str "job").

Definition calls : list (Store * payloadCall (W := world)) :=
  [(s1, Publish refL (Some (sourceOf large))); (s2, Publish refS (Some (sourceOf small))); (s1, Pin refL owner); (s2, Pin refS owner);
   (s2, Collect refL); (s2, Copy refL (Some bufferWriter)); (s1, Release refS owner)].

Lemma keys_distinct : no_collision K.
Proof.
  intros c1 d1 c2 d2 H1 H2. unfold K in *. rewrite !elem_of_cons, !elem_of_nil in H1, H2.
  assert (Hne : bool_decide (keyID chain digestL = keyID chain digestS) = false) by (by vm_compute). apply bool_decide_eq_false in Hne.
  destruct H1 as [[= -> ->]|[[= -> ->]|[]]], H2 as [[= -> ->]|[[= -> ->]|[]]]; intros E; [by split|by destruct (Hne E)|by destruct (Hne (eq_sym E))|by split].
Qed.

(** The two nodes have the chain of [K] and the limit of the configuration. *)
Definition node (s : Store) : Prop := chainID s = chain /\ InlineLimit (config s) = 4.

Lemma node_s1 : node s1.
Proof. split; by vm_compute. Qed.

Lemma node_s2 : node s2.
Proof. split; by vm_compute. Qed.

Lemma known s d : node s -> d = digestL \/ d = digestS -> (chainID s, d) ∈ K.
Proof. intros [-> _] [-> | ->]; unfold K; [left|right; left]. Qed.

Lemma publish_proper s ref data : node s -> Digest ref = digestL \/ Digest ref = digestS -> proper K 4 (s, Publish ref (Some (sourceOf data))).
Proof. intros Hs Hd. split; [apply Hs|]. split; [by apply known|]. intros r [= <-] k. apply source_outside. Qed.

Lemma pin_proper s ref o : node s -> Digest ref = digestL \/ Digest ref = digestS -> proper K 4 (s, Pin ref o).
Proof. intros Hs Hd. split; [apply Hs|by apply known]. Qed.

Lemma release_proper s ref o : node s -> Digest ref = digestL \/ Digest ref = digestS -> proper K 4 (s, Release ref o).
Proof. intros Hs Hd. split; [apply Hs|by apply known]. Qed.

Lemma collect_proper s ref : node s -> Digest ref = digestL \/ Digest ref = digestS -> proper K 4 (s, Collect ref).
Proof. intros Hs Hd. split; [apply Hs|by apply known]. Qed.

Lemma copy_proper s ref : node s -> Digest ref = digestL \/ Digest ref = digestS -> proper K 4 (s, Copy ref (Some bufferWriter)).
Proof. intros Hs Hd. split; [apply Hs|]. split; [by apply known|]. intros w [= <-] data. apply buffer_outside. Qed.

Lemma digest_refL : Digest refL = digestL \/ Digest refL = digestS.
Proof. by left. Qed.

Lemma digest_refS : Digest refS = digestL \/ Digest refS = digestS.
Proof. by right. Qed.

Lemma calls_proper : Forall (proper K 4) calls.
Proof.
  unfold calls. constructor; [exact (publish_proper s1 refL large node_s1 digest_refL)|]. constructor; [exact (publish_proper s2 refS small node_s2 digest_refS)|].
  constructor; [exact (pin_proper s1 refL owner node_s1 digest_refL)|]. constructor; [exact (pin_proper s2 refS owner node_s2 digest_refS)|].
  constructor; [exact (collect_proper s2 refL node_s2 digest_refL)|]. constructor; [exact (copy_proper s2 refL node_s2 digest_refL)|].
  constructor; [exact (release_proper s1 refS owner node_s1 digest_refS)|constructor].
Qed.

Lemma empty_whole : whole K 4 (durable (Traced.world start)).
Proof. by constructor. Qed.

Lemma all_succeed : match performAll calls start with Some (Ok _, st') =>
    bool_decide (size (docs references (durable (Traced.world st'))) = 1%nat) && bool_decide (size (dbFiles (durable (Traced.world st'))) = 1%nat) &&
    bool_decide (delivered (Traced.trace st') = large ++ large) | _ => false end = true.
Proof. by vm_compute. Qed.

Lemma referenced_payloads_stay_witness : exists r st', performAll calls start = Some (r, st') /\ whole K 4 (durable (Traced.world st')).
Proof. destruct (referenced_payloads_stay K 4 calls start keys_distinct (proj1 (Forall_forall _ _) calls_proper) empty_whole) as (r & st' & E & Hw & _). exists r, st'. exact (conj E Hw). Defined.

(** The state the first [n] calls leave. *)
Definition after (n : nat) : St world tevent := match performAll (take n calls) start with Some (_, st') => st' | None => start end.

Lemma copy_succeeds : match CopyPayload s2 Plain refL (Some bufferWriter) (after 3) with Some (Ok tt, st') =>
    bool_decide (delivered (drop (length (Traced.trace (after 3))) (Traced.trace st')) = large) | _ => false end = true.
Proof. by vm_compute. Qed.

Lemma publish_and_collect_succeed : match PublishPayload s1 Plain refS (Some (sourceOf small)) start, CollectPayload s1 Plain refS start with
    | Some (Ok tt, _), Some (Ok tt, _) => true | _, _ => false end = true.
Proof. by vm_compute. Qed.

Lemma copies_are_verified_witness : exists r st', CopyPayload s2 Plain refL (Some bufferWriter) (after 3) = Some (r, st') /\
  exists tr, Traced.trace st' = Traced.trace (after 3) ++ tr /\ len (delivered tr) <= blobMaxBytes /\
    (r = Ok tt -> copy_of refL tr).
Proof. apply (copies_are_verified s2 refL (Some bufferWriter) (after 3)). intros w [= <-] data. apply buffer_outside. Defined.

Lemma publish_and_collect_witness : exists r st', PublishPayload s1 Plain refL (Some (sourceOf large)) start = Some (r, st') /\
  (r = Ok tt -> exists (p : document payloads) data, docs payloads (durable (Traced.world st')) !! payloadID s1 refL = Some p /\
     ydState p = payloadStateReady /\ bytes_of (durable (Traced.world st')) p data /\ sha256Hex data = Digest refL /\ ByteLength refL = FormatUint (len data)).
Proof.
  destruct (publish_and_collect K 4 s1 refL (Some (sourceOf large)) start keys_distinct (publish_proper s1 refL large node_s1 digest_refL) empty_whole) as [H _]. exact H.
Defined.

End Example.

End MongoPayloads.
