(* ===== verification/MongoStorage.v ===== *)
(** * pkg/storage/mongodb/storage.go: the outputs of the engine

    The methods of [Store] that the engine's [Storage] asks for.  Outputs, the edges
    between them, transactions with their BEEF, applied transactions and the cursors of
    peers are collections of documents; a BEEF is a payload.  What a Go pointer may leave
    out is an [option]; the time is that of the host. *)

From S2P Require Import Prelude Bytes Decimal Runs Traced Admission GaspTypes EngineTypes.
From S2P Require Import MongoEncoding MongoDriver MongoTransaction MongoRules MongoBlob MongoPayload MongoAdmission MongoContent.
Import Gasp Admission MongoEncoding MongoTransaction MongoBlob MongoPayload MongoAdmission MongoContent.
Open Scope Z_scope.

Module MongoStorage.

(** ** Texts *)

(** [hex.EncodeToString(hash[:])]: the bytes in their order in memory. *)
Definition canonicalHash (hash : Hash) : list byte := hex_encode (hbytes hash).

(** The errors of encoding/hex and of [chainhash.Hash.SetBytes]. *)
Definition malformedHash : error := ErrExternal 0.

Definition parseCanonicalHash (value : list byte) : result Hash :=
  match hex_decode value with
  | None => Err malformedHash
  | Some bytes => if len bytes =? 32 then Ok (array32 bytes) else Err malformedHash
  end.

Definition hashStrings (hashes : list (option Hash)) : list (list byte) := omap (fmap canonicalHash) hashes.

(** What is no hash is passed over. *)
Definition parseHashList (values : list (list byte)) : list Hash :=
  omap (fun value => match parseCanonicalHash value with Ok h => Some h | _ => None end) values.

Definition outpointFromParts (txid index : list byte) : result Outpoint :=
  hash ← parseCanonicalHash txid;
  decoded ← DecodeUint64 index;
  parsed ← ParseStorageOutputIndex decoded;
  Ok (mkOutpoint hash parsed).

Definition outpointFromDoc (doc : outputDocument) : result Outpoint := outpointFromParts (odTxID doc) (odOutputIndex doc).

Definition admissionOutpoint (outpoint : Outpoint) : AdmissionOutpoint :=
  mkAdmissionOutpoint (canonicalHash (Txid outpoint)) (FormatUint (Index outpoint)).

Definition payloadRefFromBytes (data : list byte) (kind : AdmissionPayloadKind) : AdmissionPayloadRef :=
  mkPayloadRef (sha256Hex data) (FormatUint (len data)) kind.

(** [engine.AdmissionPayloadKind(text)] *)
Definition payloadKind (text : list byte) : AdmissionPayloadKind :=
  if bool_decide (text = str "raw-transaction") then AdmissionPayloadRawTransaction
  else if bool_decide (text = str "merkle-path") then AdmissionPayloadMerklePath
  else if bool_decide (text = str "beef-manifest") then AdmissionPayloadBEEFManifest
  else if bool_decide (text = str "locking-script") then AdmissionPayloadLockingScript
  else if bool_decide (text = str "outbox-data") then AdmissionPayloadOutboxData
  else AdmissionPayloadOther text.

Definition merkleStateValidated : list byte := str "validated".
Definition merkleStateInvalidated : list byte := str "invalidated".
Definition merkleStateImmutable : list byte := str "immutable".

Definition merkleStateString (state : MerkleState) : list byte :=
  match state with
  | MerkleStateUnmined => merkleStateUnmined
  | MerkleStateValidated => merkleStateValidated
  | MerkleStateInvalidated => merkleStateInvalidated
  | MerkleStateImmutable => merkleStateImmutable
  end.

Definition merkleStateFromString (value : list byte) : MerkleState :=
  if bool_decide (value = merkleStateValidated) then MerkleStateValidated
  else if bool_decide (value = merkleStateInvalidated) then MerkleStateInvalidated
  else if bool_decide (value = merkleStateImmutable) then MerkleStateImmutable
  else MerkleStateUnmined.

(** [x != 0] of a float64. *)
Definition float_zero (f : Z) : bool := f mod 2 ^ 63 =? 0.

(** A number that may be left out of a document. *)
Definition optionalNumber (text : list byte) : result Z :=
  if bool_decide (text = []) then Ok 0 else
  value ← DecodeUint64 text;
  ParseStorageUint64 value.

(** ** What updates do to documents *)

Definition setOutputBlock (height index : list byte) (now : Time) (d : outputDocument) : outputDocument :=
  mkOutputDocument (od_ID d) (odScope d) (odTopic d) (odTxID d) (odOutputIndex d) (odSatoshis d) (odScore d) (EngineScore d) (Spent d) (Serving d)
    (SpendVersion d) (SpentBy d) (odMerkleState d) (ScriptDigest d) (ScriptKind d) (ScriptOffset d) (ScriptLength d) height index
    (odMerkleRoot d) (odAncillary d) (odCreatedAt d) now.

Definition setMerkleState (state : list byte) (now : Time) (d : outputDocument) : outputDocument :=
  mkOutputDocument (od_ID d) (odScope d) (odTopic d) (odTxID d) (odOutputIndex d) (odSatoshis d) (odScore d) (EngineScore d) (Spent d) (Serving d)
    (SpendVersion d) (SpentBy d) state (ScriptDigest d) (ScriptKind d) (ScriptOffset d) (ScriptLength d) (odBlockHeight d) (odBlockIndex d)
    (odMerkleRoot d) (odAncillary d) (odCreatedAt d) now.

Definition setSince (since : Z) (now : Time) (d : cursorDocument) : cursorDocument :=
  mkCursorDocument (cd_ID d) (cdScope d) (cdHost d) (cdTopic d) since (cdCreatedAt d) now.

(** [$setOnInsert] of a document: one that there is stays. *)
Definition setOnInsert {A} (document : A) (_ : Time) (old : option A) : A := default document old.

Record admittedOutputWrite := mkWrite {
  awTopic : list byte; awTxID : list byte; awBeefRef : option AdmissionPayloadRef; awAncillary : list (list byte); awNow : Time }.

(** [overlay.AppliedTransaction] *)
Record AppliedTransaction := mkAppliedTransaction { atTxid : option Hash; atTopic : list byte }.

Section Documents.
Context (s : Store).

Definition engineOutputDocument (topic : list byte) (outpoint : AdmissionOutpoint) (ancillary : list (list byte)) (now : Time) : result outputDocument :=
  index ← encodeOutpointIndex (opOutputIndex outpoint);
  zero ← EncodeUint64 (str "0");
  Ok (mkOutputDocument (outputID s topic outpoint) (scopeID s) topic (opTxID outpoint) index zero zero (float64 now) false true
        spendVersionInitial [] merkleStateUnmined [] [] [] [] [] [] [] ancillary now now).

Definition outpointFilter (outpoint : Outpoint) (topic : option (list byte)) (spent : option bool) (d : outputDocument) : bool :=
  bool_decide (odScope d = scopeID s) && bool_decide (odTxID d = canonicalHash (Txid outpoint)) &&
  bool_decide (odOutputIndex d = mustEncodeUint64 (FormatUint (Index outpoint))) &&
  match topic with Some topic => bool_decide (odTopic d = topic) | None => true end &&
  match spent with Some spent => bool_decide (Spent d = spent) | None => true end.

(** The edges into an output, and those out of it. *)
Definition consumedBy (doc : outputDocument) (e : edgeDocument) : bool :=
  bool_decide (edScope e = scopeID s) && bool_decide (edTopic e = odTopic doc) &&
  bool_decide (ConsumerTxID e = odTxID doc) && bool_decide (ConsumerIndex e = odOutputIndex doc).

Definition leavesFrom (topic txid index : list byte) (e : edgeDocument) : bool :=
  bool_decide (edScope e = scopeID s) && bool_decide (edTopic e = topic) &&
  bool_decide (SourceTxID e = txid) && bool_decide (SourceIndex e = index).

(** The outputs that are served after [since], and their order. *)
Definition servedAfter (topic : list byte) (since : Z) (d : outputDocument) : bool :=
  bool_decide (odScope d = scopeID s) && bool_decide (odTopic d = topic) && negb (Spent d) && Serving d && float_gt (EngineScore d) since.

Definition scoreOrder (a b : outputDocument) : bool :=
  float_gt (EngineScore b) (EngineScore a) || (negb (float_gt (EngineScore a) (EngineScore b)) && bytes_leb (od_ID a) (od_ID b)).

End Documents.

Section Storage.
Context {W Beef : Type} `{Mongo W, GridFS W, TransactionSDK Beef} (s : Store).
Local Abbreviation Run := (Runs.Run (St W tevent)).

(** A copy into a [bytes.Buffer]: what was delivered to it. *)
Definition buffered (copy : Writer W -> Run unit) : Run (list byte) := fun st =>
  match copy bufferWriter st with
  | Some (Ok _, st') => Some (Ok (delivered (drop (length (trace st)) (trace st'))), st')
  | Some (Err e, st') => Some (Err e, st')
  | Some (Panic, st') => Some (Panic, st')
  | None => None
  end.

(** ** Writing *)

Definition publishTransactionBeef (ctx : Context) (txid : Hash) (beef : Beef) : Run AdmissionPayloadRef :=
  beefBytes ← lift (AtomicBytes beef txid);
  let ref := payloadRefFromBytes beefBytes AdmissionPayloadBEEFManifest in
  reader ← bytesReader beefBytes;
  PublishPayload s ctx ref (Some reader) ≫= fun _ =>
  mret ref.

Definition prepareAdmittedOutputs (ctx : Context) (topic : list byte) (txid : Hash) (beef : option Beef) (ancillaryTxids : list (option Hash)) :
    Run admittedOutputWrite :=
  now ← call Now;
  match beef with
  | None => mret (mkWrite topic (canonicalHash txid) None (hashStrings ancillaryTxids) now)
  | Some beef =>
      ref ← publishTransactionBeef ctx txid beef;
      mret (mkWrite topic (canonicalHash txid) (Some ref) (hashStrings ancillaryTxids) now)
  end.

Definition pinAndUpsertTransaction (ctx : Context) (prepared : admittedOutputWrite) : Run unit :=
  match awBeefRef prepared with
  | None => mret tt
  | Some ref =>
      pinPayload s ctx ref (mkOwner ReferenceTransaction (awTxID prepared)) ≫= fun _ =>
      upsertTransaction s ctx (awTxID prepared) (Some ref) (awAncillary prepared) (awNow prepared)
  end.

Definition insertEngineOutput (ctx : Context) (topic : list byte) (outpoint : AdmissionOutpoint) (ancillary : list (list byte)) (now : Time) : Run unit :=
  doc ← lift (engineOutputDocument s topic outpoint ancillary now);
  call (Upsert ctx outputs (od_ID doc) (setOnInsert doc)).

Definition insertConsumedEdges (ctx : Context) (topic : list byte) (consumer : AdmissionOutpoint) (outpointsConsumed : list (option Outpoint)) (now : Time) : Run unit :=
  forEach (fun consumed => match consumed with
    | None => mret tt
    | Some consumed => insertAdmissionEdge s ctx topic now (mkEdge (admissionOutpoint consumed) consumer)
    end) outpointsConsumed.

Definition insertPreparedOutputs (ctx : Context) (prepared : admittedOutputWrite) (vouts : list Z) (outpointsConsumed : list (option Outpoint)) : Run unit :=
  pinAndUpsertTransaction ctx prepared ≫= fun _ =>
  forEach (fun vout =>
    let outpoint := mkAdmissionOutpoint (awTxID prepared) (FormatUint vout) in
    insertEngineOutput ctx (awTopic prepared) outpoint (awAncillary prepared) (awNow prepared) ≫= fun _ =>
    insertConsumedEdges ctx (awTopic prepared) outpoint outpointsConsumed (awNow prepared)) vouts.

Definition InsertOutputs (ctx : Context) (topic : list byte) (txid : option Hash) (vouts : list Z) (outpointsConsumed : list (option Outpoint))
    (beef : option Beef) (ancillaryTxids : list (option Hash)) : Run unit :=
  if negb (validText topic) then lift (Err ErrInvalidConfig) else
  match txid with
  | None => lift (Err ErrInvalidConfig)
  | Some txid =>
      prepared ← prepareAdmittedOutputs ctx topic txid beef ancillaryTxids;
      '(_, r) ← runTransaction s ctx (fun ctx => insertPreparedOutputs ctx prepared vouts outpointsConsumed);
      lift r
  end.

Definition DeleteOutput (ctx : Context) (outpoint : option Outpoint) (topic : list byte) : Run unit :=
  match outpoint with
  | None => mret tt
  | Some outpoint => _ ← call (DeleteOne ctx outputs (outputID s topic (admissionOutpoint outpoint))); mret tt
  end.

Definition MarkUTXOsAsSpent (ctx : Context) (outpoints : list (option Outpoint)) (topic : list byte) (spendTxid : option Hash) : Run unit :=
  match spendTxid with
  | None => lift (Err ErrInvalidConfig)
  | Some spendTxid =>
      now ← call Now;
      forEach (fun outpoint => match outpoint with
        | None => mret tt
        | Some outpoint =>
            _ ← call (UpdateOne ctx outputs (outputID s topic (admissionOutpoint outpoint)) anyDocument (fun _ => setSpent (canonicalHash spendTxid) now));
            mret tt
        end) outpoints
  end.

Definition replaceEdges (ctx : Context) (source : AdmissionOutpoint) (sourceIndex topic : list byte) (consumers : list (option Outpoint)) (now : Time) : Run unit :=
  call (DeleteMany ctx edges (leavesFrom s topic (opTxID source) sourceIndex)) ≫= fun _ =>
  forEach (fun consumer => match consumer with
    | None => mret tt
    | Some consumer => insertAdmissionEdge s ctx topic now (mkEdge source (admissionOutpoint consumer))
    end) consumers.

Definition UpdateConsumedBy (ctx : Context) (outpoint : option Outpoint) (topic : list byte) (consumers : list (option Outpoint)) : Run unit :=
  match outpoint with
  | None => mret tt
  | Some outpoint =>
      now ← call Now;
      let source := admissionOutpoint outpoint in
      sourceIndex ← lift (encodeOutpointIndex (opOutputIndex source));
      '(_, r) ← runTransaction s ctx (fun ctx => replaceEdges ctx source sourceIndex topic consumers now);
      lift r
  end.

Definition UpdateTransactionBEEF (ctx : Context) (txid : option Hash) (beef : option Beef) : Run unit :=
  match txid, beef with
  | Some txid, Some beef =>
      ref ← publishTransactionBeef ctx txid beef;
      now ← call Now;
      '(_, r) ← runTransaction s ctx (fun ctx =>
        pinPayload s ctx ref (mkOwner ReferenceTransaction (canonicalHash txid)) ≫= fun _ =>
        upsertTransaction s ctx (canonicalHash txid) (Some ref) [] now);
      lift r
  | _, _ => lift (Err ErrInvalidConfig)
  end.

Definition UpdateOutputBlockHeight (ctx : Context) (outpoint : option Outpoint) (topic : list byte) (blockHeight blockIndex : Z) : Run unit :=
  match outpoint with
  | None => mret tt
  | Some outpoint =>
      height ← lift (EncodeUint64 (FormatUint blockHeight));
      index ← lift (EncodeUint64 (FormatUint blockIndex));
      now ← call Now;
      _ ← call (UpdateOne ctx outputs (outputID s topic (admissionOutpoint outpoint)) anyDocument (fun _ => setOutputBlock height index now));
      mret tt
  end.

Definition InsertAppliedTransaction (ctx : Context) (tx : option AppliedTransaction) : Run unit :=
  match tx with
  | Some (mkAppliedTransaction (Some txid) topic) =>
      if negb (validText topic) then lift (Err ErrInvalidConfig) else
      now ← call Now;
      let doc := mkAppliedDocument (appliedID s topic (canonicalHash txid)) (scopeID s) topic (canonicalHash txid) false [] [] [] [] [] [] [] [] now now in
      call (Upsert ctx applied (ad_ID doc) (setOnInsert doc))
  | _ => lift (Err ErrInvalidConfig)
  end.

Definition DoesAppliedTransactionExist (ctx : Context) (tx : option AppliedTransaction) : Run bool :=
  match tx with
  | Some (mkAppliedTransaction (Some txid) topic) =>
      found ← attempt (call (FindOne ctx applied (appliedID s topic (canonicalHash txid)) anyDocument));
      match found with
      | Ok _ => mret true
      | Err ErrNoDocuments => mret false
      | Err e => lift (Err e)
      | Panic => lift Panic
      end
  | _ => mret false
  end.

Definition UpdateLastInteraction (ctx : Context) (host topic : list byte) (since : Z) : Run unit :=
  if negb (validText host) || negb (validText topic) then lift (Err ErrInvalidConfig) else
  now ← call Now;
  call (Upsert ctx cursors (cursorID s host topic) (fun _ old => match old with
    | Some d => setSince since now d
    | None => mkCursorDocument (cursorID s host topic) (scopeID s) host topic since now now
    end)).

Definition GetLastInteraction (ctx : Context) (host topic : list byte) : Run Z :=
  found ← attempt (call (FindOne ctx cursors (cursorID s host topic) anyDocument));
  match found with
  | Ok doc => mret (Since doc)
  | Err ErrNoDocuments => mret 0
  | Err e => lift (Err e)
  | Panic => lift Panic
  end.

(** The outputs of a block whose root became known. *)
Definition reconciledState (root : list byte) (doc : outputDocument) : list byte :=
  if bool_decide (odMerkleRoot doc = []) then merkleStateUnmined
  else if bool_decide (odMerkleRoot doc = root) then merkleStateValidated
  else merkleStateInvalidated.

Definition ReconcileMerkleRoot (ctx : Context) (topic : list byte) (blockHeight : Z) (merkleRoot : option Hash) : Run unit :=
  match merkleRoot with
  | None => lift (Err ErrInvalidConfig)
  | Some merkleRoot =>
      height ← lift (EncodeUint64 (FormatUint blockHeight));
      docs ← call (Find ctx outputs (fun d => bool_decide (odScope d = scopeID s) && bool_decide (odTopic d = topic) && bool_decide (odBlockHeight d = height)) None 0);
      now ← call Now;
      forEach (fun doc =>
        _ ← call (UpdateOne ctx outputs (od_ID doc) anyDocument (fun _ => setMerkleState (reconciledState (canonicalHash merkleRoot) doc) now));
        mret tt) docs
  end.

(** ** Reading *)

(** The digest is looked at before the error: an error of the database is taken for a
    transaction without BEEF. *)
Definition loadTransactionBeef (ctx : Context) (txID : list byte) : Run (option Beef) :=
  found ← attempt (call (FindOne ctx transactions (transactionID s txID) anyDocument));
  match found with
  | Err _ => mret None
  | Panic => lift Panic
  | Ok doc =>
      if bool_decide (BeefDigest doc = []) then mret None else
      length ← lift (DecodeUint64 (BeefLength doc));
      data ← buffered (fun buf => CopyPayload s ctx (mkPayloadRef (BeefDigest doc) length (payloadKind (BeefKind doc))) (Some buf));
      '(beef, _, _) ← lift (ParseBeef data);
      mret (Some beef)
  end.

Definition lookupEdges (ctx : Context) (filter : edgeDocument -> bool) (sources : bool) : Run (list Outpoint) :=
  docs ← call (Find ctx edges filter None 0);
  lift (mapM (fun doc => if sources then outpointFromParts (SourceTxID doc) (SourceIndex doc) else outpointFromParts (ConsumerTxID doc) (ConsumerIndex doc)) docs).

Definition edgesForOutput (ctx : Context) (doc : outputDocument) : Run (list Outpoint * list Outpoint) :=
  consumed ← lookupEdges ctx (consumedBy s doc) true;
  consumers ← lookupEdges ctx (leavesFrom s (odTopic doc) (odTxID doc) (odOutputIndex doc)) false;
  mret (consumed, consumers).

(** What a document says by itself. *)
Definition outputFields (doc : outputDocument) : result (EngineOutput Beef) :=
  outpoint ← outpointFromDoc doc;
  score ← DecodeUint64 (odScore doc);
  height ← optionalNumber (odBlockHeight doc);
  if MaxUint32 <? height then Err ErrInvalidStorageOutputIndex else
  index ← optionalNumber (odBlockIndex doc);
  root ← (if bool_decide (odMerkleRoot doc = []) then Ok None else Some <$> parseCanonicalHash (odMerkleRoot doc));
  Ok (mkEngineOutput outpoint (odTopic doc) (Spent doc) [] [] (u32 height) index
        (if float_zero (EngineScore doc) then engineScoreFromUint score else EngineScore doc) None
        (parseHashList (odAncillary doc)) (merkleStateFromString (odMerkleState doc)) root).

Definition setConsumed (o : EngineOutput Beef) (consumed : list Outpoint) : EngineOutput Beef :=
  mkEngineOutput (oOutpoint o) (oTopic o) (oSpent o) consumed (ConsumedBy o) (oBlockHeight o)
    (oBlockIdx o) (oScore o) (oBeef o) (AncillaryTxids o) (oMerkleState o) (oMerkleRoot o).

Definition outputFromDocument (ctx : Context) (includeBEEF : bool) (doc : outputDocument) : Run (EngineOutput Beef) :=
  output ← lift (outputFields doc);
  '(consumed, consumers) ← edgesForOutput ctx doc;
  let output := setConsumedBy (setConsumed output consumed) consumers in
  if includeBEEF then beef ← loadTransactionBeef ctx (odTxID doc); mret (setBeef output beef)
  else mret output.

Definition FindOutput (ctx : Context) (outpoint : option Outpoint) (topic : option (list byte)) (spent : option bool) (includeBEEF : bool) :
    Run (option (EngineOutput Beef)) :=
  match outpoint with
  | None => mret None
  | Some outpoint =>
      found ← attempt (call (FindFirst ctx outputs (outpointFilter s outpoint topic spent)));
      match found with
      | Ok doc => output ← outputFromDocument ctx includeBEEF doc; mret (Some output)
      | Err ErrNoDocuments => mret None
      | Err e => lift (Err e)
      | Panic => lift Panic
      end
  end.

Definition FindOutputs (ctx : Context) (outpoints : list (option Outpoint)) (topic : list byte) (spent : option bool) (includeBEEF : bool) :
    Run (list (option (EngineOutput Beef))) :=
  mapM (fun outpoint => FindOutput ctx outpoint (Some topic) spent includeBEEF) outpoints.

Definition FindOutputsForTransaction (ctx : Context) (txid : option Hash) (includeBEEF : bool) : Run (list (EngineOutput Beef)) :=
  match txid with
  | None => mret []
  | Some txid =>
      docs ← call (Find ctx outputs (fun d => bool_decide (odScope d = scopeID s) && bool_decide (odTxID d = canonicalHash txid)) None 0);
      mapM (outputFromDocument ctx includeBEEF) docs
  end.

Definition FindUTXOsForTopic (ctx : Context) (topic : list byte) (since limit : Z) (includeBEEF : bool) : Run (list (EngineOutput Beef)) :=
  docs ← call (Find ctx outputs (servedAfter s topic since) (Some scoreOrder) limit);
  mapM (outputFromDocument ctx includeBEEF) docs.

Definition FindOutpointsByMerkleState (ctx : Context) (topic : list byte) (state : MerkleState) (limit : Z) : Run (list Outpoint) :=
  docs ← call (Find ctx outputs (fun d => bool_decide (odScope d = scopeID s) && bool_decide (odTopic d = topic) && bool_decide (odMerkleState d = merkleStateString state)) None limit);
  lift (mapM outpointFromDoc docs).

(** Ancillary BEEF that cannot be loaded is passed over. *)
Fixpoint mergeAncillary (ctx : Context) (beef : Beef) (txids : list Hash) : Run Beef :=
  match txids with
  | [] => mret beef
  | txid :: txids' =>
      loaded ← attempt (loadTransactionBeef ctx (canonicalHash txid));
      match loaded with
      | Ok (Some ancillary) => merged ← lift (MergeBeef beef ancillary); mergeAncillary ctx merged txids'
      | _ => mergeAncillary ctx beef txids'
      end
  end.

Definition LoadAncillaryBeef (ctx : Context) (output : EngineOutput Beef) : Run (EngineOutput Beef) :=
  match oBeef output with
  | None => mret output
  | Some beef => beef ← mergeAncillary ctx beef (AncillaryTxids output); mret (setBeef output (Some beef))
  end.

End Storage.

(** ** The storage of the engine *)

(** A call of the engine, from the state of the driver. *)
Definition operation {W A} (m : Runs.Run (St W tevent) A) : Op W A := fun w =>
  match m (mkSt w []) with Some (r, st) => (r, world st) | None => (Panic, w) end.

Definition mongoStorage {W Beef} `{Mongo W, GridFS W, TransactionSDK Beef} (s : Store) : EngineStorage W Beef := {|
  EngineTypes.InsertOutputs topic txid vouts consumed beef ancillary :=
    operation (InsertOutputs s Plain topic (Some txid) vouts (Some <$> consumed) (Some beef) (Some <$> ancillary));
  EngineTypes.FindOutput o topic spent beef := operation (FindOutput s Plain (Some o) topic spent beef);
  EngineTypes.FindOutputs os topic spent beef := operation (FindOutputs s Plain (Some <$> os) topic spent beef);
  EngineTypes.FindOutputsForTransaction txid beef := operation (FindOutputsForTransaction s Plain (Some txid) beef);
  EngineTypes.FindUTXOsForTopic topic since limit beef := operation (FindUTXOsForTopic s Plain topic since limit beef);
  EngineTypes.DeleteOutput o topic := operation (DeleteOutput s Plain (Some o) topic);
  EngineTypes.MarkUTXOsAsSpent os topic spender := operation (MarkUTXOsAsSpent s Plain (Some <$> os) topic (Some spender));
  EngineTypes.UpdateConsumedBy o topic consumers := operation (UpdateConsumedBy s Plain (Some o) topic (Some <$> consumers));
  EngineTypes.UpdateTransactionBEEF txid beef := operation (UpdateTransactionBEEF s Plain (Some txid) (Some beef));
  EngineTypes.UpdateOutputBlockHeight o topic height index := operation (UpdateOutputBlockHeight s Plain (Some o) topic height index);
  EngineTypes.InsertAppliedTransaction txid topic := operation (InsertAppliedTransaction s Plain (Some (mkAppliedTransaction (Some txid) topic)));
  EngineTypes.DoesAppliedTransactionExist txid topic := operation (DoesAppliedTransactionExist s Plain (Some (mkAppliedTransaction (Some txid) topic)));
  EngineTypes.UpdateLastInteraction host topic since := operation (UpdateLastInteraction s Plain host topic since);
  EngineTypes.GetLastInteraction host topic := operation (GetLastInteraction s Plain host topic);
  EngineTypes.FindOutpointsByMerkleState topic state limit := operation (FindOutpointsByMerkleState s Plain topic state limit);
  EngineTypes.LoadAncillaryBeef o := operation (LoadAncillaryBeef s Plain o) |}.

End MongoStorage.
