(* ===== verification/MongoOutputs.v ===== *)
(** * The outputs of the engine in MongoDB

    What the methods of MongoStorage do: publishing and copying leave the outputs, the
    edges and the transactions as they are; inserting is one transaction; an output that
    was inserted is found as it was; what is found is stored. *)

From stdpp Require Import sorting.
From S2P Require Import Prelude Bytes Sha256 Decimal Runs Traced Admission GaspTypes EngineTypes.
From S2P Require Import MongoEncoding MongoDriver MongoModel MongoTransaction MongoRules MongoBlob MongoBlobModel MongoPayload MongoAdmission MongoContent MongoEffects MongoRetention MongoPayloads MongoStorage.
Import Gasp Admission MongoEncoding MongoTransaction MongoBlob MongoPayload MongoAdmission MongoContent MongoEffects MongoRetention MongoPayloads MongoStorage.
Open Scope Z_scope.

Module MongoOutputs.

(** ** Runs that only touch payloads and the references to them *)

Section Aside.
Context {W : Type} `{!Mongo W, !MongoState W, !GridFS W, !GridFSState W} {laws : MongoLaws W} {blobLaws : GridFSLaws W}.
Local Abbreviation St := (St W tevent).
Local Abbreviation Run := (Runs.Run St).
#[local] Set Default Proof Using "Type laws blobLaws".

Definition aside (db db' : DB) : Prop := forall c, c <> payloads -> c <> references -> docs c db' = docs c db.

Definition asides {A} (m : Run A) : Prop := forall db, leaves db m (fun _ db' => aside db db').

Lemma aside_trans db1 db2 db3 : aside db1 db2 -> aside db2 db3 -> aside db1 db3.
Proof using Type. intros H1 H2 c Hp Hr. by rewrite H2, H1. Qed.

Lemma asides_lift {A} (r : result A) : asides (lift r).
Proof using Type. intros db. by apply leaves_lift. Qed.

Lemma asides_ret {A} (a : A) : asides (mret a).
Proof using Type. apply (asides_lift (Ok a)). Qed.

Lemma asides_bind {A B} (m : Run A) (f : A -> Run B) : asides m -> (forall a, asides (f a)) -> asides (m ≫= f).
Proof using Type.
  intros Hm Hf db. apply leaves_bind. eapply leaves_mono; [apply Hm|]. intros [a|e|] db1 H1; [|done..].
  eapply leaves_mono; [apply Hf|]. intros r db2. by apply aside_trans.
Qed.

Lemma asides_attempt {A} (m : Run A) : asides m -> asides (attempt m).
Proof using Type. intros Hm db. apply leaves_attempt. eapply leaves_mono; [apply Hm|]. by intros [a|e|]. Qed.

Lemma asides_same {A} (op : Op W A) : (forall w r w', op w = (r, w') -> same w w') -> asides (call op).
Proof. intros Hop db. by apply leaves_same. Qed.

Lemma asides_writing {A} (op : Op W A) (f : effect A) :
  (forall w r w', op w = (r, w') -> writing Plain w w' r f) -> (forall db now a db', f db now = Some (a, db') -> aside db db') -> asides (call op).
Proof. intros Hop Hf db. eapply leaves_plain, plain_writing; [done|by intros; eapply Hf|done|by intros; eapply Hf|done]. Qed.

Lemma store_aside c id d db : c = payloads \/ c = references -> aside db (store c id d db).
Proof using Type. intros Hc c' H1 H2. unfold store. rewrite docs_put_other; [done|]. by destruct Hc; subst. Qed.

Lemma asides_FindOne c id cond : asides (call (FindOne Plain c id cond)).
Proof. intros db. by apply leaves_plain, plain_FindOne. Qed.

Lemma asides_UpdateOne c id cond u : c = payloads \/ c = references -> asides (call (UpdateOne Plain c id cond u)).
Proof.
  intros Hc. eapply asides_writing; [intros; by eapply UpdateOne_law|]. intros db now a db'. unfold updateEffect.
  destruct (matching _ _ _); intros [= _ <-]; [by apply store_aside|done].
Qed.

Lemma asides_FindOneAndUpdate c id cond u b : c = payloads \/ c = references -> asides (call (FindOneAndUpdate Plain c id cond u b)).
Proof.
  intros Hc. eapply asides_writing; [intros; by eapply FindOneAndUpdate_law|]. intros db now a db'. unfold findAndUpdateEffect.
  destruct (matching _ _ _); [intros [= _ <-]; by apply store_aside|]. destruct (docs c db !! id); [done|]. destruct b; [|done]. intros [= _ <-]. by apply store_aside.
Qed.

Lemma asides_NewObjectID : asides (call NewObjectID).
Proof. apply asides_same. intros * E. by apply NewObjectID_law in E as [? _]. Qed.

Lemma asides_NewUUID : asides (call NewUUID).
Proof. apply asides_same. intros * E. by apply NewUUID_law in E as [? _]. Qed.

Lemma asides_CtxErr : asides (call CtxErr).
Proof. apply asides_same. intros * E. by apply CtxErr_law in E as [? _]. Qed.

Lemma asides_beside {A} id (m : Run A) : (forall st, wp true m st (fun _ st' => beside id (world st) (world st'))) -> asides m.
Proof using Type. intros Hm db st <-. eapply wp_mono; [apply Hm|]. intros r st' [_ [Hd _]] c _ _. apply Hd. Qed.

Lemma asides_outside {A} (m : Run A) : outside m -> asides m.
Proof using Type. intros Hm db st <-. eapply wp_mono; [apply Hm|]. intros r st' [_ [[E _] _]] c _ _. by rewrite E. Qed.

Lemma asides_transaction {A} s (body : Context -> Run A) (Q : A -> DB -> DB -> Prop) :
  (forall db, tx db (body InSession) (fun r db' => forall a, r = Ok a -> Q a db db')) -> (forall a db db', Q a db db' -> aside db db') -> asides (runTransaction s Plain body).
Proof.
  intros Hb HQ db. eapply leaves_mono; [apply (leaves_transaction s db body (fun a db' => Q a db db')), Hb|]. intros r db' Hs.
  eapply (settled_always db db' _ (aside db)); [exact Hs|done|]. intros a d. apply HQ.
Qed.

Ltac aside_step :=
  lazymatch goal with
  | |- asides (_ ≫= _) => apply asides_bind; [|intros ?]
  | |- asides (attempt _) => apply asides_attempt
  | |- asides (lift _) => apply asides_lift
  | |- asides (mret _) => apply asides_ret
  | |- asides (match _ with _ => _ end) => case_match
  | |- asides (call NewObjectID) => apply asides_NewObjectID
  | |- asides (call NewUUID) => apply asides_NewUUID
  | |- asides (call CtxErr) => apply asides_CtxErr
  | |- @asides _ (@call _ _ (FindOne _ ?c _ _)) => apply (asides_FindOne c)
  | |- @asides _ (@call _ _ (UpdateOne _ ?c _ _ _)) => apply (asides_UpdateOne c); auto
  | |- @asides _ (@call _ _ (FindOneAndUpdate _ ?c _ _ _ _)) => apply (asides_FindOneAndUpdate c); auto
  end.

Context (s : Store).

Lemma inline_asides (ref : AdmissionPayloadRef) n readLimited : (forall k, outside (readLimited k)) -> asides (readInlinePayload readLimited ref n).
Proof. intros Hout. unfold readInlinePayload. repeat first [by apply asides_outside | aside_step]. Qed.

Lemma publish_asides (ref : AdmissionPayloadRef) (reader : Source W) :
  (forall k, outside (Read reader k)) -> (forall k, outside (ReadLimited reader k)) -> asides (PublishPayload s Plain ref (Some reader)).
Proof.
  intros Hr1 Hr2. assert (Hup : forall p n, asides (uploadContent s Plain p ref n reader)).
  { intros p n. unfold uploadContent. destruct (_ <=? _); [repeat first [by apply inline_asides | aside_step]|].
    repeat aside_step; [apply (asides_beside (FileID p)); intros st; eapply wp_mono; [apply remove_wp|]; by intros r st' [? _]|].
    apply (asides_beside (FileID p)). intros st. eapply wp_mono; [apply upload_wp; intros r k [= <-]; apply Hr1|]. by intros r st' [[? _] _]. }
  unfold PublishPayload, reservePayload, reuseOrRecyclePayload, insertUploadingPayload, resumeUpload, conflictOr.
  repeat first [apply Hup | aside_step].
Qed.

Lemma unguarded_aside db db' : unguarded db' = unguarded db -> aside db db'.
Proof using Type. intros E c Hp _. by rewrite <- (unguarded_docs c db'), <- (unguarded_docs c db), E by done. Qed.

Lemma pin_aside (ref : AdmissionPayloadRef) owner db :
  tx db (pinPayload s InSession ref owner) (fun r db' => forall a, r = Ok a -> aside db db').
Proof using laws.
  unfold pinPayload. apply tx_bind; [intros; repeat inside_step|]. eapply tx_mono; [apply touch_tx|]. intros [[]|e|] db1 Hr; [|done..].
  destruct Hr as [Eu%unguarded_aside _]. apply tx_bind; [intros; repeat inside_step|]. apply tx_lift. destruct (EncodeUint64 _) as [length|e|]; [|done..].
  apply (tx_Upsert db1 references); [by intros db'; split| |done]. intros now a _. eapply aside_trans; [exact Eu|]. apply store_aside. by right.
Qed.

Lemma pin_asides (ref : AdmissionPayloadRef) owner : asides (PinPayload s Plain ref owner).
Proof.
  unfold PinPayload. repeat first [apply (asides_transaction s (fun ctx => pinPayload s ctx ref owner) (fun _ => aside)); [apply pin_aside|done] | aside_step].
Qed.

Lemma release_asides (ref : AdmissionPayloadRef) owner : asides (ReleasePayload s Plain ref owner).
Proof.
  unfold ReleasePayload. aside_step; [aside_step|]. aside_step; [aside_step|]. aside_step; [|by case_match; aside_step].
  apply (asides_transaction s _ (fun _ => aside)); [|done]. intros db.
  apply (MongoEffects.tx_lookup db references); [intros []; repeat first [apply inside_touch | inside_step]|done| | |].
  - intros d _. apply tx_bind; [intros; repeat inside_step|]. eapply tx_mono; [apply touch_tx|]. intros [[]|e|] db1 Hr; [|done..].
    destruct Hr as [Eu%unguarded_aside _]. apply tx_bind; [intros; repeat inside_step|]. apply (tx_DeleteOne db1 references); [by intros db'; split| | |done].
    + intros d' _. apply tx_ret. intros ? _. eapply aside_trans; [exact Eu|]. intros c _ Hc. by rewrite docs_put_other.
    + intros _. by apply tx_ret.
  - intros _. by apply tx_ret.
  - intros e db' _ Hne. destruct e; try done; by apply tx_lift.
Qed.

Lemma bytesReader_asides {B} data (f : Source W -> Run B) :
  (forall reader, (forall k, outside (Read reader k)) -> (forall k, outside (ReadLimited reader k)) -> asides (f reader)) -> asides (reader ← bytesReader data; f reader).
Proof using Type.
  intros Hf db st Hd. apply wp_bind. eapply wp_mono; [apply bytesReader_wp|]. intros r st1 (-> & reader & -> & H1 & H2). by apply Hf.
Qed.

Lemma copy_asides (ref : AdmissionPayloadRef) (writer : Writer W) : (forall data, outside (writer data)) -> asides (CopyPayload s Plain ref (Some writer)).
Proof.
  intros Hout. assert (Hp : asides (copyPinned s Plain ref writer)).
  { unfold copyPinned. aside_step; [aside_step|]. aside_step.
    - aside_step; [aside_step|]. apply bytesReader_asides. intros reader _ Hr. aside_step; [by apply inline_asides|]. unfold writeInline.
      aside_step; [by apply asides_outside|]. case_match. aside_step; [intros db st <-; by intros c|]. repeat aside_step.
    - intros db st <-. eapply wp_mono; [by apply copy_wp|]. intros r st' [[E _] _] c _ _. by rewrite E. }
  unfold CopyPayload. aside_step; [aside_step|]. aside_step; [apply pin_asides|]. aside_step; [by aside_step|]. aside_step; [aside_step; apply release_asides|].
  unfold fail. case_match; aside_step.
Qed.

End Aside.

(** ** Inserting *)

Section Inserting.
Context {W : Type} `{!Mongo W, !MongoState W, !GridFS W, !GridFSState W} {laws : MongoLaws W} {blobLaws : GridFSLaws W}.
Context (s : Store).
Local Abbreviation St := (St W tevent).
Local Abbreviation Run := (Runs.Run St).
#[local] Set Default Proof Using "Type laws".

Hint Resolve inside_insertEdge inside_pin : inside.

Definition allDocs (c : collection) (db : DB) : list (document c) := (map_to_list (docs c db)).*2.

(** Outputs are inserted where there is none, and edges are new. *)
Record added (outs : list outputDocument) (news : list edgeDocument) (db db' : DB) : Prop := {
  add_outputs : docs outputs db' = foldl (fun m (d : document outputs) => <[od_ID d := default d (m !! od_ID d)]> m) (docs outputs db) outs;
  add_edges : allDocs edges db' ≡ₚ news ++ allDocs edges db;
  add_other : forall c, c <> outputs -> c <> edges -> docs c db' = docs c db }.

Lemma added_refl db : added [] [] db db.
Proof using Type. by constructor. Qed.

Lemma added_trans o1 n1 o2 n2 db1 db2 db3 : added o1 n1 db1 db2 -> added o2 n2 db2 db3 -> added (o1 ++ o2) (n1 ++ n2) db1 db3.
Proof using Type.
  intros [O1 E1 D1] [O2 E2 D2]. constructor.
  - by rewrite foldl_app, O2, O1.
  - by rewrite E2, E1, !app_assoc, (Permutation_app_comm n2 n1).
  - intros c Ho He. by rewrite D2, D1.
Qed.

Definition edge_of (topic : list byte) (now : Time) (consumer : AdmissionOutpoint) (consumed : Outpoint) (d : edgeDocument) : Prop :=
  edgeDocumentOf s topic (mkEdge (admissionOutpoint consumed) consumer) now = Ok d.

Lemma edge_tx db topic now consumer consumed :
  tx db (insertAdmissionEdge s InSession topic now (mkEdge (admissionOutpoint consumed) consumer))
    (fun r db' => r = Ok tt -> exists d, edge_of topic now consumer consumed d /\ added [] [d] db db').
Proof.
  unfold insertAdmissionEdge, edge_of. apply tx_bind; [intros; repeat inside_step|]. apply tx_lift. destruct (edgeDocumentOf _ _ _ _) as [d|e|]; [|done..].
  apply tx_bind; [intros; repeat inside_step|]. apply tx_attempt, (tx_InsertOne db edges).
  - intros db'. split; [done|]. intros e' Hf _ Hd. by destruct e'; try apply tx_lift.
  - intros Hnone. apply tx_ret. intros _. exists d. split; [done|]. unfold store. constructor.
    + by rewrite docs_put_other.
    + unfold allDocs. rewrite docs_put. change (docs edges db !! @docID edges d = None) with (dbEdges db !! ed_ID d = None) in Hnone.
      change ((map_to_list (<[ed_ID d := d]> (dbEdges db))).*2 ≡ₚ [d] ++ (map_to_list (dbEdges db)).*2). by rewrite map_to_list_insert.
    + intros c _ Hc. by rewrite docs_put_other.
  - intros db'. by apply tx_lift.
Qed.

Lemma consumed_tx db topic now consumer consumed :
  tx db (insertConsumedEdges s InSession topic consumer consumed now)
    (fun r db' => r = Ok tt -> exists news, Forall2 (edge_of topic now consumer) (omap id consumed) news /\ added [] news db db').
Proof.
  unfold insertConsumedEdges. revert db. induction consumed as [|[o|] consumed IH]; intros db; cbn [forEach].
  - apply tx_ret. intros _. exists []. split; [constructor|apply added_refl].
  - apply tx_bind; [intros; repeat inside_step|]. eapply tx_mono; [apply edge_tx|]. intros [[]|e|] db1 Hr; [|done..].
    destruct (Hr eq_refl) as (d & Hd & H1). eapply tx_mono; [apply IH|]. intros r db2 H2 E. destruct (H2 E) as (news & Hn & H3).
    exists (d :: news). split; [by constructor|]. by apply (added_trans _ _ _ _ _ _ _ H1 H3).
  - apply tx_bind; [intros; repeat inside_step|]. apply tx_ret. apply IH.
Qed.

Definition output_of (topic txID : list byte) (ancillary : list (list byte)) (now : Time) (vout : Z) (d : outputDocument) : Prop :=
  engineOutputDocument s topic (mkAdmissionOutpoint txID (FormatUint vout)) ancillary now = Ok d.

Lemma output_tx db topic txID ancillary now vout :
  tx db (insertEngineOutput s InSession topic (mkAdmissionOutpoint txID (FormatUint vout)) ancillary now)
    (fun r db' => r = Ok tt -> exists d, output_of topic txID ancillary now vout d /\ added [d] [] db db').
Proof.
  unfold insertEngineOutput, output_of. apply tx_bind; [intros; repeat inside_step|]. apply tx_lift. destruct (engineOutputDocument _ _ _ _ _) as [d|e|]; [|done..].
  apply (tx_Upsert db outputs); [by intros db'; split| |done]. intros t _. exists d. split; [done|]. unfold store, setOnInsert. constructor.
  - by rewrite docs_put.
  - unfold allDocs. by rewrite docs_put_other.
  - intros c Hc _. by rewrite docs_put_other.
Qed.

(** What inserting one transaction's outputs adds. *)
Record outputs_added (prepared : admittedOutputWrite) (vouts : list Z) (consumed : list Outpoint) (outs : list outputDocument) (news : list (list edgeDocument)) : Prop := {
  oa_outputs : Forall2 (output_of (awTopic prepared) (awTxID prepared) (awAncillary prepared) (awNow prepared)) vouts outs;
  oa_edges : Forall2 (fun vout => Forall2 (edge_of (awTopic prepared) (awNow prepared) (mkAdmissionOutpoint (awTxID prepared) (FormatUint vout))) consumed) vouts news }.

Lemma outputs_tx db prepared vouts consumed :
  tx db (forEach (fun vout =>
      insertEngineOutput s InSession (awTopic prepared) (mkAdmissionOutpoint (awTxID prepared) (FormatUint vout)) (awAncillary prepared) (awNow prepared) ≫= fun _ =>
      insertConsumedEdges s InSession (awTopic prepared) (mkAdmissionOutpoint (awTxID prepared) (FormatUint vout)) consumed (awNow prepared)) vouts)
    (fun r db' => r = Ok tt -> exists outs news, outputs_added prepared vouts (omap id consumed) outs news /\ added outs (concat news) db db').
Proof.
  revert db. induction vouts as [|vout vouts IH]; intros db; cbn [forEach].
  - apply tx_ret. intros _. exists [], []. split; [by constructor|apply added_refl].
  - apply tx_bind; [intros; unfold insertEngineOutput, insertConsumedEdges; repeat inside_step|].
    apply tx_bind; [intros; unfold insertConsumedEdges; repeat inside_step|]. eapply tx_mono; [apply output_tx|]. intros [[]|e|] db1 Hr; [|done..].
    destruct (Hr eq_refl) as (d & Hd & H1). eapply tx_mono; [apply consumed_tx|]. intros [[]|e|] db2 Hr2; [|done..].
    destruct (Hr2 eq_refl) as (ns & Hns & H2). eapply tx_mono; [apply IH|]. intros r db3 H3 E. destruct (H3 E) as (outs & news & [Ho Hn] & H4).
    exists (d :: outs), (ns :: news). split; [constructor; by constructor|].
    apply (added_trans _ _ _ _ _ _ _ (added_trans _ _ _ _ _ _ _ H1 H2) H4).
Qed.

(** The transaction is stored with the payload of its BEEF. *)
Definition beef_row (txID : list byte) (ref : AdmissionPayloadRef) (db : DB) : Prop :=
  exists d : document transactions, docs transactions db !! transactionID s txID = Some d /\ BeefDigest d = Digest ref /\
    BeefKind d = payloadKindText (Kind ref) /\ EncodeUint64 (ByteLength ref) = Ok (BeefLength d).

Definition beyond (db db' : DB) : Prop := forall c, c <> payloads -> c <> references -> c <> transactions -> docs c db' = docs c db.

Lemma transaction_tx db txID ref owner ancillary now :
  tx db (pinPayload s InSession ref owner ≫= fun _ => upsertTransaction s InSession txID (Some ref) ancillary now)
    (fun r db' => r = Ok tt -> beyond db db' /\ beef_row txID ref db').
Proof.
  apply tx_bind; [intros; unfold upsertTransaction; repeat inside_step|]. eapply tx_mono; [apply pin_aside|]. intros [[]|e|] db1 Hr; [|done..].
  specialize (Hr tt eq_refl). unfold upsertTransaction. apply tx_bind; [intros; repeat inside_step|]. apply tx_lift. destruct (EncodeUint64 _) as [length|e|] eqn:El; [|done..].
  apply (tx_Upsert db1 transactions); [by intros db'; split| |done]. intros t _. unfold store. split.
  - intros c Hp Hrf Ht. rewrite docs_put_other by done. by apply Hr.
  - eexists. rewrite docs_put, lookup_insert_eq. split; [done|]. by split_and!.
Qed.

(** What the transaction of an insertion leaves. *)
Definition insertion (prepared : admittedOutputWrite) (vouts : list Z) (consumed : list Outpoint) (db db' : DB) : Prop :=
  exists db1 outs news, beyond db db1 /\ (match awBeefRef prepared with Some ref => beef_row (awTxID prepared) ref db1 | None => docs transactions db1 = docs transactions db end) /\
    outputs_added prepared vouts consumed outs news /\ added outs (concat news) db1 db'.

Lemma prepared_tx db prepared vouts consumed :
  tx db (insertPreparedOutputs s InSession prepared vouts consumed) (fun r db' => forall a, r = Ok a -> insertion prepared vouts (omap id consumed) db db').
Proof.
  unfold insertPreparedOutputs, insertion. apply tx_bind; [intros; unfold insertEngineOutput, insertConsumedEdges; repeat inside_step|].
  eapply tx_mono with (P := fun r db1 => r = Ok tt -> beyond db db1 /\ match awBeefRef prepared with Some ref => beef_row (awTxID prepared) ref db1 | None => docs transactions db1 = docs transactions db end).
  - unfold pinAndUpsertTransaction. destruct (awBeefRef prepared) as [ref|]; [apply transaction_tx|]. by apply tx_ret.
  - intros [[]|e|] db1 Hr; [|done..]. destruct (Hr eq_refl) as [Hb Hrow]. eapply tx_mono; [apply outputs_tx|]. intros r db2 H2 [] E.
    destruct (H2 E) as (outs & news & Ho & Ha). by exists db1, outs, news.
Qed.

End Inserting.

(** ** Finding *)

Lemma mapM_Ok {A B} (f : A -> result B) l k : mapM f l = Ok k -> Forall2 (fun x y => f x = Ok y) l k.
Proof.
  revert k. induction l as [|x l IH]; intros k; cbn.
  - intros [= <-]. constructor.
  - intros (y & Hy & (k' & Hk & E)%bind_Ok)%bind_Ok. injection E as <-. constructor; [done|by apply IH].
Qed.

Lemma mapM_Err {A B} (f : A -> result B) l e : mapM f l = Err e -> exists x, x ∈ l /\ f x = Err e.
Proof.
  induction l as [|x l IH]; cbn; [done|]. destruct (f x) as [y|e'|] eqn:E; cbn; [|intros [= <-]; exists x; by split; [left|]|done].
  destruct (mapM f l) as [k|e'|]; cbn; [done| |done]. intros [= ->]. destruct (IH eq_refl) as (z & Hz & ?). exists z. by split; [right|].
Qed.

Section Finding.
Context {W Beef : Type} `{!Mongo W, !MongoState W, !GridFS W, !GridFSState W, !TransactionSDK Beef} {laws : MongoLaws W} {blobLaws : GridFSLaws W}.
Context (s : Store).
Local Abbreviation St := (St W tevent).
Local Abbreviation Run := (Runs.Run St).
#[local] Set Default Proof Using "Type laws blobLaws".

Lemma leaves_reading {A} db (op : Op W A) (answer : DB -> Time -> option A -> Prop) (P : result A -> DB -> Prop) :
  (forall w r w', op w = (r, w') -> reading Plain w w' r answer) ->
  (forall now a, answer db now (Some a) -> P (Ok a) db) -> (forall now, answer db now None -> P (Err ErrNoDocuments) db) ->
  (forall e, foreign e -> e <> ErrNoDocuments -> P (Err e) db) -> P Panic db -> leaves db (call op) P.
Proof using Type.
  intros Hop Hok Hnone Herr Hpanic st Hd. apply wp_driver. intros r w E%Hop. unfold reading in E. cbn [world].
  destruct r as [a|e|].
  - destruct E as ([E1 _] & db1 & now & Hv & Ha). cbn in Hv. rewrite E1, Hd. simplify_eq. by eapply Hok.
  - destruct e; try (by destruct E as [Hf (E1 & _)]; rewrite E1, Hd; apply Herr).
    destruct E as ([E1 _] & db1 & now & Hv & Ha). cbn in Hv. rewrite E1, Hd. simplify_eq. by eapply Hnone.
  - destruct E as (E1 & _). by rewrite E1, Hd.
Qed.

Lemma leaves_Find db c pred sort limit : leaves db (call (Find Plain c pred sort limit)) (fun r db' => db' = db /\
  (forall e, r = Err e -> foreign e) /\ forall l, r = Ok l -> exists all, all ≡ₚ filter (fun d => pred d = true) (allDocs c db) /\ l = limited limit all /\
    forall le, sort = Some le -> (forall a b, le a b || le b a = true) -> Sorted (fun a b => le a b = true) all).
Proof. eapply leaves_reading; [intros; by eapply Find_law| | | |by split_and!].
  - intros now l Hl. split_and!; [done|done|]. intros l' [= <-]. by apply Hl.
  - intros _ _. split_and!; [done| |done]. by intros e [= <-].
  - intros e He _. split_and!; [done| |done]. by intros e' [= <-].
Qed.

(** The BEEF that is answered for a transaction: of the bytes that its row refers to. *)
Definition beef_answer (db : DB) (txID : list byte) (beef : option Beef) : Prop :=
  forall b, beef = Some b -> exists (row : document transactions) data x y, docs transactions db !! transactionID s txID = Some row /\
    sha256Hex data = BeefDigest row /\ DecodeUint64 (BeefLength row) = Ok (FormatUint (len data)) /\ ParseBeef data = Ok (b, x, y).

Lemma bufferWriter_outside data : outside (bufferWriter (W := W) data).
Proof using Type. intros st. by apply wp_ret. Qed.

(** A copy into a buffer holds the bytes of the reference. *)
Lemma buffered_leaves db (ref : AdmissionPayloadRef) :
  leaves db (buffered (fun buf => CopyPayload s Plain ref (Some buf)))
    (fun r db' => aside db db' /\ forall data, r = Ok data -> sha256Hex data = Digest ref /\ ByteLength ref = FormatUint (len data)).
Proof.
  intros st Hd. unfold buffered, wp. pose proof (copy_asides s ref bufferWriter bufferWriter_outside db st Hd) as Ha.
  pose proof (CopyPayload_wp s ref (Some bufferWriter) st ltac:(intros w [= <-]; apply bufferWriter_outside)) as Hc. unfold wp in Ha, Hc.
  destruct (CopyPayload s Plain ref (Some bufferWriter) st) as [[[[]|e|] st']|]; [|by split..|done]. split; [done|]. intros data [= <-].
  destruct Hc as (tr & -> & _ & Hr). rewrite drop_app_length. by apply Hr.
Qed.

Lemma loadBeef_leaves db txID : leaves db (loadTransactionBeef s Plain txID) (fun r db' => aside db db' /\ forall beef, r = Ok beef -> beef_answer db txID beef).
Proof.
  unfold loadTransactionBeef. apply leaves_bind, leaves_attempt. eapply leaves_reading; [intros; by eapply (FindOne_law Plain transactions)| |intros _ _|intros e _ _|].
  2,3: apply leaves_ret; split; [done|]; by intros beef [= <-] b.
  2: by split.
  intros now row Hm. assert (Hrow : docs transactions db !! transactionID s txID = Some row) by (unfold matching in Hm; by destruct (docs transactions db !! _)).
  case_bool_decide; [apply leaves_ret; split; [done|]; by intros beef [= <-] b|].
  apply leaves_bind, leaves_lift. destruct (DecodeUint64 (BeefLength row)) as [length|e|] eqn:El; [|by split..].
  apply leaves_bind. eapply leaves_mono; [apply buffered_leaves|]. intros [data|e|] db' [Ha Hdata]; [|by split..]. destruct (Hdata data eq_refl) as [Hsha Hlen]. cbn [Digest ByteLength] in Hsha, Hlen.
  apply leaves_bind, leaves_lift. destruct (ParseBeef data) as [[[b x] y]|e|] eqn:Ep; [|by split..]. apply leaves_ret. split; [done|].
  intros beef [= <-] b' [= <-]. exists row, data, x, y. rewrite Hlen in El. by split_and!.
Qed.

(** What is answered for a row of an output: what the row and its edges say. *)
Definition answer (db : DB) (includeBEEF : bool) (d : outputDocument) (o : EngineOutput Beef) : Prop :=
  exists o0 ins outs beef le1 le2, outputFields d = Ok o0 /\ o = setBeef (setConsumedBy (setConsumed o0 ins) outs) beef /\
    le1 ≡ₚ filter (fun e => consumedBy s d e = true) (allDocs edges db) /\ Forall2 (fun e op => outpointFromParts (SourceTxID e) (SourceIndex e) = Ok op) le1 ins /\
    le2 ≡ₚ filter (fun e => leavesFrom s (odTopic d) (odTxID d) (odOutputIndex d) e = true) (allDocs edges db) /\
    Forall2 (fun e op => outpointFromParts (ConsumerTxID e) (ConsumerIndex e) = Ok op) le2 outs /\
    if includeBEEF then beef_answer db (odTxID d) beef else beef = None.

Lemma answer_aside db db' b d o : aside db db' -> answer db' b d o -> answer db b d o.
Proof using Type.
  intros Ha (o0 & ins & outs & beef & le1 & le2 & H1 & H2 & H3 & H4 & H5 & H6 & H7). unfold allDocs in H3, H5. rewrite (Ha edges) in H3, H5 by done.
  exists o0, ins, outs, beef, le1, le2. split_and!; try done. destruct b; [|done]. intros b' E. destruct (H7 b' E) as (row & data & x & y & Hrow & ?).
  rewrite (Ha transactions) in Hrow by done. by exists row, data, x, y.
Qed.

(** An edge, read at one of its ends. *)
Definition end_of (sources : bool) (e : edgeDocument) : result Outpoint :=
  if sources then outpointFromParts (SourceTxID e) (SourceIndex e) else outpointFromParts (ConsumerTxID e) (ConsumerIndex e).

Definition unreadable (db : DB) (pred : edgeDocument -> bool) (sources : bool) (err : error) : Prop :=
  exists e, e ∈ allDocs edges db /\ pred e = true /\ end_of sources e = Err err.

Lemma lookupEdges_leaves db pred (sources : bool) : leaves db (lookupEdges Plain pred sources) (fun r db' => db' = db /\ (forall e, r = Err e -> foreign e \/ unreadable db pred sources e) /\ forall ops, r = Ok ops ->
  exists l, l ≡ₚ filter (fun e => pred e = true) (allDocs edges db) /\
    Forall2 (fun e op => end_of sources e = Ok op) l ops).
Proof.
  unfold lookupEdges. apply leaves_bind. eapply leaves_mono; [apply (leaves_Find db edges)|]. intros [l|e|] db' (-> & He & Hl); [|split_and!; [done| |done]; intros e' [= <-]; left; by apply He|by split_and!].
  destruct (Hl l eq_refl) as (all & Hall & -> & _). apply leaves_lift. split_and!; [done| |intros ops E%mapM_Ok; by exists all].
  intros e (x & Hx & E)%mapM_Err. right. exists x. change (x ∈ all) in Hx. rewrite Hall in Hx. apply list_elem_of_filter in Hx as [??]. by split_and!.
Qed.

Lemma outputFields_beef d (o0 : EngineOutput Beef) : outputFields d = Ok o0 -> oBeef o0 = None.
Proof using Type.
  unfold outputFields. intros (op & _ & E)%bind_Ok. apply bind_Ok in E as (score & _ & E). apply bind_Ok in E as (height & _ & E).
  destruct (_ <? _); [done|]. apply bind_Ok in E as (index & _ & E). apply bind_Ok in E as (root & _ & E). by injection E as <-.
Qed.

(** Why a row is not answered: the driver fails, the row or an edge cannot be read, or,
    when it is asked for, the BEEF. *)
Definition faulty (db : DB) (includeBEEF : bool) (d : outputDocument) (e : error) : Prop :=
  foreign e \/ outputFields d = Err (A := EngineOutput Beef) e \/ unreadable db (consumedBy s d) true e \/
  unreadable db (leavesFrom s (odTopic d) (odTxID d) (odOutputIndex d)) false e \/ includeBEEF = true.

Lemma fromDocument_leaves db includeBEEF d :
  leaves db (outputFromDocument s Plain includeBEEF d) (fun r db' => aside db db' /\ (forall e, r = Err e -> faulty db includeBEEF d e) /\ forall o, r = Ok o -> answer db includeBEEF d o).
Proof.
  unfold faulty, outputFromDocument. apply leaves_bind, leaves_lift. destruct (outputFields d) as [o0|e|] eqn:E0; [|by split_and!; [done|intros e' [= <-]; auto|]|by split_and!]. pose proof (outputFields_beef _ _ E0) as Eb.
  apply leaves_bind. unfold edgesForOutput. apply leaves_bind. eapply leaves_mono; [apply lookupEdges_leaves|].
  intros [ins|e|] db' (-> & He & H1); [|by split_and!; [done|intros e' [= <-]; destruct (He e eq_refl); auto|]|by split_and!].
  destruct (H1 ins eq_refl) as (le1 & P1 & F1). clear He. apply leaves_bind. eapply leaves_mono; [apply lookupEdges_leaves|].
  intros [outs|e|] db' (-> & He & H2); [|by split_and!; [done|intros e' [= <-]; destruct (He e eq_refl); auto|]|by split_and!].
  destruct (H2 outs eq_refl) as (le2 & P2 & F2). apply leaves_ret. destruct includeBEEF.
  - apply leaves_bind. eapply leaves_mono; [apply loadBeef_leaves|]. intros [beef|e|] db' [Ha Hb]; [|by split_and!; [done|intros; auto|]..]. apply leaves_ret. split_and!; [done|done|]. intros o [= <-].
    exists o0, ins, outs, beef, le1, le2. split_and!; try done. by apply Hb.
  - apply leaves_ret. split_and!; [done|done|]. intros o [= <-]. exists o0, ins, outs, None, le1, le2. split_and!; try done. destruct o0. cbn in Eb. by subst.
Qed.

Lemma fromDocuments_leaves db includeBEEF ds :
  leaves db (mapM (outputFromDocument s Plain includeBEEF) ds) (fun r db' => aside db db' /\ forall os, r = Ok os -> Forall2 (answer db includeBEEF) ds os).
Proof.
  revert db. induction ds as [|d ds IH]; intros db.
  - apply leaves_ret. split; [done|]. intros os [= <-]. constructor.
  - apply leaves_bind. eapply leaves_mono; [apply fromDocument_leaves|]. intros [o|e|] db1 (Ha1 & _ & Ho); [|by split..].
    apply leaves_bind. eapply leaves_mono; [apply IH|]. intros [os|e|] db2 [Ha2 Hos]; [|by split; [eapply aside_trans|]..].
    apply leaves_ret. split; [by eapply aside_trans|]. intros os' [= <-]. constructor; [by apply Ho|]. eapply Forall2_impl; [by apply Hos|].
    intros d' o'. by apply answer_aside.
Qed.

(** What [FindOutput] answers. *)
Definition found_output (db : DB) (op : Outpoint) (topic : option (list byte)) (spent : option bool) (includeBEEF : bool) (r : result (option (EngineOutput Beef))) : Prop :=
  match r with
  | Ok (Some o) => exists id (d : document outputs), docs outputs db !! id = Some d /\ outpointFilter s op topic spent d = true /\ answer db includeBEEF d o
  | Ok None => forall id (d : document outputs), docs outputs db !! id = Some d -> outpointFilter s op topic spent d = false
  | Err e => foreign e \/ exists id (d : document outputs), docs outputs db !! id = Some d /\ outpointFilter s op topic spent d = true /\ faulty db includeBEEF d e
  | Panic => True
  end.

Lemma FindOutput_leaves db op topic spent includeBEEF :
  leaves db (FindOutput s Plain (Some op) topic spent includeBEEF) (fun r db' => aside db db' /\ found_output db op topic spent includeBEEF r).
Proof.
  unfold FindOutput. apply leaves_bind, leaves_attempt. eapply leaves_reading; [intros; by eapply (FindFirst_law Plain outputs)| | | |done].
  - intros _ d (id & Hd & Hp). apply leaves_bind. eapply leaves_mono; [apply fromDocument_leaves|]. intros [o|e|] db' (Ha & He & Ho); [|by split; [done|]; right; exists id, d; split_and!; [..|apply He]|by split].
    apply leaves_ret. split; [done|]. exists id, d. split_and!; [done|done|by apply Ho].
  - intros ? Hnone. apply leaves_ret. by split.
  - intros e Hf He. destruct e; try done; apply leaves_lift; split; try done; by left.
Qed.

Lemma scoreOrder_total a b : scoreOrder a b || scoreOrder b a = true.
Proof using Type.
  unfold scoreOrder. destruct (float_gt (EngineScore b) (EngineScore a)); [done|]. destruct (float_gt (EngineScore a) (EngineScore b)); [done|]. cbn.
  destruct (bytes_leb_total (od_ID a) (od_ID b)) as [-> | ->]; [done|apply orb_true_r].
Qed.

End Finding.

(** ** Texts are read back *)

Lemma parseCanonicalHash_canonical h : parseCanonicalHash (canonicalHash h) = Ok h.
Proof.
  unfold parseCanonicalHash, canonicalHash. rewrite hex_decode_encode. unfold len. rewrite hash_length. change (Z.of_nat 32 =? 32) with true. cbv iota.
  by rewrite array32_hbytes.
Qed.

Lemma canonicalHash_inj h1 h2 : canonicalHash h1 = canonicalHash h2 -> h1 = h2.
Proof. intros E%hex_encode_inj. by apply Hash_eq. Qed.

Lemma parseHashList_strings hashes : parseHashList (hashStrings hashes) = omap id hashes.
Proof.
  unfold parseHashList, hashStrings. induction hashes as [|[h|] hashes IH]; [done| |exact IH]. cbn [omap list_omap fmap option_fmap option_map id] in *.
  rewrite parseCanonicalHash_canonical. by f_equal.
Qed.

Lemma encode_format n : is_u64 n -> EncodeUint64 (FormatUint n) = Ok (fixed20 n).
Proof. intros Hn. apply EncodeUint64_Ok. by exists n. Qed.

Lemma decode_fixed n : is_u64 n -> DecodeUint64 (fixed20 n) = Ok (FormatUint n).
Proof. intros Hn. apply DecodeUint64_Ok. by exists n. Qed.

Lemma parse_index n : is_u32 n -> ParseStorageOutputIndex (FormatUint n) = Ok n.
Proof.
  intros Hn. unfold ParseStorageOutputIndex. rewrite (proj2 (ParseStorageUint64_Ok (FormatUint n) n)) by (split; [by apply u32_u64|done]). cbn [mbind result_bind].
  unfold is_u32 in Hn. destruct (Z.ltb_spec MaxUint32 n); [lia|]. f_equal. unfold u32. apply Z.mod_small. unfold MaxUint32 in Hn. lia.
Qed.

Lemma encode_index n : is_u32 n -> encodeOutpointIndex (FormatUint n) = Ok (fixed20 n).
Proof. intros Hn. unfold encodeOutpointIndex. rewrite parse_index by done. cbn [mbind result_bind]. by apply encode_format, u32_u64. Qed.

Lemma outpoint_parts h n : is_u32 n -> outpointFromParts (canonicalHash h) (fixed20 n) = Ok (mkOutpoint h n).
Proof.
  intros Hn. unfold outpointFromParts. rewrite parseCanonicalHash_canonical. cbn [mbind result_bind]. rewrite decode_fixed by by apply u32_u64. cbn [mbind result_bind].
  by rewrite parse_index.
Qed.

(** ** What was inserted *)

Section Rows.
Context (s : Store) (topic : list byte) (txid : Hash) (ancillary : list (option Hash)) (now : Time).
Local Abbreviation txID := (canonicalHash txid).
Local Abbreviation at_vout v := (mkAdmissionOutpoint txID (FormatUint v)).

Lemma output_row v d : is_u32 v -> output_of s topic txID (hashStrings ancillary) now v d ->
  d = mkOutputDocument (outputID s topic (at_vout v)) (scopeID s) topic txID (fixed20 v) (fixed20 0) (fixed20 0) (float64 now) false true
        spendVersionInitial [] merkleStateUnmined [] [] [] [] [] [] [] (hashStrings ancillary) now now.
Proof.
  intros Hv. unfold output_of, engineOutputDocument. cbn [opOutputIndex]. rewrite encode_index by done. cbn [mbind result_bind].
  change (str "0") with (FormatUint 0). rewrite encode_format by done. cbn [mbind result_bind opTxID]. congruence.
Qed.

Lemma edge_row v c d : is_u32 v -> is_u32 (Index c) -> edge_of s topic now (at_vout v) c d ->
  d = mkEdgeDocument (edgeID s topic (mkEdge (admissionOutpoint c) (at_vout v))) (scopeID s) topic (canonicalHash (Txid c)) (fixed20 (Index c)) txID (fixed20 v) now.
Proof.
  intros Hv Hc. unfold edge_of, edgeDocumentOf. cbn [Admission.Source Consumer admissionOutpoint opOutputIndex opTxID]. rewrite !encode_index by done. cbn [stored mbind result_bind]. congruence.
Qed.

End Rows.

Lemma foldl_inserted (outs : list outputDocument) (m : gmap (list byte) outputDocument) : NoDup (od_ID <$> outs) -> (forall d, d ∈ outs -> m !! od_ID d = None) ->
  let m' := foldl (fun m (d : outputDocument) => <[od_ID d := default d (m !! od_ID d)]> m) m outs in
  (forall d, d ∈ outs -> m' !! od_ID d = Some d) /\ (forall k d, m' !! k = Some d -> m !! k = Some d \/ d ∈ outs) /\ (forall k, k ∉ od_ID <$> outs -> m' !! k = m !! k).
Proof.
  revert m. induction outs as [|d outs IH]; intros m Hnd Hfresh; cbn [foldl]; [split_and!; [by intros d ?%elem_of_nil|by left|done]|].
  rewrite fmap_cons in Hnd. apply NoDup_cons in Hnd as [Hni Hnd]. rewrite (Hfresh d) by by left. cbn [default].
  destruct (IH (<[od_ID d := d]> m) Hnd) as (H1 & H2 & H3).
  { intros d' Hd'. rewrite lookup_insert_ne; [by apply Hfresh; right|]. intros E. apply Hni. rewrite E. by apply list_elem_of_fmap_2. }
  split_and!.
  - intros d' [->|Hd']%elem_of_cons; [|by apply H1]. by rewrite H3, lookup_insert_eq.
  - intros k d' [Hk|Hk]%H2; [|by right; right]. apply lookup_insert_Some in Hk as [[_ <-]|[_ Hk]]; [right; by left|by left].
  - intros k Hk. rewrite fmap_cons, not_elem_of_cons in Hk. destruct Hk as [Hne Hk]. rewrite H3 by done. by rewrite lookup_insert_ne.
Qed.

Lemma filter_none {A} (P : A -> Prop) `{forall x, Decision (P x)} (l : list A) : (forall x, x ∈ l -> ~ P x) -> filter P l = [].
Proof.
  induction l as [|x l IH]; intros Hl; [done|]. rewrite filter_cons_False by (apply Hl; by left). apply IH. intros y Hy. apply Hl. by right.
Qed.

Lemma filter_all {A} (P : A -> Prop) `{forall x, Decision (P x)} (l : list A) : (forall x, x ∈ l -> P x) -> filter P l = l.
Proof.
  induction l as [|x l IH]; intros Hl; [done|]. rewrite filter_cons_True by (apply Hl; by left). f_equal. apply IH. intros y Hy. apply Hl. by right.
Qed.

Lemma filter_same {A} (P Q : A -> Prop) `{forall x, Decision (P x), forall x, Decision (Q x)} (l : list A) :
  (forall x, x ∈ l -> P x <-> Q x) -> filter P l = filter Q l.
Proof.
  induction l as [|x l IH]; intros Hl; [done|]. specialize (IH ltac:(intros y Hy; apply Hl; by right)). pose proof (Hl x ltac:(by left)) as Hx.
  destruct (decide (P x)); [rewrite !filter_cons_True by tauto|rewrite !filter_cons_False by tauto]; by rewrite IH.
Qed.

(** Of lists that belong to different keys, none or one is selected. *)
Lemma filter_concat_none {A K} (P : A -> Prop) `{forall x, Decision (P x)} (R : K -> list A -> Prop) keys lists :
  Forall2 R keys lists -> (forall k l x, k ∈ keys -> R k l -> x ∈ l -> ~ P x) -> filter P (concat lists) = [].
Proof.
  intros HR. induction HR as [|k l keys lists Hr HR IH]; intros HP; [done|]. cbn [concat]. rewrite filter_app, (filter_none P l), IH; [done| |].
  - intros k' l' x Hk. apply HP. by right.
  - intros x. by apply (HP k); [left|].
Qed.

Lemma filter_concat {A K} (P : A -> Prop) `{forall x, Decision (P x)} (R : K -> list A -> Prop) keys lists k :
  NoDup keys -> Forall2 R keys lists -> k ∈ keys -> (forall k' l x, k' ∈ keys -> R k' l -> x ∈ l -> (P x <-> k' = k)) ->
  R k (filter P (concat lists)).
Proof.
  intros Hnd HR. induction HR as [|k' l keys lists Hr HR IH]; intros Hin HP; [by apply elem_of_nil in Hin|]. apply NoDup_cons in Hnd as [Hni Hnd].
  cbn [concat]. rewrite filter_app. apply elem_of_cons in Hin as [->|Hin].
  - rewrite (filter_all P l) by (intros x Hx; apply (HP k' l x); [by left|done..]). rewrite (filter_concat_none P R keys lists HR); [by rewrite app_nil_r|].
    intros k l' x Hk Hrk Hx Hp. apply Hni. rewrite <- (proj1 (HP k l' x ltac:(by right) Hrk Hx) Hp). done.
  - rewrite (filter_none P l); [apply IH; [done|done|]; intros k2 l2 x Hk2; apply HP; by right|].
    intros x Hx Hp. apply Hni. by rewrite (proj1 (HP k' l x ltac:(by left) Hr Hx) Hp).
Qed.

(** The answers to permuted questions are permuted. *)
Lemma answers_permuted {A B} (f : A -> result B) l1 l2 k1 k2 :
  l1 ≡ₚ l2 -> Forall2 (fun x y => f x = Ok y) l1 k1 -> Forall2 (fun x y => f x = Ok y) l2 k2 -> k1 ≡ₚ k2.
Proof.
  assert (E : forall l k, Forall2 (fun x y => f x = Ok y) l k -> k = l ≫= fun x => match f x with Ok y => [y] | _ => [] end).
  { intros l k H. induction H as [|x y l k Hx H IH]; [done|]. cbn. rewrite Hx. cbn. by f_equal. }
  intros Hp ->%E ->%E. by rewrite Hp.
Qed.

(** ** The methods of the storage *)

Section Methods.
Context {W Beef : Type} `{!Mongo W, !MongoState W, !GridFS W, !GridFSState W, !TransactionSDK Beef} {laws : MongoLaws W} {blobLaws : GridFSLaws W}.
Context (s : Store).
Local Abbreviation St := (St W tevent).
Local Abbreviation Run := (Runs.Run St).
#[local] Set Default Proof Using "Type laws blobLaws".

(** What is written for an insertion that was prepared. *)
Record prepared_for (topic : list byte) (txid : Hash) (beef : option Beef) (ancillary : list (option Hash)) (prepared : admittedOutputWrite) : Prop := {
  pf_topic : awTopic prepared = topic;
  pf_txid : awTxID prepared = canonicalHash txid;
  pf_ancillary : awAncillary prepared = hashStrings ancillary;
  pf_beef : match beef with
    | None => awBeefRef prepared = None
    | Some b => exists bytes, AtomicBytes b txid = Ok bytes /\ awBeefRef prepared = Some (payloadRefFromBytes bytes AdmissionPayloadBEEFManifest)
    end }.

(** The outputs, their edges and their transaction were inserted between two states. *)
Definition was_inserted (topic : list byte) (txid : Hash) (vouts : list Z) (consumed : list (option Outpoint)) (beef : option Beef) (ancillary : list (option Hash)) (db db' : DB) : Prop :=
  exists prepared db0, aside db db0 /\ prepared_for topic txid beef ancillary prepared /\ insertion s prepared vouts (omap id consumed) db0 db'.

Definition insert_result (topic : list byte) (txid : Hash) (vouts : list Z) (consumed : list (option Outpoint)) (beef : option Beef) (ancillary : list (option Hash))
    (db db' : DB) (r : result unit) : Prop :=
  match r with
  | Ok _ => was_inserted topic txid vouts consumed beef ancillary db db'
  | Err e => aside db db' \/ unresolved e /\ was_inserted topic txid vouts consumed beef ancillary db db'
  | Panic => aside db db' \/ was_inserted topic txid vouts consumed beef ancillary db db'
  end.

Lemma prepare_leaves db topic txid (beef : option Beef) ancillary :
  leaves db (prepareAdmittedOutputs s Plain topic txid beef ancillary) (fun r db' => aside db db' /\ forall prepared, r = Ok prepared -> prepared_for topic txid beef ancillary prepared).
Proof.
  unfold prepareAdmittedOutputs. apply leaves_bind, leaves_same; [intros * E; by apply Now_law in E as [? _]|]. intros [now|e|]; [|by split..].
  destruct beef as [beef|]; [|apply leaves_ret; split; [done|]; by intros prepared [= <-]].
  apply leaves_bind. unfold publishTransactionBeef. apply leaves_bind, leaves_lift. destruct (AtomicBytes beef txid) as [bytes|e|] eqn:Eb; [|by split..]. cbv zeta.
  intros st Hd. apply wp_bind. eapply wp_mono; [apply bytesReader_wp|]. intros r st1 (-> & reader & -> & Hr1 & Hr2). apply wp_bind.
  eapply wp_mono; [by apply (publish_asides s (payloadRefFromBytes bytes AdmissionPayloadBEEFManifest) reader Hr1 Hr2 db)|]. intros [[]|e|] st2 Ha; [|by split..].
  apply wp_ret, leaves_ret. split; [done|]. intros prepared [= <-]. constructor; try done. by exists bytes.
Qed.

Lemma InsertOutputs_leaves db topic txid vouts consumed (beef : option Beef) ancillary :
  leaves db (InsertOutputs s Plain topic (Some txid) vouts consumed beef ancillary) (fun r db' => insert_result topic txid vouts consumed beef ancillary db db' r).
Proof.
  unfold InsertOutputs. destruct (negb _); [apply leaves_lift; by left|]. apply leaves_bind. eapply leaves_mono; [apply prepare_leaves|].
  intros [prepared|e|] db0 [Ha Hp]; [|by left..]. specialize (Hp prepared eq_refl). apply leaves_bind.
  eapply leaves_mono; [apply (leaves_transaction s db0 (fun ctx => insertPreparedOutputs s ctx prepared vouts consumed) (fun _ db' => insertion s prepared vouts (omap id consumed) db0 db')), prepared_tx|].
  assert (Hins : forall db', insertion s prepared vouts (omap id consumed) db0 db' -> was_inserted topic txid vouts consumed beef ancillary db db') by (intros db' Hi; by exists prepared, db0).
  assert (Hper : forall db', perhaps db0 (fun (_ : unit) db' => insertion s prepared vouts (omap id consumed) db0 db') db' -> aside db db' \/ was_inserted topic txid vouts consumed beef ancillary db db').
  { intros db' [->|[_ Hi]]; [by left|right; by apply Hins]. }
  intros [[o r]|e|] db' Hs; [|done|by apply Hper]. apply leaves_lift. destruct o, r as [[]|e|]; cbn in Hs; try done;
    [left; by rewrite Hs|by apply Hins|destruct Hs as [Hu [->|[_ Hi]]]; [by left|right; split; [done|by apply Hins]]].
Qed.

(** Nothing of a transaction is stored under a topic, and no two of its outputs have the same identifier. *)
Record is_new (topic : list byte) (txid : Hash) (vouts : list Z) (consumed : list (option Outpoint)) (db : DB) : Prop := {
  new_outputs : forall k (d : document outputs), docs outputs db !! k = Some d -> odScope d = scopeID s -> odTopic d = topic -> odTxID d <> canonicalHash txid;
  new_edges : forall k (e : document edges), docs edges db !! k = Some e -> edScope e = scopeID s -> edTopic e = topic ->
    ConsumerTxID e <> canonicalHash txid /\ SourceTxID e <> canonicalHash txid;
  new_ids : forall v, v ∈ vouts -> docs outputs db !! outputID s topic (mkAdmissionOutpoint (canonicalHash txid) (FormatUint v)) = None;
  new_distinct : NoDup ((fun v => outputID s topic (mkAdmissionOutpoint (canonicalHash txid) (FormatUint v))) <$> vouts);
  new_vouts : Forall is_u32 vouts;
  new_consumed : forall c, Some c ∈ consumed -> is_u32 (Index c) /\ Txid c <> txid }.

(** What is found of an output that was inserted and not touched since. *)
Record as_inserted (topic : list byte) (txid : Hash) (vout : Z) (consumed : list (option Outpoint)) (beef : option Beef) (ancillary : list (option Hash)) (o : EngineOutput Beef) : Prop := {
  ai_outpoint : oOutpoint o = mkOutpoint txid vout;
  ai_topic : oTopic o = topic;
  ai_spent : oSpent o = false;
  ai_consumed : OutputsConsumed o ≡ₚ omap id consumed;
  ai_consumers : ConsumedBy o = [];
  ai_block : oBlockHeight o = 0 /\ oBlockIdx o = 0;
  ai_ancillary : AncillaryTxids o = omap id ancillary;
  ai_merkle : oMerkleState o = MerkleStateUnmined /\ oMerkleRoot o = None;
  ai_beef : forall b0 b, beef = Some b0 -> oBeef o = Some b -> exists bytes data x y, AtomicBytes b0 txid = Ok bytes /\
    sha256Hex data = sha256Hex bytes /\ FormatUint (len data) = FormatUint (len bytes) /\ ParseBeef data = Ok (b, x, y) }.

Context (topic : list byte) (txid : Hash) (vouts : list Z) (consumed : list (option Outpoint)) (beef : option Beef) (ancillary : list (option Hash)).
Context (db db' : DB) (Hnew : is_new topic txid vouts consumed db) (Hins : was_inserted topic txid vouts consumed beef ancillary db db').
#[local] Set Default Proof Using "Type Hnew Hins".
Local Abbreviation txID := (canonicalHash txid).

(** The rows of the outputs, and no other row of the transaction under the topic. *)
Lemma inserted_rows : exists now, 
  (forall v, v ∈ vouts -> exists d, output_of s topic txID (hashStrings ancillary) now v d /\ docs outputs db' !! od_ID d = Some d) /\
  (forall k (d : document outputs), docs outputs db' !! k = Some d -> odScope d = scopeID s -> odTopic d = topic -> odTxID d = txID ->
    exists v, v ∈ vouts /\ output_of s topic txID (hashStrings ancillary) now v d).
Proof.
  destruct Hins as (prepared & db0 & Ha & [Et Ex Ean _] & db1 & outs & news & Hb & _ & [Ho _] & [Eo _ _]). exists (awNow prepared). rewrite Et, Ex, Ean in Ho.
  rewrite (Hb outputs), (Ha outputs) in Eo by done. destruct Hnew as [N1 _ N3 N4 N5 _].
  assert (Hids : od_ID <$> outs = (fun v => outputID s topic (mkAdmissionOutpoint txID (FormatUint v))) <$> vouts).
  { clear -Ho N5. induction Ho as [|v d vouts outs Hd Ho IH]; [done|]. apply Forall_cons in N5 as [Hv N5]. cbn. f_equal; [|by apply IH]. by rewrite (output_row s topic txid ancillary _ v d Hv Hd). }
  assert (Hfresh : forall d, d ∈ outs -> docs outputs db !! od_ID d = None).
  { intros d Hd. apply (list_elem_of_fmap_2 od_ID) in Hd. rewrite Hids in Hd. apply list_elem_of_fmap in Hd as (v & -> & Hv). by apply N3. }
  rewrite <- Hids in N4. destruct (foldl_inserted outs (docs outputs db) N4 Hfresh) as (H1 & H2 & _). cbn [docs document] in *. rewrite <- Eo in H1, H2. split.
  - intros v [i Hi]%list_elem_of_lookup. destruct (Forall2_lookup_l _ _ _ _ _ Ho Hi) as (d & Hd & Hod). exists d. split; [done|]. apply H1. by eapply list_elem_of_lookup_2.
  - intros k d Hk Hs Ht Hx. destruct (H2 k d Hk) as [Hold|[i Hi]%list_elem_of_lookup]; [by destruct (N1 k d Hold Hs Ht)|].
    destruct (Forall2_lookup_r _ _ _ _ _ Ho Hi) as (v & Hv & Hod). exists v. split; [by eapply list_elem_of_lookup_2|done].
Qed.

Lemma old_edge e : e ∈ allDocs edges db -> edScope e = scopeID s -> edTopic e = topic -> ConsumerTxID e <> txID /\ SourceTxID e <> txID.
Proof using Hnew. unfold allDocs. intros ([k e'] & -> & Hk%elem_of_map_to_list)%list_elem_of_fmap. by apply (new_edges _ _ _ _ _ Hnew k). Qed.

(** The edges into an output that was inserted, and none out of it. *)
Lemma inserted_edges v : v ∈ vouts -> exists now es,
  Forall2 (edge_of s topic now (mkAdmissionOutpoint txID (FormatUint v))) (omap id consumed) es /\
  (forall d, odTopic d = topic -> odTxID d = txID -> odOutputIndex d = fixed20 v ->
     filter (fun e => consumedBy s d e = true) (allDocs edges db') ≡ₚ es) /\
  filter (fun e => leavesFrom s topic txID (fixed20 v) e = true) (allDocs edges db') = [].
Proof.
  intros Hv. destruct Hins as (prepared & db0 & Ha & [Et Ex Ean _] & db1 & outs & news & Hb & _ & [_ Hn] & [_ Ee _]). rewrite Et, Ex in Hn.
  assert (Ed : allDocs edges db1 = allDocs edges db) by (unfold allDocs; by rewrite (Hb edges), (Ha edges)). rewrite Ed in Ee.
  pose proof (new_distinct _ _ _ _ _ Hnew) as Hnd%NoDup_fmap_1. pose proof (new_vouts _ _ _ _ _ Hnew) as Hu. rewrite Forall_forall in Hu.
  assert (Hrow : forall v' es e, v' ∈ vouts -> Forall2 (edge_of s topic (awNow prepared) (mkAdmissionOutpoint txID (FormatUint v'))) (omap id consumed) es -> e ∈ es ->
    edScope e = scopeID s /\ edTopic e = topic /\ ConsumerTxID e = txID /\ ConsumerIndex e = fixed20 v' /\ SourceTxID e <> txID).
  { intros v' es e Hv' Hes [i Hi]%list_elem_of_lookup. destruct (Forall2_lookup_r _ _ _ _ _ Hes Hi) as (c & Hc & He). apply list_elem_of_lookup_2, list_elem_of_omap in Hc as (c' & Hc' & E).
    cbn in E. subst c'. destruct (new_consumed _ _ _ _ _ Hnew c Hc') as [Hc Hne]. apply (edge_row s topic txid _ v' c) in He; [|by apply Hu|done]. subst e. split_and!; try done.
    cbn [SourceTxID]. by intros ?%canonicalHash_inj. }
  set (R := fun v' es => Forall2 (edge_of s topic (awNow prepared) (mkAdmissionOutpoint txID (FormatUint v'))) (omap id consumed) es) in *.
  exists (awNow prepared), (filter (fun e => ConsumerIndex e = fixed20 v) (concat news)).
  assert (Hin : forall e, e ∈ concat news -> exists v' es, v' ∈ vouts /\ R v' es /\ e ∈ es).
  { intros e He. apply list_elem_of_In, in_concat in He as (es & Hes & He). apply list_elem_of_In in Hes, He. apply list_elem_of_lookup in Hes as [i Hi].
    destruct (Forall2_lookup_r _ _ _ _ _ Hn Hi) as (v' & Hv' & Hr). exists v', es. split_and!; [by eapply list_elem_of_lookup_2|exact Hr|done]. }
  split_and!.
  - apply (filter_concat _ R vouts); [done|exact Hn|done|]. intros v' es e Hv' Hr He. destruct (Hrow v' es e Hv' Hr He) as (_ & _ & _ & -> & _).
    split; [|by intros ->]. intros E%fixed20_inj; [done|by apply u32_u64, Hu..].
  - intros d Edt Edx Edi. rewrite Ee, filter_app. rewrite (filter_none _ (allDocs edges db)).
    + rewrite app_nil_r. apply reflexive_eq, filter_same. intros e (v' & es & Hv' & Hr & He)%Hin. destruct (Hrow v' es e Hv' Hr He) as (E1 & E2 & E3 & _ & _).
      unfold consumedBy. rewrite E1, E2, E3, Edt, Edx, Edi, !bool_decide_true by done. cbn [andb]. by rewrite bool_decide_eq_true.
    + intros e He Hc. unfold consumedBy in Hc. rewrite !andb_true_iff, !bool_decide_eq_true, Edt, Edx in Hc. destruct Hc as [[[E1 E2] E3] _]. by destruct (old_edge e He E1 E2).
  - apply filter_none. intros e. rewrite Ee. intros [(v' & es & Hv' & Hr & He)%Hin|He]%elem_of_app Hc; unfold leavesFrom in Hc;
      rewrite !andb_true_iff, !bool_decide_eq_true in Hc; destruct Hc as [[[E1 E2] E3] _].
    + by destruct (Hrow v' es e Hv' Hr He) as (_ & _ & _ & _ & ?).
    + by destruct (old_edge e He E1 E2).
Qed.

Lemma matches_filter v (d : outputDocument) : is_u32 v -> outpointFilter s (mkOutpoint txid v) (Some topic) None d = true <->
  odScope d = scopeID s /\ odTxID d = txID /\ odOutputIndex d = fixed20 v /\ odTopic d = topic.
Proof using Type.
  intros Hv. unfold outpointFilter, mustEncodeUint64. cbn [Txid Index]. rewrite encode_format by by apply u32_u64. rewrite !andb_true_iff, !bool_decide_eq_true. tauto.
Qed.

(** The BEEF that is answered is of the bytes that were published. *)
Lemma inserted_beef b0 b x : beef = Some b0 -> beef_answer s db' txID x -> x = Some b -> exists bytes data x y, AtomicBytes b0 txid = Ok bytes /\
  sha256Hex data = sha256Hex bytes /\ FormatUint (len data) = FormatUint (len bytes) /\ ParseBeef data = Ok (b, x, y).
Proof.
  intros Eb Hx Ex. destruct (Hx b Ex) as (row & data & y & z & Hrow & Hsha & Hlen & Hp).
  destruct Hins as (prepared & db0 & Ha & [_ Etx _ Hbeef] & db1 & outs & news & _ & Hrow1 & _ & [_ _ Eo]). rewrite Eb in Hbeef. destruct Hbeef as (bytes & Hbytes & Er).
  rewrite Er, Etx in Hrow1. destruct Hrow1 as (row1 & Hrow1 & Ed & _ & El). rewrite (Eo transactions) in Hrow by done. cbn [docs document] in *. simplify_eq.
  exists bytes, data, y, z. split_and!; [done|by rewrite Hsha, Ed| |done]. apply EncodeUint64_Ok in El as (n & Hn & E1 & E2). cbn [ByteLength payloadRefFromBytes] in E1.
  rewrite E2, decode_fixed in Hlen by done. rewrite E1. congruence.
Qed.

(** The row of an output that was inserted, read. *)
Lemma row_fields now v d : is_u32 v -> output_of s topic txID (hashStrings ancillary) now v d ->
  exists score, outputFields d = Ok (mkEngineOutput (mkOutpoint txid v) topic false [] [] 0 0 score (None : option Beef) (omap id ancillary) MerkleStateUnmined None).
Proof using Type.
  intros Hv ->%output_row; [|done]. assert (Hz : DecodeUint64 (fixed20 0) = Ok (FormatUint 0)) by (by apply decode_fixed).
  unfold outputFields, outpointFromDoc, optionalNumber. cbn [odTxID odOutputIndex odScore odBlockHeight odBlockIndex odMerkleRoot odAncillary odTopic MongoDriver.Spent EngineScore odMerkleState].
  rewrite outpoint_parts by done. cbn [mbind result_bind]. rewrite Hz. cbn [mbind result_bind]. rewrite !bool_decide_true by done. cbn [mbind result_bind].
  change (MaxUint32 <? 0) with false. cbv iota. rewrite parseHashList_strings. by eexists.
Qed.

(** The edges into it, read. *)
Lemma edge_sources now v es : is_u32 v -> Forall2 (edge_of s topic now (mkAdmissionOutpoint txID (FormatUint v))) (omap id consumed) es ->
  Forall2 (fun e op => end_of true e = Ok op) es (omap id consumed).
Proof.
  intros Hv Hes. apply Forall2_flip. eapply Forall2_impl; [apply Forall2_same_length_lookup_2; [by eapply Forall2_length|]|].
  - exact (fun i c e Hc He => conj (list_elem_of_lookup_2 _ _ _ Hc) (Forall2_lookup_lr _ _ _ _ _ _ Hes Hc He)).
  - intros c e [Hc He]. apply list_elem_of_omap in Hc as (c' & Hc' & E). cbn in E. subst c'. destruct (new_consumed _ _ _ _ _ Hnew c Hc') as [Hi _].
    apply (edge_row s topic txid _ v c) in He; [|done..]. subst e. cbn [end_of SourceTxID SourceIndex]. rewrite outpoint_parts by done. by destruct c.
Qed.

(** The row that is found is that of the output. *)
Lemma found_row v k (d : document outputs) : v ∈ vouts -> docs outputs db' !! k = Some d -> outpointFilter s (mkOutpoint txid v) (Some topic) None d = true ->
  odTopic d = topic /\ odTxID d = txID /\ odOutputIndex d = fixed20 v /\ exists now, output_of s topic txID (hashStrings ancillary) now v d.
Proof.
  intros Hv Hk Hm. pose proof (new_vouts _ _ _ _ _ Hnew) as Hu. rewrite Forall_forall in Hu. destruct inserted_rows as (now & Hrows & Honly).
  apply matches_filter in Hm as (Es & Ex & Ei & Et); [|by apply Hu]. split_and!; [done..|]. exists now.
  destruct (Honly k d Hk Es Et Ex) as (v' & Hv' & Hd). assert (v' = v) as <-; [|done]. apply output_row in Hd; [|by apply Hu].
  apply fixed20_inj; [by apply u32_u64, Hu..|]. rewrite <- Ei. by subst d.
Qed.

Lemma no_fault v includeBEEF k (d : document outputs) e : v ∈ vouts -> docs outputs db' !! k = Some d -> outpointFilter s (mkOutpoint txid v) (Some topic) None d = true ->
  faulty (Beef := Beef) s db' includeBEEF d e -> foreign e \/ includeBEEF = true.
Proof.
  intros Hv Hk Hm Hf. destruct (found_row v k d Hv Hk Hm) as (Et & Ex & Ei & now & Hd). pose proof (new_vouts _ _ _ _ _ Hnew) as Hu. rewrite Forall_forall in Hu.
  destruct (inserted_edges v Hv) as (now' & es & Hes & Hin & Hout). destruct (row_fields now v d (Hu v Hv) Hd) as [score Ef].
  destruct Hf as [Hf|[Hf|[(x & Hx & Hp & Hf)|[(x & Hx & Hp & Hf)|Hf]]]]; [by left| | | |by right]; exfalso.
  - rewrite Ef in Hf. done.
  - assert (Hx' : x ∈ filter (fun e => consumedBy s d e = true) (allDocs edges db')) by (by apply list_elem_of_filter).
    rewrite (Hin d Et Ex Ei) in Hx'. apply list_elem_of_lookup in Hx' as [i Hi].
    destruct (Forall2_lookup_l _ _ _ _ _ (edge_sources now' v es (Hu v Hv) Hes) Hi) as (c & _ & He). congruence.
  - assert (Hx' : x ∈ filter (fun e => leavesFrom s topic txID (fixed20 v) e = true) (allDocs edges db')) by (rewrite Et, Ex, Ei in Hp; by apply list_elem_of_filter).
    rewrite Hout in Hx'. by apply elem_of_nil in Hx'.
Qed.

Lemma inserted_found v includeBEEF r : v ∈ vouts -> found_output s db' (mkOutpoint txid v) (Some topic) None includeBEEF r ->
  match r with Ok None => False | Ok (Some o) => as_inserted topic txid v consumed beef ancillary o | Err e => foreign e \/ includeBEEF = true | Panic => True end.
Proof.
  intros Hv Hf. pose proof (new_vouts _ _ _ _ _ Hnew) as Hu. rewrite Forall_forall in Hu. destruct r as [[o|]|e|]; [| | |done].
  - destruct Hf as (k & d & Hk & Hm & o0 & ins & outs & b & le1 & le2 & H0 & -> & P1 & F1 & P2 & F2 & Hb). destruct (found_row v k d Hv Hk Hm) as (Et & Ex & Ei & now & Hd).
    destruct (inserted_edges v Hv) as (now' & es & Hes & Hin & Hout). rewrite (Hin d Et Ex Ei) in P1. rewrite Et, Ex, Ei, Hout in P2. apply Permutation_nil_r in P2 as ->. inversion F2. subst outs. clear F2 Hout.
    pose proof (answers_permuted _ _ _ _ _ P1 F1 (edge_sources now' v es (Hu v Hv) Hes)) as Hcons.
    destruct (row_fields now v d (Hu v Hv) Hd) as [score Ef]. rewrite Ef in H0. injection H0 as <-.
    constructor; try done; cbn [setBeef setConsumedBy setConsumed oBeef].
    intros b0 b' Eb E. destruct includeBEEF; [|congruence]. rewrite Ex in Hb. by eapply inserted_beef.
  - destruct inserted_rows as (now & Hrows & _). destruct (Hrows v Hv) as (d & Hd & Hk). specialize (Hf _ _ Hk). apply output_row in Hd; [|by apply Hu].
    assert (E : outpointFilter s (mkOutpoint txid v) (Some topic) None d = true) by (apply matches_filter; [by apply Hu|]; by subst d). congruence.
  - destruct Hf as [Hf|(k & d & Hk & Hm & Hf)]; [by left|]. by eapply no_fault.
Qed.

End Methods.

(** ** The other changes *)

Section Changes.
Context {W : Type} `{!Mongo W, !MongoState W, !GridFS W, !GridFSState W} {laws : MongoLaws W} {blobLaws : GridFSLaws W}.
Context (s : Store).
Local Abbreviation St := (St W tevent).
Local Abbreviation Run := (Runs.Run St).
#[local] Set Default Proof Using "Type laws".

Inductive change :=
  | Delete (o : Outpoint) (topic : list byte)
  | MarkSpent (os : list Outpoint) (topic : list byte) (spender : Hash)
  | ReplaceConsumers (o : Outpoint) (topic : list byte) (consumers : list Outpoint)
  | SetBlock (o : Outpoint) (topic : list byte) (height index : Z)
  | NoteApplied (txid : Hash) (topic : list byte)
  | NoteInteraction (host topic : list byte) (since : Z).

Definition make (c : change) : Run unit :=
  match c with
  | Delete o topic => DeleteOutput s Plain (Some o) topic
  | MarkSpent os topic spender => MarkUTXOsAsSpent s Plain (Some <$> os) topic (Some spender)
  | ReplaceConsumers o topic consumers => UpdateConsumedBy s Plain (Some o) topic (Some <$> consumers)
  | SetBlock o topic height index => UpdateOutputBlockHeight s Plain (Some o) topic height index
  | NoteApplied txid topic => InsertAppliedTransaction s Plain (Some (mkAppliedTransaction (Some txid) topic))
  | NoteInteraction host topic since => UpdateLastInteraction s Plain host topic since
  end.

Local Abbreviation idOf topic o := (outputID s topic (admissionOutpoint o)).

Definition spent (topic : list byte) (spender : Hash) (now : Time) (db : DB) (o : Outpoint) : DB :=
  altered outputs (idOf topic o) (setSpent (canonicalHash spender) now) db.

(** The state that a change leaves, made at a time. *)
Definition changed (now : Time) (c : change) (db : DB) : DB :=
  match c with
  | Delete o topic => put outputs (delete (idOf topic o) (docs outputs db)) db
  | MarkSpent os topic spender => foldl (spent topic spender now) db os
  | ReplaceConsumers o topic consumers =>
      foldl (edgeEffect s topic now)
        (put edges (filter (fun p => leavesFrom s topic (canonicalHash (Txid o)) (fixed20 (Index o)) p.2 = false) (docs edges db)) db)
        ((fun c => mkEdge (admissionOutpoint o) (admissionOutpoint c)) <$> consumers)
  | SetBlock o topic height index => altered outputs (idOf topic o) (setOutputBlock (fixed20 height) (fixed20 index) now) db
  | NoteApplied txid topic =>
      let id := appliedID s topic (canonicalHash txid) in
      put applied (<[id := default (mkAppliedDocument id (scopeID s) topic (canonicalHash txid) false [] [] [] [] [] [] [] [] now now) (docs applied db !! id)]> (docs applied db)) db
  | NoteInteraction host topic since =>
      let id := cursorID s host topic in
      put cursors (<[id := match docs cursors db !! id with Some d => setSince since now d | None => mkCursorDocument id (scopeID s) host topic since now now end]> (docs cursors db)) db
  end.

(** What may have been made of a change that failed. *)
Definition part_of (c' c : change) : Prop :=
  match c, c' with
  | MarkSpent os topic spender, MarkSpent os' topic' spender' => os' `prefix_of` os /\ topic' = topic /\ spender' = spender
  | _, _ => c' = c
  end.

Definition change_made (c : change) (db db' : DB) (r : result unit) : Prop :=
  match r with
  | Ok _ => exists now, db' = changed now c db
  | _ => db' = db \/ exists now c', part_of c' c /\ db' = changed now c' db
  end.

(** The numbers of a change have their width. *)
Definition change_typed (c : change) : Prop :=
  match c with
  | ReplaceConsumers o _ _ => is_u32 (Index o)
  | SetBlock _ _ height index => is_u32 height /\ is_u64 index
  | _ => True
  end.

Lemma altered_update c (id : list byte) (u : document c -> document c) db now a db' :
  updateEffect c id anyDocument (fun _ => u) db now = Some (a, db') -> db' = altered c id u db.
Proof using Type.
  unfold updateEffect, altered, matching, anyDocument. destruct (docs c db !! id) as [d|] eqn:Ed; intros [= _ <-].
  - unfold store. f_equal. symmetry. by apply alter_alt_Some.
  - rewrite alter_id' by done. by rewrite put_docs.
Qed.

(** A write outside of a transaction, with the effect [g]. *)
Lemma leaves_write {A} db (op : Op W A) (f : effect A) (g : Time -> DB) (P : result unit -> DB -> Prop) :
  (forall w r w', op w = (r, w') -> writing Plain w w' r f) -> (forall now a db', f db now = Some (a, db') -> db' = g now) ->
  (forall r, r <> Ok tt -> P r db) -> (forall now r, P r (g now)) -> leaves db (_ ← call op; mret tt) P.
Proof using Type.
  intros Hop Hf H0 H1. apply leaves_bind. eapply leaves_plain, plain_writing; [done| | | |].
  - intros now a db' ->%Hf. by apply leaves_ret.
  - intros e _. by apply H0.
  - intros e now a db' _ _ _ ->%Hf. apply H1.
  - by apply H0.
Qed.

Lemma leaves_write_unit db (op : Op W unit) (f : effect unit) (g : Time -> DB) (P : result unit -> DB -> Prop) :
  (forall w r w', op w = (r, w') -> writing Plain w w' r f) -> (forall now a db', f db now = Some (a, db') -> db' = g now) ->
  (forall r, r <> Ok tt -> P r db) -> (forall now r, P r (g now)) -> leaves db (call op) P.
Proof using Type.
  intros Hop Hf H0 H1. eapply leaves_plain, plain_writing; [done| | | |].
  - intros now a db' ->%Hf. apply H1.
  - intros e _. by apply H0.
  - intros e now a db' _ _ _ ->%Hf. apply H1.
  - by apply H0.
Qed.

Lemma leaves_Now {A} db (f : Time -> Run A) (P : result A -> DB -> Prop) : (forall now, leaves db (f now) P) -> P Panic db -> leaves db (now ← call Now; f now) P.
Proof.
  intros Hf Hp st Hd. apply wp_bind, wp_driver. intros r w E. destruct (Now_law _ _ _ E) as [[E1 _] He]. destruct r as [now|e|]; [|by destruct (He e)|].
  - apply Hf. cbn [world]. congruence.
  - cbn [world]. by rewrite E1, Hd.
Qed.

Lemma mark_leaves db topic spender now os :
  leaves db (forEach (fun outpoint => match outpoint with
    | None => mret tt
    | Some outpoint => _ ← call (UpdateOne Plain outputs (idOf topic outpoint) anyDocument (fun _ => setSpent (canonicalHash spender) now)); mret tt
    end) (Some <$> os))
    (fun r db' => exists os', os' `prefix_of` os /\ db' = foldl (spent topic spender now) db os' /\ (r = Ok tt -> os' = os)).
Proof.
  revert db. induction os as [|o os IH]; intros db; cbn [forEach fmap list_fmap]; [apply leaves_ret; by exists []|].
  apply leaves_bind. eapply (leaves_write db _ _ (fun _ => spent topic spender now db o)); [intros; by eapply (UpdateOne_law Plain outputs)|by intros n a db' E%altered_update| |].
  - intros [[]|e|] Hr; [done|..]; exists []; (split; [apply prefix_nil|by split]).
  - intros _ [[]|e|].
    + eapply leaves_mono; [apply IH|]. intros r db' (os' & Hp & -> & Hr). exists (o :: os'). split_and!; [by apply prefix_cons|done|]. intros E. by rewrite (Hr E).
    + exists [o]. split_and!; [apply prefix_cons, prefix_nil|done|done].
    + exists [o]. split_and!; [apply prefix_cons, prefix_nil|done|done].
Qed.

Lemma consumers_tx db o topic consumers now :
  tx db (replaceEdges s InSession (admissionOutpoint o) (fixed20 (Index o)) topic (Some <$> consumers) now) (fun r db' => forall a, r = Ok a -> db' = changed now (ReplaceConsumers o topic consumers) db).
Proof.
  unfold replaceEdges. apply tx_bind; [intros; repeat inside_step; apply inside_insertEdge|].
  eapply tx_writing; [apply (inside_DeleteMany edges)|intros; by eapply (DeleteMany_law InSession edges)|by intros db'; split| |done]. intros t [] db1 E.
  assert (Edb : db1 = put edges (filter (fun p => leavesFrom s topic (canonicalHash (Txid o)) (fixed20 (Index o)) p.2 = false) (docs edges db)) db) by (by injection E as <-).
  rewrite Edb. clear E Edb db1. eapply tx_mono.
  { apply (does_forEach _ _ (fun db c => match c with None => db | Some c => edgeEffect s topic now db (mkEdge (admissionOutpoint o) (admissionOutpoint c)) end));
      [intros; repeat inside_step; apply inside_insertEdge|intros [c|] db1; [apply edge_does|by apply tx_ret]]. }
  intros r db' Hr [] E. rewrite (Hr E). cbn [changed]. clear. generalize (put edges (filter (fun p => leavesFrom s topic (canonicalHash (Txid o)) (fixed20 (Index o)) p.2 = false) (docs edges db)) db).
  intros db0. change (opTxID (admissionOutpoint o)) with (canonicalHash (Txid o)). revert db0. induction consumers as [|c cs IH]; intros db0; [done|]. cbn [fmap list_fmap foldl]. apply IH.
Qed.

Lemma change_leaves db c : change_typed c -> leaves db (make c) (fun r db' => change_made c db db' r).
Proof.
  assert (Hfail : forall c r, r <> Ok tt -> change_made c db db r) by (intros c' [[]|e|] Hr; [done|by left..]).
  assert (Hdone : forall c now r, (forall os topic spender, c <> MarkSpent os topic spender) -> change_made c db (changed now c db) r).
  { intros c' now [[]|e|] Hc; [by exists now|right; exists now, c'; split; [|done]; by destruct c' as [| os topic spender| | | |]; [|destruct (Hc os topic spender)|..]..]. }
  destruct c as [o topic|os topic spender|o topic consumers|o topic height index|txid topic|host topic since]; intros Ht; cbn [make].
  - unfold DeleteOutput. apply (leaves_write db _ (deleteEffect outputs (idOf topic o)) (fun now => changed now (Delete o topic) db)); [intros; by eapply (DeleteOne_law Plain outputs)| |auto|intros; by apply Hdone].
    intros now a db'. unfold deleteEffect. cbn [changed]. destruct (docs outputs db !! _) as [d|] eqn:Ed; intros [= _ <-]; [done|]. rewrite delete_id by done. by rewrite put_docs.
  - unfold MarkUTXOsAsSpent. apply leaves_Now; [intros now|by left]. eapply leaves_mono; [apply mark_leaves|]. intros [[]|e|] db' (os' & Hp & -> & Hr).
    + exists now. by rewrite (Hr eq_refl).
    + right. by exists now, (MarkSpent os' topic spender).
    + right. by exists now, (MarkSpent os' topic spender).
  - unfold UpdateConsumedBy. apply leaves_Now; [intros now|by left]. cbv zeta. apply leaves_bind, leaves_lift. cbn [admissionOutpoint opOutputIndex]. rewrite encode_index by done.
    apply leaves_bind. eapply leaves_mono; [apply (leaves_transaction s db (fun ctx => replaceEdges s ctx (admissionOutpoint o) (fixed20 (Index o)) topic (Some <$> consumers) now) (fun _ db' => db' = changed now (ReplaceConsumers o topic consumers) db)), consumers_tx|].
    intros [[k r]|e|] db' Hs; [|done|destruct Hs as [->|[_ ->]]; [by left|by apply Hdone]]. apply leaves_lift.
    destruct k, r as [[]|e|]; cbn [settled] in Hs; try done; [by left|by exists now|destruct Hs as [_ [->|[_ ->]]]; [by left|by apply Hdone]].
  - destruct Ht as [Hh Hi]. unfold UpdateOutputBlockHeight. rewrite !encode_format by (done || by apply u32_u64). apply leaves_bind, leaves_lift, leaves_bind, leaves_lift.
    apply leaves_Now; [intros now|by left]. eapply (leaves_write db _ _ (fun _ => changed now (SetBlock o topic height index) db)); [intros; by eapply (UpdateOne_law Plain outputs)|by intros t a db' E%altered_update|auto|intros; by apply Hdone].
  - unfold InsertAppliedTransaction. destruct (negb _); [apply leaves_lift; by left|]. apply leaves_Now; [intros now|by left]. cbv zeta.
    eapply (leaves_write_unit db _ _ (fun _ => changed now (NoteApplied txid topic) db)); [intros; by eapply (Upsert_law Plain applied)|by intros t [] db' [= <-]|auto|intros; by apply Hdone].
  - unfold UpdateLastInteraction. destruct (_ || _); [apply leaves_lift; by left|]. apply leaves_Now; [intros now|by left].
    eapply (leaves_write_unit db _ _ (fun _ => changed now (NoteInteraction host topic since) db)); [intros; by eapply (Upsert_law Plain cursors)|by intros t [] db' [= <-]|auto|intros; by apply Hdone].
Qed.

End Changes.

(** ** What the engine is promised *)

Section Promises.
Context {W Beef : Type} `{!Mongo W, !MongoState W, !GridFS W, !GridFSState W, !TransactionSDK Beef} {laws : MongoLaws W} {blobLaws : GridFSLaws W}.
Context (s : Store).
Local Abbreviation St := (St W tevent).

Lemma leaves_returns {A} (m : Runs.Run St A) (P : result A -> DB -> Prop) (st : St) : leaves (durable (world st)) m P ->
  exists r st', m st = Some (r, st') /\ P r (durable (world st')).
Proof using Type. intros Hm. apply wp_returns. by apply Hm. Qed.

(** C8.  Outputs are inserted as a whole.  Whatever the driver and GridFS answer,
    [InsertOutputs] ends (or a component panics).  When it reports no error, then the rows
    of the outputs, their edges and the transaction with its BEEF were inserted; on an error
    the outputs, edges, transactions and all other collections but those of payloads are as
    they were, unless the error says that the commit is unresolved, and then they are either
    as they were or as after the whole insertion. *)
Theorem insertions_are_atomic (topic : list byte) (txid : Hash) (vouts : list Z) (consumed : list (option Outpoint)) (beef : option Beef)
    (ancillary : list (option Hash)) (st : St) :
  exists r st', InsertOutputs s Plain topic (Some txid) vouts consumed beef ancillary st = Some (r, st') /\
    insert_result s topic txid vouts consumed beef ancillary (durable (world st)) (durable (world st')) r.
Proof using laws blobLaws. exact (leaves_returns _ _ st (InsertOutputs_leaves s _ topic txid vouts consumed beef ancillary)). Qed.


(** The page of a topic: the unspent outputs that are served with a score after [since],
    ordered by their scores, as many as the limit allows. *)
Definition page_of (db : DB) (topic : list byte) (since limit : Z) (includeBEEF : bool) (os : list (EngineOutput Beef)) : Prop :=
  exists rows, rows ≡ₚ filter (fun d => servedAfter s topic since d = true) (allDocs outputs db) /\ Sorted (fun a b => scoreOrder a b = true) rows /\
    Forall2 (answer s db includeBEEF) (limited limit rows) os.

(** What is found is stored.  [FindOutput] and [FindUTXOsForTopic] end, and change
    nothing but the pins of the payloads that they read; what they answer is what the row
    of an output says, with the edges into it and out of it; there is no output only when
    no row matches; and the page of a topic is in order, with all of the rows that are
    served or the first of them. *)
Theorem found_outputs_are_stored (o : Outpoint) (topic : option (list byte)) (spent : option bool) (pageTopic : list byte) (since limit : Z) (includeBEEF : bool) (st : St) :
  (exists r st', FindOutput s Plain (Some o) topic spent includeBEEF st = Some (r, st') /\
     aside (durable (world st)) (durable (world st')) /\ found_output s (durable (world st)) o topic spent includeBEEF (r : result (option (EngineOutput Beef)))) /\
  (exists r st', FindUTXOsForTopic s Plain pageTopic since limit includeBEEF st = Some (r, st') /\
     aside (durable (world st)) (durable (world st')) /\ forall os, r = Ok os -> page_of (durable (world st)) pageTopic since limit includeBEEF os).
Proof using laws blobLaws.
  split; [exact (leaves_returns _ _ st (FindOutput_leaves s _ o topic spent includeBEEF))|]. apply (leaves_returns _ (fun r db' => aside (durable (world st)) db' /\ forall os, r = Ok os -> page_of (durable (world st)) pageTopic since limit includeBEEF os)).
  unfold FindUTXOsForTopic. apply leaves_bind. eapply leaves_mono; [apply (leaves_Find _ outputs)|]. intros [rows|e|] db' (-> & _ & Hrows); [|by split..].
  destruct (Hrows rows eq_refl) as (all & Hall & -> & Hs). eapply leaves_mono; [apply fromDocuments_leaves|]. intros r db' [Ha Hr]. split; [done|].
  intros os E. exists all. split_and!; [done|by apply (Hs scoreOrder eq_refl), scoreOrder_total|by apply Hr].
Qed.

(** The other changes are made.  Deleting an output, marking outputs as spent,
    replacing the consumers of an output, setting its block, and noting an applied
    transaction or the cursor of a peer each end; when no error is reported, then exactly
    the change was made; on an error nothing was changed, or the change was made, or, of the
    outputs to mark as spent, the first ones were marked. *)
Theorem changes_take_effect (c : change) (st : St) (Htyped : change_typed c) :
  exists r st', make s c st = Some (r, st') /\ change_made s c (durable (world st)) (durable (world st')) r.
Proof using laws. exact (leaves_returns _ _ st (change_leaves s _ c Htyped)). Qed.

(** An error of the database hides the BEEF of a transaction. *)
Lemma errors_hide_beef (txID : list byte) (e : error) (w w' : W) (tr : list tevent) :
  FindOne Plain transactions (transactionID s txID) anyDocument w = (Err e, w') ->
  loadTransactionBeef (Beef := Beef) s Plain txID (mkSt w tr) = Some (Ok None, mkSt w' tr).
Proof using Type. intros E. unfold loadTransactionBeef, attempt, call, mbind, run_bind. cbn [world trace]. by rewrite E. Qed.

End Promises.

(** ** A transaction with two outputs *)

Module Example.
Import MongoModel MongoBlobModel.

(** The BEEF of a transaction is a text, after the identifier. *)
#[local] Instance textBeef : TransactionSDK (list byte) := {|
  txIDOf _ := zero_hash;
  EngineTypes.ParseBeef data := Ok (drop 32 data, None, None);
  FindTransactionForSigningByHash _ _ := None;
  FindTransactionByHash _ _ := None;
  MergeBeef a b := Ok (a ++ b);
  AtomicBytes b h := Ok (hbytes h ++ b);
  AtomicBEEF _ := Err ErrInvalidBeef;
  BEEF _ := Err ErrInvalidBeef;
  ComputeRoot _ h := Ok h;
  pathBytes _ := [] |}.

Definition s : Store := MongoPayloads.Example.s1.
Definition start : St world tevent := MongoPayloads.Example.start.
Definition topic : list byte := str "tm_example".
Definition txid : Hash := array32 (str "a transaction").
Definition parent : Outpoint := mkOutpoint (array32 (str "its parent")) 7.
Definition beef : list byte := str "the beef of the transaction".

(** The state after the insertion. *)
Definition insert : Runs.Run (St world tevent) unit := InsertOutputs s Plain topic (Some txid) [0; 1] [Some parent; None] (Some beef) [Some txid].
Definition inserted : St world tevent := match insert start with Some (_, st) => st | None => start end.

Lemma it_is_found : match insert start, FindOutput s Plain (Some (mkOutpoint txid 1)) (Some topic) None true inserted with
  | Some (Ok tt, _), Some (Ok (Some o), _) => bool_decide (oBeef o = Some beef) && bool_decide (OutputsConsumed o = [parent]) && negb (oSpent o)
  | _, _ => false end = true.
Proof. by vm_compute. Qed.

Lemma new_when_empty (db : DB) (txid' : Hash) (vouts : list Z) (consumed : list (option Outpoint)) : docs outputs db = ∅ -> docs edges db = ∅ ->
  NoDup ((fun v => outputID s topic (mkAdmissionOutpoint (canonicalHash txid') (FormatUint v))) <$> vouts) -> Forall is_u32 vouts ->
  (forall c, Some c ∈ consumed -> is_u32 (Index c) /\ Txid c <> txid') -> is_new s topic txid' vouts consumed db.
Proof. intros Ho He Hn Hv Hc. constructor; [| | |exact Hn|exact Hv|exact Hc]; intros *; rewrite ?Ho, ?He; [intros H; rewrite lookup_empty in H; discriminate H..|]. intros _. apply lookup_empty. Qed.

Lemma ids_distinct : bool_decide (NoDup ((fun v => outputID s topic (mkAdmissionOutpoint (canonicalHash txid) (FormatUint v))) <$> [0; 1])) = true.
Proof. vm_compute. reflexivity. Qed.

Lemma indexes_typed : Forall is_u32 [0; 1].
Proof. by apply (bool_decide_unpack _). Qed.

Lemma parent_elsewhere : forall c, Some c ∈ [Some parent; None] -> is_u32 (Index c) /\ Txid c <> txid.
Proof. intros c [[= ->]|[?|?%elem_of_nil]%elem_of_cons]%elem_of_cons; [|done..]. split; [done|]. apply (bool_decide_unpack _). by vm_compute. Qed.

Lemma it_is_new : is_new s topic txid [0; 1] [Some parent; None] (durable (Traced.world start)).
Proof. exact (new_when_empty (durable (Traced.world start)) txid _ _ eq_refl eq_refl (bool_decide_eq_true_1 _ ids_distinct) indexes_typed parent_elsewhere). Qed.

Lemma insertions_are_atomic_witness : exists r st', InsertOutputs s Plain topic (Some txid) [0; 1] [Some parent; None] (Some beef) [Some txid] start = Some (r, st') /\
  insert_result s topic txid [0; 1] [Some parent; None] (Some beef) [Some txid] (durable (Traced.world start)) (durable (Traced.world st')) r.
Proof. exact (insertions_are_atomic s topic txid [0; 1] [Some parent; None] (Some beef) [Some txid] start). Defined.


Lemma block_typed : change_typed (SetBlock (mkOutpoint txid 1) topic 9 2).
Proof. by split; apply (bool_decide_unpack _). Qed.

Lemma changes_take_effect_witness : exists r st', make s (SetBlock (mkOutpoint txid 1) topic 9 2) inserted = Some (r, st') /\
  change_made s (SetBlock (mkOutpoint txid 1) topic 9 2) (durable (Traced.world inserted)) (durable (Traced.world st')) r.
Proof. exact (changes_take_effect s (SetBlock (mkOutpoint txid 1) topic 9 2) inserted block_typed). Defined.

(** Both outputs have the score of their insertion: after a page that ends with the first,
    the next page does not have the second. *)
Definition page (since limit : Z) : option (list (Z * Z)) :=
  match FindUTXOsForTopic s Plain topic since limit false inserted with
  | Some (Ok os, _) => Some (map (fun o => (Index (oOutpoint o), oScore o)) os)
  | _ => None
  end.

Lemma pages_lose_ties : match page 0 0, page 0 1 with
  | Some all, Some [(i, score)] => bool_decide (length all = 2%nat) && bool_decide (page score 1 = Some [])
  | _, _ => false end = true.
Proof. by vm_compute. Qed.

(** The same insertion once more: the edge is there, its duplicate key aborts the
    transaction, and no attempt can succeed. *)
Definition failed {A} (r : option (result A * St world tevent)) : bool :=
  match r with Some (Err _, _) => true | _ => false end.

Lemma insertion_of_edges_is_not_repeatable : failed (insert inserted) = true.
Proof. by vm_compute. Qed.

(** The root of the block of an output is nowhere written, so that it stays unmined when
    the root becomes known. *)
Definition reconciled : bool :=
  match make s (SetBlock (mkOutpoint txid 1) topic 9 2) inserted with
  | Some (Ok _, st) =>
      match ReconcileMerkleRoot s Plain topic 9 (Some zero_hash) st with
      | Some (Ok _, st') => match FindOutput s Plain (Some (mkOutpoint txid 1)) (Some topic) None false st' with
          | Some (Ok (Some o), _) => bool_decide (oBlockHeight o = 9) && match oMerkleState o with MerkleStateUnmined => true | _ => false end
          | _ => false end
      | _ => false
      end
  | _ => false
  end.

Lemma reconciliation_leaves_unmined : reconciled = true.
Proof. by vm_compute. Qed.

(** The engine's storage on it: the calls of the interface. *)
Lemma engine_storage_works :
  let storage : EngineStorage world (list byte) := mongoStorage s in
  match EngineTypes.InsertOutputs topic txid [0] [parent] beef [] (Traced.world start) with
  | (Ok tt, w) =>
      match EngineTypes.MarkUTXOsAsSpent [mkOutpoint txid 0] topic zero_hash w with
      | (Ok tt, w) =>
          match EngineTypes.FindOutput (mkOutpoint txid 0) (Some topic) None true w, EngineTypes.FindUTXOsForTopic topic 0 0 false w with
          | (Ok (Some o), _), (Ok [], _) => oSpent o && bool_decide (oBeef o = Some beef)
          | _, _ => false end
      | _ => false end
  | _ => false end = true.
Proof. by vm_compute. Qed.

End Example.

End MongoOutputs.
