(* ===== verification/SingleFlight.v ===== *)
(** * Concurrent calls that share one run

    [GASP.ProcessUTXOToCompletion] (gasp.go), [OverlayGASPStorage.submitBeef]
    (gasp-storage.go) and [OverlayGASPRemote.RequestNode] (gasp-remote.go) let
    concurrent calls for the same key share the result of one of them: a [sync.Map]
    holds the flight that is under way, the call that stored it does the work, the
    others wait for its [WaitGroup].  They differ in the order in which the owner
    releases the waiters and deletes the entry.  The goroutines of [GASP.Sync] and of
    the worker also hold a slot of a limiter while they run.  A step is one atomic
    operation of one goroutine; any interleaving of steps is a run. *)

From S2P Require Import Prelude Bytes GaspTypes.
Import Gasp.

Module SingleFlight.

(** [state.wg.Done(); m.Delete(key)], as in gasp.go and gasp-storage.go, or
    [m.Delete(key)] and then the deferred [wg.Done()], as in gasp-remote.go. *)
Inductive order := DoneThenDelete | DeleteThenDone.

Section SingleFlight.
Context {A K V : Type} `{Countable K} (key : A -> K).

(** The shared state of a flight: the argument of its owner, [state.err] or
    [req.result] once it is written, and whether the [WaitGroup] is released. *)
Record flight := mkFlight { argument : A; outcome : option V; released : bool }.

(** Where a goroutine is in its call. *)
Inductive pc :=
  | Queued (a : A)                          (* before [limiter <- struct{}{}] *)
  | Called (a : A)                          (* before [LoadOrStore] *)
  | Owning (a : A) (f : nat)                (* stored the flight; before or in the work *)
  | Settled (a : A) (f : nat) (v : V)       (* wrote the outcome *)
  | Clearing (a : A) (f : nat) (v : V)      (* did the first of [Done] and [Delete] *)
  | Waiting (a : A) (f : nat)               (* loaded the flight; in [wg.Wait()] *)
  | Leaving (a : A) (f : nat) (v : option V)       (* before [<-limiter] *)
  | Returned (a : A) (f : nat) (v : option V).

Record caller := mkCaller { limited : bool; at_ : pc }.

Record state := mkState {
  inflight : gmap K nat; flights : list flight; slots : nat; callers : list caller }.

Definition goto (i : nat) (c : caller) (p : pc) (s : state) : state :=
  mkState (inflight s) (flights s) (slots s) (<[i := mkCaller (limited c) p]> (callers s)).

Definition LoadOrStore (i : nat) (c : caller) (a : A) (s : state) : state :=
  match inflight s !! key a with
  | Some f => goto i c (Waiting a f) s
  | None =>
      let f := length (flights s) in
      goto i c (Owning a f) (mkState (<[key a := f]> (inflight s)) (flights s ++ [mkFlight a None false]) (slots s) (callers s))
  end.

Definition settle (f : nat) (v : V) (s : state) : state :=
  mkState (inflight s) (alter (fun fl => mkFlight (argument fl) (Some v) (released fl)) f (flights s)) (slots s) (callers s).

Definition Done (f : nat) (s : state) : state :=
  mkState (inflight s) (alter (fun fl => mkFlight (argument fl) (outcome fl) true) f (flights s)) (slots s) (callers s).

Definition Delete (a : A) (s : state) : state :=
  mkState (delete (key a) (inflight s)) (flights s) (slots s) (callers s).

(** One step of goroutine [i]; [v] is what its work returns, if the step is its work.
    A step that blocks is [None]. *)
Definition step (o : order) (i : nat) (v : V) (s : state) : option state :=
  c ← callers s !! i;
  match at_ c with
  | Queued a =>
      match slots s with
      | O => None
      | S n => Some (goto i c (Called a) (mkState (inflight s) (flights s) n (callers s)))
      end
  | Called a => Some (LoadOrStore i c a s)
  | Owning a f => Some (goto i c (Settled a f v) (settle f v s))
  | Settled a f u =>
      Some (goto i c (Clearing a f u) (match o with DoneThenDelete => Done f s | DeleteThenDone => Delete a s end))
  | Clearing a f u =>
      Some (goto i c (Leaving a f (Some u)) (match o with DoneThenDelete => Delete a s | DeleteThenDone => Done f s end))
  | Waiting a f =>
      fl ← flights s !! f;
      if released fl then Some (goto i c (Leaving a f (outcome fl)) s) else None
  | Leaving a f u =>
      Some (goto i c (Returned a f u)
        (mkState (inflight s) (flights s) (if limited c then S (slots s) else slots s) (callers s)))
  | Returned _ _ _ => None
  end.

(** The calls [calls] (whether they pass the limiter, and their argument), none begun. *)
Definition start (capacity : nat) (calls : list (bool * A)) : state :=
  mkState ∅ [] capacity (map (fun '(l, a) => mkCaller l (if l then Queued a else Called a)) calls).

(** What the work on an argument may return. *)
Context (work : A -> V -> Prop).

Inductive steps_to (o : order) (s s' : state) : Prop :=
  | one_step i v :
      (forall c a f, callers s !! i = Some c -> at_ c = Owning a f -> work a v) ->
      step o i v s = Some s' -> steps_to o s s'.

(** ** The invariant *)

(** The flight that a goroutine owns and has not finished with. *)
Definition owns (p : pc) : option nat :=
  match p with Owning _ f | Settled _ f _ | Clearing _ f _ => Some f | _ => None end.

(** Its flight is the entry of its key. *)
Definition entered (o : order) (p : pc) : option (A * nat) :=
  match p with
  | Owning a f | Settled a f _ => Some (a, f)
  | Clearing a f _ => match o with DoneThenDelete => Some (a, f) | DeleteThenDone => None end
  | _ => None
  end.

Definition running (p : pc) : bool :=
  match p with Queued _ | Returned _ _ _ => false | _ => true end.

Definition shared_result (s : state) (a : A) (f : nat) (u : option V) : Prop :=
  exists fl v, flights s !! f = Some fl /\ key (argument fl) = key a /\ outcome fl = Some v /\ u = Some v.

Definition caller_ok (o : order) (s : state) (p : pc) : Prop :=
  match p with
  | Queued _ | Called _ => True
  | Owning a f => flights s !! f = Some (mkFlight a None false)
  | Settled a f v => flights s !! f = Some (mkFlight a (Some v) false)
  | Clearing a f v =>
      flights s !! f = Some (mkFlight a (Some v) (match o with DoneThenDelete => true | DeleteThenDone => false end))
  | Waiting a f => exists fl, flights s !! f = Some fl /\ key (argument fl) = key a
  | Leaving a f u | Returned a f u => shared_result s a f u
  end.

Record flight_ok (fl : flight) : Prop := {
  ok_released : released fl = true -> is_Some (outcome fl);
  ok_outcome : forall v, outcome fl = Some v -> work (argument fl) v }.

Record inv (o : order) (s : state) : Prop := {
  inv_caller : forall i c, callers s !! i = Some c -> caller_ok o s (at_ c);
  inv_entered : forall i c a f, callers s !! i = Some c -> entered o (at_ c) = Some (a, f) -> inflight s !! key a = Some f;
  inv_entry : forall k f, inflight s !! k = Some f ->
    exists i c a, callers s !! i = Some c /\ entered o (at_ c) = Some (a, f) /\ key a = k;
  inv_open : forall f fl, flights s !! f = Some fl -> released fl = false ->
    exists i c, callers s !! i = Some c /\ owns (at_ c) = Some f;
  inv_unique : forall i j c d f, callers s !! i = Some c -> callers s !! j = Some d ->
    owns (at_ c) = Some f -> owns (at_ d) = Some f -> i = j;
  inv_flight : forall f fl, flights s !! f = Some fl -> flight_ok fl }.

Lemma callers_goto s i c p j d :
  callers (goto i c p s) !! j = Some d ->
  (j = i /\ d = mkCaller (limited c) p /\ is_Some (callers s !! i)) \/ (j <> i /\ callers s !! j = Some d).
Proof.
  simpl. intros [(-> & <- & Hlt)|[Hne Hj]]%list_lookup_insert_Some; [left|by right].
  split_and!; [done..|]. by apply lookup_lt_is_Some.
Qed.

Lemma callers_goto_self s i c p : is_Some (callers s !! i) -> callers (goto i c p s) !! i = Some (mkCaller (limited c) p).
Proof. intros Hi. simpl. apply list_lookup_insert_eq. by apply lookup_lt_is_Some. Qed.

Lemma callers_goto_other s i c p j : j <> i -> callers (goto i c p s) !! j = callers s !! j.
Proof. intros Hj. simpl. by apply list_lookup_insert_ne. Qed.

(** A step of goroutine [i] from [at_ c] to [p], after which the shared state is that of
    [s']: what there is to show of it. *)
Lemma inv_goto o s s' i c p :
  inv o s -> callers s !! i = Some c -> callers s' = callers s ->
  caller_ok o s' p ->
  (forall j d, j <> i -> callers s !! j = Some d -> caller_ok o s (at_ d) -> caller_ok o s' (at_ d)) ->
  (forall a f, entered o p = Some (a, f) -> inflight s' !! key a = Some f) ->
  (forall j d a f, j <> i -> callers s !! j = Some d -> entered o (at_ d) = Some (a, f) ->
     inflight s !! key a = Some f -> inflight s' !! key a = Some f) ->
  (forall k f, inflight s' !! k = Some f -> (exists a, entered o p = Some (a, f) /\ key a = k) \/
     (inflight s !! k = Some f /\ forall a, entered o (at_ c) <> Some (a, f))) ->
  (forall f fl, flights s' !! f = Some fl -> released fl = false -> owns p = Some f \/
     (owns (at_ c) <> Some f /\ exists fl0, flights s !! f = Some fl0 /\ released fl0 = false)) ->
  (forall f, owns p = Some f -> owns (at_ c) = Some f \/ forall j d, callers s !! j = Some d -> owns (at_ d) <> Some f) ->
  (forall f fl, flights s' !! f = Some fl -> flight_ok fl) ->
  inv o (goto i c p s').
Proof.
  intros Hinv Hi Ec Hp Hothers Hent Hents Hentry Hopen Huniq Hfl.
  assert (Hi' : is_Some (callers s' !! i)) by (rewrite Ec; eauto). split.
  - intros j d [(-> & -> & _)|[Hj Hd]]%callers_goto; [exact Hp|]. rewrite Ec in Hd.
    apply (Hothers j d Hj Hd). by eapply inv_caller.
  - intros j d a f [(-> & -> & _)|[Hj Hd]]%callers_goto He; [by apply Hent|]. rewrite Ec in Hd.
    apply (Hents j d a f Hj Hd He). by eapply inv_entered.
  - intros k f Hk. destruct (Hentry k f Hk) as [(a & He & <-)|[Hk' Hnot]].
    + exists i, (mkCaller (limited c) p), a. by rewrite callers_goto_self.
    + destruct (inv_entry _ _ Hinv k f Hk') as (j & d & a & Hd & He & <-). exists j, d, a.
      rewrite callers_goto_other, Ec; [done|]. intros ->. rewrite Hi in Hd. injection Hd as <-. by apply (Hnot a).
  - intros f fl Hf Hrel. destruct (Hopen f fl Hf Hrel) as [Ho|(Ho & fl0 & Hf0 & Hrel0)].
    + exists i, (mkCaller (limited c) p). by rewrite callers_goto_self.
    + destruct (inv_open _ _ Hinv f fl0 Hf0 Hrel0) as (j & d & Hd & Hod). exists j, d.
      rewrite callers_goto_other, Ec; [done|]. intros ->. rewrite Hi in Hd. by injection Hd as <-.
  - assert (Hone : forall j d f, j <> i -> callers s !! j = Some d -> owns (at_ d) = Some f -> owns p <> Some f).
    { intros j d f Hj Hd Hod Hop. destruct (Huniq f Hop) as [Hoc|Hfresh]; [|by apply (Hfresh j d)].
      apply Hj. by eapply inv_unique. }
    intros j l d d' f [(-> & -> & _)|[Hj Hd]]%callers_goto [(-> & -> & _)|[Hl Hd']]%callers_goto Ho Ho'; [done|..].
    + rewrite Ec in Hd'. by destruct (Hone l d' f).
    + rewrite Ec in Hd. by destruct (Hone j d f).
    + rewrite Ec in Hd, Hd'. by eapply (inv_unique _ _ Hinv j l d d').
  - done.
Qed.

(** A step that leaves the shared state alone. *)
Lemma inv_private o s i c p n :
  inv o s -> callers s !! i = Some c -> owns (at_ c) = None -> owns p = None -> entered o p = None ->
  caller_ok o s p -> inv o (goto i c p (mkState (inflight s) (flights s) n (callers s))).
Proof.
  intros Hinv Hi Hc Hp Hep Hok.
  apply (inv_goto o s); try done.
  - by rewrite Hep.
  - intros k f Hk. right. split; [done|]. intros a Ha. destruct (at_ c), o; simplify_eq/=; congruence.
  - intros f fl Hf Hrel. right. split; [congruence|eauto].
  - by rewrite Hp.
  - apply Hinv.
Qed.

(** What the others know survives a change of the flight of [i]. *)
Lemma others_ok o s i c f g n m j d :
  inv o s -> callers s !! i = Some c -> owns (at_ c) = Some f ->
  (forall fl, argument (g fl) = argument fl) -> (forall fl v, outcome fl = Some v -> flights s !! f = Some fl -> outcome (g fl) = Some v) ->
  j <> i -> callers s !! j = Some d -> caller_ok o s (at_ d) ->
  caller_ok o (mkState m (alter g f (flights s)) n (callers s)) (at_ d).
Proof.
  intros Hinv Hi Hf Harg Hout Hj Hd Hok.
  assert (Hmine : forall f' fl, owns (at_ d) = Some f' -> flights s !! f' = Some fl -> alter g f (flights s) !! f' = Some fl).
  { intros f' fl Ho Hfl. rewrite list_lookup_alter_ne; [done|]. intros ->. apply Hj. by eapply inv_unique. }
  assert (Hres : forall a f' u, shared_result s a f' u -> shared_result (mkState m (alter g f (flights s)) n (callers s)) a f' u).
  { intros a f' u (fl & v & Hfl & Hk & Hv & Hu). unfold shared_result. cbn [flights].
    destruct (decide (f' = f)) as [->|Hne].
    - exists (g fl), v. rewrite list_lookup_alter_eq, Hfl, Harg. split_and!; eauto.
    - exists fl, v. by rewrite list_lookup_alter_ne. }
  destruct (at_ d); simpl in *; eauto.
  destruct Hok as (fl & Hfl & Hk). destruct (decide (f0 = f)) as [->|Hne].
  - exists (g fl). by rewrite list_lookup_alter_eq, Hfl, Harg.
  - exists fl. by rewrite list_lookup_alter_ne.
Qed.

(** ** Every step keeps the invariant *)

Lemma store_inv o s i c a :
  inv o s -> callers s !! i = Some c -> at_ c = Called a -> inflight s !! key a = None ->
  inv o (LoadOrStore i c a s).
Proof.
  intros Hinv Hi Hat Hnone. unfold LoadOrStore. rewrite Hnone.
  assert (Hfresh : forall j d f, callers s !! j = Some d -> owns (at_ d) = Some f -> f <> length (flights s)).
  { intros j d f Hd Ho ->. pose proof (inv_caller _ _ Hinv j d Hd) as Hok.
    assert (Hlen : flights s !! length (flights s) = None) by (apply lookup_ge_None; lia).
    destruct (at_ d); simplify_eq/=; congruence. }
  apply (inv_goto o s); try done; simpl.
  - by rewrite list_lookup_middle.
  - intros j d _ Hd Hok. assert (Hsome : forall f fl, flights s !! f = Some fl ->
      (flights s ++ [mkFlight a None false]) !! f = Some fl) by (intros; by apply lookup_app_l_Some).
    destruct (at_ d); simpl in *; unfold shared_result in *; naive_solver.
  - intros a' f [= <- <-]. apply lookup_insert_eq.
  - intros j d a' f Hj Hd He Hk. rewrite lookup_insert_ne; [done|]. congruence.
  - intros k f [[<- <-]|[Hne Hk]]%lookup_insert_Some; [left; by eexists|right]. split; [done|]. by rewrite Hat.
  - intros f fl Hf Hrel. apply lookup_app_Some in Hf as [Hf|[Hge Hf]].
    + right. rewrite Hat. split; [done|]. eauto.
    + left. apply list_lookup_singleton_Some in Hf as [? _]. f_equal. lia.
  - intros f [= <-]. right. intros j d Hd Ho. by apply (Hfresh j d _ Hd Ho).
  - intros f fl Hf. apply lookup_app_Some in Hf as [Hf|[Hge Hf]]; [by apply (inv_flight _ _ Hinv f)|].
    apply list_lookup_singleton_Some in Hf as [_ <-]. by split.
Qed.

Lemma load_inv o s i c a f :
  inv o s -> callers s !! i = Some c -> at_ c = Called a -> inflight s !! key a = Some f ->
  inv o (LoadOrStore i c a s).
Proof.
  intros Hinv Hi Hat Hf. unfold LoadOrStore. rewrite Hf. destruct s as [m fls n cs].
  apply (inv_private o (mkState m fls n cs)); [done|done|by rewrite Hat|done|done|].
  destruct (inv_entry _ _ Hinv _ _ Hf) as (j & d & a' & Hd & He & Hk).
  pose proof (inv_caller _ _ Hinv j d Hd) as Hok. unfold caller_ok.
  destruct (at_ d), o; simplify_eq/=; eauto.
Qed.

(** The owner of a flight changes it, or deletes its entry, and moves on. *)
Lemma owner_inv o s i c p a f g (removed : bool) :
  inv o s -> callers s !! i = Some c -> owns (at_ c) = Some f ->
  (forall fl, argument (g fl) = argument fl) ->
  (forall fl v, outcome fl = Some v -> flights s !! f = Some fl -> outcome (g fl) = Some v) ->
  (forall fl, flights s !! f = Some fl -> flight_ok (g fl)) ->
  owns p = Some f \/ (owns p = None /\ forall fl, flights s !! f = Some fl -> released (g fl) = true) ->
  entered o p = (if removed then None else entered o (at_ c)) ->
  (removed = true -> entered o (at_ c) = Some (a, f)) ->
  let s' := mkState (if removed then delete (key a) (inflight s) else inflight s) (alter g f (flights s)) (slots s) (callers s) in
  caller_ok o s' p ->
  inv o (goto i c p s').
Proof.
  intros Hinv Hi Hown Harg Hout Hgood Hp Hep Hrem s' Hok.
  apply (inv_goto o s); try done.
  - intros j d Hj Hd Hdok. by apply (others_ok o s i c f g _ _ j d).
  - intros a' f' He. rewrite Hep in He. destruct removed; [done|]. by apply (inv_entered _ _ Hinv i c).
  - intros j d a' f' Hj Hd He Hk. cbn. destruct removed; [|done]. specialize (Hrem eq_refl).
    rewrite lookup_delete_ne; [done|]. intros Ek.
    pose proof (inv_entered _ _ Hinv i c a f Hi Hrem) as Hk'. rewrite Ek, Hk in Hk'. injection Hk' as ->.
    apply Hj. apply (inv_unique _ _ Hinv j i d c f Hd Hi); [|exact Hown].
    destruct (at_ d), o; simplify_eq/=; done.
  - intros k f' Hk. cbn in Hk. destruct removed.
    + specialize (Hrem eq_refl). apply lookup_delete_Some in Hk as [Hne Hk]. right. split; [done|].
      intros a' He. rewrite He in Hrem. injection Hrem as -> ->.
      apply Hne. destruct (inv_entry _ _ Hinv k f Hk) as (j & d & a'' & Hd & He' & <-).
      assert (j = i) as ->.
      { apply (inv_unique _ _ Hinv j i d c f Hd Hi); [|exact Hown]. destruct (at_ d), o; simplify_eq/=; done. }
      rewrite Hi in Hd. injection Hd as <-. rewrite He in He'. by injection He' as ->.
    + destruct (entered o (at_ c)) as [[a' f'']|] eqn:Ee; [|right; by split].
      destruct (decide (f'' = f')) as [->|Hne]; [|right; split; [done|]; intros ? [=]; congruence].
      left. exists a'. split; [done|]. destruct (inv_entry _ _ Hinv k f' Hk) as (j & d & a'' & Hd & He' & <-).
      assert (j = i) as ->.
      { apply (inv_unique _ _ Hinv j i d c f' Hd Hi); [destruct (at_ d), o|destruct (at_ c), o]; simplify_eq/=; done. }
      rewrite Hi in Hd. injection Hd as <-. rewrite Ee in He'. by injection He' as ->.
  - intros f' fl Hf Hrel. cbn in Hf. destruct (decide (f' = f)) as [->|Hne].
    + rewrite list_lookup_alter_eq in Hf. apply fmap_Some in Hf as (fl0 & Hf0 & ->).
      destruct Hp as [Hp|[_ Hp]]; [by left|]. rewrite (Hp fl0 Hf0) in Hrel. done.
    + right. split; [congruence|]. rewrite list_lookup_alter_ne in Hf by done. eauto.
  - intros f' Ho. left. destruct Hp as [Hp|[Hp _]]; congruence.
  - intros f' fl Hf. cbn in Hf. destruct (decide (f' = f)) as [->|Hne].
    + rewrite list_lookup_alter_eq in Hf. apply fmap_Some in Hf as (fl0 & Hf0 & ->). by apply Hgood.
    + rewrite list_lookup_alter_ne in Hf by done. by apply (inv_flight _ _ Hinv f').
Qed.

Lemma alter_id_flights {X} (l : list X) f : alter (fun x => x) f l = l.
Proof. by apply list_alter_id. Qed.

Lemma step_inv o s s' : inv o s -> steps_to o s s' -> inv o s'.
Proof.
  intros Hinv [i v Hwork Hstep]. unfold step in Hstep.
  destruct (callers s !! i) as [c|] eqn:Hi; [cbn in Hstep|done].
  pose proof (inv_caller _ _ Hinv i c Hi) as Hok.
  destruct (at_ c) as [a|a|a f|a f u|a f u|a f|a f u|a f u] eqn:Hat.
  - destruct (slots s) as [|n]; [done|]. injection Hstep as <-. apply inv_private; by rewrite ?Hat.
  - injection Hstep as <-. destruct (inflight s !! key a) eqn:Hk; [by eapply load_inv|by apply store_inv].
  - injection Hstep as <-. cbn in Hok. pose proof (inv_flight _ _ Hinv f _ Hok) as [_ _].
    eapply (owner_inv o s i c _ a f _ false); try done.
    + by rewrite Hat.
    + intros fl u Hu Hf. rewrite Hok in Hf. by injection Hf as <-.
    + intros fl Hf. rewrite Hok in Hf. injection Hf as <-. split; [done|]. intros u [= <-]. simpl. by eapply Hwork.
    + by left.
    + by rewrite Hat.
    + cbn. by rewrite list_lookup_alter_eq, Hok.
  - injection Hstep as <-. cbn in Hok. pose proof (inv_flight _ _ Hinv f _ Hok) as [Hrel Hfl]. destruct o.
    + eapply (owner_inv DoneThenDelete s i c _ a f _ false); try done; try by rewrite Hat.
      * intros fl Hf. rewrite Hok in Hf. injection Hf as <-. by split.
      * by left.
      * cbn. by rewrite list_lookup_alter_eq, Hok.
    + unfold Delete. rewrite <- (alter_id_flights (flights s) f).
      eapply (owner_inv DeleteThenDone s i c _ a f (fun fl => fl) true); try done; try by rewrite Hat.
      * intros fl Hf. by apply (inv_flight _ _ Hinv f).
      * by left.
      * cbn. by rewrite alter_id_flights.
  - injection Hstep as <-. cbn in Hok. pose proof (inv_flight _ _ Hinv f _ Hok) as [Hrel Hfl]. destruct o.
    + unfold Delete. rewrite <- (alter_id_flights (flights s) f).
      eapply (owner_inv DoneThenDelete s i c _ a f (fun fl => fl) true); try done; try by rewrite Hat.
      * intros fl Hf. by apply (inv_flight _ _ Hinv f).
      * right. split; [done|]. intros fl Hf. rewrite Hok in Hf. by injection Hf as <-.
      * cbn. rewrite alter_id_flights. eexists _, _. by split_and!.
    + eapply (owner_inv DeleteThenDone s i c _ a f _ false); try done; try by rewrite Hat.
      * intros fl Hf. rewrite Hok in Hf. injection Hf as <-. by split.
      * right. by split.
      * unfold caller_ok, shared_result. cbn. eexists _, _. rewrite list_lookup_alter_eq, Hok. by split_and!.
  - destruct (flights s !! f) as [fl|] eqn:Hf; [cbn in Hstep|done]. destruct (released fl) eqn:Hrel; [|done].
    injection Hstep as <-. destruct (ok_released _ (inv_flight _ _ Hinv f fl Hf) Hrel) as [u Hu].
    destruct s as [m fls n cs]. apply (inv_private o (mkState m fls n cs)); try done; [by rewrite Hat|].
    destruct Hok as (fl' & Hf' & Hk). cbn in *. rewrite Hf in Hf'. injection Hf' as <-.
    exists fl, u. by split_and!.
  - injection Hstep as <-. by apply inv_private; rewrite ?Hat.
  - done.
Qed.

(** ** What a step does to the goroutine that takes it *)

Definition weight (p : pc) : nat :=
  match p with
  | Queued _ => 6 | Called _ => 5 | Owning _ _ => 4 | Settled _ _ _ => 3 | Clearing _ _ _ | Waiting _ _ => 2
  | Leaving _ _ _ => 1 | Returned _ _ _ => 0
  end.

Definition argument_of (p : pc) : A :=
  match p with
  | Queued a | Called a | Owning a _ | Settled a _ _ | Clearing a _ _ | Waiting a _ | Leaving a _ _ | Returned a _ _ => a
  end.

(** The slots of the limiter that a goroutine holds. *)
Definition holds (c : caller) : nat := if limited c && running (at_ c) then 1 else 0.

(** Only a goroutine that passes the limiter queues for it. *)
Definition queued_ok (c : caller) : Prop := forall a, at_ c = Queued a -> limited c = true.

Lemma step_shape o i v s s' :
  step o i v s = Some s' ->
  exists c d, callers s !! i = Some c /\ callers s' = <[i := d]> (callers s) /\
    (weight (at_ d) < weight (at_ c))%nat /\ argument_of (at_ d) = argument_of (at_ c) /\ limited d = limited c /\
    (queued_ok c -> queued_ok d /\ slots s' + holds d = slots s + holds c)%nat.
Proof.
  unfold step. destruct (callers s !! i) as [[l p]|]; [|done]. cbn. intros E. exists (mkCaller l p).
  destruct p as [a|a|a f|a f u|a f u|a f|a f u|a f u]; cbn in E.
  - destruct (slots s) as [|n] eqn:Es; [done|]. injection E as <-. eexists. split_and!; [done|done|cbn; lia|done|done|].
    intros Hq. specialize (Hq a eq_refl). cbn in Hq. subst l. split; [done|]. unfold holds. cbn. lia.
  - injection E as <-. unfold LoadOrStore.
    destruct (inflight s !! key a); (eexists; split_and!; [done|done|cbn; lia|done|done|done]).
  - injection E as <-. eexists. split_and!; [done|done|cbn; lia|done|done|done].
  - injection E as <-. destruct o; (eexists; split_and!; [done|done|cbn; lia|done|done|done]).
  - injection E as <-. destruct o; (eexists; split_and!; [done|done|cbn; lia|done|done|done]).
  - destruct (flights s !! f) as [fl|]; [cbn in E|done]. destruct (released fl); [|done]. injection E as <-.
    eexists. split_and!; [done|done|cbn; lia|done|done|done].
  - injection E as <-. eexists. split_and!; [done|done|cbn; lia|done|done|]. intros _. split; [done|].
    unfold holds. destruct l; cbn; lia.
  - done.
Qed.

Lemma sum_insert (f : caller -> nat) l i c d :
  l !! i = Some c -> (sum_list_with f (<[i := d]> l) + f c = sum_list_with f l + f d)%nat.
Proof.
  revert i. induction l as [|c' l IH]; intros [|i] Hi; simplify_eq/=; [lia|].
  specialize (IH i Hi). lia.
Qed.

Definition progress_left (s : state) : nat := sum_list_with (fun c => weight (at_ c)) (callers s).

(** The goroutines, their arguments and the slots of the limiter are accounted for. *)
Record accounts (capacity : nat) (calls : list (bool * A)) (s : state) : Prop := {
  acc_slots : (slots s + sum_list_with holds (callers s))%nat = capacity;
  acc_calls : map (fun c => (limited c, argument_of (at_ c))) (callers s) = calls;
  acc_queued : Forall queued_ok (callers s) }.

Lemma step_accounts o capacity calls s s' : accounts capacity calls s -> steps_to o s s' -> accounts capacity calls s'.
Proof.
  intros [Hs Hc Hq] [i v _ Hstep]. destruct (step_shape _ _ _ _ _ Hstep) as (c & d & Hi & E & _ & Harg & Hlim & Hslots).
  destruct (Hslots (proj1 (Forall_lookup _ _) Hq i c Hi)) as [Hd Hcount]. split.
  - pose proof (sum_insert holds _ i c d Hi). rewrite E. lia.
  - rewrite E, <- Hc. apply list_eq. intros j. rewrite !list_lookup_fmap. destruct (decide (i = j)) as [<-|Hne].
    + rewrite list_lookup_insert_eq, Hi by (eapply lookup_lt_Some; done). simpl. by rewrite Harg, Hlim.
    + by rewrite list_lookup_insert_ne.
  - rewrite E. by apply Forall_insert.
Qed.

Lemma start_inv o capacity calls : inv o (start capacity calls).
Proof.
  assert (Hc : forall i c, callers (start capacity calls) !! i = Some c -> owns (at_ c) = None /\ entered o (at_ c) = None /\
    caller_ok o (start capacity calls) (at_ c)).
  { intros i c Hi. simpl in Hi. apply list_lookup_fmap_Some in Hi as ([[] a] & -> & _); by split_and!. }
  split.
  - intros i c Hi. by apply Hc in Hi as (_ & _ & ?).
  - intros i c a f Hi He. apply Hc in Hi as (_ & Hn & _). congruence.
  - intros k f Hk. simpl in Hk. by rewrite lookup_empty in Hk.
  - done.
  - intros i j c d f Hi _ Ho. apply Hc in Hi as (Hn & _). congruence.
  - done.
Qed.

Lemma start_accounts capacity calls : accounts capacity calls (start capacity calls).
Proof.
  split; simpl.
  - assert (Hz : sum_list_with holds (map (fun '(l, a) => mkCaller l (if l then Queued a else Called a)) calls) = 0%nat); [|lia].
    induction calls as [|[[] a] calls IH]; simpl; [done|by rewrite IH|by rewrite IH].
  - induction calls as [|[[] a] calls IH]; simpl; [done|by rewrite IH|by rewrite IH].
  - apply Forall_lookup. intros i c Hi. apply list_lookup_fmap_Some in Hi as ([[] a] & -> & _); intros ? [=]; done.
Qed.

Lemma reachable_ok o capacity calls s :
  rtc (steps_to o) (start capacity calls) s -> inv o s /\ accounts capacity calls s.
Proof.
  intros Hr. remember (start capacity calls) as s0 eqn:E0.
  assert (H0 : inv o s0 /\ accounts capacity calls s0) by (subst; split; [apply start_inv|apply start_accounts]).
  clear E0. induction Hr as [|s1 s2 s3 Hs _ IH]; [done|]. apply IH. destruct H0 as [Hi Ha].
  split; [by eapply step_inv|by eapply step_accounts].
Qed.

(** ** Progress *)

Lemma run_bounded o n s s' : nsteps (steps_to o) n s s' -> (n + progress_left s' <= progress_left s)%nat.
Proof.
  induction 1 as [|n s1 s2 s3 [i v _ Hs] _ IH]; [done|].
  destruct (step_shape _ _ _ _ _ Hs) as (c & d & Hi & E & Hw & _). unfold progress_left in *. rewrite E in IH.
  pose proof (sum_insert (fun c => weight (at_ c)) _ i c d Hi). cbn in *. lia.
Qed.

Lemma step_enabled o s i c v :
  callers s !! i = Some c ->
  match at_ c with Queued _ | Waiting _ _ | Returned _ _ _ => False | Owning a _ => work a v | _ => True end ->
  exists s', steps_to o s s'.
Proof.
  intros Hi Hp. eassert (exists s', step o i v s = Some s') as [s' Hs'].
  { unfold step. rewrite Hi. cbn. destruct (at_ c); (done || by eexists). }
  exists s'. apply (one_step o s s' i v); [|done]. intros c' a f Hi' Hat. rewrite Hi in Hi'. injection Hi' as <-. by rewrite Hat in Hp.
Qed.

Lemma running_enabled o s i c :
  (forall a, exists v, work a v) -> inv o s -> callers s !! i = Some c -> running (at_ c) = true ->
  exists s', steps_to o s s'.
Proof.
  intros Hwork Hinv Hi Hrun.
  destruct (Hwork (argument_of (at_ c))) as [v0 _].
  assert (Howner : forall j d f, callers s !! j = Some d -> owns (at_ d) = Some f -> exists s', steps_to o s s').
  { intros j d f Hd Ho. destruct (Hwork (argument_of (at_ d))) as [v Hv].
    apply (step_enabled o s j d v Hd). destruct (at_ d); done. }
  pose proof (inv_caller _ _ Hinv i c Hi) as Hok.
  destruct (at_ c) as [a|a|a f|a f u|a f u|a f|a f u|a f u] eqn:Hat; try done;
    try (apply (step_enabled o s i c v0 Hi); by rewrite Hat); try (apply (Howner i c f Hi); by rewrite Hat).
  destruct Hok as (fl & Hf & _). destruct (released fl) eqn:Hrel.
  - eexists. apply (one_step o s _ i v0); [intros c' ? ? Hi' Hat'; rewrite Hi in Hi'; injection Hi' as <-; by rewrite Hat in Hat'|].
    unfold step. rewrite Hi. cbn. rewrite Hat, Hf. cbn. by rewrite Hrel.
  - destruct (inv_open _ _ Hinv f fl Hf Hrel) as (j & d & Hd & Ho). by apply (Howner j d f).
Qed.

Lemma sum_zero (l : list caller) : (forall i c, l !! i = Some c -> running (at_ c) = false) -> sum_list_with holds l = 0%nat.
Proof.
  induction l as [|c l IH]; intros Hl; [done|]. simpl. rewrite IH by (intros i c' Hi; by apply (Hl (S i))).
  unfold holds. rewrite (Hl 0%nat c eq_refl). by destruct (limited c).
Qed.

Lemma no_deadlock o capacity calls s :
  (forall a, exists v, work a v) -> (0 < capacity)%nat -> inv o s -> accounts capacity calls s ->
  (exists s', steps_to o s s') \/ forall i c, callers s !! i = Some c -> weight (at_ c) = 0%nat.
Proof.
  intros Hwork Hcap Hinv [Hslots _ Hq].
  destruct (decide (Exists (fun c => running (at_ c) = true) (callers s))) as [Hrun|Hrun].
  { apply Exists_exists in Hrun as (c & Hc & Hr). apply list_elem_of_lookup in Hc as [i Hi]. left. by eapply running_enabled. }
  assert (Hidle : forall i c, callers s !! i = Some c -> running (at_ c) = false).
  { intros i c Hi. apply not_true_iff_false. intros Hr. apply Hrun, Exists_exists. exists c. split; [|done]. by eapply list_elem_of_lookup_2. }
  rewrite (sum_zero _ Hidle) in Hslots.
  destruct (decide (Exists (fun c => weight (at_ c) <> 0%nat) (callers s))) as [Hw|Hw].
  - left. apply Exists_exists in Hw as (c & Hc & Hw). apply list_elem_of_lookup in Hc as [i Hi].
    specialize (Hidle i c Hi). destruct (at_ c) as [a| | | | | | |] eqn:Hat; try done.
    destruct (Hwork a) as [v _]. destruct (slots s) as [|n] eqn:Es; [lia|]. eexists. apply (one_step o s _ i v).
    + intros c' ? ? Hi' Hat'. rewrite Hi in Hi'. injection Hi' as <-. by rewrite Hat in Hat'.
    + unfold step. rewrite Hi. cbn. by rewrite Hat, Es.
  - right. intros i c Hi. apply dec_stable. intros Hc. apply Hw, Exists_exists. exists c. split; [|done]. by eapply list_elem_of_lookup_2.
Qed.

(** ** What the calls return *)

(** C19.  Calls that share a flight.  In every reachable state of any interleaving: at most
    one goroutine works on a key at a time; the goroutines that hold a slot of the
    limiter are never more than its capacity; a call that has returned did so with a
    value that the work for its key produced, never with an outcome that was not
    written yet; and calls that shared a flight returned the same value. *)
Theorem single_flight_safe o capacity calls s :
  rtc (steps_to o) (start capacity calls) s ->
  (forall i j c d a b f g, callers s !! i = Some c -> callers s !! j = Some d ->
     at_ c = Owning a f -> at_ d = Owning b g -> key a = key b -> i = j) /\
  (sum_list_with holds (callers s) <= capacity)%nat /\
  (forall i c a f u, callers s !! i = Some c -> at_ c = Returned a f u ->
     calls.*2 !! i = Some a /\ exists b v, u = Some v /\ key b = key a /\ work b v) /\
  (forall i j c d a b f u w, callers s !! i = Some c -> callers s !! j = Some d ->
     at_ c = Returned a f u -> at_ d = Returned b f w -> u = w).
Proof.
  intros Hr. destruct (reachable_ok _ _ _ _ Hr) as [Hinv [Hslots Hcalls _]].
  assert (Hret : forall i c a f u, callers s !! i = Some c -> at_ c = Returned a f u -> shared_result s a f u).
  { intros i c a f u Hi Hat. pose proof (inv_caller _ _ Hinv i c Hi) as Hok. by rewrite Hat in Hok. }
  split_and!; [| lia | |].
  - intros i j c d a b f g Hi Hj Hc Hd Hk.
    assert (Hf : inflight s !! key a = Some f) by (apply (inv_entered _ _ Hinv i c a f Hi); by rewrite Hc).
    assert (Hg : inflight s !! key b = Some g) by (apply (inv_entered _ _ Hinv j d b g Hj); by rewrite Hd).
    rewrite Hk, Hg in Hf. injection Hf as ->. apply (inv_unique _ _ Hinv i j c d f Hi Hj); by rewrite ?Hc, ?Hd.
  - intros i c a f u Hi Hat. split.
    + rewrite <- Hcalls, list_lookup_fmap. change (map ?g ?l) with (g <$> l). by rewrite list_lookup_fmap, Hi; simpl; rewrite Hat.
    + destruct (Hret i c a f u Hi Hat) as (fl & v & Hf & Hk & Hv & ->). exists (argument fl), v. split_and!; [done..|].
      by apply (ok_outcome _ (inv_flight _ _ Hinv f fl Hf)).
  - intros i j c d a b f u w Hi Hj Hc Hd.
    destruct (Hret i c a f u Hi Hc) as (fl & v & Hf & _ & Hv & ->). destruct (Hret j d b f w Hj Hd) as (fl' & v' & Hf' & _ & Hv' & ->).
    rewrite Hf in Hf'. injection Hf' as <-. congruence.
Qed.

(** C20.  No call waits forever.  If the work on every argument may end and the limiter has
    a slot, then a run of [n] calls has at most [6 n] steps, in whatever order they are
    taken, and as long as not every call has returned some goroutine can take a step:
    the waiters are released, and the slots they hold never keep the owner from
    working. *)
Theorem single_flight_ends o capacity calls n s :
  (forall a, exists v, work a v) -> (0 < capacity)%nat ->
  nsteps (steps_to o) n (start capacity calls) s ->
  (n <= 6 * length calls)%nat /\
  ((exists s', steps_to o s s') \/
   forall i a, calls.*2 !! i = Some a -> exists c f u, callers s !! i = Some c /\ at_ c = Returned a f u).
Proof.
  intros Hwork Hcap Hn. split.
  - apply run_bounded in Hn. enough (progress_left (start capacity calls) <= 6 * length calls)%nat by lia.
    unfold progress_left, start. simpl. clear. induction calls as [|[[] a] calls IH]; simpl in *; lia.
  - assert (Hr : rtc (steps_to o) (start capacity calls) s) by (apply rtc_nsteps; eauto).
    destruct (reachable_ok _ _ _ _ Hr) as [Hinv Hacc].
    destruct (no_deadlock o capacity calls s Hwork Hcap Hinv Hacc) as [?|Hdone]; [by left|]. right.
    intros i a Hi. rewrite <- (acc_calls _ _ _ Hacc) in Hi. rewrite list_lookup_fmap in Hi.
    change (map ?g ?l) with (g <$> l) in Hi. rewrite list_lookup_fmap in Hi.
    destruct (callers s !! i) as [c|] eqn:Hc; [|done]. injection Hi as Ha. specialize (Hdone i c Hc).
    destruct (at_ c) as [| | | | | | |b f u] eqn:Hat; try done. simpl in Ha. subst b. by exists c, f, u.
Qed.

(** The run of a schedule, when the work is a function. *)
Fixpoint run (o : order) (working : A -> V) (schedule : list nat) (s : state) : option state :=
  match schedule with
  | [] => Some s
  | i :: schedule' =>
      c ← callers s !! i;
      s' ← step o i (working (argument_of (at_ c))) s;
      run o working schedule' s'
  end.

Lemma run_reaches o working schedule s s' :
  (forall a, work a (working a)) -> run o working schedule s = Some s' ->
  nsteps (steps_to o) (length schedule) s s'.
Proof.
  intros Hwork. revert s. induction schedule as [|i schedule IH]; intros s E; simpl in E; [injection E as <-; constructor|].
  destruct (callers s !! i) as [c|] eqn:Hi; [simpl in E|done].
  destruct (step o i _ s) as [s1|] eqn:Hs; [simpl in E|done]. simpl. eapply nsteps_l; [|by apply IH].
  apply (one_step o s s1 i _ ) with (2 := Hs). intros c' a f Hi' Hat. rewrite Hi in Hi'. injection Hi' as <-.
  rewrite Hat. apply Hwork.
Qed.

End SingleFlight.

(** ** The three uses *)

(** [ProcessUTXOToCompletion]: the calls for an outpoint share the processing of its
    graph. *)
Definition ProcessUTXOToCompletion (i : nat) (v : result unit) (s : state (A := Outpoint) (K := Outpoint) (V := result unit)) :=
  step (fun o => o) DoneThenDelete i v s.

(** [submitBeef]: the calls with a BEEF of one transaction share its submission. *)
Definition submitBeef (txid : list byte -> Hash) (i : nat) (v : result unit)
    (s : state (A := list byte) (K := Hash) (V := result unit)) :=
  step txid DoneThenDelete i v s.

(** [RequestNode]: the calls for an outpoint, in whatever graph, share the request. *)
Definition RequestNode (i : nat) (v : result Node) (s : state (A := Outpoint * Outpoint) (K := Outpoint) (V := result Node)) :=
  step snd DeleteThenDone i v s.

Module Example.

Definition at_byte (b : byte) : Outpoint := mkOutpoint (array32 [b]) 0.

Definition root1 : Outpoint := at_byte Byte.x01.
Definition root2 : Outpoint := at_byte Byte.x02.
Definition input : Outpoint := at_byte Byte.x03.

(** The node that a host serves carries the graph of the request. *)
Definition served (request : Outpoint * Outpoint) : result Node :=
  Ok (mkNode (Some request.1) [] (Index request.2) [] [] [] ∅).

Definition serves (request : Outpoint * Outpoint) (v : result Node) : Prop := v = served request.

(** Two graphs need the same input; both requests begin before the first is answered. *)
Definition requests : list (bool * (Outpoint * Outpoint)) := [(false, (root1, input)); (false, (root2, input))].

Local Abbreviation State := (state (A := Outpoint * Outpoint) (K := Outpoint) (V := result Node)).

Definition shared : option State := run snd DeleteThenDone served [0; 1; 0; 0; 0; 1; 0; 1]%nat (start 1 requests).

(** Requests for one outpoint in two graphs share one answer, although the answer
    depends on the graph: the second call, for the graph of [root2], returns the node of
    the graph of [root1]. *)
Theorem node_of_another_graph :
  (fun s => at_ <$> callers s !! 1%nat) <$> shared =
  Some (Some (Returned (root2, input) 0 (Some (served (root1, input))))) /\ root1 <> root2.
Proof. split; [vm_compute; reflexivity|by vm_compute]. Qed.

Definition final : State := default (start 1 requests) shared.

Lemma final_reached : nsteps (steps_to snd serves DeleteThenDone) 8 (start 1 requests) final.
Proof. apply (run_reaches snd serves DeleteThenDone served [0; 1; 0; 0; 0; 1; 0; 1]%nat); [done|]. vm_compute. reflexivity. Qed.

Lemma single_flight_safe_witness :
  (sum_list_with holds (callers final) <= 1)%nat /\
  (forall i c a f u, callers final !! i = Some c -> at_ c = Returned a f u ->
     requests.*2 !! i = Some a /\ exists b v, u = Some v /\ snd b = snd a /\ serves b v).
Proof.
  destruct (single_flight_safe snd serves DeleteThenDone 1 requests final (rtc_nsteps_2 _ _ _ final_reached)) as (_ & Hslots & Hret & _).
  exact (conj Hslots Hret).
Defined.

Lemma single_flight_ends_witness :
  (8 <= 6 * length requests)%nat /\
  ((exists s', steps_to snd serves DeleteThenDone final s') \/
   forall i a, requests.*2 !! i = Some a -> exists c f u, callers final !! i = Some c /\ at_ c = Returned a f u).
Proof.
  exact (single_flight_ends snd serves DeleteThenDone 1 requests 8 final (fun a => ex_intro _ (served a) eq_refl) (le_n 1) final_reached).
Defined.

End Example.

End SingleFlight.
