(* ===== verification/BasmProof.v ===== *)
(** * pkg/core/engine/basm-read-proof.go: Merkle proofs of admitted transactions

    [validateBASMProof] checks a parsed BUMP against the header of a block: the nodes
    are placed on the levels of the tree, the parents that the path determines are
    derived level by level, and every supplied leaf must be connected to the root.  A
    node that says that its sibling is repeated has no hash.  The merging of several
    proofs of one block follows. *)

From stdpp Require Import sorting.
From S2P Require Import Prelude Bytes Runs BasmHash BasmValues EngineModel.
Open Scope Z_scope.

(** [transaction.PathElement] and the fields of [transaction.MerklePath]; the pointers to
    nodes may be nil in the code. *)
Record ProofNode := mkProofNode {
  Offset : Z; NodeHash : option Hash; Txid_ : option bool; Duplicate : option bool }.

Record BumpPath := mkBump { PathHeight : Z; Path : list (list (option ProofNode)) }.

(** [BASMCanonicalHeader] *)
Record BASMCanonicalHeader := mkHeader {
  hdrHeight : Z; hdrBlockHash : Hash; hdrMerkleRoot : Hash; TransactionCount : Z }.

#[global] Instance BASMCanonicalHeader_eq_dec : EqDecision BASMCanonicalHeader.
Proof. solve_decision. Defined.

Module BasmProof.
Import BasmHash BasmValues.

Section Proofs.
Context {W : Type} `{MapRange W} (w : W).
(* [transaction.MerkleTreeParent] of the SDK *)
Context (MerkleTreeParent : Hash -> Hash -> Hash).

Local Abbreviation Level := (gmap Z (option Hash)).

(** [bits.Len64] *)
Definition Len64 (x : Z) : Z := if x =? 0 then 0 else Z.log2 x + 1.

Definition merkleProofDepth (txCount : Z) : Z :=
  let depth := Len64 (u64 (txCount - 1)) in
  if depth =? 0 then 1 else depth.

(** [levels[i]]; the guards of [validateBASMProof] keep [i] in range. *)
Definition level_at (levels : list Level) (i : nat) : Level := default ∅ (levels !! i).

(** ** The nodes of a path *)

Definition validateProofNodePlacement (node : ProofNode) (duplicate : bool) (width : Z) : result unit :=
  if duplicate then
    if bool_decide (is_Some (NodeHash node)) || (width <=? 1) || (width mod 2 =? 0) || negb (Offset node =? width)
    then Err ErrBASMInvalidData else Ok tt
  else if bool_decide (NodeHash node = None) || (width <=? Offset node) then Err ErrBASMInvalidData else Ok tt.

(** The binary search of the code is in a sorted slice. *)
Definition legalProofAncestor (offset : Z) (level : nat) (baseOffsets : list Z) : bool :=
  existsb (fun base => Z.shiftr base (Z.of_nat level) =? Z.lxor offset 1) baseOffsets.

Definition indexProofNode (levels : list Level) (baseOffsets : list Z) (node : option ProofNode) (level : nat) (width : Z)
    : result (list Level * list Z) :=
  match node with
  | None => Err ErrBASMInvalidData
  | Some node =>
      let duplicate := default false (Duplicate node) in
      validateProofNodePlacement node duplicate width ≫= fun _ =>
      baseOffsets ← (if (level =? 0)%nat then Ok (if duplicate then baseOffsets else baseOffsets ++ [Offset node])
                     else if legalProofAncestor (Offset node) level baseOffsets then Ok baseOffsets
                     else Err ErrBASMInvalidData);
      match level_at levels level !! Offset node with
      | Some _ => Err ErrBASMInvalidData
      | None => Ok (alter (<[Offset node := NodeHash node]>) level levels, baseOffsets)
      end
  end.

Fixpoint indexLevel (levels : list Level) (baseOffsets : list Z) (nodes : list (option ProofNode)) (level : nat) (width : Z)
    : result (list Level * list Z) :=
  match nodes with
  | [] => Ok (levels, baseOffsets)
  | node :: nodes' =>
      '(levels, baseOffsets) ← indexProofNode levels baseOffsets node level width;
      indexLevel levels baseOffsets nodes' level width
  end.

(** The loop of [indexProofNodes] over the levels of the path. *)
Fixpoint indexLevels (levels : list Level) (baseOffsets : list Z) (path : list (list (option ProofNode))) (level : nat) (width : Z)
    : Polling (list Level * list Z) :=
  match path with
  | [] => mret (levels, baseOffsets)
  | nodes :: path' =>
      poll ≫= fun _ =>
      '(levels, baseOffsets) ← pure (indexLevel levels baseOffsets nodes level width);
      indexLevels levels (if (level =? 0)%nat then merge_sort Z.le baseOffsets else baseOffsets) path' (S level)
        (width / 2 + width mod 2)
  end.

Definition indexProofNodes (path : BumpPath) (txCount depth : Z) : Polling (list Level * list Z) :=
  indexLevels (replicate (Z.to_nat (depth + 1)) ∅) [] (Path path) 0 txCount.

Definition checkProofLeaf (levels : list Level) (path : BumpPath) (txid : Hash) (position : Z)
    (header : BASMCanonicalHeader) : result unit :=
  match level_at levels 0 !! position with
  | Some (Some leaf) =>
      if negb (bool_decide (leaf = txid)) then Err ErrBASMInvalidData
      else if negb (TransactionCount header =? 1) then Ok tt
      else if negb (len (Path path) =? 1) || negb (len (default [] (Path path !! 0%nat)) =? 1) || negb (position =? 0) ||
              negb (bool_decide (txid = hdrMerkleRoot header))
      then Err ErrBASMInvalidData else Ok tt
  | _ => Err ErrBASMInvalidData
  end.

(** ** The parents *)

(** The body of the loop of [deriveProofLevel] for a node of [current]. *)
Definition deriveParent (current next : Level) (entry : Z * option Hash) : result Level :=
  match entry with
  | (_, None) => Ok next
  | (offset, Some lhs) =>
      if negb (offset mod 2 =? 0) then Ok next else
      match current !! (offset + 1) with
      | None => Ok next
      | Some rhs =>
          let parent := MerkleTreeParent lhs (default lhs rhs) in
          match next !! (offset / 2) with
          | Some old =>
              if bool_decide (old = Some parent) then Ok (<[offset / 2 := Some parent]> next) else Err ErrBASMInvalidData
          | None => Ok (<[offset / 2 := Some parent]> next)
          end
      end
  end.

Fixpoint deriveParents (current next : Level) (entries : list (Z * option Hash)) : result Level :=
  match entries with
  | [] => Ok next
  | entry :: entries' => next ← deriveParent current next entry; deriveParents current next entries'
  end.

Definition deriveProofLevel (levels : list Level) (level : nat) : result (list Level) :=
  next ← deriveParents (level_at levels level) (level_at levels (S level)) (range (level_at levels level) w);
  Ok (<[S level := next]> levels).

(** [n] more levels, from [level] on. *)
Fixpoint deriveFrom (levels : list Level) (level n : nat) : Polling (list Level) :=
  match n with
  | O => mret levels
  | S n' =>
      poll ≫= fun _ =>
      levels ← pure (deriveProofLevel levels level);
      deriveFrom levels (S level) n'
  end.

Definition deriveProofParents (levels : list Level) (depth : Z) : Polling (list Level) :=
  deriveFrom levels 0 (Z.to_nat depth).

(** ** The connection to the root *)

Definition connectedProofBase (levels : list Level) (offset depth : Z) : bool :=
  forallb (fun level =>
    bool_decide (is_Some (level_at levels level !! Z.lxor (Z.shiftr offset (Z.of_nat level)) 1)) &&
    match level_at levels (S level) !! Z.shiftr offset (Z.of_nat level + 1) with Some (Some _) => true | _ => false end)
    (seq 0 (Z.to_nat depth)).

Fixpoint walkProofBaseOffsets (levels : list Level) (i : Z) (baseOffsets : list Z) (depth : Z) : Polling unit :=
  match baseOffsets with
  | [] => mret tt
  | offset :: baseOffsets' =>
      (if i mod 1024 =? 0 then poll else mret tt) ≫= fun _ =>
      if negb (connectedProofBase levels offset depth) then pure (Err ErrBASMInvalidData)
      else walkProofBaseOffsets levels (i + 1) baseOffsets' depth
  end.

Definition validateBASMProof (path : BumpPath) (txid : Hash) (position : Z) (header : BASMCanonicalHeader) : Polling unit :=
  let depth := merkleProofDepth (TransactionCount header) in
  if negb (PathHeight path =? hdrHeight header) || (len (Path path) =? 0) || (depth <? len (Path path))
  then pure (Err ErrBASMInvalidData) else
  '(levels, baseOffsets) ← indexProofNodes path (TransactionCount header) depth;
  pure (checkProofLeaf levels path txid position header) ≫= fun _ =>
  if TransactionCount header =? 1 then mret tt else
  levels ← deriveProofParents levels depth;
  match level_at levels (Z.to_nat depth) !! 0 with
  | Some (Some root) =>
      if negb (bool_decide (root = hdrMerkleRoot header)) then pure (Err ErrBASMInvalidData)
      else walkProofBaseOffsets levels 0 baseOffsets depth
  | _ => pure (Err ErrBASMInvalidData)
  end.

(** ** What indexing establishes *)

Fixpoint width (l : nat) (n : Z) : Z :=
  match l with O => n | S l' => width l' (n / 2 + n mod 2) end.

Lemma width_S l n : width (S l) n = width l n / 2 + width l n mod 2.
Proof. clear MerkleTreeParent. revert n. induction l as [|l IH]; intros n; [done|]. cbn [width]. rewrite <- IH. done. Qed.

Lemma level_at_alter f i (levels : list Level) j :
  level_at (alter f i levels) j = (if decide (i = j /\ (i < length levels)%nat) then f (level_at levels j) else level_at levels j).
Proof.
  clear MerkleTreeParent.
  unfold level_at. destruct (decide (i = j)) as [<-|Hne].
  - rewrite list_lookup_alter_eq. case_decide as Hi.
    + destruct (lookup_lt_is_Some_2 levels i) as [m ->]; [tauto|done].
    + rewrite lookup_ge_None_2; [done|]. destruct (Nat.le_gt_cases (length levels) i); tauto.
  - rewrite list_lookup_alter_ne by done. by rewrite decide_False by tauto.
Qed.

Lemma level_at_insert m i (levels : list Level) j :
  (i < length levels)%nat -> level_at (<[i := m]> levels) j = (if decide (i = j) then m else level_at levels j).
Proof.
  clear MerkleTreeParent.
  intros Hi. unfold level_at. case_decide as Hj; [subst j; by rewrite list_lookup_insert_eq|].
  by rewrite list_lookup_insert_ne.
Qed.

(** A node of the path is inside the tree; one without a hash stands right of the last
    node of a level of odd width.  The hashes of level 0 are base hashes. *)
Definition placed (n : Z) (levels : list Level) : Prop :=
  forall l o v, level_at levels l !! o = Some v ->
    match v with None => width l n mod 2 = 1 /\ o = width l n | Some _ => o < width l n end.

Definition bases_listed (levels : list Level) (baseOffsets : list Z) : Prop :=
  forall o h, level_at levels 0 !! o = Some (Some h) -> o ∈ baseOffsets.

Lemma placement_Ok node duplicate wd :
  validateProofNodePlacement node duplicate wd = Ok tt ->
  match NodeHash node with
  | None => duplicate = true /\ wd mod 2 = 1 /\ Offset node = wd
  | Some _ => duplicate = false /\ Offset node < wd
  end.
Proof.
  clear MerkleTreeParent.
  unfold validateProofNodePlacement. pose proof (Z.mod_pos_bound wd 2).
  destruct (NodeHash node) as [h|]; destruct duplicate; simpl;
    repeat case_bool_decide; simpl; zcases; simpl; try done; try (intros _; repeat split; lia).
  all: try (exfalso; naive_solver).
Qed.

Lemma indexProofNode_Ok n levels bases node l levels' bases' :
  indexProofNode levels bases node l (width l n) = Ok (levels', bases') ->
  placed n levels -> bases_listed levels bases ->
  placed n levels' /\ bases_listed levels' bases' /\ length levels' = length levels.
Proof.
  clear MerkleTreeParent.
  unfold indexProofNode. destruct node as [node|]; [|done]. intros E Hp Hb.
  apply bind_Ok in E as ([] & Hn%placement_Ok & E). apply bind_Ok in E as (bases1 & Eb & E).
  destruct (level_at levels l !! Offset node) eqn:Eo; [done|]. injection E as <- <-.
  split_and!; [| |apply length_alter].
  - intros j o v. rewrite level_at_alter. case_decide as Hj; [|apply Hp]. destruct Hj as [<- _].
    intros [[<- <-]|[_ Ho]]%lookup_insert_Some; [|by apply Hp]. destruct (NodeHash node); tauto.
  - intros o h. rewrite level_at_alter. destruct (Nat.eqb_spec l 0) as [->|Hl].
    + assert (Hsub : forall x, x ∈ bases -> x ∈ bases1).
      { intros x Hx. simpl in Eb. destruct (default false (Duplicate node)); simplify_eq; [done|]. apply elem_of_app. by left. }
      case_decide; [|intros Ho; by apply Hsub, (Hb o h)].
      intros [[<- Eh]|[_ Ho]]%lookup_insert_Some; [|by apply Hsub, (Hb o h)].
      rewrite Eh in Hn. destruct Hn as [Hd _]. rewrite Hd in Eb. simpl in Eb. injection Eb as <-. apply elem_of_app. right. by left.
    + rewrite decide_False by tauto. destruct (legalProofAncestor _ _ _); [|done]. injection Eb as <-. apply Hb.
Qed.

Lemma indexLevel_Ok n levels bases nodes l levels' bases' :
  indexLevel levels bases nodes l (width l n) = Ok (levels', bases') ->
  placed n levels -> bases_listed levels bases ->
  placed n levels' /\ bases_listed levels' bases' /\ length levels' = length levels.
Proof.
  clear MerkleTreeParent.
  revert levels bases. induction nodes as [|node nodes IH]; intros levels bases E Hp Hb; cbn [indexLevel] in E; [by injection E as <- <-|].
  apply bind_Ok in E as ([levels1 bases1] & E1 & E).
  destruct (indexProofNode_Ok _ _ _ _ _ _ _ E1 Hp Hb) as (Hp1 & Hb1 & Hl1).
  destruct (IH _ _ E Hp1 Hb1) as (? & ? & ?). split_and!; [done..|congruence].
Qed.

Lemma indexLevels_Ok n levels bases path l c levels' bases' c' :
  indexLevels levels bases path l (width l n) c = (Ok (levels', bases'), c') ->
  placed n levels -> bases_listed levels bases ->
  placed n levels' /\ bases_listed levels' bases' /\ length levels' = length levels.
Proof.
  clear MerkleTreeParent.
  revert levels bases l c. induction path as [|nodes path IH]; intros levels bases l c E Hp Hb; cbn [indexLevels] in E;
    [by injection E as <- <- _|].
  apply polling_bind_Ok in E as ([] & c1 & _ & E). apply polling_bind_Ok in E as ([levels1 bases1] & c2 & E1 & E).
  apply pure_Ok in E1 as [E1 ->]. destruct (indexLevel_Ok _ _ _ _ _ _ _ E1 Hp Hb) as (Hp1 & Hb1 & Hl1).
  rewrite <- width_S in E. destruct (IH _ _ _ _ E Hp1) as (? & ? & ?); [|split_and!; [done..|congruence]].
  destruct (l =? 0)%nat; [|done]. intros o h Ho. rewrite merge_sort_Permutation. by apply (Hb1 o h).
Qed.

Lemma indexProofNodes_Ok path n depth c levels bases c' :
  indexProofNodes path n depth c = (Ok (levels, bases), c') ->
  placed n levels /\ bases_listed levels bases /\ length levels = Z.to_nat (depth + 1).
Proof.
  clear MerkleTreeParent.
  assert (Hempty : forall l, level_at (replicate (Z.to_nat (depth + 1)) ∅) l = ∅).
  { intros l. unfold level_at. destruct (_ !! l) as [m|] eqn:E; [|done]. by apply lookup_replicate in E as [-> _]. }
  intros E. destruct (indexLevels_Ok n _ _ _ 0 _ _ _ _ E) as (? & ? & Hl).
  - intros l o v. by rewrite Hempty, lookup_empty.
  - intros o h. by rewrite Hempty, lookup_empty.
  - rewrite length_replicate in Hl. done.
Qed.

(** ** What the derivation establishes *)

(** Every parent whose children are both there is there. *)
Definition derived (levels : list Level) (l : nat) : Prop :=
  forall o lhs rhs, o mod 2 = 0 -> level_at levels l !! o = Some (Some lhs) -> level_at levels l !! (o + 1) = Some rhs ->
    level_at levels (S l) !! (o / 2) = Some (Some (MerkleTreeParent lhs (default lhs rhs))).

Lemma deriveParent_Ok current next entry next' :
  deriveParent current next entry = Ok next' ->
  (forall o v, next !! o = Some v -> next' !! o = Some v) /\
  (forall o, next' !! o = Some None -> next !! o = Some None) /\
  (forall o lhs rhs, entry = (o, Some lhs) -> o mod 2 = 0 -> current !! (o + 1) = Some rhs ->
     next' !! (o / 2) = Some (Some (MerkleTreeParent lhs (default lhs rhs)))).
Proof.
  destruct entry as [offset [lhs|]]; cbn [deriveParent]; [|by intros [= <-]].
  destruct (Z.eqb_spec (offset mod 2) 0) as [He|He]; cbn [negb].
  2: { intros [= <-]. split_and!; [done..|]. by intros o ? ? [= <- _]. }
  destruct (current !! (offset + 1)) as [rhs|] eqn:Er.
  2: { intros [= <-]. split_and!; [done..|]. intros o ? rhs [= <- _] _. congruence. }
  set (parent := MerkleTreeParent lhs (default lhs rhs)). intros E.
  assert (Hnext : next' = <[offset / 2 := Some parent]> next /\
    forall v, next !! (offset / 2) = Some v -> v = Some parent).
  { destruct (next !! (offset / 2)) as [old|]; [case_bool_decide; [|done]|]; injection E as <-; (split; [done|]); intros v [= <-]; done. }
  destruct Hnext as [-> Hold]. split_and!.
  - intros o v Ho. destruct (decide (o = offset / 2)) as [->|Hne].
    + rewrite lookup_insert_eq. f_equal. symmetry. by apply Hold.
    + by rewrite lookup_insert_ne.
  - intros o [[_ [=]]|[_ Ho]]%lookup_insert_Some. done.
  - intros o l' r' [= <- <-] _ Er'. rewrite Er in Er'. injection Er' as <-. apply lookup_insert_eq.
Qed.

Lemma deriveParents_Ok current next entries next' :
  deriveParents current next entries = Ok next' ->
  (forall o v, next !! o = Some v -> next' !! o = Some v) /\
  (forall o, next' !! o = Some None -> next !! o = Some None) /\
  (forall o lhs rhs, (o, Some lhs) ∈ entries -> o mod 2 = 0 -> current !! (o + 1) = Some rhs ->
     next' !! (o / 2) = Some (Some (MerkleTreeParent lhs (default lhs rhs)))).
Proof.
  revert next. induction entries as [|entry entries IH]; intros next E; cbn [deriveParents] in E.
  { injection E as <-. split_and!; [done..|]. intros o ? ? Hin. by apply not_elem_of_nil in Hin. }
  apply bind_Ok in E as (next1 & E1 & E). destruct (deriveParent_Ok _ _ _ _ E1) as (Hm1 & Hn1 & Hp1).
  destruct (IH _ E) as (Hm & Hn & Hp). split_and!; [by auto|by auto|].
  intros o lhs rhs [Heq|Hin]%elem_of_cons He Hr; [|by apply Hp]. apply Hm. by apply (Hp1 o).
Qed.

Lemma deriveFrom_Ok levels l n c levels' c' :
  deriveFrom levels l n c = (Ok levels', c') -> (l + n < length levels)%nat ->
  (forall j, (j <= l)%nat -> level_at levels' j = level_at levels j) /\
  (forall j, (l <= j < l + n)%nat -> derived levels' j) /\
  (forall j o, level_at levels' j !! o = Some None -> level_at levels j !! o = Some None).
Proof.
  revert levels l c. induction n as [|n IH]; intros levels l c E Hlen; cbn [deriveFrom] in E.
  { injection E as <- _. split_and!; [done|lia|done]. }
  apply polling_bind_Ok in E as ([] & c1 & _ & E). apply polling_bind_Ok in E as (levels1 & c2 & E1 & E).
  apply pure_Ok in E1 as [E1 ->]. apply bind_Ok in E1 as (next & E1 & Elevels). injection Elevels as <-.
  destruct (deriveParents_Ok _ _ _ _ E1) as (_ & Hn & Hp).
  assert (Hat : forall j, level_at (<[S l := next]> levels) j = if decide (S l = j) then next else level_at levels j)
    by (intros; apply level_at_insert; lia).
  destruct (IH _ _ _ E ltac:(rewrite length_insert; lia)) as (Hsame & Hder & Hnil). split_and!.
  - intros j Hj. rewrite Hsame by lia. rewrite Hat. case_decide; [lia|done].
  - intros j Hj. destruct (decide (j = l)) as [->|Hne]; [|apply Hder; lia].
    intros o lhs rhs He. rewrite !Hsame by lia. rewrite !Hat. rewrite decide_False by lia. rewrite decide_True by done.
    intros Hl Hr. apply (Hp o); [|done..]. rewrite range_perm. by apply elem_of_map_to_list.
  - intros j o Ho. apply Hnil in Ho. rewrite Hat in Ho. case_decide as Hj; [|done]. subst j. by apply Hn.
Qed.

(** ** The tree *)

Lemma pair_up_lookup l k :
  pair_up l !! k = (fun a => hashPair a (default a (l !! S (2 * k)))) <$> l !! (2 * k)%nat.
Proof.
  clear. revert k. induction l as [|a|a b l IH] using list_ind_two; intros k; [done|by destruct k|].
  destruct k as [|k]; [done|]. cbn [pair_up]. replace (2 * S k)%nat with (S (S (2 * k))) by lia. apply IH.
Qed.

(** The nodes of level [k] of the tree over [txs]. *)
Definition nodes (k : nat) (txs : list Hash) : list Hash := Nat.iter k pair_up txs.

Lemma nodes_root k txs :
  txs <> [] -> (length txs <= 2 ^ k)%nat -> nodes k txs = [merkle_tree k txs].
Proof.
  clear. revert txs. induction k as [|k IH]; intros txs Hne Hl.
  - destruct txs as [|a [|b txs]]; [done..|simpl in Hl; lia].
  - unfold nodes. rewrite Nat.iter_succ_r. fold (nodes k (pair_up txs)).
    rewrite merkle_tree_pair_up by done. apply IH; [by rewrite pair_up_nil|].
    rewrite length_pair_up, Nat.div2_div. simpl in Hl. apply Nat.lt_succ_r, Nat.Div0.div_lt_upper_bound. lia.
Qed.

Lemma nodes_some k txs pos : is_Some (txs !! pos) -> is_Some (nodes k txs !! (pos / 2 ^ k)%nat).
Proof.
  clear. intros Hpos. induction k as [|k IH]; [by rewrite Nat.div_1_r|].
  change (nodes (S k) txs) with (pair_up (nodes k txs)). rewrite pair_up_lookup, fmap_is_Some.
  replace (pos / 2 ^ S k)%nat with ((pos / 2 ^ k) / 2)%nat by (by rewrite Nat.pow_succ_r', (Nat.mul_comm 2), Nat.Div0.div_div).
  apply lookup_lt_is_Some. apply lookup_lt_is_Some in IH. set (x := (pos / 2 ^ k)%nat) in *. clearbody x. pose proof (Nat.div_mod_eq x 2). lia.
Qed.

Lemma lxor_1 x : 0 <= x -> Z.lxor x 1 = if decide (x mod 2 = 0) then x + 1 else x - 1.
Proof.
  clear. intros Hx. pose proof (Z.div_mod x 2 ltac:(lia)) as Hd. pose proof (Z.mod_pos_bound x 2 ltac:(lia)).
  set (q := x / 2) in *.
  assert (Hq : Z.lxor (2 * q) 1 = 2 * q + 1).
  { rewrite <- Z.add_nocarry_lxor; [done|]. change 1 with (Z.ones 1). rewrite Z.land_ones by lia.
    change (2 ^ 1) with 2. by rewrite Z.mul_comm, Z.mod_mul. }
  case_decide as Hm.
  - rewrite Hd, Hm. rewrite Z.add_0_r. exact Hq.
  - assert (Hx1 : x = 2 * q + 1) by lia. rewrite Hx1. rewrite <- Hq at 1. rewrite Z.lxor_assoc.
    change (Z.lxor 1 1) with 0. rewrite Z.lxor_0_r. lia.
Qed.

(** ** Soundness *)

(** The nodes that a path resolves: those it supplies and the parents derived from them,
    as [validateBASMProof] has them when it looks at the root. *)
Definition resolved (path : BumpPath) (txCount : Z) (c : Ctx) : list Level :=
  let depth := merkleProofDepth txCount in
  match indexProofNodes path txCount depth c with
  | (Ok (levels, _), c) => match deriveProofParents levels depth c with (Ok levels, _) => levels | _ => [] end
  | _ => []
  end.

(** The children of node [k] of level [l + 1]: in a proof, and in the tree over [txs]. *)
Definition children (levels : list Level) (l k : nat) : option (Hash * Hash) :=
  match level_at levels l !! Z.of_nat (2 * k), level_at levels l !! (Z.of_nat (2 * k) + 1) with
  | Some (Some lhs), Some rhs => Some (lhs, default lhs rhs)
  | _, _ => None
  end.

Definition tree_children (txs : list Hash) (l k : nat) : option (Hash * Hash) :=
  (fun a => (a, default a (nodes l txs !! S (2 * k)))) <$> nodes l txs !! (2 * k)%nat.

(** At level [l] above position [pos], the proof and the tree have different children of
    nodes with the same hash. *)
Definition forged (levels : list Level) (txs : list Hash) (pos l : nat) : bool :=
  match children levels l (pos / 2 ^ S l), tree_children txs l (pos / 2 ^ S l) with
  | Some p, Some q => negb (bool_decide (p = q)) && bool_decide (hashPair p.1 p.2 = hashPair q.1 q.2)
  | _, _ => false
  end.

(** The collision that a proof of something else exhibits, at one of its levels. *)
Definition collides (path : BumpPath) (txs : list Hash) (pos : nat) (c : Ctx) : bool :=
  existsb (forged (resolved path (len txs) c) txs pos) (seq 0 (Z.to_nat (merkleProofDepth (len txs)))).

Section Soundness.
(* the SDK's parent of two nodes is the double SHA-256 of both *)
Context (parent_spec : forall a b, MerkleTreeParent a b = hashPair a b).

Lemma walk_Ok levels i bases depth c c' :
  walkProofBaseOffsets levels i bases depth c = (Ok tt, c') ->
  forall o, o ∈ bases -> connectedProofBase levels o depth = true.
Proof.
  clear. revert i c. induction bases as [|b bases IH]; intros i c E o Ho; [by apply not_elem_of_nil in Ho|].
  cbn [walkProofBaseOffsets] in E. apply polling_bind_Ok in E as ([] & c1 & _ & E).
  destruct (connectedProofBase levels b depth) eqn:Eb; [|done]. cbn [negb] in E.
  apply elem_of_cons in Ho as [->|Ho]; [done|by eapply IH].
Qed.

(** An offset with the nodes that its path to the root needs. *)
Definition connected (levels : list Level) (pos depth : nat) : Prop :=
  forall l, (l < depth)%nat ->
    is_Some (level_at levels l !! Z.lxor (Z.of_nat (pos / 2 ^ l)) 1) /\
    exists h, level_at levels (S l) !! Z.of_nat (pos / 2 ^ S l) = Some (Some h).

Lemma shiftr_nat pos l : Z.shiftr (Z.of_nat pos) (Z.of_nat l) = Z.of_nat (pos / 2 ^ l).
Proof. clear. rewrite Z.shiftr_div_pow2 by lia. by rewrite Nat2Z.inj_div, Nat2Z.inj_pow. Qed.

Lemma connectedProofBase_spec levels pos depth :
  connectedProofBase levels (Z.of_nat pos) (Z.of_nat depth) = true -> connected levels pos depth.
Proof.
  clear. unfold connectedProofBase. rewrite Nat2Z.id, forallb_forall. intros E l Hl. specialize (E l).
  rewrite in_seq, andb_true_iff, bool_decide_eq_true in E. destruct (E ltac:(lia)) as [Hs Hp].
  rewrite shiftr_nat in Hs. replace (Z.of_nat l + 1) with (Z.of_nat (S l)) in Hp by lia. rewrite shiftr_nat in Hp.
  split; [done|]. destruct (level_at levels (S l) !! Z.of_nat (pos / 2 ^ S l)) as [[h|]|] eqn:Eh; rewrite ?Eh in Hp; [by exists h|done..].
Qed.

(** The node at [pos] on level [l] is that of the tree over [txs]. *)
Definition agrees (levels : list Level) (txs : list Hash) (pos l : nat) : Prop :=
  exists h, level_at levels l !! Z.of_nat (pos / 2 ^ l) = Some (Some h) /\ nodes l txs !! (pos / 2 ^ l)%nat = Some h.

Lemma agrees_below levels txs pos depth l txid :
  (forall j o, level_at levels j !! o = Some None -> o mod 2 = 1) ->
  derived levels l -> connected levels pos depth -> (l < depth)%nat ->
  level_at levels 0 !! Z.of_nat pos = Some (Some txid) -> is_Some (txs !! pos) ->
  agrees levels txs pos (S l) -> agrees levels txs pos l \/ forged levels txs pos l = true.
Proof using parent_spec.
  intros Hnil Hder Hconn Hl Hleaf Hpos (h1 & Hup & Htree).
  assert (Hown : exists own, level_at levels l !! Z.of_nat (pos / 2 ^ l) = Some (Some own)).
  { destruct l as [|l]; [rewrite Nat.div_1_r; eauto|]. exact (proj2 (Hconn l ltac:(lia))). }
  destruct Hown as [own Hown]. pose proof (nodes_some l txs pos Hpos) as Hsome.
  destruct (Hconn l Hl) as [[sib Hsib] _].
  replace (pos / 2 ^ S l)%nat with ((pos / 2 ^ l) / 2)%nat in Hup, Htree by (by rewrite Nat.pow_succ_r', (Nat.mul_comm 2), Nat.Div0.div_div).
  change (nodes (S l) txs) with (pair_up (nodes l txs)) in Htree.
  unfold agrees. set (x := (pos / 2 ^ l)%nat) in *. set (k := (x / 2)%nat) in *.
  rewrite pair_up_lookup in Htree. destruct (nodes l txs !! (2 * k)%nat) as [a|] eqn:Ea; [|done]. injection Htree as Htree.
  pose proof (Nat.div_mod_eq x 2) as Hx. fold k in Hx. pose proof (Nat.mod_upper_bound x 2 ltac:(lia)).
  assert (Hpair : exists lhs rhs, level_at levels l !! Z.of_nat (2 * k) = Some (Some lhs) /\
    level_at levels l !! (Z.of_nat (2 * k) + 1) = Some rhs).
  { rewrite lxor_1 in Hsib by lia. destruct (decide (x mod 2 = 0)%nat) as [Hm|Hm].
    - rewrite decide_True in Hsib by (replace (Z.of_nat x) with (Z.of_nat k * 2) by lia; apply Z.mod_mul; lia).
      replace x with (2 * k)%nat in Hown, Hsib by lia. eauto.
    - assert (Hodd : Z.of_nat x mod 2 = 1) by (replace (Z.of_nat x) with (1 + Z.of_nat k * 2) by lia; by rewrite Z.mod_add).
      rewrite decide_False in Hsib by lia. replace (Z.of_nat x - 1) with (Z.of_nat (2 * k)) in Hsib by lia.
      replace (Z.of_nat x) with (Z.of_nat (2 * k) + 1) in Hown by lia. destruct sib as [lhs|]; [eauto|].
      apply Hnil in Hsib. replace (Z.of_nat (2 * k)) with (Z.of_nat k * 2) in Hsib by lia. rewrite Z.mod_mul in Hsib; lia. }
  destruct Hpair as (lhs & rhs & Hlhs & Hrhs).
  assert (Heven : Z.of_nat (2 * k) mod 2 = 0) by (replace (Z.of_nat (2 * k)) with (Z.of_nat k * 2) by lia; apply Z.mod_mul; lia).
  pose proof (Hder _ lhs rhs Heven Hlhs Hrhs) as Hparent. rewrite parent_spec in Hparent.
  replace (Z.of_nat (2 * k) / 2) with (Z.of_nat k) in Hparent by (apply Z.div_unique_exact; lia).
  rewrite Hup in Hparent. injection Hparent as Hparent. rewrite <- Htree in Hparent.
  set (b := default a (nodes l txs !! S (2 * k))) in *.
  destruct (decide ((a, b) = (lhs, default lhs rhs))) as [[= Hab Hb]|Hne].
  2: { right. unfold forged, children, tree_children.
       replace (pos / 2 ^ S l)%nat with k by (subst k x; by rewrite Nat.pow_succ_r', (Nat.mul_comm 2), Nat.Div0.div_div).
       rewrite Hlhs, Hrhs, Ea. cbn [fmap option_fmap option_map fst snd]. fold b.
       rewrite bool_decide_false by (intros E; by rewrite E in Hne). by rewrite bool_decide_true by done. }
  left. exists own. split; [done|]. destruct (decide (x mod 2 = 0)%nat) as [Hm|Hm].
  - replace x with (2 * k)%nat in Hown |- * by lia. rewrite Hown in Hlhs. injection Hlhs as ->. congruence.
  - replace (Z.of_nat x) with (Z.of_nat (2 * k) + 1) in Hown by lia. rewrite Hown in Hrhs. injection Hrhs as <-.
    replace x with (S (2 * k)) in Hsome |- * by lia. destruct Hsome as [b' Hb']. subst b. rewrite Hb' in Hb |- *. simpl in Hb. congruence.
Qed.

Lemma agrees_down levels txs pos depth txid :
  (forall j o, level_at levels j !! o = Some None -> o mod 2 = 1) ->
  (forall l, (l < depth)%nat -> derived levels l) -> connected levels pos depth ->
  level_at levels 0 !! Z.of_nat pos = Some (Some txid) -> is_Some (txs !! pos) ->
  agrees levels txs pos depth -> agrees levels txs pos 0 \/ exists l, (l < depth)%nat /\ forged levels txs pos l = true.
Proof using parent_spec.
  intros Hnil Hder Hconn Hleaf Hpos Htop.
  assert (Hdown : forall d, (d <= depth)%nat -> agrees levels txs pos (depth - d) \/ exists l, (l < depth)%nat /\ forged levels txs pos l = true).
  { induction d as [|d IH]; intros Hd; [rewrite Nat.sub_0_r; by left|].
    destruct (IH ltac:(lia)) as [Ha|?]; [|by right]. replace (depth - d)%nat with (S (depth - S d)) in Ha by lia.
    destruct (agrees_below levels txs pos depth (depth - S d) txid) as [?|?]; [done|apply Hder; lia|done|lia|done..|by left|].
    right. exists (depth - S d)%nat. split; [lia|done]. }
  specialize (Hdown depth ltac:(lia)). by rewrite Nat.sub_diag in Hdown.
Qed.

Lemma depth_log2_up (n : nat) :
  (2 <= n)%nat -> Z.of_nat n <= MaxSafeJSONInteger -> Z.to_nat (merkleProofDepth (Z.of_nat n)) = Nat.log2_up n /\
  0 <= merkleProofDepth (Z.of_nat n).
Proof.
  clear. unfold MaxSafeJSONInteger. intros Hn Hmax. unfold merkleProofDepth, Len64.
  rewrite u64_small by (unfold is_u64, MaxUint64; lia).
  destruct (Z.eqb_spec (Z.of_nat n - 1) 0); [lia|]. pose proof (Z.log2_nonneg (Z.of_nat n - 1)).
  destruct (Z.eqb_spec (Z.log2 (Z.of_nat n - 1) + 1) 0); [lia|]. split; [|lia]. symmetry.
  set (m := Z.log2 (Z.of_nat n - 1)) in *. pose proof (Z.log2_spec (Z.of_nat n - 1) ltac:(lia)) as [Hlo Hhi]. fold m in Hlo, Hhi.
  apply Nat.log2_up_unique; [lia|]. replace (Z.to_nat (m + 1)) with (S (Z.to_nat m)) by lia. cbn [Nat.pred].
  replace (2 ^ Z.succ m) with (Z.of_nat (2 ^ S (Z.to_nat m))) in Hhi by (rewrite Nat2Z.inj_pow; f_equal; lia).
  replace (2 ^ m) with (Z.of_nat (2 ^ Z.to_nat m)) in Hlo by (rewrite Nat2Z.inj_pow; f_equal; lia). lia.
Qed.

Lemma accepted_right path txid position header txs c c' :
  0 <= position -> TransactionCount header = len txs -> len txs <= MaxSafeJSONInteger ->
  root_spec txs (len txs) = Ok (hdrMerkleRoot header) ->
  validateBASMProof path txid position header c = (Ok tt, c') ->
  txs !! Z.to_nat position = Some txid \/ collides path txs (Z.to_nat position) c = true.
Proof using parent_spec.
  intros Hpos Hcount Hmax Hroot E. unfold validateBASMProof in E. rewrite Hcount in E. unfold collides, resolved.
  set (depth := merkleProofDepth (len txs)) in *. destruct (_ || _); [done|].
  apply polling_bind_Ok in E as ([levels bases] & c1 & Ei & E). destruct (indexProofNodes_Ok _ _ _ _ _ _ _ Ei) as (Hp & Hb & Hlen).
  apply polling_bind_Ok in E as ([] & c2 & El & E). apply pure_Ok in El as [El ->]. unfold checkProofLeaf in El. rewrite Hcount in El.
  destruct (level_at levels 0 !! position) as [[leaf|]|] eqn:Eleaf; [|done..].
  destruct (bool_decide_reflect (leaf = txid)) as [->|]; [cbn [negb] in El|done].
  pose proof (Hp _ _ _ Eleaf) as Hwidth. cbn [width] in Hwidth.
  assert (Hat : is_Some (txs !! Z.to_nat position)) by (apply lookup_lt_is_Some; unfold len in *; lia).
  unfold root_spec in Hroot. destruct (len txs =? 0) eqn:E0; [done|]. rewrite Z.ltb_irrefl in Hroot.
  rewrite decide_False in Hroot by (intros ->; simpl in Hwidth; unfold len in Hwidth; simpl in Hwidth; lia).
  injection Hroot as Hroot. destruct (Z.eqb_spec (len txs) 1) as [H1'|H1']; cbn [negb] in El, E.
  - destruct txs as [|t [|t' txs]]; unfold len in H1', Hwidth; simpl in H1', Hwidth; [lia| |lia].
    left. destruct (bool_decide_reflect (txid = hdrMerkleRoot header)) as [->|]; [|by rewrite !orb_true_r in El].
    assert (position = 0) as -> by lia. rewrite <- Hroot. done.
  - clear El. apply polling_bind_Ok in E as (levels' & c3 & Ed & E). unfold deriveProofParents in Ed.
    assert (Hn2 : (2 <= length txs)%nat) by (unfold len in *; apply Z.eqb_neq in E0; lia).
    destruct (depth_log2_up (length txs) Hn2 Hmax) as [Edepth Hdepth]. fold (len txs) in Edepth, Hdepth. fold depth in Edepth, Hdepth.
    destruct (deriveFrom_Ok _ _ _ _ _ _ Ed ltac:(lia)) as (Hsame & Hder & Hnil).
    destruct (level_at levels' (Z.to_nat depth) !! 0) as [[root|]|] eqn:Etop; [|done..].
    destruct (bool_decide_reflect (root = hdrMerkleRoot header)) as [->|]; [cbn [negb] in E|done].
    set (pos := Z.to_nat position) in *. replace position with (Z.of_nat pos) in Eleaf by lia.
    assert (Hconn : connected levels' pos (Z.to_nat depth)).
    { apply connectedProofBase_spec. rewrite Z2Nat.id by done. by apply (walk_Ok _ _ _ _ _ _ E), (Hb _ txid). }
    pose proof (lookup_lt_is_Some_1 _ _ Hat) as Hposlt. destruct (log2_up_height (length txs) Hn2) as [Hup _].
    assert (Hzero : (pos / 2 ^ Z.to_nat depth = 0)%nat) by (rewrite Edepth; apply Nat.div_small; lia).
    destruct (agrees_down levels' txs pos (Z.to_nat depth) txid) as [(h & Hl & Ht)|(l & Hl & Hforged)];
      [..|right; rewrite Ei; unfold deriveProofParents; rewrite Ed; apply existsb_exists; exists l; rewrite in_seq; split; [lia|done]].
    + intros j o Ho. apply Hnil, Hp in Ho as [Ho ->]. pose proof (Z.mod_pos_bound (width j (len txs)) 2). lia.
    + intros l Hl. apply Hder. lia.
    + done.
    + by rewrite Hsame.
    + done.
    + exists (hdrMerkleRoot header). rewrite Hzero. split; [done|].
      rewrite Edepth, nodes_root; [by rewrite Hroot|by intros ->|done].
    + left. rewrite Nat.div_1_r in Hl, Ht. rewrite Hsame in Hl by lia. rewrite Eleaf in Hl. injection Hl as ->. exact Ht.
Qed.

(** C21.  A Merkle proof that is accepted is right.  If the header has the number of
    transactions and the Merkle root (as [basm.Root] computes it) of the block [txs], then
    the transaction that the proof was accepted for is at that position of the block, or
    [collides] finds a collision of the double SHA-256 in this very proof: at some level
    above the position, the nodes that the proof resolves and those of the block's tree
    are two different pairs of children with the same parent.  The nodes of the path may
    be anything that the parser of the SDK can return. *)
Theorem accepted_proof_is_right path txid position header txs c c' :
  0 <= position -> TransactionCount header = len txs -> len txs <= MaxSafeJSONInteger ->
  root_spec txs (len txs) = Ok (hdrMerkleRoot header) ->
  validateBASMProof path txid position header c = (Ok tt, c') ->
  txs !! Z.to_nat position = Some txid \/ collides path txs (Z.to_nat position) c = true.
Proof using parent_spec. apply accepted_right. Qed.

End Soundness.
End Proofs.

(** ** A block of three transactions *)

Module Example.
Import EngineModel.

Definition t0 : Hash := nameOf [Byte.x01].
Definition t1 : Hash := nameOf [Byte.x02].
Definition t2 : Hash := nameOf [Byte.x03].

Definition block : list Hash := [t0; t1; t2].

Definition header : BASMCanonicalHeader := mkHeader 9 zero_hash (merkle_tree 2 block) 3.

(** The proof of the last transaction: its right sibling repeats it. *)
Definition proof : BumpPath := mkBump 9
  [[Some (mkProofNode 2 (Some t2) (Some true) None); Some (mkProofNode 3 None None (Some true))];
   [Some (mkProofNode 0 (Some (hashPair t0 t1)) None None)]].

Definition accepted := validateBASMProof (W := unit) tt hashPair proof t2 2 header background.

Example accepted_ok : accepted = (Ok tt, background).
Proof. vm_compute. reflexivity. Qed.

(** The same proof for the first transaction. *)
Example refused : validateBASMProof (W := unit) tt hashPair proof t0 0 header background = (Err ErrBASMInvalidData, background).
Proof. vm_compute. reflexivity. Qed.

Lemma block_root : root_spec block (len block) = Ok (hdrMerkleRoot header).
Proof. vm_compute. reflexivity. Qed.

(** There is no collision in it. *)
Example no_collision : collides (W := unit) tt hashPair proof block 2 background = false.
Proof. vm_compute. reflexivity. Qed.

Lemma accepted_proof_is_right_witness : block !! 2%nat = Some t2 \/ collides (W := unit) tt hashPair proof block 2 background = true.
Proof.
  exact (accepted_proof_is_right (W := unit) tt hashPair (fun a b => eq_refl) proof t2 2 header block background background
    ltac:(lia) eq_refl ltac:(by vm_compute) block_root accepted_ok).
Defined.

End Example.

End BasmProof.
