(* ===== verification/BasmRead.v ===== *)
(** * pkg/core/engine/basm-read-service.go, basm-read-proof.go: serving BASM records

    The read service answers from an immutable view of the storage, checked against
    independently sourced headers: anchors, ranges of anchors, admitted lists, raw
    transactions and compound Merkle paths.  The messages are those of
    pkg/core/basm/protocol.go.  The context of a request is part of the world, so that
    it may be cancelled at any poll. *)

From stdpp Require Import sorting.
From S2P Require Import Prelude Bytes Runs Traced Sha256 BasmHash BasmValues BasmWire BasmBump EngineModel BasmProof.
Import BasmHash BasmValues BasmProof.
Open Scope Z_scope.

Record Anchor := mkTacAnchor { anchor : TopicBlockAnchor; TAC : Hash }.

Record TopicAnchorTip := mkTip {
  tipTopic : list byte; tipHeight : Z; tipBlock : option (Hash * Hash * Z); tipTAC : Hash }.

Record TopicAnchorRange := mkAnchorRange { rangeTopic : list byte; Anchors : list Anchor }.

Record AdmittedList := mkAdmitted {
  listTopic : list byte; listHeight : Z; listBlockHash : Hash; listAdmitted : list AdmittedTxRef }.

Record CompoundMerklePath := mkCompound {
  cmpTopic : list byte; cmpHeight : Z; TxIDs : list Hash; cmpPath : list byte }.

Record RawTransactions := mkRaw { Transactions : list (Hash * list byte); Missing : list Hash }.

Record ReadLimits := mkReadLimits {
  baseLimits : Limits; MaxRequestedTxIDs : Z; MaxRequestBytes : Z; MaxProofBytes : Z;
  MaxRawTxBytes : Z; MaxResponseBytes : Z; RequestTimeout : Z }.

Definition DefaultReadLimits : ReadLimits :=
  mkReadLimits DefaultLimits 1000 (Z.shiftl 1 20) (Z.shiftl 8 20) (Z.shiftl 32 20) (Z.shiftl 96 20) (10 * 10 ^ 9).

(** [ReadLimits.Validate] *)
Definition ValidateReadLimits (l : ReadLimits) : result unit :=
  validate (baseLimits l) ≫= fun _ =>
  if (MaxRequestedTxIDs l =? 0) || (MaxRequestBytes l =? 0) || (MaxProofBytes l =? 0) || (MaxRawTxBytes l =? 0) ||
     (MaxResponseBytes l =? 0) || (RequestTimeout l <=? 0)
  then Err ErrInvalidInput else Ok tt.

(** [BASMReadOpener], [BASMReadView] and [BASMHeaderResolver], the context of the request
    and the parsers of the SDK. *)
Class BASMWorld (W View : Type) := {
  OpenBASMRead : list byte -> ReadLimits -> Op W (option View);
  viewTip : View -> Op W (option Anchor);
  viewAnchors : View -> Z -> Z -> Z -> Op W (list Anchor);
  viewAdmitted : View -> Z -> Z -> Op W (list AdmittedTxRef);
  viewMerklePath : View -> Hash -> Z -> Op W (list byte);
  viewRawTx : View -> Hash -> Z -> Op W (list byte);
  viewCheckCurrent : View -> Op W unit;
  viewClose : View -> Op W unit;
  CanonicalBASMHeader : Z -> Op W BASMCanonicalHeader;
  context : W -> Ctx;
  withContext : Ctx -> W -> W }.

Class BASMParsers := {
  NewMerklePathFromReader : list byte -> result BumpPath;
  MerklePathBytes : Z -> list (list ProofNode) -> list byte;
  ParsedTx : Type;
  NewTransactionFromBytes : list byte -> result ParsedTx;
  TransactionBytes : ParsedTx -> list byte;
  MerkleTreeParent : Hash -> Hash -> Hash }.

Module BasmRead.

(** ** Budgets *)

(** [checkResponseSize], without an overflow of the multiplication. *)
Definition checkResponseSize (limits : ReadLimits) (base perItem count : Z) : result unit :=
  let limit := MaxResponseBytes limits in
  if (limit <? base) || (negb (perItem =? 0) && ((limit - base) / perItem <? count)) then Err ErrLimitExceeded else Ok tt.

Definition proofResponseTooLarge (encoded : list byte) (txids : list Hash) (topic : list byte) (limits : ReadLimits) : bool :=
  (MaxProofBytes limits <? len encoded) ||
  (MaxResponseBytes limits <? u64 (u64 (u64 (u64 (len encoded * 2) + u64 (len txids * 67)) + u64 (len topic * 6)) + 256)).

Section BasmRead.
Context {W View : Type} `{BASMWorld W View} `{BASMParsers} `{MapRange W}.

(** The calls of a request, each with what it gave. *)
Inductive event :=
  | OpenCall (topic : list byte) (r : result (option View))
  | TipCall (r : result (option Anchor))
  | AnchorsCall (from to : Z) (r : result (list Anchor))
  | AdmittedCall (height : Z) (r : result (list AdmittedTxRef))
  | PathCall (txid : Hash) (r : result (list byte))
  | RawCall (txid : Hash) (r : result (list byte))
  | HeaderCall (height : Z) (r : result BASMCanonicalHeader)
  | CurrentCall (r : result unit)
  | CloseCall (r : result unit).

Local Abbreviation St := (Traced.St W event).
Local Abbreviation Run := (Runs.Run St).

(** A computation under the context of the request. *)
Definition polled {A} (m : Polling A) : Run A := fun s =>
  let '(r, c) := m (context (world s)) in Some (r, mkSt (withContext c (world s)) (trace s)).

(** [if _, err := m; err != nil { ... }]: the error is looked at. *)
Definition attempt {A} (m : Run A) : Run (result A) := fun s =>
  match m s with
  | Some (Panic, s') => Some (Panic, s')
  | Some (r, s') => Some (Ok r, s')
  | None => None
  end.

(** [defer]: [k] sees the result, whatever it is. *)
Definition deferred {A B} (m : Run A) (k : result A -> Run B) : Run B := fun s =>
  match m s with Some (r, s') => k r s' | None => None end.

Definition resolve (height : Z) : Run BASMCanonicalHeader := observe (CanonicalBASMHeader height) (HeaderCall height).

(** [BASMReadService]; the storage and the resolver may be nil. *)
Record BASMReadService := mkService { hasStorage : bool; hasHeaders : bool; limits : ReadLimits }.

Definition NewBASMReadService (storage headers : bool) (l : ReadLimits) : result BASMReadService :=
  if negb storage then Err ErrBASMUnsupported
  else ValidateReadLimits l ≫= fun _ => Ok (mkService storage headers l).

(** ** The frame of a request *)

Definition requireBASMHeaders (s : BASMReadService) (topic : list byte) (needsHeaders : bool) : result unit :=
  if negb needsHeaders then Ok tt
  else Validate (mkAnchor topic 0 zero_hash zero_hash 0) (baseLimits (limits s)) ≫= fun _ =>
       if negb (hasHeaders s) then Err ErrBASMNotReady else Ok tt.

Definition openBASMReadView (s : BASMReadService) (topic : list byte) : Run View :=
  polled poll ≫= fun _ =>
  view ← observe (OpenBASMRead topic (limits s)) (OpenCall topic);
  match view with None => lift (Err ErrBASMNotReady) | Some v => mret v end.

Fixpoint recheckCanonicalHeaders (headers : list BASMCanonicalHeader) : Run unit :=
  match headers with
  | [] => mret tt
  | header :: headers' =>
      current ← resolve (hdrHeight header);
      if negb (bool_decide (current = header)) then lift (Err ErrBASMNotReady)
      else recheckCanonicalHeaders headers'
  end.

Definition completeBASMRead (view : View) (headers : list BASMCanonicalHeader) : Run unit :=
  recheckCanonicalHeaders headers ≫= fun _ => observe (viewCheckCurrent view) CurrentCall.

(** [closeBASMView], which is deferred: it runs whatever the outcome of the read. *)
Definition closeBASMView {T} (view : View) (r : result T) : Run T := fun s =>
  match observe (viewClose view) CloseCall s with
  | Some (closed, s) =>
      match r, closed with
      | Panic, _ | _, Panic => Some (Panic, s)
      | Err e, _ => Some (Err e, s)
      | Ok _, Err e => Some (Err e, s)
      | Ok v, Ok _ => (polled poll ≫= fun _ => mret v) s
      end
  | None => None
  end.

Definition readBASM {T} (s : option BASMReadService) (nilContext : bool) (topic : list byte) (needsHeaders : bool)
    (answer : BASMReadService -> View -> Run (T * list BASMCanonicalHeader)) : Run T :=
  match s with
  | None => lift (Err ErrBASMUnsupported)
  | Some s =>
      if negb (hasStorage s) then lift (Err ErrBASMUnsupported) else
      if nilContext then lift (Err ErrInvalidInput) else
      lift (requireBASMHeaders s topic needsHeaders) ≫= fun _ =>
      view ← openBASMReadView s topic;
      deferred ('(output, headers) ← answer s view; completeBASMRead view headers ≫= fun _ => mret output) (closeBASMView view)
  end.

(** ** Anchors *)

(** The wrapped error of [anchor.Validate] is also found by [errors.Is]. *)
Definition asInvalidData {A} (r : result A) : result A := match r with Err _ => Err ErrBASMInvalidData | _ => r end.

Definition validateAnchor (s : BASMReadService) (topic : list byte) (a : Anchor) : Run BASMCanonicalHeader :=
  polled poll ≫= fun _ =>
  if negb (bool_decide (Topic (anchor a) = topic)) then lift (Err ErrBASMInvalidData) else
  lift (asInvalidData (Validate (anchor a) (baseLimits (limits s)))) ≫= fun _ =>
  header ← resolve (BlockHeight (anchor a));
  if negb (hdrHeight header =? BlockHeight (anchor a)) || negb (bool_decide (hdrBlockHash header = BlockHash (anchor a))) ||
     (TransactionCount header =? 0) || (MaxSafeJSONInteger <? TransactionCount header)
  then lift (Err ErrBASMNotReady)
  else if TransactionCount header <? AdmittedCount (anchor a) then lift (Err ErrBASMInvalidData)
  else mret header.

Definition ProvideTopicAnchorTip (s : option BASMReadService) (nilContext : bool) (topic : list byte) : Run TopicAnchorTip :=
  readBASM s nilContext topic true (fun s v =>
    lift (checkResponseSize (limits s) (400 + len topic * 6) 0 0) ≫= fun _ =>
    tip ← observe (viewTip v) TipCall;
    match tip with
    | None => mret (mkTip topic (-1) None zero_hash, [])
    | Some a =>
        header ← validateAnchor s topic a;
        mret (mkTip topic (BlockHeight (anchor a)) (Some (BlockHash (anchor a), BASMRoot (anchor a), AdmittedCount (anchor a))) (TAC a), [header])
    end).

(** The loop of [validateAnchorRange]; [previous] is the TAC of the anchor before. *)
Fixpoint validateAnchorRange (s : BASMReadService) (topic : list byte) (from : Z) (previous : option Hash) (anchors : list Anchor)
    : Run (list BASMCanonicalHeader) :=
  match anchors with
  | [] => mret []
  | a :: anchors' =>
      if negb (BlockHeight (anchor a) =? from) then lift (Err ErrBASMInvalidData) else
      header ← validateAnchor s topic a;
      if match previous with
         | Some p => negb (bool_decide (TAC a = HashTACStep p (BlockHash (anchor a)) (BASMRoot (anchor a))))
         | None => false
         end
      then lift (Err ErrBASMInvalidData) else
      headers ← validateAnchorRange s topic (from + 1) (Some (TAC a)) anchors';
      mret (header :: headers)
  end.

Definition collectAnchorRange (s : BASMReadService) (v : View) (topic : list byte) (from to count : Z)
    : Run (TopicAnchorRange * list BASMCanonicalHeader) :=
  lift (checkResponseSize (limits s) (64 + len topic * 6) (400 + len topic * 6) count) ≫= fun _ =>
  anchors ← observe (viewAnchors v from to count) (AnchorsCall from to);
  if negb (len anchors =? count) then lift (Err ErrBASMNotReady) else
  headers ← validateAnchorRange s topic from None anchors;
  mret (mkAnchorRange topic anchors, headers).

Definition ProvideTopicAnchorRange (s : option BASMReadService) (nilContext : bool) (topic : list byte) (from to : Z)
    : Run TopicAnchorRange :=
  match s with
  | None => lift (Err ErrBASMUnsupported)
  | Some s' =>
      count ← lift (ValidateRange from to (MaxRange (baseLimits (limits s'))));
      readBASM s nilContext topic true (fun s v => collectAnchorRange s v topic from to count)
  end.

(** ** Admitted lists *)

Definition readBlock (s : BASMReadService) (v : View) (topic : list byte) (height : Z)
    : Run (Anchor * list AdmittedTxRef * BASMCanonicalHeader) :=
  anchors ← observe (viewAnchors v height height 1) (AnchorsCall height height);
  match anchors with
  | [a] =>
      if negb (BlockHeight (anchor a) =? height) then lift (Err ErrBASMNotReady) else
      header ← validateAnchor s topic a;
      admitted ← observe (viewAdmitted v height (MaxAdmitted (baseLimits (limits s)))) (AdmittedCall height);
      polled (fun c => let '(r, c) := ValidateAnchorList (anchor a) admitted (TransactionCount header) (baseLimits (limits s)) c in
                       (asInvalidData r, c)) ≫= fun _ =>
      mret (a, admitted, header)
  | _ => lift (Err ErrBASMNotReady)
  end.

Definition ProvideAdmittedList (s : option BASMReadService) (nilContext : bool) (topic : list byte) (height : Z) (hash : option Hash)
    : Run AdmittedList :=
  readBASM s nilContext topic true (fun s v =>
    '(a, admitted, header) ← readBlock s v topic height;
    if match hash with Some h => negb (bool_decide (h = BlockHash (anchor a))) | None => false end then lift (Err ErrBASMNotReady) else
    lift (checkResponseSize (limits s) (192 + len topic * 6) 128 (len admitted)) ≫= fun _ =>
    mret (mkAdmitted topic height (BlockHash (anchor a)) admitted, [header])).

(** ** Raw transactions *)

Definition validateTxids (s : option BASMReadService) (txids : list Hash) (required : bool) : result unit :=
  match s with
  | None => Err ErrBASMUnsupported
  | Some s =>
      if MaxRequestedTxIDs (limits s) <? len txids then Err ErrLimitExceeded
      else if required && (len txids =? 0) then Err ErrInvalidInput
      else if negb (bool_decide (NoDup txids)) then Err ErrInvalidInput else Ok tt
  end.

Definition appendRawTransaction (s : BASMReadService) (v : View) (txid : Hash) (response : RawTransactions) (encodedBytes : Z)
    : Run (RawTransactions * Z) :=
  polled poll ≫= fun _ =>
  found ← attempt (observe (viewRawTx v txid (MaxRawTxBytes (limits s))) (RawCall txid));
  match found with
  | Err ErrBASMNotFound => mret (mkRaw (Transactions response) (Missing response ++ [txid]), u64 (encodedBytes + 67))
  | Err e => lift (Err e)
  | Panic => lift Panic
  | Ok raw =>
      if MaxRawTxBytes (limits s) <? len raw then lift (Err ErrLimitExceeded) else
      let encodedBytes := u64 (encodedBytes + u64 (len raw * 2 + 128)) in
      if MaxResponseBytes (limits s) <? u64 (encodedBytes + 128) then lift (Err ErrLimitExceeded) else
      match BasmWire.RawTransactionID NewTransactionFromBytes TransactionBytes raw (MaxRawTxBytes (limits s)) with
      | Ok derived =>
          if negb (bool_decide (derived = txid)) then lift (Err ErrBASMInvalidData)
          else mret (mkRaw (Transactions response ++ [(txid, hex_encode raw)]) (Missing response), encodedBytes)
      | Err _ => lift (Err ErrBASMInvalidData)
      | Panic => lift Panic
      end
  end.

Fixpoint collectTransactions (s : BASMReadService) (v : View) (txids : list Hash) (response : RawTransactions) (encodedBytes : Z)
    : Run (RawTransactions * Z) :=
  match txids with
  | [] => mret (response, encodedBytes)
  | txid :: txids' =>
      '(response, encodedBytes) ← appendRawTransaction s v txid response encodedBytes;
      collectTransactions s v txids' response encodedBytes
  end.

Definition collectRawTransactions (s : BASMReadService) (v : View) (txids : list Hash) : Run (RawTransactions * list BASMCanonicalHeader) :=
  '(response, encodedBytes) ← collectTransactions s v txids (mkRaw [] []) 0;
  if MaxResponseBytes (limits s) <? u64 (encodedBytes + 128) then lift (Err ErrLimitExceeded) else mret (response, []).

Definition ProvideRawTransactions (s : option BASMReadService) (nilContext : bool) (txids : list Hash) : Run RawTransactions :=
  lift (validateTxids s txids false) ≫= fun _ =>
  readBASM s nilContext [] false (fun s v => collectRawTransactions s v txids).

(** ** Compound Merkle paths *)

Definition admittedPositions (admitted : list AdmittedTxRef) : gmap Hash Z :=
  foldl (fun m ref => <[TxID ref := BlockIndex ref]> m) ∅ admitted.

Definition sameProofNode (a b : ProofNode) : bool := bool_decide (NodeHash a = NodeHash b).

(** The nodes of a level by their offset; a nil node is dereferenced. *)
Definition mergeProofNode (level : gmap Z ProofNode) (node : option ProofNode) : result (gmap Z ProofNode) :=
  match node with
  | None => Panic
  | Some node =>
      match level !! Offset node with
      | None => Ok (<[Offset node := node]> level)
      | Some old =>
          if negb (sameProofNode old node) then Err ErrBASMInvalidData
          else Ok (match Txid_ node with
                   | Some true => <[Offset node := mkProofNode (Offset old) (NodeHash old) (Txid_ node) (Duplicate old)]> level
                   | _ => level
                   end)
      end
  end.

Fixpoint mergeLevel (level : gmap Z ProofNode) (nodes : list (option ProofNode)) : result (gmap Z ProofNode) :=
  match nodes with [] => Ok level | node :: nodes' => level ← mergeProofNode level node; mergeLevel level nodes' end.

(** The path has no more levels than [merged]. *)
Fixpoint mergeProofLevels (merged : list (gmap Z ProofNode)) (path : list (list (option ProofNode))) : result (list (gmap Z ProofNode)) :=
  match path, merged with
  | [], _ => Ok merged
  | _ :: _, [] => Panic
  | nodes :: path', level :: merged' =>
      level ← mergeLevel level nodes;
      rest ← mergeProofLevels merged' path';
      Ok (level :: rest)
  end.

Definition validateProof (path : BumpPath) (txid : Hash) (position : Z) (header : BASMCanonicalHeader) : Run unit := fun st =>
  polled (validateBASMProof (world st) MerkleTreeParent path txid position header) st.

Definition mergeOneProof (s : BASMReadService) (v : View) (txid : Hash) (positions : gmap Hash Z) (header : BASMCanonicalHeader)
    (merged : list (gmap Z ProofNode)) (totalBytes : Z) : Run (list (gmap Z ProofNode) * Z) :=
  match positions !! txid with
  | None => lift (Err ErrBASMNotFound)
  | Some position =>
      let remaining := u64 (MaxProofBytes (limits s) - totalBytes) in
      if remaining =? 0 then lift (Err ErrLimitExceeded) else
      proofBytes ← observe (viewMerklePath v txid (u32 remaining)) (PathCall txid);
      if remaining <? len proofBytes then lift (Err ErrLimitExceeded) else
      path ← lift (asInvalidData (BasmBump.ParseBoundedMerklePath NewMerklePathFromReader proofBytes (MaxProofBytes (limits s))));
      validateProof path txid position header ≫= fun _ =>
      merged ← lift (mergeProofLevels merged (Path path));
      mret (merged, len proofBytes)
  end.

Fixpoint mergeProofs (s : BASMReadService) (v : View) (txids : list Hash) (positions : gmap Hash Z) (header : BASMCanonicalHeader)
    (merged : list (gmap Z ProofNode)) (totalBytes : Z) : Run (list (gmap Z ProofNode)) :=
  match txids with
  | [] => mret merged
  | txid :: txids' =>
      polled poll ≫= fun _ =>
      '(merged, added) ← mergeOneProof s v txid positions header merged totalBytes;
      mergeProofs s v txids' positions header merged (u64 (totalBytes + added))
  end.

Definition mergeRequestedProofs (s : BASMReadService) (v : View) (txids : list Hash) (positions : gmap Hash Z)
    (header : BASMCanonicalHeader) : Run (list (gmap Z ProofNode)) :=
  mergeProofs s v txids positions header (replicate (Z.to_nat (merkleProofDepth (TransactionCount header))) ∅) 0.

Definition encodeMergedProof (height : Z) (merged : list (gmap Z ProofNode)) : list byte :=
  MerklePathBytes height
    (map (fun level => omap (fun o => level !! o) (merge_sort Z.le (map_to_list level).*1)) merged).

Definition compoundMerklePath (s : BASMReadService) (v : View) (topic : list byte) (height : Z) (txids : list Hash)
    : Run (CompoundMerklePath * list BASMCanonicalHeader) :=
  '(_, admitted, header) ← readBlock s v topic height;
  merged ← mergeRequestedProofs s v txids (admittedPositions admitted) header;
  let encoded := encodeMergedProof height merged in
  if proofResponseTooLarge encoded txids topic (limits s) then lift (Err ErrLimitExceeded)
  else mret (mkCompound topic height txids (hex_encode encoded), [header]).

Definition ProvideCompoundMerklePath (s : option BASMReadService) (nilContext : bool) (topic : list byte) (height : Z) (txids : list Hash)
    : Run CompoundMerklePath :=
  lift (validateTxids s txids true) ≫= fun _ =>
  readBASM s nilContext topic true (fun s v => compoundMerklePath s v topic height txids).

(** ** The requests *)

Inductive request :=
  | TipRequest (topic : list byte)
  | RangeRequest (topic : list byte) (from to : Z)
  | ListRequest (topic : list byte) (height : Z) (hash : option Hash)
  | PathRequest (topic : list byte) (height : Z) (txids : list Hash)
  | RawRequest (txids : list Hash).

Inductive response :=
  | TipResponse (r : TopicAnchorTip)
  | RangeResponse (r : TopicAnchorRange)
  | ListResponse (r : AdmittedList)
  | PathResponse (r : CompoundMerklePath)
  | RawResponse (r : RawTransactions).

Definition answered {A} (m : Run A) (f : A -> response) : Run response := a ← m; mret (f a).

(** [BASMProvider], as the service implements it. *)
Definition serve (s : option BASMReadService) (nilContext : bool) (q : request) : Run response :=
  match q with
  | TipRequest topic => answered (ProvideTopicAnchorTip s nilContext topic) TipResponse
  | RangeRequest topic from to => answered (ProvideTopicAnchorRange s nilContext topic from to) RangeResponse
  | ListRequest topic height hash => answered (ProvideAdmittedList s nilContext topic height hash) ListResponse
  | PathRequest topic height txids => answered (ProvideCompoundMerklePath s nilContext topic height txids) PathResponse
  | RawRequest txids => answered (ProvideRawTransactions s nilContext txids) RawResponse
  end.

(** ** The frame *)

Lemma wp_polled {A} t (m : Polling A) s (Q : result A -> St -> Prop) :
  (forall r c, m (context (world s)) = (r, c) -> Q r (mkSt (withContext c (world s)) (trace s))) -> wp t (polled m) s Q.
Proof. unfold wp, polled. destruct (m (context (world s))) as [r c]. auto. Qed.

Lemma wp_attempt {A} t (m : Run A) s (Q : result (result A) -> St -> Prop) :
  wp t m s (fun r s' => match r with Panic => Q Panic s' | _ => Q (Ok r) s' end) -> wp t (attempt m) s Q.
Proof. unfold wp, attempt. destruct (m s) as [[[a|e|] s']|]; auto. Qed.

Lemma wp_deferred {A B} (m : Run A) (k : result A -> Run B) s (Q : result B -> St -> Prop) :
  wp true m s (fun r s' => wp true (k r) s' Q) -> wp true (deferred m k) s Q.
Proof. unfold wp, deferred. destruct (m s) as [[r s']|]; auto. Qed.

(** What a request does between opening the view and closing it, and what of it are the
    reads of the view and of the headers. *)
Definition inner (ev : event) : Prop := match ev with OpenCall _ _ | CloseCall _ => False | _ => True end.
Definition reading (ev : event) : Prop := match ev with OpenCall _ _ | CurrentCall _ | CloseCall _ => False | _ => True end.

(** The headers that were resolved, in their order. *)
Definition seen (tr : list event) : list BASMCanonicalHeader :=
  omap (fun ev => match ev with HeaderCall _ (Ok h) => Some h | _ => None end) tr.

(** Headers that are resolved under their own height. *)
Definition resolutions (headers : list BASMCanonicalHeader) : list event :=
  map (fun h => HeaderCall (hdrHeight h) (Ok h)) headers.

(** The headers are resolved again, and are what they were; the view is still current. *)
Definition rechecked (headers : list BASMCanonicalHeader) : list event := resolutions headers ++ [CurrentCall (Ok tt)].

Lemma seen_app tr1 tr2 : seen (tr1 ++ tr2) = seen tr1 ++ seen tr2.
Proof. apply omap_app. Qed.

Lemma seen_resolutions headers : seen (resolutions headers) = headers.
Proof. unfold seen, resolutions. induction headers as [|h headers IH]; [done|]. cbn. by rewrite IH. Qed.

Lemma resolutions_reading headers : Forall reading (resolutions headers).
Proof. unfold resolutions. induction headers; cbn; by constructor. Qed.

Lemma reading_inner tr : Forall reading tr -> Forall inner tr.
Proof. intros Htr. eapply Forall_impl; [exact Htr|]. by intros []. Qed.

(** The calls of a request and its result: the view that was opened is closed last,
    whatever happened; and an answer [x] is given only after reads that establish
    [Q x reads], all of whose headers were then resolved once more with the same result,
    after which the view was found current and closed without an error. *)
Definition framed {T} (topic : list byte) (Q : T -> list event -> Prop) (tr : list event) (r : result T) : Prop :=
  (is_ok r = false /\ (tr = [] \/ exists o, tr = [OpenCall topic o] /\ forall v, o <> Ok (Some v))) \/
  exists v mid closed, tr = OpenCall topic (Ok (Some v)) :: mid ++ [CloseCall closed] /\ Forall inner mid /\
    forall x, r = Ok x -> closed = Ok tt /\ exists reads, Forall reading reads /\ mid = reads ++ rechecked (seen reads) /\ Q x reads.

(** A part of a read: it ends, it only reads, and a value that it gives has [P] with the
    reads that were made. *)
Definition stage {A} (m : Run A) (P : A -> list event -> Prop) : Prop :=
  forall st, wp true m st (fun r st' => exists tr, trace st' = trace st ++ tr /\ Forall reading tr /\ forall a, r = Ok a -> P a tr).

Lemma stage_bind {A B} (m : Run A) (f : A -> Run B) P Q :
  stage m P -> (forall a tr, P a tr -> stage (f a) (fun b tr' => Q b (tr ++ tr'))) -> stage (m ≫= f) Q.
Proof.
  intros Hm Hf st. apply wp_bind. eapply wp_mono; [apply Hm|]. intros r st1 (tr1 & E1 & F1 & HP).
  destruct r as [a|err|]; [|by exists tr1..]. eapply wp_mono; [apply (Hf a tr1), HP, eq_refl|].
  intros r st2 (tr2 & E2 & F2 & HQ). exists (tr1 ++ tr2). rewrite E2, E1, <- app_assoc. split_and!; [done|by apply Forall_app|done].
Qed.

Lemma stage_lift {A} (r : result A) (P : A -> list event -> Prop) : (forall a, r = Ok a -> P a []) -> stage (lift r) P.
Proof. intros Hr st. apply wp_lift. exists []. rewrite app_nil_r. by split_and!. Qed.

Lemma stage_ret {A} (a : A) (P : A -> list event -> Prop) : P a [] -> stage (mret a) P.
Proof. intros Ha st. apply wp_ret. exists []. rewrite app_nil_r. split_and!; [done..|]. by intros ? [= <-]. Qed.

Lemma stage_polled {A} (m : Polling A) (P : A -> list event -> Prop) : (forall a c c', m c = (Ok a, c') -> P a []) -> stage (polled m) P.
Proof. intros Hm st. apply wp_polled. intros r c E. exists []. rewrite app_nil_r. split_and!; [done..|]. intros a ->. eauto. Qed.

(** A step without calls: what it gives is a fact. *)
Lemma stage_check {A B} (r : result A) (f : A -> Run B) (P : A -> Prop) (Q : B -> list event -> Prop) :
  (forall a, r = Ok a -> P a) -> (forall a, P a -> stage (f a) Q) -> stage (lift r ≫= f) Q.
Proof. intros Hr Hf. eapply stage_bind; [apply (stage_lift r (fun a tr => P a /\ tr = [])); auto|]. intros a tr [Ha ->]. by apply Hf. Qed.

Lemma stage_poll {B} (f : unit -> Run B) (Q : B -> list event -> Prop) : stage (f tt) Q -> stage (polled poll ≫= f) Q.
Proof. intros Hf. eapply stage_bind; [by apply (stage_polled poll (fun _ tr => tr = []))|]. by intros [] ? ->. Qed.

Lemma stage_observe {A} (op : Op W A) ev : (forall r, reading (ev r)) -> stage (observe op ev) (fun a tr => tr = [ev (Ok a)]).
Proof. intros Hev st. apply wp_observe. intros r w _. eexists. split_and!; [done|by repeat constructor|]. by intros a ->. Qed.

(** A call, and what follows it. *)
Lemma stage_call {A B} (op : Op W A) ev (f : A -> Run B) (Q : B -> list event -> Prop) :
  (forall r, reading (ev r)) -> (forall a, stage (f a) (fun b tr => Q b (ev (Ok a) :: tr))) -> stage (observe op ev ≫= f) Q.
Proof. intros Hev Hf. eapply stage_bind; [by apply stage_observe|]. intros a ? ->. apply Hf. Qed.

Lemma stage_attempt {A} (op : Op W A) ev : (forall r, reading (ev r)) -> stage (attempt (observe op ev)) (fun r tr => tr = [ev r]).
Proof.
  intros Hev st. apply wp_attempt, wp_observe. intros r w _.
  destruct r as [a|e|]; (eexists; split_and!; [reflexivity|by repeat constructor|]); by intros ? [= <-].
Qed.

Lemma stage_weaken {A} (m : Run A) (P Q : A -> list event -> Prop) : stage m P -> (forall a tr, P a tr -> Q a tr) -> stage m Q.
Proof. intros Hm HPQ st. eapply wp_mono; [apply Hm|]. intros r st' (tr & E & F & HP). exists tr. split_and!; eauto. Qed.

Lemma recheck_wp headers st :
  wp true (recheckCanonicalHeaders headers) st (fun r st' => exists tr, trace st' = trace st ++ tr /\ Forall inner tr /\
    (r = Ok tt -> tr = resolutions headers)).
Proof.
  revert st. induction headers as [|h headers IH]; intros st; cbn [recheckCanonicalHeaders].
  { apply wp_ret. exists []. rewrite app_nil_r. by split_and!. }
  apply wp_bind, wp_observe. intros r w _. destruct r as [current|err|];
    [|eexists; split_and!; [done|by repeat constructor|done]..].
  destruct (bool_decide_reflect (current = h)) as [->|]; cbn [negb];
    [|apply wp_lift; eexists; split_and!; [done|by repeat constructor|done]].
  eapply wp_mono; [apply IH|]. intros r st' (tr & E & F & Hr). exists (HeaderCall (hdrHeight h) (Ok h) :: tr).
  rewrite E. cbn [trace]. rewrite <- app_assoc. split_and!; [done|by constructor|]. intros Hok. by rewrite (Hr Hok).
Qed.

(** The reads of a request, completed: the headers that are rechecked are those that were
    resolved. *)
Lemma session_wp {T} (answer : Run (T * list BASMCanonicalHeader)) v (Q : T -> list event -> Prop) st :
  stage answer (fun '(x, headers) reads => headers = seen reads /\ Q x reads) ->
  wp true ('(output, headers) ← answer; completeBASMRead v headers ≫= fun _ => mret output) st
    (fun r st' => exists mid, trace st' = trace st ++ mid /\ Forall inner mid /\
       forall x, r = Ok x -> exists reads, Forall reading reads /\ mid = reads ++ rechecked (seen reads) /\ Q x reads).
Proof.
  intros Hanswer. apply wp_bind. eapply wp_mono; [apply Hanswer|]. intros r st2 (reads & E2 & R2 & HQ).
  pose proof (reading_inner reads R2) as F2. destruct r as [[x headers]|err|]; [|by exists reads..]. destruct (HQ _ eq_refl) as [-> HQx].
  apply wp_bind, wp_bind. eapply wp_mono; [apply recheck_wp|]. intros r st3 (re & E3 & F3 & Hre).
  assert (E23 : trace st3 = trace st ++ (reads ++ re)) by (rewrite E3, E2; by rewrite app_assoc).
  assert (F23 : Forall inner (reads ++ re)) by (by apply Forall_app).
  destruct r as [[]|err|]; [|by exists (reads ++ re)..]. specialize (Hre eq_refl).
  apply wp_observe. intros cur w' _.
  assert (E4 : trace st3 ++ [CurrentCall cur] = trace st ++ (reads ++ re ++ [CurrentCall cur])) by (by rewrite E23, !app_assoc).
  assert (F4 : Forall inner (reads ++ re ++ [CurrentCall cur])) by (rewrite app_assoc; apply Forall_app; split; [done|by repeat constructor]).
  destruct cur as [[]|err|]; [|by eexists..]. apply wp_ret. eexists. split_and!; [exact E4|exact F4|].
  intros x' [= <-]. exists reads. unfold rechecked. by rewrite Hre.
Qed.

(** Closing the view keeps the result or replaces it by an error. *)
Lemma closeBASMView_wp {T} v (r : result T) st (Q : result T -> St -> Prop) :
  (forall closed w r', (forall x, r' = Ok x -> r = Ok x /\ closed = Ok tt) ->
     Q r' (mkSt w (trace st ++ [CloseCall closed]))) ->
  wp true (closeBASMView v r) st Q.
Proof.
  intros HQ. unfold wp, closeBASMView, observe. destruct (viewClose v (world st)) as [closed w].
  destruct r as [x|err|], closed as [[]|err'|]; try (by apply HQ).
  unfold mbind, run_bind, polled. destruct (poll _) as [[[]|err|] c']; by apply HQ.
Qed.

Lemma readBASM_wp {T} s nilContext topic needsHeaders (answer : BASMReadService -> View -> Run (T * list BASMCanonicalHeader))
    (Q : T -> list event -> Prop) st :
  (forall v, stage (answer s v) (fun '(x, headers) reads => headers = seen reads /\ Q x reads)) ->
  wp true (readBASM (Some s) nilContext topic needsHeaders answer) st (fun r st' =>
    exists tr, trace st' = trace st ++ tr /\ framed topic Q tr r).
Proof.
  intros Hanswer. unfold readBASM.
  assert (Hnone : forall r : result T, is_ok r = false -> exists tr, trace st = trace st ++ tr /\ framed topic Q tr r)
    by (intros r Hr; exists []; rewrite app_nil_r; split; [done|]; left; auto).
  destruct (hasStorage s); cbn [negb]; [|by apply wp_lift, Hnone]. destruct nilContext; [by apply wp_lift, Hnone|].
  apply wp_bind, wp_lift. destruct (requireBASMHeaders s topic needsHeaders) as [[]|err|]; [|by apply Hnone..].
  apply wp_bind, wp_bind, wp_polled. intros r c _. destruct r as [[]|err|]; [|by apply Hnone..].
  apply wp_bind, wp_observe. intros o w _. cbn [trace world].
  destruct o as [[v|]|err|];
    [|try apply wp_lift; eexists; (split; [done|]); left; split; [done|]; right; by eexists..].
  apply wp_ret. cbv beta iota. apply wp_deferred. eapply wp_mono; [apply session_wp, Hanswer|].
  intros r st2 (mid & E2 & F2 & Hmid). apply closeBASMView_wp. intros closed w2 r' Hr'. cbn [trace].
  eexists. split; [rewrite E2; cbn [trace]; rewrite <- !app_assoc; reflexivity|]. right. exists v, mid, closed.
  split_and!; [done..|]. intros x Hx. destruct (Hr' x Hx) as [-> ->]. split; [done|]. by apply Hmid.
Qed.

(** ** What the answers say *)

(** The anchor is one of the topic, within the limits, for the block of the header. *)
Definition anchored (l : ReadLimits) (topic : list byte) (a : Anchor) (header : BASMCanonicalHeader) : Prop :=
  Topic (anchor a) = topic /\ Validate (anchor a) (baseLimits l) = Ok tt /\
  hdrHeight header = BlockHeight (anchor a) /\ hdrBlockHash header = BlockHash (anchor a) /\
  AdmittedCount (anchor a) <= TransactionCount header <= MaxSafeJSONInteger /\ TransactionCount header <> 0.

Definition fits (l : ReadLimits) (base perItem count : Z) : Prop := base + perItem * count <= MaxResponseBytes l.

(** The answer to a request for a tip: what the view gives as its tip. *)
Definition tip_ok (l : ReadLimits) (topic : list byte) (x : TopicAnchorTip) (reads : list event) : Prop :=
  (reads = [TipCall (Ok None)] /\ x = mkTip topic (-1) None zero_hash) \/
  exists a header, reads = TipCall (Ok (Some a)) :: resolutions [header] /\ anchored l topic a header /\
    x = mkTip topic (BlockHeight (anchor a)) (Some (BlockHash (anchor a), BASMRoot (anchor a), AdmittedCount (anchor a))) (TAC a).

(** Consecutive heights, each anchor with its header, each TAC the step from the one before. *)
Definition steps (anchors : list Anchor) : Prop :=
  forall i a b, anchors !! i = Some a -> anchors !! S i = Some b ->
    TAC b = HashTACStep (TAC a) (BlockHash (anchor b)) (BASMRoot (anchor b)).

Definition range_ok (l : ReadLimits) (topic : list byte) (from to : Z) (x : TopicAnchorRange) (reads : list event) : Prop :=
  rangeTopic x = topic /\ len (Anchors x) = to - from + 1 /\ to - from + 1 <= MaxRange (baseLimits l) /\
  (exists headers, reads = AnchorsCall from to (Ok (Anchors x)) :: resolutions headers /\ Forall2 (anchored l topic) (Anchors x) headers) /\
  steps (Anchors x) /\ (forall i a, Anchors x !! i = Some a -> BlockHeight (anchor a) = from + Z.of_nat i) /\
  fits l (64 + len topic * 6) (400 + len topic * 6) (len (Anchors x)).

(** The reads of a block: its anchor, its header, its admitted list; and what is checked
    of them. *)
Definition block_reads (height : Z) (a : Anchor) (admitted : list AdmittedTxRef) (header : BASMCanonicalHeader) : list event :=
  [AnchorsCall height height (Ok [a]); HeaderCall height (Ok header); AdmittedCall height (Ok admitted)].

Definition block_ok (l : ReadLimits) (topic : list byte) (height : Z) (a : Anchor) (admitted : list AdmittedTxRef)
    (header : BASMCanonicalHeader) : Prop :=
  BlockHeight (anchor a) = height /\ anchored l topic a header /\
  anchors_list (anchor a) (TransactionCount header) (baseLimits l) admitted.

Definition list_ok (l : ReadLimits) (topic : list byte) (height : Z) (hash : option Hash) (x : AdmittedList)
    (reads : list event) : Prop :=
  exists a admitted header, x = mkAdmitted topic height (BlockHash (anchor a)) admitted /\ reads = block_reads height a admitted header /\
    block_ok l topic height a admitted header /\ (forall h, hash = Some h -> h = BlockHash (anchor a)) /\
    fits l (192 + len topic * 6) 128 (len admitted).

(** The division of [checkResponseSize] decides the bound on the product. *)
Lemma checkResponseSize_Ok l base perItem count :
  0 <= perItem -> 0 <= count -> checkResponseSize l base perItem count = Ok tt <-> fits l base perItem count.
Proof.
  intros Hp Hc. unfold checkResponseSize, fits. destruct (Z.ltb_spec (MaxResponseBytes l) base); cbn [orb].
  { split; [done|nia]. }
  destruct (Z.eqb_spec perItem 0) as [->|Hne]; cbn [negb andb]; [split; [lia|done]|].
  destruct (Z.ltb_spec ((MaxResponseBytes l - base) / perItem) count) as [Hlt|Hle]; split; [done| |intros _|done].
  - intros Hfit. assert (count <= (MaxResponseBytes l - base) / perItem) by (apply Z.div_le_lower_bound; nia). lia.
  - pose proof (Z.mul_div_le (MaxResponseBytes l - base) perItem). nia.
Qed.

Lemma stage_fits {B} l base perItem count (f : unit -> Run B) (Q : B -> list event -> Prop) :
  0 <= perItem -> 0 <= count -> (fits l base perItem count -> stage (f tt) Q) ->
  stage (lift (checkResponseSize l base perItem count) ≫= f) Q.
Proof.
  intros Hp Hc Hf. apply (stage_check _ _ (fun _ => fits l base perItem count)); [intros [] E; by apply checkResponseSize_Ok|].
  intros [] Hfits. by apply Hf.
Qed.

Lemma asInvalidData_Ok {A} (r : result A) a : asInvalidData r = Ok a -> r = Ok a.
Proof. by destruct r. Qed.

Lemma validateAnchor_stage s topic a :
  stage (validateAnchor s topic a) (fun header tr => tr = resolutions [header] /\ anchored (limits s) topic a header).
Proof.
  unfold validateAnchor. apply stage_poll. case_bool_decide as Ht; cbn [negb]; [|by apply stage_lift].
  apply (stage_check _ _ (fun _ => Validate (anchor a) (baseLimits (limits s)) = Ok tt)); [by intros [] ?%asInvalidData_Ok|].
  intros [] Hv. apply stage_call; [done|]. intros header.
  destruct (Z.eqb_spec (hdrHeight header) (BlockHeight (anchor a))) as [Eh|]; cbn [negb orb]; [|by apply stage_lift].
  case_bool_decide; cbn [negb orb]; [|by apply stage_lift].
  destruct (Z.eqb_spec (TransactionCount header) 0); cbn [orb]; [by apply stage_lift|].
  destruct (Z.ltb_spec MaxSafeJSONInteger (TransactionCount header)); [by apply stage_lift|].
  destruct (Z.ltb_spec (TransactionCount header) (AdmittedCount (anchor a))); [by apply stage_lift|].
  apply stage_ret. unfold anchored, resolutions. cbn [map]. rewrite Eh. split_and!; (done || lia).
Qed.

Lemma validateAnchorRange_stage s topic from previous anchors :
  stage (validateAnchorRange s topic from previous anchors) (fun headers tr =>
    tr = resolutions headers /\ Forall2 (anchored (limits s) topic) anchors headers /\ steps anchors /\
    (forall i a, anchors !! i = Some a -> BlockHeight (anchor a) = from + Z.of_nat i) /\
    forall p a, previous = Some p -> anchors !! 0%nat = Some a -> TAC a = HashTACStep p (BlockHash (anchor a)) (BASMRoot (anchor a))).
Proof.
  revert from previous. induction anchors as [|a anchors IH]; intros from previous; cbn [validateAnchorRange].
  { apply stage_ret. split_and!; [done|done| |done|done]. by intros i a b. }
  destruct (Z.eqb_spec (BlockHeight (anchor a)) from) as [Ea|]; cbn [negb]; [|by apply stage_lift].
  eapply stage_bind; [apply validateAnchor_stage|]. intros header ? [-> Hh].
  destruct (match previous with Some _ => _ | None => _ end) eqn:Eb; [by apply stage_lift|].
  assert (Hprev : forall p, previous = Some p -> TAC a = HashTACStep p (BlockHash (anchor a)) (BASMRoot (anchor a))).
  { intros p ->. by destruct (bool_decide_reflect (TAC a = HashTACStep p (BlockHash (anchor a)) (BASMRoot (anchor a)))). }
  eapply stage_bind; [apply IH|]. intros headers ? (-> & HF & Hsteps & Hheights & Hlink).
  apply stage_ret. split_and!.
  - by rewrite app_nil_r.
  - by constructor.
  - intros [|i] b b' Hb Hb'; [injection Hb as <-; by apply Hlink|by apply (Hsteps i)].
  - intros [|i] b Hb; [injection Hb as <-; lia|]. rewrite (Hheights i b Hb). lia.
  - intros p b Ep [= <-]. by apply Hprev.
Qed.

Lemma collectAnchorRange_stage s v topic from to count :
  count = to - from + 1 -> 0 <= count <= MaxRange (baseLimits (limits s)) ->
  stage (collectAnchorRange s v topic from to count) (fun '(x, headers) reads => headers = seen reads /\ range_ok (limits s) topic from to x reads).
Proof.
  intros Ecount Hcount. unfold collectAnchorRange. apply stage_fits; [unfold len; lia..|]. intros Hfits.
  apply stage_call; [done|]. intros anchors.
  destruct (Z.eqb_spec (len anchors) count) as [El|]; cbn [negb]; [|by apply stage_lift].
  eapply stage_bind; [apply validateAnchorRange_stage|]. intros headers ? (-> & HF & Hsteps & Hheights & _).
  apply stage_ret. rewrite app_nil_r. split; [symmetry; apply seen_resolutions|].
  unfold range_ok. cbn [rangeTopic Anchors]. rewrite El. split_and!; try (done || lia). by exists headers.
Qed.

Lemma ProvideTopicAnchorTip_stage s v topic :
  stage (lift (checkResponseSize (limits s) (400 + len topic * 6) 0 0) ≫= fun _ =>
    tip ← observe (viewTip v) TipCall;
    match tip with
    | None => mret (mkTip topic (-1) None zero_hash, [])
    | Some a =>
        header ← validateAnchor s topic a;
        mret (mkTip topic (BlockHeight (anchor a)) (Some (BlockHash (anchor a), BASMRoot (anchor a), AdmittedCount (anchor a))) (TAC a), [header])
    end) (fun '(x, headers) reads => headers = seen reads /\ tip_ok (limits s) topic x reads).
Proof.
  apply stage_fits; [unfold len; lia..|]. intros _.
  apply stage_call; [done|]. intros [a|]; [|apply stage_ret; split; [done|by left]].
  eapply stage_bind; [apply validateAnchor_stage|]. intros header ? [-> Hh]. apply stage_ret. split; [done|]. right. by eexists _, _.
Qed.

Lemma readBlock_stage s v topic height :
  stage (readBlock s v topic height) (fun '(a, admitted, header) reads =>
    reads = block_reads height a admitted header /\ block_ok (limits s) topic height a admitted header).
Proof.
  unfold readBlock. apply stage_call; [done|]. intros [|a [|]]; [by apply stage_lift| |by apply stage_lift].
  destruct (Z.eqb_spec (BlockHeight (anchor a)) height) as [Eh|]; cbn [negb]; [|by apply stage_lift].
  eapply stage_bind; [apply validateAnchor_stage|]. intros header ? [-> Hh].
  apply stage_call; [done|]. intros admitted. eapply stage_bind.
  { apply (stage_polled _ (fun _ tr => tr = [] /\ anchors_list (anchor a) (TransactionCount header) (baseLimits (limits s)) admitted)).
    intros [] c c' E. destruct (ValidateAnchorList _ _ _ _ c) as [r c1] eqn:Ev. injection E as E ->.
    apply asInvalidData_Ok in E as ->. split; [done|]. by eapply ValidateAnchorList_Ok. }
  intros [] ? [-> Hl]. apply stage_ret. split; [|done]. destruct Hh as (_ & _ & Eheight & _).
  unfold block_reads, resolutions. cbn [map app]. by rewrite Eheight, Eh.
Qed.

Lemma ProvideAdmittedList_stage s v topic height hash :
  stage ('(a, admitted, header) ← readBlock s v topic height;
    if match hash with Some h => negb (bool_decide (h = BlockHash (anchor a))) | None => false end then lift (Err ErrBASMNotReady) else
    lift (checkResponseSize (limits s) (192 + len topic * 6) 128 (len admitted)) ≫= fun _ =>
    mret (mkAdmitted topic height (BlockHash (anchor a)) admitted, [header]))
    (fun '(x, headers) reads => headers = seen reads /\ list_ok (limits s) topic height hash x reads).
Proof.
  eapply stage_bind; [apply readBlock_stage|]. intros [[a admitted] header] ? [-> Hblock].
  destruct (match hash with Some _ => _ | None => _ end) eqn:Eh; [by apply stage_lift|].
  apply stage_fits; [unfold len; lia..|]. intros Hfits.
  apply stage_ret. split; [done|]. exists a, admitted, header. split_and!; [done|by rewrite app_nil_r|done| |done].
  intros h ->. by destruct (bool_decide_reflect (h = BlockHash (anchor a))).
Qed.

(** The sizes of the messages are 32-bit. *)
Definition limits_u32 (l : ReadLimits) : Prop :=
  is_u32 (MaxRange (baseLimits l)) /\ is_u32 (MaxRequestedTxIDs l) /\ is_u32 (MaxProofBytes l) /\
  is_u32 (MaxRawTxBytes l) /\ is_u32 (MaxResponseBytes l).

(** The bytes that the parts of a response are counted with. *)
Definition raw_size (x : RawTransactions) : Z :=
  foldr (fun p n => len p.2 + 128 + n) 0 (Transactions x) + 67 * len (Missing x).

(** What the view gave for a transaction: that there is none, or the bytes of a well-formed
    transaction whose double SHA-256 it is. *)
Definition raw_answer (l : ReadLimits) (p : Hash * result (list byte)) : Prop :=
  p.2 = Err ErrBASMNotFound \/
  exists raw, p.2 = Ok raw /\ len raw <= MaxRawTxBytes l /\ BasmWire.preflightRawTransaction raw = Ok tt /\ p.1 = doubleSHA256 raw.

(** The response to such answers. *)
Definition raw_found (p : Hash * result (list byte)) : option (Hash * list byte) :=
  match p.2 with Ok raw => Some (p.1, hex_encode raw) | _ => None end.

Definition raw_missing (p : Hash * result (list byte)) : option Hash := match p.2 with Ok _ => None | _ => Some p.1 end.

Definition raw_response (answers : list (Hash * result (list byte))) : RawTransactions :=
  mkRaw (omap raw_found answers) (omap raw_missing answers).

(** Every transaction asked for was asked of the view, once and in order, and is answered
    with what the view gave. *)
Definition raw_ok (l : ReadLimits) (txids : list Hash) (x : RawTransactions) (reads : list event) : Prop :=
  NoDup txids /\ exists answers, answers.*1 = txids /\ reads = map (fun p => RawCall p.1 p.2) answers /\
    Forall (raw_answer l) answers /\ x = raw_response answers /\ raw_size x + 128 <= MaxResponseBytes l.

Definition raw_inv (l : ReadLimits) (answers : list (Hash * result (list byte))) (p : RawTransactions * Z) : Prop :=
  p.1 = raw_response answers /\ Forall (raw_answer l) answers /\ p.2 = raw_size p.1 /\
  0 <= p.2 <= MaxResponseBytes l + 67 * len (Missing p.1).

Lemma raw_size_found xs missing txid raw :
  raw_size (mkRaw (xs ++ [(txid, hex_encode raw)]) missing) = raw_size (mkRaw xs missing) + (len raw * 2 + 128).
Proof.
  unfold raw_size. cbn [Transactions Missing]. rewrite foldr_app. cbn [foldr snd].
  assert (E : len (hex_encode raw) = 2 * len raw) by (unfold len; rewrite length_hex_encode; lia). rewrite E.
  assert (Hacc : forall n, foldr (fun (p : Hash * list byte) n => len p.2 + 128 + n) n xs =
    foldr (fun (p : Hash * list byte) n => len p.2 + 128 + n) 0 xs + n) by (intros n; induction xs; simpl; lia).
  rewrite Hacc. lia.
Qed.

Lemma raw_missing_le answers : len (omap raw_missing answers) <= len answers.
Proof. unfold len. induction answers as [|[txid r] answers IH]; [done|]. unfold raw_missing in *. destruct r; cbn in *; lia. Qed.

Lemma rawIdentity_Ok raw maxBytes txid :
  BasmWire.RawTransactionID NewTransactionFromBytes TransactionBytes raw maxBytes = Ok txid ->
  BasmWire.preflightRawTransaction raw = Ok tt /\ txid = doubleSHA256 raw.
Proof.
  unfold BasmWire.RawTransactionID. intros E. apply bind_Ok in E as ([] & _ & E). apply bind_Ok in E as ([] & Hp & E).
  apply bind_Ok in E as (tx & _ & E). case_bool_decide; [|done]. by injection E as <-.
Qed.

Lemma appendRawTransaction_stage s v txid answers x size :
  limits_u32 (limits s) -> len answers <= MaxUint32 -> raw_inv (limits s) answers (x, size) ->
  stage (appendRawTransaction s v txid x size) (fun p tr => exists r, tr = [RawCall txid r] /\ raw_inv (limits s) (answers ++ [(txid, r)]) p).
Proof.
  intros (_ & _ & _ & Hraw & Hresp) Hlen (Ex & HF & Esize & Hsize). pose proof (raw_missing_le answers) as Hmiss. cbn [fst snd] in *. subst x.
  unfold raw_response in *. set (xs := omap raw_found answers) in *. set (missing := omap raw_missing answers) in *. cbn [Transactions Missing] in *.
  unfold is_u32, MaxUint32 in *. unfold appendRawTransaction. cbn [Transactions Missing].
  apply stage_poll. eapply stage_bind; [by apply stage_attempt|]. intros found ? ->. destruct found as [raw|e|]; [| |by apply stage_lift].
  - pose proof (len_nonneg raw). destruct (Z.ltb_spec (MaxRawTxBytes (limits s)) (len raw)); [by apply stage_lift|].
    rewrite (u64_small (len raw * 2 + 128)), (u64_small (size + _)) by (unfold is_u64, MaxUint64; lia).
    rewrite (u64_small (_ + 128)) by (unfold is_u64, MaxUint64; lia).
    destruct (Z.ltb_spec (MaxResponseBytes (limits s)) (size + (len raw * 2 + 128) + 128)); [by apply stage_lift|].
    destruct (BasmWire.RawTransactionID _ _ raw (MaxRawTxBytes (limits s))) as [derived|e|] eqn:Eid; [|by apply stage_lift..].
    case_bool_decide as Hd; cbn [negb]; [subst derived|by apply stage_lift].
    apply stage_ret. eexists. split; [done|]. unfold raw_inv, raw_response. rewrite !omap_app. cbn. rewrite app_nil_r. fold xs missing.
    split_and!; [done| | |pose proof (len_nonneg missing); lia..].
    + apply Forall_app. split; [done|]. apply Forall_singleton; right. destruct (rawIdentity_Ok _ _ _ Eid) as [Hpre Hid]. by exists raw.
    + rewrite raw_size_found. lia.
  - assert (Hnf : e = ErrBASMNotFound -> stage (mret (mkRaw xs (missing ++ [txid]), u64 (size + 67)) : Run (RawTransactions * Z))
      (fun p tr => exists r, [RawCall txid (Err e)] ++ tr = [RawCall txid r] /\ raw_inv (limits s) (answers ++ [(txid, r)]) p));
      [intros ->|destruct e; (by apply Hnf || by apply stage_lift)].
    rewrite u64_small by (unfold is_u64, MaxUint64; lia). apply stage_ret. eexists. split; [done|].
    unfold raw_inv, raw_response. rewrite !omap_app. cbn. rewrite app_nil_r. fold xs missing.
    assert (El : len (missing ++ [txid]) = len missing + 1) by (unfold len; rewrite length_app; simpl; lia).
    unfold raw_size in *. cbn [Transactions Missing fst snd] in *. rewrite El.
    split_and!; [done|apply Forall_app; split; [done|]; apply Forall_singleton; by left|lia..].
Qed.

Lemma collectTransactions_stage s v rest answers p :
  limits_u32 (limits s) -> len answers + len rest <= MaxUint32 -> raw_inv (limits s) answers p ->
  stage (collectTransactions s v rest p.1 p.2) (fun p tr => exists more, more.*1 = rest /\
    tr = map (fun p => RawCall p.1 p.2) more /\ raw_inv (limits s) (answers ++ more) p).
Proof.
  intros Hl. revert answers p. induction rest as [|txid rest IH]; intros answers [x size] Hlen Hinv; cbn [collectTransactions fst snd].
  { apply stage_ret. exists []. by rewrite app_nil_r. }
  unfold len in Hlen. cbn [length] in Hlen.
  eapply stage_bind; [apply (appendRawTransaction_stage s v txid answers); [done|unfold len; lia|done]|].
  intros p ? (r & -> & Hinv'). rewrite (surjective_pairing p). eapply stage_weaken; [apply (IH (answers ++ [(txid, r)]) p); [|done]|].
  { unfold len. rewrite length_app. cbn [length]. lia. }
  intros p' tr (more & Em & -> & Hinv''). exists ((txid, r) :: more). cbn. rewrite Em. split_and!; [done..|]. by rewrite <- app_assoc in Hinv''.
Qed.

Lemma validateTxids_Ok s txids required :
  validateTxids (Some s) txids required = Ok tt -> NoDup txids /\ len txids <= MaxRequestedTxIDs (limits s).
Proof.
  unfold validateTxids. destruct (Z.ltb_spec (MaxRequestedTxIDs (limits s)) (len txids)); [done|].
  destruct (required && (len txids =? 0)); [done|]. by case_bool_decide.
Qed.

Lemma collectRawTransactions_stage s v txids :
  limits_u32 (limits s) -> NoDup txids -> len txids <= MaxRequestedTxIDs (limits s) ->
  stage (collectRawTransactions s v txids) (fun '(x, headers) reads => headers = seen reads /\ raw_ok (limits s) txids x reads).
Proof.
  intros Hl Hnd Hlen. pose proof Hl as (_ & Hreq & _ & _ & Hresp). unfold collectRawTransactions.
  eapply stage_bind; [apply (collectTransactions_stage s v txids [] (mkRaw [] [], 0)); [done|unfold is_u32, len in *; simpl; lia|]|].
  { unfold is_u32, MaxUint32 in *. split_and!; [done|by constructor|done|unfold len; simpl; lia..]. }
  intros [x size] ? (answers & Ea & -> & Ex & HF & Esize & Hsize). cbn [app fst snd] in *. subst x size.
  pose proof (raw_missing_le answers) as Hmiss. assert (El : len answers = len txids) by (unfold len; by rewrite <- Ea, length_fmap).
  change (Missing (raw_response answers)) with (omap raw_missing answers) in Hsize.
  unfold is_u32, MaxUint32 in *. rewrite u64_small by (unfold is_u64, MaxUint64; lia).
  destruct (Z.ltb_spec (MaxResponseBytes (limits s)) (raw_size (raw_response answers) + 128)); [by apply stage_lift|]. apply stage_ret. rewrite app_nil_r.
  split; [|split; [done|]; by exists answers]. unfold seen. clear. by induction answers.
Qed.

(** ** Compound paths *)

(** The hash (or the mark of a repeated sibling) at an offset of a level. *)
Definition hash_at (merged : list (gmap Z ProofNode)) (l : nat) (o : Z) : option (option Hash) :=
  level ← merged !! l; NodeHash <$> level !! o.

Definition given (path : list (list (option ProofNode))) (l : nat) (o : Z) (h : option Hash) : Prop :=
  exists nodes node, path !! l = Some nodes /\ Some node ∈ nodes /\ Offset node = o /\ NodeHash node = h.

Lemma mergeProofNode_Ok level node level' :
  mergeProofNode level node = Ok level' ->
  forall o h, NodeHash <$> level' !! o = Some h <->
    NodeHash <$> level !! o = Some h \/ exists n, node = Some n /\ Offset n = o /\ NodeHash n = h.
Proof.
  destruct node as [n|]; [|done]. unfold mergeProofNode. intros E o h.
  assert (Hn : (exists n0, Some n = Some n0 /\ Offset n0 = o /\ NodeHash n0 = h) <-> Offset n = o /\ NodeHash n = h) by naive_solver.
  rewrite Hn. clear Hn. destruct (level !! Offset n) as [old|] eqn:Eo.
  - destruct (bool_decide_reflect (NodeHash old = NodeHash n)) as [Eh|Eh]; unfold sameProofNode in E;
      [rewrite bool_decide_true in E by done|by rewrite bool_decide_false in E]. cbn [negb] in E. injection E as <-.
    assert (Hsame : (NodeHash <$> level !! o = Some h \/ Offset n = o /\ NodeHash n = h) <-> NodeHash <$> level !! o = Some h).
    { split; [|by left]. intros [?|[<- <-]]; [done|]. by rewrite Eo, <- Eh. }
    rewrite Hsame. destruct (Txid_ n) as [[]|]; [|done..].
    destruct (decide (o = Offset n)) as [->|Hne]; [by rewrite lookup_insert_eq, Eo|by rewrite lookup_insert_ne].
  - injection E as <-. destruct (decide (o = Offset n)) as [->|Hne].
    + rewrite lookup_insert_eq, Eo. cbn. naive_solver.
    + rewrite lookup_insert_ne by done. naive_solver.
Qed.

Lemma mergeLevel_Ok nodes level level' :
  mergeLevel level nodes = Ok level' ->
  forall o h, NodeHash <$> level' !! o = Some h <->
    NodeHash <$> level !! o = Some h \/ exists n, Some n ∈ nodes /\ Offset n = o /\ NodeHash n = h.
Proof.
  revert level. induction nodes as [|node nodes IH]; intros level E o h; cbn [mergeLevel] in E.
  { injection E as <-. split; [by left|]. intros [?|(n & Hn & _)]; [done|by apply not_elem_of_nil in Hn]. }
  apply bind_Ok in E as (level1 & E1 & E). rewrite (IH _ E o h), (mergeProofNode_Ok _ _ _ E1 o h).
  setoid_rewrite elem_of_cons. naive_solver.
Qed.

Lemma mergeProofLevels_Ok path merged merged' :
  mergeProofLevels merged path = Ok merged' ->
  forall l o h, hash_at merged' l o = Some h <-> hash_at merged l o = Some h \/ given path l o h.
Proof.
  revert merged merged'. induction path as [|nodes path IH]; intros merged merged' E l o h.
  { destruct merged; injection E as <-; (split; [by left|]); intros [?|(? & ? & ? & _)]; done. }
  destruct merged as [|level merged]; [done|]. cbn [mergeProofLevels] in E.
  apply bind_Ok in E as (level1 & E1 & E). apply bind_Ok in E as (rest & E2 & [= <-]).
  destruct l as [|l].
  - unfold hash_at, given. cbn. rewrite (mergeLevel_Ok _ _ _ E1 o h). naive_solver.
  - apply (IH _ _ E2 l).
Qed.

Lemma admittedPositions_lookup admitted txid position :
  admittedPositions admitted !! txid = Some position -> mkRef txid position ∈ admitted.
Proof.
  unfold admittedPositions. induction admitted as [|ref l IH] using rev_ind; [done|]. rewrite foldl_app. cbn [foldl].
  intros [[<- <-]|[_ Hl]]%lookup_insert_Some; apply elem_of_app; [right; apply list_elem_of_singleton; by destruct ref|left; auto].
Qed.

Definition accepted (path : BumpPath) (txid : Hash) (position : Z) (header : BASMCanonicalHeader) : Prop :=
  exists w c c', validateBASMProof (W := W) w MerkleTreeParent path txid position header c = (Ok tt, c').

(** The proof that the view gave for a transaction: bytes that parse to a path that was
    accepted for the transaction at its position. *)
Definition proved (l : ReadLimits) (positions : gmap Hash Z) (header : BASMCanonicalHeader) (p : Hash * list byte) (path : BumpPath) : Prop :=
  BasmBump.ParseBoundedMerklePath NewMerklePathFromReader p.2 (MaxProofBytes l) = Ok path /\
  exists position, positions !! p.1 = Some position /\ accepted path p.1 position header.

(** Every transaction was proved, and the merged nodes are those of [merged] and of the
    paths. *)
Definition merges (l : ReadLimits) (positions : gmap Hash Z) (header : BASMCanonicalHeader) (proofs : list (Hash * list byte)) (paths : list BumpPath)
    (merged merged' : list (gmap Z ProofNode)) : Prop :=
  Forall2 (proved l positions header) proofs paths /\
  forall k o h, hash_at merged' k o = Some h <-> hash_at merged k o = Some h \/ exists path, path ∈ paths /\ given (Path path) k o h.

Definition path_calls (proofs : list (Hash * list byte)) : list event := map (fun p => PathCall p.1 (Ok p.2)) proofs.

Lemma validateProof_stage path txid position header :
  stage (validateProof path txid position header) (fun _ tr => tr = [] /\ accepted path txid position header).
Proof.
  intros st. unfold validateProof. change (wp true (polled (validateBASMProof (world st) MerkleTreeParent path txid position header)) st
    (fun r st' => exists tr, trace st' = trace st ++ tr /\ Forall reading tr /\ forall a, r = Ok a -> tr = [] /\ accepted path txid position header)).
  apply (stage_polled _ (fun _ tr => tr = [] /\ accepted path txid position header)). intros [] c c' E. split; [done|]. by exists (world st), c, c'.
Qed.

Lemma mergeOneProof_stage s v txid positions header merged total :
  stage (mergeOneProof s v txid positions header merged total) (fun '(merged', _) tr =>
    exists bytes path, tr = path_calls [(txid, bytes)] /\ merges (limits s) positions header [(txid, bytes)] [path] merged merged').
Proof.
  unfold mergeOneProof. destruct (positions !! txid) as [position|] eqn:Epos; [|by apply stage_lift].
  destruct (_ =? 0); [by apply stage_lift|]. apply stage_call; [done|]. intros proofBytes.
  destruct (_ <? _); [by apply stage_lift|].
  apply (stage_check _ _ (fun path => BasmBump.ParseBoundedMerklePath NewMerklePathFromReader proofBytes (MaxProofBytes (limits s)) = Ok path));
    [by intros path ?%asInvalidData_Ok|]. intros path Eparse.
  eapply stage_bind; [apply validateProof_stage|]. intros [] ? [-> Hacc].
  apply (stage_check _ _ (fun m => mergeProofLevels merged (Path path) = Ok m)); [done|]. intros merged' Hm. pose proof (mergeProofLevels_Ok _ _ _ Hm) as Hu.
  apply stage_ret. exists proofBytes, path. split; [done|]. split; [constructor; [|by constructor]; split; [done|]; by exists position|]. intros k o h. rewrite Hu.
  setoid_rewrite list_elem_of_singleton. naive_solver.
Qed.

Lemma mergeProofs_stage s v txids positions header merged total :
  stage (mergeProofs s v txids positions header merged total) (fun merged' tr =>
    exists proofs paths, proofs.*1 = txids /\ tr = path_calls proofs /\ merges (limits s) positions header proofs paths merged merged').
Proof.
  revert merged total. induction txids as [|txid txids IH]; intros merged total; cbn [mergeProofs].
  { apply stage_ret. exists [], []. split_and!; [done..|]. split; [by constructor|]. intros k o h. setoid_rewrite elem_of_nil. naive_solver. }
  apply stage_poll. eapply stage_bind; [apply mergeOneProof_stage|]. intros [merged1 added] ? (bytes & path & -> & HF & Hu1).
  eapply stage_weaken; [apply IH|]. intros merged' ? (proofs & paths & Et & -> & HF' & Hu2). exists ((txid, bytes) :: proofs), (path :: paths).
  split_and!; [cbn; by rewrite Et|done|split].
  - apply Forall2_cons in HF as [HF _]. by constructor.
  - intros k o h. rewrite Hu2, Hu1. setoid_rewrite elem_of_cons. setoid_rewrite elem_of_nil. naive_solver.
Qed.

(** A compound path: the block was read, then one proof for every transaction, in order;
    the merged nodes are those of the proofs. *)
Definition path_ok (l : ReadLimits) (topic : list byte) (height : Z) (txids : list Hash) (x : CompoundMerklePath)
    (reads : list event) : Prop :=
  exists a admitted header proofs paths merged,
    reads = block_reads height a admitted header ++ path_calls proofs /\ block_ok l topic height a admitted header /\
    NoDup txids /\ proofs.*1 = txids /\
    Forall2 (fun p path => BasmBump.ParseBoundedMerklePath NewMerklePathFromReader p.2 (MaxProofBytes l) = Ok path /\
      exists position, mkRef p.1 position ∈ admitted /\ accepted path p.1 position header) proofs paths /\
    (forall k o h, hash_at merged k o = Some h <-> exists path, path ∈ paths /\ given (Path path) k o h) /\
    x = mkCompound topic height txids (hex_encode (encodeMergedProof height merged)) /\
    proofResponseTooLarge (encodeMergedProof height merged) txids topic l = false.

Lemma seen_path_calls proofs : seen (path_calls proofs) = [].
Proof. unfold seen, path_calls. by induction proofs. Qed.

Lemma compoundMerklePath_stage s v topic height txids :
  NoDup txids -> stage (compoundMerklePath s v topic height txids) (fun '(x, headers) reads =>
    headers = seen reads /\ path_ok (limits s) topic height txids x reads).
Proof.
  intros Hnd. unfold compoundMerklePath. eapply stage_bind; [apply readBlock_stage|]. intros [[a admitted] header] ? [-> Hblock].
  eapply stage_bind; [apply mergeProofs_stage|]. intros merged ? (proofs & paths & Et & -> & HF & Hu).
  destruct (proofResponseTooLarge _ _ _ _) eqn:Elarge; [by apply stage_lift|]. apply stage_ret. rewrite app_nil_r.
  split; [by rewrite seen_app, seen_path_calls|]. exists a, admitted, header, proofs, paths, merged. split_and!; try done.
  - eapply Forall2_impl; [exact HF|]. intros p path (Eparse & position & Hp%admittedPositions_lookup & Hacc). eauto.
  - intros k o h. rewrite Hu. split; [|by right]. intros [Hr|?]; [|done]. unfold hash_at in Hr.
    destruct (_ !! k) as [level|] eqn:El; [|done]. apply lookup_replicate in El as [-> _]. done.
Qed.

(** ** The requests *)

Definition request_topic (q : request) : list byte :=
  match q with
  | TipRequest topic | RangeRequest topic _ _ | ListRequest topic _ _ | PathRequest topic _ _ => topic
  | RawRequest _ => []
  end.

Definition request_typed (q : request) : Prop :=
  match q with RangeRequest _ from to => is_u32 from /\ is_u32 to | _ => True end.

Definition answer_ok (l : ReadLimits) (q : request) (x : response) (reads : list event) : Prop :=
  match q, x with
  | TipRequest topic, TipResponse x => tip_ok l topic x reads
  | RangeRequest topic from to, RangeResponse x => range_ok l topic from to x reads
  | ListRequest topic height hash, ListResponse x => list_ok l topic height hash x reads
  | PathRequest topic height txids, PathResponse x => path_ok l topic height txids x reads
  | RawRequest txids, RawResponse x => raw_ok l txids x reads
  | _, _ => False
  end.

Lemma framed_nothing {T} topic (Q : T -> list event -> Prop) r : is_ok r = false -> framed topic Q [] r.
Proof. intros Hr. left. auto. Qed.

Lemma framed_map {T U} topic (f : T -> U) (Q : T -> list event -> Prop) (Q' : U -> list event -> Prop) tr r :
  (forall x reads, Q x reads -> Q' (f x) reads) -> framed topic Q tr r -> framed topic Q' tr (f <$> r).
Proof.
  intros Hf [[Hr Htr]|(v & mid & closed & Etr & Hin & Hok)]; [left; by destruct r|right].
  exists v, mid, closed. split_and!; [done..|]. intros x Hx. destruct r as [a|e|]; [|done..]. injection Hx as <-.
  destruct (Hok a eq_refl) as (Hc & reads & Hreads & Emid & HQ). split; [done|]. exists reads. auto.
Qed.

Lemma answered_wp {A} (m : Run A) (f : A -> response) topic Q Q' st :
  wp true m st (fun r st' => exists tr, trace st' = trace st ++ tr /\ framed topic Q tr r) ->
  (forall x reads, Q x reads -> Q' (f x) reads) ->
  wp true (answered m f) st (fun r st' => exists tr, trace st' = trace st ++ tr /\ framed topic Q' tr r).
Proof.
  intros Hm Hf. apply wp_bind. eapply wp_mono; [apply Hm|]. intros r st' (tr & E & Hfr).
  apply (framed_map topic f Q Q') in Hfr; [|done]. destruct r as [a|e|]; [apply wp_ret|..]; by exists tr.
Qed.

Lemma serve_wp s nilContext q st :
  limits_u32 (limits s) -> request_typed q ->
  wp true (serve (Some s) nilContext q) st (fun r st' =>
    exists tr, trace st' = trace st ++ tr /\ framed (request_topic q) (answer_ok (limits s) q) tr r).
Proof.
  intros Hl Hq.
  assert (Hnone : forall (T : Type) topic Q (r : result T), is_ok r = false -> exists tr, trace st = trace st ++ tr /\ framed topic Q tr r)
    by (intros; exists []; rewrite app_nil_r; auto using framed_nothing).
  destruct q as [topic|topic from to|topic height hash|topic height txids|txids]; cbn [serve request_topic request_typed] in *.
  - eapply answered_wp; [|by intros x reads Hx; exact Hx]. apply readBASM_wp. intros v. apply ProvideTopicAnchorTip_stage.
  - eapply answered_wp; [|by intros x reads Hx; exact Hx]. apply wp_bind, wp_lift. destruct Hq as [Hfrom Hto].
    rewrite ValidateRange_counts by (done || apply Hl). case_decide as Hd; [by apply Hnone|]. case_decide; [|by apply Hnone].
    apply readBASM_wp. intros v. apply collectAnchorRange_stage; lia.
  - eapply answered_wp; [|by intros x reads Hx; exact Hx]. apply readBASM_wp. intros v. apply ProvideAdmittedList_stage.
  - eapply answered_wp; [|by intros x reads Hx; exact Hx]. apply wp_bind, wp_lift.
    destruct (validateTxids _ _ _) as [[]|e|] eqn:Ev; [|by apply Hnone..]. apply validateTxids_Ok in Ev as [Hnd _].
    apply readBASM_wp. intros v. by apply compoundMerklePath_stage.
  - eapply answered_wp; [|by intros x reads Hx; exact Hx]. apply wp_bind, wp_lift.
    destruct (validateTxids _ _ _) as [[]|e|] eqn:Ev; [|by apply Hnone..]. apply validateTxids_Ok in Ev as [Hnd Hlen].
    apply readBASM_wp. intros v. by apply collectRawTransactions_stage.
Qed.

(** C22.  Every request ends, and the calls it makes are framed: at most one view is
    opened, for the topic that was asked for; a view that was opened is closed, exactly
    once and last, whether the read succeeded, failed or panicked; and an answer is given
    only if, after all the reads, every canonical header that was resolved for it was
    resolved once more with the same result, then the view was still current, and then it
    was closed without an error. *)
Theorem requests_are_framed s nilContext q st :
  limits_u32 (limits s) -> request_typed q ->
  exists r st' tr, serve (Some s) nilContext q st = Some (r, st') /\ trace st' = trace st ++ tr /\
    framed (request_topic q) (fun _ _ => True) tr r.
Proof.
  intros Hl Hq. destruct (wp_returns _ _ _ (serve_wp s nilContext q st Hl Hq)) as (r & st' & E & tr & Etr & Hfr).
  exists r, st', tr. split_and!; [done..|]. apply (framed_map _ (fun x => x) _ (fun _ _ => True)) in Hfr; [|done]. by destruct r.
Qed.

(** C23.  The answers are right.  Every request ends, and an answer is what the calls of
    the request gave, in the order in which they are listed: an answer to a request for a
    tip is the tip of the view, an anchor of the topic that agrees with the header that was
    resolved at its height, or none when the view has none; a range has one such anchor for
    every height asked for, each TAC a step from the one before; an admitted list is that
    of the view, strictly increasing, free of repetitions and within the block, and its
    Merkle root and length are those of the anchor; a compound path is the union of the
    nodes of one accepted proof per transaction, each at the position where the
    transaction is admitted; raw transactions answer every identity with what the view
    gave for it, bytes that have this identity, or that it is missing.  All within the
    budget of the limits, computed without overflow. *)
Theorem answers_are_right s nilContext q st :
  limits_u32 (limits s) -> request_typed q ->
  exists r st', serve (Some s) nilContext q st = Some (r, st') /\
    forall x, r = Ok x -> exists v reads,
      trace st' = trace st ++ OpenCall (request_topic q) (Ok (Some v)) :: reads ++ rechecked (seen reads) ++ [CloseCall (Ok tt)] /\
      answer_ok (limits s) q x reads.
Proof.
  intros Hl Hq. destruct (wp_returns _ _ _ (serve_wp s nilContext q st Hl Hq)) as (r & st' & E & tr & Etr & Hfr).
  exists r, st'. split; [done|]. intros x ->. destruct Hfr as [[? _]|(v & mid & closed & -> & _ & Hok)]; [done|].
  destruct (Hok x eq_refl) as (-> & reads & _ & -> & HQ). exists v, reads. split; [|done]. by rewrite Etr, <- app_assoc.
Qed.

(** C24.  A compound path that is served proves inclusion.  The block was read, its header
    resolved, and one proof was read for every transaction that was asked for, in order;
    each is a transaction of the admitted list of the topic, and if the resolved header
    has the number of transactions and the Merkle root of the block [txs], then it is in
    the block at its admitted position, or its proof, parsed from the bytes that were
    read, exhibits a collision of the double SHA-256 with the tree of the block. *)
Theorem compound_paths_prove_inclusion s nilContext topic height txids st :
  (forall a b, MerkleTreeParent a b = hashPair a b) -> limits_u32 (limits s) ->
  exists r st', serve (Some s) nilContext (PathRequest topic height txids) st = Some (r, st') /\
    forall x, r = Ok x -> exists v a admitted header proofs after,
      trace st' = trace st ++ OpenCall topic (Ok (Some v)) :: block_reads height a admitted header ++ path_calls proofs ++ after /\
      block_ok (limits s) topic height a admitted header /\ proofs.*1 = txids /\
      forall txs, TransactionCount header = len txs -> root_spec txs (len txs) = Ok (hdrMerkleRoot header) ->
        forall txid bytes, (txid, bytes) ∈ proofs -> exists path position,
          BasmBump.ParseBoundedMerklePath NewMerklePathFromReader bytes (MaxProofBytes (limits s)) = Ok path /\ mkRef txid position ∈ admitted /\
          (0 <= position -> txs !! Z.to_nat position = Some txid \/
             exists (w : W) c, collides w MerkleTreeParent path txs (Z.to_nat position) c = true).
Proof.
  intros Hparent Hl. destruct (wp_returns _ _ _ (serve_wp s nilContext (PathRequest topic height txids) st Hl I)) as (r & st' & E & tr & Etr & Hfr).
  exists r, st'. split; [done|]. intros x ->. destruct Hfr as [[? _]|(v & mid & closed & -> & _ & Hok)]; [done|].
  destruct (Hok x eq_refl) as (-> & reads & _ & -> & HQ). destruct x as [| | |x|]; [done..| |done].
  destruct HQ as (a & admitted & header & proofs & paths & merged & -> & Hblock & _ & Et & HF & _).
  eexists v, a, admitted, header, proofs, _. split_and!; [rewrite Etr, <- !app_assoc; reflexivity|done|done|]. intros txs Hcount Hroot txid bytes Hin.
  apply list_elem_of_lookup in Hin as [i Hi]. destruct (Forall2_lookup_l _ _ _ _ _ HF Hi) as (path & _ & Eparse & position & Hp & w & c & c' & Hacc).
  exists path, position. split_and!; [done..|]. intros Hpos.
  destruct (accepted_right w MerkleTreeParent Hparent path txid position header txs c c') as [?|?]; [done|done| |done|exact Hacc|by left|right; eauto].
  destruct Hblock as (_ & (_ & _ & _ & _ & Hmax & _) & _). lia.
Qed.

End BasmRead.
(** ** A store with one block of three transactions *)

Module Example.
Import EngineModel BasmProof.Example.

Definition topic : list byte := str "tm".
Definition first : TopicBlockAnchor := mkAnchor topic 9 zero_hash t2 1.
Definition second : TopicBlockAnchor := mkAnchor topic 10 t0 zero_hash 0.
Definition firstTAC : Hash := HashTACStep zero_hash zero_hash t2.
Definition chain : list Anchor := [mkTacAnchor first firstTAC; mkTacAnchor second (HashTACStep firstTAC t0 zero_hash)].
Definition nextHeader : BASMCanonicalHeader := mkHeader 10 t0 zero_hash 7.

(** A transaction with one input, one output and no scripts. *)
Definition rawTx : list byte :=
  put_u32 1 ++ Byte.x01 :: replicate 36 Byte.x07 ++ Byte.x00 :: put_u32 MaxUint32 ++ Byte.x01 :: replicate 8 Byte.x00 ++ Byte.x00 :: put_u32 0.
Definition rawID : Hash := doubleSHA256 rawTx.

(** The last transaction of the block is admitted; [rawTx] is stored. *)
#[export] Instance store : BASMWorld Ctx unit := {|
  OpenBASMRead _ _ w := (Ok (Some tt), w);
  viewTip _ w := (Ok (last chain), w);
  viewAnchors _ from _ count w := (Ok (take (Z.to_nat count) (drop (Z.to_nat (from - 9)) chain)), w);
  viewAdmitted _ _ _ w := (Ok [mkRef t2 2], w);
  viewMerklePath _ _ _ w := (Ok (BasmBump.path_bytes (BasmBump.mkPath 9
    [[BasmBump.Hashed 2 true (hbytes t2); BasmBump.Duplicate 3]; [BasmBump.Hashed 0 false (hbytes (hashPair t0 t1))]])), w);
  viewRawTx _ txid _ w := (if bool_decide (txid = rawID) then Ok rawTx else Err ErrBASMNotFound, w);
  viewCheckCurrent _ w := (Ok tt, w);
  viewClose _ w := (Ok tt, w);
  CanonicalBASMHeader height w := (Ok (if height =? 9 then header else nextHeader), w);
  context w := w;
  withContext c _ := c |}.

#[export] Instance parsers : BASMParsers := {|
  NewMerklePathFromReader _ := Ok proof;
  MerklePathBytes _ _ := str "merged";
  ParsedTx := list byte;
  NewTransactionFromBytes raw := Ok raw;
  TransactionBytes tx := tx;
  MerkleTreeParent := hashPair |}.

Definition service : BASMReadService := mkService true true DefaultReadLimits.
Definition start : Traced.St Ctx (event (View := unit)) := mkSt background [].
Definition run (q : request) := serve (W := Ctx) (View := unit) (Some service) false q start.
Definition outcome (q : request) : option (result response) := fst <$> run q.

Lemma default_limits : limits_u32 DefaultReadLimits.
Proof. unfold limits_u32, is_u32, MaxUint32. vm_compute. intuition congruence. Qed.

Example whole_range : outcome (RangeRequest topic 9 10) = Some (Ok (RangeResponse (mkAnchorRange topic chain))).
Proof. vm_compute. reflexivity. Qed.

Example one_is_missing : outcome (RawRequest [t0; rawID]) = Some (Ok (RawResponse (mkRaw [(rawID, hex_encode rawTx)] [t0]))).
Proof. vm_compute. reflexivity. Qed.

Definition answer : CompoundMerklePath := mkCompound topic 9 [t2] (hex_encode (str "merged")).
Definition proofBytes : list byte := BasmBump.path_bytes (BasmBump.mkPath 9
  [[BasmBump.Hashed 2 true (hbytes t2); BasmBump.Duplicate 3]; [BasmBump.Hashed 0 false (hbytes (hashPair t0 t1))]]).

Definition served : Traced.St Ctx (event (View := unit)) := mkSt background
  [OpenCall topic (Ok (Some tt)); AnchorsCall 9 9 (Ok [mkTacAnchor first firstTAC]); HeaderCall 9 (Ok header);
   AdmittedCall 9 (Ok [mkRef t2 2]); PathCall t2 (Ok proofBytes); HeaderCall 9 (Ok header); CurrentCall (Ok tt); CloseCall (Ok tt)].

Lemma path_served : run (PathRequest topic 9 [t2]) = Some (Ok (PathResponse answer), served).
Proof. vm_compute. reflexivity. Qed.

Lemma requests_are_framed_witness :
  exists r st' tr, run (PathRequest topic 9 [t2]) = Some (r, st') /\ trace st' = [] ++ tr /\ framed topic (fun _ _ => True) tr r.
Proof. exact (requests_are_framed (W := Ctx) (View := unit) service false (PathRequest topic 9 [t2]) start default_limits I). Defined.

Lemma answers_are_right_witness : exists r st', run (PathRequest topic 9 [t2]) = Some (r, st') /\
  forall x, r = Ok x -> exists v reads,
    trace st' = [] ++ OpenCall topic (Ok (Some v)) :: reads ++ rechecked (seen reads) ++ [CloseCall (Ok tt)] /\
    answer_ok (W := Ctx) DefaultReadLimits (PathRequest topic 9 [t2]) x reads.
Proof. exact (answers_are_right (W := Ctx) (View := unit) service false (PathRequest topic 9 [t2]) start default_limits I). Defined.

Lemma compound_paths_prove_inclusion_witness :
  exists r st', run (PathRequest topic 9 [t2]) = Some (r, st') /\
    forall x, r = Ok x -> exists v a admitted hd proofs after,
      trace st' = [] ++ OpenCall topic (Ok (Some v)) :: block_reads 9 a admitted hd ++ path_calls proofs ++ after /\
      block_ok DefaultReadLimits topic 9 a admitted hd /\ proofs.*1 = [t2] /\
      forall txs, TransactionCount hd = len txs -> root_spec txs (len txs) = Ok (hdrMerkleRoot hd) ->
        forall txid bytes, (txid, bytes) ∈ proofs -> exists path position,
          BasmBump.ParseBoundedMerklePath NewMerklePathFromReader bytes (MaxProofBytes DefaultReadLimits) = Ok path /\ mkRef txid position ∈ admitted /\
          (0 <= position -> txs !! Z.to_nat position = Some txid \/
             exists (w : Ctx) c, collides w hashPair path txs (Z.to_nat position) c = true).
Proof.
  exact (compound_paths_prove_inclusion (W := Ctx) (View := unit) service false topic 9 [t2] start (fun a b => eq_refl) default_limits).
Defined.

End Example.

End BasmRead.
