(* ===== verification/BasmJson.v ===== *)
(** * pkg/core/basm/json.go and protocol.go: the JSON decoders

    The decoders of untrusted JSON: anchors, admitted lists, ranges and the requests of
    the read service.  The bytes are checked for lone surrogates before encoding/json
    sees them, and every field is checked instead of coerced. *)

From S2P Require Import Prelude Bytes Utf8 Decimal Json BasmHash BasmValues BasmRead.
Import Json BasmHash BasmValues.
Open Scope Z_scope.

Module BasmJson.

(** ** The check of the escapes *)

(** [consumeUnicodeEscape]: the text after the u of an escape, up to where the escape
    ends. *)
Definition consumeUnicodeEscape (s : list byte) : option (list byte) :=
  '(unit, s1) ← hex4 s;
  if lowSurrogate unit then None
  else if negb (highSurrogate unit) then Some s1
  else match s1 with
       | c :: e :: s2 =>
           if negb (isb Byte.x5c c) || negb (isb Byte.x75 e) then None else
           '(low, s3) ← hex4 s2;
           if lowSurrogate low then Some s3 else None
       | _ => None
       end.

(** The loop of [validUnicodeEscapes]; every step reads a byte, so that the length is
    enough fuel. *)
Fixpoint scanEscapes (n : nat) (inString : bool) (s : list byte) : bool :=
  match n, s with
  | S n', c :: s1 =>
      if isb Byte.x22 c then scanEscapes n' (negb inString) s1
      else if negb inString || negb (isb Byte.x5c c) then scanEscapes n' inString s1
      else match s1 with
           | [] => true
           | e :: s2 =>
               if negb (isb Byte.x75 e) then scanEscapes n' inString s2
               else match consumeUnicodeEscape s2 with
                    | None => false
                    | Some s3 => scanEscapes n' inString s3
                    end
           end
  | _, _ => true
  end.

Definition validUnicodeEscapes (data : list byte) : bool := scanEscapes (length data) false data.

Definition boundedDecoder (data : list byte) (limits : Limits) : result Decoder :=
  validate limits ≫= fun _ =>
  if MaxJSONBytes limits <? len data then Err ErrLimitExceeded
  else if negb (Utf8.Valid data) || negb (validUnicodeEscapes data) then Err ErrInvalidInput
  else Ok (NewDecoder data).

(** ** Objects and fields *)

Abbreviation Fields := (gmap (list byte) (list byte)).

(** The loop of [readObject]: the 65th field is refused, so that 65 rounds are enough. *)
Fixpoint readFields (n : nat) (dec : Decoder) (fields : Fields) : result (Fields * Decoder) :=
  match n with
  | O => Err ErrLimitExceeded
  | S n' =>
      if negb (More dec) then Ok (fields, dec)
      else if 64 <=? Z.of_nat (size fields) then Err ErrLimitExceeded
      else
        '(t, dec) ← Token dec;
        match t with
        | StringToken key =>
            match fields !! key with
            | Some _ => Err ErrInvalidInput
            | None => '(value, dec) ← Decode dec; readFields n' dec (<[key := value]> fields)
            end
        | _ => Err ErrInvalidInput
        end
  end.

Definition readObject (dec : Decoder) : result (Fields * Decoder) :=
  match Token dec with
  | Ok (Delim c, dec) =>
      if negb (isb Byte.x7b c) then Err ErrInvalidInput else
      '(fields, dec) ← readFields 65 dec ∅;
      '(_, dec) ← Token dec;
      Ok (fields, dec)
  | Panic => Panic
  | _ => Err ErrInvalidInput
  end.

Definition requireEOF (dec : Decoder) : result unit :=
  match Decode dec with Err ErrEOF => Ok tt | Panic => Panic | _ => Err ErrInvalidInput end.

Definition parseUint (raw : list byte) (bits : Z) : result Z :=
  if len raw =? 0 then Err ErrInvalidInput
  else if negb (forallb is_digit raw) then Err ErrInvalidInput
  else if 2 ^ bits <=? value raw then Err ErrRange else Ok (value raw).

Definition parseJSONHash (raw : list byte) : result Hash := display ← UnmarshalString raw; ParseHash display.

(** [fields[name]]: nil for a field that is missing. *)
Definition field (fields : Fields) (name : string) : list byte := default [] (fields !! str name).

(** ** The decoders *)

Definition decodeAnchorFields (fields : Fields) : result TopicBlockAnchor :=
  topic ← UnmarshalString (field fields "topic");
  height ← parseUint (field fields "blockHeight") 32;
  blockHash ← parseJSONHash (field fields "blockHash");
  root ← parseJSONHash (field fields "basmRoot");
  count ← parseUint (field fields "admittedCount") 64;
  Ok (mkAnchor topic (u32 height) blockHash root count).

Definition DecodeAnchorJSON (data : list byte) (limits : Limits) : result TopicBlockAnchor :=
  dec ← boundedDecoder data limits;
  '(fields, dec) ← readObject dec;
  requireEOF dec ≫= fun _ =>
  a ← decodeAnchorFields fields;
  Validate a limits ≫= fun _ => Ok a.

Definition readAdmittedItem (dec : Decoder) : result (AdmittedTxRef * Decoder) :=
  '(fields, dec) ← readObject dec;
  txid ← parseJSONHash (field fields "txid");
  match parseUint (field fields "blockIndex") 64 with
  | Ok index => if MaxSafeJSONInteger <? index then Err ErrInvalidInput else Ok (mkRef txid index, dec)
  | Err _ => Err ErrInvalidInput
  | Panic => Panic
  end.

(** The loop of [readAdmittedArray]; an item is at least one byte long. *)
Fixpoint readAdmittedArray (n : nat) (dec : Decoder) (limits : Limits) (admitted : list AdmittedTxRef)
    : Polling (list AdmittedTxRef * Decoder) :=
  match n with
  | O => pure (Err ErrLimitExceeded)
  | S n' =>
      if negb (More dec) then mret (admitted, dec) else
      poll ≫= fun _ =>
      if MaxAdmitted limits <=? len admitted then pure (Err ErrLimitExceeded) else
      '(ref, dec) ← pure (readAdmittedItem dec);
      readAdmittedArray n' dec limits (admitted ++ [ref])
  end.

(** [token != json.Delim(c)]: every other token and every error is refused. *)
Definition expectDelim (c : byte) (dec : Decoder) : result Decoder :=
  match Token dec with
  | Ok (Delim c', dec) => if isb c c' then Ok dec else Err ErrInvalidInput
  | Panic => Panic
  | _ => Err ErrInvalidInput
  end.

Definition DecodeAdmittedListJSON (data : list byte) (blockTxCount : Z) (limits : Limits) : Polling (list AdmittedTxRef) :=
  require_ctx ErrInvalidInput ≫= fun _ =>
  poll ≫= fun _ =>
  dec ← pure (boundedDecoder data limits);
  dec ← pure (expectDelim Byte.x5b dec);
  '(admitted, dec) ← readAdmittedArray (S (length (buf dec))) dec limits [];
  '(_, dec) ← pure (Token dec);
  pure (requireEOF dec) ≫= fun _ =>
  ValidateAdmittedList admitted blockTxCount limits ≫= fun _ =>
  mret admitted.

Definition DecodeRangeJSON (data : list byte) (limits : Limits) : result (Z * Z) :=
  dec ← boundedDecoder data limits;
  '(fields, dec) ← readObject dec;
  requireEOF dec ≫= fun _ =>
  from ← parseUint (field fields "fromHeight") 32;
  to ← parseUint (field fields "toHeight") 32;
  ValidateRange (u32 from) (u32 to) (MaxRange limits) ≫= fun _ =>
  Ok (u32 from, u32 to).

(** ** The requests of the read service (protocol.go) *)

Record ReadRequest := mkReadRequest {
  FromHeight : Z; ToHeight : Z; reqHeight : Z; reqHash : option Hash; reqTxIDs : list Hash }.

(** The kinds are strings in the code; [OtherKind] is any other string. *)
Inductive kind := Tip | Range | List | Proof_ | Raw | OtherKind.

(** The loop of [decodeRequestedTxIDs]. *)
Fixpoint readTxIDs (n : nat) (dec : Decoder) (maxCount : Z) (txids : list Hash) : result (list Hash * Decoder) :=
  match n with
  | O => Err ErrLimitExceeded
  | S n' =>
      if negb (More dec) then Ok (txids, dec)
      else if maxCount <=? len txids then Err ErrLimitExceeded
      else
        '(item, dec) ← Decode dec;
        hash ← parseJSONHash item;
        if bool_decide (hash ∈ txids) then Err ErrInvalidInput
        else readTxIDs n' dec maxCount (txids ++ [hash])
  end.

Definition decodeRequestedTxIDs (raw : list byte) (maxCount : Z) (required : bool) : result (list Hash) :=
  dec ← expectDelim Byte.x5b (NewDecoder raw);
  '(txids, dec) ← readTxIDs (S (length (buf dec))) dec maxCount [];
  '(_, dec) ← Token dec;
  requireEOF dec ≫= fun _ =>
  if required && (len txids =? 0) then Err ErrInvalidInput else Ok txids.

Definition emptyRequest : ReadRequest := mkReadRequest 0 0 0 None [].

(** The fields of a request of a kind other than tip and range. *)
Definition decodeRequestFields (fields : Fields) (k : kind) (limits : ReadLimits) : result ReadRequest :=
  let txids height := txids ← decodeRequestedTxIDs (field fields "txids") (MaxRequestedTxIDs limits) (match k with Proof_ => true | _ => false end);
                      Ok (mkReadRequest 0 0 height None txids) in
  match k with
  | List | Proof_ =>
      height ← parseUint (field fields "blockHeight") 32;
      match k with
      | List =>
          hash ← match fields !! str "blockHash" with
                 | Some raw => Some <$> parseJSONHash raw
                 | None => Ok None
                 end;
          Ok (mkReadRequest 0 0 (u32 height) hash [])
      | _ => txids (u32 height)
      end
  | Raw => txids 0
  | _ => Err ErrInvalidInput
  end.

Definition DecodeReadRequest (data : list byte) (k : kind) (limits : ReadLimits) : result ReadRequest :=
  ValidateReadLimits limits ≫= fun _ =>
  let l := baseLimits limits in
  let bound := mkLimits (MaxAdmitted l) (MaxRange l) (MaxRequestBytes limits) (MaxTopicBytes l) in
  dec ← boundedDecoder data bound;
  '(fields, dec) ← readObject dec;
  requireEOF dec ≫= fun _ =>
  match k with
  | Tip => Ok emptyRequest
  | Range => '(from, to) ← DecodeRangeJSON data bound; Ok (mkReadRequest from to 0 None [])
  | _ => decodeRequestFields fields k limits
  end.

(** ** Escapes of documents *)

Lemma hex4_length s r : hex4 s = Some r -> length s = (4 + length r.2)%nat.
Proof. destruct s as [|a [|b [|c [|d s]]]]; try done. cbn [hex4].
  destruct (from_hex_char a), (from_hex_char b), (from_hex_char c), (from_hex_char d); simpl; try done. by intros [= <-]. Qed.

Lemma consume_length s s' : consumeUnicodeEscape s = Some s' -> (length s' < length s)%nat.
Proof.
  unfold consumeUnicodeEscape. destruct (hex4 s) as [[unit s1]|] eqn:E1; [|done]. apply hex4_length in E1. cbn [mbind option_bind snd] in *.
  destruct (lowSurrogate unit); [done|]. destruct (highSurrogate unit); cbn [negb]; [|intros [= <-]; lia].
  destruct s1 as [|c [|e s2]]; [done..|]. destruct (_ || _); [done|]. destruct (hex4 s2) as [[low s3]|] eqn:E2; [|done].
  apply hex4_length in E2. cbn [mbind option_bind snd length] in *. destruct (lowSurrogate low); [|done]. intros [= <-]. lia.
Qed.

(** Fuel beyond the length makes no difference. *)
Lemma scanEscapes_fuel n m b s :
  (length s <= n)%nat -> (length s <= m)%nat -> scanEscapes n b s = scanEscapes m b s.
Proof.
  revert m b s. induction n as [|n IH]; intros m b s Hn Hm; [by destruct s; [destruct m|simpl in Hn; lia]|].
  destruct s as [|c s1]; [by destruct m|]. destruct m as [|m]; [simpl in Hm; lia|]. cbn [length] in *. cbn [scanEscapes].
  case_bool_decide; [apply IH; lia|]. destruct (_ || _); [apply IH; lia|]. destruct s1 as [|e s2]; [done|]. cbn [length] in *.
  destruct (negb _); [apply IH; lia|]. destruct (consumeUnicodeEscape s2) as [s3|] eqn:E; [|done]. apply consume_length in E. apply IH; lia.
Qed.

(** [v] does not change whether what follows is accepted: a whole number of strings, and
    no lone surrogate in them. *)
Definition balanced (b : bool) (v : list byte) : Prop :=
  forall n t, (length (v ++ t) <= n)%nat -> scanEscapes n b (v ++ t) = scanEscapes (length t) b t.

Lemma balanced_nil b : balanced b [].
Proof. intros n t Hn. by apply scanEscapes_fuel. Qed.

Lemma balanced_app b v w : balanced b v -> balanced b w -> balanced b (v ++ w).
Proof. intros Hv Hw n t Hn. rewrite <- app_assoc in *. rewrite Hv by done. by apply Hw. Qed.

Lemma balanced_cons c : c <> Byte.x22 -> balanced false [c].
Proof.
  intros Hc [|n] t Hn; [simpl in Hn; lia|]. cbn [app scanEscapes negb orb]. rewrite bool_decide_false by done.
  apply scanEscapes_fuel; simpl in Hn; lia.
Qed.

Lemma balanced_plain v : Forall (fun c => c <> Byte.x22) v -> balanced false v.
Proof. induction 1 as [|c v Hc _ IH]; [apply balanced_nil|]. apply (balanced_app _ [c]); [by apply balanced_cons|done]. Qed.

Lemma balanced_high v : Forall (fun c => 128 <= val c) v -> balanced true v.
Proof.
  induction 1 as [|c v Hc _ IH]; [apply balanced_nil|]. intros [|n] t Hn; [simpl in Hn; lia|]. cbn [app scanEscapes negb orb length] in *.
  rewrite !bool_decide_false by (intros ->; revert Hc; by vm_compute). cbn [negb]. apply IH. lia.
Qed.

Lemma quoteByte_balanced c : val c < 128 -> balanced true (quoteByte c).
Proof.
  intros Hc n t Hn. destruct n as [|n]; [destruct c; simpl in Hn; lia|].
  transitivity (scanEscapes n true t); [destruct c; try reflexivity; exfalso; revert Hc; by vm_compute|].
  apply scanEscapes_fuel; [|done]. rewrite length_app in Hn. pose proof (chunk_pos _ _ (quoteByte_chunk c Hc)). lia.
Qed.

Lemma quoteRune_balanced r : Forall (fun c => 128 <= val c) r -> balanced true (quoteRune r).
Proof.
  intros Hr. unfold quoteRune. case_bool_decide; [|case_bool_decide; [|by apply balanced_high]];
    (intros [|n] t Hn; [simpl in Hn; lia|]); (transitivity (scanEscapes n true t); [reflexivity|]);
    (apply scanEscapes_fuel; [rewrite length_app in Hn; simpl in Hn; lia|done]).
Qed.

Lemma quoteLoop_balanced n s : Utf8.Valid s = true -> balanced true (quoteLoop n s).
Proof.
  revert s. induction n as [|n IH]; intros s Hs; [apply balanced_nil|]. destruct s as [|c s]; [apply balanced_nil|]. cbn [quoteLoop].
  destruct (Utf8.Valid_width (c :: s) Hs ltac:(done)) as [Hw Hv].
  destruct (Z.ltb_spec (val c) 128) as [Hc|Hc].
  - apply balanced_app; [by apply quoteByte_balanced|]. apply IH. cbn [Utf8.Valid] in Hs. by rewrite (proj2 (Z.ltb_lt _ _) Hc) in Hs.
  - pose proof (width_high c s Hc) as Hh. destruct (Utf8.width (c :: s)) as [|w]; [lia|].
    apply balanced_app; [by apply quoteRune_balanced|by apply IH].
Qed.

Lemma quote_balanced s : Utf8.Valid s = true -> balanced false (quote s).
Proof.
  intros Hs n t Hn. unfold quote in *. destruct n as [|n]; [simpl in Hn; lia|]. rewrite <- app_comm_cons, <- app_assoc in *.
  cbn [scanEscapes app length] in *. rewrite bool_decide_true by done. cbn [negb].
  rewrite (quoteLoop_balanced _ _ Hs) by lia. cbn [length scanEscapes]. by rewrite bool_decide_true.
Qed.

(** Text that the decoder is given as it is. *)
Definition clean (v : list byte) : Prop := balanced false v /\ Utf8.Valid v = true.

Lemma clean_nil : clean [].
Proof. split; [apply balanced_nil|done]. Qed.

Lemma clean_app v w : clean v -> clean w -> clean (v ++ w).
Proof. intros [Bv Uv] [Bw Uw]. split; [by apply balanced_app|by rewrite Utf8.Valid_app]. Qed.

Lemma clean_plain v : Forall (fun c => val c < 128 /\ c <> Byte.x22) v -> clean v.
Proof. intros Hv. split; [apply balanced_plain|apply Utf8.Valid_ascii]; (eapply Forall_impl; [exact Hv|]); by intros c [? ?]. Qed.

Lemma quoteByte_ascii c : val c < 128 -> Utf8.Valid (quoteByte c) = true.
Proof. intros Hc. destruct c; try reflexivity; exfalso; revert Hc; by vm_compute. Qed.

Lemma quoteLoop_valid n s : Utf8.Valid s = true -> Utf8.Valid (quoteLoop n s) = true.
Proof.
  revert s. induction n as [|n IH]; intros s Hs; [done|]. destruct s as [|c s]; [done|]. cbn [quoteLoop].
  destruct (Utf8.Valid_width (c :: s) Hs ltac:(done)) as [Hw Hv].
  destruct (Z.ltb_spec (val c) 128) as [Hc|Hc].
  - rewrite Utf8.Valid_app by (by apply quoteByte_ascii). apply IH. cbn [Utf8.Valid] in Hs. by rewrite (proj2 (Z.ltb_lt _ _) Hc) in Hs.
  - pose proof (Utf8.Valid_take_width (c :: s) ltac:(lia)) as Ht. destruct (Utf8.width (c :: s)) as [|w]; [lia|].
    rewrite Utf8.Valid_app; [by apply IH|]. unfold quoteRune. by repeat case_bool_decide.
Qed.

Lemma quote_clean s : Utf8.Valid s = true -> clean (quote s).
Proof.
  intros Hs. split; [by apply quote_balanced|]. unfold quote. cbn [Utf8.Valid]. change (val Byte.x22 <? 128) with true. cbv iota.
  rewrite Utf8.Valid_app; [done|by apply quoteLoop_valid].
Qed.

Lemma comma_clean l : Forall clean l -> clean (comma l).
Proof.
  intros Hl. destruct Hl as [|v l Hv Hl]; [apply clean_nil|]. cbn [comma]. apply clean_app; [done|].
  induction Hl as [|w l Hw _ IH]; [apply clean_nil|]. cbn [flat_map]. rewrite <- app_comm_cons. apply (clean_app [Byte.x2c] (w ++ _)); [|by apply clean_app].
  apply clean_plain. by repeat constructor.
Qed.

Lemma array_clean l : Forall clean l -> clean (array l).
Proof.
  intros Hl. apply (clean_app [Byte.x5b]); [apply clean_plain; by repeat constructor|].
  apply clean_app; [by apply comma_clean|apply clean_plain; by repeat constructor].
Qed.

Lemma object_clean l : Forall (fun m => Utf8.Valid m.1 = true /\ clean m.2) l -> clean (object l).
Proof.
  intros Hl. apply (clean_app [Byte.x7b] (_ ++ _)); [apply clean_plain; by repeat constructor|].
  apply clean_app; [|apply clean_plain; by repeat constructor]. apply comma_clean, Forall_map. eapply Forall_impl; [exact Hl|].
  intros m [Hk Hv]. apply clean_app; [by apply quote_clean|]. apply (clean_app [Byte.x3a] _); [apply clean_plain; by repeat constructor|done].
Qed.

Definition plainByte (c : byte) : Prop := val c < 128 /\ c <> Byte.x22.

Lemma digit_plain c : is_digit c = true -> plainByte c.
Proof. unfold is_digit. rewrite andb_true_iff, !Z.leb_le. intros Hc. split; [lia|]. intros ->. change (val Byte.x22) with 34 in Hc. lia. Qed.

(** The bytes that [t'] follows in [t] are plain. *)
Definition after (t t' : list byte) : Prop := exists u, t = u ++ t' /\ Forall plainByte u.

Lemma after_refl t : after t t.
Proof. exists []. by split. Qed.

Lemma after_trans t u v : after t u -> after u v -> after t v.
Proof. intros (x & -> & Hx) (y & -> & Hy). exists (x ++ y). split; [by rewrite app_assoc|by apply Forall_app]. Qed.

Lemma after_cons c t t' : plainByte c -> after t t' -> after (c :: t) t'.
Proof. intros Hc (u & -> & Hu). exists (c :: u). split; [done|by constructor]. Qed.

Lemma after_digits t : after t (skipDigits t).
Proof. induction t as [|c t IH]; [apply after_refl|]. cbn [skipDigits]. destruct (is_digit c) eqn:E; [|apply after_refl]. apply after_cons; [by apply digit_plain|done]. Qed.

Lemma after_someDigits t t' : someDigits t = Some t' -> after t t'.
Proof. destruct t as [|c t]; [done|]. cbn [someDigits]. destruct (is_digit c) eqn:E; [|done]. intros [= <-]. apply after_cons; [by apply digit_plain|apply after_digits]. Qed.

Lemma number_clean t : skipNumber t = Some [] -> clean t.
Proof.
  intros Ht. apply clean_plain. enough (Ha : after t []) by (destruct Ha as (u & -> & Hu); by rewrite app_nil_r).
  unfold skipNumber in Ht. destruct (skipInt (skipMinus t)) as [u1|] eqn:E1; [|done]. cbn [mbind option_bind] in Ht.
  destruct (skipFraction u1) as [u2|] eqn:E2; [|done]. cbn [mbind option_bind] in Ht.
  apply (after_trans _ (skipMinus t)).
  { destruct t as [|c t]; [apply after_refl|]. cbn [skipMinus]. case_bool_decide; [subst; apply after_cons; [done|apply after_refl]|apply after_refl]. }
  apply (after_trans _ u1); [|apply (after_trans _ u2)].
  - destruct (skipMinus t) as [|c u]; [done|]. cbn [skipInt] in E1. case_bool_decide; [|by apply after_someDigits]. injection E1 as <-. subst. apply after_cons; [done|apply after_refl].
  - destruct u1 as [|c u1]; cbn [skipFraction] in E2; [injection E2 as <-; apply after_refl|]. case_bool_decide; [|injection E2 as <-; apply after_refl].
    subst. apply after_cons; [done|by apply after_someDigits].
  - destruct u2 as [|c u2]; cbn [skipExponent] in Ht; [apply after_refl|].
    case_bool_decide; [|case_bool_decide]; cbn [orb] in Ht; subst; [| |discriminate Ht];
      (apply after_cons; [done|]); apply (after_trans _ (skipSign u2)); try (by apply after_someDigits);
      (destruct u2 as [|c u2]; [apply after_refl|]; cbn [skipSign]; repeat case_bool_decide; subst; try apply after_refl; (apply after_cons; [done|apply after_refl])).
Qed.

Lemma render_clean d j : wf d j -> clean (render j).
Proof.
  revert j. induction d as [|d IH]; intros j Hj.
  - destruct j; cbn [wf render] in *; try done; [apply clean_plain; by repeat constructor|destruct b; apply clean_plain; by repeat constructor|by apply number_clean|by apply quote_clean].
  - destruct j; cbn [wf render] in *;
      [apply clean_plain; by repeat constructor|destruct b; apply clean_plain; by repeat constructor|by apply number_clean|by apply quote_clean| |].
    + apply array_clean, Forall_map. eapply Forall_impl; [exact Hj|]. auto.
    + apply object_clean, Forall_map. eapply Forall_impl; [exact Hj|]. intros m [? ?]. split; [done|]. by apply IH.
Qed.

(** A clean text passes the first checks. *)
Lemma boundedDecoder_clean data limits :
  validate limits = Ok tt -> len data <= MaxJSONBytes limits -> clean data -> boundedDecoder data limits = Ok (NewDecoder data).
Proof.
  intros Hl Hlen [Hb Hu]. unfold boundedDecoder. rewrite Hl. cbn. rewrite (proj2 (Z.ltb_ge _ _)) by done. rewrite Hu.
  unfold validUnicodeEscapes. specialize (Hb (length data) []). rewrite app_nil_r in Hb. rewrite Hb by done. done.
Qed.
(** ** Objects are read member by member *)

(** What [readFields] makes of the members. *)
Fixpoint collect (fields : Fields) (l : list (list byte * list byte)) : result Fields :=
  match l with
  | [] => Ok fields
  | (k, v) :: l' =>
      if 64 <=? Z.of_nat (size fields) then Err ErrLimitExceeded
      else match fields !! k with
           | Some _ => Err ErrInvalidInput
           | None => collect (<[k := v]> fields) l'
           end
  end.

Lemma readFields_render d l fields n st rest stk :
  Forall (memberOk d) l -> Z.of_nat d <= maxNestingDepth -> st = tokenObjectStart \/ st = tokenObjectComma ->
  (size fields <= 64)%nat -> (65 <= n + size fields)%nat ->
  readFields n (mkDecoder (pending st l rest) st stk) fields =
    (f ← collect fields l; Ok (f, mkDecoder (Byte.x7d :: rest) (match l with [] => st | _ => tokenObjectComma end) stk)).
Proof.
  intros Hl Hd. revert fields n st. induction Hl as [|[k v] l Hm Hl IH]; intros fields n st Hst Hsize Hn; (destruct n as [|n]; [lia|]); cbn [readFields].
  { by destruct Hst as [-> | ->]. }
  rewrite (More_member k v l) by (done || exact (proj1 Hm)). cbn [negb collect]. destruct (Z.leb_spec 64 (Z.of_nat (size fields))) as [|Hlt]; [done|].
  rewrite (Token_member k v l) by (done || exact (proj1 Hm)). cbn [mbind result_bind]. destruct (fields !! k) eqn:Ek; [done|].
  rewrite (Decode_member k v l rest stk d Hm Hd). cbn [mbind result_bind].
  assert (Hsz : size (<[k:=v]> fields) = S (size fields)) by (by apply map_size_insert_None).
  rewrite (IH (<[k:=v]> fields) n tokenObjectComma) by (auto; lia). by destruct l.
Qed.

(** Where an object may stand. *)
Definition objectState (st : tokenState) : Prop := tokenValueAllowed st = true.

Lemma readObject_render d l rest st stk :
  Forall (memberOk d) l -> Z.of_nat d <= maxNestingDepth -> tokenValueAllowed st = true ->
  readObject (mkDecoder (object l ++ rest) st stk) = (f ← collect ∅ l; Ok (f, mkDecoder rest (tokenValueEnd st) stk)).
Proof.
  intros Hl Hd Hst. unfold readObject, object. rewrite <- app_comm_cons, <- app_assoc. cbn [app].
  rewrite Token_open, bool_decide_true by done. cbn [negb].
  pose proof (readFields_render d l ∅ 65 tokenObjectStart rest (st :: stk) Hl Hd (or_introl eq_refl)) as HF.
  rewrite map_size_empty in HF. specialize (HF ltac:(lia) ltac:(lia)).
  assert (Epend : pending tokenObjectStart l rest = members l ++ Byte.x7d :: rest) by (by destruct l).
  rewrite Epend in HF. rewrite HF. destruct (collect ∅ l) as [f|e|]; [|done..]. cbn [mbind result_bind].
  rewrite Token_close by (destruct l; auto). done.
Qed.

Lemma collect_Ok l fields :
  NoDup l.*1 -> (forall k, k ∈ l.*1 -> fields !! k = None) -> (size fields + length l <= 64)%nat ->
  exists f, collect fields l = Ok f /\ (forall k v, (k, v) ∈ l -> f !! k = Some v) /\ (forall k, k ∉ l.*1 -> f !! k = fields !! k).
Proof.
  revert fields. induction l as [|[k v] l IH]; intros fields Hnd Hfresh Hsize; cbn [collect fmap list_fmap fst] in *.
  { exists fields. split_and!; [done| |done]. intros k v Hin. by apply not_elem_of_nil in Hin. }
  apply NoDup_cons in Hnd as [Hk Hnd]. cbn [length] in Hsize.
  rewrite (proj2 (Z.leb_gt 64 _)) by lia. rewrite Hfresh by (by left).
  destruct (IH (<[k:=v]> fields) Hnd) as (f & E & Hin & Hout).
  { intros k' Hk'. rewrite lookup_insert_ne by (intros ->; done). apply Hfresh. by right. }
  { rewrite map_size_insert_None; [lia|]. apply Hfresh. by left. }
  exists f. split_and!; [done| |].
  - intros k' v' [[= -> ->]|Hin']%elem_of_cons; [|by apply Hin]. rewrite Hout by done. apply lookup_insert_eq.
  - intros k' Hk'. apply not_elem_of_cons in Hk' as [Hne Hk']. rewrite Hout by done. by rewrite lookup_insert_ne.
Qed.

(** ** Anchors *)

Lemma String_valid h : Utf8.Valid (String h) = true.
Proof.
  apply Utf8.Valid_ascii. unfold String. eapply Forall_impl; [apply hex_encode_lower|]. intros b Hb. unfold lower_hex in Hb.
  rewrite orb_true_iff, !andb_true_iff, !Z.leb_le in Hb. lia.
Qed.

Lemma parseJSONHash_quote h : parseJSONHash (quote (String h)) = Ok h.
Proof. unfold parseJSONHash. rewrite UnmarshalString_quote by apply String_valid. cbn [mbind result_bind]. apply ParseHash_String. Qed.

Lemma parseUint_format n bits : is_u64 n -> n < 2 ^ bits -> parseUint (FormatUint n) bits = Ok n.
Proof.
  intros Hn Hb. destruct (FormatUint_spec n Hn) as [Hv (Hd & Hne & _)]. unfold parseUint.
  destruct (Z.eqb_spec (len (FormatUint n)) 0) as [E|_].
  { destruct (FormatUint n); [done|]. rewrite len_cons in E. pose proof (len_nonneg l). lia. }
  rewrite Hd, Hv. cbn [negb]. destruct (Z.leb_spec (2 ^ bits) n); [lia|done].
Qed.

(** The members that [json.Marshal] writes for an anchor. *)
Definition anchorMembers (a : TopicBlockAnchor) : list (list byte * json) :=
  [(str "topic", JString (Topic a)); (str "blockHeight", JNumber (FormatUint (BlockHeight a)));
   (str "blockHash", JString (String (BlockHash a))); (str "basmRoot", JString (String (BASMRoot a)));
   (str "admittedCount", JNumber (FormatUint (AdmittedCount a)))].

(** The fields that an object has for the decoder. *)
Definition has (f : Fields) (l : list (list byte * json)) : Prop := forall k j, (k, j) ∈ l -> f !! k = Some (render j).

(** A document that is an object with few and different keys is read completely. *)
Lemma document_object d l limits :
  validate limits = Ok tt -> Z.of_nat d <= maxNestingDepth -> membersOk d l -> NoDup l.*1 -> (length l <= 64)%nat -> len (render (JObject l)) <= MaxJSONBytes limits ->
  exists f, has f l /\ (forall k, k ∉ l.*1 -> f !! k = None) /\
    (dec ← boundedDecoder (render (JObject l)) limits; readObject dec) = Ok (f, mkDecoder [] tokenTopValue []).
Proof.
  intros Hlim Hd Hl Hnd Hlen Hsize.
  destruct (collect_Ok (rendered l) ∅) as (f & E & Hin & Hout); [by rewrite rendered_keys|intros; apply lookup_empty|by rewrite map_size_empty, length_map|].
  exists f. split_and!.
  - intros k j Hk. apply Hin. apply list_elem_of_fmap. by exists (k, j).
  - intros k Hk. rewrite Hout by (by rewrite rendered_keys). apply lookup_empty.
  - rewrite boundedDecoder_clean; [|done|done|apply (render_clean (S d)); exact Hl]. cbn [mbind result_bind].
    pose proof (readObject_render d (rendered l) [] tokenTopValue [] (rendered_ok _ _ Hl) Hd eq_refl) as Hr.
    rewrite app_nil_r in Hr. unfold NewDecoder. cbn [render]. rewrite Hr, E. done.
Qed.

(** C33.  Anchors survive JSON.  A document whose members are those that json.Marshal
    writes for a valid anchor, in any order and among any other members with different
    names, up to 64 in all and within the byte limit, is decoded to the anchor; and
    whatever is decoded from any bytes is a valid anchor of the declared widths. *)
Theorem anchor_json a extra l d limits :
  anchor_typed a -> Validate a limits = Ok tt -> l ≡ₚ anchorMembers a ++ extra ->
  Z.of_nat d <= maxNestingDepth -> membersOk d extra -> NoDup l.*1 -> (length l <= 64)%nat ->
  len (render (JObject l)) <= MaxJSONBytes limits ->
  DecodeAnchorJSON (render (JObject l)) limits = Ok a.
Proof.
  intros (_ & Hheight & Hcount) Hvalid Hperm Hd Hextra Hnd Hlen Hsize.
  pose proof (proj1 (Validate_Ok _ _) Hvalid) as (Hlim & _ & Htopic & _). apply validate_Ok in Hlim.
  assert (Hu32 : is_u64 (BlockHeight a)) by (unfold is_u32, is_u64, MaxUint32, MaxUint64 in *; lia).
  assert (Hl : membersOk d l).
  { unfold membersOk. rewrite Hperm. apply Forall_app. split; [|done].
    repeat constructor; cbn [snd]; destruct d; cbn [wf]; auto using FormatUint_number, String_valid. }
  destruct (document_object d l limits Hlim Hd Hl Hnd Hlen Hsize) as (f & Hin & _ & E).
  unfold DecodeAnchorJSON. apply bind_Ok in E as (dec & -> & E). cbn [mbind result_bind]. rewrite E. cbn [mbind result_bind].
  assert (Hfield : forall k j, (k, j) ∈ anchorMembers a -> default [] (f !! k) = render j).
  { intros k j Hk. rewrite (Hin k j); [done|]. rewrite Hperm. apply elem_of_app. by left. }
  unfold decodeAnchorFields, field.
  rewrite (Hfield (str "topic") (JString (Topic a))) by (repeat constructor). cbn [render]. rewrite UnmarshalString_quote by done. cbn [mbind result_bind].
  rewrite (Hfield (str "blockHeight") (JNumber (FormatUint (BlockHeight a)))) by (repeat constructor). cbn [render].
  rewrite parseUint_format by (done || (unfold is_u32, MaxUint32 in Hheight; lia)). cbn [mbind result_bind].
  rewrite (Hfield (str "blockHash") (JString (String (BlockHash a)))) by (repeat constructor). cbn [render]. rewrite parseJSONHash_quote. cbn [mbind result_bind].
  rewrite (Hfield (str "basmRoot") (JString (String (BASMRoot a)))) by (repeat constructor). cbn [render]. rewrite parseJSONHash_quote. cbn [mbind result_bind].
  rewrite (Hfield (str "admittedCount") (JNumber (FormatUint (AdmittedCount a)))) by (repeat constructor). cbn [render].
  rewrite parseUint_format by (done || (unfold is_u64, MaxUint64 in Hcount; lia)). cbn [mbind result_bind].
  rewrite u32_small by done. unfold requireEOF, Decode. cbn. by destruct a; cbn in *; rewrite Hvalid.
Qed.

(** ** No input makes the decoders panic *)

Lemma readFields_safe n dec fields : consistent dec -> safe (readFields n dec fields).
Proof.
  revert dec fields. induction n as [|n IH]; intros dec fields Hc; cbn [readFields]; [done|].
  destruct (negb _); [done|]. destruct (64 <=? _); [done|]. apply safe_bind; [by apply Token_safe|]. intros t dec' Hc'.
  destruct t as [|key|]; [done| |done]. destruct (fields !! key); [done|]. apply safe_bind; [by apply Decode_safe|]. intros v dec'' Hc''. by apply IH.
Qed.

Lemma readObject_safe dec : consistent dec -> safe (readObject dec).
Proof.
  intros Hc%Token_safe. unfold readObject. destruct (Token dec) as [[[c|s|] dec']|e|]; try done. destruct (negb _); [done|].
  apply safe_bind; [by apply readFields_safe|]. intros f dec'' Hc''. apply safe_bind; [by apply Token_safe|]. by intros t dec3 Hc3.
Qed.

Lemma parseJSONHash_yields raw : yields (parseJSONHash raw) (fun _ => True).
Proof.
  unfold parseJSONHash. eapply yields_bind; [apply UnmarshalString_yields|]. intros s _.
  destruct (ParseHash_total s) as [H|H]; [by destruct (ParseHash s)|by rewrite H].
Qed.

Lemma parseUint_yields raw bits : yields (parseUint raw bits) (fun n => 0 <= n < 2 ^ bits).
Proof.
  unfold parseUint. destruct (_ =? 0); [done|]. destruct (forallb is_digit raw) eqn:Ed; [|done]. cbn [negb].
  destruct (Z.leb_spec (2 ^ bits) (value raw)); [done|]. cbn. pose proof (value_bound raw Ed). lia.
Qed.

Lemma boundedDecoder_yields data limits : yields (boundedDecoder data limits) (fun dec => consistent dec /\ validate limits = Ok tt).
Proof. unfold boundedDecoder. destruct (validate_cases limits) as [-> | ->]; [|done]. cbn. by repeat case_match. Qed.

Lemma readObject_yields dec : consistent dec -> yields (readObject dec) (fun r => consistent r.2).
Proof. intros Hc%readObject_safe. by destruct (readObject dec) as [[f dec']|e|]. Qed.

Lemma Token_yields dec : consistent dec -> yields (Token dec) (fun r => consistent r.2).
Proof. intros Hc%Token_safe. by destruct (Token dec) as [[f dec']|e|]. Qed.

Lemma requireEOF_yields dec : consistent dec -> yields (requireEOF dec) (fun _ => True).
Proof. intros Hc%Decode_safe. unfold requireEOF. by destruct (Decode dec) as [[v dec']|[]|]. Qed.

Lemma expectDelim_yields c dec : consistent dec -> yields (expectDelim c dec) consistent.
Proof. intros Hc%Token_safe. unfold expectDelim. destruct (Token dec) as [[[c'|s|] dec']|e|]; try done. by case_bool_decide. Qed.

(** The frame that the decoders of an object share. *)
Lemma object_yields {B} (data : list byte) (limits : Limits) (f : Fields -> result B) Q :
  (validate limits = Ok tt -> forall fields, yields (f fields) Q) ->
  yields (dec ← boundedDecoder data limits; '(fields, dec) ← readObject dec; requireEOF dec ≫= fun _ => f fields) Q.
Proof.
  intros Hf. eapply yields_bind; [apply boundedDecoder_yields|]. intros dec [Hc Hl].
  eapply yields_bind; [by apply readObject_yields|]. intros [fields dec'] Hc'.
  eapply yields_bind; [by apply requireEOF_yields|]. intros _ _. by apply Hf.
Qed.

Lemma DecodeAnchorJSON_yields data limits :
  yields (DecodeAnchorJSON data limits) (fun a => is_u32 (BlockHeight a) /\ is_u64 (AdmittedCount a) /\ Validate a limits = Ok tt).
Proof.
  unfold DecodeAnchorJSON. apply object_yields. intros _ fields.
  eapply (yields_bind _ _ (fun a => is_u32 (BlockHeight a) /\ is_u64 (AdmittedCount a))).
  - unfold decodeAnchorFields. eapply yields_bind; [apply UnmarshalString_yields|]. intros topic _.
    eapply yields_bind; [apply parseUint_yields|]. intros height Hh. eapply yields_bind; [apply parseJSONHash_yields|]. intros hash _.
    eapply yields_bind; [apply parseJSONHash_yields|]. intros root _. eapply yields_bind; [apply parseUint_yields|]. intros count Hc.
    cbv beta in *. unfold yields. cbn [BlockHeight AdmittedCount]. rewrite u32_small by (unfold is_u32, MaxUint32; lia). unfold is_u32, is_u64, MaxUint32, MaxUint64. lia.
  - intros a [Hh Hc]. destruct (Validate_cases a limits) as [E|[e E]]; rewrite E; done.
Qed.

Definition range_bounds (limits : Limits) (r : Z * Z) : Prop :=
  is_u32 r.1 /\ is_u32 r.2 /\ r.1 <= r.2 /\ r.2 - r.1 + 1 <= MaxRange limits.

Lemma DecodeRangeJSON_yields data limits : is_u32 (MaxRange limits) -> yields (DecodeRangeJSON data limits) (range_bounds limits).
Proof.
  intros Hr. unfold DecodeRangeJSON. apply object_yields. intros _ fields.
  eapply yields_bind; [apply parseUint_yields|]. intros from Hf. eapply yields_bind; [apply parseUint_yields|]. intros to Ht. cbv beta in *.
  assert (is_u32 from /\ is_u32 to) as [Uf Ut] by (unfold is_u32, MaxUint32; lia). rewrite !u32_small by done.
  rewrite ValidateRange_counts by done. case_decide; [done|]. case_decide; [|done]. cbn. unfold range_bounds. cbn. split_and!; (done || lia).
Qed.

(** ** The requests of the read service *)

Lemma readTxIDs_yields n dec maxCount txids :
  consistent dec -> NoDup txids -> len txids <= maxCount ->
  yields (readTxIDs n dec maxCount txids) (fun r => consistent r.2 /\ NoDup r.1 /\ len r.1 <= maxCount).
Proof.
  revert dec txids. induction n as [|n IH]; intros dec txids Hc Hnd Hlen; cbn [readTxIDs]; [done|].
  destruct (negb _); [done|]. destruct (Z.leb_spec maxCount (len txids)); [done|].
  eapply (yields_bind _ _ (fun r => consistent r.2)); [apply Decode_safe in Hc; by destruct (Decode dec) as [[v dec']|e|]|]. intros [item dec'] Hc'.
  eapply yields_bind; [apply parseJSONHash_yields|]. intros hash _. case_bool_decide; [done|]. apply IH; [done| |].
  - apply NoDup_app. split_and!; [done| |apply NoDup_singleton]. intros h Hh ->%list_elem_of_singleton. done.
  - rewrite len_app. change (len [hash]) with 1. lia.
Qed.

Lemma decodeRequestedTxIDs_yields raw maxCount required :
  0 <= maxCount ->
  yields (decodeRequestedTxIDs raw maxCount required) (fun txids => NoDup txids /\ len txids <= maxCount /\ (required = true -> txids <> [])).
Proof.
  intros Hmax. unfold decodeRequestedTxIDs. eapply yields_bind; [by apply expectDelim_yields|]. intros dec Hc.
  eapply yields_bind; [apply readTxIDs_yields; [done|constructor|done]|]. intros [txids dec'] (Hc' & Hnd & Hlen).
  eapply yields_bind; [by apply Token_yields|]. intros [t dec''] Hc''. eapply yields_bind; [by apply requireEOF_yields|]. intros _ _.
  destruct required; cbn [andb]; [|by cbn]. destruct (Z.eqb_spec (len txids) 0) as [|Hne]; [done|]. cbn. split_and!; [done..|]. by intros _ ->.
Qed.

(** What a request that was accepted is within. *)
Definition request_bounds (k : kind) (limits : ReadLimits) (r : ReadRequest) : Prop :=
  is_u32 (FromHeight r) /\ is_u32 (ToHeight r) /\ is_u32 (reqHeight r) /\
  NoDup (reqTxIDs r) /\ len (reqTxIDs r) <= MaxRequestedTxIDs limits /\
  match k with
  | Range => range_bounds (baseLimits limits) (FromHeight r, ToHeight r)
  | Proof_ => reqTxIDs r <> []
  | OtherKind => False
  | _ => True
  end.

Lemma DecodeReadRequest_yields data k limits :
  is_u32 (MaxRange (baseLimits limits)) -> is_u32 (MaxRequestedTxIDs limits) ->
  yields (DecodeReadRequest data k limits) (request_bounds k limits).
Proof.
  intros Hr Hmax. unfold DecodeReadRequest.
  assert (Hbind : yields (ValidateReadLimits limits) (fun _ => True)).
  { unfold ValidateReadLimits. destruct (validate_cases (baseLimits limits)) as [-> | ->]; [|done]. cbn. by case_match. }
  eapply yields_bind; [exact Hbind|]. intros _ _. cbv zeta. apply object_yields. intros _ fields.
  assert (Hzero : is_u32 0) by (unfold is_u32, MaxUint32; lia). pose proof (proj1 Hmax) as Hmax0.
  assert (Htx : forall height required, is_u32 height -> (k = Proof_ -> required = true) -> k <> Range -> k <> OtherKind ->
    yields (txids ← decodeRequestedTxIDs (field fields "txids") (MaxRequestedTxIDs limits) required; Ok (mkReadRequest 0 0 height None txids)) (request_bounds k limits)).
  { intros height required Hh Hreq Hk1 Hk2. eapply yields_bind; [by apply decodeRequestedTxIDs_yields|]. intros txids (Hnd & Hlen & Hne).
    unfold request_bounds. cbn. split_and!; try done. destruct k; try done. auto. }
  destruct k; cbn [decodeRequestFields].
  - cbn. split_and!; try done. constructor.
  - eapply yields_bind; [by apply DecodeRangeJSON_yields|]. intros [from to] (Hf & Ht & Hle & Hcount). cbn in *. split_and!; try done. constructor.
  - eapply yields_bind; [apply parseUint_yields|]. intros height Hh. cbv beta in *. assert (is_u32 height) by (unfold is_u32, MaxUint32; lia).
    eapply (yields_bind _ _ (fun _ => True)).
    { destruct (fields !! str "blockHash") as [raw|]; [|done]. pose proof (parseJSONHash_yields raw) as Hp. by destruct (parseJSONHash raw). }
    intros hash _. rewrite u32_small by done. cbn. split_and!; try done. constructor.
  - eapply yields_bind; [apply parseUint_yields|]. intros height Hh. cbv beta in *. assert (is_u32 height) by (unfold is_u32, MaxUint32; lia).
    rewrite u32_small by done. by apply Htx.
  - by apply Htx.
  - done.
Qed.

(** ** Admitted lists *)

Definition ref_typed (r : AdmittedTxRef) : Prop := 0 <= BlockIndex r <= MaxSafeJSONInteger.

Lemma readAdmittedItem_yields dec : consistent dec -> yields (readAdmittedItem dec) (fun r => consistent r.2 /\ ref_typed r.1).
Proof.
  intros Hc. unfold readAdmittedItem. eapply yields_bind; [by apply readObject_yields|]. intros [fields dec'] Hc'.
  eapply yields_bind; [apply parseJSONHash_yields|]. intros txid _. pose proof (parseUint_yields (field fields "blockIndex") 64) as Hi.
  destruct (parseUint _ 64) as [index|e|]; [|done..]. cbn in Hi. destruct (Z.ltb_spec MaxSafeJSONInteger index); [done|]. cbn. unfold ref_typed. cbn. split; [done|lia].
Qed.

Lemma readAdmittedArray_polls n dec limits admitted :
  consistent dec -> Forall ref_typed admitted ->
  polls (readAdmittedArray n dec limits admitted) (fun r => consistent r.2 /\ Forall ref_typed r.1).
Proof.
  revert dec admitted. induction n as [|n IH]; intros dec admitted Hc Hl; cbn [readAdmittedArray]; [by apply polls_pure|].
  destruct (negb _); [by intros c Hab|]. eapply polls_bind; [apply polls_poll|]. intros _ _. destruct (_ <=? _); [by apply polls_pure|].
  eapply polls_bind; [apply polls_pure; by apply readAdmittedItem_yields|]. intros [ref dec'] [Hc' Hr]. apply IH; [done|].
  apply Forall_app. split; [done|]. by constructor.
Qed.

Lemma ValidateAdmittedList_polls admitted n limits :
  polls (ValidateAdmittedList admitted n limits) (fun _ => admitted_ok n admitted /\ len admitted <= MaxAdmitted limits).
Proof.
  intros c Hc. destruct (ValidateAdmittedList_computes admitted n limits c Hc) as (_ & Hv & _ & Ha). split; [done|].
  destruct Hv as [-> | ->]; [|done]. unfold admitted_spec, root_spec. repeat (case_decide || case_match); try done; cbn; split; try done; lia.
Qed.

Lemma DecodeAdmittedListJSON_yields data n limits c :
  yields (fst (DecodeAdmittedListJSON data n limits c)) (fun l => Forall ref_typed l /\ admitted_ok n l /\ len l <= MaxAdmitted limits).
Proof.
  unfold DecodeAdmittedListJSON. destruct (absent c) eqn:Hc.
  { unfold mbind, polling_bind, require_ctx. by rewrite Hc. }
  assert (Hp : polls (require_ctx ErrInvalidInput) (fun _ => True)) by (intros c' Hc'; unfold require_ctx; by rewrite Hc').
  revert c Hc. enough (Hall : polls (DecodeAdmittedListJSON data n limits) (fun l => Forall ref_typed l /\ admitted_ok n l /\ len l <= MaxAdmitted limits))
    by (intros c Hc; exact (proj2 (Hall c Hc))). unfold DecodeAdmittedListJSON.
  eapply polls_bind; [exact Hp|]. intros _ _. eapply polls_bind; [apply polls_poll|]. intros _ _.
  eapply polls_bind; [apply polls_pure, boundedDecoder_yields|]. intros dec [Hd _].
  eapply polls_bind; [apply polls_pure; by apply expectDelim_yields|]. intros dec1 Hd1.
  eapply polls_bind; [by apply readAdmittedArray_polls|]. intros [admitted dec2] [Hd2 Hl].
  eapply polls_bind; [apply polls_pure; by apply Token_yields|]. intros [t dec3] Hd3.
  eapply polls_bind; [apply polls_pure; by apply requireEOF_yields|]. intros _ _.
  eapply polls_bind; [apply ValidateAdmittedList_polls|]. intros _ [Hok Hlen]. by intros c Hc.
Qed.

(** C35.  The JSON decoders are safe on any bytes: none of them panics, and what they accept
    is checked.  An anchor has fields of the declared widths and is valid; a range is
    within 32 bits, not inverted and within the limit; an admitted list has safe integers
    as indices, strictly increasing and within the block, no repeated transaction, and
    respects the limit; a request is of a known kind, its identifiers are distinct and
    within the limit (at least one for proofs), and its range respects the limit. *)
Theorem json_decoders_safe data limits reading n k c :
  is_u32 (MaxRange limits) -> is_u32 (MaxRange (baseLimits reading)) -> is_u32 (MaxRequestedTxIDs reading) ->
  yields (DecodeAnchorJSON data limits) (fun a => is_u32 (BlockHeight a) /\ is_u64 (AdmittedCount a) /\ Validate a limits = Ok tt) /\
  yields (DecodeRangeJSON data limits) (range_bounds limits) /\
  yields (fst (DecodeAdmittedListJSON data n limits c)) (fun l => Forall ref_typed l /\ admitted_ok n l /\ len l <= MaxAdmitted limits) /\
  yields (DecodeReadRequest data k reading) (request_bounds k reading).
Proof.
  intros Hr Hr' Hmax. split_and!;
    [apply DecodeAnchorJSON_yields|by apply DecodeRangeJSON_yields|apply DecodeAdmittedListJSON_yields|by apply DecodeReadRequest_yields].
Qed.

(** ** What the check of the escapes decides *)

(** [denotes t d]: the contents [t] of a string literal have the meaning [d] (UTF-8): the
    characters stand for themselves, the escapes for their character, and surrogates
    only occur in pairs. *)
Inductive denotes : list byte -> list byte -> Prop :=
  | denotes_nil : denotes [] []
  | denotes_raw c s d :
      c <> Byte.x22 -> c <> Byte.x5c -> 32 <= val c -> (0 < Utf8.width (c :: s))%nat ->
      denotes (drop (Utf8.width (c :: s)) (c :: s)) d -> denotes (c :: s) (take (Utf8.width (c :: s)) (c :: s) ++ d)
  | denotes_escape e b s d : escaped e = Some b -> denotes s d -> denotes (Byte.x5c :: e :: s) (b :: d)
  | denotes_unit s r t d :
      hex4 s = Some (r, t) -> surrogate r = false -> denotes t d -> denotes (Byte.x5c :: Byte.x75 :: s) (Utf8.EncodeRune r ++ d)
  | denotes_pair s high s' low t d :
      hex4 s = Some (high, Byte.x5c :: Byte.x75 :: s') -> highSurrogate high = true ->
      hex4 s' = Some (low, t) -> lowSurrogate low = true -> denotes t d ->
      denotes (Byte.x5c :: Byte.x75 :: s) (Utf8.EncodeRune ((high - 0xD800) * 1024 + (low - 0xDC00) + 0x10000) ++ d).

Lemma surrogate_split r : surrogate r = highSurrogate r || lowSurrogate r.
Proof. unfold surrogate, highSurrogate, lowSurrogate. apply eq_true_iff_eq. rewrite orb_true_iff, !andb_true_iff, !Z.leb_le. lia. Qed.

Lemma high_not_low r : highSurrogate r = true -> lowSurrogate r = false.
Proof. unfold highSurrogate, lowSurrogate. rewrite andb_true_iff, andb_false_iff, !Z.leb_le, !Z.leb_gt. lia. Qed.

Lemma denotes_unquote t d : denotes t d -> forall n, (length t <= n)%nat -> unquoteLoop n t = d.
Proof.
  induction 1 as [|c s d Hc1 Hc2 Hc3 Hw _ IH|e b s d He _ IH|s r t d Hh Hs _ IH|s high s' low t d Hh Hhigh Hl Hlow _ IH];
    intros n Hn; (destruct n as [|n]; [done || (simpl in Hn; lia)|]); cbn [unquoteLoop].
  - done.
  - rewrite bool_decide_false by done. pose proof (length_drop (c :: s) (Utf8.width (c :: s))) as Hd.
    destruct (Utf8.width (c :: s)) as [|w]; [lia|]. f_equal. apply IH. rewrite Hd. cbn [length] in *. lia.
  - rewrite bool_decide_true by done. rewrite bool_decide_false by (intros ->; done). rewrite He. f_equal. apply IH. cbn [length] in Hn. lia.
  - rewrite !bool_decide_true by done. rewrite Hh, Hs. f_equal. apply IH. apply hex4_length in Hh. cbn [length snd] in *. lia.
  - rewrite !bool_decide_true by done. rewrite Hh, surrogate_split, Hhigh. cbn [orb pairedWith].
    rewrite !bool_decide_true by done. cbn [andb]. rewrite Hl. cbn [mbind option_bind]. rewrite Hhigh, Hlow. cbn [andb]. f_equal. apply IH.
    apply hex4_length in Hh, Hl. cbn [length snd] in *. lia.
Qed.

Definition SE (b : bool) (s : list byte) : bool := scanEscapes (length s) b s.

Lemma SE_cons b c s :
  SE b (c :: s) =
    if isb Byte.x22 c then SE (negb b) s
    else if negb b || negb (isb Byte.x5c c) then SE b s
    else match s with
         | [] => true
         | e :: s2 =>
             if negb (isb Byte.x75 e) then SE b s2
             else match consumeUnicodeEscape s2 with None => false | Some s3 => SE b s3 end
         end.
Proof.
  unfold SE at 1. cbn [length scanEscapes]. case_bool_decide; [by apply scanEscapes_fuel|]. destruct (_ || _); [by apply scanEscapes_fuel|].
  destruct s as [|e s2]; [done|]. destruct (negb _); [apply scanEscapes_fuel; simpl; lia|].
  destruct (consumeUnicodeEscape s2) as [s3|] eqn:E; [|done]. apply consume_length in E. apply scanEscapes_fuel; simpl; lia.
Qed.

Lemma hex4_app s r t x : hex4 s = Some (r, t) -> hex4 (s ++ x) = Some (r, t ++ x).
Proof.
  destruct s as [|a [|b [|c [|d s]]]]; try done. cbn [app hex4].
  destruct (from_hex_char a), (from_hex_char b), (from_hex_char c), (from_hex_char d); simpl; try done. by intros [= <- <-].
Qed.

(** The contents of a literal, as the scanner accepts them. *)
Inductive contents : list byte -> Prop :=
  | contents_nil : contents []
  | contents_plain c s : c <> Byte.x22 -> c <> Byte.x5c -> 32 <= val c -> contents s -> contents (c :: s)
  | contents_escape e b s : escaped e = Some b -> contents s -> contents (Byte.x5c :: e :: s)
  | contents_unit s r t : hex4 s = Some (r, t) -> contents t -> contents (Byte.x5c :: Byte.x75 :: s).

Lemma stringBody_contents n s body rest :
  (length s <= n)%nat -> stringBody s = Some (body, rest) -> contents body /\ s = body ++ Byte.x22 :: rest.
Proof.
  revert s body. induction n as [|n IH]; intros s body Hn E; [by destruct s; [|simpl in Hn; lia]|].
  destruct s as [|c s1]; [done|]. cbn [length stringBody] in *. case_bool_decide as H1; [injection E as <- <-; subst; split; [constructor|done]|].
  case_bool_decide as H2.
  - subst c. destruct s1 as [|e s2]; [done|]. cbn [length] in Hn. case_bool_decide as H3.
    + subst e. destruct s2 as [|a [|b [|c [|d s3]]]]; try done. cbn [length] in Hn. destruct (hex4 [a; b; c; d]) as [[r t]|] eqn:Eh; [|done].
      destruct (stringBody s3) as [[body' rest']|] eqn:Eb; [|done]. cbn [mbind option_bind] in E. injection E as <- <-.
      destruct (IH s3 body' ltac:(lia) Eb) as [Hc ->]. split; [|done].
      assert (t = []) as -> by (apply hex4_length in Eh; cbn in Eh; destruct t; [done|simpl in Eh; lia]).
      apply (contents_unit _ r body'); [|done]. apply (hex4_app _ _ _ body' Eh).
    + destruct (escaped e) as [b|] eqn:Ee; [|done]. destruct (stringBody s2) as [[body' rest']|] eqn:Eb; [|done]. cbn [mbind option_bind] in E.
      injection E as <- <-. destruct (IH s2 body' ltac:(lia) Eb) as [Hc ->]. split; [by eapply contents_escape|done].
  - destruct (Z.ltb_spec (val c) 32); [done|]. destruct (stringBody s1) as [[body' rest']|] eqn:Eb; [|done]. cbn [mbind option_bind] in E.
    injection E as <- <-. destruct (IH s1 body' ltac:(lia) Eb) as [Hc ->]. split; [by apply contents_plain|done].
Qed.

Lemma contents_high g s : Forall (fun c => 128 <= val c) g -> contents (g ++ s) -> contents s.
Proof.
  induction 1 as [|c g Hc _ IH]; [done|]. intros Hg. apply IH. cbn [app] in Hg.
  inversion Hg as [|c' s' _ _ _ Hs|e b s' He Hs|s' r t' Hh Hs]; subst; [done|exfalso; revert Hc; by vm_compute..].
Qed.

Lemma SE_high g s : Forall (fun c => 128 <= val c) g -> SE true (g ++ s) = SE true s.
Proof. intros Hg. apply balanced_high; [done|lia]. Qed.

Lemma escaped_not_u : escaped Byte.x75 = None.
Proof. reflexivity. Qed.

Lemma hex4_valid s r t : hex4 s = Some (r, t) -> Utf8.Valid s = true -> Utf8.Valid t = true.
Proof.
  destruct s as [|a [|b [|c [|d s]]]]; try done. cbn [hex4].
  assert (Hhex : forall x, (val x <? 128) = false -> from_hex_char x = None).
  { intros x Hx. unfold from_hex_char. apply Z.ltb_ge in Hx. repeat (rewrite andb_false_intro2; [|apply Z.leb_gt; lia]). done. }
  cbn [Utf8.Valid]. change 0x80 with 128.
  destruct (val a <? 128) eqn:Ea; [|by rewrite (Hhex a Ea)]. destruct (from_hex_char a); [|done].
  destruct (val b <? 128) eqn:Eb; [|by rewrite (Hhex b Eb)]. destruct (from_hex_char b); [|done].
  destruct (val c <? 128) eqn:Ec; [|by rewrite (Hhex c Ec)]. destruct (from_hex_char c); [|done].
  destruct (val d <? 128) eqn:Ed; [|by rewrite (Hhex d Ed)]. destruct (from_hex_char d); [|done].
  by intros [= _ <-].
Qed.

(** One step of both, for an escape of four digits. *)
Lemma unit_step s r t :
  hex4 s = Some (r, t) ->
  SE true (Byte.x5c :: Byte.x75 :: s ++ [Byte.x22]) =
    if lowSurrogate r then false
    else if negb (highSurrogate r) then SE true (t ++ [Byte.x22])
    else match t with
         | c :: e :: s2 =>
             if negb (isb Byte.x5c c) || negb (isb Byte.x75 e) then false
             else match hex4 (s2 ++ [Byte.x22]) with
                  | Some (low, s3) => if lowSurrogate low then SE true s3 else false
                  | None => false
                  end
         | _ => false
         end.
Proof.
  intros Hh. rewrite SE_cons. rewrite bool_decide_false, bool_decide_true by done. cbn [negb orb]. rewrite bool_decide_true by done. cbn [negb].
  unfold consumeUnicodeEscape. rewrite (hex4_app _ _ _ [Byte.x22] Hh). cbn [mbind option_bind]. destruct (lowSurrogate r); [done|].
  destruct (highSurrogate r); cbn [negb]; [|done]. destruct t as [|c [|e s2]]; cbn [app]; [done| |].
  - by rewrite (bool_decide_false (Byte.x22 = Byte.x75)), orb_true_r by done.
  - destruct (_ || _); [done|]. destruct (hex4 (s2 ++ [Byte.x22])) as [[low s3]|]; [|done]. cbn [mbind option_bind]. by destruct (lowSurrogate low).
Qed.

(** The check accepts exactly the literals with a meaning. *)
Lemma escapes_decide n body :
  (length body <= n)%nat -> contents body -> Utf8.Valid body = true ->
  SE true (body ++ [Byte.x22]) = true <-> exists d, denotes body d.
Proof.
  revert body. induction n as [|n IH]; intros body Hn Hb Hv.
  { destruct body; [|simpl in Hn; lia]. split; [exists []; constructor|done]. }
  destruct Hb as [|c s H1 H2 H3 Hs|e b s He Hs|s r t Hh Ht]; cbn [length] in Hn.
  - split; [exists []; constructor|done].
  - destruct (Utf8.Valid_width (c :: s) Hv ltac:(done)) as [Hw Hv']. set (w := Utf8.width (c :: s)) in *.
    assert (Hdrop : contents (drop w (c :: s)) /\ SE true ((c :: s) ++ [Byte.x22]) = SE true (drop w (c :: s) ++ [Byte.x22])).
    { destruct (Z.ltb_spec (val c) 128) as [Hc|Hc].
      - assert (w = 1%nat) as -> by (unfold w; cbn [Utf8.width]; rewrite (proj2 (Z.ltb_lt _ _) Hc); done). cbn [drop]. split; [done|].
        cbn [app]. rewrite SE_cons, !bool_decide_false by done. done.
      - pose proof (width_high c s Hc) as Hh. fold w in Hh. split; [apply (contents_high _ _ Hh); rewrite take_drop; by constructor|].
        rewrite <- (take_drop w (c :: s)) at 1. rewrite <- app_assoc. by apply SE_high. }
    destruct Hdrop as [Hd ->]. rewrite IH by (done || (rewrite length_drop; cbn [length] in *; lia)). split; intros [d Hden].
    + exists (take w (c :: s) ++ d). destruct Hw as [Hw _]. by apply denotes_raw.
    + inversion Hden as [|c' s' d' _ _ _ _ Hd'|e b s' d' He Hd'|s' r t' d' Hh Hsr Hd'|s' hi s2 lo t' d' Hh Hhi Hl Hlo Hd']; subst; try done. by exists d'.
  - assert (e <> Byte.x75) as Heu by (intros ->; done).
    assert (Hse : SE true (Byte.x5c :: e :: s ++ [Byte.x22]) = SE true (s ++ [Byte.x22])).
    { rewrite SE_cons. rewrite bool_decide_false, bool_decide_true by done. cbn [negb orb]. by rewrite bool_decide_false. }
    cbn [app]. rewrite Hse. cbn [Utf8.Valid] in Hv. change (val Byte.x5c <? 128) with true in Hv. cbv iota in Hv.
    assert (Hvs : Utf8.Valid s = true).
    { assert (val e < 128) as Hlt. { unfold escaped in He. destruct (Z.ltb_spec (val e) 128); [done|exfalso]. destruct e; try done; revert H; by vm_compute. }
      by rewrite (proj2 (Z.ltb_lt _ _) Hlt) in Hv. }
    rewrite IH by (done || lia). split; intros [d Hden].
    + eexists. by eapply denotes_escape.
    + inversion Hden as [|c' s' d' _ ? _ _ Hd'|e' b' s' d' He' Hd'|s' r t' d' Hh Hsr Hd'|s' hi s2 lo t' d' Hh Hhi Hl Hlo Hd']; subst; try done. by exists d'.
  - cbn [app]. rewrite (unit_step s r t Hh). pose proof (hex4_length _ _ Hh) as Hlen. cbn [snd] in Hlen.
    cbn [Utf8.Valid] in Hv. change (val Byte.x5c <? 128) with true in Hv. change (val Byte.x75 <? 128) with true in Hv. cbv iota in Hv.
    assert (Hvt : Utf8.Valid t = true) by (by apply (hex4_valid s r)).
    assert (Hinv : forall d, denotes (Byte.x5c :: Byte.x75 :: s) d ->
      (surrogate r = false /\ exists d', denotes t d') \/
      (highSurrogate r = true /\ exists s' low t' d', t = Byte.x5c :: Byte.x75 :: s' /\ hex4 s' = Some (low, t') /\ lowSurrogate low = true /\ denotes t' d')).
    { intros d Hden. inversion Hden as [|c' s' d' _ ? _ _ Hd'|e' b' s' d' He' Hd'|s' r' t' d' Hh' Hsr Hd'|s' hi s2 lo t' d' Hh' Hhi Hl Hlo Hd']; subst; try done.
      - rewrite Hh in Hh'. injection Hh' as <- <-. left. eauto.
      - rewrite Hh in Hh'. injection Hh' as <- ->. right. split; [done|]. by exists s2, lo, t', d'. }
    destruct (lowSurrogate r) eqn:Elow.
    { split; [done|]. intros [d Hden]. apply Hinv in Hden as [[Hs _]|[Hhi _]]; [by rewrite surrogate_split, Elow, orb_true_r in Hs|by rewrite (high_not_low _ Hhi) in Elow]. }
    destruct (highSurrogate r) eqn:Ehigh; cbn [negb].
    + destruct Ht as [|c' s' ? ? ? ?|e' b' s' He' Hs'|s' low t' Hh' Ht'].
      * split; [done|]. intros [d Hden]. apply Hinv in Hden as [[Hs _]|(_ & s' & low & t' & d' & ? & _)]; [by rewrite surrogate_split, Ehigh in Hs|done].
      * destruct s' as [|e' s2]; [|rewrite (bool_decide_false (c' = Byte.x5c)) by done; cbn [negb orb]]; (split; [done|]); intros [d Hden];
          apply Hinv in Hden as [[Hs _]|(_ & s3 & low & t' & d' & Et & _)]; try (by rewrite surrogate_split, Ehigh in Hs); by simplify_eq.
      * rewrite bool_decide_true by done. cbn [negb orb]. rewrite bool_decide_false by (intros ->; done). cbn [negb]. split; [done|]. intros [d Hden].
        apply Hinv in Hden as [[Hs _]|(_ & s3 & low & t' & d' & Et & _)]; [by rewrite surrogate_split, Ehigh in Hs|]. by simplify_eq.
      * rewrite !bool_decide_true by done. cbn [negb orb]. rewrite (hex4_app _ _ _ [Byte.x22] Hh').
        pose proof (hex4_length _ _ Hh') as Hlen'. cbn [snd length] in *. destruct (lowSurrogate low) eqn:El.
        -- rewrite IH; [|lia|done|]. 2: { cbn [Utf8.Valid] in Hvt. change (val Byte.x5c <? 128) with true in Hvt. change (val Byte.x75 <? 128) with true in Hvt. by apply (hex4_valid s' low). }
           split; intros [d Hden]; [eexists; by eapply denotes_pair|].
           apply Hinv in Hden as [[Hs _]|(_ & s3 & low' & t2 & d' & Et & Hh2 & _ & Hd')]; [by rewrite surrogate_split, Ehigh in Hs|]. simplify_eq. by exists d'.
        -- split; [done|]. intros [d Hden]. apply Hinv in Hden as [[Hs _]|(_ & s3 & low' & t2 & d' & Et & Hh2 & Hlo & _)]; [by rewrite surrogate_split, Ehigh in Hs|].
           simplify_eq. congruence.
    + rewrite IH by (done || lia). split; intros [d Hden].
      * eexists. eapply denotes_unit; [done|by rewrite surrogate_split, Ehigh, Elow|done].
      * apply Hinv in Hden as [[_ ?]|[? _]]; [done|done].
Qed.

(** C34.  What the check of the escapes is for.  On the text of a string literal that the
    scanner of encoding/json accepts, [validUnicodeEscapes] answers true exactly if the
    literal has a meaning, that is, if every surrogate is one half of a pair; and then
    encoding/json decodes the literal to that meaning.  No name that passes the check
    is changed by the replacement of lone surrogates. *)
Theorem unicode_escapes_lossless s body rest :
  stringBody s = Some (body, rest) -> Utf8.Valid body = true ->
  (validUnicodeEscapes (Byte.x22 :: body ++ [Byte.x22]) = true <-> exists d, denotes body d) /\
  forall d, denotes body d -> unquote body = d.
Proof.
  intros Hs Hv. destruct (stringBody_contents (length s) s body rest ltac:(done) Hs) as [Hc _]. split.
  - rewrite <- (escapes_decide (length body) body ltac:(done) Hc Hv). unfold validUnicodeEscapes.
    change (scanEscapes _ false _) with (SE false (Byte.x22 :: body ++ [Byte.x22])). rewrite SE_cons. by rewrite bool_decide_true.
  - intros d Hd. by apply (denotes_unquote _ _ Hd).
Qed.

(** ** Requests survive *)

Definition hashText (h : Hash) : json := JString (String h).

(** The members of a request of a kind. *)
Definition requestMembers (k : kind) (r : ReadRequest) : list (list byte * json) :=
  match k with
  | Range => [(str "fromHeight", JNumber (FormatUint (FromHeight r))); (str "toHeight", JNumber (FormatUint (ToHeight r)))]
  | List => (str "blockHeight", JNumber (FormatUint (reqHeight r))) :: match reqHash r with Some h => [(str "blockHash", hashText h)] | None => [] end
  | Proof_ => [(str "blockHeight", JNumber (FormatUint (reqHeight r))); (str "txids", JArray (map hashText (reqTxIDs r)))]
  | Raw => [(str "txids", JArray (map hashText (reqTxIDs r)))]
  | Tip | OtherKind => []
  end.

(** A request holds nothing but what its kind sends. *)
Definition request_shape (k : kind) (r : ReadRequest) : Prop :=
  match k with
  | Tip => r = emptyRequest
  | Range => r = mkReadRequest (FromHeight r) (ToHeight r) 0 None []
  | List => r = mkReadRequest 0 0 (reqHeight r) (reqHash r) []
  | Proof_ => r = mkReadRequest 0 0 (reqHeight r) None (reqTxIDs r)
  | Raw => r = mkReadRequest 0 0 0 None (reqTxIDs r)
  | OtherKind => False
  end.

Abbreviation hashes l := (map (fun h => quote (String h)) l).

Lemma hashes_value l : Forall (isValue 0) (hashes l).
Proof. apply Forall_map, Forall_true. intros h. apply quote_value, String_valid. Qed.

(** What the decoder of an array of identifiers still has before it. *)
Definition elementsLeft (st : tokenState) (l : list Hash) (rest : list byte) : list byte :=
  match st, l with
  | tokenArrayComma, _ :: _ => Byte.x2c :: comma (hashes l) ++ Byte.x5d :: rest
  | _, _ => comma (hashes l) ++ Byte.x5d :: rest
  end.

Lemma Decode_element h l st rest stk :
  st = tokenArrayStart \/ st = tokenArrayComma ->
  Decode (mkDecoder (elementsLeft st (h :: l) rest) st stk) = Ok (quote (String h), mkDecoder (elementsLeft tokenArrayComma l rest) tokenArrayComma stk).
Proof.
  intros Hst. pose proof (quote_value (String h) (String_valid h)) as Hv.
  assert (Etext : comma (hashes (h :: l)) ++ Byte.x5d :: rest = quote (String h) ++ elementsLeft tokenArrayComma l rest).
  { cbn [map]. rewrite comma_cons. unfold elementsLeft. by destruct l. }
  assert (Hends : ends (elementsLeft tokenArrayComma l rest)) by (unfold elementsLeft; destruct l; apply ends_punctuation; auto).
  pose proof (readValue_render 0 _ _ Hv ltac:(done) Hends) as Hread.
  assert (Hprep : tokenPrepareForDecode (mkDecoder (elementsLeft st (h :: l) rest) st stk) =
    Ok (mkDecoder (quote (String h) ++ elementsLeft tokenArrayComma l rest) (match st with tokenArrayComma => tokenArrayValue | _ => st end) stk)).
  { unfold tokenPrepareForDecode. cbn [state buf stack]. destruct Hst as [-> | ->]; unfold elementsLeft at 1; rewrite Etext; [done|].
    rewrite skipSpace_cons by done. by rewrite bool_decide_true. }
  unfold Decode. rewrite Hprep. cbn [mbind result_bind state buf stack]. rewrite (skipSpace_starts _ _ (value_starts _ _ Hv)).
  destruct (quote (String h)) as [|c v]; [by destruct (value_starts _ _ Hv)|]. cbn [app] in *. rewrite Hread.
  by destruct Hst as [-> | ->].
Qed.

Lemma readTxIDs_render l n st txids maxCount rest stk :
  st = tokenArrayStart \/ st = tokenArrayComma -> NoDup (txids ++ l) -> len (txids ++ l) <= maxCount -> (length l < n)%nat ->
  readTxIDs n (mkDecoder (elementsLeft st l rest) st stk) maxCount txids =
    Ok (txids ++ l, mkDecoder (Byte.x5d :: rest) (match l with [] => st | _ => tokenArrayComma end) stk).
Proof.
  revert n st txids. induction l as [|h l IH]; intros n st txids Hst Hnd Hlen Hn; (destruct n as [|n]; [simpl in Hn; lia|]); cbn [readTxIDs].
  { rewrite app_nil_r. by destruct Hst as [-> | ->]. }
  assert (HMore : More (mkDecoder (elementsLeft st (h :: l) rest) st stk) = true).
  { unfold More, elementsLeft. cbn [buf map]. destruct Hst as [-> | ->]; [|by rewrite skipSpace_cons]. rewrite comma_cons. unfold quote. by rewrite <- app_comm_cons, skipSpace_cons. }
  rewrite HMore. cbn [negb]. rewrite len_app, len_cons in Hlen. pose proof (len_nonneg l). destruct (Z.leb_spec maxCount (len txids)); [lia|].
  rewrite Decode_element by done. cbn [mbind result_bind]. rewrite parseJSONHash_quote. cbn [mbind result_bind].
  assert (Hh : h ∉ txids) by (apply NoDup_app in Hnd as (_ & Hd & _); intros Hin; apply (Hd h Hin); by left).
  rewrite bool_decide_false by done. rewrite (IH n tokenArrayComma (txids ++ [h])).
  - rewrite <- app_assoc. by destruct l.
  - by right.
  - by rewrite <- app_assoc.
  - rewrite <- app_assoc, len_app, len_app. change (len [h]) with 1. lia.
  - simpl in Hn. lia.
Qed.

Lemma decodeRequestedTxIDs_render l maxCount required :
  NoDup l -> len l <= maxCount -> (required = true -> l <> []) ->
  decodeRequestedTxIDs (render (JArray (map hashText l))) maxCount required = Ok l.
Proof.
  intros Hnd Hlen Hreq. assert (Etext : render (JArray (map hashText l)) = Byte.x5b :: elementsLeft tokenArrayStart l []).
  { unfold elementsLeft. cbn [render]. unfold array. rewrite map_map. done. }
  rewrite Etext. unfold decodeRequestedTxIDs, expectDelim, NewDecoder.
  assert (HToken : Token (mkDecoder (Byte.x5b :: elementsLeft tokenArrayStart l []) tokenTopValue []) =
    Ok (Delim Byte.x5b, mkDecoder (elementsLeft tokenArrayStart l []) tokenArrayStart [tokenTopValue])) by done.
  rewrite HToken, bool_decide_true by done. cbn [mbind result_bind buf].
  assert (Hlong : (length l <= length (elementsLeft tokenArrayStart l []))%nat).
  { unfold elementsLeft. rewrite length_app. pose proof (comma_length (hashes l)) as Hc. rewrite length_map in Hc. enough (length l <= length (comma (hashes l)) + 0)%nat by lia.
    apply Hc. intros v (h & -> & _)%list_elem_of_fmap. done. }
  rewrite readTxIDs_render by (auto; cbn [app]; done || lia). cbn [mbind result_bind app].
  assert (Hclose : forall st, st = tokenArrayStart \/ st = tokenArrayComma -> Token (mkDecoder [Byte.x5d] st [tokenTopValue]) = Ok (Delim Byte.x5d, mkDecoder [] tokenTopValue []))
    by (by intros st [-> | ->]).
  rewrite Hclose by (destruct l; auto). cbn [mbind result_bind]. unfold requireEOF, Decode. cbn [tokenPrepareForDecode mbind result_bind skipSpace buf state].
  cbn [negb tokenValueAllowed]. destruct required; cbn [andb]; [|done]. destruct l; [by destruct (Hreq eq_refl)|]. rewrite len_cons. pose proof (len_nonneg l).
  destruct (Z.eqb_spec (len l + 1) 0); [lia|]. destruct (Z.eqb_spec (1 + len l) 0); [lia|done].
Qed.

Lemma ValidateReadLimits_bound limits :
  ValidateReadLimits limits = Ok tt ->
  validate (mkLimits (MaxAdmitted (baseLimits limits)) (MaxRange (baseLimits limits)) (MaxRequestBytes limits) (MaxTopicBytes (baseLimits limits))) = Ok tt.
Proof.
  unfold ValidateReadLimits. intros E. apply bind_Ok in E as ([] & Hl & E). apply validate_Ok in Hl as (H1 & H2 & _ & H4). apply validate_Ok.
  destruct (Z.eqb_spec (MaxRequestBytes limits) 0); [by rewrite orb_true_r in E|]. by split_and!.
Qed.

Lemma requestMembers_ok k r : request_shape k r -> is_u32 (FromHeight r) -> is_u32 (ToHeight r) -> is_u32 (reqHeight r) -> membersOk 1 (requestMembers k r).
Proof.
  intros _ Hf Ht Hh. assert (Hu : forall n, is_u32 n -> skipNumber (FormatUint n) = Some []).
  { intros n Hn. apply FormatUint_number. unfold is_u32, is_u64, MaxUint32, MaxUint64 in *. lia. }
  assert (Hhash : forall h d, wf d (hashText h)) by (intros h []; apply String_valid).
  assert (Htx : wf 1 (JArray (map hashText (reqTxIDs r)))) by (cbn [wf]; apply Forall_map, Forall_true; intros h; apply (Hhash h 0%nat)).
  unfold membersOk. destruct k; cbn [requestMembers]; repeat constructor; cbn [snd wf]; auto.
  destruct (reqHash r) as [h|]; repeat constructor. apply (Hhash h 1%nat).
Qed.

Lemma number_field (f : Fields) k n bits : f !! k = Some (render (JNumber (FormatUint n))) -> is_u32 n -> 32 <= bits -> parseUint (default [] (f !! k)) bits = Ok n.
Proof.
  intros -> Hn Hb. cbn [default render]. apply parseUint_format; unfold is_u32, is_u64, MaxUint32, MaxUint64 in *; [lia|].
  pose proof (Z.pow_le_mono_r 2 32 bits). lia.
Qed.

(** Requests survive JSON.  For a request of one of the kinds, within the limits and
    with no fields but those of its kind, every document that has its members in any
    order and among other members with different names is decoded to the request. *)
Theorem request_json k r extra l d limits :
  ValidateReadLimits limits = Ok tt -> request_shape k r -> request_bounds k limits r -> is_u32 (MaxRange (baseLimits limits)) ->
  l ≡ₚ requestMembers k r ++ extra -> (reqHash r = None -> str "blockHash" ∉ l.*1) ->
  (1 <= d)%nat -> Z.of_nat d <= maxNestingDepth -> membersOk d extra -> NoDup l.*1 -> (length l <= 64)%nat ->
  len (render (JObject l)) <= MaxRequestBytes limits ->
  DecodeReadRequest (render (JObject l)) k limits = Ok r.
Proof.
  intros Hlim Hshape Hbounds Hmax Hperm Hnone Hd1 Hd Hextra Hnd Hlen Hsize.
  pose proof Hbounds as (Hfrom & Hto & Hheight & Htxnd & Htxlen & Hk).
  assert (Hl : membersOk d l).
  { unfold membersOk. rewrite Hperm. apply Forall_app. split; [|done]. eapply Forall_impl; [by apply requestMembers_ok|].
    intros m [? Hm]. split; [done|]. by apply (wf_le 1). }
  unfold DecodeReadRequest. rewrite Hlim. cbn [mbind result_bind]. set (bound := mkLimits _ _ _ _).
  destruct (document_object d l bound (ValidateReadLimits_bound _ Hlim) Hd Hl Hnd Hlen Hsize) as (f & Hin & Hout & E).
  apply bind_Ok in E as (dec & Edec & E). rewrite Edec. cbn [mbind result_bind]. rewrite E. cbn [mbind result_bind].
  assert (Heof : requireEOF (mkDecoder [] tokenTopValue []) = Ok tt) by done. rewrite Heof. cbn [mbind result_bind].
  assert (Hf : forall k' j, (k', j) ∈ requestMembers k r -> f !! k' = Some (render j)).
  { intros k' j Hj. apply Hin. rewrite Hperm. apply elem_of_app. by left. }
  destruct k; cbn [request_shape requestMembers decodeRequestFields] in *.
  - by subst r.
  - unfold DecodeRangeJSON. rewrite Edec. cbn [mbind result_bind]. rewrite E. cbn [mbind result_bind]. rewrite Heof. cbn [mbind result_bind]. unfold field.
    rewrite (number_field _ (str "fromHeight") (FromHeight r)) by (done || (apply Hf; by left)). cbn [mbind result_bind].
    rewrite (number_field _ (str "toHeight") (ToHeight r)) by (done || (apply Hf; right; by left)). cbn [mbind result_bind]. rewrite !u32_small by done.
    destruct Hk as (_ & _ & Hle & Hcount). cbn [fst snd] in *. unfold bound at 1. cbn [MaxRange]. rewrite ValidateRange_counts by done.
    rewrite decide_False by (unfold is_u32 in *; lia). rewrite decide_True by done. cbn [mbind result_bind]. by rewrite <- Hshape.
  - unfold field. rewrite (number_field _ (str "blockHeight") (reqHeight r)) by (done || (apply Hf; by left)). cbn [mbind result_bind].
    destruct (reqHash r) as [h|] eqn:Eh.
    + rewrite (Hf (str "blockHash") (hashText h)) by (right; by left). cbn [render hashText]. rewrite parseJSONHash_quote. cbn. rewrite u32_small by done. by rewrite Hshape.
    + rewrite Hout by (by apply Hnone). cbn. rewrite u32_small by done. by rewrite Hshape.
  - unfold field. rewrite (number_field _ (str "blockHeight") (reqHeight r)) by (done || (apply Hf; by left)). cbn [mbind result_bind].
    rewrite (Hf (str "txids") (JArray (map hashText (reqTxIDs r)))) by (right; by left). cbn [default from_option id].
    rewrite decodeRequestedTxIDs_render by done. cbn [mbind result_bind]. rewrite u32_small by done. by rewrite Hshape.
  - unfold field. rewrite (Hf (str "txids") (JArray (map hashText (reqTxIDs r)))) by (by left). cbn [default from_option id].
    rewrite decodeRequestedTxIDs_render by done. cbn [mbind result_bind]. by rewrite Hshape.
  - done.
Qed.

(** ** Documents *)

Module Example.

Definition anchor0 : TopicBlockAnchor := mkAnchor (str "tm_ship") 7 zero_hash zero_hash 0.
Definition extra0 : list (list byte * json) :=
  [(str "tac", JString (String zero_hash)); (str "x", JArray [JNumber (str "-1.5e3"); JNull; JObject [(str "y", JBool true)]])].
Definition members0 : list (list byte * json) := rev (anchorMembers anchor0 ++ extra0).

Lemma extra0_ok : membersOk 2 extra0.
Proof. repeat constructor. Qed.

Lemma anchor_json_witness : DecodeAnchorJSON (render (JObject members0)) DefaultLimits = Ok anchor0.
Proof.
  apply (anchor_json anchor0 extra0 members0 2 DefaultLimits).
  - vm_compute. intuition congruence.
  - vm_compute. reflexivity.
  - unfold members0. symmetry. apply Permutation_rev.
  - vm_compute. congruence.
  - exact extra0_ok.
  - apply (bool_decide_eq_true_1 (NoDup members0.*1)). vm_compute. reflexivity.
  - vm_compute. lia.
  - vm_compute. congruence.
Defined.

Definition request0 : ReadRequest := mkReadRequest 0 0 9 None [zero_hash].

Lemma request_json_witness :
  DecodeReadRequest (render (JObject (requestMembers Proof_ request0 ++ extra0))) Proof_ DefaultReadLimits = Ok request0.
Proof.
  apply (request_json Proof_ request0 extra0 _ 2 DefaultReadLimits).
  - vm_compute. reflexivity.
  - reflexivity.
  - unfold request_bounds. split_and!; try (vm_compute; intuition congruence). all: try apply NoDup_singleton.
  - vm_compute. intuition congruence.
  - reflexivity.
  - intros _. apply (bool_decide_eq_true_1 (str "blockHash" ∉ (requestMembers Proof_ request0 ++ extra0).*1)). vm_compute. reflexivity.
  - lia.
  - vm_compute. congruence.
  - exact extra0_ok.
  - apply (bool_decide_eq_true_1 (NoDup (requestMembers Proof_ request0 ++ extra0).*1)). vm_compute. reflexivity.
  - vm_compute. lia.
  - vm_compute. congruence.
Defined.

(** A lone surrogate is refused; the pair is a face. *)
Example surrogates :
  validUnicodeEscapes (Byte.x22 :: str "\ud83d" ++ [Byte.x22]) = false /\
  validUnicodeEscapes (Byte.x22 :: str "\uD83D\ude00" ++ [Byte.x22]) = true /\
  unquote (str "\uD83D\ude00") = [Byte.xf0; Byte.x9f; Byte.x98; Byte.x80].
Proof. vm_compute. auto. Qed.

Lemma unicode_escapes_lossless_witness :
  (validUnicodeEscapes (Byte.x22 :: str "\ud83d" ++ [Byte.x22]) = true <-> exists d, denotes (str "\ud83d") d) /\
  forall d, denotes (str "\ud83d") d -> unquote (str "\ud83d") = d.
Proof. exact (unicode_escapes_lossless (str "\ud83d" ++ Byte.x22 :: str " ") (str "\ud83d") (str " ") eq_refl eq_refl). Defined.

Lemma json_decoders_safe_witness :
  yields (DecodeAnchorJSON (str "{]") DefaultLimits) (fun a => is_u32 (BlockHeight a) /\ is_u64 (AdmittedCount a) /\ Validate a DefaultLimits = Ok tt) /\
  yields (DecodeRangeJSON (str "{]") DefaultLimits) (range_bounds DefaultLimits) /\
  yields (fst (DecodeAdmittedListJSON (str "{]") 3 DefaultLimits background))
    (fun l => Forall ref_typed l /\ admitted_ok 3 l /\ len l <= MaxAdmitted DefaultLimits) /\
  yields (DecodeReadRequest (str "{]") Tip DefaultReadLimits) (request_bounds Tip DefaultReadLimits).
Proof.
  apply (json_decoders_safe (str "{]") DefaultLimits DefaultReadLimits 3 Tip background); vm_compute; intuition congruence.
Defined.

End Example.

End BasmJson.
